(* ===== verification/_CoqProject ===== *)
-Q . S2P
Prelude.v
Sort.v
Window.v
RateStore.v
LocalStore.v
Limiter.v
Utf8.v
Json.v
Text.v
Sse.v
Snapshot.v
F64.v
Policy.v
Models.v
Pricing.v
Resolve.v
Failure.v
Errors.v
Access.v
EtcdKey.v
Loader.v
Observed.v
Supervisor.v
SnapCache.v
Serving.v
Restart.v
Guardrail.v
Chain.v
GuardIndex.v
Splice.v
HeldContent.v
CacheKey.v
SemCache.v
Budget.v
Quota.v
Health.v
Runtime.v
Balance.v
Routing.v
Network.v
RespCache.v
Dispatch.v
