(* ===== verification/Prelude.v ===== *)
(** * AISIX gateway: verification library

    A Rocq model of the request path of the AISIX LLM gateway, [crates/] of the
    repository: what decides whether a request is admitted, which upstream
    model it is sent to, what happens when that fails, what it is billed, and
    how configuration reaches those decisions.  Definitions are executable and
    follow the source operation by operation; the theorems are about them.

    ** How the parts interact

    Configuration arrives from etcd as keys and bytes ([EtcdKey]); each entry is
    validated into a row or rejected ([Loader]), and a supervisor keeps what is
    observed, what is rejected and what last served ([Observed], [Supervisor],
    [Serving]), keeps a file to restart from ([SnapCache], [Restart]) and publishes
    snapshots ([Snapshot], [Models]).  A request
    presents a key ([Access]) and names a model ([Resolve]), priced by [Pricing].  It
    is first checked against the budgets of its key ([Budget]), then reserves
    every layer that applies to it ([Quota]): the limits of its key and model,
    and the policies whose condition tree it matches, found through an index
    ([Policy]).  A layer is taken through the limiter ([Limiter]) from a store
    behind the [RateStore] interface ([RateStore], [LocalStore]), whose counters
    are [Window]'s.  A Model Group is resolved to an ordered list of attempts
    ([Routing]) over the balancing state ([Balance]) and the runtime status of
    each target ([Runtime]); the attempts are driven one by one ([Dispatch]),
    each with the layers of its own target, its retries and deadlines, and
    failures feed back into the status ([Failure], [Runtime], [Health]) and are
    reported through one taxonomy ([Errors]).  Streamed answers are cut into
    events ([Sse], [Utf8]); names and guardrail inputs are matched and chunked
    by [Text].  The guardrails that govern a request are looked up in an index
    kept up to date with the snapshot ([GuardIndex]) and run as one chain
    ([Chain]) of guardrails ([Guardrail]), whose outcomes reach the metrics and
    the request's audit log; what they mask in a JSON body is spliced into its
    bytes ([Splice]).  An answer may come from the response cache instead
    ([RespCache]): a policy decides who shares it, its key is a fingerprint of the
    request and of that policy ([CacheKey]), and a similar question may be answered
    by the nearest stored one ([SemCache]).  Output that guardrails hold back is
    measured and bounded by [HeldContent]; who a request comes from, and which hosts
    a URL in it may lead to, is decided by [Network].

    ** File by file

    - [Prelude]: machine integers with saturation and wrap-around written out,
      a result type, a state-and-error monad with its frame predicate, string
      and list lemmas, automation.
    - [Sort]: a stable sort, adjacent de-duplication and the order of strings,
      as the standard library's [sort_by], [dedup] and [str::cmp].
    - [Window]: [aisix-ratelimit/src/window.rs].  A counter refines a table of
      counts per window; the retry hint is exact.
    - [RateStore]: [aisix-ratelimit/src/store/mod.rs], [error.rs] and
      [limiter.rs] (status), [aisix-core/src/models/rate_limit.rs].  [RateStore]
      is a type class, with the source's default methods.
    - [LocalStore]: [store/local.rs], [clock.rs].  [acquire] implements the
      declarative admission rule; reaping is invisible; a claim is granted
      once.
    - [Limiter]: [limiter.rs].  Slots are held exactly while a reservation or
      stream owns them, in every interleaving; concurrency is capped; streams
      are billed as buffered answers.
    - [Utf8]: lossy decoding and encoding as the standard library does them.
    - [Text]: [aisix-core/src/wildcard.rs], [aisix-guardrails/src/chunk.rs].
    - [Sse]: [aisix-gateway/src/sse.rs].  The splitter implements the
      event-stream rules for every chunking of the bytes, and its buffer is
      bounded.
    - [Snapshot]: [aisix-core/src/snapshot.rs].  Indices, generations and the
      order of publication.
    - [F64]: the part of binary64 arithmetic that ranking uses, over the
      Standard Library's [SpecFloat], with [total_cmp].
    - [Policy]: [models/policy_conditions.rs], [rate_limit_policy.rs],
      [aisix-proxy/src/policy_index.rs].  Validation accepts exactly the
      well-formed trees; a suspension window is a stretch of wall-clock time;
      the index never leaves out a policy that could match.
    - [Models]: the configured documents dispatch reads.
    - [Pricing]: [models/pricing.rs].  The price in force, and the cache keyed by
      generations.
    - [Resolve]: [aisix-proxy/src/model_resolve.rs].  The exact name, else the most
      specific wildcard row, in whatever order the table iterates.
    - [Access]: [aisix-proxy/src/auth.rs], [models/apikey.rs].  A request is
      authenticated exactly when its first credential names a live key; grants
      by id follow a row through a rename.
    - [EtcdKey]: [aisix-etcd/src/key.rs], [backoff.rs].  A key names one document.
    - [Loader]: [loader.rs].  Every entry is accounted for; one bad row never
      stops the others.  Schemas and typed documents are the class [Documents].
    - [Observed]: [ObservedState] of [supervisor.rs].  The served version moves
      exactly when what serves does.
    - [Supervisor]: [supervisor.rs].  A coalesced batch decides what its events
      decide one at a time.
    - [SnapCache]: [snapshot_cache.rs].  The file a process restarts from, the
      tickets of its writes, and that what is written is what is read.
    - [Serving]: the contract of [supervisor.rs], one map from a key to the entry
      it serves from, and that every life of a supervisor, restarts included,
      implements it.
    - [Restart]: the supervisor with its cache and the write tasks it spawned.  A
      process that starts from the file serves what the one before it served last,
      or at some moment, whatever the order in which tasks run, fail or are lost.
    - [Guardrail]: [aisix-guardrails/src/lib.rs] and the row decorators of
      [build.rs]: verdicts, streamed-output policies, the trait with its defaults,
      the latest-turn window.  A guardrail is the record of its methods.
    - [Chain]: [chain.rs], [audit.rs].  The first block decides, in its member's
      name, and is in the log; masks compose in order and in place; a monitored
      chain changes no answer.
    - [GuardIndex]: [index.rs], [build.rs].  A chain has each guardrail once, by its
      best attachment; an edit that does not build never switches a rule off, and
      reusing instances is invisible.
    - [Splice]: [aisix-proxy/src/json_splice.rs].  Rewriting succeeds exactly on the
      documents of the JSON grammar and touches the replaced tokens only.
    - [Json]: the value type of [serde_json] and its accessors.
    - [HeldContent]: [aisix-proxy/src/held_content.rs], [LiveScanBudget] of
      [guardrail_stream.rs].  A Responses stream is charged once for what it shows;
      the process counter is the sum of what its buffers hold; a live scan keeps no
      more than its cap.
    - [CacheKey]: [aisix-cache/src/key.rs].  Fingerprints tell apart exactly the
      requests that differ, the order of JSON keys aside; the text that is embedded
      reads back to its messages.
    - [SemCache]: [semantic.rs].  A lookup answers with the nearest live entry of
      its partition, the latest write of its slot.
    - [RespCache]: [cache.rs], [memory.rs], [models/cache_policy.rs],
      [aisix-proxy/src/response_cache.rs] and the cache steps of [chat.rs].  Backends
      are instances of the classes [Cache] and [SemanticCacheStore] with their laws;
      whatever is served was stored by a request alike, by a caller allowed to
      share it.
    - [Failure]: [aisix-gateway/src/bridge.rs] and the failure half of
      [aisix-proxy/src/routing.rs] and [cooldown.rs].
    - [Errors]: [aisix-proxy/src/error.rs], the classification half of
      [attempt.rs] and of [aisix-gateway/src/bridge.rs].  The two readings of
      who is to blame agree.
    - [Budget]: [aisix-proxy/src/budget.rs], [models/budget.rs].  The verdict on
      a key is the declarative one over the documents themselves.
    - [Quota]: [aisix-proxy/src/quota.rs].  The gate implements an
      all-or-nothing reservation of the layers read off the whole policy table;
      a refused request holds nothing; a conditional policy's bucket is its
      tuple of [group_by] values; every policy reserves at one gate; a later
      bill goes to the reserved buckets.
    - [Health], [Runtime]: [aisix-proxy/src/health.rs].
    - [Balance]: weighted round-robin and the consistent-hash ring of
      [aisix-proxy/src/routing.rs].
    - [Routing]: resolution, [resolve_attempt_models] and what it calls.
    - [Network]: [aisix-gateway/src/ssrf.rs], [aisix-proxy/src/client_ip.rs].  An
      address is public exactly when it lies in no special-purpose network; a guarded
      request reaches public addresses only; a sender cannot choose its own address.
    - [Dispatch]: [attempt.rs] and [walk_targets] of [routing.rs].  What a walk
      tries, records and answers; every attempt reaches the metrics once; a walk
      gives back what it reserved.  The route's own call is an argument.

    ** Conventions

    Unsigned integers are [N] with [wrap64], [sat_add] or [N.sub] where the
    source wraps or saturates; weights and priorities are [Z].  A [DashMap] or
    [HashMap] is a [gmap] where order does not matter.  Locks are modelled by
    running the critical section as one step; interleavings are sequences of
    such steps.  What would panic is [None], or a throw
    of [None] where the code also throws errors.  Clocks, jitter, upstream answers
    and hash seeds are arguments.

    ** Fuel and bounds

    [Balance.gcd] runs Euclid's loop with fuel twice the bit size of its second
    argument plus one, which [gcd] is proved to be enough for; [Sse.feed_loop]
    and the line scanner take the length of the buffer, of which each round
    consumes a byte; [Failure.retry_loop] recurses on the number of calls left,
    as the [for] of the source, and so does [Dispatch.attempt_loop];
    [Splice.splice_loop] takes the length of the document, of which every turn
    reads a byte, and [HeldContent.sse_frame_payloads_from] the length of the
    body, of which every frame takes one (proved enough).  All other recursion is
    structural.

    ** Not modelled

    HTTP handlers and the async runtime (with the dispatch loops of the chat,
    messages and responses routes), provider wire formats, Redis scripts and the
    cache backends behind them, the embedding call, SHA-256 and the printing of
    JSON (arguments of the cache keys), [moka]'s eviction (the class [Moka]), the
    etcd client and the timers of the watch loop, the heartbeat, JWT
    verification, name resolution and the parsing of URLs and networks, the guardrail
    checkers that call a service, a script or an
    expression engine, exporters, the portal, admin and console programs: I/O
    and glue over third-party libraries.  Logging is left out except for the
    throttle that decides whether a line is written. *)

From stdpp Require Export base tactics numbers option list strings gmap fin_maps.

(** ** Machine integers

    A [u64] (or [u32], [usize]) of the source is an [N]; the saturating and
    wrapping operations are written out.  [saturating_sub] is the truncated
    subtraction [N.sub]. *)

Definition u64_max : N := 18446744073709551615.
Definition u32_mod : N := 4294967296.

Definition sat_add (a b : N) : N := N.min (a + b) u64_max.
Definition sat_mul (a b : N) : N := N.min (a * b) u64_max.
Definition wrap64 (a : N) : N := (a mod 18446744073709551616)%N.

(** [Option::or_else] *)
Definition or_else {A} (a b : option A) : option A := match a with Some _ => a | None => b end.

Declare Scope u64_scope.
Delimit Scope u64_scope with u64.
Notation "a ⊞ b" := (sat_add a b) (at level 50, left associativity) : u64_scope.
Notation "a ⊠ b" := (sat_mul a b) (at level 40, left associativity) : u64_scope.
Open Scope u64_scope.

(** ** Fallible code

    Rust's [Result], and the state-and-error monad of code that mutates a
    locked value and may return early: an early return keeps the mutations made
    so far. *)

Inductive result (A E : Type) :=
  | ROk (a : A)
  | RErr (e : E).
Arguments ROk {A E} a.
Arguments RErr {A E} e.

#[export] Instance result_eq_dec `{EqDecision A, EqDecision E} : EqDecision (result A E).
Proof. solve_decision. Defined.

Definition stm (S E A : Type) : Type := S -> result A E * S.

Definition stm_ret {S E A} (a : A) : stm S E A := fun s => (ROk a, s).
Definition stm_throw {S E A} (e : E) : stm S E A := fun s => (RErr e, s).
Definition stm_bind {S E A B} (m : stm S E A) (f : A -> stm S E B) : stm S E B :=
  fun s =>
    match m s with
    | (ROk a, s') => f a s'
    | (RErr e, s') => (RErr e, s')
    end.
Definition stm_modify {S E} (f : S -> S) : stm S E unit := fun s => (ROk tt, f s).
Definition stm_gets {S E A} (f : S -> A) : stm S E A := fun s => (ROk (f s), s).

Declare Scope stm_scope.
Delimit Scope stm_scope with stm.
Notation "'let!' x := m 'in' k" := (stm_bind m (fun x => k))
  (at level 10, x pattern, m at level 100, k at level 200) : stm_scope.
Notation "m ;;! k" := (stm_bind m (fun _ => k))
  (at level 101, right associativity) : stm_scope.
Open Scope stm_scope.

Lemma stm_bind_cong {S E A B} (m m' : stm S E A) (f f' : A -> stm S E B) s :
  m s = m' s -> (forall a s', f a s' = f' a s') -> stm_bind m f s = stm_bind m' f' s.
Proof. unfold stm_bind. intros -> H. by destruct (m' s) as [[]]. Qed.

Lemma stm_bind_assoc {S E A B C} (m : stm S E A) (f : A -> stm S E B) (g : B -> stm S E C) s :
  stm_bind (stm_bind m f) g s = stm_bind m (fun a => stm_bind (f a) g) s.
Proof. unfold stm_bind. by destruct (m s) as [[]]. Qed.

(** [keeps P m]: [m] preserves [P], whether it returns or throws. *)
Definition keeps {S E A} (P : S -> Prop) (m : stm S E A) : Prop := forall s, P s -> P (snd (m s)).

Section keeps.
Context {S E : Type} (P : S -> Prop).

Lemma keeps_ret {A} (a : A) : keeps P (stm_ret a : stm S E A).
Proof. by intros s. Qed.
Lemma keeps_throw {A} (e : E) : keeps P (stm_throw e : stm S E A).
Proof. by intros s. Qed.
Lemma keeps_gets {A} (f : S -> A) : keeps P (stm_gets f : stm S E A).
Proof. by intros s. Qed.
Lemma keeps_modify (f : S -> S) : (forall s, P s -> P (f s)) -> keeps P (stm_modify f : stm S E unit).
Proof. intros H s Hs. by apply H. Qed.
Lemma keeps_bind {A B} (m : stm S E A) (f : A -> stm S E B) :
  keeps P m -> (forall a, keeps P (f a)) -> keeps P (stm_bind m f).
Proof.
  intros Hm Hf s Hs. specialize (Hm s Hs). unfold stm_bind.
  destruct (m s) as [[a|e] s']; [by apply Hf|done].
Qed.

(** A bind either reaches its continuation or throws; [P] holds at both. *)
Lemma keeps_bind_inv {A B} (m : stm S E A) (f : A -> stm S E B) s r s' :
  P s -> keeps P m -> stm_bind m f s = (r, s') ->
  (exists a s1, P s1 /\ f a s1 = (r, s')) \/ (exists e, r = RErr e /\ P s').
Proof.
  intros Hs Hm. specialize (Hm s Hs). unfold stm_bind.
  destruct (m s) as [[a|e] s1]; intros ?; [left; eauto|right; simplify_eq; eauto].
Qed.
End keeps.

(** Strings. *)
#[export] Instance append_assoc : Assoc (=) String.append.
Proof. intros s t u. induction s as [|a s IH]; [done|]. exact (f_equal (String a) IH). Qed.
#[export] Instance append_nil_r : RightId (=) "" String.append.
Proof. intros s. induction s as [|a s IH]; [done|]. exact (f_equal (String a) IH). Qed.

(** Lists. *)
Lemma NoDup_fmap_filter {A B} (f : A -> B) (P : A -> Prop) `{!forall x, Decision (P x)} l :
  NoDup (f <$> l) -> NoDup (f <$> filter P l).
Proof.
  induction l as [|x l IH]; [done|]. rewrite fmap_cons. intros [Hx Hn]%NoDup_cons.
  rewrite filter_cons. case_decide; [|by apply IH]. rewrite fmap_cons. constructor; [|by apply IH].
  intros (y & Hf & [_ Hy]%list_elem_of_filter)%list_elem_of_fmap. apply Hx. rewrite Hf.
  by apply list_elem_of_fmap_2.
Qed.

Lemma filter_ext_elem {A} (P Q : A -> Prop) `{!forall x, Decision (P x), !forall x, Decision (Q x)}
    (l : list A) :
  (forall x, x ∈ l -> P x <-> Q x) -> filter P l = filter Q l.
Proof.
  induction l as [|x l IH]; [done|]. intros Hl. rewrite !filter_cons.
  rewrite IH by (intros; apply Hl; by right). specialize (Hl x (list_elem_of_here x l)).
  repeat case_decide; tauto.
Qed.

Lemma filter_none {A} (P : A -> Prop) `{!forall x, Decision (P x)} (l : list A) :
  (forall x, x ∈ l -> ~ P x) -> filter P l = [].
Proof.
  induction l as [|x l IH]; [done|]. intros Hl. rewrite filter_cons_False; [|apply Hl; by left].
  apply IH. intros y Hy. apply Hl. by right.
Qed.

Lemma filter_all {A} (P : A -> Prop) `{!forall x, Decision (P x)} (l : list A) :
  (forall x, x ∈ l -> P x) -> filter P l = l.
Proof.
  induction l as [|x l IH]; [done|]. intros Hl. rewrite filter_cons_True; [|apply Hl; by left].
  f_equal. apply IH. intros y Hy. apply Hl. by right.
Qed.

Lemma filter_fmap {A B} (f : A -> B) (P : B -> Prop) `{!forall x, Decision (P x)} (l : list A) :
  filter P (f <$> l) = f <$> filter (fun x => P (f x)) l.
Proof.
  induction l as [|x l IH]; [done|]. rewrite fmap_cons, !filter_cons. case_decide; simpl; by rewrite IH.
Qed.

Create HintDb aisix.
#[export] Hint Resolve keeps_ret keeps_throw keeps_gets keeps_modify keeps_bind : aisix.
Create Rewrite HintDb aisix.

(** [destruct_ifs] case-splits every conditional and match of the goal and
    keeps the equations; [nlia] first turns the boolean comparisons on [N] that
    the code uses into propositions. *)
Ltac nbool :=
  repeat match goal with
  | H : (_ =? _)%N = true |- _ => apply N.eqb_eq in H
  | H : (_ =? _)%N = false |- _ => apply N.eqb_neq in H
  | H : (_ <? _)%N = true |- _ => apply N.ltb_lt in H
  | H : (_ <? _)%N = false |- _ => apply N.ltb_ge in H
  | H : (_ <=? _)%N = true |- _ => apply N.leb_le in H
  | H : (_ <=? _)%N = false |- _ => apply N.leb_gt in H
  | H : (_ && _)%bool = true |- _ => apply andb_prop in H; destruct H
  end.
Ltac nlia := unfold sat_add, sat_mul, u64_max, u32_mod in *; nbool; lia.
Ltac destruct_ifs := repeat (case_match; simpl in *; simplify_eq/=; try done).

Lemma sat_add_le_max a b : (a ⊞ b <= u64_max)%N.
Proof. unfold sat_add. lia. Qed.

Lemma sat_add_0_l a : (a <= u64_max -> 0 ⊞ a = a)%N.
Proof. unfold sat_add. lia. Qed.

Lemma sat_add_assoc a b c : (a ⊞ b) ⊞ c = a ⊞ (b ⊞ c).
Proof. unfold sat_add, u64_max. lia. Qed.

Lemma sat_add_comm a b : a ⊞ b = b ⊞ a.
Proof. unfold sat_add. by rewrite N.add_comm. Qed.

Lemma sat_add_mono a b a' b' : (a <= a' -> b <= b' -> a ⊞ b <= a' ⊞ b')%N.
Proof. unfold sat_add. lia. Qed.

#[export] Hint Resolve sat_add_le_max sat_add_mono : aisix.
#[export] Hint Rewrite sat_add_assoc : aisix.

(** [List.filter] keeps the order. *)
Lemma list_filter_sublist {A} (p : A -> bool) l : List.filter p l `sublist_of` l.
Proof. induction l as [|x l IH]; simpl; [constructor|]. destruct (p x); by constructor. Qed.

(** ** Sums over a map *)

Section map_sum.
Context {K A : Type} `{Countable K} (f : A -> N).
Implicit Types m : gmap K A.

Definition map_sum (m : gmap K A) : N := map_fold (fun _ a n => (f a + n)%N) 0%N m.

Lemma map_sum_empty : map_sum ∅ = 0%N.
Proof. apply map_fold_empty. Qed.

Lemma map_sum_insert k a m : m !! k = None -> map_sum (<[k := a]> m) = (f a + map_sum m)%N.
Proof. intros Hk. apply (map_fold_insert_L (fun _ a n => f a + n)%N); [intros; lia|done]. Qed.

Lemma map_sum_delete k m : map_sum m = (from_option f 0 (m !! k) + map_sum (delete k m))%N.
Proof.
  destruct (m !! k) as [a|] eqn:E; cbn [from_option].
  - rewrite <- (insert_delete_id m k a E) at 1. apply map_sum_insert, lookup_delete_eq.
  - by rewrite delete_id.
Qed.

Lemma map_sum_update k a m : (map_sum (<[k := a]> m) + from_option f 0 (m !! k) = f a + map_sum m)%N.
Proof.
  rewrite (map_sum_delete k m), <- (insert_delete_eq m k a), map_sum_insert by apply lookup_delete_eq. lia.
Qed.
End map_sum.

(** ** Bytes and strings *)

(** [n] little-endian bytes of [x]. *)
Fixpoint le_bytes (n : nat) (x : N) : list N :=
  match n with
  | O => []
  | S n => (x mod 256)%N :: le_bytes n (x / 256)%N
  end.

(** [str::replace] of one character. *)
Fixpoint replace_char (c : Ascii.ascii) (by_ s : string) : string :=
  match s with
  | EmptyString => EmptyString
  | String a s => (if Ascii.eqb a c then by_ else String a EmptyString) +:+ replace_char c by_ s
  end.

(** ** Time buckets

    [bucket w t] is the start of the [w]-second window that holds second [t]:
    the expression [(now_secs / window_secs) * window_secs] of the counters. *)

Definition bucket (w t : N) : N := (t / w * w)%N.

Section bucket.
Context (w : N) (Hw : (0 < w)%N).

Lemma bucket_le t : (bucket w t <= t)%N.
Proof. unfold bucket. rewrite N.mul_comm. apply N.Div0.mul_div_le. Qed.

Lemma bucket_lt t : (t < bucket w t + w)%N.
Proof.
  unfold bucket. rewrite <- N.mul_succ_l, N.mul_comm.
  apply N.mul_succ_div_gt. lia.
Qed.

Lemma bucket_mono t t' : (t <= t' -> bucket w t <= bucket w t')%N.
Proof.
  intros Ht. unfold bucket. apply N.mul_le_mono_r, N.Div0.div_le_mono, Ht.
Qed.

Lemma bucket_next t t' : (bucket w t + w <= t' -> bucket w t <> bucket w t')%N.
Proof. pose proof (bucket_lt t'). lia. Qed.

Lemma bucket_same t t' :
  (bucket w t <= t' -> t' < bucket w t + w -> bucket w t' = bucket w t)%N.
Proof.
  unfold bucket. intros Hle Hlt.
  replace t' with (t' - t / w * w + t / w * w)%N at 1 by lia.
  rewrite N.div_add by lia. rewrite (N.div_small (t' - _)) by lia. lia.
Qed.

Lemma bucket_idemp t : bucket w (bucket w t) = bucket w t.
Proof. apply bucket_same; pose proof (bucket_lt t); lia. Qed.
End bucket.
#[export] Hint Resolve bucket_le bucket_lt bucket_mono : aisix.
