(* ===== verification/Sort.v ===== *)
(** * Sorting

    [slice::sort_by], [sort_by_key] and [Vec::dedup] as the source uses them,
    the order of [str], and what the components rely on: a sort permutes, sorts,
    keeps equals in order, and commutes with maps that respect the order. *)

From S2P Require Import Prelude.

(** ** Sorting

    [slice::sort_by] is stable; any stable sort gives the same list, so the
    order is computed by insertion. *)

Section sort.
Context {A : Type} (leb : A -> A -> bool).

Fixpoint insert_sorted (x : A) (l : list A) : list A :=
  match l with
  | [] => [x]
  | y :: l => if leb x y then x :: y :: l else y :: insert_sorted x l
  end.

Fixpoint stable_sort (l : list A) : list A :=
  match l with
  | [] => []
  | x :: l => insert_sorted x (stable_sort l)
  end.

Lemma insert_sorted_perm x l : insert_sorted x l ≡ₚ x :: l.
Proof.
  induction l as [|y l IH]; simpl; [done|]. destruct (leb x y); [done|].
  rewrite IH. constructor.
Qed.

Lemma stable_sort_perm l : stable_sort l ≡ₚ l.
Proof. induction l as [|x l IH]; simpl; [done|]. by rewrite insert_sorted_perm, IH. Qed.

Context (leb_total : forall x y, leb x y = true \/ leb y x = true).
Context (leb_trans : forall x y z, leb x y = true -> leb y z = true -> leb x z = true).

Inductive sorted : list A -> Prop :=
  | sorted_nil : sorted []
  | sorted_cons x l : (forall y, y ∈ l -> leb x y = true) -> sorted l -> sorted (x :: l).

Lemma insert_sorted_sorted x l : sorted l -> sorted (insert_sorted x l).
Proof.
  induction 1 as [|y l Hy Hs IH]; simpl; [by repeat constructor; set_solver|].
  destruct (leb x y) eqn:E.
  - constructor; [|by constructor]. intros z [-> | Hz]%elem_of_cons; [done|].
    eapply leb_trans; [exact E|by apply Hy].
  - constructor; [|done]. intros z. rewrite insert_sorted_perm.
    intros [-> | Hz]%elem_of_cons; [|by apply Hy]. destruct (leb_total x y); congruence.
Qed.

Lemma stable_sort_sorted l : sorted (stable_sort l).
Proof. induction l; simpl; [constructor|by apply insert_sorted_sorted]. Qed.

Lemma sorted_filter (P : A -> Prop) `{!forall x, Decision (P x)} l : sorted l -> sorted (filter P l).
Proof.
  induction 1 as [|x l Hx Hs IH]; [constructor|]. rewrite filter_cons. case_decide; [|done].
  constructor; [|done]. intros y [_ Hy]%list_elem_of_filter. by apply Hx.
Qed.

(** A sorted list is determined by its elements. *)
Lemma sorted_unique l l' :
  (forall x y, leb x y = true -> leb y x = true -> x = y) ->
  sorted l -> sorted l' -> l ≡ₚ l' -> l = l'.
Proof.
  intros Hanti Hs. revert l'. induction Hs as [|x l Hx Hs IH]; intros l' Hs' Hp.
  - symmetry in Hp. by apply Permutation_nil_r in Hp.
  - destruct Hs' as [|y l' Hy Hs']; [by apply Permutation_nil_r in Hp|].
    assert (leb x x = true) as Hrefl by (destruct (leb_total x x); done).
    assert (x = y) as <-.
    { apply Hanti.
      - assert (y ∈ x :: l) as [-> | Hin]%elem_of_cons by (rewrite Hp; by left); [done|by apply Hx].
      - assert (x ∈ y :: l') as [-> | Hin]%elem_of_cons by (rewrite <- Hp; by left); [done|by apply Hy]. }
    f_equal. apply IH; [done|]. by apply Permutation_cons_inv in Hp.
Qed.

(** Equals keep their order: restricted to a class of equals, sorting is the
    identity. *)
Lemma insert_sorted_filter (P : A -> Prop) `{!forall x, Decision (P x)} x l :
  (forall y z, P y -> P z -> leb y z = true) ->
  filter P (insert_sorted x l) = filter P (x :: l).
Proof.
  intros HP. induction l as [|y l IH]; simpl; [done|]. destruct (leb x y) eqn:E; [done|].
  rewrite filter_cons, IH, !filter_cons. repeat case_decide; try done.
  by rewrite (HP x y) in E.
Qed.

Lemma stable_sort_stable (P : A -> Prop) `{!forall x, Decision (P x)} l :
  (forall y z, P y -> P z -> leb y z = true) -> filter P (stable_sort l) = filter P l.
Proof.
  intros HP. induction l as [|x l IH]; simpl; [done|].
  rewrite insert_sorted_filter, !filter_cons by done. by rewrite IH.
Qed.
End sort.

(** A map that respects the order commutes with sorting. *)
Lemma insert_sorted_fmap {A B} (leb : A -> A -> bool) (leb' : B -> B -> bool) (f : A -> B) x l :
  (forall y, y ∈ l -> leb' (f x) (f y) = leb x y) ->
  insert_sorted leb' (f x) (f <$> l) = f <$> insert_sorted leb x l.
Proof.
  induction l as [|y l IH]; intros H; [done|]. rewrite fmap_cons. cbn [insert_sorted]. rewrite (H y) by by left.
  destruct (leb x y); [done|]. rewrite fmap_cons. f_equal. apply IH. intros; apply H; by right.
Qed.

Lemma stable_sort_fmap {A B} (leb : A -> A -> bool) (leb' : B -> B -> bool) (f : A -> B) l :
  (forall x y, x ∈ l -> y ∈ l -> leb' (f x) (f y) = leb x y) ->
  stable_sort leb' (f <$> l) = f <$> stable_sort leb l.
Proof.
  induction l as [|x l IH]; intros H; [done|]. rewrite fmap_cons. cbn [stable_sort]. rewrite IH.
  - apply insert_sorted_fmap. intros y. rewrite stable_sort_perm. intros Hy.
    apply H; [by left|by right].
  - intros; apply H; by right.
Qed.

(** ** [Vec::dedup] *)

(** Drops an element equal to its predecessor. *)
Fixpoint dedup {A} `{EqDecision A} (l : list A) : list A :=
  match l with
  | [] => []
  | x :: l =>
      match l with
      | y :: _ => if bool_decide (x = y) then dedup l else x :: dedup l
      | [] => [x]
      end
  end.

Section dedup.
Context {A : Type} `{EqDecision A}.
Implicit Types l : list A.

Lemma dedup_cons x y l :
  dedup (x :: y :: l) = if bool_decide (x = y) then dedup (y :: l) else x :: dedup (y :: l).
Proof. done. Qed.

Lemma dedup_elem l z : z ∈ dedup l <-> z ∈ l.
Proof.
  induction l as [|x [|y l] IH]; [done|done|]. rewrite dedup_cons. case_bool_decide; subst.
  - rewrite IH. set_solver.
  - rewrite !elem_of_cons in *. tauto.
Qed.

(** On a sorted list nothing is left twice. *)
Lemma dedup_sorted_NoDup (leb : A -> A -> bool) l :
  (forall x y, leb x y = true -> leb y x = true -> x = y) -> sorted leb l -> NoDup (dedup l).
Proof.
  intros Hanti. induction 1 as [|x l Hx Hs IH]; [constructor|]. destruct l as [|y l]; [repeat constructor; set_solver|].
  rewrite dedup_cons. case_bool_decide as Hxy; [done|]. constructor; [|done]. rewrite dedup_elem.
  intros Hin. apply Hxy. apply Hanti; [by apply Hx; left|].
  apply elem_of_cons in Hin as [-> | Hin]; [by apply Hx; left|]. inversion Hs as [|? ? Hy _]; subst. by apply Hy.
Qed.

Lemma dedup_sorted (leb : A -> A -> bool) l : sorted leb l -> sorted leb (dedup l).
Proof.
  induction 1 as [|x l Hx Hs IH]; [constructor|]. destruct l as [|y l]; [repeat constructor; set_solver|].
  rewrite dedup_cons. case_bool_decide; [done|]. constructor; [|done]. intros z. rewrite dedup_elem. apply Hx.
Qed.
End dedup.

(** ** The order of [str] *)

Definition string_leb (a b : string) : bool :=
  match String.compare a b with Gt => false | _ => true end.

Lemma string_leb_cons a s b t :
  string_leb (String a s) (String b t) =
    match N.compare (Ascii.N_of_ascii a) (Ascii.N_of_ascii b) with
    | Eq => string_leb s t
    | Lt => true
    | Gt => false
    end.
Proof.
  unfold string_leb. cbn [String.compare]. unfold Ascii.compare.
  by destruct (N.compare (Ascii.N_of_ascii a) (Ascii.N_of_ascii b)).
Qed.

Lemma string_leb_total a b : string_leb a b = true \/ string_leb b a = true.
Proof. unfold string_leb. rewrite (String.compare_antisym a b). destruct (String.compare b a); auto. Qed.

Lemma string_leb_antisym a b : string_leb a b = true -> string_leb b a = true -> a = b.
Proof.
  unfold string_leb. rewrite (String.compare_antisym a b). intros H1 H2. apply String.compare_eq_iff.
  rewrite String.compare_antisym. by destruct (String.compare b a).
Qed.

Lemma string_leb_trans a b c : string_leb a b = true -> string_leb b c = true -> string_leb a c = true.
Proof.
  revert b c. induction a as [|x a IH]; intros b c; [by destruct c|].
  destruct b as [|y b]; [done|]. destruct c as [|z c]; [done|]. rewrite !string_leb_cons.
  generalize (Ascii.N_of_ascii x), (Ascii.N_of_ascii y), (Ascii.N_of_ascii z). intros p q r.
  specialize (IH b c).
  destruct (N.compare_spec p q), (N.compare_spec q r), (N.compare_spec p r); subst; auto; lia.
Qed.

#[export] Hint Resolve string_leb_total string_leb_trans string_leb_antisym : aisix.
