(* ===== verification/Window.v ===== *)
(** * Fixed-window counter ([crates/aisix-ratelimit/src/window.rs])

    One counter that resets at the start of every window.  A [&mut self]
    method returns the counter it leaves behind next to its result; the
    current second is an argument, as in the source.

    The last section refines the counter to a ledger of admitted amounts: the
    count is what the ledger holds for the window of the current second. *)

From S2P Require Import Prelude.
Local Open Scope N_scope.

Inductive WindowCheck :=
  | Ok
  | Full (retry_after_secs : N).

Record FixedWindowCounter := mkCounter {
  window_secs : N;
  window_start : N;
  count : N;
}.

#[export] Instance WindowCheck_eq_dec : EqDecision WindowCheck.
Proof. solve_decision. Defined.
#[export] Instance FixedWindowCounter_eq_dec : EqDecision FixedWindowCounter.
Proof. solve_decision. Defined.

(** [FixedWindowCounter::new] asserts a positive window: [None] is its panic. *)
Definition counter_new (w : N) : option FixedWindowCounter :=
  if 0 <? w then Some (mkCounter w 0 0) else None.

Definition roll_if_stale (now_secs : N) (c : FixedWindowCounter) : FixedWindowCounter :=
  let bucket_start := now_secs / window_secs c * window_secs c in
  if bucket_start =? window_start c then c
  else mkCounter (window_secs c) bucket_start 0.

(** Seconds until the window rolls over, at least one: the expression both
    [check_and_increment] and [is_exceeded] report. *)
Definition remainder_hint (now_secs : N) (c : FixedWindowCounter) : N :=
  N.max (window_secs c - (now_secs - window_start c)) 1.

Definition check_and_increment (now_secs delta limit : N) (c : FixedWindowCounter)
    : WindowCheck * FixedWindowCounter :=
  let c := roll_if_stale now_secs c in
  let would_be := count c ⊞ delta in
  if limit <? would_be then (Full (remainder_hint now_secs c), c)
  else (Ok, mkCounter (window_secs c) (window_start c) would_be).

Definition counter_add (now_secs delta : N) (c : FixedWindowCounter) : FixedWindowCounter :=
  let c := roll_if_stale now_secs c in
  mkCounter (window_secs c) (window_start c) (count c ⊞ delta).

Definition decrement (now_secs delta : N) (c : FixedWindowCounter) : FixedWindowCounter :=
  let bucket_start := now_secs / window_secs c * window_secs c in
  if bucket_start =? window_start c
  then mkCounter (window_secs c) (window_start c) (count c - delta)
  else c.

Definition current (now_secs : N) (c : FixedWindowCounter) : N * FixedWindowCounter :=
  let c := roll_if_stale now_secs c in (count c, c).

Definition is_exceeded (now_secs limit : N) (c : FixedWindowCounter)
    : option N * FixedWindowCounter :=
  let c := roll_if_stale now_secs c in
  if limit <=? count c then (Some (remainder_hint now_secs c), c) else (None, c).

(** The value a read at [now] would report. *)
Definition reading (now : N) (c : FixedWindowCounter) : N := fst (current now c).

#[global] Arguments check_and_increment : simpl never.
#[global] Arguments counter_add : simpl never.
#[global] Arguments decrement : simpl never.
#[global] Arguments current : simpl never.
#[global] Arguments is_exceeded : simpl never.
#[global] Arguments reading : simpl never.

(** ** Basic facts *)

Lemma reading_alt now c :
  reading now c =
  if bucket (window_secs c) now =? window_start c then count c else 0.
Proof. unfold reading, current, roll_if_stale, bucket. by case_match. Qed.

(** A counter as every operation leaves it at second [now]. *)
Definition rolled (now v : N) (c : FixedWindowCounter) : FixedWindowCounter :=
  mkCounter (window_secs c) (bucket (window_secs c) now) v.

Lemma roll_if_stale_rolled now c :
  roll_if_stale now c = rolled now (reading now c) c.
Proof.
  rewrite reading_alt. unfold roll_if_stale, rolled, bucket.
  destruct c; simpl. case_match; nbool; by subst.
Qed.

Lemma reading_rolled_same now now' v c :
  bucket (window_secs c) now' = bucket (window_secs c) now ->
  reading now' (rolled now v c) = v.
Proof. intros E. rewrite reading_alt; simpl. by rewrite E, N.eqb_refl. Qed.

Lemma reading_rolled now v c : reading now (rolled now v c) = v.
Proof. by apply reading_rolled_same. Qed.

Lemma rolled_rolled now v v' c : rolled now v (rolled now v' c) = rolled now v c.
Proof. done. Qed.

(** Time left until the window that holds [now] ends. *)
Definition to_boundary (w now : N) : N := bucket w now + w - now.

Lemma to_boundary_range w now : 0 < w -> 1 <= to_boundary w now <= w.
Proof.
  intros Hw. unfold to_boundary.
  pose proof (bucket_le w now). pose proof (bucket_lt w Hw now). lia.
Qed.

Lemma to_boundary_rolls w now later :
  0 < w -> now + to_boundary w now <= later -> bucket w later <> bucket w now.
Proof.
  intros Hw Hl. pose proof (to_boundary_range w now Hw) as Hr.
  unfold to_boundary in *. apply not_eq_sym, bucket_next; lia.
Qed.

(** The [.max(1)] of the source never fires: a counter that has just rolled is
    strictly before its boundary. *)
Lemma remainder_hint_rolled now v c :
  0 < window_secs c ->
  remainder_hint now (rolled now v c) = to_boundary (window_secs c) now.
Proof.
  intros Hw. pose proof (to_boundary_range (window_secs c) now Hw).
  unfold remainder_hint, to_boundary in *; simpl in *.
  pose proof (bucket_le (window_secs c) now). lia.
Qed.

(** Every operation in terms of [reading] and [rolled]. *)
Lemma check_and_increment_alt now d l c :
  0 < window_secs c ->
  check_and_increment now d l c =
  if l <? reading now c ⊞ d
  then (Full (to_boundary (window_secs c) now), rolled now (reading now c) c)
  else (Ok, rolled now (reading now c ⊞ d) c).
Proof.
  intros Hw. unfold check_and_increment. rewrite roll_if_stale_rolled.
  simpl. case_match; [|done]. by rewrite remainder_hint_rolled.
Qed.

Lemma is_exceeded_alt now l c :
  0 < window_secs c ->
  is_exceeded now l c =
  (if l <=? reading now c then Some (to_boundary (window_secs c) now) else None,
   rolled now (reading now c) c).
Proof.
  intros Hw. unfold is_exceeded. rewrite roll_if_stale_rolled.
  simpl. case_match; [|done]. by rewrite remainder_hint_rolled.
Qed.

Lemma current_alt now c : current now c = (reading now c, rolled now (reading now c) c).
Proof. unfold current. by rewrite roll_if_stale_rolled. Qed.

Lemma counter_add_alt now d c : counter_add now d c = rolled now (reading now c ⊞ d) c.
Proof. unfold counter_add. by rewrite roll_if_stale_rolled. Qed.

(** Whatever the verdict, the counter is left in the window of [now]. *)
Lemma check_and_increment_rolled now d l c :
  exists v, snd (check_and_increment now d l c) = rolled now v c.
Proof.
  unfold check_and_increment. rewrite roll_if_stale_rolled. case_match; simpl; eauto.
Qed.

Lemma is_exceeded_rolled now l c : exists v, snd (is_exceeded now l c) = rolled now v c.
Proof. unfold is_exceeded. rewrite roll_if_stale_rolled. case_match; simpl; eauto. Qed.

Lemma current_rolled now c : exists v, snd (current now c) = rolled now v c.
Proof. rewrite current_alt. simpl. eauto. Qed.

Lemma reading_decrement now d c : reading now (decrement now d c) = reading now c - d.
Proof.
  rewrite !reading_alt. unfold decrement, bucket.
  destruct (now / window_secs c * window_secs c =? window_start c) eqn:E;
    simpl; rewrite E; lia.
Qed.

Lemma decrement_secs now d c : window_secs (decrement now d c) = window_secs c.
Proof. unfold decrement. by case_match. Qed.

#[export] Hint Rewrite reading_rolled reading_decrement decrement_secs : aisix.

(** ** Refinement: one counter per window, never reset

    The specification keeps an amount for every window that ever was; the code
    keeps one amount and the start of the window it belongs to. *)

Inductive window_op :=
  | OpCheck (now delta limit : N)
  | OpAdd (now delta : N)
  | OpDecrement (now delta : N)
  | OpCurrent (now : N)
  | OpExceeded (now limit : N).

Inductive window_obs :=
  | SawCheck (r : WindowCheck)
  | SawCount (n : N)
  | SawExceeded (r : option N)
  | SawNothing.

Definition op_time (op : window_op) : N :=
  match op with
  | OpCheck now _ _ | OpAdd now _ | OpDecrement now _ | OpCurrent now | OpExceeded now _ => now
  end.

Definition window_step (op : window_op) (c : FixedWindowCounter)
    : window_obs * FixedWindowCounter :=
  match op with
  | OpCheck now d l => let '(r, c) := check_and_increment now d l c in (SawCheck r, c)
  | OpAdd now d => (SawNothing, counter_add now d c)
  | OpDecrement now d => (SawNothing, decrement now d c)
  | OpCurrent now => let '(n, c) := current now c in (SawCount n, c)
  | OpExceeded now l => let '(r, c) := is_exceeded now l c in (SawExceeded r, c)
  end.

Definition usage (m : gmap N N) (b : N) : N := default 0 (m !! b).

Definition table_step (w : N) (op : window_op) (m : gmap N N) : window_obs * gmap N N :=
  let now := op_time op in
  let b := bucket w now in
  match op with
  | OpCheck _ d l =>
      if l <? usage m b ⊞ d then (SawCheck (Full (to_boundary w now)), m)
      else (SawCheck Ok, <[b := usage m b ⊞ d]> m)
  | OpAdd _ d => (SawNothing, <[b := usage m b ⊞ d]> m)
  | OpDecrement _ d => (SawNothing, <[b := usage m b - d]> m)
  | OpCurrent _ => (SawCount (usage m b), m)
  | OpExceeded _ l =>
      (SawExceeded (if l <=? usage m b then Some (to_boundary w now) else None), m)
  end.

(** Run a list of operations, collecting what each one answered. *)
Fixpoint run_ops {S O X : Type} (step : O -> S -> X * S) (ops : list O) (s : S) : list X * S :=
  match ops with
  | [] => ([], s)
  | op :: ops =>
      let '(x, s) := step op s in
      let '(xs, s) := run_ops step ops s in
      (x :: xs, s)
  end.

(** The clock never runs backwards over the list. *)
Fixpoint clock_monotone (from : N) (ops : list window_op) : Prop :=
  match ops with
  | [] => True
  | op :: ops => from <= op_time op /\ clock_monotone (op_time op) ops
  end.

Section refinement.
Context (w : N) (Hw : 0 < w).

(** [last] is the latest second an operation ran at. *)
Record represents (last : N) (c : FixedWindowCounter) (m : gmap N N) : Prop := {
  rep_secs : window_secs c = w;
  rep_reading now : last <= now -> reading now c = usage m (bucket w now);
  rep_future b : bucket w last < b -> m !! b = None;
}.

Lemma represents_new : represents 0 (mkCounter w 0 0) ∅.
Proof.
  split; [done| |done]. intros now _. rewrite reading_alt; simpl. by case_match.
Qed.

Lemma represents_read last now c m :
  last <= now -> represents last c m ->
  represents now (rolled now (reading now c) c) m.
Proof.
  intros Hl [Hs Hr Hf]. pose proof (bucket_mono w last now Hl).
  split; simpl; [done| |intros; apply Hf; lia].
  intros now' Hn. rewrite reading_alt; simpl; rewrite Hs.
  case_match; nbool.
  - rewrite Hr by done. by f_equal.
  - pose proof (bucket_mono w now now' Hn).
    unfold usage. rewrite Hf by lia. done.
Qed.

Lemma represents_write last now v c m :
  last <= now -> represents last c m ->
  represents now (rolled now v c) (<[bucket w now := v]> m).
Proof.
  intros Hl [Hs Hr Hf]. pose proof (bucket_mono w last now Hl).
  split; simpl; [done| |].
  - intros now' Hn. rewrite reading_alt; simpl; rewrite Hs. unfold usage.
    case_match; nbool.
    + by rewrite H0, lookup_insert_eq.
    + rewrite lookup_insert_ne by done. pose proof (bucket_mono w now now' Hn).
      by rewrite Hf by lia.
  - intros b Hb. rewrite lookup_insert_ne by lia. apply Hf; lia.
Qed.

Lemma represents_decrement last now d c m :
  last <= now -> represents last c m ->
  represents now (decrement now d c) (<[bucket w now := usage m (bucket w now) - d]> m).
Proof.
  intros Hl R. pose proof (represents_write _ _ (usage m (bucket w now) - d) _ _ Hl R) as Hw'.
  destruct R as [Hs Hr Hf]. split.
  - by rewrite decrement_secs.
  - intros now' Hn. rewrite <- (rep_reading _ _ _ Hw' now' Hn).
    rewrite <- Hr by done. rewrite !reading_alt. unfold decrement, rolled; simpl.
    rewrite Hs. fold (bucket w now).
    destruct (bucket w now =? window_start c) eqn:E; simpl; rewrite ?Hs; nbool.
    + by rewrite E.
    + destruct (bucket w now' =? window_start c) eqn:E1,
        (bucket w now' =? bucket w now) eqn:E2; nbool; try done; try lia.
      pose proof (Hr now' ltac:(lia)) as Hr1. rewrite reading_alt, Hs in Hr1.
      rewrite E1, N.eqb_refl in Hr1. rewrite Hr1. unfold usage.
      pose proof (bucket_mono w now now' Hn). pose proof (bucket_mono w last now Hl).
      rewrite <- E1. by rewrite Hf by lia.
  - apply Hw'.
Qed.

Lemma step_simulates op last c m :
  last <= op_time op -> represents last c m ->
  exists x c' m', window_step op c = (x, c') /\ table_step w op m = (x, m') /\
    represents (op_time op) c' m'.
Proof.
  intros Hl R. pose proof R as [Hs Hr Hf].
  pose proof (Hr _ Hl) as Hrd.
  destruct op; simpl in *.
  - rewrite check_and_increment_alt, Hrd, Hs by lia.
    destruct (limit <? _); do 3 eexists; (split; [done|]; split; [done|]).
    + rewrite <- Hrd. by eapply represents_read.
    + by eapply represents_write.
  - rewrite counter_add_alt, Hrd. do 3 eexists; (split; [done|]; split; [done|]).
    by eapply represents_write.
  - do 3 eexists; split; [done|]; split; [done|]. by eapply represents_decrement.
  - rewrite roll_if_stale_rolled. simpl.
    do 3 eexists; split; [done|]; split; [by rewrite Hrd|].
    by eapply represents_read.
  - rewrite is_exceeded_alt, Hrd, Hs by lia. do 3 eexists; split; [done|]; split; [done|].
    rewrite <- Hrd. by eapply represents_read.
Qed.

Lemma run_simulates ops : forall last c m,
  clock_monotone last ops -> represents last c m ->
  fst (run_ops window_step ops c) = fst (run_ops (table_step w) ops m).
Proof.
  induction ops as [|op ops IH]; [done|]. intros last c m [Hl Hm] R; simpl.
  destruct (step_simulates op last c m Hl R) as (x & c' & m' & -> & -> & R').
  specialize (IH _ _ _ Hm R').
  destruct (run_ops window_step ops c'), (run_ops (table_step w) ops m'); simpl in *.
  by f_equal.
Qed.
End refinement.

(** C1. Run any sequence of counter operations on a fresh counter whose clock
    never goes backwards.  Every answer, admissions and retry hints included,
    is the one a table with an independent amount for every window that ever
    existed would give: rolling over loses nothing that a later operation could
    still see, and a decrement never reaches into another window. *)
Theorem counter_refines_table w ops c :
  counter_new w = Some c ->
  clock_monotone 0 ops ->
  fst (run_ops window_step ops c) = fst (run_ops (table_step w) ops ∅).
Proof.
  unfold counter_new. intros Hc Hm. case_match; [|done]. nbool. simplify_eq.
  eapply run_simulates; eauto using represents_new.
Qed.

Lemma counter_refines_table_witness :
  let ops := [OpCheck 100 1 1; OpCheck 110 1 1; OpDecrement 130 5; OpCheck 130 1 1] in
  counter_new 60 = Some (mkCounter 60 0 0) /\ clock_monotone 0 ops /\
  fst (run_ops window_step ops (mkCounter 60 0 0)) =
    [SawCheck Ok; SawCheck (Full 10); SawNothing; SawCheck Ok] /\
  fst (run_ops window_step ops (mkCounter 60 0 0)) = fst (run_ops (table_step 60) ops ∅).
Proof.
  intros ops. split; [done|]. split; [simpl; lia|]. split; [vm_compute; reflexivity|].
  apply (counter_refines_table 60); [done|simpl; lia].
Defined.

(** The retry hint of a refusal is between one second and the window's
    width, and it is enough and not too much: a caller that waits that long
    finds the window empty, one that comes back earlier finds it as full. *)
Theorem retry_hint_exact now d l c r c' later :
  0 < window_secs c ->
  check_and_increment now d l c = (Full r, c') ->
  1 <= r <= window_secs c /\
  (now + r <= later -> later < now + r + window_secs c -> reading later c' = 0) /\
  (now <= later -> later < now + r -> reading later c' = reading now c /\ l < reading later c' ⊞ d).
Proof.
  intros Hw. rewrite check_and_increment_alt by done. case_match; [|done].
  nbool. intros [= <- <-]. split_and!; [by apply to_boundary_range..| |].
  - intros Hl _. rewrite reading_alt; simpl.
    case_match; [|done]. nbool. by apply to_boundary_rolls in Hl.
  - intros Hn Hl. rewrite reading_rolled_same; [done|].
    unfold to_boundary in *. pose proof (bucket_le (window_secs c) now).
    apply bucket_same; lia.
Qed.

Lemma retry_hint_exact_witness :
  let c := mkCounter 60 60 3 in
  check_and_increment 110 1 3 c = (Full 10, c) /\
  1 <= 10 <= 60 /\ (110 + 10 <= 120 -> 120 < 110 + 10 + 60 -> reading 120 c = 0) /\
  (110 <= 119 -> 119 < 110 + 10 -> reading 119 c = reading 110 c /\ 3 < reading 119 c ⊞ 1).
Proof.
  intros c. assert (check_and_increment 110 1 3 c = (Full 10, c)) as E by reflexivity.
  split; [exact E|]. split; [lia|].
  split; eapply (retry_hint_exact 110 1 3 c 10 c); done.
Defined.
