(* ===== verification/RateStore.v ===== *)
(** * Rate-limit vocabulary and the store interface

    [crates/aisix-ratelimit/src/error.rs], [store/mod.rs], [clock.rs],
    [crates/aisix-core/src/models/rate_limit.rs]: the limits a bucket carries,
    what a refusal reports, the windowed dimensions both backends share, and the
    [RateStore] trait as a class.  [RateStoreLaws] is what the limiter relies
    on: which members hold a concurrency slot after each operation. *)

From S2P Require Import Prelude.
Local Open Scope N_scope.

(** ** Limits *)

Record RateLimit := mkRateLimit {
  tpm : option N;
  tph : option N;
  tpd : option N;
  rps : option N;
  rpm : option N;
  rph : option N;
  rpd : option N;
  concurrency : option N;
  granted_micro_usd : option N;
}.

Definition no_limits : RateLimit :=
  mkRateLimit None None None None None None None None None.

Definition is_none {A} (o : option A) : bool :=
  match o with None => true | Some _ => false end.

Definition is_unrestricted (l : RateLimit) : bool :=
  is_none (tpm l) && is_none (tph l) && is_none (tpd l) && is_none (rps l)
  && is_none (rpm l) && is_none (rph l) && is_none (rpd l) && is_none (concurrency l)
  && is_none (granted_micro_usd l).

Record McpRateLimit := mkMcpRateLimit {
  mcp_rps : option N;
  mcp_rpm : option N;
  mcp_rph : option N;
  mcp_rpd : option N;
  mcp_concurrency : option N;
}.

(** [impl From<&McpRateLimit> for RateLimit] *)
Definition from_mcp (m : McpRateLimit) : RateLimit :=
  mkRateLimit None None None (mcp_rps m) (mcp_rpm m) (mcp_rph m) (mcp_rpd m)
    (mcp_concurrency m) None.

(** ** Refusals *)

Inductive RateLimitScope := ScopeRequests | ScopeTokens.

Definition CONCURRENCY_RETRY_AFTER_SECS : N := 60.
Definition CONCURRENCY_DIMENSION : string := "concurrency".

Record LimitDetail := mkDetail {
  dimension : string;
  limit : N;
  remaining : N;
  reset_secs : N;
}.

(** [LimitDetail::window] *)
Definition detail_window (dimension : string) (limit used reset_secs : N) : LimitDetail :=
  mkDetail dimension limit (limit - used) reset_secs.

(** [LimitDetail::concurrency] *)
Definition detail_concurrency (limit in_flight : N) : LimitDetail :=
  mkDetail CONCURRENCY_DIMENSION limit (limit - in_flight) CONCURRENCY_RETRY_AFTER_SECS.

Inductive RateLimitError :=
  | Requests (scope : RateLimitScope) (detail : LimitDetail)
  | Tokens (scope : RateLimitScope) (detail : LimitDetail)
  | Concurrency (detail : LimitDetail)
  | AllowanceExhausted.

#[export] Instance RateLimitScope_eq_dec : EqDecision RateLimitScope.
Proof. solve_decision. Defined.
#[export] Instance LimitDetail_eq_dec : EqDecision LimitDetail.
Proof. solve_decision. Defined.
#[export] Instance RateLimitError_eq_dec : EqDecision RateLimitError.
Proof. solve_decision. Defined.

Definition scope (e : RateLimitError) : RateLimitScope :=
  match e with
  | Requests scope _ => scope
  | Tokens scope _ => scope
  | Concurrency _ => ScopeRequests
  | AllowanceExhausted => ScopeTokens
  end.

Definition error_detail (e : RateLimitError) : option LimitDetail :=
  match e with
  | Requests _ detail | Tokens _ detail | Concurrency detail => Some detail
  | AllowanceExhausted => None
  end.

Definition retry_after_secs (e : RateLimitError) : option N :=
  reset_secs <$> error_detail e.

(** ** Windowed dimensions *)

Definition SECOND_SECS : N := 1.
Definition MINUTE_SECS : N := 60.
Definition HOUR_SECS : N := 60 * 60.
Definition DAY_SECS : N := 24 * 60 * 60.

Definition DIM_RPS : string := "rps".
Definition DIM_RPM : string := "rpm".
Definition DIM_RPH : string := "rph".
Definition DIM_RPD : string := "rpd".
Definition DIM_TPM : string := "tpm".
Definition DIM_TPH : string := "tph".
Definition DIM_TPD : string := "tpd".

Record Dim := mkDim {
  dim_name : string;
  dim_window_secs : N;
  dim_limit : N;
}.

Definition dims_of (l : list (string * N * option N)) : list Dim :=
  omap (fun '(name, window_secs, limit) => mkDim name window_secs <$> limit) l.

Definition request_dims (l : RateLimit) : list Dim :=
  dims_of [(DIM_RPS, SECOND_SECS, rps l); (DIM_RPM, MINUTE_SECS, rpm l);
           (DIM_RPH, HOUR_SECS, rph l); (DIM_RPD, DAY_SECS, rpd l)].

Definition token_dims (l : RateLimit) : list Dim :=
  dims_of [(DIM_TPM, MINUTE_SECS, tpm l); (DIM_TPH, HOUR_SECS, tph l);
           (DIM_TPD, DAY_SECS, tpd l)].

(** ** Header snapshot *)

Record RateLimitStatus := mkStatus {
  rpm_limit : option N;
  rpm_used : N;
  rpm_reset_secs : N;
  tpm_limit : option N;
  tpm_used : N;
  tpm_reset_secs : N;
  concurrency_limit : option N;
  in_flight_now : N;
}.

Definition rpm_remaining (s : RateLimitStatus) : option N :=
  (fun lim => lim - rpm_used s) <$> rpm_limit s.
Definition tpm_remaining (s : RateLimitStatus) : option N :=
  (fun lim => lim - tpm_used s) <$> tpm_limit s.

(** ** The [RateStore] trait *)

Inductive StreamLeaseRefresh := Renewed | Missing | Unavailable.

Class RateStore (S : Type) := {
  acquire : string -> RateLimit -> string -> S -> result unit RateLimitError * S;
  commit : string -> N -> string -> S -> S;
  release : string -> string -> S -> S;
  add_tokens : string -> N -> S -> S;
  reap : N -> S -> S;
  stream_lease_refresh_interval : S -> option N;
  refresh_stream_lease_outcome : string -> string -> S -> StreamLeaseRefresh * S;
  peek : string -> RateLimit -> S -> option RateLimitStatus * S;
  claim_once : string -> N -> S -> bool * S;
  claims_outlive_process : S -> bool;
  local_key_count : S -> option N;
}.

(** The trait's default [add_tokens_all]: one [add_tokens] per key. *)
Definition add_tokens_all {St} `{RateStore St} (keys : list string) (tokens : N) (s : St) : St :=
  foldl (fun s key => add_tokens key tokens s) s keys.

(** [holders s key] is the set of members holding a slot of bucket [key]. *)
Class RateStoreLaws (S : Type) `{RateStore S} := {
  holders : S -> string -> gset string;
  acquire_holders key l m s k :
    holders (snd (acquire key l m s)) k =
    if decide (fst (acquire key l m s) = ROk tt /\ k = key)
    then {[ m ]} ∪ holders s k else holders s k;
  acquire_gate key l m s max :
    fst (acquire key l m s) = ROk tt -> concurrency l = Some max ->
    N.of_nat (size (holders s key)) mod u32_mod < max;
  commit_holders key n m s k :
    holders (commit key n m s) k =
    if decide (k = key) then holders s k ∖ {[ m ]} else holders s k;
  release_holders key m s k :
    holders (release key m s) k =
    if decide (k = key) then holders s k ∖ {[ m ]} else holders s k;
  add_tokens_holders key n s k : holders (add_tokens key n s) k = holders s k;
  reap_holders idle s k : holders (reap idle s) k = holders s k;
  refresh_holders key m s k :
    fst (refresh_stream_lease_outcome key m s) <> Missing ->
    holders (snd (refresh_stream_lease_outcome key m s)) k = holders s k;
  peek_holders key l s k : holders (snd (peek key l s)) k = holders s k;
  claim_holders key ttl s k : holders (snd (claim_once key ttl s)) k = holders s k;
}.
