(* ===== verification/LocalStore.v ===== *)
(** * In-process counter store ([crates/aisix-ratelimit/src/store/local.rs])

    One [KeyState] per bucket, guarded by its own mutex in the source: an
    operation on a bucket is one atomic step here.  The store carries the
    injected clock ([clock.rs]); a step reads it once, and time moves between
    steps ([clock_advance], [clock_set]). *)

From S2P Require Import Prelude Window RateStore.
Local Open Scope N_scope.

(** ** State *)

Record KeyState := mkKeyState {
  ks_rps : FixedWindowCounter;
  ks_rpm : FixedWindowCounter;
  ks_rph : FixedWindowCounter;
  ks_rpd : FixedWindowCounter;
  ks_tpm : FixedWindowCounter;
  ks_tph : FixedWindowCounter;
  ks_tpd : FixedWindowCounter;
  consumed_micro_usd : N;
  carries_allowance : bool;
  in_flight : gset string;
  last_touched : N;
}.

(** The fields [s.rps] ... [s.tpd], as a name to read and assign them by. *)
Inductive counter_field := FRps | FRpm | FRph | FRpd | FTpm | FTph | FTpd.
#[export] Instance counter_field_eq_dec : EqDecision counter_field.
Proof. solve_decision. Defined.

Definition get_counter (f : counter_field) (s : KeyState) : FixedWindowCounter :=
  match f with
  | FRps => ks_rps s | FRpm => ks_rpm s | FRph => ks_rph s | FRpd => ks_rpd s
  | FTpm => ks_tpm s | FTph => ks_tph s | FTpd => ks_tpd s
  end.

Definition set_counter (f : counter_field) (c : FixedWindowCounter) (s : KeyState) : KeyState :=
  let w g := if decide (f = g) then c else get_counter g s in
  mkKeyState (w FRps) (w FRpm) (w FRph) (w FRpd) (w FTpm) (w FTph) (w FTpd)
    (consumed_micro_usd s) (carries_allowance s) (in_flight s) (last_touched s).

Definition set_rest (consumed : N) (carries : bool) (flight : gset string) (touched : N)
    (s : KeyState) : KeyState :=
  mkKeyState (ks_rps s) (ks_rpm s) (ks_rph s) (ks_rpd s) (ks_tpm s) (ks_tph s) (ks_tpd s)
    consumed carries flight touched.
Definition set_consumed v s :=
  set_rest v (carries_allowance s) (in_flight s) (last_touched s) s.
Definition set_carries v s :=
  set_rest (consumed_micro_usd s) v (in_flight s) (last_touched s) s.
Definition set_in_flight v s :=
  set_rest (consumed_micro_usd s) (carries_allowance s) v (last_touched s) s.
Definition set_touched v s :=
  set_rest (consumed_micro_usd s) (carries_allowance s) (in_flight s) v s.

(** [KeyState::new]; each [FixedWindowCounter::new] gets a positive constant. *)
Definition key_state_new (now : N) : KeyState :=
  mkKeyState (mkCounter SECOND_SECS 0 0) (mkCounter MINUTE_SECS 0 0)
    (mkCounter HOUR_SECS 0 0) (mkCounter DAY_SECS 0 0) (mkCounter MINUTE_SECS 0 0)
    (mkCounter HOUR_SECS 0 0) (mkCounter DAY_SECS 0 0) 0 false ∅ now.

Record LocalStore := mkLocalStore {
  states : gmap string KeyState;
  claims : gmap string N;
  clock : N;
}.

Definition with_clock (now : N) : LocalStore := mkLocalStore ∅ ∅ now.

(** [TestClock::advance] and [TestClock::set]; [fetch_add] wraps. *)
Definition clock_advance (secs : N) (st : LocalStore) : LocalStore :=
  mkLocalStore (states st) (claims st) (wrap64 (clock st + secs)).
Definition clock_set (secs : N) (st : LocalStore) : LocalStore :=
  mkLocalStore (states st) (claims st) secs.

Definition put_state (key : string) (s : KeyState) (st : LocalStore) : LocalStore :=
  mkLocalStore (<[key := s]> (states st)) (claims st) (clock st).

(** [state_for]: the bucket's state, inserted when missing. *)
Definition state_for (key : string) (st : LocalStore) : KeyState * LocalStore :=
  match states st !! key with
  | Some s => (s, st)
  | None => let s := key_state_new (clock st) in (s, put_state key s st)
  end.

(** ** Acquire *)

Abbreviation M := (stm KeyState RateLimitError).

(** A method call on one of the counters. *)
Definition on {A} (f : counter_field) (m : FixedWindowCounter -> A * FixedWindowCounter) : M A :=
  fun s => let '(a, c) := m (get_counter f s) in (ROk a, set_counter f c s).

Definition dec (now : N) (f : counter_field) : M unit :=
  stm_modify (fun s => set_counter f (decrement now 1 (get_counter f s)) s).

(** [s.in_flight.len() as u32] truncates. *)
Definition in_flight_len (s : KeyState) : N := N.of_nat (size (in_flight s)).

Definition concurrency_gate (l : RateLimit) : M unit :=
  match concurrency l with
  | Some max =>
      let! n := stm_gets in_flight_len in
      if max <=? n mod u32_mod
      then stm_throw (Concurrency (detail_concurrency max n))
      else stm_ret tt
  | None => stm_ret tt
  end.

Definition allowance_gate (l : RateLimit) : M unit :=
  stm_modify (set_carries (negb (is_none (granted_micro_usd l)))) ;;!
  match granted_micro_usd l with
  | Some granted =>
      let! consumed := stm_gets consumed_micro_usd in
      if granted <=? consumed then stm_throw AllowanceExhausted else stm_ret tt
  | None => stm_ret tt
  end.

(** One token dimension: checked, not incremented. *)
Definition token_gate (now : N) (f : counter_field) (dim : string) (limit : option N) : M unit :=
  match limit with
  | Some max =>
      let! retry := on f (is_exceeded now max) in
      match retry with
      | Some retry =>
          let! used := on f (current now) in
          stm_throw (Tokens ScopeTokens (detail_window dim max used retry))
      | None => stm_ret tt
      end
  | None => stm_ret tt
  end.

(** One request dimension: checked and incremented; [undo] is its rejection
    branch's list of roll-backs.  Answers whether it incremented. *)
Definition request_gate (now : N) (f : counter_field) (dim : string) (limit : option N)
    (undo : M unit) : M bool :=
  match limit with
  | Some max =>
      let! check := on f (check_and_increment now 1 max) in
      match check with
      | Full retry_after_secs =>
          let! used := on f (current now) in
          let detail := detail_window dim max used retry_after_secs in
          undo ;;! stm_throw (Requests ScopeRequests detail)
      | Ok => stm_ret true
      end
  | None => stm_ret false
  end.

Definition undo_if (incremented : bool) (now : N) (f : counter_field) : M unit :=
  if incremented then dec now f else stm_ret tt.

(** The body of [acquire] under the bucket's lock. *)
Definition acquire_locked (now : N) (l : RateLimit) (member : string) : M unit :=
  concurrency_gate l ;;!
  allowance_gate l ;;!
  token_gate now FTpm DIM_TPM (tpm l) ;;!
  token_gate now FTph DIM_TPH (tph l) ;;!
  token_gate now FTpd DIM_TPD (tpd l) ;;!
  let! rps_incremented := request_gate now FRps DIM_RPS (rps l) (stm_ret tt) in
  let! rpm_incremented := request_gate now FRpm DIM_RPM (rpm l)
    (undo_if rps_incremented now FRps) in
  let! rph_incremented := request_gate now FRph DIM_RPH (rph l)
    (undo_if rpm_incremented now FRpm ;;! undo_if rps_incremented now FRps) in
  let! _ := request_gate now FRpd DIM_RPD (rpd l)
    (undo_if rph_incremented now FRph ;;! undo_if rpm_incremented now FRpm ;;!
     undo_if rps_incremented now FRps) in
  stm_modify (fun s => set_touched now (set_in_flight ({[ member ]} ∪ in_flight s) s)).

Definition local_acquire (key : string) (l : RateLimit) (member : string) (st : LocalStore)
    : result unit RateLimitError * LocalStore :=
  let now := clock st in
  let '(s, st) := state_for key st in
  let '(r, s) := acquire_locked now l member s in
  (r, put_state key s st).

(** ** The other operations *)

(** The three token windows and the cumulative counter take the same amount. *)
Definition charge (now tokens : N) (s : KeyState) : KeyState :=
  let s := set_counter FTpm (counter_add now tokens (ks_tpm s)) s in
  let s := set_counter FTph (counter_add now tokens (ks_tph s)) s in
  let s := set_counter FTpd (counter_add now tokens (ks_tpd s)) s in
  set_consumed (consumed_micro_usd s ⊞ tokens) s.

Definition local_commit (key : string) (tokens : N) (member : string) (st : LocalStore)
    : LocalStore :=
  let now := clock st in
  let '(s, st) := state_for key st in
  let s := charge now tokens s in
  let s := set_in_flight (in_flight s ∖ {[ member ]}) s in
  put_state key (set_touched now s) st.

Definition local_release (key member : string) (st : LocalStore) : LocalStore :=
  match states st !! key with
  | Some s =>
      let s := set_in_flight (in_flight s ∖ {[ member ]}) s in
      put_state key (set_touched (clock st) s) st
  | None => st
  end.

Definition local_add_tokens (key : string) (tokens : N) (st : LocalStore) : LocalStore :=
  if tokens =? 0 then st
  else
    let now := clock st in
    let '(s, st) := state_for key st in
    put_state key (set_touched now (charge now tokens s)) st.

(** The buckets [reap] retains. *)
Definition survives (cutoff : N) (s : KeyState) : bool :=
  negb (bool_decide (in_flight s = ∅))
  || (cutoff <=? last_touched s)
  || (carries_allowance s && (0 <? consumed_micro_usd s)).

Definition local_reap (idle_for : N) (st : LocalStore) : LocalStore :=
  let cutoff := clock st - idle_for in
  mkLocalStore (filter (fun kv => survives cutoff kv.2 = true) (states st))
    (claims st) (clock st).

Definition note_allowance (key : string) (l : RateLimit) (st : LocalStore) : LocalStore :=
  match granted_micro_usd l with
  | Some _ => let '(s, st) := state_for key st in put_state key (set_carries true s) st
  | None =>
      match states st !! key with
      | Some s => put_state key (set_carries false s) st
      | None => st
      end
  end.

Definition local_claim_once (key : string) (ttl : N) (st : LocalStore) : bool * LocalStore :=
  let now := clock st in
  let live := filter (fun kv => now < kv.2) (claims st) in
  match live !! key with
  | Some _ => (false, mkLocalStore (states st) live now)
  | None => (true, mkLocalStore (states st) (<[key := now ⊞ N.max ttl 1]> live) now)
  end.

Definition store_key_count (st : LocalStore) : N := N.of_nat (size (states st)).

Definition local_peek (key : string) (l : RateLimit) (st : LocalStore)
    : option RateLimitStatus * LocalStore :=
  let now := clock st in
  match states st !! key with
  | None => (None, st)
  | Some s =>
      let '(rpm_used, c) := current now (ks_rpm s) in
      let s := set_counter FRpm c s in
      let '(tpm_used, c) := current now (ks_tpm s) in
      let s := set_counter FTpm c s in
      let in_flight := in_flight_len s mod u32_mod in
      let minute_reset := MINUTE_SECS - now mod MINUTE_SECS in
      (Some (mkStatus (rpm l) rpm_used minute_reset (tpm l) tpm_used minute_reset
               (concurrency l) in_flight),
       put_state key s st)
  end.

(** [impl RateStore for LocalStore]; the lease methods keep the trait's
    defaults: no interval, and a refresh that cannot report. *)
#[export] Instance local_store : RateStore LocalStore := {|
  acquire := local_acquire;
  commit := local_commit;
  release := local_release;
  add_tokens := local_add_tokens;
  reap := local_reap;
  stream_lease_refresh_interval _ := None;
  refresh_stream_lease_outcome _ _ st := (Unavailable, st);
  peek := local_peek;
  claim_once := local_claim_once;
  claims_outlive_process _ := false;
  local_key_count st := Some (store_key_count st);
|}.

#[global] Arguments token_gate : simpl never.
#[global] Arguments request_gate : simpl never.

(** ** Reading a bucket *)

Definition field_secs (f : counter_field) : N :=
  match f with
  | FRps => SECOND_SECS
  | FRpm | FTpm => MINUTE_SECS
  | FRph | FTph => HOUR_SECS
  | FRpd | FTpd => DAY_SECS
  end.

(** The counter a dimension name stands for. *)
Definition dim_field (name : string) : counter_field :=
  if decide (name = DIM_RPM) then FRpm
  else if decide (name = DIM_RPH) then FRph
  else if decide (name = DIM_RPD) then FRpd
  else if decide (name = DIM_TPM) then FTpm
  else if decide (name = DIM_TPH) then FTph
  else if decide (name = DIM_TPD) then FTpd
  else FRps.

Definition used (now : N) (s : KeyState) (f : counter_field) : N :=
  reading now (get_counter f s).

(** Window widths never change. *)
Definition wf (s : KeyState) : Prop := forall f, window_secs (get_counter f s) = field_secs f.

Lemma field_secs_pos f : 0 < field_secs f.
Proof. by destruct f. Qed.

Lemma wf_pos s f : wf s -> 0 < window_secs (get_counter f s).
Proof. intros ->. apply field_secs_pos. Qed.
#[export] Hint Resolve field_secs_pos wf_pos : aisix.

Lemma key_state_new_wf now : wf (key_state_new now).
Proof. by intros []. Qed.

Lemma key_state_new_counters now f :
  counter_new (field_secs f) = Some (get_counter f (key_state_new now)).
Proof. by destruct f. Qed.

Lemma get_set_counter f g c s :
  get_counter g (set_counter f c s) = if decide (f = g) then c else get_counter g s.
Proof. by destruct g. Qed.

Lemma get_counter_set_rest a b c d f s :
  get_counter f (set_rest a b c d s) = get_counter f s.
Proof. by destruct f. Qed.

Lemma set_counter_wf f c s :
  wf s -> window_secs c = field_secs f -> wf (set_counter f c s).
Proof. intros H Hc g. rewrite get_set_counter. case_decide; by subst. Qed.

Lemma set_rest_wf a b c d s : wf s -> wf (set_rest a b c d s).
Proof. intros H f. by rewrite get_counter_set_rest. Qed.
#[export] Hint Resolve set_counter_wf set_rest_wf key_state_new_wf : aisix.

Lemma used_set_counter now f g c s :
  used now (set_counter f c s) g = if decide (f = g) then reading now c else used now s g.
Proof. unfold used. rewrite get_set_counter. by case_decide. Qed.

Lemma used_set_rest now a b c d s f : used now (set_rest a b c d s) f = used now s f.
Proof. unfold used. by rewrite get_counter_set_rest. Qed.

(** [bumped now fs s s']: [s'] reads like [s] at second [now], except that each
    window of [fs] holds one unit more.  With [fs = []] nothing observable moved. *)
Record bumped (now : N) (fs : list counter_field) (s s' : KeyState) : Prop := {
  bumped_used f : used now s' f = used now s f + (if decide (f ∈ fs) then 1 else 0);
  bumped_consumed : consumed_micro_usd s' = consumed_micro_usd s;
  bumped_flight : in_flight s' = in_flight s;
  bumped_touched : last_touched s' = last_touched s;
  bumped_wf : wf s';
}.

Lemma bumped_refl now s : wf s -> bumped now [] s s.
Proof. intros. split; [|done..]. intros f. case_decide; set_solver by lia. Qed.

Lemma bumped_nil_trans now fs s1 s2 s3 :
  bumped now fs s1 s2 -> bumped now [] s2 s3 -> bumped now fs s1 s3.
Proof.
  intros [U1 C1 F1 T1 _] [U2 C2 F2 T2 W2]. split; [|congruence..|done].
  intros f. rewrite U2, U1. rewrite (decide_False (P := f ∈ [])) by set_solver. lia.
Qed.

(** A counter written back with the same reading is invisible. *)
Lemma bumped_write now f v s :
  wf s -> v = used now s f -> bumped now [] s (set_counter f (rolled now v (get_counter f s)) s).
Proof.
  intros Hw ->. split; [|done..|]; [|by apply set_counter_wf; [|apply Hw]].
  intros g. rewrite used_set_counter, reading_rolled.
  rewrite (decide_False (P := g ∈ [])) by set_solver. case_decide; subst; lia.
Qed.

Lemma bumped_write_twice now f fs s0 s v :
  v = used now s f -> bumped now fs s0 s ->
  let c := rolled now v (get_counter f s) in
  bumped now fs s0 (set_counter f (rolled now v c) (set_counter f c s)).
Proof.
  intros Hv B c. pose proof (bumped_wf _ _ _ _ B) as W.
  pose proof (bumped_write now f v s W Hv) as B1.
  eapply bumped_nil_trans; [eapply bumped_nil_trans; [exact B|exact B1]|].
  pose proof (bumped_write now f v _ (bumped_wf _ _ _ _ B1)) as B2.
  rewrite get_set_counter, decide_True in B2 by done. apply B2.
  by rewrite used_set_counter, decide_True, reading_rolled.
Qed.

Lemma bumped_incr now f fs s0 s :
  wf s -> f ∉ fs -> bumped now fs s0 s ->
  bumped now (f :: fs) s0 (set_counter f (rolled now (used now s f + 1) (get_counter f s)) s).
Proof.
  intros Hw Hf [U C F T W]. split; [|done..|]; [|by apply set_counter_wf; [|apply Hw]].
  intros g. rewrite used_set_counter, reading_rolled.
  destruct (decide (f = g)) as [<-|].
  - rewrite U, (decide_False (P := f ∈ fs)), (decide_True (P := f ∈ f :: fs)) by set_solver. lia.
  - rewrite U. destruct (decide (g ∈ fs)), (decide (g ∈ f :: fs)); set_solver by lia.
Qed.

Lemma bumped_decr now f fs s0 s :
  f ∉ fs -> bumped now (f :: fs) s0 s ->
  bumped now fs s0 (set_counter f (decrement now 1 (get_counter f s)) s).
Proof.
  intros Hf [U C F T W]. split; [|done..|];
    [|by apply set_counter_wf; [|rewrite decrement_secs; apply W]].
  intros g. rewrite used_set_counter, reading_decrement.
  specialize (U g). unfold used in U at 1.
  destruct (decide (f = g)) as [<-|].
  - rewrite U, (decide_False (P := f ∈ fs)), (decide_True (P := f ∈ f :: fs)) by set_solver. lia.
  - fold (used now s g) in U. rewrite U.
    destruct (decide (g ∈ fs)), (decide (g ∈ f :: fs)); set_solver by lia.
Qed.

(** ** The admission decision, stated over the shared dimension lists

    [admission] is what a backend promises of [acquire]: the concurrency gauge,
    then the cumulative allowance, then the token windows, then the request
    windows, each list in the order [request_dims] / [token_dims] give it; the
    first limit that refuses is the one reported. *)

Definition refuse_window (mk : RateLimitScope -> LimitDetail -> RateLimitError)
    (sc : RateLimitScope) (now : N) (level : string -> N) (d : Dim) : RateLimitError :=
  mk sc (detail_window (dim_name d) (dim_limit d) (level (dim_name d))
           (to_boundary (dim_window_secs d) now)).

Definition tokens_refuse (level : string -> N) (d : Dim) : bool :=
  dim_limit d <=? level (dim_name d).
Definition requests_refuse (level : string -> N) (d : Dim) : bool :=
  dim_limit d <? level (dim_name d) + 1.

Definition first_refusal (now : N) (l : RateLimit) (level : string -> N) : option RateLimitError :=
  match List.find (tokens_refuse level) (token_dims l) with
  | Some d => Some (refuse_window Tokens ScopeTokens now level d)
  | None => refuse_window Requests ScopeRequests now level <$>
              List.find (requests_refuse level) (request_dims l)
  end.

Definition admission (now : N) (l : RateLimit) (flight consumed : N) (level : string -> N)
    : option RateLimitError :=
  match concurrency l with
  | Some max => if max <=? flight then Some (Concurrency (detail_concurrency max flight)) else
      match granted_micro_usd l with
      | Some g => if g <=? consumed then Some AllowanceExhausted else first_refusal now l level
      | None => first_refusal now l level
      end
  | None =>
      match granted_micro_usd l with
      | Some g => if g <=? consumed then Some AllowanceExhausted else first_refusal now l level
      | None => first_refusal now l level
      end
  end.

(** What a dimension's window holds at [now]. *)
Definition level_at (now : N) (s : KeyState) (dim : string) : N := used now s (dim_field dim).

Definition dim_ok (d : Dim) : Prop := dim_window_secs d = field_secs (dim_field (dim_name d)).

Lemma dims_of_ok l :
  Forall (fun '(n, w, _) => w = field_secs (dim_field n)) l -> Forall dim_ok (dims_of l).
Proof.
  intros H. unfold dims_of. induction H as [|[[n w] [lim|]] l Hx _ IH]; simpl; auto.
Qed.

Lemma token_dims_ok l : Forall dim_ok (token_dims l).
Proof. apply dims_of_ok. by repeat constructor. Qed.

Lemma request_dims_ok l : Forall dim_ok (request_dims l).
Proof. apply dims_of_ok. by repeat constructor. Qed.

Definition dim_fields (ds : list Dim) : list counter_field := dim_field ∘ dim_name <$> ds.

Lemma request_dims_fields_nodup l : NoDup (dim_fields (request_dims l)).
Proof.
  unfold request_dims, dims_of, dim_fields.
  destruct (rps l), (rpm l), (rph l), (rpd l); simpl; repeat constructor; set_solver.
Qed.

(** ** The unrolled chains as loops over the dimension lists *)

Fixpoint token_gates (now : N) (ds : list Dim) : M unit :=
  match ds with
  | [] => stm_ret tt
  | d :: ds =>
      token_gate now (dim_field (dim_name d)) (dim_name d) (Some (dim_limit d)) ;;!
      token_gates now ds
  end.

Fixpoint undo_all (now : N) (fs : list counter_field) : M unit :=
  match fs with
  | [] => stm_ret tt
  | f :: fs => dec now f ;;! undo_all now fs
  end.

Fixpoint request_gates (now : N) (ds : list Dim) (done : list counter_field) : M unit :=
  match ds with
  | [] => stm_ret tt
  | d :: ds =>
      let f := dim_field (dim_name d) in
      let! _ := request_gate now f (dim_name d) (Some (dim_limit d)) (undo_all now done) in
      request_gates now ds (f :: done)
  end.

Definition acquire_loops (now : N) (l : RateLimit) (member : string) : M unit :=
  concurrency_gate l ;;!
  allowance_gate l ;;!
  token_gates now (token_dims l) ;;!
  request_gates now (request_dims l) [] ;;!
  stm_modify (fun s => set_touched now (set_in_flight ({[ member ]} ∪ in_flight s) s)).

Lemma request_gate_none now f d u (k : bool -> M unit) s :
  stm_bind (request_gate now f d None u) k s = k false s.
Proof. done. Qed.

Lemma request_gate_some now f d n u (k : bool -> M unit) s :
  stm_bind (request_gate now f d (Some n) u) k s =
  stm_bind (request_gate now f d (Some n) u) (fun _ => k true) s.
Proof.
  unfold request_gate, stm_bind, on, stm_throw, stm_ret.
  destruct (check_and_increment _ _ _ _) as [[|r] c]; [done|].
  destruct (current _ _). by destruct (u _) as [[]].
Qed.

Lemma request_gate_cong now f d lim u u' s :
  (forall s, u s = u' s) -> request_gate now f d lim u s = request_gate now f d lim u' s.
Proof.
  intros Hu. destruct lim; [|done]. unfold request_gate.
  apply stm_bind_cong; [done|]. intros [|r] ?; [done|].
  apply stm_bind_cong; [done|]. intros ? ?. by apply stm_bind_cong.
Qed.

Ltac request_gate_step :=
  lazymatch goal with
  | |- stm_bind (request_gate _ _ _ None _) _ _ = _ => rewrite request_gate_none
  | |- stm_bind (request_gate _ _ _ (Some _) _) _ _ = _ =>
      rewrite request_gate_some;
      apply stm_bind_cong; [by apply request_gate_cong|]; intros _ ?
  end.

Lemma request_chain now l (k : M unit) s :
  (let! rps_incremented := request_gate now FRps DIM_RPS (rps l) (stm_ret tt) in
   let! rpm_incremented := request_gate now FRpm DIM_RPM (rpm l)
     (undo_if rps_incremented now FRps) in
   let! rph_incremented := request_gate now FRph DIM_RPH (rph l)
     (undo_if rpm_incremented now FRpm ;;! undo_if rps_incremented now FRps) in
   let! _ := request_gate now FRpd DIM_RPD (rpd l)
     (undo_if rph_incremented now FRph ;;! undo_if rpm_incremented now FRpm ;;!
      undo_if rps_incremented now FRps) in k) s =
  (request_gates now (request_dims l) [] ;;! k) s.
Proof.
  transitivity ((fix go ds done : M unit := match ds with
    | [] => k
    | d :: ds => let! _ := request_gate now (dim_field (dim_name d)) (dim_name d)
                   (Some (dim_limit d)) (undo_all now done) in
                 go ds (dim_field (dim_name d) :: done) end) (request_dims l) [] s).
  - unfold request_dims, dims_of.
    destruct (rps l), (rpm l), (rph l), (rpd l); cbn [omap list_omap fmap option_fmap option_map];
      repeat request_gate_step; done.
  - generalize ([] : list counter_field). revert s.
    induction (request_dims l) as [|d ds IH]; intros s acc; [done|]; simpl.
    rewrite stm_bind_assoc. apply stm_bind_cong; [done|]. intros _ ?. apply IH.
Qed.

Lemma token_chain now l (k : M unit) s :
  (token_gate now FTpm DIM_TPM (tpm l) ;;! token_gate now FTph DIM_TPH (tph l) ;;!
   token_gate now FTpd DIM_TPD (tpd l) ;;! k) s =
  (token_gates now (token_dims l) ;;! k) s.
Proof.
  assert (forall f d, token_gate now f d None = stm_ret tt) as Hn by done.
  unfold token_dims, dims_of.
  destruct (tpm l), (tph l), (tpd l); rewrite ?Hn; simpl;
    change (dim_field DIM_TPM) with FTpm; change (dim_field DIM_TPH) with FTph;
    change (dim_field DIM_TPD) with FTpd;
    unfold stm_bind, stm_ret;
    repeat match goal with |- context [token_gate now ?f ?d ?lim ?s] =>
      destruct (token_gate now f d lim s) as [[[]|] ?]; [|done] end; done.
Qed.

Lemma acquire_locked_loops now l m s : acquire_locked now l m s = acquire_loops now l m s.
Proof.
  apply stm_bind_cong; [done|]. intros _ ?. apply stm_bind_cong; [done|]. intros _ ?.
  rewrite token_chain. apply stm_bind_cong; [done|]. intros _ ?. apply request_chain.
Qed.

(** ** [acquire] implements [admission] *)

Lemma token_gate_run now d fs s0 s :
  dim_ok d -> bumped now fs s0 s ->
  exists s', token_gate now (dim_field (dim_name d)) (dim_name d) (Some (dim_limit d)) s =
    (if tokens_refuse (level_at now s) d
     then RErr (refuse_window Tokens ScopeTokens now (level_at now s) d) else ROk tt, s') /\
    bumped now fs s0 s'.
Proof.
  intros Hd B. pose proof (bumped_wf _ _ _ _ B) as W. unfold dim_ok in Hd.
  unfold token_gate, stm_bind, on, tokens_refuse, refuse_window, level_at.
  set (f := dim_field (dim_name d)) in *.
  assert (bumped now [] s (set_counter f (rolled now (used now s f) (get_counter f s)) s)) as B1
    by (by apply bumped_write).
  rewrite is_exceeded_alt, W, <- Hd by eauto with aisix.
  change (reading now (get_counter f s)) with (used now s f).
  destruct (dim_limit d <=? used now s f); [|by eexists; split; [|eapply bumped_nil_trans]].
  rewrite current_alt. eexists; split.
  - rewrite get_set_counter, decide_True, reading_rolled by done. done.
  - by apply bumped_write_twice.
Qed.

Lemma token_gates_run now ds : Forall dim_ok ds -> forall s0 s, bumped now [] s0 s ->
  exists s', token_gates now ds s =
    (match List.find (tokens_refuse (level_at now s0)) ds with
     | Some d => RErr (refuse_window Tokens ScopeTokens now (level_at now s0) d)
     | None => ROk tt
     end, s') /\ bumped now [] s0 s'.
Proof.
  induction 1 as [|d ds Hd _ IH]; intros s0 s B; [by eexists|]; cbn [token_gates List.find].
  destruct (token_gate_run now d [] s0 s Hd B) as (s1 & E & B1).
  assert (level_at now s (dim_name d) = level_at now s0 (dim_name d)) as L.
  { unfold level_at. rewrite (bumped_used _ _ _ _ B). rewrite decide_False by set_solver. lia. }
  unfold stm_bind. rewrite E. unfold tokens_refuse in *. rewrite L.
  destruct (dim_limit d <=? level_at now s0 (dim_name d)); [|by apply IH].
  eexists; split; [|done]. unfold refuse_window. by rewrite L.
Qed.

Lemma undo_all_run now fs : NoDup fs -> forall s0 s, bumped now fs s0 s ->
  exists s', undo_all now fs s = (ROk tt, s') /\ bumped now [] s0 s'.
Proof.
  induction 1 as [|f fs Hf _ IH]; intros s0 s B; [by eexists|].
  simpl. unfold stm_bind, dec, stm_modify. apply IH. by apply bumped_decr.
Qed.

Lemma request_gate_run now d fs s0 s :
  dim_ok d -> NoDup (dim_field (dim_name d) :: fs) -> bumped now fs s0 s ->
  used now s0 (dim_field (dim_name d)) < u64_max ->
  exists s', request_gate now (dim_field (dim_name d)) (dim_name d) (Some (dim_limit d))
      (undo_all now fs) s =
    (if requests_refuse (level_at now s0) d
     then RErr (refuse_window Requests ScopeRequests now (level_at now s0) d) else ROk true, s') /\
    bumped now (if requests_refuse (level_at now s0) d then [] else dim_field (dim_name d) :: fs) s0 s'.
Proof.
  intros Hd [Hf Hn]%NoDup_cons B Hu. pose proof (bumped_wf _ _ _ _ B) as W. unfold dim_ok in Hd.
  unfold request_gate, stm_bind, on, requests_refuse, refuse_window, level_at.
  set (f := dim_field (dim_name d)) in *.
  assert (reading now (get_counter f s) = used now s0 f) as L.
  { fold (used now s f). rewrite (bumped_used _ _ _ _ B), decide_False by done. lia. }
  rewrite check_and_increment_alt, W, <- Hd, L by eauto with aisix.
  replace (used now s0 f ⊞ 1) with (used now s0 f + 1) by nlia.
  destruct (dim_limit d <? used now s0 f + 1) eqn:E; cycle 1.
  { eexists; split; [done|]. rewrite <- L at 1. by apply bumped_incr. }
  rewrite current_alt, get_set_counter, decide_True, reading_rolled by done.
  match goal with |- context [undo_all now fs ?s] =>
    destruct (undo_all_run now fs Hn s0 s) as (s' & -> & B') end; [|by eexists].
  apply bumped_write_twice; [by unfold used at 2|done].
Qed.

Lemma request_gates_run now ds : Forall dim_ok ds -> forall fs s0 s,
  NoDup (dim_fields ds ++ fs) -> bumped now fs s0 s ->
  Forall (fun d => level_at now s0 (dim_name d) < u64_max) ds ->
  exists s', request_gates now ds fs s =
    (match List.find (requests_refuse (level_at now s0)) ds with
     | Some d => RErr (refuse_window Requests ScopeRequests now (level_at now s0) d)
     | None => ROk tt
     end, s') /\
    bumped now (match List.find (requests_refuse (level_at now s0)) ds with
                | Some _ => [] | None => rev_append (dim_fields ds) fs end) s0 s'.
Proof.
  induction 1 as [|d ds Hd _ IH]; intros fs s0 s Hn B Hu; [by eexists|].
  cbn [request_gates List.find dim_fields fmap list_fmap] in *.
  change (dim_field ∘ dim_name <$> ds) with (dim_fields ds) in *. simpl in Hn.
  apply Forall_cons in Hu as [Hu1 Hu].
  assert (NoDup (dim_fields ds ++ dim_field (dim_name d) :: fs)) as Hn'.
  { eapply NoDup_Permutation_proper; [|exact Hn]. symmetry. apply Permutation_middle. }
  assert (NoDup (dim_field (dim_name d) :: fs)) as Hn1.
  { apply NoDup_app in Hn' as (_ & _ & ?). done. }
  destruct (request_gate_run now d fs s0 s Hd Hn1 B Hu1) as (s1 & E & B1).
  unfold stm_bind. rewrite E. destruct (requests_refuse _ d); [by eexists|].
  destruct (IH _ _ _ Hn' B1 Hu) as (s2 & E2 & B2). by eexists.
Qed.

Lemma bumped_set_carries now b s : wf s -> bumped now [] s (set_carries b s).
Proof.
  intros W. split; [|done..|by apply set_rest_wf].
  intros f. unfold set_carries. rewrite used_set_rest, decide_False by set_solver. lia.
Qed.

(** No configured request window is about to overflow. *)
Definition unsaturated (now : N) (l : RateLimit) (s : KeyState) : Prop :=
  Forall (fun d => level_at now s (dim_name d) < u64_max) (request_dims l).

Lemma acquire_locked_run now l m s :
  wf s -> in_flight_len s < u32_mod -> unsaturated now l s ->
  let verdict := admission now l (in_flight_len s) (consumed_micro_usd s) (level_at now s) in
  exists s1 s', acquire_locked now l m s = (match verdict with Some e => RErr e | None => ROk tt end, s')
    /\ bumped now (match verdict with Some _ => [] | None => reverse (dim_fields (request_dims l)) end) s s1
    /\ s' = match verdict with
            | Some _ => s1
            | None => set_touched now (set_in_flight ({[ m ]} ∪ in_flight s1) s1)
            end.
Proof.
  intros W Hc Hu. rewrite acquire_locked_loops. unfold acquire_loops.
  set (s1 := set_carries (negb (is_none (granted_micro_usd l))) s).
  assert (bumped now [] s s1) as B1 by by apply bumped_set_carries.
  assert (forall (k : M unit), (allowance_gate l ;;! k) s =
    if match granted_micro_usd l with Some g => g <=? consumed_micro_usd s | None => false end
    then (RErr AllowanceExhausted, s1) else k s1) as Ha.
  { intros k. unfold allowance_gate, stm_bind, stm_modify, stm_gets, stm_throw, stm_ret.
    subst s1. destruct (granted_micro_usd l); simpl; [|done]. by destruct (_ <=? _). }
  assert (exists s2 s', (token_gates now (token_dims l) ;;! request_gates now (request_dims l) [] ;;!
      stm_modify (fun s => set_touched now (set_in_flight ({[ m ]} ∪ in_flight s) s))) s1 =
      (match first_refusal now l (level_at now s) with Some e => RErr e | None => ROk tt end, s')
    /\ bumped now (match first_refusal now l (level_at now s) with Some _ => []
         | None => reverse (dim_fields (request_dims l)) end) s s2
    /\ s' = match first_refusal now l (level_at now s) with
            | Some _ => s2
            | None => set_touched now (set_in_flight ({[ m ]} ∪ in_flight s2) s2) end) as Hg.
  { destruct (token_gates_run now _ (token_dims_ok l) _ _ B1) as (s2 & E2 & B2).
    destruct (request_gates_run now _ (request_dims_ok l) [] s s2) as (s3 & E3 & B3);
      [rewrite app_nil_r; apply request_dims_fields_nodup|done..|].
    unfold stm_bind, first_refusal. rewrite E2.
    destruct (List.find _ (token_dims l)); [by do 2 eexists|]. rewrite E3.
    unfold stm_modify.
    destruct (List.find _ (request_dims l)); by do 2 eexists. }
  unfold admission, concurrency_gate.
  destruct (concurrency l) as [max|]; unfold stm_bind at 1, stm_gets, stm_throw, stm_ret; simpl.
  - unfold stm_bind at 1. rewrite N.mod_small by done.
    destruct (max <=? in_flight_len s).
    { do 2 eexists; split; [done|]; split; [by apply bumped_refl|done]. }
    rewrite Ha. destruct (granted_micro_usd l) as [g|]; [|done].
    destruct (g <=? _); [|done]. by do 2 eexists.
  - rewrite Ha. destruct (granted_micro_usd l) as [g|]; [|done].
    destruct (g <=? _); [|done]. by do 2 eexists.
Qed.

(** Every stored bucket is well formed. *)
Definition store_wf (st : LocalStore) : Prop := forall key s, states st !! key = Some s -> wf s.

(** The bucket as an operation finds it. *)
Definition bucket_of (key : string) (st : LocalStore) : KeyState := fst (state_for key st).

Lemma bucket_of_put key k s st :
  bucket_of k (put_state key s st) = if decide (k = key) then s else bucket_of k st.
Proof.
  unfold bucket_of, state_for. simpl. destruct (decide (k = key)) as [-> | Hk].
  - by rewrite lookup_insert_eq.
  - rewrite lookup_insert_ne by done. by destruct (states st !! k).
Qed.

Lemma bucket_of_wf key st : store_wf st -> wf (bucket_of key st).
Proof.
  intros H. unfold bucket_of, state_for. destruct (states st !! key) eqn:E; simpl; eauto with aisix.
Qed.

Lemma state_for_put key s st : put_state key s (snd (state_for key st)) = put_state key s st.
Proof.
  unfold state_for, put_state. destruct (states st !! key); simpl; [done|].
  by rewrite insert_insert_eq.
Qed.

Lemma local_acquire_alt key l m st :
  local_acquire key l m st =
  let '(r, s) := acquire_locked (clock st) l m (bucket_of key st) in (r, put_state key s st).
Proof.
  unfold local_acquire, bucket_of. pose proof (fun s => state_for_put key s st) as Hp.
  destruct (state_for key st) as [s0 st0]; simpl in *.
  destruct (acquire_locked _ _ _ _). by rewrite Hp.
Qed.

Lemma local_commit_alt key n m st :
  local_commit key n m st =
  let s := charge (clock st) n (bucket_of key st) in
  put_state key (set_touched (clock st) (set_in_flight (in_flight s ∖ {[ m ]}) s)) st.
Proof.
  unfold local_commit, bucket_of. pose proof (fun s => state_for_put key s st) as Hp.
  destruct (state_for key st) as [s0 st0]; simpl in *. by rewrite Hp.
Qed.

Lemma local_add_tokens_alt key n st :
  local_add_tokens key n st =
  if n =? 0 then st
  else put_state key (set_touched (clock st) (charge (clock st) n (bucket_of key st))) st.
Proof.
  unfold local_add_tokens, bucket_of. pose proof (fun s => state_for_put key s st) as Hp.
  destruct (state_for key st) as [s0 st0]; simpl in *. by rewrite Hp.
Qed.

(** C19. [acquire] on a bucket answers exactly [admission] over that bucket's
    gauge, cumulative spend and current windows, and is all-or-nothing: a
    refusal leaves every window's reading, the holders and the spend as they
    were, the increments a later window's refusal undoes included; an admission
    adds one to each configured request window and to no other, and records
    the member among the holders, of which the gauge is the number.  The other
    buckets, the claims and the clock are untouched.  This is for a store whose
    counters have their own window lengths, as every operation leaves them, with
    fewer than 2^32 members in flight in the bucket, which is where the gauge's cast
    would wrap, and with no configured request window at the 64-bit maximum, where
    adding one saturates. *)
Theorem acquire_implements_admission key l m st :
  let s := bucket_of key st in
  let now := clock st in
  store_wf st -> in_flight_len s < u32_mod -> unsaturated now l s ->
  exists s' r, local_acquire key l m st = (r, put_state key s' st) /\
  match admission now l (in_flight_len s) (consumed_micro_usd s) (level_at now s) with
  | Some e => r = RErr e /\ (forall f, used now s' f = used now s f) /\
      in_flight s' = in_flight s /\ consumed_micro_usd s' = consumed_micro_usd s
  | None => r = ROk tt /\
      (forall f, used now s' f =
         used now s f + (if decide (f ∈ dim_fields (request_dims l)) then 1 else 0)) /\
      in_flight s' = {[ m ]} ∪ in_flight s /\ consumed_micro_usd s' = consumed_micro_usd s
  end.
Proof.
  intros s now W Hc Hu. rewrite local_acquire_alt.
  destruct (acquire_locked_run now l m s) as (s1 & s' & E & [U C F T _] & Hs');
    [by apply bucket_of_wf|done..|].
  exists s', (match admission now l (in_flight_len s) (consumed_micro_usd s) (level_at now s) with
    | Some e => RErr e | None => ROk tt end).
  split; [by unfold s, now in E; rewrite E|].
  destruct (admission _ _ _ _ _); subst s'; split_and!; try done.
  - intros f. rewrite U, decide_False by set_solver. lia.
  - intros f. unfold set_touched, set_in_flight. rewrite !used_set_rest, U. f_equal.
    apply decide_ext. by rewrite elem_of_reverse.
  - simpl. by rewrite F.
Qed.

(** ** What the gates never touch *)

(** A predicate on buckets that reading, counting and undoing at [now], and the
    allowance mark, cannot break: the gates preserve it on every path. *)
Record counters_only (now : N) (P : KeyState -> Prop) : Prop := {
  keep_rolled f v s : P s -> P (set_counter f (rolled now v (get_counter f s)) s);
  keep_decrement f s : P s -> P (set_counter f (decrement now 1 (get_counter f s)) s);
  keep_set_carries b s : P s -> P (set_carries b s);
}.

Lemma counters_only_wf now : counters_only now wf.
Proof.
  split; [| |intros; by apply set_rest_wf]; intros; apply set_counter_wf; try done;
    rewrite ?decrement_secs; simpl; auto.
Qed.

Lemma counters_only_in_flight now X : counters_only now (fun s => in_flight s = X).
Proof. by split. Qed.

(** Every counter is either as it was or counts the window of [now]. *)
Definition fresh_or_same (now : N) (s0 s : KeyState) : Prop :=
  wf s /\ last_touched s = last_touched s0 /\
  forall f, get_counter f s = get_counter f s0 \/
            window_start (get_counter f s) = bucket (field_secs f) now.

Lemma counters_only_fresh now s0 : counters_only now (fresh_or_same now s0).
Proof.
  split.
  - intros f v s (W & T & H). split_and!; [by apply set_counter_wf; [|apply W]|done|].
    intros g. rewrite get_set_counter. case_decide; [|apply H]. subst. right. simpl. by rewrite W.
  - intros f s (W & T & H).
    split_and!; [by apply set_counter_wf; [|rewrite decrement_secs; apply W]|done|].
    intros g. rewrite get_set_counter. case_decide; [|apply H]. subst.
    unfold decrement. case_match; [|apply H]. right. nbool. rewrite W in *. by simpl.
  - intros b s (W & T & H). split_and!; [by apply set_rest_wf|done|].
    intros g. unfold set_carries. rewrite get_counter_set_rest. apply H.
Qed.
#[export] Hint Resolve counters_only_wf counters_only_in_flight counters_only_fresh : aisix.

Section gates.
Context (now : N) (P : KeyState -> Prop) (HP : counters_only now P).

Lemma keeps_on {A} f (m : FixedWindowCounter -> A * FixedWindowCounter) :
  (forall c, exists v, snd (m c) = rolled now v c) -> keeps P (on f m).
Proof.
  intros Hm s Hs. unfold on. destruct (Hm (get_counter f s)) as [v Hv].
  destruct (m (get_counter f s)). simpl in *. subst. by apply (keep_rolled now P HP).
Qed.

Lemma keeps_dec f : keeps P (dec now f).
Proof. apply keeps_modify. intros s Hs. by apply (keep_decrement now P HP). Qed.

Lemma keeps_undo_if b f : keeps P (undo_if b now f).
Proof. destruct b; [apply keeps_dec|apply keeps_ret]. Qed.

Lemma keeps_concurrency_gate l : keeps P (concurrency_gate l).
Proof.
  unfold concurrency_gate. destruct (concurrency l); [|apply keeps_ret].
  apply keeps_bind; [apply keeps_gets|]. intros ?. case_match; auto with aisix.
Qed.

Lemma keeps_allowance_gate l : keeps P (allowance_gate l).
Proof.
  unfold allowance_gate. apply keeps_bind; [apply keeps_modify, (keep_set_carries now P HP)|].
  intros _. destruct (granted_micro_usd l); [|apply keeps_ret].
  apply keeps_bind; [apply keeps_gets|]. intros ?. case_match; auto with aisix.
Qed.

Lemma keeps_token_gate f d lim : keeps P (token_gate now f d lim).
Proof.
  unfold token_gate. destruct lim; [|apply keeps_ret].
  apply keeps_bind; [apply keeps_on; eauto using is_exceeded_rolled|].
  intros [r|]; [|apply keeps_ret].
  apply keeps_bind; [apply keeps_on; eauto using current_rolled|].
  intros; apply keeps_throw.
Qed.

Lemma keeps_request_gate f d lim u : keeps P u -> keeps P (request_gate now f d lim u).
Proof.
  intros Hu. unfold request_gate. destruct lim; [|apply keeps_ret].
  apply keeps_bind; [apply keeps_on; eauto using check_and_increment_rolled|].
  intros [|r]; [apply keeps_ret|].
  apply keeps_bind; [apply keeps_on; eauto using current_rolled|].
  intros; apply keeps_bind; [done|]. intros; apply keeps_throw.
Qed.

Lemma keeps_acquire_locked l m :
  (forall s, P s -> P (set_touched now (set_in_flight ({[ m ]} ∪ in_flight s) s))) ->
  keeps P (acquire_locked now l m).
Proof.
  intros Hk. unfold acquire_locked.
  repeat first [apply keeps_concurrency_gate | apply keeps_allowance_gate
    | apply keeps_token_gate | apply keeps_request_gate | apply keeps_undo_if
    | apply keeps_ret | apply keeps_modify; exact Hk | apply keeps_bind; [|intros ?]].
Qed.

(** A refusal stops before the last write, an admission ends with it. *)
Lemma acquire_locked_inv l m s r s' :
  P s -> acquire_locked now l m s = (r, s') ->
  (exists e, r = RErr e /\ P s') \/
  (r = ROk tt /\ exists s1, P s1 /\
     s' = set_touched now (set_in_flight ({[ m ]} ∪ in_flight s1) s1)).
Proof.
  intros Hs E. unfold acquire_locked in E.
  repeat match type of E with
  | stm_bind _ _ _ = _ => eapply (keeps_bind_inv P) in E;
      [destruct E as [(? & ? & Hs' & E)|?]; [clear Hs; rename Hs' into Hs; simpl in E|by left]
      |exact Hs|]
  end; [unfold stm_modify in E; simplify_eq; right; eauto|..].
  all: repeat first [apply keeps_concurrency_gate | apply keeps_allowance_gate
    | apply keeps_token_gate | apply keeps_request_gate | apply keeps_undo_if
    | apply keeps_ret | apply keeps_bind; [|intros ?]].
Qed.
End gates.

(** ** Buckets after each operation *)

Lemma lookup_put_state key k s st :
  states (put_state key s st) !! k = if decide (key = k) then Some s else states st !! k.
Proof. simpl. apply lookup_insert. Qed.

Definition local_holders (st : LocalStore) (key : string) : gset string :=
  default ∅ (in_flight <$> states st !! key).

Lemma local_holders_bucket st key : in_flight (bucket_of key st) = local_holders st key.
Proof. unfold bucket_of, state_for, local_holders. by destruct (states st !! key). Qed.

Lemma local_holders_put key k s st :
  local_holders (put_state key s st) k = if decide (key = k) then in_flight s else local_holders st k.
Proof. unfold local_holders. rewrite lookup_put_state. by case_decide. Qed.

Lemma charge_in_flight now n s : in_flight (charge now n s) = in_flight s.
Proof. done. Qed.

#[export] Instance local_store_laws : RateStoreLaws LocalStore.
Proof.
  refine {| holders := local_holders |}.
  - intros key l m s k. simpl. rewrite local_acquire_alt.
    destruct (acquire_locked (clock s) l m (bucket_of key s)) as [r s'] eqn:E. simpl.
    rewrite local_holders_put.
    destruct (acquire_locked_inv _ _ (counters_only_in_flight _ _) _ _ _ _ _ eq_refl E)
      as [(e & -> & HF)|(-> & s1 & HF & ->)]; rewrite local_holders_bucket in HF; simpl.
    + rewrite HF. repeat case_decide; naive_solver.
    + rewrite HF. repeat case_decide; naive_solver.
  - intros key l m s max. simpl. rewrite local_acquire_alt, <- local_holders_bucket.
    intros E Hl. destruct (acquire_locked _ _ _ _) as [r s'] eqn:Ea. simpl in E. subst r.
    revert Ea. unfold acquire_locked, concurrency_gate. rewrite Hl.
    unfold stm_bind at 1, stm_bind at 1, stm_gets, in_flight_len. simpl.
    destruct (max <=? _) eqn:Hm; [done|]. intros _. by nbool.
  - intros key n m s k. simpl. rewrite local_commit_alt. cbn zeta.
    rewrite local_holders_put. change (in_flight (set_touched _ (set_in_flight ?x _))) with x.
    rewrite charge_in_flight, local_holders_bucket. repeat case_decide; by subst.
  - intros key m s k. simpl. unfold local_release, local_holders at 2 3.
    destruct (states s !! key) eqn:E.
    + rewrite local_holders_put. simpl. unfold local_holders.
      repeat case_decide; subst; rewrite ?E; done.
    + case_decide; subst; [|done]. unfold local_holders. rewrite E; simpl. set_solver.
  - intros key n s k. simpl. rewrite local_add_tokens_alt. case_match; [done|].
    rewrite local_holders_put. case_decide; subst; [|done].
    change (in_flight (set_touched _ (charge ?a ?b ?c))) with (in_flight (charge a b c)).
    by rewrite charge_in_flight, local_holders_bucket.
  - intros idle s k. simpl. unfold local_holders, local_reap; simpl.
    destruct (states s !! k) as [b|] eqn:E.
    + destruct (survives (clock s - idle) b) eqn:Hs.
      * by rewrite (map_lookup_filter_Some_2 _ _ _ b).
      * rewrite map_lookup_filter, E; simpl. unfold survives in Hs.
        rewrite option_guard_False by (simpl; unfold survives; by rewrite Hs). simpl.
        apply orb_false_elim in Hs as [Hs _]. apply orb_false_elim in Hs as [Hs _].
        apply negb_false_iff, bool_decide_eq_true_1 in Hs. by rewrite Hs.
    + rewrite map_lookup_filter, E. done.
  - done.
  - intros key l s k. simpl. unfold local_peek. destruct (states s !! key) as [b|] eqn:E; [|done].
    repeat case_match; simplify_eq/=. rewrite local_holders_put. case_decide; subst; [|done].
    unfold local_holders. by rewrite E.
  - intros key ttl s k. simpl. unfold local_claim_once. by case_match.
Defined.

(** ** Runs of the store

    Any interleaving of operations on any keys, with a clock that only moves
    forward.  An acquire is a step only where no configured request window is
    about to reach [2^64 - 1] and the gauge fits its [u32]. *)

Inductive local_event :=
  | EvAcquire (key : string) (l : RateLimit) (member : string)
  | EvCommit (key : string) (tokens : N) (member : string)
  | EvRelease (key member : string)
  | EvAddTokens (key : string) (tokens : N)
  | EvReap (idle_for : N)
  | EvNoteAllowance (key : string) (l : RateLimit)
  | EvClaim (key : string) (ttl : N)
  | EvPeek (key : string) (l : RateLimit)
  | EvClock (secs : N).

Definition local_exec (ev : local_event) (st : LocalStore) : LocalStore :=
  match ev with
  | EvAcquire key l m => snd (local_acquire key l m st)
  | EvCommit key n m => local_commit key n m st
  | EvRelease key m => local_release key m st
  | EvAddTokens key n => local_add_tokens key n st
  | EvReap idle => local_reap idle st
  | EvNoteAllowance key l => note_allowance key l st
  | EvClaim key ttl => snd (local_claim_once key ttl st)
  | EvPeek key l => snd (local_peek key l st)
  | EvClock secs => clock_set secs st
  end.

Definition event_ok (ev : local_event) (st : LocalStore) : Prop :=
  match ev with
  | EvAcquire key l _ =>
      in_flight_len (bucket_of key st) < u32_mod /\ unsaturated (clock st) l (bucket_of key st)
  | EvClock secs => clock st <= secs
  | _ => True
  end.

Inductive local_step : LocalStore -> LocalStore -> Prop :=
  | local_step_event ev st : event_ok ev st -> local_step st (local_exec ev st).

(** What a bucket remembers is no younger than its last touch. *)
Record timely (now : N) (s : KeyState) : Prop := {
  timely_wf : wf s;
  timely_touched : last_touched s <= now;
  timely_start f : window_start (get_counter f s) <= now;
  timely_count f : count (get_counter f s) <> 0 ->
    window_start (get_counter f s) <= last_touched s;
}.

Definition store_timely (st : LocalStore) : Prop :=
  forall key s, states st !! key = Some s -> timely (clock st) s.

Lemma timely_new now : timely now (key_state_new now).
Proof. split; [apply key_state_new_wf|done|intros []; simpl; lia|by intros []]. Qed.

Lemma timely_later now now' s : now <= now' -> timely now s -> timely now' s.
Proof. intros ? [W T S C]. split; eauto with lia. intros f. specialize (S f). lia. Qed.

Lemma timely_bucket_of key st : store_timely st -> timely (clock st) (bucket_of key st).
Proof.
  intros H. unfold bucket_of, state_for. destruct (states st !! key) eqn:E; simpl; eauto.
  apply timely_new.
Qed.

Lemma store_timely_put key s st :
  store_timely st -> timely (clock st) s -> store_timely (put_state key s st).
Proof. intros H Hs k s'. rewrite lookup_put_state. case_decide; [by intros [= <-]|apply H]. Qed.

(** Touching the bucket makes any counter of the present timely. *)
Lemma timely_touch now s :
  wf s -> (forall f, window_start (get_counter f s) <= now) -> timely now (set_touched now s).
Proof.
  intros W H. split; [by apply set_rest_wf|done|..]; intros f; unfold set_touched;
    rewrite get_counter_set_rest; [apply H|intros _; apply H].
Qed.

Definition starts_by (now : N) (s : KeyState) : Prop :=
  wf s /\ forall f, window_start (get_counter f s) <= now.

Lemma starts_by_set_counter now f c s :
  starts_by now s -> window_secs c = field_secs f -> window_start c <= now ->
  starts_by now (set_counter f c s).
Proof.
  intros [W S] Hc Hs. split; [by apply set_counter_wf|].
  intros g. rewrite get_set_counter. by case_decide; [|apply S].
Qed.

Lemma starts_by_charge now n s : starts_by now s -> starts_by now (charge now n s).
Proof.
  intros H. unfold charge. set (s1 := set_counter FTpm _ s). set (s2 := set_counter FTph _ s1).
  assert (forall f s, starts_by now s ->
    starts_by now (set_counter f (counter_add now n (get_counter f s)) s)) as Hc.
  { intros f s0 [W S]. rewrite counter_add_alt.
    apply starts_by_set_counter; [done|apply W|]. apply bucket_le. }
  destruct (Hc FTpd s2 (Hc FTph s1 (Hc FTpm s H))) as [W S].
  split; [by apply set_rest_wf|]. intros f. unfold set_consumed. rewrite get_counter_set_rest. apply S.
Qed.

(** A bucket that reads the same at [now], with no counter moved elsewhere, is
    as timely as before. *)
Lemma timely_same_reading now s s' :
  timely now s -> fresh_or_same now s s' -> (forall f, used now s' f = used now s f) ->
  timely now s'.
Proof.
  intros [W T S C] (W' & HT & Hf) U. split; [done|lia|..]; intros f;
    (destruct (Hf f) as [E|E]; [rewrite E, ?HT; eauto|]).
  - rewrite E. apply bucket_le.
  - intros Hc. specialize (U f). unfold used in U. rewrite !reading_alt, W, W', E, N.eqb_refl in U.
    case_match; nbool; [|lia]. rewrite E, HT, H. apply C. lia.
Qed.

Lemma timely_starts_by now s : timely now s -> starts_by now s.
Proof. by intros [W _ S _]. Qed.

Lemma starts_by_set_rest now a b c d s : starts_by now s -> starts_by now (set_rest a b c d s).
Proof. intros [W S]. split; [by apply set_rest_wf|]. intros f. by rewrite get_counter_set_rest. Qed.

Lemma starts_by_touch now s : starts_by now s -> timely now (set_touched now s).
Proof. intros [W S]. by apply timely_touch. Qed.
#[export] Hint Resolve timely_starts_by starts_by_set_rest starts_by_touch starts_by_charge
  timely_bucket_of : aisix.

Lemma fresh_starts_by now s s' : starts_by now s -> fresh_or_same now s s' -> starts_by now s'.
Proof.
  intros [W S] (W' & _ & H). split; [done|]. intros f. destruct (H f) as [-> | ->]; [apply S|].
  apply bucket_le.
Qed.

Lemma fresh_refl now s : wf s -> fresh_or_same now s s.
Proof. intros. split_and!; [done|done|]. by left. Qed.

Lemma timely_acquire key l m st :
  event_ok (EvAcquire key l m) st -> store_timely st ->
  store_timely (snd (local_acquire key l m st)).
Proof.
  intros [Hc Hu] H. rewrite local_acquire_alt.
  pose proof (timely_bucket_of key st H) as Tb. pose proof (timely_wf _ _ Tb) as W.
  destruct (acquire_locked_run (clock st) l m (bucket_of key st)) as (s1 & s' & E & B & ->); [done..|].
  rewrite E. simpl. apply store_timely_put; [done|].
  destruct (acquire_locked_inv _ _ (counters_only_fresh _ (bucket_of key st)) _ _ _ _ _
              (fresh_refl _ _ W) E) as [(e & He & F)|(He & s2 & F & Hs)];
    destruct (admission _ _ _ _ _); try done.
  - eapply timely_same_reading; [done..|]. intros f.
    rewrite (bumped_used _ _ _ _ B), decide_False by set_solver. lia.
  - rewrite Hs. apply starts_by_touch, starts_by_set_rest. eapply fresh_starts_by; [|done].
    by apply timely_starts_by.
Qed.

Lemma timely_peek key l st : store_timely st -> store_timely (snd (local_peek key l st)).
Proof.
  intros H. unfold local_peek. destruct (states st !! key) as [s|] eqn:E; [|done].
  rewrite !current_alt. simpl. apply store_timely_put; [done|].
  pose proof (H _ _ E) as Ts. pose proof (timely_wf _ _ Ts) as W.
  eapply timely_same_reading; [exact Ts| |].
  - pose proof (keep_rolled _ _ (counters_only_fresh (clock st) s)) as K.
    by apply (K FTpm _ (set_counter FRpm _ s)), (K FRpm _ s), fresh_refl.
  - intros []; unfold used; simpl; by rewrite ?reading_rolled.
Qed.

Lemma step_timely st st' : local_step st st' -> store_timely st -> store_timely st'.
Proof.
  intros St H. destruct St as [ev st Hok]. destruct ev; simpl in *.
  - by apply timely_acquire.
  - rewrite local_commit_alt. cbn zeta. apply store_timely_put; eauto 8 with aisix.
  - unfold local_release. destruct (states st !! key) eqn:E; [|done].
    apply store_timely_put; eauto 8 with aisix.
  - rewrite local_add_tokens_alt. case_match; [done|]. apply store_timely_put; eauto 8 with aisix.
  - intros key s. unfold local_reap; simpl. rewrite map_lookup_filter_Some. intros [? _]. eauto.
  - assert (forall b s, timely (clock st) s -> timely (clock st) (set_carries b s)) as Hs.
    { intros b s [W T S C]. split; [by apply set_rest_wf|done|..]; intros f;
        unfold set_carries; rewrite get_counter_set_rest; eauto. }
    pose proof (timely_bucket_of key st H) as Tb.
    unfold note_allowance, bucket_of in *. pose proof (state_for_put key) as Hp.
    destruct (granted_micro_usd l).
    + specialize (Hp (set_carries true (fst (state_for key st))) st).
      destruct (state_for key st) as [s st1]; simpl in *. rewrite Hp.
      apply store_timely_put; auto.
    + destruct (states st !! key) eqn:E; [|done]. apply store_timely_put; eauto.
  - unfold local_claim_once. by case_match.
  - by apply timely_peek.
  - intros key s E. eapply timely_later; [|by eapply H]. done.
Qed.

(** The states a fresh store can reach. *)
Definition reachable (st : LocalStore) : Prop :=
  exists start, rtc local_step (with_clock start) st.

Lemma reachable_timely st : reachable st -> store_timely st.
Proof.
  intros [start R]. assert (store_timely (with_clock start)) as H by by intros ? ?.
  induction R; eauto using step_timely.
Qed.

(** ** Reaping is invisible *)

(** A bucket idle for a day reads zero in every window, now and later. *)
Lemma timely_idle now now' s f :
  timely now s -> last_touched s + DAY_SECS <= now' -> used now' s f = 0.
Proof.
  intros [W T S C] Hi. unfold used. rewrite reading_alt, W. case_match; [|done].
  destruct (N.eq_dec (count (get_counter f s)) 0) as [|Hc]; [done|].
  specialize (C f Hc). nbool.
  pose proof (bucket_lt (field_secs f) (field_secs_pos f) now').
  assert (field_secs f <= DAY_SECS) by (by destruct f; vm_compute). lia.
Qed.

Lemma find_ext {A} (p q : A -> bool) l : (forall x, p x = q x) -> List.find p l = List.find q l.
Proof. intros H. induction l as [|x l IH]; simpl; [done|]. rewrite H. by rewrite IH. Qed.

Lemma admission_ext now l n c g g' :
  (forall d, g d = g' d) -> admission now l n c g = admission now l n c g'.
Proof.
  intros Hg. unfold admission.
  enough (first_refusal now l g = first_refusal now l g') as -> by done.
  unfold first_refusal, refuse_window.
  rewrite (find_ext (tokens_refuse g) (tokens_refuse g')),
    (find_ext (requests_refuse g) (requests_refuse g'))
    by (intros; unfold tokens_refuse, requests_refuse; by rewrite Hg).
  destruct (List.find _ (token_dims l)); [by rewrite Hg|].
  destruct (List.find _ (request_dims l)); simpl; by rewrite ?Hg.
Qed.

Lemma admission_no_allowance now l n c c' g :
  granted_micro_usd l = None -> admission now l n c g = admission now l n c' g.
Proof. intros E. unfold admission. by rewrite E. Qed.

Lemma reap_bucket key idle st :
  bucket_of key (local_reap idle st) = bucket_of key st \/
  bucket_of key (local_reap idle st) = key_state_new (clock st) /\
    survives (clock st - idle) (bucket_of key st) = false.
Proof.
  unfold bucket_of, state_for, local_reap; simpl.
  destruct (states st !! key) as [b|] eqn:E; simpl.
  - destruct (survives (clock st - idle) b) eqn:Hsv.
    + left. by rewrite (map_lookup_filter_Some_2 _ _ _ b).
    + right. rewrite map_lookup_filter_None_2; [done|]. right. intros x Hx ?. simplify_eq/=. congruence.
  - left. rewrite map_lookup_filter_None_2; [done|]. by left.
Qed.

(** Reaping buckets idle for at least a day changes no later admission.  In
    every reachable store, for every key and every later second: the holders
    are the same, every window reads the same, and any acquire gets the same
    answer, for limits without an allowance and for buckets whose last acquire
    carried one. *)
Theorem reap_transparent st idle key l now :
  reachable st -> DAY_SECS <= idle -> clock st <= now ->
  let s := bucket_of key st in
  let s' := bucket_of key (local_reap idle st) in
  in_flight s' = in_flight s /\
  (forall f, used now s' f = used now s f) /\
  (granted_micro_usd l = None \/ carries_allowance s = true ->
   admission now l (in_flight_len s') (consumed_micro_usd s') (level_at now s') =
   admission now l (in_flight_len s) (consumed_micro_usd s) (level_at now s)).
Proof.
  intros R Hi Hn s s'. pose proof (reachable_timely _ R) as H.
  pose proof (timely_bucket_of key st H) as Tb.
  destruct (reap_bucket key idle st) as [Hs'|[Hs' Hsv]]; fold s s' in Hs';
    [by rewrite Hs'|]. fold s in Hsv.
  unfold survives in Hsv. apply orb_false_elim in Hsv as [Hsv Hal].
  apply orb_false_elim in Hsv as [Hf Ht]. apply negb_false_iff, bool_decide_eq_true_1 in Hf. nbool.
  assert (last_touched s + DAY_SECS <= now) as Hd by lia.
  assert (forall f, used now s' f = used now s f) as Hu.
  { intros f. rewrite (timely_idle _ _ _ _ Tb Hd). rewrite Hs'. unfold used. rewrite reading_alt.
    destruct f; simpl; by case_match. }
  split; [by rewrite Hs', Hf|]. split; [done|]. intros Hl.
  assert (in_flight_len s' = in_flight_len s) as -> by (unfold in_flight_len; by rewrite Hs', Hf).
  rewrite (admission_ext now l _ _ _ (level_at now s)) by (intros d; apply Hu).
  destruct Hl as [Hl|Hl]; [by apply admission_no_allowance|].
  rewrite Hl in Hal. simpl in Hal. nbool. rewrite Hs'. simpl. f_equal. lia.
Qed.

Lemma reachable_init start : reachable (with_clock start).
Proof. by exists start. Qed.

Lemma reachable_exec ev st : event_ok ev st -> reachable st -> reachable (local_exec ev st).
Proof. intros Hok [start R]. exists start. eapply rtc_r; [exact R|]. by constructor. Qed.

Lemma acquire_implements_admission_witness :
  let l := mkRateLimit None None None (Some 10) (Some 1) None None None None in
  let st := snd (local_acquire "k" l "m0" (with_clock 100)) in
  local_acquire "k" l "m1" st =
    (RErr (Requests ScopeRequests (mkDetail "rpm" 1 0 20)), st) /\
  exists s' r, local_acquire "k" l "m1" st = (r, put_state "k" s' st) /\
  match admission (clock st) l (in_flight_len (bucket_of "k" st))
          (consumed_micro_usd (bucket_of "k" st)) (level_at (clock st) (bucket_of "k" st)) with
  | Some e => r = RErr e /\
      (forall f, used (clock st) s' f = used (clock st) (bucket_of "k" st) f) /\
      in_flight s' = in_flight (bucket_of "k" st) /\
      consumed_micro_usd s' = consumed_micro_usd (bucket_of "k" st)
  | None => r = ROk tt /\
      (forall f, used (clock st) s' f = used (clock st) (bucket_of "k" st) f +
         (if decide (f ∈ dim_fields (request_dims l)) then 1 else 0)) /\
      in_flight s' = {[ "m1" ]} ∪ in_flight (bucket_of "k" st) /\
      consumed_micro_usd s' = consumed_micro_usd (bucket_of "k" st)
  end.
Proof.
  intros l st. split; [vm_compute; reflexivity|].
  apply (acquire_implements_admission "k" l "m1" st).
  - assert (reachable st) as R.
    { apply (reachable_exec (EvAcquire "k" l "m0")); [|apply reachable_init].
      split; [vm_compute; reflexivity|]. repeat constructor. }
    intros key s E. by apply (reachable_timely st R key).
  - vm_compute; reflexivity.
  - repeat constructor.
Defined.

Lemma reap_transparent_witness :
  let l := mkRateLimit (Some 5) None None None (Some 1) None None (Some 1) None in
  let st := local_exec (EvClock 90000) (local_exec (EvCommit "k" 7 "m0")
              (local_exec (EvAcquire "k" l "m0") (with_clock 100))) in
  local_holders st "k" = ∅ /\ size (states (local_reap 86400 st)) = 0%nat /\
  let s := bucket_of "k" st in
  let s' := bucket_of "k" (local_reap 86400 st) in
  in_flight s' = in_flight s /\
  (forall f, used 90001 s' f = used 90001 s f) /\
  (granted_micro_usd l = None \/ carries_allowance s = true ->
   admission 90001 l (in_flight_len s') (consumed_micro_usd s') (level_at 90001 s') =
   admission 90001 l (in_flight_len s) (consumed_micro_usd s) (level_at 90001 s)).
Proof.
  intros l st. split; [vm_compute; reflexivity|]. split; [vm_compute; reflexivity|].
  apply (reap_transparent st 86400 "k" l 90001).
  - unfold st. apply reachable_exec; [vm_compute; discriminate|].
    apply reachable_exec; [done|]. apply reachable_exec; [|apply reachable_init].
    split; [vm_compute; reflexivity|]. repeat constructor.
  - vm_compute; discriminate.
  - vm_compute; discriminate.
Defined.

(** ** One-shot claims *)

Lemma step_clock st st' : local_step st st' -> clock st <= clock st'.
Proof.
  intros St. destruct St as [ev st Hok]. destruct ev; simpl in *; try done.
  - rewrite local_acquire_alt. destruct (acquire_locked _ _ _ _). done.
  - by rewrite local_commit_alt.
  - unfold local_release. by case_match.
  - rewrite local_add_tokens_alt. by case_match.
  - unfold note_allowance, state_for. by repeat (case_match; simplify_eq/=).
  - unfold local_claim_once. by case_match.
  - unfold local_peek. by repeat (case_match; simplify_eq/=).
Qed.

Lemma run_clock st st' : rtc local_step st st' -> clock st <= clock st'.
Proof. induction 1; [done|]. pose proof (step_clock _ _ H). lia. Qed.

Lemma step_claim st st' key e :
  local_step st st' -> claims st !! key = Some e -> clock st < e -> claims st' !! key = Some e.
Proof.
  intros St Hk He. destruct St as [ev st Hok]. destruct ev; simpl in *; try done.
  - rewrite local_acquire_alt. by destruct (acquire_locked _ _ _ _).
  - by rewrite local_commit_alt.
  - unfold local_release. by case_match.
  - rewrite local_add_tokens_alt. by case_match.
  - unfold note_allowance, state_for. by repeat (case_match; simplify_eq/=).
  - assert (filter (fun kv : string * N => clock st < kv.2) (claims st) !! key = Some e) as Hf
      by by apply map_lookup_filter_Some_2.
    unfold local_claim_once. case_match eqn:E; simpl; [done|].
    rewrite lookup_insert_ne; [done|]. intros ->. congruence.
  - unfold local_peek. by repeat (case_match; simplify_eq/=).
Qed.

Lemma run_claim st st' key e :
  rtc local_step st st' -> claims st !! key = Some e -> clock st' < e -> claims st' !! key = Some e.
Proof.
  induction 1 as [|st st1 st' Hs Hr IH]; [done|]. intros Hk He. apply IH; [|done].
  eapply step_claim; [done..|]. pose proof (step_clock _ _ Hs). pose proof (run_clock _ _ Hr). lia.
Qed.

Lemma claim_once_alt key ttl st :
  fst (local_claim_once key ttl st) =
  match claims st !! key with Some e => e <=? clock st | None => true end.
Proof.
  unfold local_claim_once. rewrite map_lookup_filter.
  destruct (claims st !! key) as [e|]; simpl; [|done].
  destruct (decide (clock st < e)) as [Hlt|Hge].
  - rewrite option_guard_True by done. simpl. symmetry. by apply N.leb_gt.
  - rewrite option_guard_False by done. simpl. symmetry. apply N.leb_le. lia.
Qed.

(** A claim guards its side effect for its whole lifetime.  Once
    [claim_once] answers [true], every later call for the key answers [false]
    until [max(ttl, 1)] seconds have passed, whatever else the store does in
    between, further refused claims included: they do not extend the deadline,
    and the first call at or past it is granted again. *)
Theorem claim_granted_once key ttl st st' :
  fst (local_claim_once key ttl st) = true ->
  rtc local_step (snd (local_claim_once key ttl st)) st' ->
  let deadline := clock st ⊞ N.max ttl 1 in
  (clock st' < deadline -> forall ttl', fst (local_claim_once key ttl' st') = false) /\
  (clock st' < deadline -> forall ttl' now, deadline <= now ->
     fst (local_claim_once key ttl' (clock_set now st')) = true).
Proof.
  intros Hg R deadline.
  assert (claims (snd (local_claim_once key ttl st)) !! key = Some deadline) as Hk.
  { unfold local_claim_once in *. case_match; [done|]. apply lookup_insert_eq. }
  assert (clock st' < deadline -> claims st' !! key = Some deadline) as Hk' by by intros; eapply run_claim.
  split; intros Hlt; specialize (Hk' Hlt).
  - intros ttl'. rewrite claim_once_alt, Hk'. apply N.leb_gt. done.
  - intros ttl' now Hn. rewrite claim_once_alt. simpl. rewrite Hk'. by apply N.leb_le.
Qed.

Lemma claim_granted_once_witness :
  let st := with_clock 100 in
  let st' := snd (local_claim_once "batch" 0 (snd (local_claim_once "batch" 0 st))) in
  fst (local_claim_once "batch" 0 st) = true /\
  ((clock st' < 101 -> forall ttl', fst (local_claim_once "batch" ttl' st') = false) /\
   (clock st' < 101 -> forall ttl' now, 101 <= now ->
      fst (local_claim_once "batch" ttl' (clock_set now st')) = true)).
Proof.
  intros st st'. split; [vm_compute; reflexivity|].
  apply (claim_granted_once "batch" 0 st st'); [vm_compute; reflexivity|].
  eapply rtc_l; [|apply rtc_refl]. by apply (local_step_event (EvClaim "batch" 0)).
Defined.
