(* ===== verification/Limiter.v ===== *)
(** * Two-phase limiter ([crates/aisix-ratelimit/src/limiter.rs])

    Reservations over an abstract [RateStore]: pre-commit takes a concurrency
    slot, commit or drop gives it back, and a streamed response moves it into a
    guard that gives it back when the stream ends.  A [Drop] implementation is a
    function run where the source's value goes out of scope.

    The Tokio runtime is outside the model: [in_runtime] says whether
    [Handle::try_current] finds one, and one iteration of the lease-refresh loop
    is the step [refresh_iteration]. *)

From S2P Require Import Prelude RateStore Window LocalStore.
From stdpp Require Import pretty.
Local Open Scope N_scope.

Inductive CounterUnit := UnitTokens | UnitMicroUsd.
#[export] Instance CounterUnit_eq_dec : EqDecision CounterUnit.
Proof. solve_decision. Defined.

Record Reservation := mkReservation {
  res_key : string;
  member : string;
  has_concurrency_slot : bool;
  refresh_task : bool;
  lease_loss : bool;
  committed : bool;
  counter_unit : CounterUnit;
}.

Definition set_committed (r : Reservation) : Reservation :=
  mkReservation (res_key r) (member r) (has_concurrency_slot r) (refresh_task r)
    (lease_loss r) true (counter_unit r).

Definition stop_refresh (r : Reservation) : Reservation :=
  mkReservation (res_key r) (member r) (has_concurrency_slot r) false
    (lease_loss r) (committed r) (counter_unit r).

Definition amount_for (r : Reservation) (tokens spend_micro_usd : N) : N :=
  match counter_unit r with
  | UnitTokens => tokens
  | UnitMicroUsd => spend_micro_usd
  end.

Abbreviation MultiReservation := (list Reservation).

Record StreamConcurrencyGuard := mkGuard {
  holds : list (string * string);
  refresh_tasks : list bool;
  guard_lease_loss : bool;
  released : bool;
}.

Section limiter.
Context {St : Type} `{RateStore St} (in_runtime : bool).

Record Limiter := mkLimiter {
  store : St;
  member_prefix : string;
  seq : N;
}.

Definition set_store (s : St) (lim : Limiter) : Limiter :=
  mkLimiter s (member_prefix lim) (seq lim).
Definition on_store (f : St -> St) (lim : Limiter) : Limiter := set_store (f (store lim)) lim.

(** [Limiter::with_store]; the fresh UUID is an argument. *)
Definition with_store (s : St) (uuid : string) : Limiter := mkLimiter s (uuid +:+ ":") 0.

Definition next_member (lim : Limiter) : string * Limiter :=
  (member_prefix lim +:+ pretty (seq lim),
   mkLimiter (store lim) (member_prefix lim) (wrap64 (seq lim + 1))).

Definition spawn_lease_refresh (s : St) (has_slot : bool) : bool :=
  if has_slot then
    match stream_lease_refresh_interval s with
    | Some _ => in_runtime
    | None => false
    end
  else false.

Definition pre_commit_with_unit (key : string) (l : RateLimit) (u : CounterUnit) (lim : Limiter)
    : result Reservation RateLimitError * Limiter :=
  let '(m, lim) := next_member lim in
  match acquire key l m (store lim) with
  | (RErr e, s) => (RErr e, set_store s lim)
  | (ROk _, s) =>
      let has_slot := negb (is_none (concurrency l)) in
      (ROk (mkReservation key m has_slot (spawn_lease_refresh s has_slot) false false u),
       set_store s lim)
  end.

Definition pre_commit (key : string) (l : RateLimit) (lim : Limiter) :=
  pre_commit_with_unit key l UnitTokens lim.

(** [impl Drop for Reservation] *)
Definition reservation_drop (r : Reservation) (lim : Limiter) : Limiter :=
  let r := stop_refresh r in
  if committed r then lim else on_store (release (res_key r) (member r)) lim.

Definition commit_tokens (r : Reservation) (tokens : N) (lim : Limiter) : Limiter :=
  let r := stop_refresh r in
  let lim := on_store (commit (res_key r) tokens (member r)) lim in
  reservation_drop (set_committed r) lim.

Definition multi_commit (ms : MultiReservation) (tokens spend_micro_usd : N) (lim : Limiter)
    : Limiter :=
  foldl (fun lim r => commit_tokens r (amount_for r tokens spend_micro_usd) lim) lim ms.

Definition commit_tokens_no_spend (ms : MultiReservation) (tokens : N) (lim : Limiter) :=
  multi_commit ms tokens 0 lim.

Definition multi_drop (ms : MultiReservation) (lim : Limiter) : Limiter :=
  foldl (fun lim r => reservation_drop r lim) lim ms.

Definition keys_of_unit (ms : MultiReservation) (u : CounterUnit) : list string :=
  res_key <$> filter (fun r => counter_unit r = u) ms.
Definition token_keys (ms : MultiReservation) := keys_of_unit ms UnitTokens.
Definition spend_keys (ms : MultiReservation) := keys_of_unit ms UnitMicroUsd.

Definition merge (ms other : MultiReservation) : MultiReservation := ms ++ other.

(** [into_stream_hold]: every reservation is marked committed, so the drop of
    [self] at the end of the method releases nothing. *)
Definition into_stream_hold (ms : MultiReservation) (lim : Limiter)
    : StreamConcurrencyGuard * Limiter :=
  let tasks := omap (fun r =>
    if refresh_task r || spawn_lease_refresh (store lim) (has_concurrency_slot r)
    then Some true else None) ms in
  let guard := mkGuard ((fun r => (res_key r, member r)) <$> ms) tasks
                 (existsb lease_loss ms) false in
  (guard, multi_drop (set_committed <$> ms) lim).

Definition release_now (g : StreamConcurrencyGuard) (lim : Limiter)
    : StreamConcurrencyGuard * Limiter :=
  if released g then (g, lim)
  else
    (mkGuard (holds g) [] (guard_lease_loss g) true,
     foldl (fun lim h => on_store (release h.1 h.2) lim) lim (holds g)).

(** [impl Drop for StreamConcurrencyGuard] *)
Definition guard_drop (g : StreamConcurrencyGuard) (lim : Limiter) : Limiter :=
  snd (release_now g lim).

(** One iteration of the refresh loop of [spawn_lease_refresh].  The loop returns
    once it has found the lease missing; its handle stays where it is. *)
Definition refresh_iteration (r : Reservation) (lim : Limiter) : Reservation * Limiter :=
  if lease_loss r then (r, lim) else
  let '(outcome, s) := refresh_stream_lease_outcome (res_key r) (member r) (store lim) in
  (match outcome with
   | Missing => mkReservation (res_key r) (member r) (has_concurrency_slot r) (refresh_task r) true
                  (committed r) (counter_unit r)
   | Renewed | Unavailable => r
   end, set_store s lim).

Definition add_tokens_post_stream (key : string) (tokens : N) (lim : Limiter) : Limiter :=
  if tokens =? 0 then lim else on_store (add_tokens key tokens) lim.

Definition add_tokens_post_stream_all (keys : list string) (tokens : N) (lim : Limiter)
    : Limiter :=
  if (tokens =? 0) || match keys with [] => true | _ => false end then lim
  else on_store (add_tokens_all keys tokens) lim.

Definition limiter_reap (idle_for : N) (lim : Limiter) : Limiter := on_store (reap idle_for) lim.

Definition limiter_peek (key : string) (l : RateLimit) (lim : Limiter)
    : option RateLimitStatus * Limiter :=
  let '(r, s) := peek key l (store lim) in (r, set_store s lim).

Definition limiter_claim_once (key : string) (ttl : N) (lim : Limiter) : bool * Limiter :=
  let '(r, s) := claim_once key ttl (store lim) in (r, set_store s lim).

Definition limiter_key_count (lim : Limiter) : N := default 0 (local_key_count (store lim)).
End limiter.
Arguments Limiter : clear implicits.

(** ** Slot conservation

    [slots] are the slots the process believes it holds: one per live
    reservation and one per layer of every running stream. *)

Section conservation.
Context {St : Type} `{RateStoreLaws St} (in_runtime : bool).
(** The concurrency limit configured for each bucket key, a [u32]. *)
Context (cap : string -> option N).

Record world := mkWorld {
  limiter : Limiter St;
  live : list Reservation;
  streams : list StreamConcurrencyGuard;
}.

Definition slot_of (r : Reservation) : string * string := (res_key r, member r).
Definition slots (w : world) : list (string * string) :=
  (slot_of <$> live w) ++ (streams w ≫= holds).

(** A request begins, ends either way, becomes a stream; a stream ends; and
    the store's bookkeeping, interleaved at will.  The sequence number does
    not wrap, and no lease is lost underneath its holder. *)
Inductive world_step : world -> world -> Prop :=
  | ws_pre_commit key l u lim r lim' rs gs :
      concurrency l = cap key -> seq lim + 1 < 2 ^ 64 ->
      pre_commit_with_unit in_runtime key l u lim = (ROk r, lim') ->
      world_step (mkWorld lim rs gs) (mkWorld lim' (r :: rs) gs)
  | ws_refused key l u lim e lim' rs gs :
      concurrency l = cap key -> seq lim + 1 < 2 ^ 64 ->
      pre_commit_with_unit in_runtime key l u lim = (RErr e, lim') ->
      world_step (mkWorld lim rs gs) (mkWorld lim' rs gs)
  | ws_commit lim rs1 r rs2 gs n :
      world_step (mkWorld lim (rs1 ++ r :: rs2) gs)
                 (mkWorld (commit_tokens r n lim) (rs1 ++ rs2) gs)
  | ws_drop lim rs1 r rs2 gs :
      world_step (mkWorld lim (rs1 ++ r :: rs2) gs)
                 (mkWorld (reservation_drop r lim) (rs1 ++ rs2) gs)
  | ws_stream lim rs ms rs' gs g lim' :
      rs ≡ₚ ms ++ rs' ->
      into_stream_hold in_runtime ms lim = (g, lim') ->
      world_step (mkWorld lim rs gs) (mkWorld lim' rs' (g :: gs))
  | ws_stream_end lim rs gs1 g gs2 :
      world_step (mkWorld lim rs (gs1 ++ g :: gs2))
                 (mkWorld (guard_drop g lim) rs (gs1 ++ gs2))
  | ws_refresh lim rs1 r rs2 gs r' lim' :
      fst (refresh_stream_lease_outcome (res_key r) (member r) (store lim)) <> Missing ->
      refresh_iteration r lim = (r', lim') ->
      world_step (mkWorld lim (rs1 ++ r :: rs2) gs) (mkWorld lim' (rs1 ++ r' :: rs2) gs)
  | ws_add_tokens keys n lim rs gs :
      world_step (mkWorld lim rs gs) (mkWorld (add_tokens_post_stream_all keys n lim) rs gs)
  | ws_reap idle lim rs gs :
      world_step (mkWorld lim rs gs) (mkWorld (limiter_reap idle lim) rs gs)
  | ws_claim key ttl lim rs gs :
      world_step (mkWorld lim rs gs) (mkWorld (snd (limiter_claim_once key ttl lim)) rs gs)
  | ws_peek key l lim rs gs :
      world_step (mkWorld lim rs gs) (mkWorld (snd (limiter_peek key l lim)) rs gs).

Lemma add_tokens_all_holders keys n s k :
  holders (add_tokens_all keys n s) k = holders s k.
Proof.
  unfold add_tokens_all. revert s. induction keys as [|key keys IH]; intros s; [done|].
  simpl. rewrite IH. apply add_tokens_holders.
Qed.

(** The store's holders are exactly a list of slots. *)
Definition exact (h : string -> gset string) (sl : list (string * string)) : Prop :=
  forall k m, m ∈ h k <-> (k, m) ∈ sl.

Lemma exact_proper h sl sl' : sl ≡ₚ sl' -> exact h sl -> exact h sl'.
Proof. intros Hp He k m. by rewrite (He k m), Hp. Qed.

Lemma exact_same h h' sl : (forall k, h' k = h k) -> exact h sl -> exact h' sl.
Proof. intros Hh He k m. by rewrite Hh. Qed.

Lemma exact_add h h' k m sl :
  (forall k', h' k' = if decide (k' = k) then {[ m ]} ∪ h k' else h k') ->
  exact h sl -> exact h' ((k, m) :: sl).
Proof.
  intros Hh He k' m'. rewrite Hh, elem_of_cons, <- (He k' m').
  case_decide; subst; set_solver.
Qed.

Lemma exact_remove h h' k m sl :
  (forall k', h' k' = if decide (k' = k) then h k' ∖ {[ m ]} else h k') ->
  NoDup ((k, m) :: sl).*2 -> exact h ((k, m) :: sl) -> exact h' sl.
Proof.
  intros Hh Hn He k' m'. rewrite Hh. apply NoDup_cons in Hn as [Hm _]. simpl in Hm.
  assert (m' = m -> (k', m') ∉ sl) as Hnot.
  { intros -> Hin. apply Hm. by apply (list_elem_of_fmap_2 snd) in Hin. }
  specialize (He k' m'). rewrite elem_of_cons in He.
  case_decide; subst; [rewrite elem_of_difference, elem_of_singleton|]; naive_solver.
Qed.

Lemma exact_size h sl k :
  NoDup sl.*2 -> exact h sl -> size (h k) = length (filter (fun s => s.1 = k) sl).
Proof.
  intros Hn He. rewrite <- (length_fmap snd).
  rewrite <- (size_list_to_set (C := gset string)).
  - f_equal. apply set_eq. intros m. rewrite (He k m), elem_of_list_to_set, list_elem_of_fmap.
    setoid_rewrite list_elem_of_filter. split; [by exists (k, m)|].
    intros ([k' m'] & -> & Hk & ?). simpl in *. by subst.
  - by apply NoDup_fmap_filter.
Qed.

Definition count (k : string) (sl : list (string * string)) : nat :=
  length (filter (fun s => s.1 = k) sl).

(** What holds of the limiter and the slots at every moment. *)
Record slots_ok (lim : Limiter St) (sl : list (string * string)) : Prop := {
  so_exact : exact (holders (store lim)) sl;
  so_nodup : NoDup sl.*2;
  so_fresh s : s ∈ sl -> exists i, s.2 = member_prefix lim +:+ pretty i /\ i < seq lim;
  so_cap k max : cap k = Some max -> N.of_nat (count k sl) <= max;
}.

Lemma slots_ok_perm lim sl sl' : sl ≡ₚ sl' -> slots_ok lim sl -> slots_ok lim sl'.
Proof.
  intros Hp [He Hn Hf Hc]. split; [by eapply exact_proper|by rewrite <- Hp| |].
  - intros s. rewrite <- Hp. apply Hf.
  - intros k max Hk. unfold count. rewrite <- Hp. by apply Hc.
Qed.

Lemma slots_ok_same lim lim' sl :
  (forall k, holders (store lim') k = holders (store lim) k) ->
  member_prefix lim' = member_prefix lim -> seq lim <= seq lim' ->
  slots_ok lim sl -> slots_ok lim' sl.
Proof.
  intros Hh Hm Hs [He Hn Hf Hc]. split; [by eapply exact_same|done| |done].
  intros s (i & -> & ?)%Hf. rewrite Hm. exists i. split; [done|lia].
Qed.

Lemma slots_ok_remove lim lim' k m sl :
  (forall k', holders (store lim') k' =
     if decide (k' = k) then holders (store lim) k' ∖ {[ m ]} else holders (store lim) k') ->
  member_prefix lim' = member_prefix lim -> seq lim' = seq lim ->
  slots_ok lim ((k, m) :: sl) -> slots_ok lim' sl.
Proof.
  intros Hh Hm Hs [He Hn Hf Hc]. split.
  - by eapply exact_remove.
  - by apply NoDup_cons in Hn as [_ ?].
  - intros s Hin. rewrite Hm, Hs. apply Hf. by right.
  - intros k' max Hk'. specialize (Hc k' max Hk'). unfold count in *.
    rewrite filter_cons in Hc. case_decide; simpl in *; lia.
Qed.

Lemma slots_ok_release_all hs lim sl :
  slots_ok lim (hs ++ sl) ->
  slots_ok (foldl (fun lim h => on_store (release h.1 h.2) lim) lim hs) sl.
Proof.
  revert lim. induction hs as [|[k m] hs IH]; intros lim Hok; [done|].
  apply IH. apply (slots_ok_remove lim _ k m); [|done..]. intros k'. apply release_holders.
Qed.

Lemma slots_ok_ended f r lim sl :
  (forall s k', holders (f s) k' =
     if decide (k' = res_key r) then holders s k' ∖ {[ member r ]} else holders s k') ->
  slots_ok lim (slot_of r :: sl) -> slots_ok (on_store f lim) sl.
Proof. intros Hf Hok. apply (slots_ok_remove lim _ (res_key r) (member r)); [|done..]. intros k'. apply Hf. Qed.

(** A refused pre-commit leaves the slots alone; a granted one adds its own,
    under a member no other slot has. *)
Lemma slots_ok_pre_commit key l u lim res lim' sl :
  (forall k max, cap k = Some max -> max < u32_mod) ->
  concurrency l = cap key -> seq lim + 1 < 2 ^ 64 ->
  pre_commit_with_unit in_runtime key l u lim = (res, lim') ->
  slots_ok lim sl ->
  slots_ok lim' (match res with ROk r => slot_of r :: sl | RErr _ => sl end).
Proof.
  intros Hu Hcap Hseq Hpre [He Hn Hf Hc]. unfold pre_commit_with_unit, next_member in Hpre.
  cbn [store] in Hpre. set (m := member_prefix lim +:+ pretty (seq lim)) in *.
  pose proof (acquire_holders key l m (store lim)) as Hh.
  pose proof (acquire_gate key l m (store lim)) as Hgate.
  destruct (acquire key l m (store lim)) as [[[]|e] s] eqn:Ha; simplify_eq/=.
  - assert (wrap64 (seq lim + 1) = seq lim + 1) as Hw by (unfold wrap64; by apply N.mod_small).
    split; simpl.
    + eapply exact_add; [|exact He]. intros k'. rewrite Hh. unfold slot_of. simpl.
      destruct (decide (k' = key)); [rewrite decide_True by done|rewrite decide_False by naive_solver]; done.
    + constructor; [|done]. rewrite list_elem_of_fmap. intros ([k' m'] & Heq & Hin).
      simpl in Heq. apply Hf in Hin as (i & Hi & Hlt). simpl in Hi.
      rewrite <- Heq in Hi. unfold m in Hi. clear Heq. rename Hi into Heq. apply (inj (String.append _)) in Heq. apply (inj pretty) in Heq. lia.
    + rewrite Hw. intros s' [->|Hin]%elem_of_cons; [exists (seq lim); split; [done|lia]|].
      destruct (Hf _ Hin) as (i & ? & ?). exists i. split; [done|lia].
    + intros k max Hk. specialize (Hc k max Hk). unfold count in *. rewrite filter_cons. simpl.
      case_decide; [|done]. subst k. simpl.
      specialize (Hgate max eq_refl). rewrite Hcap in Hgate. specialize (Hgate Hk).
      rewrite (exact_size _ sl) in Hgate by done.
      rewrite N.mod_small in Hgate by (specialize (Hu _ _ Hk); lia). lia.
  - eapply (slots_ok_same lim); [|done| |by split]; simpl.
    + exact Hh.
    + unfold wrap64. rewrite N.mod_small by done. lia.
Qed.

Definition world_ok (w : world) : Prop :=
  slots_ok (limiter w) (slots w)
  /\ Forall (fun r => committed r = false) (live w)
  /\ Forall (fun g => released g = false) (streams w).

Lemma multi_drop_committed ms lim : multi_drop (set_committed <$> ms) lim = lim.
Proof. unfold multi_drop. induction ms as [|r ms IH]; [done|]. apply IH. Qed.

Lemma slots_live_perm lim rs rs' gs :
  rs ≡ₚ rs' -> slots (mkWorld lim rs gs) ≡ₚ slots (mkWorld lim rs' gs).
Proof. intros Hp. unfold slots. simpl. by rewrite Hp. Qed.

(** Every operation that leaves the holders alone preserves the invariant. *)
Lemma world_ok_same lim lim' rs gs :
  (forall k, holders (store lim') k = holders (store lim) k) ->
  member_prefix lim' = member_prefix lim -> seq lim' = seq lim ->
  world_ok (mkWorld lim rs gs) -> world_ok (mkWorld lim' rs gs).
Proof.
  intros Hh Hm Hs (Hok & Hl & Hg). split; [|done].
  eapply (slots_ok_same lim); [done|done|simpl; lia|exact Hok].
Qed.

(** A reservation ends: whatever it does to the store gives its slot back. *)
Lemma world_ok_ended f r lim rs1 rs2 gs :
  (forall s k', holders (f s) k' =
     if decide (k' = res_key r) then holders s k' ∖ {[ member r ]} else holders s k') ->
  world_ok (mkWorld lim (rs1 ++ r :: rs2) gs) ->
  world_ok (mkWorld (on_store f lim) (rs1 ++ rs2) gs).
Proof.
  intros Hf (Hok & Hl & Hg). split; [|split; [|done]].
  - apply (slots_ok_ended f r); [done|]. eapply slots_ok_perm; [|exact Hok].
    rewrite (slots_live_perm _ _ (r :: rs1 ++ rs2)); [done|]. by rewrite Permutation_middle.
  - simpl in *. rewrite Forall_app, Forall_cons in Hl. rewrite Forall_app. tauto.
Qed.

Lemma live_uncommitted lim rs1 r rs2 gs :
  world_ok (mkWorld lim (rs1 ++ r :: rs2) gs) -> committed r = false.
Proof. intros (_ & Hl & _). simpl in Hl. rewrite Forall_app, Forall_cons in Hl. tauto. Qed.

Lemma slots_into_stream ms lim rs' gs g lim' :
  into_stream_hold in_runtime ms lim = (g, lim') ->
  lim' = lim /\ released g = false
  /\ slots (mkWorld lim rs' (g :: gs)) ≡ₚ slots (mkWorld lim (ms ++ rs') gs).
Proof.
  unfold into_stream_hold. rewrite multi_drop_committed. intros ?; simplify_eq/=.
  split; [done|]. split; [done|]. unfold slots. simpl.
  rewrite fmap_app. change (fun r => (res_key r, member r)) with slot_of.
  set (a := slot_of <$> rs'). set (b := slot_of <$> ms). set (c := gs ≫= holds). solve_Permutation.
Qed.

Lemma world_ok_step w w' :
  (forall k max, cap k = Some max -> max < u32_mod) ->
  world_step w w' -> world_ok w -> world_ok w'.
Proof.
  intros Hu Hstep Hw. destruct Hstep.
  - destruct Hw as (Hok & Hl & Hg).
    split; [by eapply (slots_ok_pre_commit key l u lim (ROk r))|]. split; [|done].
    simpl. constructor; [|done]. unfold pre_commit_with_unit in *. simpl in *. by destruct_ifs.
  - destruct Hw as (Hok & Hl & Hg). split; [|done].
    by eapply (slots_ok_pre_commit key l u lim (RErr e)).
  - unfold commit_tokens, reservation_drop. simpl.
    apply (world_ok_ended _ r); [|done]. intros. apply commit_holders.
  - unfold reservation_drop. simpl. rewrite (live_uncommitted _ _ _ _ _ Hw).
    apply (world_ok_ended _ r); [|done]. intros. apply release_holders.
  - destruct Hw as (Hok & Hl & Hg). apply (slots_into_stream _ _ rs' gs) in H2 as (-> & ? & Hp).
    split; [|split].
    + eapply slots_ok_perm; [|exact Hok]. rewrite Hp. by apply slots_live_perm.
    + simpl in *. rewrite H1, Forall_app in Hl. tauto.
    + by constructor.
  - destruct Hw as (Hok & Hl & Hg). simpl in Hg. rewrite Forall_app, Forall_cons in Hg.
    unfold guard_drop, release_now. rewrite (proj1 (proj2 Hg)). simpl.
    split; [|split; [done|simpl; rewrite Forall_app; tauto]].
    apply slots_ok_release_all. eapply slots_ok_perm; [|exact Hok]. unfold slots. simpl.
    rewrite !bind_app. simpl. solve_Permutation.
  - unfold refresh_iteration in *. destruct (lease_loss r); [by simplify_eq|].
    pose proof (refresh_holders (res_key r) (member r) (store lim)) as Hh.
    destruct (refresh_stream_lease_outcome _ _ _) as [outcome s]. simpl in *.
    assert (r' = r /\ lim' = set_store s lim) as [-> ->] by (destruct outcome; by simplify_eq).
    apply (world_ok_same lim); [|done..]. intros k. by apply Hh.
  - apply (world_ok_same lim); [|unfold add_tokens_post_stream_all; by case_match..|done]. intros k.
    unfold add_tokens_post_stream_all. case_match; [done|]. apply add_tokens_all_holders.
  - apply (world_ok_same lim); [|done..]. intros k. apply reap_holders.
  - unfold limiter_claim_once. pose proof (claim_holders key ttl (store lim)) as Hh.
    destruct (claim_once _ _ _). by apply (world_ok_same lim); [|done..].
  - unfold limiter_peek. pose proof (peek_holders key l (store lim)) as Hh.
    destruct (peek _ _ _). by apply (world_ok_same lim); [|done..].
Qed.

(** The limiter as [with_store] makes it over a store no one holds a slot of. *)
Definition start (s : St) (uuid : string) : world := mkWorld (with_store s uuid) [] [].

Lemma world_ok_reachable s uuid w :
  (forall k max, cap k = Some max -> max < u32_mod) ->
  (forall k, holders s k = ∅) -> rtc world_step (start s uuid) w -> world_ok w.
Proof.
  intros Hu Hs Hsteps.
  assert (world_ok (start s uuid)) as Hok.
  { split; [split|split; constructor].
    - intros k m. simpl. rewrite Hs. set_solver.
    - constructor.
    - set_solver.
    - intros k max _. unfold count. simpl. lia. }
  clear Hs. induction Hsteps as [|x y z Hstep _ IH]; [done|]. apply IH. by eapply world_ok_step.
Qed.

(** C27. No slot leaks and none is given back early: whatever interleaving of
    requests beginning, being refused, committing, being dropped, streaming
    and ending, the members the store counts as holding a slot of a bucket
    are exactly the live reservations and running streams of that bucket, one
    slot each. *)
Theorem slots_exact s uuid w k :
  (forall k max, cap k = Some max -> max < u32_mod) ->
  (forall k, holders s k = ∅) -> rtc world_step (start s uuid) w ->
  (forall m, m ∈ holders (store (limiter w)) k <-> (k, m) ∈ slots w)
  /\ size (holders (store (limiter w)) k) = count k (slots w).
Proof.
  intros Hu Hs Hsteps. destruct (world_ok_reachable s uuid w Hu Hs Hsteps) as ([He Hn _ _] & _).
  split; [apply He|]. by apply exact_size.
Qed.

(** A configured concurrency limit is never exceeded: at no moment of any
    run do the live reservations and running streams of a bucket with limit
    [max] number more than [max]. *)
Theorem concurrency_capped s uuid w k max :
  (forall k max, cap k = Some max -> max < u32_mod) ->
  (forall k, holders s k = ∅) -> rtc world_step (start s uuid) w ->
  cap k = Some max ->
  N.of_nat (count k (slots w)) <= max.
Proof.
  intros Hu Hs Hsteps. destruct (world_ok_reachable s uuid w Hu Hs Hsteps) as ([_ _ _ Hc] & _).
  apply Hc.
Qed.
End conservation.

(** ** Billing

    What a request's layers add to each bucket of the in-process store. *)

Section billing.
Context (in_runtime : bool).

Definition token_field (f : counter_field) : bool :=
  match f with FTpm | FTph | FTpd => true | _ => false end.

(** [s'] is [s] at second [now] with [n] charged and the members [X] gone. *)
Record billed (now n : N) (X : gset string) (s s' : KeyState) : Prop := {
  billed_used f : used now s' f = if token_field f then used now s f ⊞ n else used now s f;
  billed_consumed : consumed_micro_usd s' = consumed_micro_usd s ⊞ n;
  billed_holders : in_flight s' = in_flight s ∖ X;
}.

(** Every counter is a [u64]. *)
Definition u64_bucket (now : N) (s : KeyState) : Prop :=
  (forall f, used now s f <= u64_max) /\ consumed_micro_usd s <= u64_max.

Definition store_billed (n : string -> N) (X : string -> gset string) (st st' : LocalStore) : Prop :=
  clock st' = clock st /\
  forall k, billed (clock st) (n k) (X k) (bucket_of k st) (bucket_of k st').

Definition u64_store (st : LocalStore) : Prop :=
  forall k, u64_bucket (clock st) (bucket_of k st).

Lemma sat_add_0 a : a <= u64_max -> a ⊞ 0 = a.
Proof. nlia. Qed.

Lemma sat_add_add a b c : (a ⊞ b) ⊞ c = a ⊞ (b + c).
Proof. nlia. Qed.

Lemma billed_refl now s : u64_bucket now s -> billed now 0 ∅ s s.
Proof.
  intros [Hu Hc]. split; [|by rewrite sat_add_0|set_solver].
  intros f. rewrite sat_add_0 by done. by case_match.
Qed.

Lemma billed_trans now n m X Y s s1 s2 :
  billed now n X s s1 -> billed now m Y s1 s2 -> billed now (n + m) (X ∪ Y) s s2.
Proof.
  intros [U1 C1 H1] [U2 C2 H2]. split.
  - intros f. rewrite U2, U1. case_match; [apply sat_add_add|done].
  - by rewrite C2, C1, sat_add_add.
  - rewrite H2, H1. set_solver.
Qed.

Lemma billed_u64 now n X s s' : u64_bucket now s -> billed now n X s s' -> u64_bucket now s'.
Proof.
  intros [Hu Hc] [U C H]. split; [intros f; rewrite U; case_match|rewrite C]; auto with aisix.
Qed.

Lemma billed_charge now n s : billed now n ∅ s (charge now n s).
Proof.
  split; [|done|simpl; set_solver]. intros f. unfold used.
  destruct f; simpl; rewrite ?counter_add_alt, ?reading_rolled; done.
Qed.

Lemma billed_set_rest now n X s s' c t :
  billed now n X s s' ->
  billed now n X s (set_rest (consumed_micro_usd s') c (in_flight s') t s').
Proof. intros [U C H]. split; [|done|done]. intros f. rewrite <- U. apply used_set_rest. Qed.

Lemma store_billed_trans n m X Y st st1 st2 :
  store_billed n X st st1 -> store_billed m Y st1 st2 ->
  store_billed (fun k => n k + m k) (fun k => X k ∪ Y k) st st2.
Proof.
  intros [Hc1 H1] [Hc2 H2]. split; [congruence|]. intros k.
  eapply billed_trans; [apply H1|]. rewrite <- Hc1. apply H2.
Qed.

Lemma store_billed_then n n' m X X' Y st st1 st2 :
  store_billed n X st st1 -> store_billed m Y st1 st2 ->
  (forall k, n' k = n k + m k) -> (forall k, X' k = X k ∪ Y k) ->
  store_billed n' X' st st2.
Proof.
  intros H1 H2 Hn HX. destruct (store_billed_trans _ _ _ _ _ _ _ H1 H2) as [Hc H].
  split; [done|]. intros k. rewrite Hn, HX. apply H.
Qed.

Lemma store_billed_u64 n X st st' : u64_store st -> store_billed n X st st' -> u64_store st'.
Proof. intros Hu [Hc H] k. rewrite Hc. eapply billed_u64; [apply Hu|apply H]. Qed.

(** An operation that rewrites one bucket. *)
Lemma store_billed_put key n X s' st :
  u64_store st -> billed (clock st) n X (bucket_of key st) s' ->
  store_billed (fun k => if decide (k = key) then n else 0)
    (fun k => if decide (k = key) then X else ∅) st (put_state key s' st).
Proof.
  intros Hu Hb. split; [done|]. intros k. rewrite bucket_of_put.
  repeat case_decide; subst; try done. by apply billed_refl.
Qed.

Lemma store_billed_refl st : u64_store st -> store_billed (fun _ => 0) (fun _ => ∅) st st.
Proof. intros Hu. split; [done|]. intros k. by apply billed_refl. Qed.

Lemma store_billed_commit key n m st :
  u64_store st ->
  store_billed (fun k => if decide (k = key) then n else 0)
    (fun k => if decide (k = key) then {[ m ]} else ∅) st (local_commit key n m st).
Proof.
  intros Hu. rewrite local_commit_alt. apply store_billed_put; [done|].
  destruct (billed_charge (clock st) n (bucket_of key st)) as [U C H].
  split; [|done|done]. intros f. rewrite <- U. unfold set_touched, set_in_flight.
  by rewrite !used_set_rest.
Qed.

Lemma store_billed_add key n st :
  u64_store st ->
  store_billed (fun k => if decide (k = key) then n else 0) (fun _ => ∅)
    st (local_add_tokens key n st).
Proof.
  intros Hu. rewrite local_add_tokens_alt. destruct (n =? 0) eqn:E.
  - nbool. subst n. split; [done|]. intros k. case_decide; by apply billed_refl.
  - destruct (store_billed_put key n ∅ (set_touched (clock st) (charge (clock st) n (bucket_of key st))) st)
      as [Hc Hk]; [done| |].
    + destruct (billed_charge (clock st) n (bucket_of key st)) as [U C H].
      split; [|done|done]. intros f. rewrite <- U. apply used_set_rest.
    + split; [done|]. intros k. specialize (Hk k). by case_decide.
Qed.

Lemma store_billed_release key m st :
  u64_store st ->
  store_billed (fun _ => 0) (fun k => if decide (k = key) then {[ m ]} else ∅)
    st (local_release key m st).
Proof.
  intros Hu. unfold local_release.
  destruct (states st !! key) as [s|] eqn:E.
  - assert (bucket_of key st = s) as <- by (unfold bucket_of, state_for; by rewrite E).
    destruct (store_billed_put key 0 {[ m ]} (set_touched (clock st)
      (set_in_flight (in_flight (bucket_of key st) ∖ {[ m ]}) (bucket_of key st))) st Hu)
      as [Hc Hk].
    + destruct (billed_refl _ _ (Hu key)) as [U C H]. split; [|done|done].
      intros f. rewrite <- U. unfold set_touched, set_in_flight. by rewrite !used_set_rest.
    + split; [done|]. intros k. specialize (Hk k). by destruct (decide (k = key)).
  - split; [done|]. intros k. destruct (billed_refl _ _ (Hu k)) as [U C H]. split; [done|done|].
    case_decide; subst; [|done].
    rewrite local_holders_bucket. unfold local_holders. rewrite E. set_solver.
Qed.

(** What a bucket owes for a request's layers, and the members they free. *)
Definition charged (ms : MultiReservation) (tokens spend : N) (k : string) : N :=
  foldr (fun r n => (if decide (k = res_key r) then amount_for r tokens spend else 0) + n) 0 ms.
Definition freed (ms : MultiReservation) (k : string) : gset string :=
  foldr (fun r X => (if decide (k = res_key r) then {[ member r ]} else ∅) ∪ X) ∅ ms.
Definition key_charge (keys : list string) (n : N) (k : string) : N :=
  foldr (fun key m => (if decide (k = key) then n else 0) + m) 0 keys.

Lemma charged_split ms tokens spend k :
  charged ms tokens spend k
  = key_charge (token_keys ms) tokens k + key_charge (spend_keys ms) spend k.
Proof.
  unfold token_keys, spend_keys, keys_of_unit. induction ms as [|r ms IH]; [done|].
  rewrite !filter_cons. cbn [charged foldr]. fold (charged ms tokens spend k).
  rewrite IH. unfold amount_for.
  destruct (counter_unit r);
    [rewrite (decide_True (P := UnitTokens = UnitTokens)),
       (decide_False (P := UnitTokens = UnitMicroUsd)) by done
    |rewrite (decide_False (P := UnitMicroUsd = UnitTokens)),
       (decide_True (P := UnitMicroUsd = UnitMicroUsd)) by done];
    rewrite fmap_cons; cbn [key_charge foldr]; unfold key_charge; lia.
Qed.

Lemma multi_commit_billed ms tokens spend lim :
  u64_store (store lim) ->
  store_billed (charged ms tokens spend) (freed ms)
    (store lim) (store (multi_commit ms tokens spend lim)).
Proof.
  unfold multi_commit. revert lim. induction ms as [|r ms IH]; intros lim Hu.
  - by apply store_billed_refl.
  - simpl. pose proof (store_billed_commit (res_key r) (amount_for r tokens spend)
      (member r) _ Hu) as Hb.
    apply (store_billed_then _ _ _ _ _ _ _ _ _ Hb (IH (on_store _ lim) (store_billed_u64 _ _ _ _ Hu Hb))); done.
Qed.

Lemma post_stream_billed keys n lim :
  u64_store (store lim) ->
  store_billed (key_charge keys n) (fun _ => ∅)
    (store lim) (store (add_tokens_post_stream_all keys n lim)).
Proof.
  intros Hu. unfold add_tokens_post_stream_all. destruct (n =? 0) eqn:E; simpl.
  - nbool. subst n. assert (forall k, key_charge keys 0 k = 0) as Hz.
    { intros k. induction keys; simpl; [done|]. case_decide; lia. }
    destruct (store_billed_refl _ Hu) as [Hc Hk]. split; [done|]. intros k. by rewrite Hz.
  - clear E. assert (store_billed (key_charge keys n) (fun _ => ∅) (store lim)
      (add_tokens_all keys n (store lim))) as Hall.
    { unfold add_tokens_all. generalize dependent (store lim). induction keys as [|key keys IH]; intros st Hu.
      - by apply store_billed_refl.
      - simpl. pose proof (store_billed_add key n _ Hu) as Hb.
        apply (store_billed_then _ _ _ _ _ _ _ _ _ Hb (IH _ (store_billed_u64 _ _ _ _ Hu Hb)));
          intros k; [done|by rewrite union_empty_l_L]. }
    destruct keys; [by apply store_billed_refl|done].
Qed.

Lemma guard_drop_billed ms tasks loss lim :
  u64_store (store lim) ->
  store_billed (fun _ => 0) (freed ms) (store lim)
    (store (guard_drop (mkGuard ((fun r => (res_key r, member r)) <$> ms) tasks loss false) lim)).
Proof.
  unfold guard_drop, release_now. simpl. revert lim. induction ms as [|r ms IH]; intros lim Hu.
  - by apply store_billed_refl.
  - simpl. pose proof (store_billed_release (res_key r) (member r) _ Hu) as Hb.
    apply (store_billed_then _ _ _ _ _ _ _ _ _ Hb (IH (on_store _ lim) (store_billed_u64 _ _ _ _ Hu Hb))); done.
Qed.

(** A streamed response: the slots move to the guard, usage is added when the
    stream ends, then the guard is dropped. *)
Definition stream_and_settle (ms : MultiReservation) (tokens spend : N) (lim : Limiter LocalStore)
    : Limiter LocalStore :=
  let '(g, lim) := into_stream_hold in_runtime ms lim in
  let lim := add_tokens_post_stream_all (token_keys ms) tokens lim in
  let lim := add_tokens_post_stream_all (spend_keys ms) spend lim in
  guard_drop g lim.

(** A streamed request is billed exactly like a buffered one: for every
    bucket, every token window and the cumulative counter grow by the sum of
    the request's layers on that bucket (tokens or micro-USD by the layer's
    unit, saturating at [2^64 - 1]), request windows are unchanged, and the
    layers' slots are free. *)
Theorem streamed_billed_as_buffered ms tokens spend lim :
  u64_store (store lim) ->
  store_billed (charged ms tokens spend) (freed ms)
    (store lim) (store (multi_commit ms tokens spend lim)) /\
  store_billed (charged ms tokens spend) (freed ms)
    (store lim) (store (stream_and_settle ms tokens spend lim)).
Proof.
  intros Hu. split; [by apply multi_commit_billed|].
  unfold stream_and_settle, into_stream_hold. rewrite multi_drop_committed.
  pose proof (post_stream_billed (token_keys ms) tokens lim Hu) as H1.
  pose proof (store_billed_u64 _ _ _ _ Hu H1) as U1.
  pose proof (post_stream_billed (spend_keys ms) spend _ U1) as H2.
  pose proof (store_billed_u64 _ _ _ _ U1 H2) as U2.
  set (tasks := omap _ ms). set (loss := existsb _ ms).
  pose proof (guard_drop_billed ms tasks loss _ U2) as H3.
  apply (store_billed_then _ _ _ _ _ _ _ _ _ H1 (store_billed_trans _ _ _ _ _ _ _ H2 H3));
    intros k; [by rewrite charged_split, N.add_0_r|by rewrite !union_empty_l_L].
Qed.
End billing.

(** ** Witnesses: the in-process store, two requests on one bucket. *)

Definition demo_cap (k : string) : option N := if decide (k = "k") then Some 2 else None.
Definition demo_limit : RateLimit := mkRateLimit (Some 100) None None None None None None (Some 2) None.

Definition demo_reserve (lim : Limiter LocalStore) : Reservation * Limiter LocalStore :=
  match pre_commit false "k" demo_limit lim with
  | (ROk r, lim) => (r, lim)
  | (RErr _, lim) => (mkReservation "" "" false false false false UnitTokens, lim)
  end.

Definition demo_start : Limiter LocalStore := with_store (with_clock 100) "u".
Definition demo_1 := demo_reserve demo_start.
Definition demo_2 := demo_reserve (snd demo_1).
Definition demo_stream := into_stream_hold false [fst demo_1] (snd demo_2).

Lemma demo_run :
  rtc (world_step false demo_cap) (start (with_clock 100) "u")
    (mkWorld (snd demo_stream) [fst demo_2] [fst demo_stream]).
Proof.
  eapply rtc_l.
  { apply (ws_pre_commit false demo_cap "k" demo_limit UnitTokens _ (fst demo_1) (snd demo_1));
      vm_compute; reflexivity. }
  eapply rtc_l.
  { apply (ws_pre_commit false demo_cap "k" demo_limit UnitTokens _ (fst demo_2) (snd demo_2));
      vm_compute; reflexivity. }
  eapply rtc_l; [|apply rtc_refl].
  apply (ws_stream false demo_cap _ _ [fst demo_1] [fst demo_2] _ (fst demo_stream) (snd demo_stream)).
  - apply Permutation_swap.
  - apply surjective_pairing.
Qed.

Lemma slots_exact_witness :
  let w := mkWorld (snd demo_stream) [fst demo_2] [fst demo_stream] in
  slots w = [("k", "u:1"); ("k", "u:0")] /\
  (forall m, m ∈ holders (store (limiter w)) "k" <-> ("k", m) ∈ slots w)
  /\ size (holders (store (limiter w)) "k") = count "k" (slots w).
Proof.
  split; [vm_compute; reflexivity|].
  apply (slots_exact false demo_cap (with_clock 100) "u" _ "k"); [|done|apply demo_run].
  unfold demo_cap. intros k max H. case_decide; by simplify_eq.
Defined.

Lemma concurrency_capped_witness :
  let w := mkWorld (snd demo_stream) [fst demo_2] [fst demo_stream] in
  fst (pre_commit false "k" demo_limit (limiter w))
    = RErr (Concurrency (mkDetail "concurrency" 2 0 60)) /\
  N.of_nat (count "k" (slots w)) <= 2.
Proof.
  split; [vm_compute; reflexivity|].
  apply (concurrency_capped false demo_cap (with_clock 100) "u" _ "k" 2); [|done|apply demo_run|done].
  unfold demo_cap. intros k max H. case_decide; by simplify_eq.
Defined.

Lemma streamed_billed_as_buffered_witness :
  let ms := [fst demo_1; mkReservation "b" "u:9" false false false false UnitMicroUsd] in
  charged ms 7 300 "b" = 300 /\
  store_billed (charged ms 7 300) (freed ms)
    (store demo_start) (store (multi_commit ms 7 300 demo_start)) /\
  store_billed (charged ms 7 300) (freed ms)
    (store demo_start) (store (stream_and_settle false ms 7 300 demo_start)).
Proof.
  split; [vm_compute; reflexivity|].
  apply (streamed_billed_as_buffered false
    [fst demo_1; mkReservation "b" "u:9" false false false false UnitMicroUsd] 7 300 demo_start).
  intros k. split; [intros []; vm_compute; discriminate|vm_compute; discriminate].
Defined.
