(* ===== verification/Utf8.v ===== *)
(** * UTF-8 and characters

    What the gateway uses of Rust's [str] and [char]: a byte string is a
    [list N] of values below 256, a text is a [list N] of scalar values.
    [decode] is the scan shared by [str::from_utf8] and
    [String::from_utf8_lossy]: each maximal ill-formed prefix is one error. *)

From S2P Require Import Prelude.
From Stdlib Require Import ZifyBool ZifyN.
Local Open Scope N_scope.

Abbreviation bytes := (list N).
Abbreviation text := (list N).

Definition between (lo hi x : N) : bool := (lo <=? x) && (x <=? hi).
Definition get_byte (l : bytes) (i : nat) : N := nth i l 0.
Definition is_cont (b : N) : bool := between 128 191 b.

(** The second byte a three- or four-byte lead admits. *)
Definition second_of_3 (b0 b1 : N) : bool :=
  if b0 =? 224 then between 160 191 b1
  else if b0 =? 237 then between 128 159 b1
  else is_cont b1.
Definition second_of_4 (b0 b1 : N) : bool :=
  if b0 =? 240 then between 144 191 b1
  else if b0 =? 244 then between 128 143 b1
  else is_cont b1.

(** The character (or error) at the head of the input, and the bytes it takes. *)
Definition decode_step (b0 : N) (r : bytes) : option N * nat :=
  let b1 := get_byte r 0 in
  let b2 := get_byte r 1 in
  let b3 := get_byte r 2 in
  if b0 <? 128 then (Some b0, 1%nat)
  else if between 194 223 b0 then
    if is_cont b1 then (Some (b0 mod 32 * 64 + b1 mod 64), 2%nat) else (None, 1%nat)
  else if between 224 239 b0 then
    if second_of_3 b0 b1 then
      if is_cont b2 then (Some (b0 mod 16 * 4096 + b1 mod 64 * 64 + b2 mod 64), 3%nat)
      else (None, 2%nat)
    else (None, 1%nat)
  else if between 240 244 b0 then
    if second_of_4 b0 b1 then
      if is_cont b2 then
        if is_cont b3 then
          (Some (b0 mod 8 * 262144 + b1 mod 64 * 4096 + b2 mod 64 * 64 + b3 mod 64), 4%nat)
        else (None, 3%nat)
      else (None, 2%nat)
    else (None, 1%nat)
  else (None, 1%nat).

Fixpoint decode (skip : nat) (l : bytes) : list (option N) :=
  match l with
  | [] => []
  | b :: r =>
      match skip with
      | S k => decode k r
      | O => let '(c, n) := decode_step b r in c :: decode (Nat.pred n) r
      end
  end.

Definition from_utf8 (l : bytes) : option text := mapM id (decode 0 l).
Definition REPLACEMENT : N := 65533.
Definition from_utf8_lossy (l : bytes) : text := default REPLACEMENT <$> decode 0 l.

Definition encode_char (c : N) : bytes :=
  if c <? 128 then [c]
  else if c <? 2048 then [192 + c / 64; 128 + c mod 64]
  else if c <? 65536 then [224 + c / 4096; 128 + c / 64 mod 64; 128 + c mod 64]
  else [240 + c / 262144; 128 + c / 4096 mod 64; 128 + c / 64 mod 64; 128 + c mod 64].
Definition encode (t : text) : bytes := t ≫= encode_char.

(** A [char]: a scalar value. *)
Definition is_scalar (c : N) : bool := (c <? 55296) || between 57344 1114111 c.

(** [char::is_whitespace], the Unicode [White_Space] property. *)
Definition is_whitespace (c : N) : bool :=
  between 9 13 c || (c =? 32) || (c =? 133) || (c =? 160) || (c =? 5760)
  || between 8192 8202 c || (c =? 8232) || (c =? 8233) || (c =? 8239) || (c =? 8287)
  || (c =? 12288).

Fixpoint trim_start (t : text) : text :=
  match t with
  | c :: r => if is_whitespace c then trim_start r else t
  | [] => []
  end.
Definition trim_end (t : text) : text := reverse (trim_start (reverse t)).
Definition trim (t : text) : text := trim_end (trim_start t).

(** A Rocq string literal as bytes. *)
Fixpoint lit (s : string) : bytes :=
  match s with
  | EmptyString => []
  | String a s => Ascii.N_of_ascii a :: lit s
  end.

Definition of_bytes (l : bytes) : string := foldr (fun b s => String (Ascii.ascii_of_N b) s) "" l.

(** The slice operations of [[T]] and [str] used across the gateway. *)
Fixpoint position {A} (p : A -> bool) (l : list A) : option nat :=
  match l with
  | [] => None
  | x :: l => if p x then Some 0%nat else S <$> position p l
  end.

Fixpoint starts_with (p l : bytes) : bool :=
  match p, l with
  | [], _ => true
  | a :: p, b :: l => (a =? b) && starts_with p l
  | _ :: _, [] => false
  end.
Definition ends_with (p l : bytes) : bool := starts_with (reverse p) (reverse l).

Definition strip_prefix (p l : bytes) : option bytes :=
  if starts_with p l then Some (drop (length p) l) else None.
Definition strip_suffix (p l : bytes) : option bytes :=
  if ends_with p l then Some (take (length l - length p) l) else None.

(** [str::find]: the leftmost occurrence. *)
Fixpoint find_sub (p l : bytes) : option nat :=
  if starts_with p l then Some 0%nat
  else match l with
       | [] => None
       | _ :: l => S <$> find_sub p l
       end.

Definition nonempty_bytes (p : bytes) : bool := match p with [] => false | _ => true end.

(** [slice.contains(&x)] *)
Definition contains_byte (b : N) (l : bytes) : bool := existsb (N.eqb b) l.

(** ** Lemmas *)

Lemma starts_with_spec p l : starts_with p l = true <-> exists r, l = p ++ r.
Proof.
  revert l. induction p as [|a p IH]; intros [|b l]; simpl.
  - split; [by exists []|done].
  - split; [by exists (b :: l)|done].
  - split; [done|by intros [? ?]].
  - rewrite andb_true_iff, N.eqb_eq, IH. split; [intros [-> [r ->]]; by exists r|intros [r [= -> ->]]; eauto].
Qed.

Lemma strip_prefix_Some p l r : strip_prefix p l = Some r <-> l = p ++ r.
Proof.
  unfold strip_prefix. destruct (starts_with p l) eqn:E.
  - apply starts_with_spec in E as [r' ->]. rewrite drop_app_length.
    split; [by intros [= ->]|by intros ->%app_inv_head].
  - split; [done|]. intros ->. by rewrite (proj2 (starts_with_spec p (p ++ r)) (ex_intro _ r eq_refl)) in E.
Qed.

Lemma ends_with_spec p l : ends_with p l = true <-> exists r, l = r ++ p.
Proof.
  unfold ends_with. rewrite starts_with_spec. split; intros [r Hr].
  - exists (reverse r). rewrite <- (reverse_involutive l), Hr, reverse_app. by rewrite reverse_involutive.
  - exists (reverse r). by rewrite Hr, reverse_app.
Qed.

Lemma strip_suffix_Some p l r : strip_suffix p l = Some r <-> l = r ++ p.
Proof.
  unfold strip_suffix. destruct (ends_with p l) eqn:E.
  - apply ends_with_spec in E as [r' ->]. rewrite length_app.
    replace (length r' + length p - length p)%nat with (length r') by lia. rewrite take_app_length.
    split; [by intros [= ->]|by intros ->%app_inv_tail].
  - split; [done|]. intros ->. by rewrite (proj2 (ends_with_spec p (r ++ p)) (ex_intro _ r eq_refl)) in E.
Qed.

(** [find_sub] answers the leftmost occurrence, and one whenever there is one. *)
Lemma find_sub_Some p l n : find_sub p l = Some n -> exists r, l = take n l ++ p ++ r.
Proof.
  revert n. induction l as [|b l IH]; intros n; simpl; destruct (starts_with p _) eqn:E.
  - intros [= <-]. apply starts_with_spec in E as [r Hr]. by exists r.
  - done.
  - intros [= <-]. apply starts_with_spec in E as [r Hr]. by exists r.
  - intros (m & Hm & ->)%fmap_Some. destruct (IH m Hm) as [r Hr]. exists r. simpl. by rewrite <- Hr.
Qed.

Lemma find_sub_leftmost p a r : exists n, find_sub p (a ++ p ++ r) = Some n /\ (n <= length a)%nat.
Proof.
  induction a as [|b a [n [IH Hn]]]; simpl.
  - exists 0%nat. split; [|lia].
    destruct (p ++ r) eqn:E; simpl; rewrite (proj2 (starts_with_spec p _)); eauto.
  - destruct (starts_with p _); [exists 0%nat; split; [done|lia]|].
    exists (S n). rewrite IH. split; [done|lia].
Qed.

Lemma position_Some {A} (p : A -> bool) l n :
  position p l = Some n ->
  (exists x, l !! n = Some x /\ p x = true) /\ forall x, x ∈ take n l -> p x = false.
Proof.
  revert n. induction l as [|y l IH]; intros n; simpl; [done|]. destruct (p y) eqn:E.
  - intros [= <-]. split; [eauto|set_solver].
  - intros (m & Hm & ->)%fmap_Some. destruct (IH m Hm) as [Hx Ht]. split; [done|].
    intros x [->|Hx']%elem_of_cons; [done|by apply Ht].
Qed.

Lemma position_None {A} (p : A -> bool) l : position p l = None -> forall x, x ∈ l -> p x = false.
Proof.
  induction l as [|y l IH]; simpl; [set_solver|]. destruct (p y) eqn:E; [done|].
  intros H%fmap_None x [->|Hx]%elem_of_cons; eauto.
Qed.

Lemma decode_app skip a b :
  (length a <= skip)%nat -> decode skip (a ++ b) = decode (skip - length a) b.
Proof.
  revert skip. induction a as [|x a IH]; intros skip Hl; simpl in *; [by rewrite Nat.sub_0_r|].
  destruct skip as [|k]; [lia|]. rewrite IH by lia. f_equal.
Qed.

#[local] Ltac Zify.zify_post_hook ::= Z.to_euclidean_division_equations.

(** Decides the conditionals of [decode_step] on bytes given by arithmetic. *)
Local Ltac decide_ranges :=
  repeat (match goal with
  | |- context [if ?b then _ else _] =>
      first [replace b with true by (unfold is_cont, between; lia)
            |replace b with false by (unfold is_cont, between; lia)]
  end; cbn iota).

Lemma cont_bits x : (128 + x mod 64) mod 64 = x mod 64.
Proof. lia. Qed.
Lemma lead3_bits x : x < 16 -> (224 + x) mod 16 = x.
Proof. lia. Qed.
Lemma lead4_bits x : x < 8 -> (240 + x) mod 8 = x.
Proof. lia. Qed.

Lemma cont_bits' x : x < 64 -> (128 + x) mod 64 = x.
Proof. lia. Qed.

Lemma decode_step_2 q x r :
  2 <= q -> q < 32 -> x < 64 ->
  decode_step (192 + q) (128 + x :: r) = (Some (q * 64 + x), 2%nat).
Proof. intros. unfold decode_step, get_byte; cbn [nth]. decide_ranges. do 2 f_equal. lia. Qed.

Lemma decode_step_3 q x y r :
  q < 16 -> x < 64 -> y < 64 -> (q = 0 -> 32 <= x) -> (q = 13 -> x < 32) ->
  decode_step (224 + q) (128 + x :: 128 + y :: r) = (Some (q * 4096 + x * 64 + y), 3%nat).
Proof.
  intros. unfold decode_step, get_byte; cbn [nth].
  rewrite !cont_bits', lead3_bits by done. unfold second_of_3.
  destruct (decide (q = 0)); [|destruct (decide (q = 13))]; by decide_ranges.
Qed.

Lemma decode_step_4 q x y z r :
  q < 5 -> x < 64 -> y < 64 -> z < 64 -> (q = 0 -> 16 <= x) -> (q = 4 -> x < 16) ->
  decode_step (240 + q) (128 + x :: 128 + y :: 128 + z :: r)
  = (Some (q * 262144 + x * 4096 + y * 64 + z), 4%nat).
Proof.
  intros. unfold decode_step, get_byte; cbn [nth].
  rewrite !cont_bits', lead4_bits by lia. unfold second_of_4.
  destruct (decide (q = 0)); [|destruct (decide (q = 4))]; by decide_ranges.
Qed.

(** A character survives encoding: the decoder inverts UTF-8. *)
Lemma decode_encode_char c r :
  is_scalar c = true -> decode 0 (encode_char c ++ r) = Some c :: decode 0 r.
Proof.
  unfold is_scalar, between, encode_char. intros Hc.
  replace (c / 262144) with (c / 64 / 64 / 64) by (by rewrite !N.Div0.div_div).
  replace (c / 4096) with (c / 64 / 64) by (by rewrite N.Div0.div_div).
  pose proof (N.Div0.div_mod c 64) as D1. pose proof (N.Div0.div_mod (c / 64) 64) as D2.
  pose proof (N.Div0.div_mod (c / 64 / 64) 64) as D3.
  pose proof (N.mod_lt c 64 ltac:(done)) as L1.
  pose proof (N.mod_lt (c / 64) 64 ltac:(done)) as L2.
  pose proof (N.mod_lt (c / 64 / 64) 64 ltac:(done)) as L3.
  destruct (c <? 128) eqn:E1; [|destruct (c <? 2048) eqn:E2; [|destruct (c <? 65536) eqn:E3]];
    nbool; cbn [app decode].
  - unfold decode_step. by rewrite (proj2 (N.ltb_lt c 128) E1).
  - rewrite decode_step_2 by lia. cbn [Nat.pred decode]. do 2 f_equal. lia.
  - revert D1 D2 L1 L2. generalize (c mod 64) as z, (c / 64 mod 64) as y, (c / 64) as q.
    intros z y q. generalize (q / 64) as q'. intros q' D1 D2 L1 L2.
    rewrite decode_step_3 by lia. cbn [Nat.pred decode]. do 2 f_equal. lia.
  - revert D1 D2 D3 L1 L2 L3.
    generalize (c mod 64) as z, (c / 64 mod 64) as y, (c / 64 / 64 mod 64) as x, (c / 64) as q.
    intros z y x q. generalize (q / 64) as q'. intros q'. generalize (q' / 64) as q''.
    intros q'' D1 D2 D3 L1 L2 L3.
    rewrite decode_step_4 by lia. cbn [Nat.pred decode]. do 2 f_equal. lia.
Qed.

Lemma decode_encode t :
  Forall (fun c => is_scalar c = true) t -> decode 0 (encode t) = Some <$> t.
Proof.
  unfold encode. induction 1 as [|c t Hc _ IH]; [done|].
  by rewrite bind_cons, decode_encode_char, IH by done.
Qed.

Lemma from_utf8_encode t :
  Forall (fun c => is_scalar c = true) t -> from_utf8 (encode t) = Some t.
Proof.
  intros H. unfold from_utf8. rewrite decode_encode by done. by apply mapM_fmap_Some.
Qed.

Lemma from_utf8_lossy_encode t :
  Forall (fun c => is_scalar c = true) t -> from_utf8_lossy (encode t) = t.
Proof.
  intros H. unfold from_utf8_lossy. rewrite decode_encode by done.
  rewrite <- list_fmap_compose. apply list_fmap_id.
Qed.

Lemma of_bytes_lit s : of_bytes (lit s) = s.
Proof. induction s as [|a s IH]; simpl; [done|]. by rewrite Ascii.ascii_N_embedding, IH. Qed.

#[export] Instance lit_inj : Inj (=) (=) lit.
Proof. intros s t E. by rewrite <- (of_bytes_lit s), E, of_bytes_lit. Qed.
