(* ===== verification/Json.v ===== *)
(** * JSON values

    What the gateway reads of [serde_json::Value].  An object is the list of its
    members in the order its map iterates them; a number keeps its spelling. *)

From S2P Require Import Prelude Sort Utf8.
Local Open Scope N_scope.

Inductive json :=
  | JNull
  | JBool (b : bool)
  | JNumber (spelling : string)
  | JString (s : string)
  | JArray (items : list json)
  | JObject (members : list (string * json)).

Definition key_leb {A} (a b : string * A) : bool := string_leb a.1 b.1.

(** The map type of the workspace is ordered by key. *)
Definition json_object (members : list (string * json)) : json := JObject (stable_sort key_leb members).

Definition json_get (key : string) (v : json) : option json :=
  match v with
  | JObject members => snd <$> find (fun m => bool_decide (m.1 = key)) members
  | _ => None
  end.
Definition as_str (v : json) : option string := match v with JString s => Some s | _ => None end.
Definition str_field (key : string) (v : json) : option string := json_get key v ≫= as_str.
Definition of_string_option (s : option string) : json := from_option JString JNull s.

Definition as_array (v : json) : option (list json) := match v with JArray l => Some l | _ => None end.
Definition array_field (key : string) (v : json) : option (list json) := json_get key v ≫= as_array.

(** [Value::as_u64]: an integer that fits, which is spelled with digits only. *)
Definition u64_digit (acc : option N) (d : N) : option N :=
  v ← acc;
  if between 48 57 d then let v := v * 10 + (d - 48) in if v <=? u64_max then Some v else None else None.
Definition as_u64 (v : json) : option N :=
  match v with
  | JNumber (String _ _ as s) => foldl u64_digit (Some 0) (lit s)
  | _ => None
  end.
Definition u64_field (key : string) (v : json) : option N := json_get key v ≫= as_u64.
