(* ===== verification/Text.v ===== *)
(** * Text utilities

    [crates/aisix-core/src/wildcard.rs] (the [*] globs of every access list and
    of wildcard model names) and [crates/aisix-guardrails/src/chunk.rs] (the
    lossless split of over-limit guardrail text). *)

From S2P Require Import Prelude Utf8.
Local Open Scope N_scope.

(** ** Wildcards *)

Definition STAR : N := 42.

(** [str::split_once('*')] and [str::rsplit_once('*')] *)
Fixpoint split_once (l : bytes) : option (bytes * bytes) :=
  match l with
  | [] => None
  | b :: l => if b =? STAR then Some ([], l)
              else '(h, t) ← split_once l; Some (b :: h, t)
  end.

Fixpoint rsplit_once (l : bytes) : option (bytes * bytes) :=
  match l with
  | [] => None
  | b :: l =>
      match rsplit_once l with
      | Some (h, t) => Some (b :: h, t)
      | None => if b =? STAR then Some ([], l) else None
      end
  end.

(** [str::split('*')]: always at least one part. *)
Fixpoint split_star (l : bytes) : list bytes :=
  match l with
  | [] => [[]]
  | b :: l =>
      if b =? STAR then [] :: split_star l
      else match split_star l with
           | p :: ps => (b :: p) :: ps
           | [] => [[b]]
           end
  end.

Definition wildcard_capture (pattern candidate : bytes) : option bytes :=
  star ← position (N.eqb STAR) pattern;
  if contains_byte STAR (drop (star + 1) pattern) then None
  else
    let prefix := take star pattern in
    let suffix := drop (star + 1) pattern in
    if (length candidate <? length prefix + length suffix)%nat then None
    else if starts_with prefix candidate && ends_with suffix candidate then
      Some (take (length candidate - length suffix - length prefix)
              (drop (length prefix) candidate))
    else None.

(** The loop over the inner literals. *)
Fixpoint match_parts (parts : list bytes) (rest : bytes) : bool :=
  match parts with
  | [] => true
  | part :: parts =>
      match find_sub part rest with
      | Some at_ => match_parts parts (drop (at_ + length part) rest)
      | None => false
      end
  end.

Definition wildcard_matches (pattern candidate : bytes) : bool :=
  match split_once pattern with
  | None => bool_decide (pattern = candidate)
  | Some (head, tail) =>
      let '(middle, last) := default ([], tail) (rsplit_once tail) in
      match strip_prefix head candidate with
      | None => false
      | Some rest =>
          match strip_suffix last rest with
          | None => false
          | Some rest => match_parts (List.filter nonempty_bytes (split_star middle)) rest
          end
      end
  end.

(** What a pattern means: a star stands for any run of bytes. *)
Inductive glob : bytes -> bytes -> Prop :=
  | glob_nil : glob [] []
  | glob_lit b p c : b <> STAR -> glob p c -> glob (b :: p) (b :: c)
  | glob_star x p c : glob p c -> glob (STAR :: p) (x ++ c).

(** ** Chunking *)

(** The last index of [w] whose character is white space. *)
Definition rposition (p : N -> bool) (w : text) : option nat :=
  (fun i => (length w - 1 - i)%nat) <$> position p (reverse w).

(** The loop from [start], on what is left of the text. *)
Fixpoint chunk_loop (fuel : nat) (chars : text) (max_chars start : nat) : list text :=
  match fuel with
  | O => []
  | S fuel =>
      if (start <? length chars)%nat then
        let hard_end := Nat.min (start + max_chars) (length chars) in
        let end_ :=
          if (hard_end =? length chars)%nat then hard_end
          else match rposition is_whitespace (take (hard_end - start) (drop start chars)) with
               | Some i => (start + i + 1)%nat
               | None => hard_end
               end in
        take (end_ - start) (drop start chars) :: chunk_loop fuel chars max_chars end_
      else []
  end.

(** Release builds drop the [debug_assert!].  Each iteration of the loop takes
    at least one character. *)
Definition chunk_text (text : text) (max_chars : nat) : list Utf8.text :=
  if match text with [] => true | _ => false end || (max_chars =? 0)%nat then []
  else if (length text <=? max_chars)%nat then [text]
  else chunk_loop (S (length text)) text max_chars 0.

(** ** Wildcards: proofs *)

Lemma split_once_None l : split_once l = None <-> STAR ∉ l.
Proof.
  induction l as [|b l IH]; simpl; [set_solver|]. destruct (b =? STAR) eqn:E; nbool; subst.
  - set_solver.
  - destruct (split_once l) as [[]|]; simpl; set_solver.
Qed.

Lemma split_once_Some l h t : split_once l = Some (h, t) <-> l = h ++ STAR :: t /\ STAR ∉ h.
Proof.
  revert h. induction l as [|b l IH]; intros h; simpl.
  - split; [done|]. intros [H _]. by destruct h.
  - destruct (b =? STAR) eqn:E; nbool; subst.
    + split; [by intros [= <- <-]; split; [|set_solver]|].
      intros [H1 H2]. destruct h as [|x h]; simplify_eq/=; [done|set_solver].
    + split.
      * intros H. destruct (split_once l) as [[h' t']|]; simplify_eq/=.
        destruct (proj1 (IH h') eq_refl) as [-> ?]. split; [done|set_solver].
      * intros [H1 H2]. destruct h as [|x h]; simplify_eq/=.
        rewrite (proj2 (IH h)); [done|]. split; [done|set_solver].
Qed.

Lemma rsplit_once_None l : rsplit_once l = None <-> STAR ∉ l.
Proof.
  induction l as [|b l IH]; simpl; [set_solver|].
  destruct (rsplit_once l) as [[]|]; [set_solver|].
  destruct (b =? STAR) eqn:E; nbool; subst; set_solver.
Qed.

Lemma rsplit_once_Some l h t :
  rsplit_once l = Some (h, t) -> l = h ++ STAR :: t /\ STAR ∉ t.
Proof.
  revert h. induction l as [|b l IH]; intros h; simpl; [done|].
  destruct (rsplit_once l) as [[h' t']|] eqn:E.
  - intros [= <- <-]. destruct (IH h' eq_refl) as [-> ?]. done.
  - destruct (b =? STAR) eqn:Eb; [|done]. nbool. intros [= <- <-]. subst.
    split; [done|by apply rsplit_once_None].
Qed.

Lemma glob_literal h c : STAR ∉ h -> glob h c <-> c = h.
Proof.
  intros Hh. split.
  - revert c. induction h as [|b h IH]; intros c Hg; inversion Hg; subst; [done| |set_solver].
    f_equal. apply IH; [set_solver|done].
  - intros ->. induction h; constructor; set_solver.
Qed.

Lemma glob_app p q c : glob (p ++ q) c <-> exists c1 c2, c = c1 ++ c2 /\ glob p c1 /\ glob q c2.
Proof.
  split.
  - revert c. induction p as [|b p IH]; intros c Hg; simpl in *.
    + exists [], c. by repeat constructor.
    + inversion Hg as [|? ? c' ? Hg'|x ? c' Hg']; subst; destruct (IH c' Hg') as (c1 & c2 & -> & ? & ?).
      * exists (b :: c1), c2. by repeat constructor.
      * exists (x ++ c1), c2. rewrite app_assoc. by repeat constructor.
  - intros (c1 & c2 & -> & H1 & H2). induction H1; simpl; rewrite <- ?app_assoc; by try constructor.
Qed.

Lemma glob_star_inv p c : glob (STAR :: p) c <-> exists x c', c = x ++ c' /\ glob p c'.
Proof. split; [by inversion 1; subst; eauto|intros (x & c' & -> & ?); by constructor]. Qed.

(** The parts occur in order, without overlap. *)
Fixpoint in_order (parts : list bytes) (rest : bytes) : Prop :=
  match parts with
  | [] => True
  | p :: parts => exists a r, rest = a ++ p ++ r /\ in_order parts r
  end.

Lemma in_order_widen parts a r : in_order parts r -> in_order parts (a ++ r).
Proof.
  destruct parts as [|p parts]; [done|]. intros (b & r' & -> & H). exists (a ++ b), r'.
  by rewrite <- app_assoc.
Qed.

Lemma in_order_nonempty parts rest :
  in_order (List.filter nonempty_bytes parts) rest <-> in_order parts rest.
Proof.
  revert rest. induction parts as [|[|b p] parts IH]; intros rest; simpl; [done| |].
  - rewrite IH. split; [by exists [], rest|intros (a & r & -> & H); by apply in_order_widen].
  - split; intros (a & r & -> & H); exists a, r; (split; [done|by apply IH]).
Qed.

(** Taking each part at its leftmost occurrence loses no match. *)
Lemma match_parts_in_order parts rest : match_parts parts rest = true <-> in_order parts rest.
Proof.
  revert rest. induction parts as [|p parts IH]; intros rest; simpl; [done|]. split.
  - destruct (find_sub p rest) as [n|] eqn:E; [|done].
    intros H. apply IH in H. destruct (find_sub_Some _ _ _ E) as [r Hr].
    exists (take n rest), (drop (n + length p) rest). split; [|done].
    assert (drop n rest = p ++ r) as Hd.
    { apply (app_inv_head (take n rest)). by rewrite take_drop. }
    rewrite <- drop_drop, Hd, drop_app_length. exact Hr.
  - intros (a & r & -> & H). destruct (find_sub_leftmost p a r) as (n & -> & Hn).
    apply IH. assert (drop (n + length p) (a ++ p ++ r) = drop (n + length p) (a ++ p) ++ r) as ->.
    { rewrite app_assoc. apply drop_app_le. rewrite length_app. lia. }
    by apply in_order_widen.
Qed.

Lemma split_star_cons l : exists p ps, split_star l = p :: ps.
Proof. induction l as [|b l (p & ps & E)]; simpl; [eauto|]. case_match; [eauto|]. rewrite E. eauto. Qed.

Lemma split_star_glob middle rest :
  (exists m y, rest = m ++ y /\ glob middle m) <->
  match split_star middle with
  | [] => False
  | p :: ps => exists r, rest = p ++ r /\ in_order ps r
  end.
Proof.
  revert rest. induction middle as [|b middle IH]; intros rest; simpl.
  - split; [by exists rest|]. intros _. exists [], rest. by repeat constructor.
  - destruct (b =? STAR) eqn:E; nbool; subst.
    + split.
      * intros (m & y & -> & Hg). apply glob_star_inv in Hg as (x & c' & -> & Hg).
        exists ((x ++ c') ++ y). split; [done|]. rewrite <- app_assoc. apply in_order_widen.
        pose proof (proj1 (IH (c' ++ y)) (ex_intro _ c' (ex_intro _ y (conj eq_refl Hg)))) as H.
        destruct (split_star middle) as [|p ps]; [done|]. destruct H as (r & -> & H).
        by exists [], r.
      * intros (r & -> & H). simpl. destruct (split_star_cons middle) as (p & ps & Es). rewrite Es in *.
        destruct H as (a & r' & -> & H).
        destruct (proj2 (IH (p ++ r'))) as (m & y & Hm & Hg); [by exists r'|].
        exists (a ++ m), y. rewrite Hm, app_assoc. split; [done|]. apply glob_star_inv. eauto.
    + split.
      * intros (m & y & -> & Hg). inversion Hg as [|? ? c' ? Hg'|]; subst; [|done].
        pose proof (proj1 (IH (c' ++ y)) (ex_intro _ c' (ex_intro _ y (conj eq_refl Hg')))) as Hi.
        destruct (split_star middle) as [|p ps]; [done|]. destruct Hi as (r & Hr & Ho).
        exists r. simpl. by rewrite Hr.
      * destruct (split_star_cons middle) as (p & ps & Es). rewrite Es in *.
        intros (r & -> & Ho). destruct (proj2 (IH (p ++ r))) as (m & y & Hm & Hg); [by exists r|].
        exists (b :: m), y. simpl. rewrite Hm. split; [done|]. by constructor.
Qed.

Lemma position_star h t : STAR ∉ h -> position (N.eqb STAR) (h ++ STAR :: t) = Some (length h).
Proof.
  induction h as [|b h IH]; intros Hh; [done|]. cbn [app position length].
  rewrite (proj2 (N.eqb_neq STAR b)) by set_solver. by rewrite IH by set_solver.
Qed.

Lemma drop_star h t : drop (length h + 1) (h ++ STAR :: t) = t.
Proof. rewrite <- drop_drop, drop_app_length. done. Qed.

Lemma in_order_split middle rest :
  in_order (split_star middle) rest <-> exists x m y, rest = x ++ m ++ y /\ glob middle m.
Proof.
  pose proof (split_star_glob middle) as Hg. destruct (split_star_cons middle) as (p & ps & Es).
  rewrite Es in *. simpl. split.
  - intros (a & r & -> & Ho). destruct (proj2 (Hg (p ++ r))) as (m & y & -> & Hm); [by exists r|]. eauto.
  - intros (x & m & y & -> & Hm). destruct (proj1 (Hg (m ++ y))) as (r & -> & Ho); eauto.
Qed.

Lemma wildcard_matches_iff pattern candidate :
  wildcard_matches pattern candidate = true <-> glob pattern candidate.
Proof.
  unfold wildcard_matches. destruct (split_once pattern) as [[head tail]|] eqn:Ep.
  2: { apply split_once_None in Ep. rewrite glob_literal, bool_decide_eq_true by done. naive_solver. }
  apply split_once_Some in Ep as [-> Hh].
  assert (glob (head ++ STAR :: tail) candidate <->
    exists rest, candidate = head ++ rest /\ glob (STAR :: tail) rest) as ->.
  { rewrite glob_app. split; [intros (? & rest & -> & ->%glob_literal & ?); [eauto|done]|].
    intros (rest & -> & ?). exists head, rest. by rewrite glob_literal. }
  destruct (strip_prefix head candidate) as [rest|] eqn:Eh.
  2: { destruct (default _ _). split; [done|]. intros (rest & H%strip_prefix_Some & _). congruence. }
  apply strip_prefix_Some in Eh as ->.
  trans (glob (STAR :: tail) rest).
  2: { split; [by eauto|]. by intros (? & <-%app_inv_head & ?). }
  destruct (rsplit_once tail) as [[middle last]|] eqn:Et; simpl.
  - apply rsplit_once_Some in Et as [-> Hl].
    trans (exists r, rest = r ++ last /\ in_order (split_star middle) r).
    + destruct (strip_suffix last rest) as [r|] eqn:Es.
      * rewrite match_parts_in_order, in_order_nonempty. apply strip_suffix_Some in Es as ->.
        split; [eauto|]. by intros (? & <-%app_inv_tail & ?).
      * split; [done|]. intros (r & H%strip_suffix_Some & _). congruence.
    + rewrite glob_star_inv. setoid_rewrite in_order_split. setoid_rewrite glob_app.
      setoid_rewrite glob_star_inv. split.
      * intros (r & -> & x & m & y & -> & Hm). exists x, (m ++ y ++ last).
        rewrite <- !app_assoc. split; [done|]. exists m, (y ++ last). repeat split; [done|].
        exists y, last. by rewrite glob_literal.
      * intros (x & ? & -> & m & ? & -> & Hm & y & l & -> & Hgl).
        apply glob_literal in Hgl as ->; [|done]. exists (x ++ m ++ y).
        rewrite <- !app_assoc. split; [done|]. eauto.
  - apply rsplit_once_None in Et. rewrite glob_star_inv.
    destruct (strip_suffix tail rest) as [r|] eqn:Es.
    + apply strip_suffix_Some in Es as ->. split; [|done]. intros _. exists r, tail. by rewrite glob_literal.
    + split; [done|]. intros (x & c & H & ->%glob_literal); [|done].
      apply strip_suffix_Some in H. congruence.
Qed.

(** [wildcard_matches] decides exactly the glob language: a star stands for
    any run of bytes, any number of stars is honoured, and everything else is
    literal and anchored at both ends.  The leftmost search for each inner
    literal misses no match. *)
Theorem wildcard_matches_glob pattern candidate :
  wildcard_matches pattern candidate = true <-> glob pattern candidate.
Proof. apply wildcard_matches_iff. Qed.

Lemma glob_one_star prefix suffix c :
  STAR ∉ prefix -> STAR ∉ suffix ->
  glob (prefix ++ STAR :: suffix) c <-> exists x, c = prefix ++ x ++ suffix.
Proof.
  intros Hp Hs. rewrite glob_app. setoid_rewrite glob_star_inv. split.
  - intros (? & ? & -> & ->%glob_literal & x & ? & -> & ->%glob_literal); eauto.
  - intros (x & ->). exists prefix, (x ++ suffix). rewrite glob_literal by done.
    split; [done|]. split; [done|]. exists x, suffix. by rewrite glob_literal.
Qed.

Lemma glob_refl p : glob p p.
Proof.
  induction p as [|b p IH]; [constructor|]. destruct (decide (b = STAR)) as [-> |Hb].
  - by apply (glob_star [STAR]).
  - by constructor.
Qed.

(** The two matchers agree: on a pattern with exactly one star,
    [wildcard_capture] succeeds exactly when [wildcard_matches] holds, and the
    text it captures is what the star stood for; on a pattern with no star or
    with several it captures nothing. *)
Theorem wildcard_capture_spec pattern candidate :
  match split_once pattern with
  | Some (prefix, suffix) =>
      if decide (STAR ∈ suffix) then wildcard_capture pattern candidate = None
      else match wildcard_capture pattern candidate with
           | Some x => candidate = prefix ++ x ++ suffix /\ wildcard_matches pattern candidate = true
           | None => wildcard_matches pattern candidate = false
           end
  | None => wildcard_capture pattern candidate = None
  end.
Proof.
  unfold wildcard_capture. destruct (split_once pattern) as [[prefix suffix]|] eqn:Ep.
  2: { apply split_once_None in Ep. destruct (position _ _) eqn:E; [|done].
       destruct (position_Some _ _ _ E) as [(x & Hx & He) _]. apply N.eqb_eq in He as <-.
       by apply list_elem_of_lookup_2 in Hx. }
  apply split_once_Some in Ep as [-> Hp]. rewrite position_star by done. simpl.
  rewrite drop_star, take_app_length.
  assert (contains_byte STAR suffix = bool_decide (STAR ∈ suffix)) as ->.
  { apply eq_true_iff_eq. unfold contains_byte. rewrite existsb_exists, bool_decide_eq_true.
    setoid_rewrite N.eqb_eq. setoid_rewrite <- list_elem_of_In. naive_solver. }
  case_decide as Hs; [by rewrite bool_decide_true|rewrite bool_decide_false by done].
  assert (wildcard_matches (prefix ++ STAR :: suffix) candidate = true <->
    exists x, candidate = prefix ++ x ++ suffix) as Hm
    by (by rewrite wildcard_matches_iff, glob_one_star).
  assert (forall x, candidate = prefix ++ x ++ suffix ->
    (length candidate <? length prefix + length suffix)%nat = false /\
    starts_with prefix candidate && ends_with suffix candidate = true /\
    take (length candidate - length suffix - length prefix)
      (drop (length prefix) candidate) = x) as Hx.
  { intros x ->. rewrite !length_app. split; [apply Nat.ltb_ge; lia|]. split.
    - rewrite andb_true_iff, starts_with_spec, ends_with_spec. split; [eauto|].
      exists (prefix ++ x). by rewrite <- app_assoc.
    - rewrite drop_app_length.
      replace (_ - _ - _)%nat with (length x) by lia. apply take_app_length. }
  destruct (wildcard_matches _ candidate) eqn:Em.
  - destruct (proj1 Hm eq_refl) as (x & Hc). destruct (Hx x Hc) as (-> & -> & ->). done.
  - destruct (length candidate <? _)%nat eqn:El; [done|].
    destruct (_ && _) eqn:Ea; [|done]. exfalso.
    apply andb_true_iff in Ea as [(r & Hr)%starts_with_spec (r' & Hr')%ends_with_spec].
    apply Nat.ltb_ge in El.
    assert (exists x, candidate = prefix ++ x ++ suffix) as Hc.
    { rewrite Hr in El, Hr'. rewrite length_app in El. subst candidate.
      destruct (app_eq_inv _ _ _ _ Hr') as [(k & -> & ->)|(k & -> & ->)]; [|by exists k].
      rewrite !length_app in El. destruct k; simpl in El; [|lia]. exists []. by rewrite !app_nil_r. }
    by apply Hm in Hc.
Qed.

(** ** Chunking: proofs *)

Lemma rposition_Some p w i :
  rposition p w = Some i ->
  (i < length w)%nat /\ (exists x, w !! i = Some x /\ p x = true)
  /\ forall x, x ∈ drop (S i) w -> p x = false.
Proof.
  unfold rposition. intros (j & Hj & ->)%fmap_Some.
  destruct (position_Some _ _ _ Hj) as [(x & Hx & Hp) Hlast].
  pose proof (lookup_lt_Some _ _ _ Hx) as Hl. rewrite length_reverse in Hl.
  rewrite reverse_lookup in Hx by done. split; [lia|]. split.
  - exists x. split; [|done]. rewrite <- Hx. f_equal. lia.
  - intros y Hy. apply Hlast. rewrite take_reverse, elem_of_reverse.
    by replace (length w - j)%nat with (S (length w - 1 - j)) by lia.
Qed.

(** A good place to end a chunk other than the last: after white space, or at
    the limit when the whole window is one word. *)
Definition good_break (max_chars : nat) (c : text) : Prop :=
  (exists w x, c = w ++ [x] /\ is_whitespace x = true)
  \/ (length c = max_chars /\ forall x, x ∈ c -> is_whitespace x = false).

(** Every chunk is non-empty and within the limit, and all but the last end at
    a good break. *)
Fixpoint good_chunks (max_chars : nat) (cs : list text) : Prop :=
  match cs with
  | [] => True
  | c :: cs => (1 <= length c <= max_chars)%nat /\ (cs <> [] -> good_break max_chars c)
               /\ good_chunks max_chars cs
  end.

Lemma rposition_None p w : rposition p w = None -> forall x, x ∈ w -> p x = false.
Proof.
  unfold rposition. intros H%fmap_None x Hx. eapply position_None; [done|]. by apply elem_of_reverse.
Qed.

(** The end chosen for the chunk that starts at [start]. *)
Lemma chunk_end_spec chars max start :
  (0 < max)%nat -> (start < length chars)%nat ->
  let hard_end := Nat.min (start + max) (length chars) in
  let end_ :=
    if (hard_end =? length chars)%nat then hard_end
    else match rposition is_whitespace (take (hard_end - start) (drop start chars)) with
         | Some i => (start + i + 1)%nat
         | None => hard_end
         end in
  (start < end_ <= hard_end)%nat /\
  (end_ <> length chars -> good_break max (take (end_ - start) (drop start chars))).
Proof.
  intros Hm Hs hard_end end_. subst end_.
  assert (start < hard_end <= length chars)%nat as Hh by lia.
  destruct (hard_end =? length chars)%nat eqn:Ee.
  { apply Nat.eqb_eq in Ee. split; [lia|congruence]. }
  apply Nat.eqb_neq in Ee. set (w := take (hard_end - start) (drop start chars)).
  assert (length w = max) as Hw by (unfold w; rewrite length_take, length_drop; lia).
  destruct (rposition is_whitespace w) as [i|] eqn:Ei.
  - destruct (rposition_Some _ _ _ Ei) as (Hi & (x & Hx & Hp) & _). split; [lia|].
    intros _. left. replace (start + i + 1 - start)%nat with (S i) by lia.
    exists (take i (drop start chars)), x. split; [|done]. apply take_S_r.
    unfold w in Hx. rewrite lookup_take in Hx. by case_decide.
  - split; [lia|]. intros _. right. split; [done|]. by apply rposition_None.
Qed.

Lemma chunk_loop_spec fuel chars max start :
  (0 < max)%nat -> (length chars < fuel + start)%nat -> (start <= length chars)%nat ->
  concat (chunk_loop fuel chars max start) = drop start chars
  /\ good_chunks max (chunk_loop fuel chars max start)
  /\ (start = length chars -> chunk_loop fuel chars max start = []).
Proof.
  revert start. induction fuel as [|fuel IH]; intros start Hm Hf Hs; [lia|].
  cbn [chunk_loop]. destruct (start <? length chars)%nat eqn:E.
  2: { apply Nat.ltb_ge in E. rewrite drop_ge by lia. done. }
  apply Nat.ltb_lt in E. destruct (chunk_end_spec chars max start Hm E) as [Hend Hbreak].
  cbv zeta in *. set (end_ := if (_ =? _)%nat then _ else _) in *.
  destruct (IH end_) as (IHc & IHg & IHe); [lia..|].
  simpl. rewrite IHc. split; [|split; [|lia]].
  - rewrite <- (take_drop (end_ - start) (drop start chars)) at 2. f_equal.
    rewrite drop_drop. f_equal. lia.
  - rewrite length_take, length_drop. split; [lia|]. split; [|done].
    intros Hne. apply Hbreak. intros He. by apply Hne, IHe.
Qed.

(** Chunking is lossless and bounded: the pieces concatenate to the text,
    each has between 1 and [max_chars] characters, and a piece other than the
    last ends after white space unless it is [max_chars] characters of a single
    word.  A limit of zero yields no pieces. *)
Theorem chunk_text_lossless t max_chars :
  (0 < max_chars)%nat ->
  concat (chunk_text t max_chars) = t /\ good_chunks max_chars (chunk_text t max_chars).
Proof.
  intros Hm. unfold chunk_text. destruct (max_chars =? 0)%nat eqn:E0;
    [apply Nat.eqb_eq in E0; lia|].
  destruct t as [|c t]; [done|]. cbn [orb].
  destruct (length (c :: t) <=? max_chars)%nat eqn:El.
  - apply Nat.leb_le in El. simpl in *. rewrite app_nil_r. repeat split; [lia|lia|done].
  - destruct (chunk_loop_spec (S (length (c :: t))) (c :: t) max_chars 0) as (Hc & Hg & _); [lia..|].
    done.
Qed.

Lemma chunk_text_lossless_witness :
  let t := lit "ab cdefgh ij" in
  chunk_text t 5 = [lit "ab "; lit "cdefg"; lit "h ij"] /\
  concat (chunk_text t 5) = t /\ good_chunks 5 (chunk_text t 5).
Proof. split; [vm_compute; reflexivity|]. apply (chunk_text_lossless (lit "ab cdefgh ij") 5). lia. Defined.
