(* ===== verification/Sse.v ===== *)
(** * Server-Sent Events framing ([crates/aisix-gateway/src/sse.rs])

    The frame scan, the incremental splitter, the field parser and the decoder
    of the provider bridges, on bytes.  Slices of a frame are index ranges where
    the source hands ranges out, and byte strings where it hands out slices. *)

From S2P Require Import Prelude Utf8.
Local Open Scope N_scope.

Definition CR : N := 13.
Definition LF : N := 10.
Definition COLON : N := 58.
Definition UTF8_BOM : bytes := [239; 187; 191].
Definition MAX_SSE_FRAME_BYTES : nat := N.to_nat (16 * 1024 * 1024).

Record SseFrameTooLarge := mkTooLarge { too_large_limit : nat }.

Definition is_eol (b : N) : bool := (b =? CR) || (b =? LF).

(** [\r\n] is one terminator of two bytes. *)
Definition eol_len (buf : bytes) (at_ : nat) : nat :=
  if bool_decide (buf !! at_ = Some CR) && bool_decide (buf !! S at_ = Some LF) then 2 else 1.

(** The [while let] loop of [scan]; every iteration passes a terminator. *)
Fixpoint scan_loop (fuel : nat) (buf : bytes) (i : nat) (at_line_start : bool)
    : option (nat * nat) :=
  match fuel with
  | O => None
  | S fuel =>
      match position is_eol (drop i buf) with
      | None => None
      | Some off =>
          let at_ := (i + off)%nat in
          let at_line_start := if (0 <? off)%nat then false else at_line_start in
          let len := eol_len buf at_ in
          if at_line_start then Some (at_, (at_ + len)%nat)
          else scan_loop fuel buf (at_ + len)%nat true
      end
  end.

Definition scan (buf : bytes) (from : nat) : option (nat * nat) :=
  let '(i, at_line_start) :=
    match from with
    | O => (from, true)
    | S p =>
        match buf !! p with
        | Some b =>
            if b =? LF then (from, true)
            else if b =? CR then
              (if bool_decide (buf !! from = Some LF) then S from else from, true)
            else (from, false)
        | None => (from, false)
        end
    end in
  scan_loop (S (length buf)) buf i at_line_start.

Definition find_frame_end (buf : bytes) : option nat := snd <$> scan buf 0.
Definition find_frame_end_from (buf : bytes) (from : nat) : option nat := snd <$> scan buf from.

Definition split_frame_end (buf : bytes) : option (nat * nat) :=
  '(blank, end_) ← scan buf 0;
  let content_end :=
    if (2 <=? blank)%nat && bool_decide (take 2 (drop (blank - 2) buf) = [CR; LF])
    then (blank - 2)%nat else (blank - 1)%nat in
  Some (content_end, end_).

(** ** The splitter *)

Record SseFrameSplitter := mkSplitter {
  buf : bytes;
  scanned : nat;
  after_cr : bool;
  max_frame_bytes : nat;
}.

Definition splitter_new (max_frame_bytes : nat) : SseFrameSplitter :=
  mkSplitter [] 0 false max_frame_bytes.

Definition push (chunk : bytes) (s : SseFrameSplitter) : SseFrameSplitter :=
  mkSplitter (buf s ++ chunk) (scanned s) (after_cr s) (max_frame_bytes s).

(** The first block of [next_frame]: a [\n] that completes the previous frame's
    [\r] is passed over. *)
Definition skip_tail_lf (s : SseFrameSplitter) : SseFrameSplitter :=
  match buf s with
  | b :: _ =>
      if after_cr s then
        mkSplitter (buf s) (if (b =? LF) && (scanned s =? 0)%nat then 1%nat else scanned s)
          false (max_frame_bytes s)
      else s
  | [] => s
  end.

Definition next_frame (s : SseFrameSplitter)
    : result (option bytes) SseFrameTooLarge * SseFrameSplitter :=
  let s := skip_tail_lf s in
  match scan (buf s) (scanned s) with
  | Some (_, end_) =>
      let frame := take end_ (buf s) in
      let rest := drop end_ (buf s) in
      (ROk (Some frame),
       mkSplitter rest 0
         (match rest with [] => bool_decide (last frame = Some CR) | _ => false end)
         (max_frame_bytes s))
  | None =>
      let s := mkSplitter (buf s) (length (buf s)) (after_cr s) (max_frame_bytes s) in
      if (max_frame_bytes s <? length (buf s))%nat
      then (RErr (mkTooLarge (max_frame_bytes s)), s)
      else (ROk None, s)
  end.

Definition take_rest (s : SseFrameSplitter) : bytes * SseFrameSplitter :=
  (buf s, mkSplitter [] 0 false (max_frame_bytes s)).

(** ** Fields *)

Record SseLine := mkLine { line_start : nat; line_end : nat; term_end : nat }.

(** The [from_fn] iterator from [pos]; every line takes at least one byte. *)
Fixpoint lines_from (fuel : nat) (frame : bytes) (pos : nat) : list SseLine :=
  match fuel with
  | O => []
  | S fuel =>
      if (length frame <=? pos)%nat then []
      else
        let start := pos in
        let '(end_, term_end) :=
          match position is_eol (drop start frame) with
          | Some off =>
              let end_ := (start + off)%nat in
              (end_, (end_ + eol_len frame end_)%nat)
          | None => (length frame, length frame)
          end in
        mkLine start end_ term_end :: lines_from fuel frame term_end
  end.

Definition lines (frame : bytes) : list SseLine :=
  lines_from (S (length frame)) frame
    (if starts_with UTF8_BOM frame then length UTF8_BOM else 0%nat).

Definition line_bytes (frame : bytes) (l : SseLine) : bytes :=
  take (line_end l - line_start l) (drop (line_start l) frame).

Definition parse_field (line : bytes) : option (bytes * bytes) :=
  match line with
  | [] => None
  | b :: _ =>
      if b =? COLON then None
      else match position (N.eqb COLON) line with
           | Some colon =>
               let value := drop (colon + 1) line in
               Some (take colon line, default value (strip_prefix (lit " ") value))
           | None => Some (line, [])
           end
  end.

Definition data_ranges (frame : bytes) : list (nat * nat) :=
  omap (fun l =>
    '(name, value) ← parse_field (line_bytes frame l);
    if bool_decide (name = lit "data") then Some ((line_end l - length value)%nat, line_end l)
    else None) (lines frame).

Record SseFields := mkFields {
  data : option bytes;
  event : option bytes;
  id_ : option bytes;
  retry : option N;
}.

Definition is_ascii_digit (b : N) : bool := between 48 57 b.

(** [str::parse::<u64>] of a non-empty run of digits: [None] on overflow. *)
Definition parse_u64 (ds : bytes) : option N :=
  foldl (fun acc d => v ← acc; let v := v * 10 + (d - 48) in
                      if v <=? u64_max then Some v else None) (Some 0) ds.

Definition parse_line (f : SseFields) (line : bytes) : SseFields :=
  match parse_field line with
  | None => f
  | Some (name, value) =>
      if bool_decide (name = lit "data") then
        mkFields (Some (match data f with
                        | None => value
                        | Some prev => prev ++ [LF] ++ value
                        end)) (event f) (id_ f) (retry f)
      else if bool_decide (name = lit "event") then
        mkFields (data f) (Some value) (id_ f) (retry f)
      else if bool_decide (name = lit "id") && negb (contains_byte 0 value) then
        mkFields (data f) (event f) (Some value) (retry f)
      else if bool_decide (name = lit "retry") && nonempty_bytes value && forallb is_ascii_digit value then
        mkFields (data f) (event f) (id_ f) (parse_u64 value)
      else f
  end.

Definition parse_frame (frame : bytes) : SseFields :=
  foldl (fun f l => parse_line f (line_bytes frame l)) (mkFields None None None None) (lines frame).

(** ** The decoder *)

Inductive SseEvent := Data (payload : text) | Done.

Record SseDecoder := mkDecoder {
  frames : SseFrameSplitter;
  overflow : option SseFrameTooLarge;
}.

Definition with_max_frame_bytes (max : nat) : SseDecoder := mkDecoder (splitter_new max) None.
Definition decoder_new : SseDecoder := with_max_frame_bytes MAX_SSE_FRAME_BYTES.

Definition decode_event (frame : bytes) : option SseEvent :=
  data ← data (parse_frame frame);
  match data with
  | [] => None
  | _ =>
      let text := from_utf8_lossy data in
      Some (if bool_decide (trim text = lit "[DONE]") then Done else Data text)
  end.

(** The loop of [feed]; a frame takes at least one buffered byte. *)
Fixpoint feed_loop (fuel : nat) (d : SseDecoder) (events : list SseEvent)
    : result (list SseEvent) SseFrameTooLarge * SseDecoder :=
  match fuel with
  | O => (ROk events, d)
  | S fuel =>
      match next_frame (frames d) with
      | (ROk (Some frame), s) =>
          feed_loop fuel (mkDecoder s (overflow d))
            (events ++ match decode_event frame with Some e => [e] | None => [] end)
      | (ROk None, s) => (ROk events, mkDecoder s (overflow d))
      | (RErr err, s) =>
          let s := snd (take_rest s) in
          match events with
          | [] => (RErr err, mkDecoder s (overflow d))
          | _ => (ROk events, mkDecoder s (Some err))
          end
      end
  end.

Definition feed (bytes : bytes) (d : SseDecoder)
    : result (list SseEvent) SseFrameTooLarge * SseDecoder :=
  match overflow d with
  | Some err => (RErr err, d)
  | None =>
      let d := mkDecoder (push bytes (frames d)) (overflow d) in
      feed_loop (S (length (buf (frames d)))) d []
  end.

Definition finish (d : SseDecoder) : result (option SseEvent) SseFrameTooLarge * SseDecoder :=
  match overflow d with
  | Some err => (RErr err, mkDecoder (frames d) None)
  | None => let '(rest, s) := take_rest (frames d) in (ROk (decode_event rest), mkDecoder s None)
  end.

(** ** The scan against the event-stream rules

    [frame_end als cr l] reads [l] byte by byte: [als] says a line starts here,
    [cr] that the previous byte was a [\r] whose [\n] may follow. *)

Definition shift (n : nat) (p : nat * nat) : nat * nat := ((n + p.1)%nat, (n + p.2)%nat).

Definition head_is (b : N) (l : bytes) : bool := bool_decide (head l = Some b).

Fixpoint frame_end (als cr : bool) (l : bytes) : option (nat * nat) :=
  match l with
  | [] => None
  | b :: r =>
      if cr && (b =? LF) then shift 1 <$> frame_end als false r
      else if is_eol b then
        if als then Some (0%nat, if (b =? CR) && head_is LF r then 2%nat else 1%nat)
        else shift 1 <$> frame_end true (b =? CR) r
      else shift 1 <$> frame_end false false r
  end.

Lemma shift_shift a b (o : option (nat * nat)) : shift a <$> (shift b <$> o) = shift (a + b) <$> o.
Proof. destruct o as [[x y]|]; [|done]. simpl. unfold shift. simpl. do 2 f_equal; lia. Qed.

Lemma shift_0 (o : option (nat * nat)) : shift 0 <$> o = o.
Proof. by destruct o as [[x y]|]. Qed.

Lemma frame_end_plain pre als r :
  (forall b, b ∈ pre -> is_eol b = false) ->
  frame_end als false (pre ++ r)
  = shift (length pre) <$> frame_end (if (0 <? length pre)%nat then false else als) false r.
Proof.
  revert als. induction pre as [|b pre IH]; intros als Hp; [by rewrite shift_0|].
  cbn [app frame_end andb]. rewrite Hp by set_solver. rewrite IH by set_solver.
  rewrite shift_shift. by destruct pre.
Qed.

Lemma frame_end_cr als r : head_is LF r = false -> frame_end als true r = frame_end als false r.
Proof.
  destruct r as [|b r]; [done|]. unfold head_is. intros H%bool_decide_eq_false. simpl in H.
  cbn [frame_end andb]. destruct (b =? LF) eqn:E; [nbool; congruence|done].
Qed.

Lemma eol_len_spec A b r :
  eol_len (A ++ b :: r) (length A) = if (b =? CR) && head_is LF r then 2%nat else 1%nat.
Proof.
  unfold eol_len, head_is. rewrite list_lookup_middle by done.
  rewrite cons_middle, app_assoc, lookup_app_r by (rewrite length_app; simpl; lia).
  replace (S (length A) - length (A ++ [b]))%nat with 0%nat by (rewrite length_app; simpl; lia).
  rewrite head_lookup. destruct (b =? CR) eqn:E; nbool; subst.
  - by rewrite bool_decide_true.
  - rewrite bool_decide_false by congruence. done.
Qed.

Lemma scan_loop_frame_end fuel A l als :
  (length l < fuel)%nat ->
  scan_loop fuel (A ++ l) (length A) als = shift (length A) <$> frame_end als false l.
Proof.
  revert A l als. induction fuel as [|fuel IH]; intros A l als Hf; [lia|].
  cbn [scan_loop]. rewrite drop_app_length. destruct (position is_eol l) as [off|] eqn:E.
  - destruct (position_Some _ _ _ E) as [(b & Hb & Heol) Hpre].
    rewrite <- (take_drop_middle l off b Hb). set (pre := take off l) in *.
    set (r := drop (S off) l).
    assert (length pre = off) as Hoff.
    { unfold pre. apply length_take_le. apply lookup_lt_Some in Hb. lia. }
    assert (length r < length l)%nat as Hr.
    { unfold r. rewrite length_drop. apply lookup_lt_Some in Hb. lia. }
    rewrite frame_end_plain by done. rewrite Hoff, shift_shift.
    rewrite app_assoc, <- Hoff, <- length_app, eol_len_spec.
    set (als' := if (0 <? _)%nat then false else als). cbn [frame_end andb]. rewrite Heol.
    destruct als'; [simpl; unfold shift; simpl; do 2 f_equal; lia|].
    rewrite shift_shift. destruct ((b =? CR) && head_is LF r) eqn:Hcr.
    + nbool. subst b. destruct r as [|x r']; [done|].
      apply bool_decide_eq_true_1 in H0. simplify_eq/=.
      assert ((A ++ pre) ++ CR :: LF :: r' = ((A ++ pre) ++ [CR; LF]) ++ r') as -> by by rewrite <- !app_assoc.
      replace (length (A ++ pre) + 2)%nat with (length ((A ++ pre) ++ [CR; LF]))
        by (rewrite (length_app (A ++ pre)); done).
      rewrite IH by (simpl in Hr; lia). rewrite shift_shift. rewrite length_app. do 2 f_equal. simpl. lia.
    + assert ((A ++ pre) ++ b :: r = ((A ++ pre) ++ [b]) ++ r) as -> by by rewrite <- !app_assoc.
      replace (length (A ++ pre) + 1)%nat with (length ((A ++ pre) ++ [b]))
        by (rewrite (length_app (A ++ pre)); done).
      rewrite IH by lia. rewrite length_app. f_equal.
      destruct (b =? CR); [|done]. symmetry. by apply frame_end_cr.
  - pose proof (frame_end_plain l als [] (position_None _ _ E)) as H. rewrite app_nil_r in H.
    by rewrite H.
Qed.

(** The line state a scan reads off the byte before it. *)
Definition ends_line (l : bytes) : bool :=
  match last l with Some b => is_eol b | None => true end.
Definition ends_cr (l : bytes) : bool := bool_decide (last l = Some CR).

Lemma scan_after buf p a :
  buf !! p = Some a ->
  scan buf (S p) = scan_loop (S (length buf)) buf
    (if (a =? CR) && bool_decide (buf !! S p = Some LF) then S (S p) else S p) (is_eol a).
Proof.
  intros Ha. unfold scan, is_eol. rewrite Ha.
  destruct (a =? LF) eqn:E1; nbool; [subst; done|].
  destruct (a =? CR) eqn:E2; nbool; [by case_bool_decide|done].
Qed.

Lemma scan_resume A l :
  scan (A ++ l) (length A)
  = shift (length A) <$> frame_end (ends_line A) (ends_cr A) l.
Proof.
  unfold ends_line, ends_cr. destruct A as [|a A _] using rev_ind.
  - apply (scan_loop_frame_end _ [] l); simpl; lia.
  - assert (forall als, scan_loop (S (length ((A ++ [a]) ++ l))) ((A ++ [a]) ++ l) (length (A ++ [a])) als
      = shift (length (A ++ [a])) <$> frame_end als false l) as Hl.
    { intros als. apply scan_loop_frame_end. rewrite length_app. lia. }
    rewrite last_snoc. assert (length (A ++ [a]) = S (length A)) as Hlen by (rewrite length_app; simpl; lia).
    rewrite Hlen in *. rewrite (scan_after _ _ a)
      by (rewrite <- app_assoc; by apply list_lookup_middle).
    destruct (a =? CR) eqn:E; nbool; cbn [andb].
    2: { rewrite Hl. by rewrite bool_decide_false by congruence. }
    subst a. rewrite (bool_decide_true (Some CR = Some CR)) by done.
    destruct (head_is LF l) eqn:E; unfold head_is in E.
    + apply bool_decide_eq_true_1 in E. destruct l as [|x l]; [done|]. injection E as ->.
      rewrite bool_decide_true by (apply list_lookup_middle; lia).
      cbn [frame_end andb N.eqb LF Pos.eqb]. rewrite shift_shift.
      replace ((A ++ [CR]) ++ LF :: l) with ((A ++ [CR; LF]) ++ l) by (by rewrite <- !app_assoc).
      replace (S (S (length A))) with (length (A ++ [CR; LF])) by (rewrite !length_app; simpl; lia).
      rewrite scan_loop_frame_end by (rewrite length_app; lia).
      by replace (length (A ++ [CR; LF])) with (S (length A) + 1)%nat by (rewrite length_app; simpl; lia).
    + rewrite frame_end_cr by done. apply bool_decide_eq_false in E.
      rewrite bool_decide_false; [apply Hl|]. rewrite lookup_app_r by lia.
      rewrite Hlen, Nat.sub_diag, <- head_lookup. done.
Qed.

(** ** The event-stream machine

    The specification the splitter is held to: bytes in one at a time, a block
    of non-blank lines out at every blank line.  It knows nothing of chunks. *)

Record tok := mkTok { t_lines : list bytes; t_line : bytes; t_cr : bool }.
Definition tok_start : tok := mkTok [] [] false.

Definition tok_step (t : tok) (b : N) : list (list bytes) * tok :=
  if t_cr t && (b =? LF) then ([], mkTok (t_lines t) (t_line t) false)
  else if is_eol b then
    match t_line t with
    | [] => ([t_lines t], mkTok [] [] (b =? CR))
    | line => ([], mkTok (t_lines t ++ [line]) [] (b =? CR))
    end
  else ([], mkTok (t_lines t) (t_line t ++ [b]) false).

Fixpoint tokens (t : tok) (l : bytes) : list (list bytes) * tok :=
  match l with
  | [] => ([], t)
  | b :: l =>
      let '(out, t) := tok_step t b in
      let '(out', t) := tokens t l in (out ++ out', t)
  end.

(** The non-blank lines of a frame, from its first byte. *)
Definition content (frame : bytes) : list bytes :=
  List.filter nonempty_bytes
    (line_bytes frame <$> lines_from (S (length frame)) frame 0).

Definition pending (t : tok) : list bytes :=
  t_lines t ++ match t_line t with [] => [] | line => [line] end.
Definition all_lines (r : list (list bytes) * tok) : list bytes := concat r.1 ++ pending r.2.

Lemma tokens_app t a b :
  tokens t (a ++ b) =
  let '(out, t') := tokens t a in let '(out', t'') := tokens t' b in (out ++ out', t'').
Proof.
  revert t. induction a as [|x a IH]; intros t; simpl; [by destruct (tokens t b)|].
  destruct (tok_step t x) as [o1 t1]. rewrite IH. destruct (tokens t1 a) as [o2 t2].
  destruct (tokens t2 b). by rewrite app_assoc.
Qed.

Lemma tokens_plain t pre :
  (forall b, b ∈ pre -> is_eol b = false) -> pre <> [] ->
  tokens t pre = ([], mkTok (t_lines t) (t_line t ++ pre) false).
Proof.
  intros Hp Hne. revert t. induction pre as [|b pre IH]; [done|]. intros t. simpl.
  assert (is_eol b = false) as Hb by (apply Hp; set_solver). unfold tok_step.
  assert ((b =? LF) = false) as Hl by (unfold is_eol in Hb; by destruct (b =? LF); rewrite ?orb_true_r in Hb).
  rewrite Hl, andb_false_r, Hb. destruct pre as [|c pre]; [done|].
  rewrite IH by (try done; set_solver). simpl. by rewrite <- app_assoc.
Qed.

Lemma tokens_cr L r :
  head_is LF r = false -> r <> [] -> tokens (mkTok L [] true) r = tokens (mkTok L [] false) r.
Proof.
  destruct r as [|b r]; [done|]. unfold head_is. intros H%bool_decide_eq_false _. simpl in H.
  cbn [tokens]. unfold tok_step. cbn [t_cr t_line t_lines andb].
  destruct (b =? LF) eqn:E; [nbool; congruence|done].
Qed.

Lemma all_lines_acc L K x c l :
  all_lines (tokens (mkTok (L ++ K) x c) l) = L ++ all_lines (tokens (mkTok K x c) l).
Proof.
  revert L K x c. induction l as [|b l IH]; intros L K x c.
  { unfold all_lines, pending. simpl. by rewrite app_assoc. }
  cbn [tokens]. unfold tok_step. cbn [t_cr t_line t_lines].
  destruct (c && (b =? LF)).
  { specialize (IH L K x false). unfold all_lines in *.
    destruct (tokens _ l), (tokens (mkTok K x false) l). exact IH. }
  destruct (is_eol b).
  - destruct x as [|y x].
    + destruct (tokens _ l) as [o t]. unfold all_lines. simpl. by rewrite !app_assoc.
    + rewrite <- app_assoc. specialize (IH L (K ++ [y :: x]) [] (b =? CR)). unfold all_lines in *.
      destruct (tokens _ l), (tokens (mkTok (K ++ _) _ _) l). exact IH.
  - specialize (IH L K (x ++ [b]) false). unfold all_lines in *.
    destruct (tokens _ l), (tokens (mkTok K _ _) l). exact IH.
Qed.

(** Past a terminator, the rest of a [\r\n] skipped. *)
Lemma all_lines_eol L b r :
  all_lines (tokens (mkTok L [] (b =? CR)) r)
  = L ++ all_lines (tokens tok_start (drop (if (b =? CR) && head_is LF r then 1 else 0) r)).
Proof.
  rewrite <- (app_nil_r L) at 1. rewrite all_lines_acc. f_equal.
  destruct (b =? CR); [|done]. cbn [andb]. destruct (head_is LF r) eqn:E.
  - unfold head_is in E. apply bool_decide_eq_true_1 in E. destruct r as [|x r]; [done|].
    injection E as ->. cbn [tokens]. unfold tok_step. cbn. rewrite drop_0. by destruct (tokens _ r).
  - rewrite drop_0. destruct r; [done|]. by rewrite tokens_cr.
Qed.

Lemma all_lines_first pre b r :
  (forall x, x ∈ pre -> is_eol x = false) -> is_eol b = true ->
  all_lines (tokens tok_start (pre ++ b :: r))
  = (if nonempty_bytes pre then [pre] else []) ++ all_lines (tokens (mkTok [] [] (b =? CR)) r).
Proof.
  intros Hp Hb. rewrite tokens_app. destruct pre as [|x pre].
  - cbn [tokens app]. unfold tok_step. cbn [t_cr t_line t_lines tok_start andb]. rewrite Hb.
    destruct (tokens _ r) as [o t]. done.
  - rewrite tokens_plain by done. cbn [tokens]. unfold tok_step. cbn [t_cr t_line t_lines andb].
    rewrite Hb. cbn [tok_start t_lines t_line app].
    pose proof (all_lines_acc [x :: pre] [] [] (b =? CR) r) as H. simpl in H. simpl.
    rewrite <- H. unfold all_lines. by destruct (tokens _ r).
Qed.

Lemma lines_from_all fuel A l :
  (length l < fuel)%nat ->
  List.filter nonempty_bytes (line_bytes (A ++ l) <$> lines_from fuel (A ++ l) (length A))
  = all_lines (tokens tok_start l).
Proof.
  revert A l. induction fuel as [|fuel IH]; intros A l Hf; [lia|]. cbn [lines_from].
  destruct l as [|x0 l0] eqn:El.
  { rewrite app_nil_r. by rewrite (proj2 (Nat.leb_le _ _)). }
  rewrite <- El in *. assert (length l <> 0)%nat as Hl by (by subst). clear El x0 l0.
  rewrite (proj2 (Nat.leb_gt _ _)) by (rewrite length_app; lia). rewrite drop_app_length.
  destruct (position is_eol l) as [off|] eqn:E.
  - destruct (position_Some _ _ _ E) as [(b & Hb & Heol) Hpre].
    rewrite <- (take_drop_middle l off b Hb). set (pre := take off l) in *. set (r := drop (S off) l).
    assert (length pre = off) as Hoff.
    { unfold pre. apply length_take_le. apply lookup_lt_Some in Hb. lia. }
    assert (length r < length l)%nat as Hr.
    { unfold r. rewrite length_drop. apply lookup_lt_Some in Hb. lia. }
    rewrite all_lines_first by done. rewrite all_lines_eol. rewrite <- Hoff.
    rewrite fmap_cons. cbn [List.filter].
    assert (line_bytes (A ++ pre ++ b :: r)
      (mkLine (length A) (length A + length pre)
        (length A + length pre + eol_len (A ++ pre ++ b :: r) (length A + length pre))) = pre) as ->.
    { unfold line_bytes. cbn [line_start line_end]. rewrite drop_app_length.
      replace (length A + length pre - length A)%nat with (length pre) by lia. apply take_app_length. }
    assert (forall xs, (if nonempty_bytes pre then pre :: xs else xs)
      = (if nonempty_bytes pre then [pre] else []) ++ xs) as -> by (intros; by destruct (nonempty_bytes pre)).
    f_equal. cbn [app].
    rewrite app_assoc, <- length_app, eol_len_spec.
    destruct ((b =? CR) && head_is LF r) eqn:Hcr.
    + apply andb_true_iff in Hcr as [Hcr Hlf]. apply bool_decide_eq_true_1 in Hlf.
      destruct r as [|x r']; [done|]. injection Hlf as ->.
      replace ((A ++ pre) ++ b :: LF :: r') with (((A ++ pre) ++ [b; LF]) ++ r') by (by rewrite <- !app_assoc).
      replace (length (A ++ pre) + 2)%nat with (length ((A ++ pre) ++ [b; LF]))
        by (rewrite (length_app (A ++ pre)); done).
      apply (IH _ r'). simpl in Hr. lia.
    + replace ((A ++ pre) ++ b :: r) with (((A ++ pre) ++ [b]) ++ r) by (by rewrite <- !app_assoc).
      replace (length (A ++ pre) + 1)%nat with (length ((A ++ pre) ++ [b]))
        by (rewrite (length_app (A ++ pre)); done).
      rewrite drop_0. apply IH. lia.
  - assert (l <> []) as Hne by (by destruct l).
    rewrite tokens_plain by (try done; by eapply position_None).
    assert (lines_from fuel (A ++ l) (length (A ++ l)) = []) as ->.
    { destruct fuel; [done|]. cbn [lines_from]. by rewrite (proj2 (Nat.leb_le _ _)). }
    rewrite fmap_cons. cbn [List.filter fmap list_fmap]. unfold line_bytes. cbn [line_start line_end].
    rewrite drop_app_length, length_app. replace (_ + _ - _)%nat with (length l) by lia.
    rewrite firstn_all. unfold all_lines, pending. simpl. by destruct l.
Qed.

Lemma content_all_lines l : content l = all_lines (tokens tok_start l).
Proof. apply (lines_from_all _ [] l). lia. Qed.

Definition at_start (t : tok) : bool := negb (nonempty_bytes (t_line t)).

Lemma tok_step_state t b :
  at_start (snd (tok_step t b)) = (if t_cr t && (b =? LF) then at_start t else is_eol b)
  /\ t_cr (snd (tok_step t b)) = (if t_cr t && (b =? LF) then false else b =? CR).
Proof.
  unfold tok_step, at_start, is_eol. destruct (t_cr t && (b =? LF)); [done|].
  destruct (b =? CR) eqn:E; cbn [orb]; [by destruct (t_line t)|].
  destruct (b =? LF); [by destruct (t_line t)|]. cbn. split; [|done]. by destruct (t_line t).
Qed.

Lemma frame_end_None t l :
  frame_end (at_start t) (t_cr t) l = None -> fst (tokens t l) = [].
Proof.
  revert t. induction l as [|b l IH]; intros t; [done|]. cbn [frame_end tokens].
  destruct (tok_step_state t b) as [Hs Hc]. specialize (IH (snd (tok_step t b))).
  rewrite Hs, Hc in IH. unfold tok_step in *.
  destruct (t_cr t && (b =? LF)) eqn:E.
  - intros H%fmap_None. specialize (IH H). by destruct (tokens _ l).
  - destruct (is_eol b) eqn:Eb.
    + unfold at_start. destruct (t_line t) as [|x line] eqn:El; [done|].
      intros H%fmap_None. specialize (IH H). by destruct (tokens _ l).
    + assert ((b =? CR) = false) as Ecr by (unfold is_eol in Eb; by destruct (b =? CR)).
      rewrite Ecr in IH. intros H%fmap_None. specialize (IH H). by destruct (tokens _ l).
Qed.

Lemma last_cons_ne {A} (x : A) l : l <> [] -> last (x :: l) = last l.
Proof. by destruct l. Qed.

Lemma frame_end_Some t l at_ e :
  frame_end (at_start t) (t_cr t) l = Some (at_, e) ->
  (0 < e <= length l)%nat /\
  (exists block, tokens t (take e l)
    = ([block], mkTok [] [] (bool_decide (last (take e l) = Some CR)))) /\
  (last (take e l) = Some CR -> head_is LF (drop e l) = false).
Proof.
  revert t at_ e. induction l as [|b l IH]; intros t at_ e; [done|]. cbn [frame_end].
  destruct (tok_step_state t b) as [Hs Hc].
  assert (forall at_ e out, tok_step t b = (out, snd (tok_step t b)) -> out = [] ->
    shift 1 <$> frame_end (at_start (snd (tok_step t b))) (t_cr (snd (tok_step t b))) l = Some (at_, e) ->
    (0 < e <= length (b :: l))%nat /\
    (exists block, tokens t (take e (b :: l))
      = ([block], mkTok [] [] (bool_decide (last (take e (b :: l)) = Some CR)))) /\
    (last (take e (b :: l)) = Some CR -> head_is LF (drop e (b :: l)) = false)) as Hrec.
  { intros at' e' out Ho -> ([a1 e1] & Hf & He)%fmap_Some. unfold shift in He. simplify_eq/=.
    destruct (IH _ _ _ Hf) as (He & (block & Hb) & Hl). split; [lia|].
    assert (take e1 l <> []) as Hne by (destruct e1, l; simpl in *; try lia; done).
    assert (last (b :: take e1 l) = last (take e1 l)) as -> by (by apply last_cons_ne).
    split; [|done]. exists block. rewrite Ho. cbn [snd]. rewrite Hb. done. }
  unfold tok_step in *. destruct (t_cr t && (b =? LF)) eqn:E.
  - intros Hf. apply (Hrec at_ e []); [done..|]. by rewrite Hs, Hc.
  - destruct (is_eol b) eqn:Eb.
    + unfold at_start at 1. destruct (t_line t) as [|x line] eqn:El; cbn [nonempty_bytes negb].
      * intros [= <- <-]. destruct ((b =? CR) && head_is LF l) eqn:Ecr.
        -- nbool. subst b. apply bool_decide_eq_true_1 in H0. destruct l as [|y l]; [done|].
           injection H0 as ->. simpl. split; [lia|]. split; [|done].
           exists (t_lines t). unfold tok_step. rewrite E, Eb, El. done.
        -- simpl. split; [lia|]. split.
           ++ exists (t_lines t). unfold tok_step. rewrite E, Eb, El. simpl. do 2 f_equal.
              destruct (b =? CR) eqn:Eq; nbool; [by subst|]. rewrite bool_decide_false; congruence.
           ++ intros [= ->]. exact Ecr.
      * intros Hf. apply (Hrec at_ e []); [done..|]. by rewrite Hs, Hc.
    + intros Hf. apply (Hrec at_ e []); [done..|].
      assert ((b =? CR) = false) as Ecr by (unfold is_eol in Eb; by destruct (b =? CR)).
      by rewrite Hs, Hc, Ecr.
Qed.

(** ** The splitter implements the machine *)

(** A caller's loop: take every frame that is complete. *)
Fixpoint drain (fuel : nat) (s : SseFrameSplitter) : list bytes * SseFrameSplitter :=
  match fuel with
  | O => ([], s)
  | S fuel =>
      match next_frame s with
      | (ROk (Some frame), s) => let '(fs, s) := drain fuel s in (frame :: fs, s)
      | (_, s) => ([], s)
      end
  end.

Definition push_drain (chunk : bytes) (s : SseFrameSplitter) : list bytes * SseFrameSplitter :=
  let s := push chunk s in drain (S (length (buf s))) s.

Fixpoint run_chunks (chunks : list bytes) (s : SseFrameSplitter) : list bytes * SseFrameSplitter :=
  match chunks with
  | [] => ([], s)
  | c :: chunks =>
      let '(fs, s) := push_drain c s in
      let '(fs', s) := run_chunks chunks s in (fs ++ fs', s)
  end.

Definition prepend (out : list (list bytes)) (r : list (list bytes) * tok) := (out ++ r.1, r.2).

(** After bytes [p] gave the blocks [out]: what is buffered is the current
    frame, behind at most one passed-over [\n]. *)
Inductive tracks (s : SseFrameSplitter) (p : bytes) (out : list (list bytes)) : Prop :=
  | tracks_after_cr :
      after_cr s = true -> buf s = [] -> scanned s = 0%nat ->
      tokens tok_start p = (out, mkTok [] [] true) -> tracks s p out
  | tracks_in_frame ign body :
      after_cr s = false -> buf s = ign ++ body -> ign = [] \/ ign = [LF] ->
      scan (buf s) (scanned s) = shift (length ign) <$> frame_end true false body ->
      tokens tok_start p = prepend out (tokens tok_start body) -> tracks s p out.

(** Nothing more to take until the next chunk. *)
Definition drained (s : SseFrameSplitter) : Prop :=
  after_cr s = true \/ scan (buf s) (scanned s) = None /\ scanned s = length (buf s).

Definition eol_step (st : bool * bool) (b : N) : bool * bool :=
  if st.2 && (b =? LF) then (st.1, false) else (is_eol b, b =? CR).

Lemma frame_end_app als cr a b :
  frame_end als cr a = None ->
  frame_end als cr (a ++ b) =
  shift (length a) <$> frame_end (foldl eol_step (als, cr) a).1 (foldl eol_step (als, cr) a).2 b.
Proof.
  revert als cr. induction a as [|x a IH]; intros als cr; [by rewrite shift_0|].
  cbn [frame_end app foldl]. unfold eol_step at 2 4. cbn [fst snd].
  destruct (cr && (x =? LF)).
  { intros H%fmap_None. by rewrite IH, shift_shift. }
  destruct (is_eol x) eqn:E.
  { destruct als; [done|]. intros H%fmap_None. by rewrite IH, shift_shift. }
  assert ((x =? CR) = false) as -> by (unfold is_eol in E; by destruct (x =? CR)).
  intros H%fmap_None. by rewrite IH, shift_shift.
Qed.

Lemma eol_state als cr a :
  (cr = true -> als = true) -> a <> [] -> foldl eol_step (als, cr) a = (ends_line a, ends_cr a).
Proof.
  intros Hc. induction a as [|x a IH] using rev_ind; [done|]. intros _.
  rewrite foldl_snoc. unfold ends_line, ends_cr. rewrite last_snoc.
  assert ((foldl eol_step (als, cr) a).2 = true -> (foldl eol_step (als, cr) a).1 = true) as Hi.
  { destruct (decide (a = [])) as [-> | Hne]; [done|]. rewrite (IH Hne). simpl. unfold ends_cr, ends_line.
    intros ->%bool_decide_eq_true_1. done. }
  destruct (foldl eol_step (als, cr) a) as [als' cr']. simpl in Hi. unfold eol_step. cbn [fst snd].
  destruct (cr' && (x =? LF)) eqn:E.
  - apply andb_true_iff in E as [-> E2]. nbool. subst x. rewrite (Hi eq_refl).
    by rewrite bool_decide_false by done.
  - f_equal. destruct (x =? CR) eqn:E2; nbool; [by subst|]. by rewrite bool_decide_false by congruence.
Qed.

(** Resuming a scan where it stopped finds what a scan from the frame's first
    byte finds. *)
Lemma scan_pushed ign body b :
  ign = [] \/ ign = [LF] -> frame_end true false body = None ->
  scan ((ign ++ body) ++ b) (length (ign ++ body))
  = shift (length ign) <$> frame_end true false (body ++ b).
Proof.
  intros Hi Hn. rewrite scan_resume, (frame_end_app _ _ _ _ Hn), shift_shift, <- length_app.
  destruct (decide (body = [])) as [-> | Hb].
  - by destruct Hi as [-> | ->].
  - rewrite eol_state by done. unfold ends_line, ends_cr. rewrite last_app.
    by destruct body as [|x body _] using rev_ind; [|rewrite last_snoc].
Qed.

Lemma tokens_silent t a b :
  fst (tokens t a) = [] -> tokens t (a ++ b) = tokens (snd (tokens t a)) b.
Proof. intros H. rewrite tokens_app. destruct (tokens t a). simpl in *. subst. by destruct (tokens _ b). Qed.

Lemma tokens_then out a b t :
  tokens tok_start a = prepend out t -> tokens tok_start (a ++ b) = prepend (out ++ t.1) (tokens t.2 b).
Proof.
  intros H. rewrite tokens_app, H. unfold prepend. simpl. by destruct (tokens t.2 b).
Qed.

Lemma skip_tail_lf_idle s : after_cr s = false -> skip_tail_lf s = s.
Proof. unfold skip_tail_lf. intros ->. by destruct (buf s). Qed.

Lemma tracks_push s p out c :
  tracks s p out -> drained s -> tracks (skip_tail_lf (push c s)) (p ++ c) out.
Proof.
  intros [Hc Hb Hs Ht|ign body Hc Hb Hi Hsc Ht] Hd.
  - unfold push, skip_tail_lf. cbn [buf after_cr scanned max_frame_bytes]. rewrite Hb, Hc, Hs. simpl.
    pose proof (tokens_then out p c ([], mkTok [] [] true)) as Htc.
    unfold prepend in Htc at 1. simpl in Htc. rewrite app_nil_r in Htc. specialize (Htc Ht).
    destruct c as [|b c].
    { rewrite app_nil_r. by apply tracks_after_cr. }
    destruct (b =? LF) eqn:E; nbool.
    + subst. apply (tracks_in_frame _ _ _ [LF] c); [done|done|by right| |].
      * apply (scan_resume [LF] c).
      * rewrite Htc. cbn [tokens]. unfold tok_step. simpl. by destruct (tokens _ c).
    + apply (tracks_in_frame _ _ _ [] (b :: c)); [done|done|by left| |].
      * apply (scan_resume [] (b :: c)).
      * rewrite Htc. f_equal. apply tokens_cr; [|done]. apply bool_decide_eq_false. simpl. congruence.
  - rewrite skip_tail_lf_idle by done. destruct Hd as [?|[Hd1 Hd2]]; [congruence|].
    rewrite Hsc in Hd1. apply fmap_None in Hd1.
    apply (tracks_in_frame _ _ _ ign (body ++ c)); [done| |done| |].
    + simpl. by rewrite Hb, app_assoc.
    + unfold push. cbn [buf scanned]. rewrite Hd2, Hb. by apply scan_pushed.
    + rewrite (tokens_then _ _ _ _ Ht). pose proof (frame_end_None tok_start body Hd1) as Hn.
      rewrite tokens_silent by done. rewrite Hn, app_nil_r. done.
Qed.

Lemma content_block ign l block c :
  ign = [] \/ ign = [LF] -> tokens tok_start l = ([block], mkTok [] [] c) ->
  content (ign ++ l) = block.
Proof.
  intros Hi Ht. assert (content l = block) as Hc.
  { rewrite content_all_lines, Ht. unfold all_lines, pending. simpl. by rewrite !app_nil_r. }
  destruct Hi as [-> | ->]; [done|]. rewrite <- Hc, !content_all_lines.
  apply (all_lines_first [] LF l); [set_solver|done].
Qed.

Lemma next_frame_tracks s p out :
  tracks (skip_tail_lf s) p out ->
  match next_frame s with
  | (ROk (Some f), s') =>
      f <> [] /\ buf s = f ++ buf s' /\ tracks (skip_tail_lf s') p (out ++ [content f])
  | (_, s') => buf s' = buf s /\ tracks s' p out /\ drained s'
  end.
Proof.
  intros Htr. unfold next_frame.
  assert (buf (skip_tail_lf s) = buf s) as Hbuf.
  { unfold skip_tail_lf. by destruct (buf s) eqn:E; [|destruct (after_cr s)]. }
  rewrite <- Hbuf. clear Hbuf. set (s1 := skip_tail_lf s) in *. clearbody s1. clear s.
  cbv zeta. destruct Htr as [Hc Hb Hs Ht|ign body Hc Hb Hi Hsc Ht].
  - rewrite Hb, Hs. change (scan [] 0) with (@None (nat * nat)). cbn [buf max_frame_bytes length].
    assert (tracks (mkSplitter [] 0 (after_cr s1) (max_frame_bytes s1)) p out
      /\ drained (mkSplitter [] 0 (after_cr s1) (max_frame_bytes s1))) as [H1 H2].
    { split; [by apply tracks_after_cr|by left]. }
    by destruct (_ <? _)%nat.
  - rewrite Hsc. destruct (frame_end true false body) as [[at_ e]|] eqn:E; cbn [fmap option_fmap option_map].
    + destruct (frame_end_Some tok_start body at_ e E) as (He & (block & Hblk) & Hcr).
      unfold shift. cbn [fst snd]. rewrite Hb, take_app_add, drop_app_add.
      set (F := take e body) in *. set (R := drop e body) in *.
      assert (F <> []) as HF by (unfold F; destruct body, e; simpl in *; try lia; done).
      assert (last (ign ++ F) = last F) as Hlast.
      { rewrite last_app. destruct F as [|x F' _] using rev_ind; [done|by rewrite last_snoc]. }
      assert (tokens tok_start p = prepend (out ++ [block])
        (tokens (mkTok [] [] (bool_decide (last F = Some CR))) R)) as HtR.
      { rewrite Ht, <- (take_drop e body). fold F R. rewrite tokens_app, Hblk. unfold prepend.
        destruct (tokens (mkTok [] [] _) R). cbn [fst snd]. by rewrite app_assoc. }
      split; [by destruct Hi as [-> | ->]|]. split; [cbn [buf]; unfold F, R; by rewrite <- app_assoc, take_drop|].
      rewrite (content_block _ _ _ _ Hi Hblk).
      destruct R as [|x R'] eqn:ER.
      * simpl. rewrite Hlast. unfold skip_tail_lf. cbn [buf].
        destruct (bool_decide (last F = Some CR)) eqn:Ec.
        -- apply tracks_after_cr; [done..|]. rewrite HtR. unfold prepend. simpl. by rewrite app_nil_r.
        -- apply (tracks_in_frame _ _ _ [] []); [done|done|by left|done|]. exact HtR.
      * rewrite skip_tail_lf_idle by done. cbn [after_cr].
        apply (tracks_in_frame _ _ _ [] (x :: R')); [done|done|by left|apply (scan_resume [] (x :: R'))|].
        rewrite HtR. f_equal. destruct (bool_decide (last F = Some CR)) eqn:Ec; [|done].
        apply bool_decide_eq_true_1 in Ec. apply tokens_cr; [by apply Hcr|done].
    + pose proof (scan_pushed ign body [] Hi E) as Hp. rewrite !app_nil_r, E in Hp.
      assert (tracks (mkSplitter (buf s1) (length (buf s1)) (after_cr s1) (max_frame_bytes s1)) p out
        /\ drained (mkSplitter (buf s1) (length (buf s1)) (after_cr s1) (max_frame_bytes s1))) as [H1 H2].
      { rewrite Hb. split; [|right; split; [exact Hp|done]].
        apply (tracks_in_frame _ _ _ ign body); [done|done|done| |done].
        cbn [buf scanned]. by rewrite Hp, E. }
      by destruct (_ <? _)%nat.
Qed.

Lemma drain_tracks fuel s p out :
  (length (buf s) < fuel)%nat -> tracks (skip_tail_lf s) p out ->
  let '(fs, s') := drain fuel s in
  concat fs ++ buf s' = buf s /\ tracks s' p (out ++ (content <$> fs)) /\ drained s'.
Proof.
  revert s out. induction fuel as [|fuel IH]; intros s out Hf Htr; [lia|]. cbn [drain].
  pose proof (next_frame_tracks s p out Htr) as Hn.
  destruct (next_frame s) as [[[f|]|] s']; simpl; rewrite ?app_nil_r; [|done..].
  destruct Hn as (Hne & Hb & Ht). specialize (IH s' (out ++ [content f])).
  assert (length (buf s') < length (buf s))%nat by (rewrite Hb, length_app; destruct f; simpl; [done|lia]).
  destruct (drain fuel s') as [fs s'']. destruct IH as (Hc & Ht' & Hd); [lia|done|].
  cbn [concat fmap list_fmap]. split; [by cbn [concat]; rewrite Hb, <- Hc, <- app_assoc|]. split; [|done].
  by rewrite <- app_assoc in Ht'.
Qed.

Lemma run_chunks_tracks chunks s p out :
  tracks s p out -> drained s ->
  let '(fs, s') := run_chunks chunks s in
  concat fs ++ buf s' = buf s ++ concat chunks
  /\ tracks s' (p ++ concat chunks) (out ++ (content <$> fs)) /\ drained s'.
Proof.
  revert s p out. induction chunks as [|c chunks IH]; intros s p out Ht Hd; cbn [run_chunks concat].
  { by rewrite !app_nil_r. }
  unfold push_drain.
  pose proof (drain_tracks (S (length (buf (push c s)))) (push c s) (p ++ c) out) as Hdr.
  destruct (drain _ (push c s)) as [fs s1].
  destruct Hdr as (Hc1 & Ht1 & Hd1); [lia|by apply tracks_push|].
  specialize (IH s1 _ _ Ht1 Hd1). destruct (run_chunks chunks s1) as [fs' s2].
  destruct IH as (Hc2 & Ht2 & Hd2). rewrite concat_app, fmap_app. split_and!; [|by rewrite !app_assoc in *|done].
  rewrite <- app_assoc, Hc2, app_assoc, Hc1. unfold push. cbn [buf]. by rewrite <- app_assoc.
Qed.

Lemma splitter_new_tracks max :
  tracks (splitter_new max) [] [] /\ drained (splitter_new max).
Proof.
  split; [|by right]. apply (tracks_in_frame _ _ _ [] []); [done|done|by left|done|done].
Qed.

(** The pending lines of the machine are the lines still buffered. *)
Lemma tracks_pending s p out :
  tracks s p out -> drained s -> fst (tokens tok_start p) = out /\
  content (buf s) = pending (snd (tokens tok_start p)).
Proof.
  intros [Hc Hb Hs Ht|ign body Hc Hb Hi Hsc Ht] Hd.
  - rewrite Ht, Hb. done.
  - destruct Hd as [?|[Hd _]]; [congruence|]. rewrite Hsc in Hd. apply fmap_None in Hd.
    pose proof (frame_end_None tok_start body Hd) as Hn. rewrite Ht. unfold prepend.
    rewrite Hn, Hb. simpl. rewrite app_nil_r. split; [done|].
    assert (content body = pending (snd (tokens tok_start body))) as Hbody.
    { rewrite content_all_lines. unfold all_lines. by rewrite Hn. }
    destruct Hi as [-> | ->]; [done|]. rewrite <- Hbody, !content_all_lines.
    apply (all_lines_first [] LF body); [set_solver|done].
Qed.

(** C37. The splitter implements the event-stream rules whatever the network
    does to the stream.  For every way of cutting a byte stream into chunks, and
    every frame bound: the frames and what stays buffered are the stream's own
    bytes, in order, nothing lost or repeated; the frames' lines are exactly the
    blocks the byte-at-a-time machine emits on the whole stream; and what is
    buffered holds exactly the machine's unfinished block. *)
Theorem splitter_implements_event_stream chunks max :
  let '(fs, s) := run_chunks chunks (splitter_new max) in
  let '(blocks, t) := tokens tok_start (concat chunks) in
  concat fs ++ buf s = concat chunks /\ content <$> fs = blocks /\ content (buf s) = pending t.
Proof.
  destruct (splitter_new_tracks max) as [Ht Hd].
  pose proof (run_chunks_tracks chunks _ _ _ Ht Hd) as Hr.
  destruct (run_chunks chunks _) as [fs s]. destruct Hr as (Hc & Ht' & Hd').
  destruct (tracks_pending _ _ _ Ht' Hd') as [H1 H2].
  simpl in *. destruct (tokens tok_start (concat chunks)) as [blocks t]. by simpl in *; subst.
Qed.

(** ** The decoder *)

Definition fields_of (block : list bytes) : SseFields :=
  foldl parse_line (mkFields None None None None) block.

(** The event of a block of lines. *)
Definition event_of_block (block : list bytes) : option SseEvent :=
  data ← data (fields_of block);
  match data with
  | [] => None
  | _ => let text := from_utf8_lossy data in
         Some (if bool_decide (trim text = lit "[DONE]") then Done else Data text)
  end.

Lemma foldl_parse_line_nonblank f ls :
  foldl parse_line f (List.filter nonempty_bytes ls) = foldl parse_line f ls.
Proof. revert f. induction ls as [|[|b l] ls IH]; intros f; simpl; done || apply IH. Qed.

Lemma foldl_fmap {A B C} (f : A -> B -> A) (g : C -> B) a l :
  foldl f a (g <$> l) = foldl (fun a x => f a (g x)) a l.
Proof. revert a. induction l; intros; simpl; auto. Qed.

Definition no_bom (frame : bytes) : Prop := starts_with UTF8_BOM frame = false.

Lemma decode_event_content frame :
  no_bom frame -> decode_event frame = event_of_block (content frame).
Proof.
  intros Hb. unfold decode_event, event_of_block, parse_frame, fields_of, content, lines.
  rewrite Hb, foldl_parse_line_nonblank, foldl_fmap. done.
Qed.

Lemma max_skip s : max_frame_bytes (skip_tail_lf s) = max_frame_bytes s.
Proof. unfold skip_tail_lf. by destruct (buf s); [|destruct (after_cr s)]. Qed.
Lemma buf_skip s : buf (skip_tail_lf s) = buf s.
Proof. unfold skip_tail_lf. by destruct (buf s) eqn:E; [|destruct (after_cr s)]. Qed.

Lemma next_frame_cases s :
  max_frame_bytes (snd (next_frame s)) = max_frame_bytes s /\
  match next_frame s with
  | (ROk (Some f), s') => exists e, f = take e (buf s) /\ buf s' = drop e (buf s)
  | (ROk None, s') => buf s' = buf s /\ (length (buf s) <= max_frame_bytes s)%nat
  | (RErr err, s') => buf s' = buf s /\ (max_frame_bytes s < length (buf s))%nat
      /\ err = mkTooLarge (max_frame_bytes s)
  end.
Proof.
  unfold next_frame. cbv zeta. rewrite <- (max_skip s), <- (buf_skip s).
  destruct (scan _ _) as [[at_ e]|]; [cbn; eauto|]. cbn [buf max_frame_bytes].
  destruct (_ <? _)%nat eqn:E; cbn [buf max_frame_bytes snd];
    [apply Nat.ltb_lt in E|apply Nat.ltb_ge in E]; done.
Qed.

Lemma frame_end_pos als cr l at_ e : frame_end als cr l = Some (at_, e) -> (0 < e <= length l)%nat.
Proof.
  revert als cr at_ e. induction l as [|b l IH]; intros als cr at_ e; [done|]. cbn [frame_end].
  assert (forall als cr, shift 1 <$> frame_end als cr l = Some (at_, e) -> (0 < e <= length (b :: l))%nat) as H.
  { intros als' cr' ([a1 e1] & Hf & He)%fmap_Some. apply IH in Hf. unfold shift in He. simplify_eq/=. lia. }
  destruct (cr && _); [apply H|]. destruct (is_eol b); [|apply H].
  destruct als; [|apply H]. intros [= _ <-]. unfold head_is. destruct l; simpl; [|destruct (_ && _); lia].
  rewrite andb_false_r. lia.
Qed.

Lemma next_frame_shrinks s f s' :
  next_frame s = (ROk (Some f), s') -> (length (buf s') < length (buf s))%nat.
Proof.
  unfold next_frame. cbv zeta. rewrite <- (buf_skip s). set (s1 := skip_tail_lf s).
  destruct (scan (buf s1) (scanned s1)) as [[at_ e]|] eqn:E; [|by destruct (_ <? _)%nat].
  intros [= <- <-]. cbn [buf]. rewrite length_drop.
  destruct (decide (scanned s1 <= length (buf s1))%nat) as [Hle|Hgt].
  - rewrite <- (take_drop (scanned s1) (buf s1)) in E at 1.
    assert (length (take (scanned s1) (buf s1)) = scanned s1) as Hl by (by apply length_take_le).
    rewrite <- Hl in E at 3. rewrite scan_resume in E.
    apply fmap_Some in E as ([a1 e1] & Hf & He). apply frame_end_pos in Hf.
    rewrite length_drop in Hf. unfold shift in He. simplify_eq/=. lia.
  - unfold scan in E. destruct (scanned s1) as [|p]; [lia|].
    rewrite lookup_ge_None_2 in E by lia. cbn [scan_loop] in E. by rewrite drop_ge in E by lia.
Qed.

Lemma feed_loop_drain fuel s ev :
  (length (buf s) <= max_frame_bytes s)%nat ->
  let '(fs, s') := drain fuel s in
  feed_loop fuel (mkDecoder s None) ev = (ROk (ev ++ omap decode_event fs), mkDecoder s' None)
  /\ max_frame_bytes s' = max_frame_bytes s.
Proof.
  revert s ev. induction fuel as [|fuel IH]; intros s ev Hl; cbn [feed_loop drain].
  { by rewrite app_nil_r. }
  cbn [frames overflow]. destruct (next_frame_cases s) as [Hm Hn].
  destruct (next_frame s) as [[[f|]|err] s']; simpl in Hm.
  - destruct Hn as (e & -> & Hb). specialize (IH s' (ev ++ match decode_event (take e (buf s)) with Some x => [x] | None => [] end)).
    destruct (drain fuel s') as [fs s'']. destruct IH as [IH Hm'].
    { rewrite Hm, Hb, length_drop. lia. }
    rewrite IH, Hm', Hm. split; [|done]. cbn [omap list_omap]. rewrite <- app_assoc.
    by destruct (decode_event _).
  - by rewrite app_nil_r.
  - lia.
Qed.

Lemma drain_shrinks fuel s : (length (buf (snd (drain fuel s))) <= length (buf s))%nat.
Proof.
  revert s. induction fuel as [|fuel IH]; intros s; cbn [drain]; [done|].
  destruct (next_frame_cases s) as [_ Hn]. destruct (next_frame s) as [[[f|]|err] s']; simpl.
  - destruct Hn as (e & _ & Hb). specialize (IH s'). destruct (drain fuel s'). simpl in *.
    rewrite Hb, length_drop in IH. lia.
  - by destruct Hn as [-> _].
  - by destruct Hn as [-> _].
Qed.

Fixpoint feed_all (chunks : list bytes) (d : SseDecoder)
    : result (list SseEvent) SseFrameTooLarge * SseDecoder :=
  match chunks with
  | [] => (ROk [], d)
  | c :: chunks =>
      match feed c d with
      | (RErr err, d) => (RErr err, d)
      | (ROk ev, d) =>
          match feed_all chunks d with
          | (RErr err, d) => (RErr err, d)
          | (ROk ev', d) => (ROk (ev ++ ev'), d)
          end
      end
  end.

Lemma feed_all_run chunks s :
  (length (buf s) + length (concat chunks) <= max_frame_bytes s)%nat ->
  let '(fs, s') := run_chunks chunks s in
  feed_all chunks (mkDecoder s None) = (ROk (omap decode_event fs), mkDecoder s' None).
Proof.
  revert s. induction chunks as [|c chunks IH]; intros s Hl; cbn [run_chunks feed_all]; [done|].
  unfold feed, push_drain. cbn [overflow frames]. cbn [concat] in Hl. rewrite length_app in Hl.
  assert (length (buf (push c s)) = length (buf s) + length c)%nat as Hp
    by (unfold push; cbn [buf]; apply length_app).
  pose proof (feed_loop_drain (S (length (buf (push c s)))) (push c s) []) as Hd.
  pose proof (drain_shrinks (S (length (buf (push c s)))) (push c s)) as Hs.
  destruct (drain _ (push c s)) as [fs s1]. destruct Hd as [-> Hm]; [unfold push in *; cbn [max_frame_bytes buf] in *; lia|].
  specialize (IH s1). destruct (run_chunks chunks s1) as [fs' s2]. rewrite IH.
  - cbn [app]. by rewrite omap_app.
  - rewrite Hm. unfold push in *; cbn [max_frame_bytes buf snd] in *; lia.
Qed.

(** Network chunking never changes the events.  For every way of cutting a
    stream of at most [max] bytes into chunks, feeding them one by one answers
    the events of the machine's blocks on the whole stream, and [finish] the
    event of its unfinished block; the hypothesis is that no frame handed to the
    field parser opens with a byte-order mark. *)
Theorem decoder_chunking_invariant chunks max :
  (length (concat chunks) <= max)%nat ->
  let '(fs, s) := run_chunks chunks (splitter_new max) in
  Forall no_bom (fs ++ [buf s]) ->
  let '(blocks, t) := tokens tok_start (concat chunks) in
  let '(r, d) := feed_all chunks (with_max_frame_bytes max) in
  r = ROk (omap event_of_block blocks) /\ fst (finish d) = ROk (event_of_block (pending t)).
Proof.
  intros Hl. destruct (splitter_new_tracks max) as [Ht Hd].
  pose proof (run_chunks_tracks chunks _ _ _ Ht Hd) as Hr.
  pose proof (feed_all_run chunks (splitter_new max) Hl) as Hf.
  destruct (run_chunks chunks _) as [fs s]. destruct Hr as (Hc & Ht' & Hd').
  destruct (tracks_pending _ _ _ Ht' Hd') as [H1 H2]. cbn [app] in *.
  intros [Hfs Hs]%Forall_app. apply Forall_inv in Hs.
  destruct (tokens tok_start (concat chunks)) as [blocks t]. cbn [fst snd] in *. subst blocks.
  unfold with_max_frame_bytes. rewrite Hf. split.
  - f_equal. clear -Hfs. induction Hfs as [|f fs Hf _ IH]; [done|].
    cbn [omap list_omap fmap list_fmap]. rewrite decode_event_content by done. by rewrite IH.
  - unfold finish, take_rest. cbn [overflow frames fst]. by rewrite decode_event_content, H2.
Qed.

Lemma decoder_chunking_invariant_witness :
  let chunks := [lit "data: a"; [13]; [10; 13]; [10] ++ lit "data: [DONE]"; [10; 10] ++ lit "data: b"] in
  feed_all chunks (with_max_frame_bytes 64)
  = (ROk [Data (lit "a"); Done], mkDecoder (mkSplitter (lit "data: b") 7 false 64) None) /\
  let '(r, d) := feed_all chunks (with_max_frame_bytes 64) in
  r = ROk (omap event_of_block (fst (tokens tok_start (concat chunks)))) /\
  fst (finish d) = ROk (event_of_block (pending (snd (tokens tok_start (concat chunks))))).
Proof.
  split; [vm_compute; reflexivity|].
  pose proof (decoder_chunking_invariant
    [lit "data: a"; [13]; [10; 13]; [10] ++ lit "data: [DONE]"; [10; 10] ++ lit "data: b"] 64) as H.
  vm_compute in H |- *. apply H; repeat constructor.
Defined.

Lemma feed_loop_bounded fuel d ev :
  (length (buf (frames d)) < fuel)%nat -> overflow d = None ->
  let '(r, d') := feed_loop fuel d ev in
  max_frame_bytes (frames d') = max_frame_bytes (frames d) /\
  (length (buf (frames d')) <= max_frame_bytes (frames d))%nat /\
  match r with
  | RErr err => buf (frames d') = [] /\ overflow d' = None
      /\ err = mkTooLarge (max_frame_bytes (frames d))
  | ROk _ => overflow d' = None
      \/ overflow d' = Some (mkTooLarge (max_frame_bytes (frames d))) /\ buf (frames d') = []
  end.
Proof.
  revert d ev. induction fuel as [|fuel IH]; intros d ev Hf Ho; [lia|]. cbn [feed_loop].
  destruct (next_frame_cases (frames d)) as [Hm Hn].
  assert (forall f s', next_frame (frames d) = (ROk (Some f), s') ->
    (length (buf s') < length (buf (frames d)))%nat) as Hdec by (intros; by eapply next_frame_shrinks).
  destruct (next_frame (frames d)) as [[[f|]|err] s']; simpl in Hm.
  - specialize (IH (mkDecoder s' (overflow d)) (ev ++ match decode_event f with Some e => [e] | None => [] end)).
    cbn [frames overflow] in IH. destruct (feed_loop _ _ _) as [r d']. rewrite <- Hm. apply IH; [|done].
    specialize (Hdec f s' eq_refl). lia.
  - destruct Hn as [Hb Hl]. cbn [frames overflow]. rewrite Hm, Hb. auto.
  - destruct Hn as (Hb & Hl & ->). destruct ev; cbn; rewrite ?Hm; split_and!; auto; lia.
Qed.

(** The decoder's memory is bounded and an oversized frame is never lost
    silently.  After any feed the decoder holds at most [max] bytes; a frame
    that outgrows the bound is reported by this feed, or, when the feed also
    completed events, those are returned first and the next feed and [finish]
    report it; its bytes are released either way. *)
Theorem decoder_bounded bytes d :
  overflow d = None ->
  let max := max_frame_bytes (frames d) in
  let '(r, d') := feed bytes d in
  (length (buf (frames d')) <= max)%nat /\
  match r with
  | RErr err => err = mkTooLarge max /\ buf (frames d') = []
  | ROk _ =>
      overflow d' = None \/
      (buf (frames d') = [] /\ (forall more, fst (feed more d') = RErr (mkTooLarge max)) /\
       fst (finish d') = RErr (mkTooLarge max))
  end.
Proof.
  intros Ho max. unfold feed at 1. rewrite Ho.
  pose proof (feed_loop_bounded (S (length (buf (push bytes (frames d))))) (mkDecoder (push bytes (frames d)) None) []) as H.
  cbn [frames overflow] in H. destruct (feed_loop _ _ _) as [r d'].
  destruct H as (Hm & Hl & Hr); [lia|done|]. cbn [push max_frame_bytes] in *.
  split; [done|]. destruct r as [ev|err]; [|tauto].
  destruct Hr as [?|[Hov Hb]]; [by left|right]. split; [done|].
  unfold feed, finish. by rewrite Hov.
Qed.

Lemma decoder_bounded_witness :
  let d := with_max_frame_bytes 4 in
  overflow d = None /\
  fst (feed (lit "data: x") d) = RErr (mkTooLarge 4) /\
  let '(r, d') := feed (lit "data: x") d in
  (length (buf (frames d')) <= 4)%nat /\
  match r with
  | RErr err => err = mkTooLarge 4 /\ buf (frames d') = []
  | ROk _ =>
      overflow d' = None \/
      (buf (frames d') = [] /\ (forall more, fst (feed more d') = RErr (mkTooLarge 4)) /\
       fst (finish d') = RErr (mkTooLarge 4))
  end.
Proof.
  split; [reflexivity|]. split; [vm_compute; reflexivity|].
  apply (decoder_bounded (lit "data: x") (with_max_frame_bytes 4)). reflexivity.
Defined.
