(* ===== verification/Snapshot.v ===== *)
(** * Configuration snapshot ([crates/aisix-core/src/snapshot.rs])

    [ResourceTable]: the id index, the name index, the wildcard rows, the cached
    count and the generation stamp of one kind of resource.  [SnapshotHandle]:
    the published snapshot, its version, and its listeners.  A concurrent map is
    a [gmap], one operation on the table one step; an iteration over it has no
    order, so what depends on iteration is stated of the set of rows. *)

From S2P Require Import Prelude.
Local Open Scope N_scope.

(** [name.contains('*')] *)
Fixpoint contains_star (s : string) : bool :=
  match s with
  | EmptyString => false
  | String a s => (Ascii.N_of_ascii a =? 42) || contains_star s
  end.

Section table.
Context {T : Type} (name : T -> string).

Record ResourceEntry := mkEntry { entry_id : string; value : T; revision : Z }.

Record ResourceTable := mkTable {
  by_id : gmap string ResourceEntry;
  by_name : gmap string string;
  wildcards : gmap string ResourceEntry;
  table_count : N;
  generation : N;
}.

Definition table_default : ResourceTable := mkTable ∅ ∅ ∅ 0 0.

(** The manual [Clone]: the count is re-seeded, the generation copied. *)
Definition table_clone (t : ResourceTable) : ResourceTable :=
  mkTable (by_id t) (by_name t) (wildcards t) (N.of_nat (size (by_id t))) (generation t).

Definition table_len (t : ResourceTable) : N := table_count t.
Definition table_is_empty (t : ResourceTable) : bool := table_len t =? 0.

(** [remove_if name (|_, v| v == id)] on the name index *)
Definition unname (n id : string) (m : gmap string string) : gmap string string :=
  if bool_decide (m !! n = Some id) then delete n m else m.

(** [bump_generation]: [next] is the process-wide counter. *)
Definition bump_generation (next : N) (t : ResourceTable) : ResourceTable * N :=
  (mkTable (by_id t) (by_name t) (wildcards t) (table_count t) next, next + 1).

Definition insert_arc (entry : ResourceEntry) (t : ResourceTable) (next : N)
    : ResourceTable * N :=
  let id := entry_id entry in
  let n := name (value entry) in
  let names :=
    match by_id t !! id with
    | Some old =>
        let old_name := name (value old) in
        if bool_decide (old_name = n) then by_name t else unname old_name id (by_name t)
    | None => by_name t
    end in
  let names := <[n := id]> names in
  let count := table_count t + 1 in
  let wild := if contains_star n then <[id := entry]> (wildcards t) else delete id (wildcards t) in
  let count := match by_id t !! id with Some _ => count - 1 | None => count end in
  bump_generation next (mkTable (<[id := entry]> (by_id t)) names wild count (generation t)).

Definition table_remove (id : string) (t : ResourceTable) (next : N)
    : option ResourceEntry * (ResourceTable * N) :=
  match by_id t !! id with
  | None => (None, (t, next))
  | Some entry =>
      (Some entry,
       bump_generation next
         (mkTable (delete id (by_id t)) (unname (name (value entry)) id (by_name t))
            (delete id (wildcards t)) (table_count t - 1) (generation t)))
  end.

Definition get_by_id (id : string) (t : ResourceTable) : option ResourceEntry := by_id t !! id.

Definition get_by_name (n : string) (t : ResourceTable) : option ResourceEntry :=
  id ← by_name t !! n; get_by_id id t.

Definition name_conflicts (n : string) (self_id : option string) (t : ResourceTable) : bool :=
  match by_name t !! n with
  | Some existing_id =>
      match self_id with
      | Some me => negb (bool_decide (existing_id = me))
      | None => true
      end
  | None => false
  end.

Definition rows (m : gmap string ResourceEntry) : list ResourceEntry :=
  (map_to_list m).*2.

Definition wildcard_entries (t : ResourceTable) : list ResourceEntry := rows (wildcards t).

Definition entries (t : ResourceTable) : list ResourceEntry :=
  if table_is_empty t then [] else rows (by_id t).

Definition matching_entries (pred : ResourceEntry -> bool) (t : ResourceTable)
    : list ResourceEntry :=
  if table_is_empty t then [] else List.filter pred (rows (by_id t)).

Definition table_any (pred : ResourceEntry -> bool) (t : ResourceTable) : bool :=
  negb (table_is_empty t) && existsb pred (rows (by_id t)).

(** The loop of [find_unique_by]. *)
Fixpoint unique_of (pred : ResourceEntry -> bool) (l : list ResourceEntry)
    (found : option ResourceEntry) : option ResourceEntry * bool :=
  match l with
  | [] => (found, false)
  | e :: l =>
      if negb (pred e) then unique_of pred l found
      else match found with
           | Some _ => (None, true)
           | None => unique_of pred l (Some e)
           end
  end.

Definition find_unique_by (pred : ResourceEntry -> bool) (t : ResourceTable)
    : option ResourceEntry * bool :=
  if table_is_empty t then (None, false) else unique_of pred (rows (by_id t)) None.

(** ** Well-formedness *)

Record table_wf (t : ResourceTable) : Prop := {
  wf_ids id e : by_id t !! id = Some e -> entry_id e = id;
  wf_names n id : by_name t !! n = Some id ->
    exists e, by_id t !! id = Some e /\ name (value e) = n;
  wf_wild id : wildcards t !! id =
    (e ← by_id t !! id; if contains_star (name (value e)) then Some e else None);
  wf_count : table_count t = N.of_nat (size (by_id t));
}.

Lemma unname_lookup n id m k :
  unname n id m !! k = if bool_decide (k = n /\ m !! n = Some id) then None else m !! k.
Proof.
  unfold unname. destruct (decide (m !! n = Some id)) as [H|H].
  - rewrite (bool_decide_true (_ = _)) by done. destruct (decide (k = n)) as [-> | Hk].
    + rewrite lookup_delete_eq. by rewrite bool_decide_true.
    + rewrite lookup_delete_ne by done. by rewrite bool_decide_false by tauto.
  - rewrite (bool_decide_false (_ = _)) by done. by rewrite bool_decide_false by tauto.
Qed.

Lemma table_default_wf : table_wf table_default.
Proof. split; try done; intros; by rewrite ?lookup_empty in *. Qed.

Lemma table_clone_wf t : table_wf t -> table_wf (table_clone t).
Proof. intros [H1 H2 H3 H4]. by split. Qed.

Lemma insert_arc_wf e t next : table_wf t -> table_wf (fst (insert_arc e t next)).
Proof.
  intros [H1 H2 H3 H4]. unfold insert_arc, bump_generation. simpl.
  split; cbn [by_id by_name wildcards table_count].
  - intros id e'. rewrite lookup_insert. case_decide as Hd; [by intros [= <-]|apply H1].
  - intros n id Hn. rewrite lookup_insert in Hn. case_decide as Hd.
    + injection Hn as <-. rewrite lookup_insert_eq. eauto.
    + assert (by_name t !! n = Some id /\
        (id = entry_id e -> forall old, by_id t !! entry_id e = Some old -> name (value old) <> n))
        as [Hl Hne].
      { destruct (by_id t !! entry_id e) as [old|] eqn:Eo.
        - destruct (bool_decide (name (value old) = name (value e))) eqn:Eb.
          + apply bool_decide_eq_true_1 in Eb. split; [done|]. intros _ o [= <-] ?. congruence.
          + rewrite unname_lookup in Hn. case_bool_decide as Hc; [done|]. split; [done|].
            intros -> o [= <-] ?. subst. tauto.
        - split; [done|]. congruence. }
      destruct (H2 _ _ Hl) as (e' & He' & Hname). exists e'. split; [|done].
      rewrite lookup_insert_ne; [done|]. intros <-. by eapply Hne.
  - intros id. destruct (decide (id = entry_id e)) as [-> | Hid].
    + rewrite lookup_insert_eq. simpl. destruct (contains_star _);
        [by rewrite lookup_insert_eq|by rewrite lookup_delete_eq].
    + rewrite (lookup_insert_ne (by_id t)) by done.
      destruct (contains_star _); [rewrite lookup_insert_ne by done|rewrite lookup_delete_ne by done];
        apply H3.
  - rewrite map_size_insert, H4. destruct (by_id t !! entry_id e) eqn:Eo; simpl; lia.
Qed.

Lemma table_remove_wf id t next : table_wf t -> table_wf (fst (snd (table_remove id t next))).
Proof.
  intros [H1 H2 H3 H4]. unfold table_remove. destruct (by_id t !! id) as [e|] eqn:Ee; [|by split].
  unfold bump_generation. simpl. split; cbn [by_id by_name wildcards table_count].
  - intros id' e'. rewrite lookup_delete. case_decide; [done|apply H1].
  - intros n id' Hn. rewrite unname_lookup in Hn. case_bool_decide as Hc; [done|].
    destruct (H2 _ _ Hn) as (e' & He' & Hname). exists e'. split; [|done].
    rewrite lookup_delete_ne; [done|]. intros <-. simplify_eq. tauto.
  - intros id'. destruct (decide (id' = id)) as [-> | Hid]; [by rewrite !lookup_delete_eq|].
    by rewrite !lookup_delete_ne.
  - rewrite map_size_delete, Ee, H4.
    assert (size (by_id t) <> 0)%nat.
    { rewrite map_size_ne_0_lookup. eauto. }
    lia.
Qed.

(** ** Guarded writes keep the name index exact *)

Inductive table_op :=
  | OpInsert (e : ResourceEntry)
  | OpRemove (id : string)
  | OpClone.

Definition table_exec (op : table_op) (t : ResourceTable) (next : N) : ResourceTable * N :=
  match op with
  | OpInsert e => insert_arc e t next
  | OpRemove id => snd (table_remove id t next)
  | OpClone => (table_clone t, next)
  end.

(** A write is made only when [name_conflicts] says no other row has the name. *)
Definition op_guarded (op : table_op) (t : ResourceTable) : Prop :=
  match op with
  | OpInsert e => name_conflicts (name (value e)) (Some (entry_id e)) t = false
  | _ => True
  end.

Inductive table_reachable (guarded : bool) : ResourceTable -> Prop :=
  | tr_default : table_reachable guarded table_default
  | tr_step t op next :
      table_reachable guarded t -> (guarded = true -> op_guarded op t) ->
      table_reachable guarded (fst (table_exec op t next)).

Lemma table_exec_wf op t next : table_wf t -> table_wf (fst (table_exec op t next)).
Proof. intros Hw. destruct op; [by apply insert_arc_wf|by apply table_remove_wf|by apply table_clone_wf]. Qed.

Lemma table_reachable_wf g t : table_reachable g t -> table_wf t.
Proof.
  induction 1 as [|t op next _ IH _]; [apply table_default_wf|by apply table_exec_wf].
Qed.

Definition names_exact (t : ResourceTable) : Prop :=
  forall id e, by_id t !! id = Some e -> by_name t !! name (value e) = Some id.

Lemma not_conflicting n id t id' :
  name_conflicts n (Some id) t = false -> by_name t !! n = Some id' -> id' = id.
Proof. unfold name_conflicts. intros H E. rewrite E in H. by case_bool_decide. Qed.

Lemma insert_names_exact e t next :
  table_wf t -> op_guarded (OpInsert e) t -> names_exact t ->
  names_exact (fst (insert_arc e t next)).
Proof.
  intros W Hg Hx id e'. unfold insert_arc, bump_generation. simpl.
  destruct (decide (id = entry_id e)) as [-> | Hid].
  - rewrite lookup_insert_eq. intros [= <-]. by rewrite lookup_insert_eq.
  - rewrite lookup_insert_ne by done. intros He'. pose proof (Hx _ _ He') as Hn.
    assert (name (value e) <> name (value e')) as Hne.
    { intros Heq. rewrite <- Heq in Hn. by apply Hid, (not_conflicting _ _ _ _ Hg). }
    rewrite lookup_insert_ne by done.
    destruct (by_id t !! entry_id e) as [old|] eqn:Eo; [|done].
    case_bool_decide; [done|]. rewrite unname_lookup. rewrite bool_decide_false; [done|].
    intros [Hold _]. pose proof (Hx _ _ Eo). congruence.
Qed.

Lemma remove_names_exact id t next :
  names_exact t -> names_exact (fst (snd (table_remove id t next))).
Proof.
  intros Hx id' e'. unfold table_remove. destruct (by_id t !! id) as [e|] eqn:Ee; [|apply Hx].
  unfold bump_generation. simpl. rewrite lookup_delete. case_decide; [done|]. intros He'.
  rewrite unname_lookup, bool_decide_false; [by apply Hx|].
  intros [Hn _]. pose proof (Hx _ _ He'). pose proof (Hx _ _ Ee). congruence.
Qed.

Lemma guarded_names_exact t : table_reachable true t -> names_exact t.
Proof.
  induction 1 as [|t op next Hr IH Hg]; [by intros ? ? ?|].
  pose proof (table_reachable_wf _ _ Hr) as W.
  destruct op; [by apply insert_names_exact; [| apply Hg|]|by apply remove_names_exact|done].
Qed.

(** C40. The two indices of a table agree.  After any writes, a name lookup
    only ever answers a row that is in the table under that very name, the
    wildcard rows are exactly the rows whose name has a star, and the cached
    count is the number of rows; and when every write passed
    [name_conflicts], a row is found by its name exactly when it is in the
    table. *)
Theorem table_indices_agree guarded t :
  table_reachable guarded t ->
  (forall n e, get_by_name n t = Some e ->
     get_by_id (entry_id e) t = Some e /\ name (value e) = n) /\
  (forall id e, wildcards t !! id = Some e <->
     get_by_id id t = Some e /\ contains_star (name (value e)) = true) /\
  table_len t = N.of_nat (length (entries t)) /\
  (guarded = true -> forall id e, get_by_id id t = Some e ->
     entry_id e = id /\ get_by_name (name (value e)) t = Some e).
Proof.
  intros R. destruct (table_reachable_wf _ _ R) as [H1 H2 H3 H4]. split_and!.
  - unfold get_by_name, get_by_id. intros n e. destruct (by_name t !! n) as [id|] eqn:En; [|done].
    simpl. intros He. destruct (H2 _ _ En) as (e' & He' & <-). simplify_eq.
    by rewrite (H1 _ _ He).
  - intros id e. rewrite H3. unfold get_by_id. destruct (by_id t !! id) as [e'|]; simpl;
      [|by split; [|intros [? _]]].
    destruct (contains_star (name (value e'))) eqn:Ec.
    + split; [by intros [= <-]|by intros [[= <-] _]].
    + split; [done|intros [[= <-] ?]; congruence].
  - unfold table_len, entries, table_is_empty, table_len, rows. destruct (table_count t =? 0) eqn:E.
    + by nbool.
    + by rewrite length_fmap, length_map_to_list.
  - intros -> id e He. split; [by apply H1|].
    unfold get_by_name. by rewrite (guarded_names_exact t R _ _ He).
Qed.

(** [find_unique_by] does not depend on the iteration order. *)
Lemma unique_of_spec pred l found :
  unique_of pred l found =
  match found, List.filter pred l with
  | None, [] => (None, false)
  | None, [e] => (Some e, false)
  | Some e, [] => (Some e, false)
  | _, _ => (None, true)
  end.
Proof.
  revert found. induction l as [|e l IH]; intros found; simpl; [by destruct found|].
  destruct (pred e); simpl; [|apply IH]. destruct found; [done|].
  rewrite IH. by destruct (List.filter pred l).
Qed.

(** [find_unique_by] fails closed: it answers a row exactly when that row
    is the only match, and says "ambiguous" exactly when several match,
    whatever order the map is walked in. *)
Theorem find_unique_by_spec pred t :
  match find_unique_by pred t with
  | (Some e, ambiguous) => ambiguous = false /\ matching_entries pred t = [e]
  | (None, false) => matching_entries pred t = []
  | (None, true) => (2 <= length (matching_entries pred t))%nat
  end.
Proof.
  unfold find_unique_by, matching_entries. destruct (table_is_empty t); [done|].
  rewrite unique_of_spec. destruct (List.filter pred _) as [|e [|e' l]]; simpl; [done|done|lia].
Qed.
End table.
Arguments ResourceEntry : clear implicits.
Arguments ResourceTable : clear implicits.

(** A name one row took from another and then gave up is unreachable, although
    the first row still has it: the name index keeps one id per name. *)
Lemma shadowed_name_lost :
  let e1 := mkEntry "a" "n" 1 in let e2 := mkEntry "b" "n" 2 in
  let '(t, g) := insert_arc id e1 table_default 1 in
  let '(t, g) := insert_arc id e2 t g in
  let '(_, (t, _)) := table_remove id "b" t g in
  get_by_id "a" t = Some e1 /\ get_by_name "n" t = None.
Proof. vm_compute. done. Qed.

Lemma table_indices_agree_witness :
  let e := mkEntry "a" "openai/*" 1 in
  let t := fst (insert_arc (T := string) id e table_default 1) in
  wildcard_entries t = [e] /\
  (forall n e, get_by_name n t = Some e -> get_by_id (entry_id e) t = Some e /\ id (value e) = n) /\
  (forall i e, wildcards t !! i = Some e <->
     get_by_id i t = Some e /\ contains_star (id (value e)) = true) /\
  table_len t = N.of_nat (length (entries t)) /\
  (true = true -> forall i e, get_by_id i t = Some e ->
     entry_id e = i /\ get_by_name (id (value e)) t = Some e).
Proof.
  split; [vm_compute; reflexivity|].
  apply (table_indices_agree (T := string) id true).
  apply (tr_step id true table_default (OpInsert (mkEntry "a" "openai/*" 1)) 1); [apply tr_default|].
  intros _. vm_compute. reflexivity.
Defined.

(** ** Generations

    All the tables of one kind alive in a process, and the process-wide stamp
    counter; a snapshot rebuild clones a table or starts an empty one, then
    writes to it. *)

Section generations.
Context {T : Type} (name : T -> string).

Record process := mkProcess { tables : list (ResourceTable T); next_generation : N }.

(** [fetch_add] on the counter is taken before it wraps. *)
Inductive process_step : process -> process -> Prop :=
  | ps_new ts g : process_step (mkProcess ts g) (mkProcess (table_default :: ts) g)
  | ps_clone ts g t : t ∈ ts -> process_step (mkProcess ts g) (mkProcess (table_clone t :: ts) g)
  | ps_write ts1 t ts2 g op t' g' :
      table_exec name op t g = (t', g') ->
      process_step (mkProcess (ts1 ++ t :: ts2) g) (mkProcess (ts1 ++ t' :: ts2) g').

(** What a cache derived from a table can read of it. *)
Definition same_rows (t t' : ResourceTable T) : Prop :=
  by_id t = by_id t' /\ by_name t = by_name t' /\ wildcards t = wildcards t'.

#[local] Instance same_rows_equiv : Equivalence same_rows.
Proof.
  split; [by intros t|by intros t t' (? & ? & ?)|].
  intros t t' t'' (E1 & E2 & E3) (F1 & F2 & F3). repeat split; congruence.
Qed.

Record process_ok (p : process) : Prop := {
  pok_next : 1 <= next_generation p;
  pok_old t : t ∈ tables p -> generation t < next_generation p;
  pok_same t t' : t ∈ tables p -> t' ∈ tables p -> generation t = generation t' -> same_rows t t';
  pok_zero t : t ∈ tables p -> generation t = 0 -> same_rows t table_default;
}.

Lemma table_exec_cases op t g t' g' :
  table_exec name op t g = (t', g') ->
  (g' = g /\ generation t' = generation t /\ same_rows t' t) \/ (g' = g + 1 /\ generation t' = g).
Proof.
  destruct op as [e|id|]; simpl.
  - unfold insert_arc, bump_generation. intros [= <- <-]. by right.
  - unfold table_remove, bump_generation. destruct (by_id t !! id); intros [= <- <-]; [by right|by left].
  - intros [= <- <-]. by left.
Qed.

Lemma process_ok_step p p' : process_step p p' -> process_ok p -> process_ok p'.
Proof.
  intros Hs [Hn Ho Hsame Hz]. destruct Hs as [ts g|ts g t Ht|ts1 t ts2 g op t' g' E]; simpl in *.
  - split; simpl; [done| | |].
    + intros t [-> | Ht]%elem_of_cons; [simpl; lia|by apply Ho].
    + intros t t' [-> | Ht]%elem_of_cons [-> | Ht']%elem_of_cons He; [done| |by apply Hz|by apply Hsame].
      symmetry. by apply Hz.
    + intros t [-> | Ht]%elem_of_cons He; [done|by apply Hz].
  - split; simpl; [done| | |].
    + intros t' [-> | Ht']%elem_of_cons; [by apply (Ho t)|by apply Ho].
    + intros u u' [-> | Hu]%elem_of_cons [-> | Hu']%elem_of_cons He; [done| | |by apply Hsame].
      * exact (Hsame t u' Ht Hu' He).
      * exact (Hsame u t Hu Ht He).
    + intros u [-> | Hu]%elem_of_cons He; [by apply (Hz t)|by apply Hz].
  - assert (forall u, u ∈ ts1 ++ t' :: ts2 -> u = t' \/ u ∈ ts1 ++ t :: ts2) as Hin.
    { intros u. rewrite !elem_of_app, !elem_of_cons. tauto. }
    assert (t ∈ ts1 ++ t :: ts2) as Ht by (rewrite elem_of_app, elem_of_cons; tauto).
    destruct (table_exec_cases _ _ _ _ _ E) as [(-> & Hg & Hr)|(-> & Hg)].
    + split; simpl; [done| | |].
      * intros u [-> | Hu]%Hin; [rewrite Hg; by apply (Ho t)|by apply Ho].
      * intros u u' [-> | Hu]%Hin [-> | Hu']%Hin He; [done| | |by apply Hsame].
        -- etrans; [exact Hr|]. apply (Hsame t u' Ht Hu'). congruence.
        -- etrans; [|symmetry; exact Hr]. apply (Hsame u t Hu Ht). congruence.
      * intros u [-> | Hu]%Hin He; [|by apply Hz]. rewrite Hg in He.
        etrans; [exact Hr|by apply (Hz t)].
    + split; simpl; [lia| | |].
      * intros u [-> | Hu]%Hin; [lia|]. specialize (Ho _ Hu). lia.
      * intros u u' [-> | Hu]%Hin [-> | Hu']%Hin He; [done| | |by apply Hsame].
        -- specialize (Ho _ Hu'). lia.
        -- specialize (Ho _ Hu). lia.
      * intros u [-> | Hu]%Hin He; [lia|by apply Hz].
Qed.

Lemma process_runs_ok p : rtc process_step (mkProcess [] 1) p -> process_ok p.
Proof.
  assert (process_ok (mkProcess [] 1)) as H0 by (split; simpl; [done|set_solver..]).
  intros R. induction R; eauto using process_ok_step.
Qed.

Lemma process_step_wf p p' :
  process_step p p' -> (forall t, t ∈ tables p -> table_wf name t) -> forall t, t ∈ tables p' -> table_wf name t.
Proof.
  intros Hs Hw. destruct Hs as [ts g|ts g t Ht|ts1 t ts2 g op t' g' E]; simpl in *.
  - intros t [-> | Ht]%elem_of_cons; [apply table_default_wf|by apply Hw].
  - intros u [-> | Hu]%elem_of_cons; [by apply table_clone_wf, Hw|by apply Hw].
  - intros u [Hu|[-> | Hu]%elem_of_cons]%elem_of_app; [set_solver| |set_solver].
    replace t' with (fst (table_exec name op t g)) by (by rewrite E).
    apply table_exec_wf, Hw. set_solver.
Qed.

(** Every table of a run is well formed. *)
Lemma process_tables_wf p :
  rtc process_step (mkProcess [] 1) p -> forall t, t ∈ tables p -> table_wf name t.
Proof.
  assert (forall t, t ∈ tables (mkProcess [] 1) -> table_wf name t) as H0 by (intros t []%elem_of_nil).
  intros R. induction R; eauto using process_step_wf.
Qed.

(** A generation identifies the rows it stamps: in every run of the
    process, two tables with the same generation, whichever snapshot they
    belong to, have the same rows and indices, so a cache keyed on the
    generation is never stale. *)
Theorem generation_identifies_rows p :
  rtc process_step (mkProcess [] 1) p ->
  forall t t', t ∈ tables p -> t' ∈ tables p -> generation t = generation t' -> same_rows t t'.
Proof. intros R. apply (process_runs_ok _ R). Qed.
End generations.

Lemma generation_identifies_rows_witness :
  let t := fst (insert_arc (T := string) id (mkEntry "a" "n" 1) table_default 1) in
  let p := mkProcess [table_clone t; t] 2 in
  (generation <$> tables p) = [1; 1] /\
  forall u u', u ∈ tables p -> u' ∈ tables p -> generation u = generation u' -> same_rows u u'.
Proof.
  split; [vm_compute; reflexivity|]. apply (generation_identifies_rows (T := string) id).
  eapply rtc_l; [apply ps_new|]. eapply rtc_l.
  { apply (ps_write id [] table_default [] 1 (OpInsert (mkEntry "a" "n" 1))). reflexivity. }
  eapply rtc_l; [|apply rtc_refl]. apply ps_clone. by left.
Defined.

(** ** Publication *)

Inductive moment := Immediate | BeforePublish | AfterPublish.

(** A callback: which listener, the version it was given, the version a reader
    could load at that moment. *)
Record delivery := mkDelivery { listener : nat; delivered : N; visible : N; when : moment }.

Section handle.
Context {V : Type}.

Record SnapshotHandle := mkHandle {
  version : N;
  snapshot : V;
  before_publish_callbacks : list nat;
  callbacks : list nat;
  watch_version : N;
  trace : list delivery;
}.

Definition handle_new (initial : V) : SnapshotHandle := mkHandle 0 initial [] [] 0 [].
Definition load (h : SnapshotHandle) : V := snapshot h.
Definition load_versioned (h : SnapshotHandle) : N * V := (version h, snapshot h).

Definition notify (ls : list nat) (v visible : N) (m : moment) : list delivery :=
  (fun l => mkDelivery l v visible m) <$> ls.

Definition subscribe_after_publish (l : nat) (h : SnapshotHandle) : SnapshotHandle :=
  mkHandle (version h) (snapshot h) (before_publish_callbacks h) (callbacks h ++ [l])
    (watch_version h) (trace h ++ [mkDelivery l (version h) (version h) Immediate]).

Definition subscribe_before_publish (l : nat) (h : SnapshotHandle) : SnapshotHandle :=
  mkHandle (version h) (snapshot h) (before_publish_callbacks h ++ [l]) (callbacks h)
    (watch_version h) (trace h ++ [mkDelivery l (version h) (version h) Immediate]).

(** Runs under the publication lock. *)
Definition publish (s : V) (h : SnapshotHandle) : SnapshotHandle :=
  let v := wrap64 (version h + 1) in
  mkHandle v s (before_publish_callbacks h) (callbacks h) v
    (trace h ++ notify (before_publish_callbacks h) v (version h) BeforePublish
             ++ notify (callbacks h) v v AfterPublish).

Definition store_snapshot (s : V) (h : SnapshotHandle) : SnapshotHandle := publish s h.
Definition rcu (f : V -> V) (h : SnapshotHandle) : SnapshotHandle := publish (f (snapshot h)) h.

Inductive handle_step : SnapshotHandle -> SnapshotHandle -> Prop :=
  | hs_after l h : l ∉ callbacks h -> l ∉ before_publish_callbacks h ->
      Forall (fun d => listener d <> l) (trace h) ->
      handle_step h (subscribe_after_publish l h)
  | hs_before l h : l ∉ callbacks h -> l ∉ before_publish_callbacks h ->
      Forall (fun d => listener d <> l) (trace h) ->
      handle_step h (subscribe_before_publish l h)
  | hs_store s h : version h + 1 < 2 ^ 64 -> handle_step h (store_snapshot s h)
  | hs_rcu f h : version h + 1 < 2 ^ 64 -> handle_step h (rcu f h).

(** What listener [l] was given, in order. *)
Definition seen (l : nat) (tr : list delivery) : list N :=
  delivered <$> filter (fun d => listener d = l) tr.

Definition consecutive (vs : list N) : Prop :=
  forall i v v', vs !! i = Some v -> vs !! S i = Some v' -> v' = v + 1.

Lemma consecutive_snoc vs a : consecutive vs -> last vs = Some a -> consecutive (vs ++ [a + 1]).
Proof.
  intros Hc Hl i v v' Hi Hs. assert (i < length vs)%nat as Hlt.
  { apply lookup_lt_Some in Hs. rewrite length_app in Hs. simpl in Hs. lia. }
  rewrite lookup_app_l in Hi by done. destruct (decide (S i < length vs)%nat) as [H|H].
  - rewrite lookup_app_l in Hs by done. by eapply Hc.
  - rewrite lookup_app_r in Hs by lia. replace (S i - length vs)%nat with 0%nat in Hs by lia.
    injection Hs as <-. rewrite last_lookup in Hl. replace (pred (length vs)) with i in Hl by lia.
    congruence.
Qed.

Lemma seen_app l a b : seen l (a ++ b) = seen l a ++ seen l b.
Proof. unfold seen. by rewrite filter_app, fmap_app. Qed.

Lemma seen_notify l ls v x m :
  NoDup ls -> seen l (notify ls v x m) = if decide (l ∈ ls) then [v] else [].
Proof.
  unfold seen, notify. induction 1 as [|k ls Hk _ IH]; [by rewrite decide_False by set_solver|].
  rewrite fmap_cons, filter_cons. simpl. destruct (decide (k = l)) as [-> | Hne].
  - rewrite fmap_cons, IH. simpl. rewrite (decide_False (P := l ∈ ls)) by done.
    by rewrite decide_True by set_solver.
  - rewrite IH. apply decide_ext. set_solver.
Qed.

Definition subscribed (h : SnapshotHandle) : list nat := callbacks h ++ before_publish_callbacks h.

Record handle_ok (h : SnapshotHandle) : Prop := {
  hok_nodup : NoDup (subscribed h);
  hok_watch : watch_version h = version h;
  hok_last l : l ∈ subscribed h ->
    last (seen l (trace h)) = Some (version h) /\ consecutive (seen l (trace h));
  hok_none l : l ∉ subscribed h -> seen l (trace h) = [];
  hok_when d : d ∈ trace h ->
    delivered d = match when d with BeforePublish => visible d + 1 | _ => visible d end;
}.

Lemma consecutive_one v : consecutive [v].
Proof. intros i a b Ha Hb. by destruct i. Qed.

Lemma subscribe_ok l h h' :
  handle_ok h -> l ∉ subscribed h -> version h' = version h -> watch_version h' = watch_version h ->
  subscribed h' ≡ₚ l :: subscribed h ->
  trace h' = trace h ++ [mkDelivery l (version h) (version h) Immediate] -> handle_ok h'.
Proof.
  intros [Hn Hw Hl He Hd] Hf Hv Hw' Hp Ht. split.
  - rewrite Hp. by constructor.
  - congruence.
  - intros k. rewrite Hp, Ht, Hv, seen_app. intros [-> | Hk]%elem_of_cons.
    + rewrite (He l Hf). unfold seen. rewrite filter_cons_True by done. simpl.
      split; [done|apply consecutive_one].
    + assert (k <> l) as Hne by (by intros ->). unfold seen at 2 4.
      rewrite filter_cons_False by done. simpl. rewrite app_nil_r. by apply Hl.
  - intros k. rewrite Hp, not_elem_of_cons, Ht, seen_app. intros [Hne Hk]. rewrite (He k Hk).
    unfold seen. by rewrite filter_cons_False by done.
  - intros d. rewrite Ht, elem_of_app, list_elem_of_singleton. intros [H| ->]; [by apply Hd|done].
Qed.

Lemma publish_ok s h : handle_ok h -> version h + 1 < 2 ^ 64 -> handle_ok (publish s h).
Proof.
  intros [Hn Hw Hl He Hd] Hv.
  assert (wrap64 (version h + 1) = version h + 1) as Hv1 by (by apply N.mod_small).
  pose proof Hn as Hn'. unfold subscribed in Hn'. apply NoDup_app in Hn' as (Hc & Hx & Hb).
  assert (forall l, seen l (trace (publish s h)) = seen l (trace h) ++
    (if decide (l ∈ subscribed h) then [version h + 1] else [])) as Hseen.
  { intros l. unfold publish. cbn [trace]. rewrite Hv1, !seen_app, !seen_notify by done. f_equal.
    unfold subscribed. destruct (decide (l ∈ before_publish_callbacks h)), (decide (l ∈ callbacks h));
      rewrite ?decide_True by (rewrite elem_of_app; tauto);
      rewrite ?decide_False by (rewrite elem_of_app; tauto); try done. exfalso. by eapply Hx. }
  split; [exact Hn|unfold publish; done| | |].
  - intros l Hin. rewrite Hseen, decide_True by done. destruct (Hl l Hin) as [Hlast Hcons].
    split; [unfold publish; cbn [version]; by rewrite last_snoc, Hv1|by apply consecutive_snoc].
  - intros l Hin. rewrite Hseen, decide_False, app_nil_r by done. by apply He.
  - intros d. unfold publish. cbn [trace]. rewrite !elem_of_app. unfold notify.
    rewrite !list_elem_of_fmap. intros [H|[(l & -> & _)|(l & -> & _)]]; simpl; [by apply Hd|by rewrite Hv1|done].
Qed.

(** Publication is ordered.  In every run: a listener is given its
    starting version and then every later version exactly once, in order, up
    to the current one; a before-publish callback is given version [N] while a
    reader still loads [N - 1], an after-publish callback while a reader loads
    [N]; and the watch channel carries the version a reader loads. *)
Theorem publication_ordered initial h l :
  rtc handle_step (handle_new initial) h ->
  l ∈ subscribed h ->
  last (seen l (trace h)) = Some (version h) /\ consecutive (seen l (trace h)) /\
  watch_version h = version h /\
  forall d, d ∈ trace h ->
    delivered d = match when d with BeforePublish => visible d + 1 | _ => visible d end.
Proof.
  intros R Hin. enough (handle_ok h) as [Hn Hw Hl He Hd] by (destruct (Hl l Hin); auto).
  assert (handle_ok (handle_new initial)) as H0 by (split; simpl; [constructor|set_solver..]).
  clear Hin. induction R as [|h1 h2 h3 Hs _ IH]; [done|]. apply IH. clear IH.
  destruct Hs as [k h Hk1 Hk2 _|k h Hk1 Hk2 _|s h Hv|f h Hv].
  - apply (subscribe_ok k h); unfold subscribed; simpl; try done; [set_solver|].
    solve_Permutation.
  - apply (subscribe_ok k h); unfold subscribed; simpl; try done; [set_solver|].
    solve_Permutation.
  - by apply publish_ok.
  - by apply publish_ok.
Qed.
End handle.

Lemma publication_ordered_witness :
  let h := store_snapshot 7 (subscribe_before_publish 3%nat (rcu (fun n => n + 1)
             (subscribe_after_publish 5%nat (handle_new 0)))) in
  seen 5 (trace h) = [0; 1; 2] /\
  last (seen 5 (trace h)) = Some (version h) /\ consecutive (seen 5 (trace h)) /\
  watch_version h = version h /\
  forall d, d ∈ trace h ->
    delivered d = match when d with BeforePublish => visible d + 1 | _ => visible d end.
Proof.
  split; [vm_compute; reflexivity|].
  apply (publication_ordered 0 _ 5).
  - eapply rtc_l; [apply (hs_after 5); [set_solver..|constructor]|].
    eapply rtc_l; [apply hs_rcu; vm_compute; reflexivity|].
    eapply rtc_l; [apply (hs_before 3); [set_solver..|repeat constructor; done]|].
    eapply rtc_l; [apply (hs_store 7); vm_compute; reflexivity|]. apply rtc_refl.
  - vm_compute. left.
Defined.
