(* ===== verification/F64.v ===== *)
(** * IEEE 754 doubles

    What the gateway uses of Rust's [f64]: arithmetic rounded to nearest even,
    conversion from integers, and the total order of [f64::total_cmp].  A double
    is the standard library's [spec_float] at precision 53. *)

From S2P Require Import Prelude.
From Stdlib Require Import ZArith SpecFloat.
Local Open Scope Z_scope.

Abbreviation f64 := spec_float.

Definition f64_prec : Z := 53.
Definition f64_emax : Z := 1024.

Definition f64_add : f64 -> f64 -> f64 := SFadd f64_prec f64_emax.
Definition f64_sub : f64 -> f64 -> f64 := SFsub f64_prec f64_emax.
Definition f64_mul : f64 -> f64 -> f64 := SFmul f64_prec f64_emax.
Definition f64_div : f64 -> f64 -> f64 := SFdiv f64_prec f64_emax.

(** [n as f64] *)
Definition f64_of_N (n : N) : f64 := binary_normalize f64_prec f64_emax (Z.of_N n) 0 false.

Definition f64_infinity : f64 := S754_infinity false.
Definition f64_neg_infinity : f64 := S754_infinity true.

(** The magnitude bits of the encoding, as an integer. *)
Definition f64_magnitude (x : f64) : Z :=
  match x with
  | S754_zero _ => 0
  | S754_finite _ m e => (e + 1074) * 2 ^ 52 + Zpos m
  | S754_infinity _ => 2047 * 2 ^ 52
  | S754_nan => 2047 * 2 ^ 52 + 2 ^ 51
  end.

Definition f64_sign (x : f64) : bool :=
  match x with
  | S754_zero s | S754_finite s _ _ | S754_infinity s => s
  | S754_nan => false
  end.

(** The signed integer [total_cmp] compares. *)
Definition total_key (x : f64) : Z :=
  if f64_sign x then - f64_magnitude x - 1 else f64_magnitude x.

(** [a.total_cmp(&b) != Greater] *)
Definition total_leb (a b : f64) : bool := total_key a <=? total_key b.

Definition is_finite (x : f64) : bool :=
  match x with S754_zero _ | S754_finite _ _ _ => true | _ => false end.

Definition f64_positive (x : f64) : bool :=
  match x with S754_finite false _ _ | S754_infinity false => true | _ => false end.

(** [f64::from_bits], and the exact widening of [f32::from_bits]. *)
Definition f64_from_fields (mant_bits : N) (sign : bool) (exp mant : N) : f64 :=
  let bias : Z := if (mant_bits =? 52)%N then 1023 else 127 in
  let max_exp : N := if (mant_bits =? 52)%N then 2047%N else 255%N in
  if (exp =? max_exp)%N then (if (mant =? 0)%N then S754_infinity sign else S754_nan)
  else
    let '(m, e) := if (exp =? 0)%N then (Z.of_N mant, 1 - bias - Z.of_N mant_bits)
                   else (Z.of_N mant + 2 ^ Z.of_N mant_bits, Z.of_N exp - bias - Z.of_N mant_bits) in
    match m with
    | Z0 => S754_zero sign
    | _ => binary_normalize f64_prec f64_emax (if sign then - m else m) e sign
    end.

Lemma total_leb_total x y : total_leb x y = true \/ total_leb y x = true.
Proof. unfold total_leb. lia. Qed.

Lemma total_leb_trans x y z : total_leb x y = true -> total_leb y z = true -> total_leb x z = true.
Proof. unfold total_leb. lia. Qed.
