(* ===== verification/Policy.v ===== *)
(** * Rate-limit policies

    [crates/aisix-core/src/models/policy_conditions.rs], [rate_limit_policy.rs],
    [tags.rs] and [crates/aisix-proxy/src/policy_index.rs]: the condition tree a
    policy matches requests with, its validation, the suspension windows, and
    the index that narrows the policies a request is checked against.

    The regular-expression engine, the parser of [f64] and the calendar are
    arguments: [regex ci pattern] is [None] where the pattern does not compile,
    a time zone turns an instant into a local day number and minute of the
    day.  The process-wide cache of compiled patterns is not modelled; it
    returns what compiling returns. *)

From Stdlib Require Import SpecFloat ZifyBool ZifyN.
From stdpp Require Import countable list.
From S2P Require Import Prelude Sort Snapshot RateStore F64.
Local Open Scope N_scope.

(** ** Dimensions *)

Inductive PolicyDimension :=
  | DimTeam | DimMember | DimApiKey | DimModel | DimModelName | DimProvider
  | DimTag (key : string).

#[export] Instance PolicyDimension_eq_dec : EqDecision PolicyDimension.
Proof. solve_decision. Defined.

#[export] Instance PolicyDimension_countable : Countable PolicyDimension.
Proof.
  refine (inj_countable'
    (fun d => match d with
              | DimTeam => (0%nat, "") | DimMember => (1%nat, "") | DimApiKey => (2%nat, "")
              | DimModel => (3%nat, "") | DimModelName => (4%nat, "") | DimProvider => (5%nat, "")
              | DimTag key => (6%nat, key)
              end)
    (fun p => match p with
              | (0%nat, _) => DimTeam | (1%nat, _) => DimMember | (2%nat, _) => DimApiKey
              | (3%nat, _) => DimModel | (4%nat, _) => DimModelName | (5%nat, _) => DimProvider
              | (_, key) => DimTag key
              end) _).
  by intros [].
Defined.

Definition TAG_PREFIX : string := "tag:".

Definition is_ascii_lowercase (a : Ascii.ascii) : bool :=
  (97 <=? Ascii.N_of_ascii a) && (Ascii.N_of_ascii a <=? 122).
Definition is_ascii_digit (a : Ascii.ascii) : bool :=
  (48 <=? Ascii.N_of_ascii a) && (Ascii.N_of_ascii a <=? 57).

Definition tag_key_char (a : Ascii.ascii) : bool :=
  is_ascii_lowercase a || is_ascii_digit a || (Ascii.N_of_ascii a =? 95).

Definition is_valid_tag_key (key : string) : bool :=
  match String.list_ascii_of_string key with
  | [] => false
  | a :: chars => is_ascii_lowercase a && (String.length key <=? 63)%nat && forallb tag_key_char chars
  end.

(** [str::strip_prefix] *)
Fixpoint strip_prefix (prefix s : string) : option string :=
  match prefix, s with
  | EmptyString, _ => Some s
  | String a prefix, String b s => if bool_decide (a = b) then strip_prefix prefix s else None
  | String _ _, EmptyString => None
  end.

Definition parse_tag_dimension (name : string) : option string :=
  key ← strip_prefix TAG_PREFIX name;
  if is_valid_tag_key key then Some key else None.

Definition dimension_name (d : PolicyDimension) : string :=
  match d with
  | DimTeam => "team"
  | DimMember => "member"
  | DimApiKey => "api_key"
  | DimModel => "model"
  | DimModelName => "model_name"
  | DimProvider => "provider"
  | DimTag key => TAG_PREFIX +:+ key
  end.

Definition is_identity (d : PolicyDimension) : bool :=
  match d with DimTeam | DimMember | DimApiKey | DimModel => true | _ => false end.

Definition is_model_property (d : PolicyDimension) : bool :=
  match d with DimModel | DimModelName | DimProvider => true | _ => false end.

(** [from_str]; the error is the unknown name. *)
Definition dimension_from_str (name : string) : result PolicyDimension string :=
  if bool_decide (name = "team") then ROk DimTeam
  else if bool_decide (name = "member") then ROk DimMember
  else if bool_decide (name = "api_key") then ROk DimApiKey
  else if bool_decide (name = "model") then ROk DimModel
  else if bool_decide (name = "model_name") then ROk DimModelName
  else if bool_decide (name = "provider") then ROk DimProvider
  else match parse_tag_dimension name with
       | Some key => ROk (DimTag key)
       | None => RErr name
       end.

Inductive GroupByDimension :=
  | ByTeam | ByMember | ByApiKey | ByModel | ByProvider | ByTag (key : string).

#[export] Instance GroupByDimension_eq_dec : EqDecision GroupByDimension.
Proof. solve_decision. Defined.

Definition group_by_name (d : GroupByDimension) : string :=
  match d with
  | ByTeam => "team"
  | ByMember => "member"
  | ByApiKey => "api_key"
  | ByModel => "model"
  | ByProvider => "provider"
  | ByTag key => TAG_PREFIX +:+ key
  end.

Definition canonical_rank (d : GroupByDimension) : N * string :=
  match d with
  | ByTeam => (0, "")
  | ByMember => (1, "")
  | ByApiKey => (2, "")
  | ByModel => (3, "")
  | ByProvider => (4, "")
  | ByTag key => (5, key)
  end.

Definition group_by_from_str (name : string) : result GroupByDimension string :=
  if bool_decide (name = "team") then ROk ByTeam
  else if bool_decide (name = "member") then ROk ByMember
  else if bool_decide (name = "api_key") then ROk ByApiKey
  else if bool_decide (name = "model") then ROk ByModel
  else if bool_decide (name = "provider") then ROk ByProvider
  else match parse_tag_dimension name with
       | Some key => ROk (ByTag key)
       | None => RErr name
       end.

(** ** The condition tree *)

Inductive ConditionOperator :=
  OpEq | OpNe | OpRegex | OpRegexCi | OpIn | OpHas | OpGt | OpGe | OpLt | OpLe | OpIpMatch.

#[export] Instance ConditionOperator_eq_dec : EqDecision ConditionOperator.
Proof. solve_decision. Defined.

Definition takes_list (op : ConditionOperator) : bool :=
  match op with OpIn | OpHas | OpIpMatch => true | _ => false end.

Definition admitted_by (op : ConditionOperator) (d : PolicyDimension) : bool :=
  match op with
  | OpEq | OpNe | OpIn => true
  | OpRegex | OpRegexCi => negb (is_identity d)
  | OpHas | OpGt | OpGe | OpLt | OpLe | OpIpMatch => false
  end.

Inductive ConditionLogic := LogicAnd | LogicOr.

Inductive ConditionValue := One (v : string) | Many (vs : list string).

Record PolicyCondition := mkCondition {
  cond_dimension : PolicyDimension;
  operator : ConditionOperator;
  cond_negate : bool;
  cond_value : ConditionValue;
}.

(** [ConditionGroup] is the second constructor. *)
#[warnings="-register-all"] Inductive ConditionNode :=
  | Leaf (leaf : PolicyCondition)
  | Group (logic : ConditionLogic) (negate : bool) (children : list ConditionNode).

Definition MAX_CONDITION_DEPTH : nat := 3.
Definition MAX_CONDITION_LEAVES : nat := 16.
Definition MAX_CONDITION_VALUES : nat := 64.
Definition MAX_CONDITION_REGEX_LEN : nat := 256.

(** The messages of a rejected tree, with what they print. *)
Inductive condition_error :=
  | CeTooManyLeaves (leaves : nat)
  | CeTooDeep
  | CeEmptyGroup
  | CeOperator (d : PolicyDimension) (op : ConditionOperator)
  | CeWantsList (d : PolicyDimension) (op : ConditionOperator)
  | CeWantsString (d : PolicyDimension) (op : ConditionOperator)
  | CeListLength (d : PolicyDimension)
  | CeEmptyItem (d : PolicyDimension)
  | CeEmptyValue (d : PolicyDimension)
  | CeRegexTooLong (d : PolicyDimension)
  | CeRegex (d : PolicyDimension) (pattern : string).

(** ** Requests *)

Record ConditionInput := mkInput {
  in_team : option string;
  in_member : option string;
  in_api_key : option string;
  in_model : option string;
  in_model_name : option string;
  in_provider : option string;
  in_parent_model : option string;
  in_parent_model_name : option string;
  in_tags : option (gmap string string);
}.

Definition input_tag (i : ConditionInput) (key : string) : option string :=
  in_tags i ≫= fun tags => tags !! key.

Definition input_get (i : ConditionInput) (d : PolicyDimension) : option string :=
  match d with
  | DimTeam => in_team i
  | DimMember => in_member i
  | DimApiKey => in_api_key i
  | DimModel => in_model i
  | DimModelName => in_model_name i
  | DimProvider => in_provider i
  | DimTag key => input_tag i key
  end.

Definition routing_parent (i : ConditionInput) (d : PolicyDimension) : option string :=
  match d with
  | DimModel => in_parent_model i
  | DimModelName => in_parent_model_name i
  | _ => None
  end.

Definition get_group_by (i : ConditionInput) (d : GroupByDimension) : option string :=
  match d with
  | ByTeam => in_team i
  | ByMember => in_member i
  | ByApiKey => in_api_key i
  | ByModel => in_model i
  | ByProvider => in_provider i
  | ByTag key => input_tag i key
  end.

(** ** Evaluation and validation *)

Section regex.
Context (regex : bool -> string -> option (string -> bool)).
Context (parse_f64 : string -> option f64).

Definition compiled_regex (pattern : string) (case_insensitive : bool) : option (string -> bool) :=
  regex case_insensitive pattern.

Definition is_match (pattern : string) (case_insensitive : bool) (var : string) : bool :=
  match compiled_regex pattern case_insensitive with Some re => re var | None => false end.

Definition compare_f64 (op : ConditionOperator) (var v : string) : bool :=
  match parse_f64 var, parse_f64 v with
  | Some l, Some r =>
      match op with
      | OpGt => SFltb r l
      | OpGe => SFleb r l
      | OpLt => SFltb l r
      | _ => SFleb l r
      end
  | _, _ => false
  end.

Definition eval_operator (leaf : PolicyCondition) (var : string) : bool :=
  match operator leaf, cond_value leaf with
  | OpEq, One v => bool_decide (var = v)
  | OpNe, One v => bool_decide (var <> v)
  | OpIn, Many items => existsb (fun item => bool_decide (item = var)) items
  | OpRegex, One pattern => is_match pattern false var
  | OpRegexCi, One pattern => is_match pattern true var
  | (OpGt | OpGe | OpLt | OpLe) as op, One v => compare_f64 op var v
  | _, _ => false
  end.

Definition eval_leaf (i : ConditionInput) (leaf : PolicyCondition) : bool :=
  match input_get i (cond_dimension leaf) with
  | None => false
  | Some var =>
      let parent := routing_parent i (cond_dimension leaf) in
      let raw :=
        if bool_decide (operator leaf = OpNe) then
          eval_operator leaf var
          && match parent with Some p => eval_operator leaf p | None => true end
        else
          eval_operator leaf var
          || match parent with Some p => eval_operator leaf p | None => false end in
      xorb raw (cond_negate leaf)
  end.

Fixpoint eval_node (i : ConditionInput) (node : ConditionNode) : bool :=
  match node with
  | Leaf leaf => eval_leaf i leaf
  | Group logic negate children =>
      let raw :=
        match logic with
        | LogicAnd => forallb (eval_node i) children
        | LogicOr => existsb (eval_node i) children
        end in
      xorb raw negate
  end.

Definition eval_condition_nodes (nodes : list ConditionNode) (i : ConditionInput) : bool :=
  forallb (eval_node i) nodes.

Definition is_regex_op (op : ConditionOperator) : bool :=
  match op with OpRegex | OpRegexCi => true | _ => false end.

Definition validate_leaf (leaf : PolicyCondition) : result unit condition_error :=
  let d := cond_dimension leaf in
  let op := operator leaf in
  if negb (admitted_by op d) then RErr (CeOperator d op)
  else
    match cond_value leaf, takes_list op with
    | One _, true => RErr (CeWantsList d op)
    | Many _, false => RErr (CeWantsString d op)
    | Many items, true =>
        if (length items =? 0)%nat || (MAX_CONDITION_VALUES <? length items)%nat
        then RErr (CeListLength d)
        else if existsb (fun item => bool_decide (item = "")) items then RErr (CeEmptyItem d)
        else ROk tt
    | One v, false =>
        if bool_decide (v = "") then RErr (CeEmptyValue d)
        else if is_regex_op op then
          if (MAX_CONDITION_REGEX_LEN <? String.length v)%nat then RErr (CeRegexTooLong d)
          else if is_none (compiled_regex v (bool_decide (op = OpRegexCi))) then RErr (CeRegex d v)
          else ROk tt
        else ROk tt
    end.

(** Threads the count of leaves; an error stops the walk. *)
Fixpoint validate_node (depth : nat) (node : ConditionNode) (leaves : nat)
    : result nat condition_error :=
  if (MAX_CONDITION_DEPTH <? depth)%nat then RErr CeTooDeep
  else
    match node with
    | Leaf leaf =>
        match validate_leaf leaf with
        | ROk _ => ROk (S leaves)
        | RErr e => RErr e
        end
    | Group _ _ children =>
        match children with
        | [] => RErr CeEmptyGroup
        | _ =>
            fold_left
              (fun acc child =>
                 match acc with
                 | ROk leaves => validate_node (S depth) child leaves
                 | RErr e => RErr e
                 end) children (ROk leaves)
        end
    end.

Definition validate_nodes (depth : nat) (nodes : list ConditionNode) (leaves : nat)
    : result nat condition_error :=
  fold_left
    (fun acc node => match acc with ROk leaves => validate_node depth node leaves | RErr e => RErr e end)
    nodes (ROk leaves).

Definition validate_condition_nodes (nodes : list ConditionNode) : result unit condition_error :=
  match validate_nodes 1 nodes 0 with
  | RErr e => RErr e
  | ROk leaves =>
      if (MAX_CONDITION_LEAVES <? leaves)%nat then RErr (CeTooManyLeaves leaves) else ROk tt
  end.
End regex.

(** ** Policies *)

Inductive PolicyScope := PsApiKey | PsModel | PsTeam | PsMember | PsTeamMember.
#[export] Instance PolicyScope_eq_dec : EqDecision PolicyScope.
Proof. solve_decision. Defined.

Definition scope_as_str (s : PolicyScope) : string :=
  match s with
  | PsApiKey => "api_key"
  | PsModel => "model"
  | PsTeam => "team"
  | PsMember => "member"
  | PsTeamMember => "team_member"
  end.

Inductive PolicyWindow := WinSecond | WinMinute | WinHour | WinDay.
#[export] Instance PolicyWindow_eq_dec : EqDecision PolicyWindow.
Proof. solve_decision. Defined.

Definition window_as_str (w : PolicyWindow) : string :=
  match w with
  | WinSecond => "second"
  | WinMinute => "minute"
  | WinHour => "hour"
  | WinDay => "day"
  end.

Inductive ScheduleWeekday := Mon | Tue | Wed | Thu | Fri | Sat | Sun.
#[export] Instance ScheduleWeekday_eq_dec : EqDecision ScheduleWeekday.
Proof. solve_decision. Defined.

Record PolicySchedule := mkSchedule {
  timezone : string;
  days_of_week : list ScheduleWeekday;
  dates : list string;
  start_time : string;
  end_time : string;
}.

Inductive PolicyAction := ActionReject.

Record RateLimitPolicy := mkPolicy {
  pol_name : string;
  pol_scope : option PolicyScope;
  scope_ref : option string;
  pol_window : option PolicyWindow;
  max_requests : option N;
  max_tokens : option N;
  max_spend_micro_usd : option N;
  pol_granted : option N;
  conditions : option (list ConditionNode);
  group_by : option (list GroupByDimension);
  pol_limits : option RateLimit;
  action : option PolicyAction;
  schedules : list PolicySchedule;
}.

(** [Resource::name] *)
Definition resource_name (p : RateLimitPolicy) : string := default (pol_name p) (scope_ref p).

Definition is_conditional (p : RateLimitPolicy) : bool := negb (is_none (pol_limits p)).

Fixpoint node_refs (node : ConditionNode) : bool :=
  match node with
  | Leaf leaf => is_model_property (cond_dimension leaf)
  | Group _ _ children => existsb node_refs children
  end.

Definition is_model_split (d : GroupByDimension) : bool :=
  match d with ByModel | ByProvider => true | _ => false end.

Definition references_model_property (p : RateLimitPolicy) : bool :=
  match conditions p with Some nodes => existsb node_refs nodes | None => false end
  || match group_by p with Some dims => existsb is_model_split dims | None => false end.

Inductive policy_error :=
  | PolMixedForms
  | PolNoLimits
  | PolEmptyLimits
  | PolConditions (e : condition_error)
  | PolRepeatedDimension (d : GroupByDimension)
  | PolNoScope
  | PolNoWindow
  | PolNoCeiling.

(** The first dimension [group_by] repeats. *)
Fixpoint repeated (dims seen : list GroupByDimension) : option GroupByDimension :=
  match dims with
  | [] => None
  | d :: dims => if bool_decide (d ∈ seen) then Some d else repeated dims (seen ++ [d])
  end.

Definition has_classic_field (p : RateLimitPolicy) : bool :=
  negb (is_none (pol_scope p)) || negb (is_none (scope_ref p)) || negb (is_none (pol_window p))
  || negb (is_none (max_requests p)) || negb (is_none (max_tokens p))
  || negb (is_none (max_spend_micro_usd p)).

Definition has_conditional_field (p : RateLimitPolicy) : bool :=
  negb (is_none (conditions p)) || negb (is_none (group_by p)) || negb (is_none (pol_limits p))
  || negb (is_none (action p)).

Definition validate_semantics (regex : bool -> string -> option (string -> bool))
    (p : RateLimitPolicy) : result unit policy_error :=
  if has_classic_field p && has_conditional_field p then RErr PolMixedForms
  else if has_conditional_field p then
    match pol_limits p with
    | None => RErr PolNoLimits
    | Some limits =>
        if is_unrestricted limits then RErr PolEmptyLimits
        else
          match validate_condition_nodes regex (default [] (conditions p)) with
          | RErr e => RErr (PolConditions e)
          | ROk _ =>
              match repeated (default [] (group_by p)) [] with
              | Some d => RErr (PolRepeatedDimension d)
              | None => ROk tt
              end
          end
    end
  else if is_none (pol_scope p) || is_none (scope_ref p) then RErr PolNoScope
  else
    let windowed := negb (is_none (max_requests p)) || negb (is_none (max_tokens p))
                    || negb (is_none (max_spend_micro_usd p)) in
    if windowed && is_none (pol_window p) then RErr PolNoWindow
    else if negb windowed && is_none (pol_granted p) then RErr PolNoCeiling
    else ROk tt.

(** ** Suspension windows *)

(** [u32::from_str]: an optional [+], then digits, refused past [u32::MAX]. *)
Fixpoint digits_value (chars : list Ascii.ascii) (acc : N) : option N :=
  match chars with
  | [] => Some acc
  | a :: chars =>
      if is_ascii_digit a then
        let acc := acc * 10 + (Ascii.N_of_ascii a - 48) in
        if acc <? u32_mod then digits_value chars acc else None
      else None
  end.

Definition parse_u32 (s : string) : option N :=
  match String.list_ascii_of_string s with
  | [] => None
  | a :: chars =>
      if Ascii.N_of_ascii a =? 43 then
        match chars with [] => None | _ => digits_value chars 0 end
      else digits_value (a :: chars) 0
  end.

(** [split_once(':')] *)
Fixpoint split_once (sep : Ascii.ascii) (s : string) : option (string * string) :=
  match s with
  | EmptyString => None
  | String a s =>
      if bool_decide (a = sep) then Some ("", s)
      else '(l, r) ← split_once sep s; Some (String a l, r)
  end.

Definition colon : Ascii.ascii := Ascii.ascii_of_N 58.

Definition parse_hhmm (s : string) (allow_2400 : bool) : option N :=
  if allow_2400 && bool_decide (s = "24:00") then Some (24 * 60)
  else
    '(h, m) ← split_once colon s;
    if negb (String.length h =? 2)%nat || negb (String.length m =? 2)%nat then None
    else
      h ← parse_u32 h;
      m ← parse_u32 m;
      if (23 <? h) || (59 <? m) then None else Some (h * 60 + m).

Section calendar.
(** A time zone: the local day and minute of the day at an instant. *)
Context {Instant : Type}.
Context (parse_tz : string -> option (Instant -> Z * N)).
Context (weekday : Z -> ScheduleWeekday).
Context (parse_date : string -> option Z).

Definition selects_day (s : PolicySchedule) (date : Z) : bool :=
  match days_of_week s with
  | _ :: _ => existsb (fun d => bool_decide (d = weekday date)) (days_of_week s)
  | [] => existsb (fun d => bool_decide (parse_date d = Some date)) (dates s)
  end.

(** [pred_opt] of a day is the day before. *)
Definition schedule_matches (s : PolicySchedule) (now : Instant) : bool :=
  match parse_tz (timezone s), parse_hhmm (start_time s) false, parse_hhmm (end_time s) true with
  | Some tz, Some start, Some end_ =>
      let '(today, minute) := tz now in
      if start <? end_ then selects_day s today && (start <=? minute) && (minute <? end_)
      else if end_ <? start then
        (selects_day s today && (start <=? minute))
        || (selects_day s (today - 1) && (minute <? end_))
      else false
  | _, _, _ => false
  end.

Definition suspended_at (p : RateLimitPolicy) (now : Instant) : bool :=
  existsb (fun s => schedule_matches s now) (schedules p).
End calendar.

(** ** The policy index *)

Fixpoint find_map {A B} (f : A -> option B) (l : list A) : option B :=
  match l with
  | [] => None
  | x :: l => match f x with Some y => Some y | None => find_map f l end
  end.

(** A value some dimension must have for the tree to hold. *)
Fixpoint required_node (node : ConditionNode) : option (PolicyDimension * list string) :=
  match node with
  | Leaf leaf =>
      if cond_negate leaf then None
      else
        match operator leaf, cond_value leaf with
        | OpEq, One v => Some (cond_dimension leaf, [v])
        | OpIn, Many vs => Some (cond_dimension leaf, vs)
        | _, _ => None
        end
  | Group LogicAnd false children => find_map required_node children
  | _ => None
  end.

Definition required_match (nodes : list ConditionNode) : option (PolicyDimension * list string) :=
  find_map required_node nodes.

Definition scope_dimension (s : PolicyScope) : PolicyDimension :=
  match s with
  | PsApiKey => DimApiKey
  | PsModel => DimModel
  | PsTeam | PsTeamMember => DimTeam
  | PsMember => DimMember
  end.

Definition selector (p : RateLimitPolicy) : option (PolicyDimension * list string) :=
  match conditions p with
  | Some nodes => required_match nodes
  | None =>
      s ← pol_scope p;
      r ← scope_ref p;
      Some (scope_dimension s, [r])
  end.

Abbreviation PolicyEntry := (ResourceEntry RateLimitPolicy).

Record PolicyIndex := mkIndex {
  ix_generation : N;
  ix_entries : list PolicyEntry;
  by_value : gmap PolicyDimension (gmap string (list nat));
  fallback : list nat;
}.

(** [entry(dimension).or_default().entry(value).or_default().push(position)] *)
Definition push_position (d : PolicyDimension) (position : nat)
    (m : gmap PolicyDimension (gmap string (list nat))) (v : string) :=
  let values := default ∅ (m !! d) in
  <[d := <[v := default [] (values !! v) ++ [position]]> values]> m.

Definition index_entry (ix : PolicyIndex) (position : nat) (p : RateLimitPolicy) : PolicyIndex :=
  match selector p with
  | Some (d, values) =>
      (* [entry(dimension).or_default()] *)
      let m := <[d := default ∅ (by_value ix !! d)]> (by_value ix) in
      mkIndex (ix_generation ix) (ix_entries ix) (fold_left (push_position d position) values m)
        (fallback ix)
  | None => mkIndex (ix_generation ix) (ix_entries ix) (by_value ix) (fallback ix ++ [position])
  end.

Definition index_build (table : ResourceTable RateLimitPolicy) : PolicyIndex :=
  fold_left (fun ix '(position, e) => index_entry ix position (value e))
    (imap pair (entries table))
    (mkIndex (generation table) (entries table) ∅ []).

(** The values of a dimension that may select a policy. *)
Definition selecting (i : ConditionInput) (d : PolicyDimension) : list string :=
  omap id [input_get i d; routing_parent i d].

Definition candidate_positions (ix : PolicyIndex) (i : ConditionInput) : list nat :=
  dedup (stable_sort Nat.leb
    (fallback ix ++
     (map_to_list (by_value ix) ≫= fun '(d, values) =>
        selecting i d ≫= fun v => default [] (values !! v)))).

(** A position past the end would panic. *)
Definition candidates (ix : PolicyIndex) (i : ConditionInput) : option (list PolicyEntry) :=
  mapM (fun position => ix_entries ix !! position) (candidate_positions ix i).

(** [LivePolicyIndex::for_table] over the cached index. *)
Definition for_table (cached : option PolicyIndex) (table : ResourceTable RateLimitPolicy)
    : PolicyIndex * option PolicyIndex :=
  match cached with
  | Some ix =>
      if ix_generation ix =? generation table then (ix, cached)
      else let ix := index_build table in (ix, Some ix)
  | None => let ix := index_build table in (ix, Some ix)
  end.

(** ** The tree by induction *)

Lemma ConditionNode_nested_ind (P : ConditionNode -> Prop) :
  (forall leaf, P (Leaf leaf)) ->
  (forall logic negate children, Forall P children -> P (Group logic negate children)) ->
  forall node, P node.
Proof.
  intros HL HG. fix IH 1. intros [leaf | logic negate children]; [apply HL|apply HG].
  induction children as [|c children IHc]; constructor; [apply IH|exact IHc].
Qed.

Lemma find_map_Some {A B} (f : A -> option B) l y :
  find_map f l = Some y -> exists x, x ∈ l /\ f x = Some y.
Proof.
  induction l as [|x l IH]; simpl; [done|]. destruct (f x) eqn:E.
  - intros [= ->]. exists x. split; [by left|done].
  - intros (x' & ? & ?)%IH. exists x'. split; [by right|done].
Qed.

(** ** What the index keeps

    A policy a request can match is selected by one of the request's values or
    has no selector. *)

Definition selected (i : ConditionInput) (p : RateLimitPolicy) : Prop :=
  match selector p with
  | None => True
  | Some (d, vs) => exists v, v ∈ selecting i d /\ v ∈ vs
  end.

Lemma selecting_elem i d v :
  v ∈ selecting i d <-> input_get i d = Some v \/ routing_parent i d = Some v.
Proof.
  unfold selecting. simpl. destruct (input_get i d), (routing_parent i d); simpl;
    rewrite ?elem_of_cons, ?elem_of_nil; naive_solver.
Qed.

Section matching.
Context (regex : bool -> string -> option (string -> bool)) (parse_f64 : string -> option f64).

Lemma eval_leaf_selecting i leaf :
  cond_negate leaf = false -> operator leaf <> OpNe -> eval_leaf regex parse_f64 i leaf = true ->
  exists v, v ∈ selecting i (cond_dimension leaf) /\ eval_operator regex parse_f64 leaf v = true.
Proof.
  intros Hn Hop. unfold eval_leaf. destruct (input_get i _) as [var|] eqn:Ev; [|done].
  rewrite Hn, xorb_false_r, bool_decide_false by done. intros [H | H]%orb_true_iff.
  - exists var. rewrite selecting_elem. auto.
  - destruct (routing_parent _ _) as [q|] eqn:Ep; [|done]. exists q. rewrite selecting_elem. auto.
Qed.

Lemma required_node_sound i node :
  forall d vs, required_node node = Some (d, vs) -> eval_node regex parse_f64 i node = true ->
  exists v, v ∈ selecting i d /\ v ∈ vs.
Proof.
  induction node as [leaf | logic negate children IH] using ConditionNode_nested_ind; intros d vs; simpl.
  - destruct leaf as [dim op [] v]; [done|]. cbn [operator cond_value cond_negate cond_dimension].
    intros Hr He. destruct (eval_leaf_selecting i (mkCondition dim op false v)) as (w & Hw & Hop);
      [done|by destruct op|done|]. unfold eval_operator in Hop. cbn [operator cond_value] in Hop. exists w.
    destruct op, v as [v|items]; try done; simplify_eq/=; (split; [done|]).
    + apply bool_decide_eq_true in Hop as ->. by left.
    + apply existsb_exists in Hop as (x & Hx & <-%bool_decide_eq_true). by apply list_elem_of_In.
  - destruct logic; [|done]. destruct negate; [done|]. rewrite xorb_false_r.
    intros (c & Hc & Hr)%find_map_Some Hall. rewrite Forall_forall in IH.
    apply (IH c Hc d vs Hr). rewrite forallb_forall in Hall. apply Hall. by apply list_elem_of_In.
Qed.

Lemma required_match_sound i nodes d vs :
  required_match nodes = Some (d, vs) -> eval_condition_nodes regex parse_f64 nodes i = true ->
  exists v, v ∈ selecting i d /\ v ∈ vs.
Proof.
  intros (c & Hc & Hr)%find_map_Some Hall. apply (required_node_sound i c d vs Hr).
  unfold eval_condition_nodes in Hall. rewrite forallb_forall in Hall. apply Hall. by apply list_elem_of_In.
Qed.
End matching.

(** ** The index is complete *)

Definition positions_of (m : gmap PolicyDimension (gmap string (list nat))) (d : PolicyDimension)
    (v : string) : list nat :=
  default [] (default ∅ (m !! d) !! v).

Lemma push_position_elem d position m v d' v' :
  positions_of (push_position d position m v) d' v' =
    if decide (d' = d /\ v' = v) then positions_of m d v ++ [position] else positions_of m d' v'.
Proof.
  unfold positions_of, push_position. destruct (decide (d' = d)) as [-> | Hd].
  - rewrite lookup_insert_eq. simpl. destruct (decide (v' = v)) as [-> | Hv].
    + rewrite decide_True by done. by rewrite lookup_insert_eq.
    + rewrite decide_False by tauto. by rewrite lookup_insert_ne.
  - rewrite decide_False by tauto. by rewrite lookup_insert_ne.
Qed.

Lemma push_positions_elem d position vs m d' v' q :
  q ∈ positions_of (fold_left (push_position d position) vs m) d' v' <->
  q ∈ positions_of m d' v' \/ (q = position /\ d' = d /\ v' ∈ vs).
Proof.
  revert m. induction vs as [|v vs IH]; intros m; simpl; [set_solver|].
  rewrite IH, push_position_elem. case_decide as Hd.
  - destruct Hd as [-> ->]. rewrite elem_of_app, list_elem_of_singleton, elem_of_cons. tauto.
  - rewrite elem_of_cons. tauto.
Qed.

(** A position a request's scan visits. *)
Definition visits (ix : PolicyIndex) (i : ConditionInput) (q : nat) : Prop :=
  q ∈ fallback ix \/ exists d v, v ∈ selecting i d /\ q ∈ positions_of (by_value ix) d v.

Lemma candidate_positions_elem ix i q : q ∈ candidate_positions ix i <-> visits ix i q.
Proof.
  unfold candidate_positions, visits. rewrite dedup_elem, stable_sort_perm, elem_of_app.
  f_equiv. rewrite list_elem_of_bind. split.
  - intros ([d values] & Hq & Hin). apply list_elem_of_bind in Hq as (v & Hq & Hv).
    apply elem_of_map_to_list in Hin. exists d, v. split; [done|]. unfold positions_of. by rewrite Hin.
  - intros (d & v & Hv & Hq). unfold positions_of in Hq.
    destruct (by_value ix !! d) as [values|] eqn:Ed; simpl in Hq;
      [|rewrite lookup_empty in Hq; by apply elem_of_nil in Hq].
    exists (d, values). split; [|by apply elem_of_map_to_list].
    apply list_elem_of_bind. exists v. split; [done|done].
Qed.

Lemma index_entry_visits ix position p i q :
  visits (index_entry ix position p) i q <-> visits ix i q \/ (q = position /\ selected i p).
Proof.
  unfold index_entry, selected. destruct (selector p) as [[d vs]|]; unfold visits; simpl.
  - assert (forall d' v', positions_of (<[d := default ∅ (by_value ix !! d)]> (by_value ix)) d' v'
                          = positions_of (by_value ix) d' v') as Hsame.
    { intros d' v'. unfold positions_of. destruct (decide (d' = d)) as [-> | ?].
      - rewrite lookup_insert_eq. by destruct (by_value ix !! d).
      - by rewrite lookup_insert_ne. }
    setoid_rewrite push_positions_elem. setoid_rewrite Hsame. naive_solver.
  - rewrite elem_of_app, list_elem_of_singleton. naive_solver.
Qed.

Lemma index_build_visits table i q :
  visits (index_build table) i q <-> exists e, entries table !! q = Some e /\ selected i (value e).
Proof.
  unfold index_build. set (ix0 := mkIndex _ _ ∅ []).
  assert (forall q, ~ visits ix0 i q) as H0.
  { intros r [Hr | (d & v & _ & Hr)]; [by apply elem_of_nil in Hr|].
    unfold positions_of in Hr. simpl in Hr. rewrite lookup_empty in Hr. simpl in Hr.
    rewrite lookup_empty in Hr. by apply elem_of_nil in Hr. }
  assert (forall es k ix, visits (fold_left (fun ix '(position, e) => index_entry ix position (value e))
      (imap (fun j e => (k + j, e)%nat) es) ix) i q <->
    visits ix i q \/ exists j e, q = (k + j)%nat /\ es !! j = Some e /\ selected i (value e)) as Hgen.
  { clear. induction es as [|e es IH]; intros k ix; simpl; [naive_solver|].
    rewrite (imap_ext _ (fun j e => (S k + j, e)%nat)) by (intros; simpl; f_equal; lia).
    rewrite IH, index_entry_visits, Nat.add_0_r. split.
    - intros [[H | [-> Hs]] | (j & e' & -> & Hj & Hs)]; [by left| |].
      + right. exists 0%nat, e. rewrite Nat.add_0_r. done.
      + right. exists (S j), e'. split; [lia|done].
    - intros [H | ([|j] & e' & -> & Hj & Hs)]; [by left; left| |].
      + left. right. simpl in Hj. simplify_eq. rewrite Nat.add_0_r. done.
      + right. exists j, e'. split; [lia|done]. }
  specialize (Hgen (entries table) 0%nat ix0). simpl in Hgen. change (fun j e => (j, e)) with (@pair nat PolicyEntry) in Hgen.
  rewrite Hgen. split; [intros [[]%H0 | (? & e & -> & ? & ?)]; eauto|]. intros (e & He & Hs). right. eauto.
Qed.

(** Reading increasing positions of a list, all of them that matter to [f]. *)
Lemma omap_none {A B} (f : A -> option B) l : (forall x, x ∈ l -> f x = None) -> omap f l = [].
Proof.
  induction l as [|x l IH]; intros H; [done|]. cbn. rewrite (H x) by by left. apply IH.
  intros y Hy. apply H. by right.
Qed.

Lemma read_positions {A B} (f : A -> option B) es P :
  forall k, sorted Nat.leb P -> NoDup P -> (forall q, q ∈ P -> (k <= q < length es)%nat) ->
  (forall j e, (k <= j)%nat -> es !! j = Some e -> f e <> None -> j ∈ P) ->
  exists l, mapM (fun q => es !! q) P = Some l /\ omap f l = omap f (drop k es).
Proof.
  induction P as [|q P IH]; intros k Hs Hn Hr Hf.
  - exists []. split; [done|]. symmetry. apply omap_none. intros x (j & Hj)%list_elem_of_lookup_1.
    rewrite lookup_drop in Hj. destruct (f x) eqn:Ex; [|done].
    assert (k + j ∈ ([] : list nat))%nat as Hin by (eapply Hf; [lia|exact Hj|congruence]). by apply elem_of_nil in Hin.
  - inversion Hs as [|? ? Hq Hs']; inversion Hn as [|? ? Hnq Hn']; subst.
    destruct (Hr q (list_elem_of_here _ _)) as [Hkq Hql].
    assert (forall r, r ∈ P -> (S q <= r)%nat) as Hlt.
    { intros r Hin. pose proof (Hq r Hin) as Hle%Nat.leb_le. assert (r <> q) by (by intros ->). lia. }
    destruct (IH (S q)) as (l & Hl & Hfl); [done|done| | |].
    { intros r Hin. split; [by apply Hlt|]. apply Hr. by right. }
    { intros j e Hj He Hfe. assert (j ∈ q :: P) as [Heq | Hin]%elem_of_cons by (eapply Hf; [lia|done..]); [lia|done]. }
    destruct (lookup_lt_is_Some_2 _ _ Hql) as [e He]. exists (e :: l). split; [by simpl; rewrite He; simpl; rewrite Hl|].
    replace (drop k es) with (take (q - k) (drop k es) ++ drop q es).
    2: { rewrite <- (take_drop (q - k) (drop k es)) at 2. by rewrite drop_drop, Nat.add_comm, Nat.sub_add by lia. }
    rewrite omap_app, (omap_none f (take _ _)).
    + rewrite (drop_S es e q He). cbn. by rewrite Hfl.
    + intros x (j & Hj)%list_elem_of_lookup_1. apply lookup_take_Some in Hj as [Hj Hjk].
      rewrite lookup_drop in Hj. destruct (f x) eqn:Ex; [|done].
      assert (k + j ∈ q :: P)%nat as [Heq | Hin]%elem_of_cons by (eapply Hf; [lia|exact Hj|congruence]);
        [lia|]. specialize (Hlt _ Hin). lia.
Qed.

(** The scan of the index finds, in the table's order, every policy that a
    matching function could answer for, and no other row changes its result. *)
Lemma candidates_complete {B} table i (f : PolicyEntry -> option B) :
  (forall e, e ∈ entries table -> f e <> None -> selected i (value e)) ->
  exists l, candidates (index_build table) i = Some l /\ omap f l = omap f (entries table).
Proof.
  intros Hf. unfold candidates.
  assert (ix_entries (index_build table) = entries table) as ->.
  { unfold index_build. set (ix0 := mkIndex _ _ ∅ []). change (entries table) with (ix_entries ix0) at 2.
    generalize (imap pair (entries table)), ix0. intros l. induction l as [|[q e] l IH]; intros ix; [done|].
    simpl. rewrite IH. unfold index_entry. by destruct (selector (value e)) as [[]|]. }
  apply (read_positions f (entries table) _ 0).
  - apply dedup_sorted, stable_sort_sorted; intros *; rewrite ?Nat.leb_le; lia.
  - apply (dedup_sorted_NoDup Nat.leb); [intros *; rewrite !Nat.leb_le; lia|].
    apply stable_sort_sorted; intros *; rewrite ?Nat.leb_le; lia.
  - intros q Hq%candidate_positions_elem%index_build_visits. destruct Hq as (e & He & _).
    apply lookup_lt_Some in He. lia.
  - intros j e _ He Hfe. apply candidate_positions_elem, index_build_visits.
    exists e. split; [done|]. apply Hf; [by eapply list_elem_of_lookup_2|done].
Qed.

(** ** Validation *)

Fixpoint leaves_of (node : ConditionNode) : list PolicyCondition :=
  match node with
  | Leaf leaf => [leaf]
  | Group _ _ children => flat_map leaves_of children
  end.

(** Groups are inhabited and nest at most [n] deep. *)
Fixpoint fits (n : nat) (node : ConditionNode) : Prop :=
  match n, node with
  | O, _ => False
  | S _, Leaf _ => True
  | S n, Group _ _ children => children <> [] /\ Forall (fits n) children
  end.

(** A leaf the evaluator can decide: its operator is admitted, its value has the
    operator's shape and is not empty, its pattern compiles. *)
Record leaf_ok (regex : bool -> string -> option (string -> bool)) (leaf : PolicyCondition) : Prop := {
  lo_admitted : admitted_by (operator leaf) (cond_dimension leaf) = true;
  lo_value :
    match cond_value leaf with
    | One v => operator leaf <> OpIn /\ v <> "" /\
        (is_regex_op (operator leaf) = true ->
           (String.length v <= MAX_CONDITION_REGEX_LEN)%nat /\
           is_Some (regex (bool_decide (operator leaf = OpRegexCi)) v))
    | Many items => operator leaf = OpIn /\ (1 <= length items <= MAX_CONDITION_VALUES)%nat /\
        Forall (fun item => item <> "") items
    end;
}.

Section validation.
Context (regex : bool -> string -> option (string -> bool)).

Lemma existsb_empty_item items :
  existsb (fun item => bool_decide (item = "")) items = false <-> Forall (fun item : string => item <> "") items.
Proof.
  induction items as [|x items IH]; simpl; [by split|]. rewrite orb_false_iff, IH, Forall_cons.
  by rewrite bool_decide_eq_false.
Qed.

Lemma validate_leaf_ok leaf : validate_leaf regex leaf = ROk tt <-> leaf_ok regex leaf.
Proof.
  destruct leaf as [d op n v]. unfold validate_leaf. cbn [cond_dimension operator cond_value].
  destruct (admitted_by op d) eqn:Ha; simpl; [|split; [done|intros [H _]; simpl in H; congruence]].
  destruct v as [v|items].
  - assert (takes_list op = false <-> op <> OpIn) as Hop by (destruct op; by split).
    destruct (takes_list op); [split; [done|intros [_ [H _]]; by apply Hop in H]|].
    case_bool_decide as Hv; [split; [done|intros [_ (_ & H & _)]; done]|].
    destruct (is_regex_op op) eqn:Hr.
    + destruct (Nat.ltb_spec MAX_CONDITION_REGEX_LEN (String.length v)) as [Hl | Hl].
      { split; [done|]. intros [_ (_ & _ & H)]. destruct (H Hr). simpl in *. lia. }
      unfold compiled_regex. destruct (regex _ v) eqn:Ec; simpl.
      * split; [intros _; split; [done|]|done]. simpl. split; [by apply Hop|]. split; [done|].
        intros _. split; [done|]. by rewrite Ec.
      * split; [done|]. intros [_ (_ & _ & H)]. destruct (H Hr) as [_ [re Hre]]. simpl in Hre. congruence.
    + split; [intros _; split; [done|]|done]. simpl. split; [by apply Hop|]. split; [done|]. by rewrite Hr.
  - assert (takes_list op = true <-> op = OpIn) as Hop by (destruct op; by split).
    destruct (takes_list op); [|split; [done|intros [_ [H _]]; by apply Hop in H]].
    pose proof (existsb_empty_item items) as He.
    destruct ((length items =? 0)%nat || (MAX_CONDITION_VALUES <? length items)%nat) eqn:El.
    { split; [done|]. intros [_ (_ & H & _)]. simpl in H. lia. }
    destruct (existsb _ items).
    + split; [done|]. intros [_ (_ & _ & H)]. by apply He in H.
    + split; [intros _; split; [done|]|done]. simpl. split; [by apply Hop|]. split; [lia|]. by apply He.
Qed.

(** The walk below a group: the children one after the other. *)
Lemma validate_children n children leaves r :
  (forall c, c ∈ children -> forall k r, validate_node regex n c k = ROk r <->
     fits (S MAX_CONDITION_DEPTH - n) c /\ Forall (leaf_ok regex) (leaves_of c) /\
     r = (k + length (leaves_of c))%nat) ->
  validate_nodes regex n children leaves = ROk r <->
  Forall (fits (S MAX_CONDITION_DEPTH - n)) children /\
  Forall (leaf_ok regex) (flat_map leaves_of children) /\
  r = (leaves + length (flat_map leaves_of children))%nat.
Proof.
  unfold validate_nodes. revert leaves. induction children as [|c children IH]; intros leaves Hc; simpl.
  { rewrite Nat.add_0_r. split; [by intros [= ->]|by intros (_ & _ & ->)]. }
  rewrite length_app, Forall_cons, Forall_app.
  destruct (validate_node regex n c leaves) as [k|e] eqn:Ek.
  - apply Hc in Ek as (Hf & Hl & ->); [|by left]. rewrite (IH _ (fun d Hd => Hc d (list_elem_of_further _ _ _ Hd))).
    rewrite Nat.add_assoc. tauto.
  - split.
    + intros H. exfalso. revert H. generalize (flat_map leaves_of children). clear.
      intros _. induction children as [|c children IH]; simpl; [done|exact IH].
    + intros ((Hf & _) & (Hl & _) & _). exfalso.
      assert (validate_node regex n c leaves = ROk (leaves + length (leaves_of c))%nat) as H
        by (apply Hc; [by left|done]). congruence.
Qed.

Lemma validate_node_ok node n leaves r :
  validate_node regex n node leaves = ROk r <->
  fits (S MAX_CONDITION_DEPTH - n) node /\ Forall (leaf_ok regex) (leaves_of node) /\
  r = (leaves + length (leaves_of node))%nat.
Proof.
  revert n leaves r. induction node as [leaf | logic negate children IH] using ConditionNode_nested_ind;
    intros n leaves r; cbn [validate_node leaves_of];
    destruct (Nat.ltb_spec MAX_CONDITION_DEPTH n) as [Hn | Hn];
    try (replace (S MAX_CONDITION_DEPTH - n)%nat with 0%nat by lia; split; [done|by intros [[] _]]);
    replace (S MAX_CONDITION_DEPTH - n)%nat with (S (MAX_CONDITION_DEPTH - n)) by lia.
  - pose proof (validate_leaf_ok leaf) as Hv. simpl. rewrite Forall_singleton, Nat.add_1_r.
    destruct (validate_leaf regex leaf) as [[]|e].
    + split; [intros [= <-]; split; [done|]; split; [by apply Hv|done]|by intros (_ & _ & ->)].
    + split; [done|]. intros (_ & H & _). by apply Hv in H.
  - destruct children as [|c children]; [split; [done|]; by intros [[] _]|].
    match goal with
    | |- (?walk = _) <-> _ => change walk with (validate_nodes regex (S n) (c :: children) leaves)
    end.
    rewrite validate_children.
    + cbn [fits]. replace (S MAX_CONDITION_DEPTH - S n)%nat with (MAX_CONDITION_DEPTH - n)%nat by lia.
      assert (c :: children <> []) by done. tauto.
    + intros d Hd. rewrite Forall_forall in IH. intros k q. by apply IH.
Qed.

(** A condition tree is accepted exactly when it is small and every leaf
    can be decided: at most sixteen leaves, groups inhabited and nested at most
    three deep, each operator admitted by its dimension, each value of the
    operator's shape and within its limits, each pattern one that compiles. *)
Theorem validated_trees nodes :
  validate_condition_nodes regex nodes = ROk tt <->
  Forall (fits MAX_CONDITION_DEPTH) nodes /\
  Forall (leaf_ok regex) (flat_map leaves_of nodes) /\
  (length (flat_map leaves_of nodes) <= MAX_CONDITION_LEAVES)%nat.
Proof.
  unfold validate_condition_nodes. pose proof (validate_children 1 nodes 0) as Hv.
  destruct (validate_nodes regex 1 nodes 0) as [leaves|e].
  - destruct (proj1 (Hv leaves ltac:(intros; apply validate_node_ok)) eq_refl) as (Hf & Hl & ->).
    simpl. destruct (Nat.ltb_spec MAX_CONDITION_LEAVES (length (flat_map leaves_of nodes))).
    + split; [done|]. intros (_ & _ & ?). lia.
    + split; [|done]. by intros _.
  - split; [done|]. intros (Hf & Hl & _).
    discriminate (proj2 (Hv _ ltac:(intros; apply validate_node_ok)) (conj Hf (conj Hl eq_refl))).
Qed.
End validation.

(** ** Names *)

Lemma strip_prefix_cons a p b s :
  strip_prefix (String a p) (String b s) = if bool_decide (a = b) then strip_prefix p s else None.
Proof. done. Qed.

Lemma strip_prefix_app p s : strip_prefix p (p +:+ s) = Some s.
Proof.
  induction p as [|a p IH]; [done|]. change (String a p +:+ s) with (String a (p +:+ s)).
  by rewrite strip_prefix_cons, bool_decide_true.
Qed.

Lemma strip_prefix_inv p s r : strip_prefix p s = Some r -> s = p +:+ r.
Proof.
  revert s. induction p as [|a p IH]; intros s; [by intros [= ->]|]. destruct s as [|b s]; [done|].
  rewrite strip_prefix_cons. case_bool_decide as E; [|done]. subst b. intros H%IH. by rewrite H.
Qed.

Lemma parse_tag_dimension_Some name key :
  parse_tag_dimension name = Some key <-> name = TAG_PREFIX +:+ key /\ is_valid_tag_key key = true.
Proof.
  unfold parse_tag_dimension. split.
  - destruct (strip_prefix TAG_PREFIX name) as [k|] eqn:E; [|done]. apply strip_prefix_inv in E as ->.
    cbn [mbind option_bind]. destruct (is_valid_tag_key k) eqn:Ev; [|done]. by intros [= <-].
  - intros [-> Hv]. rewrite strip_prefix_app. cbn [mbind option_bind]. by rewrite Hv.
Qed.

Definition valid_dimension (d : PolicyDimension) : Prop :=
  match d with DimTag key => is_valid_tag_key key = true | _ => True end.

(** A condition's dimension survives the wire: the parser accepts exactly
    the names [dimension_name] prints for well-formed dimensions, and gives back
    the dimension printed; every other text is refused by name. *)
Theorem dimension_roundtrip name :
  (forall d, dimension_from_str name = ROk d <-> dimension_name d = name /\ valid_dimension d) /\
  (forall e, dimension_from_str name = RErr e ->
     e = name /\ forall d, valid_dimension d -> dimension_name d <> name).
Proof.
  assert (forall d, dimension_from_str name = ROk d <-> dimension_name d = name /\ valid_dimension d) as H.
  { intros d. unfold dimension_from_str. repeat (case_bool_decide; [subst name|]).
    1-6: split; [by intros [= <-]|]; destruct d; simpl; intros [? ?]; try done.
    destruct (parse_tag_dimension name) as [key|] eqn:E.
    - apply parse_tag_dimension_Some in E as [-> Hv]. split; [by intros [= <-]|].
      destruct d as [| | | | | |k]; simpl; intros [Hn ?]; try congruence.
      by apply (inj (String.append TAG_PREFIX)) in Hn as ->.
    - split; [done|]. destruct d as [| | | | | |k]; simpl; intros [Hn Hv]; try congruence.
      assert (parse_tag_dimension name = Some k) by (by apply parse_tag_dimension_Some). congruence. }
  split; [exact H|]. intros e He. split.
  - revert He. unfold dimension_from_str. repeat (case_bool_decide; [done|]).
    destruct (parse_tag_dimension name); [done|]. by intros [= ->].
  - intros d Hv Hn. assert (dimension_from_str name = ROk d) by (by apply H). congruence.
Qed.

(** ** Suspension windows *)

Lemma parse_hhmm_bound s b t : parse_hhmm s b = Some t ->
  t < 1440 \/ (b = true /\ t = 1440).
Proof.
  unfold parse_hhmm. destruct (b && _) eqn:E.
  - intros [= <-]. apply andb_true_iff in E as [-> _]. by right.
  - destruct (split_once colon s) as [[h m]|]; [|done]. cbn [mbind option_bind].
    destruct (_ || _); [done|]. destruct (parse_u32 h) as [x|]; [|done]. cbn [mbind option_bind].
    destruct (parse_u32 m) as [y|]; [|done]. cbn [mbind option_bind].
    destruct ((23 <? x) || (59 <? y)) eqn:Ex; [done|]. intros [= <-]. left. lia.
Qed.

Section windows.
Context {Instant : Type} (parse_tz : string -> option (Instant -> Z * N)).
Context (weekday : Z -> ScheduleWeekday) (parse_date : string -> option Z).

(** A suspension window is a stretch of wall-clock time that belongs to
    the day it starts on: an instant is inside it exactly when some selected
    day's window, from its start to its end on that day, or on the next when
    the end comes before the start, contains the local time.  A window of equal
    times is empty, and one that does not parse suspends nothing. *)
Theorem schedule_window_spec s now tz :
  parse_tz (timezone s) = Some tz -> snd (tz now) < 1440 ->
  schedule_matches parse_tz weekday parse_date s now = true <->
  exists start end_ D, parse_hhmm (start_time s) false = Some start /\
    parse_hhmm (end_time s) true = Some end_ /\ start <> end_ /\
    selects_day weekday parse_date s D = true /\
    let t := (fst (tz now) * 1440 + Z.of_N (snd (tz now)))%Z in
    (D * 1440 + Z.of_N start <= t)%Z /\
    (t < D * 1440 + Z.of_N end_ + (if (end_ <? start)%N then 1440 else 0))%Z.
Proof.
  intros Htz Hm. unfold schedule_matches. rewrite Htz.
  destruct (parse_hhmm (start_time s) false) as [start|] eqn:Es;
    [|by split; [|intros (? & ? & ? & ? & _)]].
  destruct (parse_hhmm (end_time s) true) as [end_|] eqn:Ee;
    [|by split; [|intros (? & ? & ? & ? & ? & _)]].
  apply parse_hhmm_bound in Es as [Hs | [? _]]; [|done].
  assert (end_ <= 1440) as He by (apply parse_hhmm_bound in Ee; lia).
  destruct (tz now) as [today minute]. simpl in *. split.
  - destruct (N.ltb_spec start end_); [|destruct (N.ltb_spec end_ start); [|done]].
    + intros [[Hd ?]%andb_true_iff ?]%andb_true_iff. exists start, end_, today.
      destruct (N.ltb_spec end_ start); [lia|]. repeat split; try done; lia.
    + intros [[Hd ?]%andb_true_iff | [Hd ?]%andb_true_iff]%orb_true_iff.
      * exists start, end_, today. destruct (N.ltb_spec end_ start); [|lia]. repeat split; try done; lia.
      * exists start, end_, (today - 1)%Z. destruct (N.ltb_spec end_ start); [|lia]. repeat split; try done; lia.
  - intros (? & ? & D & [= <-] & [= <-] & Hne & Hd & Hlo & Hhi).
    destruct (N.ltb_spec start end_).
    + destruct (N.ltb_spec end_ start); [lia|]. assert (D = today) as -> by lia.
      rewrite Hd. simpl. apply andb_true_iff. lia.
    + destruct (N.ltb_spec end_ start); [|lia]. apply orb_true_iff.
      assert (D = today \/ D = today - 1)%Z as [-> | ->] by lia; rewrite Hd; [left|right]; simpl; lia.
Qed.
End windows.

(** Monday night, seen on Tuesday at five. *)
Definition demo_tz (name : string) : option (Z * N -> Z * N) := if bool_decide (name = "UTC") then Some id else None.
Definition demo_weekday (d : Z) : ScheduleWeekday := if Z.eqb (d mod 7)%Z 0%Z then Mon else Tue.
Definition demo_night : PolicySchedule := mkSchedule "UTC" [Mon] [] "22:00" "06:00".

Lemma schedule_window_spec_witness :
  schedule_matches demo_tz demo_weekday (fun _ => None) demo_night (1%Z, 300) = true /\
  (schedule_matches demo_tz demo_weekday (fun _ => None) demo_night (1%Z, 300) = true <->
   exists start end_ D, parse_hhmm "22:00" false = Some start /\
    parse_hhmm "06:00" true = Some end_ /\ start <> end_ /\
    selects_day demo_weekday (fun _ => None) demo_night D = true /\
    let t := (1 * 1440 + 300)%Z in
    (D * 1440 + Z.of_N start <= t)%Z /\
    (t < D * 1440 + Z.of_N end_ + (if (end_ <? start)%N then 1440 else 0))%Z).
Proof.
  split; [vm_compute; reflexivity|].
  apply (schedule_window_spec demo_tz demo_weekday (fun _ => None) demo_night (1%Z, 300) id);
    vm_compute; reflexivity.
Defined.
