(* ===== verification/Models.v ===== *)
(** * Configured models

    [crates/aisix-core/src/models/model.rs], [models/routing.rs],
    [models/model_ref.rs]: the part of a [Model] document that dispatch reads,
    the routing block of a Model Group with its defaults, and the snapshot the
    request path looks models and provider keys up in.  A [Duration] is a number
    of nanoseconds, an IP allowlist the set of addresses it admits. *)

From S2P Require Import Prelude Snapshot F64 RateStore Policy.
From Stdlib Require Import SpecFloat.
Local Open Scope N_scope.

(** ** Durations *)

Abbreviation Duration := N.
Definition from_secs (s : N) : Duration := s * 1000000000.
Definition from_millis (ms : N) : Duration := ms * 1000000.
Definition as_millis (d : Duration) : N := d / 1000000.

(** ** Cooldown configuration *)

Record CooldownConfig := mkCooldownConfig {
  cd_enabled : option bool;
  default_seconds : option N;
  max_seconds : option N;
  honor_retry_after : option bool;
  trigger_statuses : option (list N);
  trigger_on_timeout : option bool;
  trigger_on_transport : option bool;
}.

Definition DEFAULT_COOLDOWN_TRIGGER_STATUSES : list N := [401; 408; 429; 500; 502; 503; 504].
Definition DEFAULT_COOLDOWN_SECONDS : N := 30.
Definition DEFAULT_COOLDOWN_MAX_SECONDS : N := 600.

Definition is_enabled (c : CooldownConfig) : bool :=
  match cd_enabled c with Some true => true | _ => false end.
Definition is_silently_off (c : CooldownConfig) : bool :=
  match cd_enabled c with None => true | _ => false end.
Definition default_seconds_or_default (c : CooldownConfig) : N :=
  default DEFAULT_COOLDOWN_SECONDS (default_seconds c).
Definition max_seconds_or_default (c : CooldownConfig) : N :=
  default DEFAULT_COOLDOWN_MAX_SECONDS (max_seconds c).
Definition honor_retry_after_or_default (c : CooldownConfig) : bool :=
  default true (honor_retry_after c).
Definition effective_trigger_statuses (c : CooldownConfig) : list N :=
  default DEFAULT_COOLDOWN_TRIGGER_STATUSES (trigger_statuses c).
Definition trigger_on_timeout_or_default (c : CooldownConfig) : bool :=
  default true (trigger_on_timeout c).
Definition trigger_on_transport_or_default (c : CooldownConfig) : bool :=
  default true (trigger_on_transport c).

(** ** Routing configuration *)

Inductive RoutingStrategy :=
  RoundRobin | ConsistentHash | Failover | LeastCost | LeastLatency | LeastBusy.
#[export] Instance RoutingStrategy_eq_dec : EqDecision RoutingStrategy.
Proof. solve_decision. Defined.

Definition is_metric_based (s : RoutingStrategy) : bool :=
  match s with LeastCost | LeastLatency | LeastBusy => true | _ => false end.

Inductive HashOnType := HashHeader | HashCookie | HashApiKey | HashClientIp.

Record HashOnSource := mkHashOn { source_type : HashOnType; source_name : option string }.

Definition default_hash_on : list HashOnSource :=
  [mkHashOn HashHeader (Some "x-aisix-routing-key"); mkHashOn HashApiKey None].

(** [weight] is a [u32], [priority] an [i32]. *)
Record RoutingTarget := mkTarget {
  target_model : string;
  target_model_id : option string;
  weight : option N;
  priority : option Z;
  target_tags : option (list string);
}.

Definition DEFAULT_ROUTING_TAG : string := "default".

Definition target_new (model : string) : RoutingTarget := mkTarget model None None None None.
Definition weight_or_default (t : RoutingTarget) : N := default 1 (weight t).
Definition priority_or_default (t : RoutingTarget) : Z := default 0%Z (priority t).
Definition has_tags (t : RoutingTarget) : bool :=
  match target_tags t with Some (_ :: _) => true | _ => false end.
Definition is_default_target (t : RoutingTarget) : bool :=
  match target_tags t with
  | Some tags => existsb (fun tag => bool_decide (tag = DEFAULT_ROUTING_TAG)) tags
  | None => false
  end.
Definition matches_request_tags (t : RoutingTarget) (request_tags : list string) : bool :=
  match target_tags t with
  | Some tags => existsb (fun tag => existsb (fun r => bool_decide (r = tag)) request_tags) tags
  | None => false
  end.

Inductive WhenAllUnavailablePolicy := PolicyFail | PolicyTryAnyway.

Record Routing := mkRouting {
  strategy : RoutingStrategy;
  targets : list RoutingTarget;
  routing_retries : option N;
  max_fallbacks : option N;
  retry_on_429 : option bool;
  fallback_on_statuses : option (list N);
  when_all_unavailable : option WhenAllUnavailablePolicy;
  hash_on : option (list HashOnSource);
}.

Definition hash_on_or_default (r : Routing) : list HashOnSource :=
  match hash_on r with
  | Some (s :: chain) => s :: chain
  | _ => default_hash_on
  end.

Definition max_fallbacks_or_default (r : Routing) : nat :=
  let later_targets := (length (targets r) - 1)%nat in
  match max_fallbacks r with
  | Some n => Nat.min (N.to_nat n) later_targets
  | None => later_targets
  end.

Definition retry_on_429_or_default (r : Routing) : bool := default false (retry_on_429 r).
Definition fallback_on_statuses_or_default (r : Routing) : list N :=
  default [] (fallback_on_statuses r).
Definition when_all_unavailable_or_default (r : Routing) : WhenAllUnavailablePolicy :=
  default PolicyFail (when_all_unavailable r).

(** ** Models *)

Record BackgroundModelCheck := mkCheck { check_enabled : bool; stale_after_seconds : N }.

Record ModelCost := mkCost {
  input_per_1k : f64;
  output_per_1k : f64;
  cached_input_per_1k : option f64;
  cache_write_per_1k : option f64;
}.

(** [timeout] and [stream_timeout] are milliseconds. *)
Record Model := mkModel {
  display_name : string;
  provider_key_id : option string;
  timeout : option N;
  stream_timeout : option N;
  retries : option N;
  allowed_ips : option (string -> bool);
  routing : option Routing;
  ensemble : bool;
  semantic : bool;
  cost : option ModelCost;
  pricing_key : option string;
  background_model_check : option BackgroundModelCheck;
  cooldown : option CooldownConfig;
  rate_limit : option RateLimit;
  provider : option string;
  model_name : option string;
}.

Definition is_routing (m : Model) : bool := match routing m with Some _ => true | None => false end.
Definition is_ensemble (m : Model) : bool := ensemble m.
Definition is_semantic (m : Model) : bool := semantic m.

(** [None]: this level says nothing; [Some None]: it says "no deadline". *)
Definition request_timeout_level (m : Model) : option (option Duration) :=
  (fun ms => if 0 <? ms then Some (from_millis ms) else None) <$> timeout m.

Definition stream_read_timeout (m : Model) : option Duration :=
  from_millis <$> (stream_timeout m ≫= fun ms => if 0 <? ms then Some ms else None).

(** [Model::ip_allowed], over the addresses the configured ranges admit. *)
Definition ip_allowed (m : Model) (source_ip : string) : bool :=
  match allowed_ips m with None => true | Some admits => admits source_ip end.

Record ProviderKey := mkProviderKey { pk_name : string; pk_groups : list string }.

(** ** API keys *)

(** What authentication, access control and admission read of an [ApiKey].
    [expires_at] is an instant on the clock [is_expired_at] compares it with. *)
Record ApiKey := mkApiKey {
  key_hash : string;
  team_id : option string;
  user_id : option string;
  key_rate_limit : option RateLimit;
  mcp_rate_limits : option (gmap string McpRateLimit);
  mcp_rate_limits_by_id : option (gmap string McpRateLimit);
  allowed_provider_groups : list string;
  allowed_models : list string;
  allowed_model_ids : option (list string);
  allowed_agents : option (list string);
  allowed_routes : option (list string);
  expires_at : option Z;
  disabled : bool;
  key_display_name : option string;
  key_user_name : option string;
  key_tags : gmap string string;
}.

(** The documents a key's [team_id] and [user_id] name. *)
Record Team := mkTeam { team_doc_name : string; team_tags : gmap string string }.
Record User := mkUser { user_doc_name : string; user_tags : gmap string string }.

(** The rows they resolve to. *)
Record KeyOwnerNames := mkOwner {
  owner_team : option (ResourceEntry Team);
  owner_user : option (ResourceEntry User);
}.

Record AuthenticatedKey := mkAuth {
  auth_entry : ResourceEntry ApiKey;
  auth_tags : gmap string string;
  auth_owner : KeyOwnerNames;
  anonymous : bool;
}.

Definition auth_key (a : AuthenticatedKey) : ApiKey := value (auth_entry a).

Record McpServerLimit := mkMcpLimit { mcp_bucket : string; mcp_limits : McpRateLimit }.

(** [servers] is [McpServerIndex]: the id each registered name is stored under. *)
Definition mcp_rate_limit (k : ApiKey) (servers : gmap string string) (server : string)
    : option McpServerLimit :=
  match mcp_rate_limits_by_id k with
  | Some limits_by_id =>
      id ← servers !! server;
      limits ← limits_by_id !! id;
      Some (mkMcpLimit id limits)
  | None =>
      limits_by_name ← mcp_rate_limits k;
      limits ← limits_by_name !! server;
      Some (mkMcpLimit server limits)
  end.

(** A price a model names by its [pricing_key]. *)
Record Pricing := mkPricing { price_key : string; price_input : f64; price_output : f64 }.

(** The tables of the snapshot that the request path reads. *)
Record AisixSnapshot := mkSnapshot {
  models : ResourceTable Model;
  provider_keys : ResourceTable ProviderKey;
  rate_limit_policies : ResourceTable RateLimitPolicy;
  apikeys : ResourceTable ApiKey;
  pricing : ResourceTable Pricing;
  global_pricing : ResourceTable Pricing;
  teams : ResourceTable Team;
  users : ResourceTable User;
}.

Definition resolve_model_ref (snapshot : AisixSnapshot) (name : string) (id : option string)
    : string :=
  match id with
  | Some id =>
      match get_by_id id (models snapshot) with
      | Some entry => display_name (value entry)
      | None => id
      end
  | None => name
  end.

Definition model_ref (snapshot : AisixSnapshot) (t : RoutingTarget) : string :=
  resolve_model_ref snapshot (target_model t) (target_model_id t).
