(* ===== verification/Pricing.v ===== *)
(** * Prices

    [crates/aisix-core/src/models/pricing.rs]: the price a model is charged by,
    from the environment's pricing documents, the global catalog, and the
    model's own inline cost, and the flattened index every reader shares, which
    is rebuilt only when a pricing table changed. *)

From S2P Require Import Prelude Sort Snapshot F64 RateStore Policy Models.
From Stdlib Require Import SpecFloat.
Local Open Scope N_scope.

(** ** The index *)

(** A price with the revision and the id of the document it came from. *)
Abbreviation Candidate := (Z * string * ModelCost)%type.

Definition cost_of (p : Pricing) : ModelCost := mkCost (price_input p) (price_output p) None None.

Definition candidate_of (e : ResourceEntry Pricing) : Candidate :=
  (revision e, entry_id e, cost_of (value e)).

(** [(a.0, &a.1) >= (b.0, &b.1)]: by revision, then by id. *)
Definition at_least (a b : Candidate) : bool :=
  let '(ra, ia, _) := a in
  let '(rb, ib, _) := b in
  (rb <? ra)%Z || ((ra =? rb)%Z && string_leb ib ia).

Definition flatten_step (out : gmap string Candidate) (entry : ResourceEntry Pricing)
    : gmap string Candidate :=
  let candidate := candidate_of entry in
  match out !! price_key (value entry) with
  | Some current => if at_least current candidate then out else <[price_key (value entry) := candidate]> out
  | None => <[price_key (value entry) := candidate]> out
  end.

(** The loop, over the rows in the order the table yields them. *)
Definition flatten_rows (l : list (ResourceEntry Pricing)) : gmap string Candidate :=
  fold_left flatten_step l ∅.

Definition flatten (table : ResourceTable Pricing) : gmap string Candidate :=
  flatten_rows (entries table).

Abbreviation PricingIndex := (gmap string ModelCost).

(** [by_key.extend]: the environment's entries replace the global ones. *)
Definition pricing_build (snap : AisixSnapshot) : PricingIndex :=
  let global := snd <$> flatten (global_pricing snap) in
  (snd <$> flatten (pricing snap)) ∪ global.

Definition pricing_get (index : PricingIndex) (key : string) : option ModelCost := index !! key.

(** [PricingIndex::resolve] *)
Definition pricing_resolve (index : PricingIndex) (m : Model) : option ModelCost :=
  or_else (pricing_key m ≫= pricing_get index) (cost m).

Definition pricing_len (index : PricingIndex) : nat := size index.

(** ** The shared copy *)

Definition index_key (snap : AisixSnapshot) : N * N :=
  (generation (pricing snap), generation (global_pricing snap)).

(** [Cached]: the key and the index built from it, swapped as one. *)
Abbreviation Cached := (N * N * PricingIndex)%type.

(** The read of the cell and the comparison: an index to return at once. *)
Definition cached_for (snap : AisixSnapshot) (cached : option Cached) : option PricingIndex :=
  match cached with
  | Some (key, index) => if bool_decide (key = index_key snap) then Some index else None
  | None => None
  end.

(** [for_snapshot], with the cell before and after. *)
Definition for_snapshot (snap : AisixSnapshot) (cached : option Cached)
    : PricingIndex * option Cached :=
  match cached_for snap cached with
  | Some index => (index, cached)
  | None => let index := pricing_build snap in (index, Some (index_key snap, index))
  end.

(** ** The document in force *)

Lemma at_least_refl a : at_least a a = true.
Proof.
  destruct a as [[r i] c]. simpl. rewrite Z.eqb_refl. apply orb_true_iff. right. simpl.
  destruct (string_leb_total i i); done.
Qed.

Lemma at_least_total a b : at_least a b = true \/ at_least b a = true.
Proof.
  destruct a as [[ra ia] ca], b as [[rb ib] cb]. simpl.
  destruct (Z.ltb_spec rb ra), (Z.ltb_spec ra rb), (Z.eqb_spec ra rb), (Z.eqb_spec rb ra); subst; simpl;
    auto; try lia. destruct (string_leb_total ib ia); auto.
Qed.

Lemma at_least_trans a b c : at_least a b = true -> at_least b c = true -> at_least a c = true.
Proof.
  destruct a as [[ra ia] ca], b as [[rb ib] cb], c as [[rc ic] cc]. simpl.
  rewrite !orb_true_iff, !andb_true_iff, !Z.ltb_lt, !Z.eqb_eq.
  intros [H|[-> H]] [H'|[-> H']]; [left; lia|left; lia|left; lia|].
  right. split; [done|]. by eapply string_leb_trans.
Qed.

Lemma at_least_antisym r i c r' i' c' :
  at_least (r, i, c) (r', i', c') = true -> at_least (r', i', c') (r, i, c) = true -> r = r' /\ i = i'.
Proof.
  simpl. rewrite !orb_true_iff, !andb_true_iff, !Z.ltb_lt, !Z.eqb_eq.
  intros [H|[-> H]] [H'|[? H']]; try lia. split; [done|]. by apply string_leb_antisym.
Qed.

(** [e] is the row of [l] in force for [key]: no other row with the key has a
    higher revision, or the same and a higher id. *)
Definition priced_by (l : list (ResourceEntry Pricing)) (key : string) (e : ResourceEntry Pricing) : Prop :=
  e ∈ l /\ price_key (value e) = key /\
  forall e', e' ∈ l -> price_key (value e') = key -> at_least (candidate_of e) (candidate_of e') = true.

Lemma flatten_rows_snoc l e : flatten_rows (l ++ [e]) = flatten_step (flatten_rows l) e.
Proof. unfold flatten_rows. by rewrite fold_left_app. Qed.

Lemma flatten_rows_spec l key :
  match flatten_rows l !! key with
  | Some c => exists e, priced_by l key e /\ c = candidate_of e
  | None => forall e, e ∈ l -> price_key (value e) <> key
  end.
Proof.
  revert key. induction l as [|e l IH] using rev_ind; intros key.
  { unfold flatten_rows. simpl. rewrite lookup_empty. intros e He. by apply elem_of_nil in He. }
  rewrite flatten_rows_snoc. unfold flatten_step. pose proof (IH key) as Hk.
  destruct (decide (price_key (value e) = key)) as [<-|Hne].
  - destruct (flatten_rows l !! price_key (value e)) as [c|] eqn:El.
    + destruct Hk as (e0 & (He0 & Hkey & Hmax) & ->).
      destruct (at_least (candidate_of e0) (candidate_of e)) eqn:Ea.
      * rewrite El. exists e0. split; [|done]. split; [set_solver|]. split; [done|].
        intros e' [He' | ->%list_elem_of_singleton]%elem_of_app; auto.
      * rewrite lookup_insert_eq. exists e. split; [|done]. split; [set_solver|]. split; [done|].
        intros e' [He' | ->%list_elem_of_singleton]%elem_of_app Hk'; [|apply at_least_refl].
        eapply at_least_trans; [|by apply Hmax].
        destruct (at_least_total (candidate_of e0) (candidate_of e)) as [H|H]; [congruence|done].
    + rewrite lookup_insert_eq. exists e. split; [|done]. split; [set_solver|]. split; [done|].
      intros e' [He' | ->%list_elem_of_singleton]%elem_of_app Hk'; [|apply at_least_refl].
      by destruct (Hk e' He').
  - assert ((match flatten_rows l !! price_key (value e) with
             | Some current => if at_least current (candidate_of e) then flatten_rows l
                               else <[price_key (value e) := candidate_of e]> (flatten_rows l)
             | None => <[price_key (value e) := candidate_of e]> (flatten_rows l)
             end) !! key = flatten_rows l !! key) as ->.
    { destruct (flatten_rows l !! price_key (value e)) as [c|]; [destruct (at_least c _); [done|]|];
        by rewrite lookup_insert_ne. }
    destruct (flatten_rows l !! key) as [c|].
    + destruct Hk as (e0 & (He0 & Hkey & Hmax) & ->). exists e0. split; [|done].
      split; [set_solver|]. split; [done|].
      intros e' [He' | ->%list_elem_of_singleton]%elem_of_app; [by apply Hmax|done].
    + intros e' [He' | ->%list_elem_of_singleton]%elem_of_app; [by apply Hk|done].
Qed.

(** The rows of a well-formed table have distinct ids, so at most one is in
    force for a key, in whatever order they are read. *)
Definition ids_distinct (l : list (ResourceEntry Pricing)) : Prop :=
  forall e e', e ∈ l -> e' ∈ l -> entry_id e = entry_id e' -> e = e'.

Lemma in_force_unique l key e e' :
  ids_distinct l -> priced_by l key e -> priced_by l key e' -> e = e'.
Proof.
  intros Hd (He & Hk & Hm) (He' & Hk' & Hm').
  destruct (at_least_antisym _ _ _ _ _ _ (Hm _ He' Hk') (Hm' _ He Hk)) as [_ Hi]. by apply Hd.
Qed.

Lemma in_force_perm l l' key e : l ≡ₚ l' -> priced_by l key e -> priced_by l' key e.
Proof.
  intros Hp (He & Hk & Hm). split; [by rewrite <- Hp|]. split; [done|]. intros e'. rewrite <- Hp. apply Hm.
Qed.

Lemma flatten_rows_in_force l key e :
  ids_distinct l -> priced_by l key e -> flatten_rows l !! key = Some (candidate_of e).
Proof.
  intros Hd Hf. pose proof (flatten_rows_spec l key) as H.
  destruct (flatten_rows l !! key) as [c|].
  - destruct H as (e' & Hf' & ->). by rewrite (in_force_unique _ _ _ _ Hd Hf Hf').
  - destruct Hf as (He & Hk & _). by destruct (H e He).
Qed.

Lemma flatten_rows_none l key :
  (forall e, e ∈ l -> price_key (value e) <> key) -> flatten_rows l !! key = None.
Proof.
  intros Hn. pose proof (flatten_rows_spec l key) as H. destruct (flatten_rows l !! key) as [c|]; [|done].
  destruct H as (e & (He & Hk & _) & _). by destruct (Hn e He).
Qed.

Lemma flatten_rows_perm l l' : ids_distinct l -> l ≡ₚ l' -> flatten_rows l = flatten_rows l'.
Proof.
  intros Hd Hp. apply map_eq. intros key. pose proof (flatten_rows_spec l key) as H.
  symmetry. destruct (flatten_rows l !! key) as [c|].
  - destruct H as (e & Hf & ->). apply flatten_rows_in_force; [|by apply (in_force_perm l)].
    intros x y. rewrite <- Hp. apply Hd.
  - apply flatten_rows_none. intros e. rewrite <- Hp. apply H.
Qed.

Lemma entries_ids_distinct t : table_wf price_key t -> ids_distinct (entries t).
Proof.
  intros Hwf e e'. unfold entries. destruct (table_is_empty t); [intros []%elem_of_nil|].
  unfold rows. rewrite !list_elem_of_fmap.
  intros ([i x] & -> & Hx%elem_of_map_to_list) ([j y] & -> & Hy%elem_of_map_to_list).
  cbn [snd]. rewrite (wf_ids _ _ Hwf _ _ Hx), (wf_ids _ _ Hwf _ _ Hy). congruence.
Qed.

(** ** What a model is charged by *)

(** The price a model is charged by is determined by the documents alone,
    not by the order the tables yield them in: an environment document with the
    model's key, the one written last, wins over every global document; without
    one the last-written global document decides; and the model's own inline
    cost counts only when neither table has the key. *)
Theorem price_in_force snap m env glob :
  table_wf price_key (pricing snap) -> table_wf price_key (global_pricing snap) ->
  env ≡ₚ entries (pricing snap) -> glob ≡ₚ entries (global_pricing snap) ->
  let index := (snd <$> flatten_rows env) ∪ (snd <$> flatten_rows glob) in
  index = pricing_build snap /\
  (pricing_key m = None -> pricing_resolve index m = cost m) /\
  (forall key, pricing_key m = Some key ->
     (forall e, priced_by env key e -> pricing_resolve index m = Some (cost_of (value e))) /\
     ((forall e, e ∈ env -> price_key (value e) <> key) ->
        (forall e, priced_by glob key e -> pricing_resolve index m = Some (cost_of (value e))) /\
        ((forall e, e ∈ glob -> price_key (value e) <> key) -> pricing_resolve index m = cost m))).
Proof.
  intros Hwe Hwg He Hg index.
  assert (ids_distinct env) as Hde by (intros x y; rewrite He; by apply entries_ids_distinct).
  assert (ids_distinct glob) as Hdg by (intros x y; rewrite Hg; by apply entries_ids_distinct).
  split; [unfold index, pricing_build, flatten; by rewrite (flatten_rows_perm _ _ Hde He), (flatten_rows_perm _ _ Hdg Hg)|].
  unfold pricing_resolve, pricing_get. split; [by intros ->|]. intros key ->. cbn [mbind option_bind].
  assert (index !! key = (snd <$> flatten_rows env !! key) ∪ (snd <$> flatten_rows glob !! key)) as ->
    by (unfold index; by rewrite lookup_union, !lookup_fmap).
  split; [|intros Hn; rewrite (flatten_rows_none _ _ Hn); split].
  - intros e Hf. rewrite (flatten_rows_in_force _ _ _ Hde Hf). by destruct (flatten_rows glob !! key).
  - intros e Hf. by rewrite (flatten_rows_in_force _ _ _ Hdg Hf).
  - intros Hn'. by rewrite (flatten_rows_none _ _ Hn').
Qed.

(** ** The cache is never stale *)

(** A cell that some earlier rebuild, of any thread, filled. *)
Definition cell_ok (published : AisixSnapshot -> Prop) (cached : option Cached) : Prop :=
  cached = None \/ exists snap, published snap /\ cached = Some (index_key snap, pricing_build snap).

Lemma pricing_build_rows snap snap' :
  same_rows (pricing snap) (pricing snap') -> same_rows (global_pricing snap) (global_pricing snap') ->
  table_wf price_key (pricing snap) -> table_wf price_key (pricing snap') ->
  table_wf price_key (global_pricing snap) -> table_wf price_key (global_pricing snap') ->
  pricing_build snap = pricing_build snap'.
Proof.
  intros (E & _) (E' & _) W1 W2 W3 W4. unfold pricing_build, flatten, entries, table_is_empty, table_len.
  by rewrite (wf_count _ _ W1), (wf_count _ _ W2), (wf_count _ _ W3), (wf_count _ _ W4), E, E'.
Qed.

(** The shared index is as good as a fresh one: whatever earlier rebuild
    filled the cell, on whichever thread and from whichever published snapshot,
    [for_snapshot] returns the index of the snapshot it was given, and leaves
    in the cell an index some published snapshot has.  Two racing rebuilds can
    only overwrite each other's cells. *)
Theorem pricing_cache_transparent p published snap cached :
  rtc (process_step price_key) (mkProcess [] 1) p ->
  (forall s, published s -> pricing s ∈ tables p /\ global_pricing s ∈ tables p) ->
  published snap -> cell_ok published cached ->
  fst (for_snapshot snap cached) = pricing_build snap /\
  cell_ok published (snd (for_snapshot snap cached)).
Proof.
  intros R Hp Hs Hc. unfold for_snapshot, cached_for.
  destruct Hc as [-> |(snap' & Hs' & ->)]; cbn [fst snd].
  { split; [done|]. right. eauto. }
  case_bool_decide as Hk; cbn [fst snd]; [|split; [done|]; right; eauto].
  split; [|right; eauto].
  destruct (Hp _ Hs) as (Hin & Hin'), (Hp _ Hs') as (Jn & Jn'). injection Hk as Hk Hk'.
  pose proof (pok_same _ (process_runs_ok _ _ R)) as Hsame.
  pose proof (process_tables_wf _ _ R) as Hw.
  apply pricing_build_rows; auto.
Qed.

(** ** Witnesses: an override replaced while the catalog has the key. *)

Definition demo_price (k : string) (n : N) : Pricing := mkPricing k (f64_of_N n) (f64_of_N n).
Definition demo_env_prices : ResourceTable Pricing :=
  fst (insert_arc price_key (mkEntry "e2" (demo_price "k" 7) 9)
    (fst (insert_arc price_key (mkEntry "e1" (demo_price "k" 5) 4) table_default 1)) 2).
Definition demo_catalog : ResourceTable Pricing :=
  fst (insert_arc price_key (mkEntry "g1" (demo_price "k" 1) 1) table_default 3).
Definition demo_priced (m : option string) : Model :=
  mkModel "m" None None None None None None false false
    (Some (mkCost (f64_of_N 2) (f64_of_N 2) None None)) m None None None None None.
Definition demo_prices : AisixSnapshot :=
  mkSnapshot table_default table_default table_default table_default demo_env_prices demo_catalog
    table_default table_default.

Lemma demo_tables_wf : table_wf price_key demo_env_prices /\ table_wf price_key demo_catalog.
Proof. split; repeat (apply insert_arc_wf || apply table_default_wf). Qed.

Lemma demo_env_entries e :
  e ∈ entries (pricing demo_prices) <->
  e = mkEntry "e1" (demo_price "k" 5) 4 \/ e = mkEntry "e2" (demo_price "k" 7) 9.
Proof.
  change (e ∈ rows (by_id demo_env_prices) <->
    e = mkEntry "e1" (demo_price "k" 5) 4 \/ e = mkEntry "e2" (demo_price "k" 7) 9).
  unfold rows. rewrite list_elem_of_fmap. setoid_rewrite elem_of_map_to_list'.
  change (by_id demo_env_prices) with
    (<["e2" := mkEntry "e2" (demo_price "k" 7) 9]>
      (<["e1" := mkEntry "e1" (demo_price "k" 5) 4]> (∅ : gmap string (ResourceEntry Pricing)))).
  split.
  - intros ([i x] & -> & H). simpl in *. rewrite !lookup_insert_Some, lookup_empty in H. naive_solver.
  - intros [-> | ->]; [exists ("e1", mkEntry "e1" (demo_price "k" 5) 4)|exists ("e2", mkEntry "e2" (demo_price "k" 7) 9)];
      (split; [done|]); simpl; rewrite !lookup_insert_Some; naive_solver.
Qed.

Lemma price_in_force_witness :
  let index := pricing_build demo_prices in
  pricing_resolve index (demo_priced None) = cost (demo_priced None) /\
  pricing_resolve index (demo_priced (Some "k")) = Some (cost_of (demo_price "k" 7)).
Proof.
  destruct demo_tables_wf as [We Wg].
  destruct (price_in_force demo_prices (demo_priced (Some "k")) _ _ We Wg (reflexivity _) (reflexivity _))
    as (_ & _ & H).
  split; [reflexivity|]. apply (proj1 (H "k" eq_refl) (mkEntry "e2" (demo_price "k" 7) 9)).
  split; [apply demo_env_entries; by right|]. split; [done|].
  intros e' [-> | ->]%demo_env_entries _; reflexivity.
Defined.

Lemma pricing_cache_transparent_witness :
  let cell := snd (for_snapshot demo_prices None) in
  let cleared := mkSnapshot table_default table_default table_default table_default table_default demo_catalog
                   table_default table_default in
  index_key cleared <> index_key demo_prices /\
  fst (for_snapshot cleared cell) = pricing_build cleared.
Proof.
  set (cleared := mkSnapshot table_default table_default table_default table_default table_default demo_catalog
                   table_default table_default).
  split; [done|].
  apply (pricing_cache_transparent (mkProcess [table_default; demo_catalog; demo_env_prices] 4)
           (fun s => s = demo_prices \/ s = cleared)); [| |by right|right; exists demo_prices; auto].
  - eapply rtc_l; [apply ps_new|]. eapply rtc_l.
    { apply (ps_write price_key [] table_default [] 1 (OpInsert (mkEntry "e1" (demo_price "k" 5) 4))). reflexivity. }
    eapply rtc_l.
    { eapply (ps_write price_key [] _ [] 2 (OpInsert (mkEntry "e2" (demo_price "k" 7) 9))). reflexivity. }
    eapply rtc_l; [apply ps_new|]. eapply rtc_l.
    { apply (ps_write price_key [] table_default [_] 3 (OpInsert (mkEntry "g1" (demo_price "k" 1) 1))). reflexivity. }
    eapply rtc_l; [apply ps_new|]. apply rtc_refl.
  - intros s [-> | ->]; set_solver.
Defined.
