(* ===== verification/Resolve.v ===== *)
(** * Resolving the model a request names

    [crates/aisix-proxy/src/model_resolve.rs]: the exact name first, then the
    most specific [provider/*] row, materialised as a copy that dispatches the
    substituted upstream model; and what resolution leaves on the request's
    attribution cell ([attribution.rs]). *)

From S2P Require Import Prelude Sort Utf8 Text Snapshot F64 RateStore Policy Models.
Local Open Scope nat_scope.

(** ** The attribution cell *)

Record Attribution := mkAttribution {
  requested_model : string;
  requested_model_id : string;
  entry_model_id : string;
}.

Definition attribution_new : Attribution := mkAttribution "" "" "".

Definition note_requested_model (requested entry_id : string) (a : Attribution) : Attribution :=
  if bool_decide (requested_model a = "") then mkAttribution requested entry_id (entry_model_id a) else a.

Definition note_resolved_entry (entry_id : string) (a : Attribution) : Attribution :=
  if bool_decide (entry_model_id a = "")
  then mkAttribution (requested_model a) (requested_model_id a) entry_id else a.

(** ** Wildcard rows *)

(** A row that dispatches no upstream itself. *)
Definition composite (m : Model) : bool := is_routing m || is_ensemble m || is_semantic m.

Definition resolve_upstream_model_name (m : Model) (capture : bytes) : string :=
  match model_name m with
  | Some t =>
      match Text.split_once (lit t) with
      | Some (head, tail) => of_bytes (head ++ capture ++ tail)
      | None => t
      end
  | None => of_bytes capture
  end.

Definition dispatchable_entry_id (entry : ResourceEntry Model) : string :=
  if composite (value entry) then "" else entry_id entry.

Definition note_dispatchable_entry (entry : ResourceEntry Model) (a : Attribution) : Attribution :=
  let id := dispatchable_entry_id entry in
  if negb (bool_decide (id = "")) then note_resolved_entry id a else a.

(** The capture of a direct row, and how much of its name is literal. *)
Definition row_capture (requested : string) (m : Model) : option bytes :=
  if composite m then None else wildcard_capture (lit (display_name m)) (lit requested).
Definition specificity (m : Model) : nat := length (lit (display_name m)) - 1.

Definition best_step (requested : string) (best : option (nat * ResourceEntry Model * string))
    (entry : ResourceEntry Model) : option (nat * ResourceEntry Model * string) :=
  match row_capture requested (value entry) with
  | None => best
  | Some capture =>
      let better :=
        match best with
        | None => true
        | Some (s, e, _) =>
            (s <? specificity (value entry)) ||
            ((specificity (value entry) =? s) && negb (string_leb (entry_id e) (entry_id entry)))
        end in
      if better
      then Some (specificity (value entry), entry, resolve_upstream_model_name (value entry) capture)
      else best
  end.

(** The loop of [best_wildcard_row], over the rows in the order met. *)
Definition best_of_rows (requested : string) (l : list (ResourceEntry Model))
    : option (nat * ResourceEntry Model * string) :=
  fold_left (best_step requested) l None.

Definition best_wildcard_row (snapshot : AisixSnapshot) (requested : string)
    : option (ResourceEntry Model * string) :=
  (fun '(_, entry, upstream) => (entry, upstream))
    <$> best_of_rows requested (wildcard_entries (models snapshot)).

(** ** Resolution *)

(** [Arc::make_mut(&mut model).model_name = Some(upstream)] on the copy. *)
Definition with_model_name (m : Model) (upstream : string) : Model :=
  mkModel (display_name m) (provider_key_id m) (timeout m) (stream_timeout m) (retries m) (allowed_ips m)
    (routing m) (ensemble m) (semantic m) (cost m) (pricing_key m) (background_model_check m) (cooldown m)
    (rate_limit m) (provider m) (Some upstream).

Definition resolve_model (snapshot : AisixSnapshot) (requested : string) (a : Attribution)
    : option (ResourceEntry Model) * Attribution :=
  match get_by_name requested (models snapshot) with
  | Some exact => (Some exact, note_dispatchable_entry exact (note_requested_model requested (entry_id exact) a))
  | None =>
      match best_wildcard_row snapshot requested with
      | None => (None, a)
      | Some (entry, upstream) =>
          (Some (mkEntry (entry_id entry) (with_model_name (value entry) upstream) (revision entry)),
           note_dispatchable_entry entry (note_requested_model requested (entry_id entry) a))
      end
  end.

Definition row_serves_name (m : Model) (requested : string) : bool :=
  if composite m then false
  else bool_decide (display_name m = requested) ||
       (contains_star (display_name m) && bool_decide (is_Some (wildcard_capture (lit (display_name m)) (lit requested)))).

Definition wildcard_row_name (snapshot : AisixSnapshot) (requested : string) : option string :=
  (fun '(entry, _) => display_name (value entry)) <$> best_wildcard_row snapshot requested.

Definition wildcard_row_identity (snapshot : AisixSnapshot) (requested : string) : option (string * string) :=
  (fun '(entry, _) => (display_name (value entry), default "*" (model_name (value entry))))
    <$> best_wildcard_row snapshot requested.

Definition wildcard_upstream_model (row : Model) (requested : string) : option string :=
  resolve_upstream_model_name row <$> wildcard_capture (lit (display_name row)) (lit requested).

(** ** The row that wins *)

(** [e] is at least as good as [e']: more of its name is literal, or as much
    and its id is the lower. *)
Definition beats (e e' : ResourceEntry Model) : Prop :=
  specificity (value e') < specificity (value e) \/
  (specificity (value e') = specificity (value e) /\ string_leb (entry_id e) (entry_id e') = true).

#[local] Instance beats_preorder : PreOrder beats.
Proof.
  split.
  - intros e. right. split; [done|]. by destruct (string_leb_total (entry_id e) (entry_id e)).
  - intros a b c [H|[H Hl]] [H'|[H' Hl']]; [left; lia|left; lia|left; lia|right].
    split; [lia|by eapply string_leb_trans].
Qed.

(** [e] is a row of [l] that could serve [requested], and beats every other. *)
Definition best_row (requested : string) (l : list (ResourceEntry Model)) (e : ResourceEntry Model) : Prop :=
  e ∈ l /\ is_Some (row_capture requested (value e)) /\
  forall e', e' ∈ l -> is_Some (row_capture requested (value e')) -> beats e e'.

Lemma best_row_keep requested l e x :
  best_row requested l e -> (is_Some (row_capture requested (value x)) -> beats e x) ->
  best_row requested (l ++ [x]) e.
Proof.
  intros (He & Hc & Hb) Hx. split; [set_solver|]. split; [done|].
  intros e' [He' | ->%list_elem_of_singleton]%elem_of_app; auto.
Qed.

Lemma best_row_new requested l x :
  is_Some (row_capture requested (value x)) ->
  (forall e, e ∈ l -> is_Some (row_capture requested (value e)) -> beats x e) ->
  best_row requested (l ++ [x]) x.
Proof.
  intros Hc Hb. split; [set_solver|]. split; [done|].
  intros e' [He' | ->%list_elem_of_singleton]%elem_of_app; auto. by intros _.
Qed.

Lemma best_of_rows_spec requested l :
  match best_of_rows requested l with
  | Some (s, e, upstream) =>
      best_row requested l e /\ s = specificity (value e) /\
      exists capture, row_capture requested (value e) = Some capture /\
        upstream = resolve_upstream_model_name (value e) capture
  | None => forall e, e ∈ l -> row_capture requested (value e) = None
  end.
Proof.
  unfold best_of_rows. induction l as [|e l IH] using rev_ind; simpl.
  { intros e He. by apply elem_of_nil in He. }
  rewrite fold_left_app. simpl. set (best := fold_left (best_step requested) l None) in *.
  unfold best_step. destruct (row_capture requested (value e)) as [capture|] eqn:Ec.
  - assert (is_Some (row_capture requested (value e))) as Hc by (by rewrite Ec).
    destruct best as [[[s e0] up]|].
    + destruct IH as (Hb & -> & Hcap). pose proof Hb as (_ & _ & Hall).
      destruct (_ || _) eqn:Et.
      * split; [|eauto]. apply best_row_new; [done|]. intros e' He' Hc'. trans e0; [|by apply Hall].
        apply orb_true_iff in Et as [Et|[Es Ei]%andb_true_iff]; [left; by apply Nat.ltb_lt|right].
        apply Nat.eqb_eq in Es. split; [done|].
        destruct (string_leb_total (entry_id e) (entry_id e0)) as [|Hl]; [done|]. by rewrite Hl in Ei.
      * split; [|eauto]. apply best_row_keep; [done|]. intros _.
        apply orb_false_iff in Et as [Et Ei]. apply Nat.ltb_ge in Et.
        apply andb_false_iff in Ei as [Ei|Ei]; [apply Nat.eqb_neq in Ei; left; lia|].
        apply negb_false_iff in Ei. destruct (decide (specificity (value e) = specificity (value e0)));
          [by right|left; lia].
    + split; [|eauto]. apply best_row_new; [done|]. intros e' He' Hc'. rewrite (IH e' He') in Hc'.
      by destruct Hc'.
  - destruct best as [[[s e0] up]|].
    + destruct IH as (Hb & Hs). split; [|done]. apply best_row_keep; [done|]. rewrite Ec. by intros [].
    + intros e' [He' | ->%list_elem_of_singleton]%elem_of_app; [by apply IH|done].
Qed.

Lemma best_row_unique requested l e e' :
  (forall x y, x ∈ l -> y ∈ l -> entry_id x = entry_id y -> x = y) ->
  best_row requested l e -> best_row requested l e' -> e = e'.
Proof.
  intros Hd (He & Hc & Hb) (He' & Hc' & Hb'). apply Hd; [done|done|].
  destruct (Hb e' He' Hc') as [Hs|[Hs Hl]], (Hb' e He Hc) as [Hs'|[Hs' Hl']]; try lia.
  by apply (string_leb_antisym _ _ Hl Hl').
Qed.

Lemma elem_of_wildcard_entries (t : ResourceTable Model) e :
  table_wf display_name t ->
  e ∈ wildcard_entries t <->
  by_id t !! entry_id e = Some e /\ contains_star (display_name (value e)) = true.
Proof.
  intros W. unfold wildcard_entries, rows. rewrite list_elem_of_fmap. split.
  - intros ([i x] & -> & Hx%elem_of_map_to_list). simpl. rewrite (wf_wild _ _ W) in Hx.
    destruct (by_id t !! i) as [e|] eqn:E; simpl in Hx; [|done].
    destruct (contains_star _) eqn:Es; [|done]. injection Hx as <-.
    by rewrite (wf_ids _ _ W _ _ E).
  - intros [E Es]. exists (entry_id e, e). split; [done|]. apply elem_of_map_to_list.
    rewrite (wf_wild _ _ W), E. simpl. by rewrite Es.
Qed.

(** What a capture says: one star, and the literal text around what it stood for. *)
Lemma wildcard_capture_inv p c x :
  wildcard_capture p c = Some x ->
  exists prefix suffix, Text.split_once p = Some (prefix, suffix) /\ c = prefix ++ x ++ suffix /\
    wildcard_matches p c = true.
Proof.
  pose proof (wildcard_capture_spec p c) as H. intros E.
  destruct (Text.split_once p) as [[prefix suffix]|] eqn:Es; [|congruence].
  destruct (decide (STAR ∈ suffix)); [congruence|]. rewrite E in H. destruct H as [-> H]. eauto.
Qed.

Lemma contains_star_lit s : contains_star s = true <-> STAR ∈ lit s.
Proof.
  induction s as [|a s IH]; cbn [contains_star lit]; [by split; [|intros ?%elem_of_nil]|].
  rewrite orb_true_iff, IH, elem_of_cons, N.eqb_eq. unfold STAR. naive_solver.
Qed.

Lemma captured_has_star s c x : wildcard_capture (lit s) c = Some x -> contains_star s = true.
Proof.
  intros (prefix & suffix & Es & _)%wildcard_capture_inv. apply split_once_Some in Es as [Es _].
  apply contains_star_lit. rewrite Es. set_solver.
Qed.

(** ** What resolution answers *)

(** C23. Resolving a name: a row with exactly that name is answered as it is;
    otherwise the request goes to the direct wildcard row whose pattern covers
    it, the one with the most literal text, the lowest id among equals, the
    same whatever order the rows are met in; the answer is that row with its
    upstream model set to what the star stood for, put in the template's star.
    Only a name no direct pattern covers resolves to nothing. *)
Theorem resolution_spec snapshot requested a l :
  table_wf display_name (models snapshot) -> l ≡ₚ wildcard_entries (models snapshot) ->
  match get_by_name requested (models snapshot), fst (resolve_model snapshot requested a) with
  | Some exact, answer => answer = Some exact
  | None, Some answer => exists e prefix suffix x,
      best_row requested l e /\ (forall e', best_row requested l e' -> e' = e) /\
      composite (value e) = false /\
      Text.split_once (lit (display_name (value e))) = Some (prefix, suffix) /\
      lit requested = prefix ++ x ++ suffix /\
      answer = mkEntry (entry_id e) (with_model_name (value e) (resolve_upstream_model_name (value e) x))
                 (revision e)
  | None, None => forall e, e ∈ l -> row_capture requested (value e) = None
  end.
Proof.
  intros W Hl. unfold resolve_model. destruct (get_by_name _ _) as [exact|]; [done|].
  unfold best_wildcard_row. pose proof (best_of_rows_spec requested (wildcard_entries (models snapshot))) as Hb.
  destruct (best_of_rows _ _) as [[[s e] up]|]; cbn [fmap option_fmap option_map fst].
  - destruct Hb as (Hb & -> & x & Hx & ->). unfold row_capture in Hx.
    destruct (composite (value e)) eqn:Ec; [done|].
    destruct (wildcard_capture_inv _ _ _ Hx) as (prefix & suffix & Es & Hr & _).
    exists e, prefix, suffix, x.
    assert (best_row requested l e) as Hbl.
    { destruct Hb as (He & Hc & Hall). split; [by rewrite Hl|]. split; [done|].
      intros e'. rewrite Hl. apply Hall. }
    split; [done|]. split; [|done]. intros e' He'. apply (best_row_unique requested l); [|done|done].
    intros y z. rewrite Hl, !elem_of_wildcard_entries by done. intros [Hy _] [Hz _] E. congruence.
  - intros e. rewrite Hl. apply Hb.
Qed.

(** Where an answer comes from. *)
Lemma resolution_inv snapshot requested a r :
  table_wf display_name (models snapshot) ->
  fst (resolve_model snapshot requested a) = Some r ->
  get_by_name requested (models snapshot) = Some r \/
  exists e x, get_by_id (entry_id e) (models snapshot) = Some e /\
    r = mkEntry (entry_id e) (with_model_name (value e) (resolve_upstream_model_name (value e) x)) (revision e) /\
    composite (value e) = false /\ wildcard_capture (lit (display_name (value e))) (lit requested) = Some x.
Proof.
  intros W. unfold resolve_model, best_wildcard_row. destruct (get_by_name _ _) as [exact|]; [intros [= ->]; by left|].
  pose proof (best_of_rows_spec requested (wildcard_entries (models snapshot))) as Hb.
  destruct (best_of_rows _ _) as [[[s e] up]|]; cbn [fmap option_fmap option_map fst]; [|done].
  intros [= <-]. right. destruct Hb as ((He & _) & _ & x & Hx & ->).
  apply elem_of_wildcard_entries in He as [He _]; [|done]. unfold row_capture in Hx.
  exists e, x. destruct (composite (value e)) eqn:Ec; [done|]. done.
Qed.

(** Resolving and attesting agree: the row a name resolves to, when it is
    dispatched to at all, is one [row_serves_name] accepts the name for, so a
    response is never labelled with a name its row does not serve; and where
    no two rows share a name, every name some row serves does resolve. *)
Theorem resolved_row_serves guarded snapshot requested a :
  table_reachable display_name guarded (models snapshot) ->
  (forall r, fst (resolve_model snapshot requested a) = Some r ->
     exists e, get_by_id (entry_id r) (models snapshot) = Some e /\
       entry_id e = entry_id r /\ display_name (value r) = display_name (value e) /\
       (composite (value e) = false -> row_serves_name (value e) requested = true)) /\
  (guarded = true -> forall i e, get_by_id i (models snapshot) = Some e ->
     row_serves_name (value e) requested = true -> is_Some (fst (resolve_model snapshot requested a))).
Proof.
  intros R. pose proof (table_reachable_wf _ _ _ R) as W.
  destruct (table_indices_agree _ _ _ R) as (Hname & _ & _ & Hexact). split.
  - intros r Hr. pose proof (resolution_inv snapshot requested a r W Hr) as H.
    destruct H as [He|(e & x & He & -> & Hc & Hx)].
    + destruct (Hname _ _ He) as [Hi Hd]. exists r. split; [done|]. split; [done|]. split; [done|].
      intros Hc. unfold row_serves_name. by rewrite Hc, bool_decide_true.
    + exists e. split; [done|]. split; [done|]. split; [done|]. intros _.
      unfold row_serves_name. rewrite Hc, (captured_has_star _ _ _ Hx), Hx. by rewrite orb_true_r.
  - intros Hg i e He Hs. destruct (Hexact Hg _ _ He) as [Hi Hn].
    unfold row_serves_name in Hs. destruct (composite (value e)) eqn:Ec; [done|].
    unfold resolve_model, best_wildcard_row. destruct (get_by_name requested _) eqn:En; [done|].
    apply orb_true_iff in Hs as [Hs|[Hst Hs]%andb_true_iff].
    { apply bool_decide_eq_true in Hs as <-. congruence. }
    apply bool_decide_eq_true in Hs.
    pose proof (best_of_rows_spec requested (wildcard_entries (models snapshot))) as Hb.
    destruct (best_of_rows _ _) as [[[s e'] up]|]; [by eexists|].
    exfalso. specialize (Hb e). unfold row_capture in Hb. rewrite Ec in Hb. rewrite Hb in Hs; [by destruct Hs|].
    apply elem_of_wildcard_entries; [done|]. split; [by rewrite Hi|done].
Qed.

(** ** Witnesses: two patterns cover [openai/gpt-4], the longer one serves it. *)

Definition demo_row (name : string) (upstream : option string) : Model :=
  mkModel name (Some "pk") None None None None None false false None None None None None (Some "openai") upstream.
Definition demo_rows : ResourceTable Model :=
  fst (insert_arc display_name (mkEntry "w2" (demo_row "openai/gpt*" (Some "GPT*-x")) 2)
    (fst (insert_arc display_name (mkEntry "w1" (demo_row "openai/*" None) 1) table_default 1)) 2).
Definition demo_catalog_snapshot : AisixSnapshot :=
  mkSnapshot demo_rows table_default table_default table_default table_default table_default
    table_default table_default.

Lemma demo_rows_reachable : table_reachable display_name true demo_rows.
Proof.
  apply (tr_step display_name true _ (OpInsert (mkEntry "w2" (demo_row "openai/gpt*" (Some "GPT*-x")) 2)) 2);
    [|intros _; vm_compute; reflexivity].
  apply (tr_step display_name true table_default (OpInsert (mkEntry "w1" (demo_row "openai/*" None) 1)) 1);
    [apply tr_default|intros _; vm_compute; reflexivity].
Qed.

Lemma resolution_spec_witness :
  fst (resolve_model demo_catalog_snapshot "openai/gpt-4" attribution_new)
    = Some (mkEntry "w2" (with_model_name (demo_row "openai/gpt*" (Some "GPT*-x")) "GPT-4-x") 2) /\
  exists e prefix suffix x,
    best_row "openai/gpt-4" (wildcard_entries demo_rows) e /\
    (forall e', best_row "openai/gpt-4" (wildcard_entries demo_rows) e' -> e' = e) /\
    composite (value e) = false /\
    Text.split_once (lit (display_name (value e))) = Some (prefix, suffix) /\
    lit "openai/gpt-4" = prefix ++ x ++ suffix /\
    mkEntry "w2" (with_model_name (demo_row "openai/gpt*" (Some "GPT*-x")) "GPT-4-x") 2 =
      mkEntry (entry_id e) (with_model_name (value e) (resolve_upstream_model_name (value e) x)) (revision e).
Proof.
  split; [vm_compute; reflexivity|].
  exact (resolution_spec demo_catalog_snapshot "openai/gpt-4" attribution_new _
           (table_reachable_wf _ _ _ demo_rows_reachable) (reflexivity _)).
Defined.

Lemma resolved_row_serves_witness :
  row_serves_name (demo_row "openai/*" None) "openai/o3" = true /\
  is_Some (fst (resolve_model demo_catalog_snapshot "openai/o3" attribution_new)).
Proof.
  split; [vm_compute; reflexivity|].
  apply (proj2 (resolved_row_serves true demo_catalog_snapshot "openai/o3" attribution_new demo_rows_reachable)
           eq_refl "w1" (mkEntry "w1" (demo_row "openai/*" None) 1)); vm_compute; reflexivity.
Defined.
