(* ===== verification/Failure.v ===== *)
(** * Failures, retries and deadlines

    [crates/aisix-gateway/src/bridge.rs] (the error type),
    [crates/aisix-proxy/src/cooldown.rs] (the cooldown decision) and the first
    part of [crates/aisix-proxy/src/routing.rs]: which failure is retried, for
    how long a retry waits, how many retries and which deadlines a dispatch has,
    and the retry loop around one model.  The upstream is a script of outcomes,
    the random jitter an argument; awaiting is an entry of the trace. *)

From S2P Require Import Prelude Models.
Local Open Scope N_scope.

(** ** Errors *)

Inductive BridgeCapability := Embeddings | TextCompletions | ImageGeneration | AnthropicMessages.

Inductive BridgeError :=
  | Timeout (elapsed_ms : N) (cause : string)
  | UpstreamStatus (status : N) (message : string) (retry_after : option Duration)
  | UpstreamBodyUnread (status : N) (reason : string)
  | UpstreamDecode (message : string)
  | TokenExchangeDecode (message : string)
  | UpstreamInBand (status : option N) (message : string)
  | Config (message : string)
  | UnsupportedCapability (capability : BridgeCapability)
  | InvalidUpstreamConfig (message : string)
  | InvalidRequest (message : string)
  | RequestTooLarge (limit_bytes inbound_bytes downloaded_bytes : N)
  | InvalidUpstreamCredentials (message : string)
  | Transport (message : string)
  | StreamAborted.

Definition upstream_status (status : N) (message : string) : BridgeError :=
  UpstreamStatus status message None.
Definition upstream_status_with_retry_after (status : N) (message : string)
    (retry_after : option Duration) : BridgeError :=
  UpstreamStatus status message retry_after.

(** [list.contains(&status)] *)
Definition contains (status : N) (l : list N) : bool := existsb (N.eqb status) l.

(** ** Retryability *)

Definition status_retryable (retry_on_429 : bool) (fallback_on_statuses : list N) (status : N)
    : bool :=
  if contains status fallback_on_statuses then true
  else if status =? 429 then retry_on_429
  else negb ((400 <=? status) && (status <? 500)).

Definition is_retryable (err : BridgeError) (retry_on_429 : bool)
    (fallback_on_statuses : list N) : bool :=
  match err with
  | UpstreamStatus status _ _ => status_retryable retry_on_429 fallback_on_statuses status
  | UpstreamInBand status _ =>
      match status with
      | Some s => status_retryable retry_on_429 fallback_on_statuses s
      | None => true
      end
  | InvalidUpstreamConfig _ | InvalidRequest _ | RequestTooLarge _ _ _
  | InvalidUpstreamCredentials _ => false
  | UnsupportedCapability _ => false
  | UpstreamDecode _ | UpstreamBodyUnread _ _ => false
  | Timeout _ _ | TokenExchangeDecode _ | Transport _ | Config _ | StreamAborted => true
  end.

Definition bridge_target_unusable (err : BridgeError) : bool :=
  match err with
  | InvalidUpstreamConfig _ | InvalidUpstreamCredentials _ => true
  | _ => false
  end.

(** ** Cooldown *)

Definition reason_for_status (status : N) : string :=
  if status =? 401 then "upstream_auth_failure"
  else if status =? 408 then "upstream_request_timeout"
  else if status =? 429 then "upstream_rate_limited"
  else if (500 <=? status) && (status <=? 599) then "upstream_server_error"
  else "upstream_status_failure".

Definition decide_cooldown (err : BridgeError) (cfg : option CooldownConfig)
    : option (Duration * string) :=
  match cfg with
  | None => None
  | Some cfg =>
      if negb (is_enabled cfg) then None
      else
        let default_secs := default_seconds_or_default cfg in
        if default_secs =? 0 then None
        else
          let max := from_secs (max_seconds_or_default cfg) in
          let default_ttl := from_secs default_secs in
          let clamp d := N.min d max in
          match err with
          | UpstreamStatus status _ retry_after =>
              if negb (contains status (effective_trigger_statuses cfg)) then None
              else
                let ttl :=
                  if honor_retry_after_or_default cfg
                  then default default_ttl (clamp <$> retry_after)
                  else default_ttl in
                Some (ttl, reason_for_status status)
          | UpstreamInBand (Some status) _ =>
              if negb (contains status (effective_trigger_statuses cfg)) then None
              else Some (default_ttl, reason_for_status status)
          | UpstreamInBand None _ =>
              if trigger_on_transport_or_default cfg
              then Some (default_ttl, "upstream_in_band_error") else None
          | Timeout _ _ =>
              if trigger_on_timeout_or_default cfg
              then Some (default_ttl, "request_timeout") else None
          | Transport _ | StreamAborted =>
              if trigger_on_transport_or_default cfg
              then Some (default_ttl, "transport_error") else None
          | UpstreamDecode _ | UpstreamBodyUnread _ _ => None
          | TokenExchangeDecode _ =>
              if trigger_on_transport_or_default cfg
              then Some (default_ttl, "upstream_decode_error") else None
          | Config _ => None
          | _ => None
          end
  end.

(** ** Backoff *)

Definition RETRY_BACKOFF_BASE_MS : N := 250.
Definition RETRY_BACKOFF_MAX_MS : N := 2000.
Definition RETRY_BACKOFF_JITTER_MS : N := 250.
Definition RETRY_AFTER_HONOR_MAX_MS : N := 5000.

(** [jitter] is the sample of [0..=RETRY_BACKOFF_JITTER_MS]. *)
Definition retry_backoff (jitter : N) (retry : N) (retry_after : option Duration) : Duration :=
  if retry =? 0 then 0
  else
    let exp := sat_mul RETRY_BACKOFF_BASE_MS (N.shiftl 1 (N.min (retry - 1) 20)) in
    let base := N.min exp RETRY_BACKOFF_MAX_MS in
    match retry_after with
    | Some hint =>
        let hint_ms := N.min (as_millis hint) u64_max in
        if (0 <? hint_ms) && (hint_ms <=? RETRY_AFTER_HONOR_MAX_MS)
        then from_millis (hint_ms + jitter)
        else from_millis (base + jitter)
    | None => from_millis (base + jitter)
    end.

Definition retry_after_hint (err : BridgeError) : option Duration :=
  match err with UpstreamStatus _ _ retry_after => retry_after | _ => None end.

(** ** Budgets *)

Record RetryBudget := mkBudget { attempts : nat; configured : bool }.

Definition effective_retries (target : Model) (group_retries : option N)
    (deployment_default : N) (has_fallback_targets : bool) : RetryBudget :=
  match (match retries target with Some r => Some r | None => group_retries end) with
  | Some explicit => mkBudget (N.to_nat explicit) true
  | None => mkBudget (if has_fallback_targets then 0 else N.to_nat deployment_default)%nat false
  end.

Definition group_retries_of (parent : Model) : option N :=
  match routing parent with
  | Some routing => routing_retries routing
  | None => retries parent
  end.

Definition covers (b : RetryBudget) (err : BridgeError) : bool :=
  configured b || match err with Timeout _ _ => false | _ => true end.

(** ** Deadlines *)

Record TimeoutDefaults := mkDefaults { def_request : option Duration; def_stream : option Duration }.

Record TimeoutBudget := mkTimeouts {
  request_deadline : option Duration;
  stream_deadline : option Duration;
  stream_configured : bool;
}.

Definition effective_timeouts (target : Model) (group : option Model) (defaults : TimeoutDefaults)
    : TimeoutBudget :=
  let request_level :=
    or_else (request_timeout_level target) (group ≫= request_timeout_level) in
  let request := default (def_request defaults) request_level in
  let resource_stream :=
    or_else (stream_read_timeout target) (group ≫= stream_read_timeout) in
  let '(stream, stream_configured) :=
    match resource_stream with
    | Some d => (Some d, true)
    | None =>
        match request_level with
        | Some r => (r, match r with Some _ => true | None => false end)
        | None => (or_else (def_stream defaults) (def_request defaults), false)
        end
    end in
  mkTimeouts request stream stream_configured.

(** ** The retry loop around one model *)

Inductive retry_event :=
  | EvSleep (backoff : Duration)
  | EvCall (attempt_idx : nat).

Section retry.
Context {T : Type}.
(** What the [n]th call answers, the [n]th jitter sample, the caller's veto. *)
Context (call : nat -> result T BridgeError) (jitter : nat -> N) (permit : BridgeError -> bool).

Definition retry_stops (budget : RetryBudget) (e : BridgeError) : bool :=
  negb (is_retryable e false []) || negb (covers budget e) || negb (permit e).

(** The [for] loop with [todo] iterations to go. *)
Fixpoint retry_loop (budget : RetryBudget) (todo attempt_idx : nat) (last_err : option BridgeError)
    : result T BridgeError * list retry_event :=
  match todo with
  | O =>
      (RErr (match last_err with
             | Some e => e
             | None => Config "retry loop produced no error"
             end), [])
  | S todo =>
      let pre :=
        match attempt_idx with
        | O => []
        | S _ => [EvSleep (retry_backoff (jitter attempt_idx) (N.of_nat attempt_idx)
                    (last_err ≫= retry_after_hint))]
        end in
      match call attempt_idx with
      | ROk v => (ROk v, pre ++ [EvCall attempt_idx])
      | RErr e =>
          if retry_stops budget e then (RErr e, pre ++ [EvCall attempt_idx])
          else
            let '(r, tr) := retry_loop budget todo (S attempt_idx) (Some e) in
            (r, pre ++ EvCall attempt_idx :: tr)
      end
  end.

Definition retrying_dispatch_gated (model : Model) (default_retries : N)
    : result T BridgeError * list retry_event :=
  let budget := effective_retries model None default_retries false in
  retry_loop budget (S (attempts budget)) 0 None.
End retry.

Definition retrying_dispatch {T} (call : nat -> result T BridgeError) (jitter : nat -> N)
    (model : Model) (default_retries : N) : result T BridgeError * list retry_event :=
  retrying_dispatch_gated call jitter (fun _ => true) model default_retries.

(** ** Proofs *)

(** What happens around call [i] of a retry loop: the wait its predecessor's
    failure asks for, then the call. *)
Definition events_of {T} (call : nat -> result T BridgeError) (jitter : nat -> N) (i : nat)
    : list retry_event :=
  match i with
  | O => [EvCall 0]
  | S p =>
      [EvSleep (retry_backoff (jitter i) (N.of_nat i)
         (match call p with RErr e => retry_after_hint e | ROk _ => None end)); EvCall i]
  end.

Definition is_ok {A E} (r : result A E) : bool := match r with ROk _ => true | RErr _ => false end.

Lemma retry_loop_spec {T} (call : nat -> result T BridgeError) jitter permit budget todo idx last :
  (forall e, last = Some e -> exists p, idx = S p /\ call p = RErr e) ->
  (last = None -> idx = 0%nat) ->
  exists k, (k <= todo)%nat /\
    retry_loop call jitter permit budget (S todo) idx last
    = (call (idx + k)%nat, flat_map (events_of call jitter) (List.seq idx (S k))) /\
    (forall i, (i < k)%nat -> exists e, call (idx + i)%nat = RErr e /\ retry_stops permit budget e = false) /\
    (k = todo \/ is_ok (call (idx + k)%nat) = true \/
       exists e, call (idx + k)%nat = RErr e /\ retry_stops permit budget e = true).
Proof.
  revert idx last. induction todo as [|todo IH]; intros idx last Hlast Hnone.
  all: assert (forall tr, match idx with O => [] | S _ =>
      [EvSleep (retry_backoff (jitter idx) (N.of_nat idx) (last ≫= retry_after_hint))] end
      ++ EvCall idx :: tr = events_of call jitter idx ++ tr) as Hpre by
    (intros tr; destruct idx as [|p]; [done|]; destruct last as [e|]; [|by discriminate Hnone];
     destruct (Hlast e eq_refl) as (? & [= <-] & Hc); simpl; by rewrite Hc).
  - exists 0%nat. split; [done|]. rewrite Nat.add_0_r. cbn [retry_loop].
    split; [|split; [intros; lia|by left]].
    destruct (call idx) as [v|e] eqn:Ec.
    + simpl. by rewrite Hpre.
    + destruct (retry_stops permit budget e); simpl; by rewrite Hpre.
  - remember (S todo) as todo1. cbn [retry_loop]. subst todo1.
    destruct (call idx) as [v|e] eqn:Ec.
    { exists 0%nat. rewrite Nat.add_0_r, Ec. split; [lia|]. split; [simpl; by rewrite Hpre|].
      split; [intros; lia|by right; left]. }
    destruct (retry_stops permit budget e) eqn:Es.
    { exists 0%nat. rewrite Nat.add_0_r, Ec. split; [lia|]. split; [simpl; by rewrite Hpre|].
      split; [intros; lia|]. right; right. eauto. }
    destruct (IH (S idx) (Some e)) as (k & Hk & Heq & Hlt & Hend); [intros ? [= <-]; eauto|done|].
    rewrite Heq. exists (S k). rewrite <- Nat.add_succ_comm. split; [lia|]. split.
    { change (List.seq idx (S (S k))) with (idx :: List.seq (S idx) (S k)).
      cbn [flat_map]. by rewrite Hpre. }
    split.
    + intros [|i] Hi; [rewrite Nat.add_0_r; eauto|]. rewrite <- Nat.add_succ_comm. apply Hlt. lia.
    + destruct Hend as [-> | Hend]; [by left|by right].
Qed.

(** C38. The retry loop calls the upstream once, then again only after a failure
    that is retryable, covered by the budget and permitted, at most [attempts]
    more times; it answers the outcome of its last call, never the placeholder
    error; each retry waits exactly the backoff of its number and of the
    previous failure's hint. *)
Theorem retrying_dispatch_first_stop {T} (call : nat -> result T BridgeError) jitter permit
    model default_retries :
  let budget := effective_retries model None default_retries false in
  exists k, (k <= attempts budget)%nat /\
    retrying_dispatch_gated call jitter permit model default_retries
    = (call k, flat_map (events_of call jitter) (List.seq 0 (S k))) /\
    (forall i, (i < k)%nat -> exists e, call i = RErr e /\
       is_retryable e false [] = true /\ covers budget e = true /\ permit e = true) /\
    (k = attempts budget \/ is_ok (call k) = true \/
       exists e, call k = RErr e /\
         (is_retryable e false [] = false \/ covers budget e = false \/ permit e = false)).
Proof.
  intros budget. unfold retrying_dispatch_gated. fold budget.
  destruct (retry_loop_spec call jitter permit budget (attempts budget) 0 None)
    as (k & Hk & Heq & Hlt & Hend); [done|done|].
  exists k. split; [done|]. split; [done|]. unfold retry_stops in *. split.
  - intros i Hi. destruct (Hlt i Hi) as (e & He & Hs). exists e. split; [done|].
    rewrite !orb_false_iff, !negb_false_iff in Hs. tauto.
  - destruct Hend as [?|[?|(e & He & Hs)]]; [by left|by right; left|right; right].
    exists e. split; [done|]. rewrite !orb_true_iff, !negb_true_iff in Hs. tauto.
Qed.

(** The upstream's wait, when it is one the gateway is willing to sit out. *)
Definition honoured_hint (retry_after : option Duration) : option N :=
  match retry_after with
  | Some hint => if (0 <? as_millis hint) && (as_millis hint <=? 5000) then Some (as_millis hint) else None
  | None => None
  end.

(** A retry's wait is the upstream's hint when that is between one
    millisecond and five seconds, otherwise [250 * 2^(retry-1)] milliseconds up
    to two seconds, plus the jitter; no saturation or shift bound is ever
    visible, and no wait exceeds 5.25 seconds. *)
Theorem retry_backoff_exact jitter retry retry_after :
  0 < retry -> jitter <= RETRY_BACKOFF_JITTER_MS ->
  let floor := N.min (250 * 2 ^ (retry - 1)) 2000 in
  retry_backoff jitter retry retry_after
  = from_millis (default floor (honoured_hint retry_after) + jitter) /\
  retry_backoff jitter retry retry_after <= from_millis 5250.
Proof.
  intros Hr Hj floor. unfold RETRY_BACKOFF_JITTER_MS in Hj.
  assert (N.min (sat_mul RETRY_BACKOFF_BASE_MS (N.shiftl 1 (N.min (retry - 1) 20)))
            RETRY_BACKOFF_MAX_MS = floor) as Hfloor.
  { unfold floor, RETRY_BACKOFF_BASE_MS, RETRY_BACKOFF_MAX_MS. rewrite N.shiftl_1_l.
    destruct (decide (retry - 1 <= 20)) as [Hle|Hgt].
    - rewrite (N.min_l (retry - 1) 20) by done.
      assert (2 ^ (retry - 1) <= 2 ^ 20) by (by apply N.pow_le_mono_r). unfold sat_mul, u64_max.
      change (2 ^ 20) with 1048576 in *. lia.
    - rewrite (N.min_r (retry - 1) 20) by lia. assert (2 ^ 20 <= 2 ^ (retry - 1)) by (apply N.pow_le_mono_r; lia).
      change (2 ^ 20) with 1048576 in *. unfold sat_mul, u64_max. lia. }
  assert (floor <= 2000) as Hf by (unfold floor; lia).
  unfold retry_backoff. rewrite (proj2 (N.eqb_neq retry 0)) by lia. rewrite Hfloor.
  unfold honoured_hint, RETRY_AFTER_HONOR_MAX_MS, from_millis.
  destruct retry_after as [hint|]; simpl; [|lia].
  assert (forall b, (0 <? N.min b u64_max) && (N.min b u64_max <=? 5000) = (0 <? b) && (b <=? 5000)) as ->.
  { intros b. unfold u64_max. apply eq_true_iff_eq. rewrite !andb_true_iff, !N.ltb_lt, !N.leb_le. lia. }
  destruct ((0 <? as_millis hint) && (as_millis hint <=? 5000)) eqn:E; simpl; [|lia].
  nbool. unfold u64_max. split; [f_equal; lia|lia].
Qed.

Lemma retry_backoff_exact_witness :
  0 < 3 /\ 17 <= RETRY_BACKOFF_JITTER_MS /\
  retry_backoff 17 3 (Some (from_secs 45)) = from_millis 1017 /\
  let floor := N.min (250 * 2 ^ (3 - 1)) 2000 in
  retry_backoff 17 3 (Some (from_secs 45))
  = from_millis (default floor (honoured_hint (Some (from_secs 45))) + 17) /\
  retry_backoff 17 3 (Some (from_secs 45)) <= from_millis 5250.
Proof.
  split; [reflexivity|]. split; [discriminate|]. split; [vm_compute; reflexivity|].
  apply (retry_backoff_exact 17 3 (Some (from_secs 45))); [reflexivity|discriminate].
Defined.

(** When an enabled cooldown fires, with its reason and its time to live. *)
Inductive cools (c : CooldownConfig) : BridgeError -> string -> Duration -> Prop :=
  | cools_status status m hint :
      In status (effective_trigger_statuses c) ->
      cools c (UpstreamStatus status m hint) (reason_for_status status)
        (match hint with
         | Some d => if honor_retry_after_or_default c
                     then N.min d (from_secs (max_seconds_or_default c))
                     else from_secs (default_seconds_or_default c)
         | None => from_secs (default_seconds_or_default c)
         end)
  | cools_in_band status m :
      In status (effective_trigger_statuses c) ->
      cools c (UpstreamInBand (Some status) m) (reason_for_status status)
        (from_secs (default_seconds_or_default c))
  | cools_timeout ms m :
      trigger_on_timeout_or_default c = true ->
      cools c (Timeout ms m) "request_timeout" (from_secs (default_seconds_or_default c))
  | cools_transport e reason :
      trigger_on_transport_or_default c = true ->
      (exists m, e = Transport m /\ reason = "transport_error"%string) \/
      (e = StreamAborted /\ reason = "transport_error"%string) \/
      (exists m, e = UpstreamInBand None m /\ reason = "upstream_in_band_error"%string) \/
      (exists m, e = TokenExchangeDecode m /\ reason = "upstream_decode_error"%string) ->
      cools c e reason (from_secs (default_seconds_or_default c)).

Lemma contains_In s l : contains s l = true <-> In s l.
Proof.
  unfold contains. rewrite existsb_exists. setoid_rewrite N.eqb_eq. split; [by intros (? & ? & <-)|eauto].
Qed.

(** Cooldown is opt-in and never blames a target for what it did not do.
    It fires exactly when the model's block says [enabled: true], its default
    TTL is not zero, and the failure is one of the listed classes; a caller's
    error, the gateway's own configuration and an answer that was served but
    could not be read never cool a target down; the TTL is the default, or the
    upstream's hint capped at the maximum. *)
Theorem decide_cooldown_iff err cfg ttl reason :
  decide_cooldown err cfg = Some (ttl, reason) <->
  exists c, cfg = Some c /\ cd_enabled c = Some true /\ default_seconds_or_default c <> 0 /\
    cools c err reason ttl.
Proof.
  destruct cfg as [c|]; [|split; [done|by intros (? & ? & _)]].
  assert (is_enabled c = true <-> cd_enabled c = Some true) as He.
  { unfold is_enabled. by destruct (cd_enabled c) as [[]|]. }
  split.
  - unfold decide_cooldown. destruct (is_enabled c) eqn:Ee; simpl; [|done].
    destruct (default_seconds_or_default c =? 0) eqn:Ed; [done|]. nbool. intros H.
    exists c. split; [done|]. split; [by apply He|]. split; [done|].
    destruct err as [ms m|status m hint|? ?|?|m|[status|] m|?|?|?|?|? ? ?|?|m|]; try discriminate H.
    + destruct (trigger_on_timeout_or_default c) eqn:Et; [|done]. injection H as <- <-.
      by constructor.
    + destruct (contains status _) eqn:Ec; [|done]. injection H as <- <-.
      apply contains_In in Ec. pose proof (cools_status c status m hint Ec) as Hk.
      by destruct hint, (honor_retry_after_or_default c).
    + destruct (trigger_on_transport_or_default c) eqn:Et; [|done]. injection H as <- <-.
      constructor; naive_solver.
    + destruct (contains status _) eqn:Ec; [|done]. injection H as <- <-.
      apply contains_In in Ec. by apply cools_in_band.
    + destruct (trigger_on_transport_or_default c) eqn:Et; [|done]. injection H as <- <-.
      constructor; naive_solver.
    + destruct (trigger_on_transport_or_default c) eqn:Et; [|done]. injection H as <- <-.
      constructor; naive_solver.
    + destruct (trigger_on_transport_or_default c) eqn:Et; [|done]. injection H as <- <-.
      constructor; naive_solver.
  - intros (c' & [= <-] & Hen & Hd & Hc). unfold decide_cooldown.
    rewrite (proj2 He Hen), (proj2 (N.eqb_neq _ _) Hd). simpl.
    destruct Hc as [status m hint Hin|status m Hin|ms m Ht|e reason Ht Hor].
    + rewrite (proj2 (contains_In _ _) Hin). simpl. by destruct hint, (honor_retry_after_or_default c).
    + by rewrite (proj2 (contains_In _ _) Hin).
    + by rewrite Ht.
    + destruct Hor as [(? & -> & ->)|[(-> & ->)|[(? & -> & ->)|(? & -> & ->)]]]; by rewrite Ht.
Qed.

(** A stream deadline counts as configured exactly when it does not depend
    on the deployment defaults: some duration is answered whatever they are.
    And when it is not configured, no target or group had a positive stream or
    request level, so the answer is what the defaults say, unless a level
    explicitly asks for none. *)
Theorem stream_budget_provenance target group defaults :
  (stream_configured (effective_timeouts target group defaults) = true <->
   exists b, forall defaults', stream_deadline (effective_timeouts target group defaults') = Some b) /\
  (stream_configured (effective_timeouts target group defaults) = false ->
   stream_deadline (effective_timeouts target group defaults) = None \/
   stream_deadline (effective_timeouts target group defaults)
   = or_else (def_stream defaults) (def_request defaults)).
Proof.
  unfold effective_timeouts. set (rl := or_else (request_timeout_level target) _).
  destruct (or_else (stream_read_timeout target) _) as [d|]; [|destruct rl as [[r|]|]]; simpl.
  - split; [|done]. split; [eauto|done].
  - split; [|done]. split; [eauto|done].
  - split; [|by left]. split; [done|]. intros (b & H). by specialize (H defaults).
  - split; [|by right]. split; [done|]. intros (b & H). by specialize (H (mkDefaults None None)).
Qed.
