(* ===== verification/Errors.v ===== *)
(** * The error taxonomy

    [crates/aisix-proxy/src/error.rs]: [ProxyError] with the status, type and
    retry hint each variant is answered with; the classification of
    [BridgeError] ([crates/aisix-gateway/src/bridge.rs]) and the one of an
    attempt's failure ([crates/aisix-proxy/src/attempt.rs]); the refusals a
    dispatch loop moves on from ([routing.rs]).  An HTTP status is its number.
    The text of an error ([Display]) is not modelled. *)

From S2P Require Import Prelude RateStore Models Failure.
Local Open Scope N_scope.

(** ** Budgets as errors *)

Inductive BudgetScope :=
  | BsOrg | BsEnvironment | BsApiKey | BsMember | BsTeam | BsTeamMember | BsTag | BsProviderKey.
#[export] Instance BudgetScope_eq_dec : EqDecision BudgetScope.
Proof. solve_decision. Defined.

Definition budget_scope_as_str (s : BudgetScope) : string :=
  match s with
  | BsOrg => "org"
  | BsEnvironment => "environment"
  | BsApiKey => "api_key"
  | BsMember => "member"
  | BsTeam => "team"
  | BsTeamMember => "team_member"
  | BsTag => "tag"
  | BsProviderKey => "provider_key"
  end.

Record BudgetReason := mkReason {
  br_message : string;
  br_scope : option string;
  br_scope_kind : option BudgetScope;
  br_caller_message : option string;
  br_scope_ref : option string;
  br_limit_usd : option string;
  br_spent_usd : option string;
  br_remaining_usd : option string;
  br_period : option string;
  br_period_resets_at : option string;
  br_retry_after_seconds : option N;
}.

(** ** Errors *)

Inductive TokenExchangeFailure :=
  | TxNoSubject
  | TxSubjectRejected (claims : option string)
  | TxMisconfigured
  | TxUnavailable.

Inductive UserOAuthFailure := UoNoSubject | UoAuthorizationRequired | UoMisconfigured | UoUnavailable.

Inductive DecisionFailure :=
  | ClassifierTimeout | ClassifierUpstream | ClassifierInvalidResponse | ClassifierUnavailable
  | EmbeddingTimeout | EmbeddingUpstream | EmbeddingUnavailable.

Inductive ProxyError :=
  | PeMissingAuth (header : string)
  | PeMissingRouteAuthHeader (header : string)
  | PeInvalidApiKey
  | PeApiKeyExpired
  | PeApiKeyDisabled
  | PeJwtInvalid
  | PeJwtExpired
  | PeJwtClaimsRejected
  | PeJwtInsufficientScope (required_scopes : list string)
  | PeJwtIdentityUnmapped
  | PeJwksUnavailable
  | PeMcpTokenExchange (failure : TokenExchangeFailure)
  | PeMcpUserOAuth (failure : UserOAuthFailure) (server : string)
  | PeModelNotFound (name : string)
  | PeVideoNotFound (id : string)
  | PeJobResourceNotFound (id : string)
  | PeResponseNotFound
  | PeStoredObjectReference (field : string)
  | PeJobListRefused
  | PeModelForbidden (name : string)
  | PeModelIpRestricted (name : string)
  | PeRouteIpRestricted (name : string)
  | PeRouteForbidden (name : string)
  | PeInvalidRequest (message : string)
  | PeUnusableTarget (message : string)
  | PeTargetRefused (message : string)
  | PeWebSocketUpgradeRequired (status : N) (detail : string)
  | PeProviderUnavailable
  | PeSemanticDecisionFailed (router : string) (reason : DecisionFailure)
  | PeAllCandidatesUnavailable (retry_after_secs : option N)
  | PeContentFiltered (message : string) (unavailable : option string)
  | PeBudgetExceeded (r : BudgetReason)
  | PeBudgetUnverified
  | PeRequestTooLarge (limit_bytes : N)
  | PeRateLimit (err : RateLimitError)
  | PeModelRateLimit (err : RateLimitError)
  | PePolicyRateLimit (source : RateLimitError) (policy_id policy_name : string) (callers_bucket : bool)
  | PeBridge (err : BridgeError).

(** ** Bridge errors *)

Definition forwarded_status (status : N) : N :=
  if (400 <=? status) && (status <? 500) then status else 502.

Definition http_status (e : BridgeError) : N :=
  match e with
  | Timeout _ _ => 504
  | UpstreamStatus status _ _ => forwarded_status status
  | UpstreamDecode _ | UpstreamBodyUnread _ _ | TokenExchangeDecode _ => 502
  | UpstreamInBand (Some s) _ => forwarded_status s
  | UpstreamInBand None _ => 502
  | Config _ | UnsupportedCapability _ => 500
  | InvalidUpstreamConfig _ | InvalidRequest _ => 400
  | RequestTooLarge _ _ _ => 413
  | InvalidUpstreamCredentials _ => 401
  | Transport _ => 502
  | StreamAborted => 502
  end.

Definition reached_upstream (e : BridgeError) : bool :=
  match e with
  | Timeout _ _ | UpstreamStatus _ _ _ | UpstreamDecode _ | UpstreamBodyUnread _ _
  | TokenExchangeDecode _ | UpstreamInBand _ _ | Transport _ | StreamAborted => true
  | Config _ | UnsupportedCapability _ | InvalidUpstreamConfig _ | InvalidRequest _
  | RequestTooLarge _ _ _ | InvalidUpstreamCredentials _ => false
  end.

Definition error_type (e : BridgeError) : string :=
  match e with
  | Timeout _ _ => "timeout"
  | UpstreamStatus _ _ _ => "upstream_error"
  | UpstreamDecode _ | UpstreamBodyUnread _ _ | TokenExchangeDecode _ => "upstream_decode_error"
  | UpstreamInBand _ _ => "upstream_in_band_error"
  | Config _ | UnsupportedCapability _ => "config_error"
  | InvalidUpstreamConfig _ | InvalidRequest _ | RequestTooLarge _ _ _ => "invalid_request_error"
  | InvalidUpstreamCredentials _ => "authentication_error"
  | Transport _ => "transport_error"
  | StreamAborted => "stream_aborted"
  end.

Definition routing_error_class (e : BridgeError) : string :=
  match e with
  | Timeout _ _ => "timeout"
  | UpstreamStatus _ _ _ => "upstream_status"
  | UpstreamDecode _ | UpstreamBodyUnread _ _ | TokenExchangeDecode _ => "upstream_decode"
  | UpstreamInBand _ _ => "upstream_in_band"
  | Config _ | UnsupportedCapability _ => "config"
  | InvalidUpstreamConfig _ => "invalid_config"
  | InvalidRequest _ | RequestTooLarge _ _ _ => "invalid_request_error"
  | InvalidUpstreamCredentials _ => "invalid_credentials"
  | Transport _ => "transport"
  | StreamAborted => "stream_aborted"
  end.

(** ** How an error is answered *)

(** [StatusCode::from_u16(n).unwrap_or(BAD_GATEWAY)] *)
Definition status_code (n : N) : N := if (100 <=? n) && (n <? 1000) then n else 502.

Definition error_status (e : ProxyError) : N :=
  match e with
  | PeMissingRouteAuthHeader _ | PeMissingAuth _ | PeInvalidApiKey | PeApiKeyExpired
  | PeApiKeyDisabled | PeJwtInvalid | PeJwtExpired | PeJwtIdentityUnmapped => 401
  | PeJwtClaimsRejected | PeJwtInsufficientScope _ => 403
  | PeJwksUnavailable => 503
  | PeMcpTokenExchange failure =>
      match failure with
      | TxNoSubject | TxSubjectRejected _ => 401
      | TxMisconfigured => 500
      | TxUnavailable => 503
      end
  | PeMcpUserOAuth failure _ =>
      match failure with
      | UoAuthorizationRequired => 401
      | UoNoSubject => 403
      | UoMisconfigured => 500
      | UoUnavailable => 503
      end
  | PeModelForbidden _ | PeModelIpRestricted _ | PeRouteIpRestricted _ | PeRouteForbidden _ => 403
  | PeModelNotFound _ | PeVideoNotFound _ | PeJobResourceNotFound _ | PeResponseNotFound => 404
  | PeStoredObjectReference _ => 400
  | PeJobListRefused => 403
  | PeInvalidRequest _ | PeUnusableTarget _ | PeTargetRefused _ => 400
  | PeWebSocketUpgradeRequired status _ => status
  | PeProviderUnavailable | PeSemanticDecisionFailed _ _ | PeAllCandidatesUnavailable _ => 503
  | PeContentFiltered _ _ => 422
  | PeBudgetExceeded _ => 429
  | PeBudgetUnverified => 503
  | PeRequestTooLarge _ => 413
  | PeRateLimit _ | PeModelRateLimit _ => 429
  | PePolicyRateLimit _ _ _ _ => 429
  | PeBridge b => status_code (http_status b)
  end.

Definition kind (e : ProxyError) : string :=
  match e with
  | PeMissingRouteAuthHeader _ | PeMissingAuth _ | PeInvalidApiKey | PeApiKeyExpired
  | PeApiKeyDisabled | PeJwtInvalid | PeJwtExpired | PeJwtIdentityUnmapped => "invalid_api_key"
  | PeJwtClaimsRejected | PeJwtInsufficientScope _ => "permission_denied"
  | PeJwksUnavailable => "api_error"
  | PeMcpTokenExchange failure =>
      match failure with
      | TxNoSubject | TxSubjectRejected _ => "authentication_error"
      | TxMisconfigured | TxUnavailable => "api_error"
      end
  | PeMcpUserOAuth failure _ =>
      match failure with
      | UoAuthorizationRequired => "authentication_error"
      | UoNoSubject => "permission_denied"
      | UoMisconfigured | UoUnavailable => "api_error"
      end
  | PeModelForbidden _ | PeModelIpRestricted _ | PeRouteIpRestricted _ | PeRouteForbidden _ =>
      "permission_denied"
  | PeModelNotFound _ => "model_not_found"
  | PeVideoNotFound _ => "video_not_found"
  | PeJobResourceNotFound _ => "resource_not_found"
  | PeResponseNotFound => "response_not_found"
  | PeStoredObjectReference _ => "invalid_request_error"
  | PeJobListRefused => "permission_denied"
  | PeInvalidRequest _ | PeUnusableTarget _ | PeTargetRefused _ => "invalid_request_error"
  | PeWebSocketUpgradeRequired _ _ => "websocket_upgrade_required"
  | PeRequestTooLarge _ => "invalid_request_error"
  | PeProviderUnavailable => "provider_unavailable"
  | PeSemanticDecisionFailed _ _ => "api_error"
  | PeAllCandidatesUnavailable _ => "all_candidates_unavailable"
  | PeContentFiltered _ _ => "content_filter"
  | PeBudgetExceeded _ => "billing_error"
  | PeBudgetUnverified => "api_error"
  | PeRateLimit _ | PeModelRateLimit _ => "rate_limit_exceeded"
  | PePolicyRateLimit _ _ _ _ => "rate_limit_exceeded"
  | PeBridge b => error_type b
  end.

Definition is_guardrail_block (e : ProxyError) : bool :=
  match e with PeContentFiltered _ _ => true | _ => false end.

(** [Duration::as_secs] *)
Definition as_secs (d : Duration) : N := d / 1000000000.

Definition error_retry_after_secs (e : ProxyError) : option N :=
  match e with
  | PeRateLimit e | PeModelRateLimit e => retry_after_secs e
  | PePolicyRateLimit source _ _ _ => retry_after_secs source
  | PeAllCandidatesUnavailable secs => secs
  | PeBudgetExceeded r => br_retry_after_seconds r
  | PeBridge (UpstreamStatus status _ (Some d)) => if status =? 429 then Some (as_secs d) else None
  | _ => None
  end.

Definition rate_limit_detail (e : ProxyError) : option LimitDetail :=
  match e with
  | PeRateLimit e | PeModelRateLimit e => error_detail e
  | PePolicyRateLimit source _ _ _ => error_detail source
  | _ => None
  end.

(** [platform] is [platform_errors::active()]. *)
Definition hides_budget_scope (platform : bool) (r : BudgetReason) : bool :=
  let own_typed :=
    match br_scope_kind r with
    | Some (BsApiKey | BsMember | BsTeam | BsTeamMember) => true
    | _ => false
    end in
  let own_text :=
    match br_scope r with
    | Some s => existsb (fun t => bool_decide (t = s)) ["api_key"; "member"; "team"; "team_member"]
    | None => false
    end in
  platform && negb (own_typed && own_text).

Definition caller_rate_limit_detail (platform : bool) (e : ProxyError) : option LimitDetail :=
  let shared :=
    match e with
    | PeModelRateLimit _ => true
    | PePolicyRateLimit _ _ _ callers_bucket => negb callers_bucket
    | _ => false
    end in
  if shared && platform then None else rate_limit_detail e.

Definition caller_retry_after_secs (platform : bool) (e : ProxyError) : option N :=
  match e with
  | PeBudgetExceeded r => if hides_budget_scope platform r then None else error_retry_after_secs e
  | _ => error_retry_after_secs e
  end.

(** ** How an attempt's failure is recorded *)

Definition error_class (e : ProxyError) : string :=
  match e with
  | PeBridge be => routing_error_class be
  | PeSemanticDecisionFailed _ _ => "semantic_decision_failed"
  | other => kind other
  end.

Definition attempt_reached_upstream (e : ProxyError) : bool :=
  match e with
  | PeBridge be => reached_upstream be
  | PeContentFiltered _ _ => true
  | _ => false
  end.

Definition UPSTREAM_ERROR_CLASSES : list string :=
  ["timeout"; "upstream_status"; "upstream_decode"; "upstream_in_band"; "transport"; "stream_aborted"].

Definition CLIENT_DISCONNECTED_KIND : string := "client_disconnected".

Inductive ErrorSource := SourceNone | SourceUpstream | SourceAisix.

Definition error_source_of_class (class : string) : ErrorSource :=
  if bool_decide (class = "") || bool_decide (class = CLIENT_DISCONNECTED_KIND) then SourceNone
  else if existsb (fun c => bool_decide (c = class)) UPSTREAM_ERROR_CLASSES then SourceUpstream
  else SourceAisix.

Definition error_source (e : ProxyError) : ErrorSource := error_source_of_class (error_class e).

(** ** Moving on *)

Definition target_unusable (e : ProxyError) : bool :=
  match e with
  | PeUnusableTarget _ | PeProviderUnavailable => true
  | PeBridge be => bridge_target_unusable be
  | _ => false
  end.

Definition refused_model_label (addressed : string) : string := "model `" +:+ addressed +:+ "`".

Definition group_refusal (e : ProxyError) (addressed : string) : ProxyError :=
  match e with
  | PeUnusableTarget _ =>
      PeUnusableTarget (refused_model_label addressed +:+ " has no usable target")
  | other => other
  end.

(** ** Blame *)

(** The two readings of a failure agree: an error is blamed on the upstream
    exactly when the attempt reached it and the answer was not refused by a
    guardrail of the gateway's own; no error goes without blame. *)
Theorem blame_consistent e :
  (error_source e = SourceUpstream <->
   attempt_reached_upstream e = true /\ is_guardrail_block e = false) /\
  error_source e <> SourceNone.
Proof.
  destruct e;
    repeat match goal with
    | f : TokenExchangeFailure |- _ => destruct f
    | f : UserOAuthFailure |- _ => destruct f
    | be : BridgeError |- _ => destruct be
    end; split; try done; split; (done || by intros [? ?]).
Qed.
