(* ===== verification/Access.v ===== *)
(** * Who is calling, and what they may use

    [crates/aisix-proxy/src/auth.rs]: the credential a request presents, the key
    it names, and the lifecycle checks at the one place every surface
    authenticates; [models/apikey.rs]: the grants of a key over models, agents
    and routes; [models/snapshot.rs], [models/tags.rs]: the owner rows of a key
    and the tags a request is attributed to.

    A header value is [None] when [to_str] refuses it, its text otherwise.
    SHA-256 and the verification of a JWT ([jwt.rs]) are arguments; the clock
    reading is one too.  Log lines are not modelled. *)

From S2P Require Import Prelude Sort Utf8 Text Snapshot F64 RateStore Policy Models Resolve Failure Errors.
Local Open Scope Z_scope.

(** ** Grants *)

Definition wildcard_matches_str (pattern candidate : string) : bool :=
  wildcard_matches (lit pattern) (lit candidate).

Definition is_expired_at (k : ApiKey) (now : Z) : bool :=
  match expires_at k with Some deadline => deadline <? now | None => false end.

Definition can_access (k : ApiKey) (snapshot : AisixSnapshot) (model_name : string) : bool :=
  match allowed_model_ids k with
  | Some ids =>
      existsb (fun id => match get_by_id id (models snapshot) with
                         | Some m => wildcard_matches_str (display_name (value m)) model_name
                         | None => false
                         end) ids
  | None => existsb (fun n => wildcard_matches_str n model_name) (allowed_models k)
  end.

Definition can_access_agent (k : ApiKey) (agent : string) : bool :=
  match allowed_agents k with
  | None => false
  | Some allowed => existsb (fun a => wildcard_matches_str a agent) allowed
  end.

Definition can_access_route (k : ApiKey) (route : string) : bool :=
  match allowed_routes k with
  | None => false
  | Some allowed => existsb (fun r => wildcard_matches_str r route) allowed
  end.

Definition accessible_models (k : ApiKey) (snapshot : AisixSnapshot) (all_models : list string)
    : list string :=
  List.filter (can_access k snapshot) all_models.

(** ** Owner rows and tags *)

Definition nonempty (s : string) : option string := if bool_decide (s = "") then None else Some s.

Definition telemetry_name (k : ApiKey) : option string := key_display_name k ≫= nonempty.

Definition owner_resolve (snap : AisixSnapshot) (k : ApiKey) : KeyOwnerNames :=
  mkOwner (team_id k ≫= fun id => get_by_id id (teams snap))
          (user_id k ≫= fun id => get_by_id id (users snap)).

Definition owner_team_name (o : KeyOwnerNames) : option string :=
  owner_team o ≫= fun e => nonempty (team_doc_name (value e)).

Definition owner_user_name (o : KeyOwnerNames) (k : ApiKey) : option string :=
  match owner_user o with
  | Some e => nonempty (user_doc_name (value e))
  | None => key_user_name k
  end.

(** [effective_tags]: each layer's entries are inserted over the ones before. *)
Definition effective_tags (key : gmap string string) (team user : option (gmap string string))
    : gmap string string :=
  foldl (fun out layer => layer ∪ out) ∅ (omap id [user; team; Some key]).

Definition owner_effective_tags (o : KeyOwnerNames) (k : ApiKey) : gmap string string :=
  effective_tags (key_tags k) ((fun e => team_tags (value e)) <$> owner_team o)
    ((fun e => user_tags (value e)) <$> owner_user o).

Definition authenticated_new (snapshot : AisixSnapshot) (entry : ResourceEntry ApiKey) (anonymous : bool)
    : AuthenticatedKey :=
  let owner := owner_resolve snapshot (value entry) in
  mkAuth entry (owner_effective_tags owner (value entry)) owner anonymous.

(** ** The credential presented *)

Definition HeaderValue : Type := option bytes.
Abbreviation HeaderMap := (string -> option HeaderValue).

Definition GATEWAY_KEY_HEADER : string := "x-aisix-api-key".
Definition AUTHORIZATION : string := "authorization".
Definition AUTHORIZATION_LABEL : string := "Authorization".
Definition X_API_KEY_HEADER : string := "x-api-key".

Definition ascii_lower (b : N) : N := if Utf8.between 65 90 b then (b + 32)%N else b.

(** [SCHEME] is ["bearer "]; the value is ASCII, so every cut is a boundary. *)
Definition strip_bearer_scheme (value : bytes) : option bytes :=
  if (length value <? 7)%nat then None
  else if bool_decide (ascii_lower <$> take 7 value = lit "bearer ") then Some (drop 7 value) else None.

Definition raw_credential (raw : HeaderValue) (header : string) : result bytes ProxyError :=
  match raw with
  | None => RErr (PeMissingAuth header)
  | Some s => match trim s with
              | [] => RErr (PeMissingAuth header)
              | s => ROk s
              end
  end.

Definition gateway_key_header_credential (raw : HeaderValue) : result bytes ProxyError :=
  match raw_credential raw GATEWAY_KEY_HEADER with
  | RErr e => RErr e
  | ROk value =>
      match trim <$> strip_bearer_scheme value with
      | Some [] => RErr (PeMissingAuth GATEWAY_KEY_HEADER)
      | Some key => ROk key
      | None => ROk value
      end
  end.

Definition authorization_credential (raw : HeaderValue) : result bytes ProxyError :=
  match raw with
  | None => RErr (PeMissingAuth AUTHORIZATION_LABEL)
  | Some s =>
      match trim <$> strip_bearer_scheme s with
      | Some [] | None => RErr (PeMissingAuth AUTHORIZATION_LABEL)
      | Some rest => ROk rest
      end
  end.

Definition header_credential (headers : HeaderMap) : option (result bytes ProxyError) :=
  match headers GATEWAY_KEY_HEADER with
  | Some raw => Some (gateway_key_header_credential raw)
  | None =>
      match headers AUTHORIZATION with
      | Some auth => Some (authorization_credential auth)
      | None => (fun raw => raw_credential raw X_API_KEY_HEADER) <$> headers X_API_KEY_HEADER
      end
  end.

Definition extract_bearer (headers : HeaderMap) : result bytes ProxyError :=
  default (RErr (PeMissingAuth AUTHORIZATION_LABEL)) (header_credential headers).

Definition credential_offered (headers : HeaderMap) : bool :=
  existsb (fun name => match headers name with Some _ => true | None => false end)
    [GATEWAY_KEY_HEADER; AUTHORIZATION; X_API_KEY_HEADER].

Definition admitted_via_gateway_key_header (headers : HeaderMap) : bool :=
  match headers GATEWAY_KEY_HEADER with Some _ => true | None => false end.

(** ** Authentication *)

(** The decision metric, newest last, and the principals noted on the request. *)
Record AuthDecision := mkDecision { auth_method : string; auth_allowed : bool; auth_reason : string }.
Record AuthLog := mkAuthLog { decisions : list AuthDecision; noted : list AuthenticatedKey }.

Definition record_auth_decision (method : string) (allowed : bool) (reason : string) (log : AuthLog)
    : AuthLog :=
  mkAuthLog (decisions log ++ [mkDecision method allowed reason]) (noted log).
Definition note_authenticated (a : AuthenticatedKey) (log : AuthLog) : AuthLog :=
  mkAuthLog (decisions log) (noted log ++ [a]).

Section authenticate.
Context (hash_bearer : bytes -> string).
Context (any_enabled_provider : bool) (looks_like_jwt : bytes -> bool).
Context (authenticate_jwt : bytes -> stm AuthLog ProxyError AuthenticatedKey).
Context (snapshot : AisixSnapshot) (now : Z).

Definition deny_key {A} (reason : string) (err : ProxyError) : stm AuthLog ProxyError A :=
  fun log => (RErr err, record_auth_decision "api_key" false reason log).

Definition authenticate_token_inner (token : bytes) : stm AuthLog ProxyError AuthenticatedKey :=
  if any_enabled_provider && looks_like_jwt token then authenticate_jwt token
  else
    match get_by_name (hash_bearer token) (apikeys snapshot) with
    | None => deny_key "unknown_key" PeInvalidApiKey
    | Some entry =>
        if disabled (value entry) then deny_key "key_disabled" PeApiKeyDisabled
        else if bool_decide (is_Some (expires_at (value entry))) && is_expired_at (value entry) now
        then deny_key "key_expired" PeApiKeyExpired
        else fun log => (ROk (authenticated_new snapshot entry false),
                         record_auth_decision "api_key" true "" log)
    end.

Definition authenticate_token (token : bytes) : stm AuthLog ProxyError AuthenticatedKey :=
  fun log =>
    match authenticate_token_inner token log with
    | (ROk a, log) => (ROk a, note_authenticated a log)
    | (RErr e, log) => (RErr e, log)
    end.

Definition extract_authenticated_key (headers : HeaderMap) : stm AuthLog ProxyError AuthenticatedKey :=
  fun log =>
    match extract_bearer headers with
    | RErr e => (RErr e, record_auth_decision "none" false "missing_credentials" log)
    | ROk token => authenticate_token token log
    end.
End authenticate.

(** ** Grants follow the row, not the name *)

Lemma existsb_elem {A} (p : A -> bool) l : existsb p l = true <-> exists x, x ∈ l /\ p x = true.
Proof. rewrite existsb_exists. by setoid_rewrite list_elem_of_In. Qed.

Lemma wildcard_matches_self n : wildcard_matches_str n n = true.
Proof. apply wildcard_matches_iff, glob_refl. Qed.

Lemma can_access_by_id k snapshot ids n :
  allowed_model_ids k = Some ids ->
  can_access k snapshot n = true <->
  exists id e, id ∈ ids /\ get_by_id id (models snapshot) = Some e /\
    glob (lit (display_name (value e))) (lit n).
Proof.
  intros E. unfold can_access. rewrite E, existsb_elem. split.
  - intros (id & Hid & H). destruct (get_by_id id _) as [e|] eqn:Ee; [|done].
    exists id, e. by rewrite <- wildcard_matches_iff.
  - intros (id & e & Hid & Ee & H). exists id. rewrite Ee. by rewrite <- wildcard_matches_iff in H.
Qed.

(** Writing one row of the models table. *)
Definition with_model_row (snapshot : AisixSnapshot) (e : ResourceEntry Model) (next : N) : AisixSnapshot :=
  mkSnapshot (fst (insert_arc display_name e (models snapshot) next)) (provider_keys snapshot)
    (rate_limit_policies snapshot) (apikeys snapshot) (pricing snapshot) (global_pricing snapshot)
    (teams snapshot) (users snapshot).

Lemma with_model_row_lookup snapshot e next id :
  get_by_id id (models (with_model_row snapshot e next)) =
  if decide (id = entry_id e) then Some e else get_by_id id (models snapshot).
Proof.
  unfold get_by_id. simpl. case_decide as E; [rewrite E; apply lookup_insert_eq|by apply lookup_insert_ne].
Qed.

(** A grant by id follows its row.  A key holding ids may use exactly the
    names the rows now carrying those ids match, whatever its [allowed_models]
    says: an id of no row grants nothing; whatever a granted row resolves for
    is granted; and renaming a granted row grants its new name at once and
    changes nothing for the names of the key's other rows.  A key holding names
    is untouched by any write of the table. *)
Theorem grant_follows_row k snapshot n :
  table_wf display_name (models snapshot) ->
  (forall ids, allowed_model_ids k = Some ids ->
     (can_access k snapshot n = true <->
        exists id e, id ∈ ids /\ get_by_id id (models snapshot) = Some e /\
          glob (lit (display_name (value e))) (lit n)) /\
     (forall a r, fst (resolve_model snapshot n a) = Some r -> entry_id r ∈ ids ->
        can_access k snapshot n = true) /\
     (forall e next, entry_id e ∈ ids ->
        can_access k (with_model_row snapshot e next) (display_name (value e)) = true /\
        forall id e', id ∈ ids -> id <> entry_id e -> get_by_id id (models snapshot) = Some e' ->
          glob (lit (display_name (value e'))) (lit n) ->
          can_access k (with_model_row snapshot e next) n = true)) /\
  (allowed_model_ids k = None -> forall e next,
     can_access k (with_model_row snapshot e next) n = can_access k snapshot n).
Proof.
  intros W. split; [|intros E e next; unfold can_access; by rewrite E].
  intros ids E. split; [by apply can_access_by_id|]. split.
  - intros a r Hr Hin. rewrite (can_access_by_id _ _ _ _ E).
    destruct (resolution_inv _ _ _ _ W Hr) as [Hn|(e & x & He & -> & _ & Hx)].
    + unfold get_by_name in Hn. destruct (by_name _ !! n) as [id|] eqn:En; [|done]. simpl in Hn.
      destruct (wf_names _ _ W _ _ En) as (e & He & <-). pose proof (eq_trans (eq_sym He) Hn) as [= ->].
      rewrite (wf_ids _ _ W _ _ He) in Hin. exists id, r. split; [done|]. split; [done|apply glob_refl].
    + exists (entry_id e), e. split; [done|]. split; [done|].
      apply wildcard_matches_iff. by destruct (wildcard_capture_inv _ _ _ Hx) as (? & ? & _ & _ & ->).
  - intros e next Hin. rewrite !(can_access_by_id _ _ _ _ E). split.
    + exists (entry_id e), e. rewrite with_model_row_lookup, decide_True by done.
      split; [done|]. split; [done|apply glob_refl].
    + intros id e' Hid Hne He' Hg. rewrite (can_access_by_id _ _ _ _ E). exists id, e'.
      by rewrite with_model_row_lookup, decide_False.
Qed.

(** A listing never advertises a name the request path would refuse. *)
Lemma accessible_models_exact k snapshot all n :
  n ∈ accessible_models k snapshot all <-> n ∈ all /\ can_access k snapshot n = true.
Proof. unfold accessible_models. rewrite list_elem_of_In, filter_In, <- list_elem_of_In. done. Qed.

(** ** Tags *)

(** The nearest document that sets a tag key decides its value: the API key,
    then its team, then its member. *)
Lemma effective_tags_lookup key team user t :
  effective_tags key team user !! t =
    or_else (key !! t) (or_else (team ≫= lookup t) (user ≫= lookup t)).
Proof.
  unfold effective_tags. destruct user as [u|], team as [m|]; simpl;
    rewrite !lookup_union, lookup_empty;
    destruct (key !! t); simpl; try done;
    try (destruct (m !! t)); try (destruct (u !! t)); done.
Qed.

(** ** The credential a request presents *)

Lemma raw_credential_nonempty raw h c : raw_credential raw h = ROk c -> c <> [].
Proof. unfold raw_credential. destruct raw as [s|]; [|done]. by destruct (trim s) eqn:E; intros [= <-]. Qed.

Lemma gateway_credential_nonempty raw c : gateway_key_header_credential raw = ROk c -> c <> [].
Proof.
  unfold gateway_key_header_credential. destruct (raw_credential raw _) as [v|] eqn:Er; [|done].
  destruct (trim <$> strip_bearer_scheme v) as [[|b k]|]; intros [= <-]; [done|].
  by apply raw_credential_nonempty in Er.
Qed.

Lemma authorization_credential_nonempty raw c : authorization_credential raw = ROk c -> c <> [].
Proof.
  unfold authorization_credential. destruct raw as [s|]; [|done].
  by destruct (trim <$> strip_bearer_scheme s) as [[|b k]|]; intros [= <-].
Qed.

Lemma bearer_stripped scheme k :
  ascii_lower <$> scheme = lit "bearer " -> strip_bearer_scheme (scheme ++ k) = Some k.
Proof.
  intros E. pose proof (f_equal length E) as Hl. rewrite length_fmap in Hl. simpl in Hl.
  unfold strip_bearer_scheme. rewrite length_app.
  replace (length scheme + length k <? 7)%nat with false by (symmetry; apply Nat.ltb_ge; lia).
  rewrite take_app_length', drop_app_length' by done. by rewrite bool_decide_true.
Qed.

(** The first credential header a request carries decides, and only it: a
    request offers a credential exactly when one is read; a dedicated header,
    well formed or not, is answered without a look at [Authorization], and an
    [Authorization] without a look at [x-api-key], so a bad credential is never
    retried as another; an accepted credential is never empty; and a key sent
    in the dedicated header may be behind a [Bearer] scheme in any case. *)
Theorem first_header_decides (headers headers' : HeaderMap) :
  (is_Some (header_credential headers) <-> credential_offered headers = true) /\
  (forall c, header_credential headers = Some (ROk c) -> c <> []) /\
  (forall raw, headers GATEWAY_KEY_HEADER = Some raw -> headers' GATEWAY_KEY_HEADER = Some raw ->
     header_credential headers = header_credential headers') /\
  (forall raw, headers GATEWAY_KEY_HEADER = None -> headers' GATEWAY_KEY_HEADER = None ->
     headers AUTHORIZATION = Some raw -> headers' AUTHORIZATION = Some raw ->
     header_credential headers = header_credential headers') /\
  (forall scheme k, ascii_lower <$> scheme = lit "bearer " -> k <> [] -> trim k = k ->
     trim (scheme ++ k) = scheme ++ k -> strip_bearer_scheme k = None ->
     headers GATEWAY_KEY_HEADER = Some (Some (scheme ++ k)) ->
     headers' GATEWAY_KEY_HEADER = Some (Some k) ->
     header_credential headers = Some (ROk k) /\ header_credential headers' = Some (ROk k)).
Proof.
  unfold header_credential. split_and!.
  - unfold credential_offered. simpl.
    destruct (headers GATEWAY_KEY_HEADER), (headers AUTHORIZATION), (headers X_API_KEY_HEADER); simpl;
      (split; [done|intros; by eauto]) || (split; [by intros []|done]).
  - intros c. destruct (headers GATEWAY_KEY_HEADER) as [raw|].
    { intros [= H]. by eapply gateway_credential_nonempty. }
    destruct (headers AUTHORIZATION) as [raw|].
    { intros [= H]. by eapply authorization_credential_nonempty. }
    destruct (headers X_API_KEY_HEADER) as [raw|]; [|done].
    intros [= H]. by eapply raw_credential_nonempty.
  - by intros raw -> ->.
  - by intros raw -> -> -> ->.
  - intros scheme k Hs Hne Ht Hts Hnb -> ->.
    unfold gateway_key_header_credential, raw_credential. rewrite Hts, Ht.
    destruct (scheme ++ k) as [|b s] eqn:E.
    { by apply app_eq_nil in E as [_ ->]. }
    rewrite <- E, bearer_stripped by done. simpl. rewrite Ht. destruct k as [|x k]; [done|].
    by rewrite Hnb.
Qed.

(** Every credential that cannot be read is reported as missing. *)
Lemma header_credential_401 headers e :
  header_credential headers = Some (RErr e) -> exists h, e = PeMissingAuth h.
Proof.
  unfold header_credential, gateway_key_header_credential, authorization_credential, raw_credential.
  intros H. repeat (case_match; simplify_eq/=; eauto).
  destruct (headers X_API_KEY_HEADER) as [[s|]|]; simplify_eq/=; [case_match|]; simplify_eq/=; eauto.
Qed.

(** ** Authentication *)

Section authentication.
Context (hash_bearer : bytes -> string).
Context (any_enabled_provider : bool) (looks_like_jwt : bytes -> bool).
Context (authenticate_jwt : bytes -> stm AuthLog ProxyError AuthenticatedKey).
Context (snapshot : AisixSnapshot) (now : Z).

Abbreviation extract :=
  (extract_authenticated_key hash_bearer any_enabled_provider looks_like_jwt authenticate_jwt snapshot now).

(** C21. Authentication by key is exact.  For a request that does not take the
    JWT path, exactly one decision is recorded, an allow precisely when a
    principal is admitted; the principal is the row of the presented
    credential's hash, which is not disabled and whose deadline, if any, has
    not passed; it is noted once on the request; every refusal is a 401, and
    a refusal of a known key means that row is disabled or past its deadline. *)
Theorem authentication_exact guarded headers log :
  table_reachable key_hash guarded (apikeys snapshot) ->
  (forall token, header_credential headers = Some (ROk token) ->
     any_enabled_provider && looks_like_jwt token = false) ->
  exists r d notes,
    extract headers log = (r, mkAuthLog (decisions log ++ [d]) (noted log ++ notes)) /\
    match r with
    | ROk a =>
        auth_allowed d = true /\ notes = [a] /\
        exists token e, header_credential headers = Some (ROk token) /\
          get_by_id (entry_id e) (apikeys snapshot) = Some e /\
          key_hash (value e) = hash_bearer token /\ disabled (value e) = false /\
          (forall deadline, expires_at (value e) = Some deadline -> now <= deadline) /\
          a = authenticated_new snapshot e false
    | RErr err =>
        auth_allowed d = false /\ notes = [] /\ error_status err = 401%N /\
        forall token e, header_credential headers = Some (ROk token) ->
          get_by_name (hash_bearer token) (apikeys snapshot) = Some e ->
          disabled (value e) = true \/ exists deadline, expires_at (value e) = Some deadline /\ deadline < now
    end.
Proof.
  intros R Hj. destruct (table_indices_agree _ _ _ R) as (Hname & _).
  unfold extract_authenticated_key, extract_bearer.
  destruct (header_credential headers) as [[token|e]|] eqn:Ec; cbn [default from_option id].
  - unfold authenticate_token, authenticate_token_inner. rewrite (Hj _ eq_refl).
    destruct (get_by_name _ _) as [e|] eqn:En.
    + destruct (disabled (value e)) eqn:Ed.
      { do 3 eexists. split; [by rewrite app_nil_r|]. split_and!; [done..|].
        intros ? ? [= <-]. rewrite En. intros [= <-]. by left. }
      unfold is_expired_at. destruct (expires_at (value e)) as [t|] eqn:Et; simpl.
      * destruct (Z.ltb_spec t now) as [Hlt|Hge].
        -- do 3 eexists. split; [by rewrite app_nil_r|]. split_and!; [done..|].
           intros ? ? [= <-]. rewrite En. intros [= <-]. right. eauto.
        -- do 3 eexists. split; [done|]. split_and!; [done|done|]. destruct (Hname _ _ En).
           exists token, e. split_and!; auto. rewrite Et. by intros ? [= <-].
      * do 3 eexists. split; [done|]. split_and!; [done|done|]. destruct (Hname _ _ En).
        exists token, e. split_and!; auto. by rewrite Et.
    + do 3 eexists. split; [by rewrite app_nil_r|]. split_and!; [done..|].
      intros ? ? [= <-]. by rewrite En.
  - do 3 eexists. split; [by rewrite app_nil_r|]. split_and!; [done|done| |done].
    by destruct (header_credential_401 _ _ Ec) as [h ->].
  - do 3 eexists. split; [by rewrite app_nil_r|]. done.
Qed.
End authentication.

(** ** Witnesses *)

Definition demo_key (ids : option (list string)) (deadline : option Z) : ApiKey :=
  mkApiKey "#sk-1" None None None None None [] [] ids None None deadline false None None ∅.
Definition demo_keys : ResourceTable ApiKey :=
  fst (insert_arc key_hash (mkEntry "k1" (demo_key (Some ["w1"]) (Some 100)) 1) table_default 1).
Definition demo_access : AisixSnapshot :=
  mkSnapshot demo_rows table_default table_default demo_keys table_default table_default
    table_default table_default.
Definition demo_hash (token : bytes) : string := "#" +:+ of_bytes token.
Definition demo_headers (value : string) : HeaderMap :=
  fun h => if bool_decide (h = GATEWAY_KEY_HEADER) then Some (Some (lit value)) else None.

Lemma grant_follows_row_witness :
  let renamed := mkEntry "w1" (demo_row "azure/*" None) 3 in
  can_access (demo_key (Some ["w1"]) None) demo_access "azure/x" = false /\
  can_access (demo_key (Some ["w1"]) None) (with_model_row demo_access renamed 9) "azure/*" = true.
Proof.
  split; [vm_compute; reflexivity|].
  destruct (grant_follows_row (demo_key (Some ["w1"]) None) demo_access "azure/x"
              (table_reachable_wf _ _ _ demo_rows_reachable)) as [H _].
  destruct (H _ eq_refl) as (_ & _ & Hr).
  exact (proj1 (Hr (mkEntry "w1" (demo_row "azure/*" None) 3) 9%N (list_elem_of_here _ _))).
Defined.

Lemma first_header_decides_witness :
  header_credential (demo_headers "BEARER sk-1") = Some (ROk (lit "sk-1")) /\
  header_credential (demo_headers "sk-1") = Some (ROk (lit "sk-1")).
Proof.
  destruct (first_header_decides (demo_headers "BEARER sk-1") (demo_headers "sk-1")) as (_ & _ & _ & _ & H).
  by apply (H (lit "BEARER ") (lit "sk-1")).
Defined.

Lemma authentication_exact_witness :
  let extract now := extract_authenticated_key demo_hash false (fun _ => false)
                       (fun _ => stm_throw PeJwtInvalid) demo_access now (demo_headers "sk-1") in
  fst (extract 101 (mkAuthLog [] [])) = RErr PeApiKeyExpired /\
  exists r d notes,
    extract 100 (mkAuthLog [] []) = (r, mkAuthLog ([] ++ [d]) ([] ++ notes)) /\
    exists a, r = ROk a /\ notes = [a] /\ entry_id (auth_entry a) = "k1".
Proof.
  intros extract. split; [vm_compute; reflexivity|].
  assert (table_reachable key_hash true demo_keys) as R.
  { apply (tr_step key_hash true table_default (OpInsert (mkEntry "k1" (demo_key (Some ["w1"]) (Some 100)) 1)) 1);
      [apply tr_default|intros _; vm_compute; reflexivity]. }
  destruct (authentication_exact demo_hash false (fun _ => false) (fun _ => stm_throw PeJwtInvalid)
              demo_access 100 true (demo_headers "sk-1") (mkAuthLog [] []) R (fun _ _ => eq_refl))
    as (r & d & notes & E & H).
  assert (exists a, fst (extract 100 (mkAuthLog [] [])) = ROk a /\ entry_id (auth_entry a) = "k1") as (a & Ha & Hid)
    by (eexists; split; vm_compute; reflexivity).
  exists r, d, notes. split; [exact E|]. unfold extract in Ha. rewrite E in Ha. simpl in Ha. subst r.
  destruct H as (_ & -> & _). eauto.
Defined.
