(* ===== verification/EtcdKey.v ===== *)
(** * Configuration keys and reconnect backoff

    [crates/aisix-etcd/src/key.rs]: the etcd keys [{prefix}/{kind}/{id}] of the
    configuration, resolved against the prefixes a supervisor watches, and
    [backoff.rs], the delays between reconnects.  A key is its bytes. *)

From S2P Require Import Prelude Sort Utf8.
Local Open Scope N_scope.

(** ** Keys *)

Definition SLASH : N := 47.

Record ResourceKey := mkKey { key_kind : bytes; key_id : bytes }.

Inductive KeyError :=
  | PrefixMismatch (key prefix : bytes)
  | MissingSuffix (key : bytes)
  | EmptySegment (key : bytes).

(** [str::trim_end_matches('/')] *)
Fixpoint trim_slashes (l : bytes) : bytes :=
  match l with
  | [] => []
  | b :: l => match trim_slashes l with
              | [] => if b =? SLASH then [] else [b]
              | r => b :: r
              end
  end.

(** [str::split_once('/')] *)
Fixpoint split_slash (l : bytes) : option (bytes * bytes) :=
  match l with
  | [] => None
  | b :: l => if b =? SLASH then Some ([], l) else '(h, t) ← split_slash l; Some (b :: h, t)
  end.

Definition parse (prefix key : bytes) : result ResourceKey KeyError :=
  match strip_prefix (trim_slashes prefix) key with
  | None => RErr (PrefixMismatch key prefix)
  | Some rest =>
      if nonempty_bytes rest && negb (starts_with [SLASH] rest) then RErr (PrefixMismatch key prefix)
      else
        let rest := default rest (strip_prefix [SLASH] rest) in
        match split_slash rest with
        | None => RErr (MissingSuffix key)
        | Some (kind, id) =>
            if negb (nonempty_bytes kind) || negb (nonempty_bytes id) then RErr (EmptySegment key)
            else ROk (mkKey kind id)
        end
  end.

Inductive PrefixScope := Environment | Global.
#[export] Instance PrefixScope_eq_dec : EqDecision PrefixScope.
Proof. solve_decision. Defined.

Definition scope_str (s : PrefixScope) : string :=
  match s with Environment => "environment" | Global => "global" end.

Record WatchedPrefix := mkWatched { prefix : bytes; scope : PrefixScope }.
#[export] Instance WatchedPrefix_eq_dec : EqDecision WatchedPrefix.
Proof. solve_decision. Defined.

Abbreviation PrefixSet := (list WatchedPrefix).

(** [sort_by_key(Reverse(len))]: longest first, stable. *)
Definition prefix_set_new (prefixes : list WatchedPrefix) : PrefixSet :=
  stable_sort (fun a b => (length (trim_slashes (prefix b)) <=? length (trim_slashes (prefix a)))%nat) prefixes.

Definition prefix_set_single (p : bytes) : PrefixSet := prefix_set_new [mkWatched p Environment].

Record ScopedKey := mkScoped { sk_scope : PrefixScope; sk_kind : bytes; sk_id : bytes }.

(** The loop of [resolve], with the first mismatch met. *)
Fixpoint resolve_loop (prefixes : PrefixSet) (key : bytes) (first_err : option KeyError)
    : result ScopedKey KeyError :=
  match prefixes with
  | [] => RErr (default (PrefixMismatch key []) first_err)
  | watched :: prefixes =>
      match parse (prefix watched) key with
      | ROk parsed => ROk (mkScoped (scope watched) (key_kind parsed) (key_id parsed))
      | RErr ((MissingSuffix _ | EmptySegment _) as err) => RErr err
      | RErr err => resolve_loop prefixes key (Some (default err first_err))
      end
  end.

Definition resolve (prefixes : PrefixSet) (key : bytes) : result ScopedKey KeyError :=
  resolve_loop prefixes key None.

Definition table_kind (k : ScopedKey) : bytes :=
  match sk_scope k with
  | Global => if bool_decide (sk_kind k = lit "pricing") then lit "global_pricing" else sk_kind k
  | Environment => sk_kind k
  end.

(** ** Backoff *)

Definition BASE_MS : N := 1000.
Definition MAX_MS : N := 60000.

Record ExpBackoff := mkBackoff { current_ms : N; base_ms : N; max_ms : N }.

Definition backoff_new (base_ms max_ms : N) : ExpBackoff := mkBackoff base_ms base_ms max_ms.
Definition backoff_default : ExpBackoff := backoff_new BASE_MS MAX_MS.

(** The delay, in milliseconds, and the backoff after it. *)
Definition next_delay (b : ExpBackoff) : N * ExpBackoff :=
  (current_ms b, mkBackoff (N.min (sat_mul (current_ms b) 2) (max_ms b)) (base_ms b) (max_ms b)).

Definition backoff_reset (b : ExpBackoff) : ExpBackoff := mkBackoff (base_ms b) (base_ms b) (max_ms b).

(** ** Keys, written and read *)

(** Where a document of [kind] and [id] is written under a prefix. *)
Definition key_under (p kind id : bytes) : bytes := trim_slashes p ++ SLASH :: kind ++ SLASH :: id.

Lemma split_slash_Some l h t : split_slash l = Some (h, t) <-> l = h ++ SLASH :: t /\ SLASH ∉ h.
Proof.
  revert h. induction l as [|b l IH]; intros h; simpl.
  { split; [done|]. intros [E _]. by destruct h. }
  destruct (N.eqb_spec b SLASH) as [-> |Hb].
  - split.
    + intros [= <- <-]. split; [done|]. apply not_elem_of_nil.
    + intros [E Hn]. destruct h as [|c h]; simplify_eq/=; [done|].
      exfalso. set_solver.
  - split.
    + destruct (split_slash l) as [[h' t']|] eqn:E; intros [= <- <-]. destruct (proj1 (IH h') eq_refl) as [-> Hn].
      split; [done|]. set_solver.
    + intros [E Hn]. destruct h as [|c h]; simplify_eq/=.
      assert (split_slash (h ++ SLASH :: t) = Some (h, t)) as -> by (apply IH; set_solver). done.
Qed.

Lemma nonempty_bytes_spec l : nonempty_bytes l = true <-> l <> [].
Proof. by destruct l. Qed.

(** [parse] accepts exactly the keys written under the prefix, and reads back
    what was written. *)
Lemma parse_spec p key k :
  parse p key = ROk k <->
  key = key_under p (key_kind k) (key_id k) /\ key_kind k <> [] /\ key_id k <> [] /\ SLASH ∉ key_kind k.
Proof.
  unfold parse, key_under. split.
  - destruct (strip_prefix _ key) as [rest|] eqn:Es; [|done]. apply strip_prefix_Some in Es as ->.
    destruct (_ && _) eqn:Eb; [done|].
    destruct rest as [|b rest]; [done|]. apply andb_false_iff in Eb as [|Eb]; [done|].
    apply negb_false_iff, starts_with_spec in Eb as [r [= -> <-]].
    rewrite (proj2 (strip_prefix_Some [SLASH] (SLASH :: rest) rest) eq_refl). cbn [default from_option id].
    destruct (split_slash rest) as [[kind id]|] eqn:Ek; [|done]. apply split_slash_Some in Ek as [-> Hn].
    destruct (negb (nonempty_bytes kind) || _) eqn:En; [done|]. intros [= <-]. simpl.
    apply orb_false_iff in En as [H1%negb_false_iff%nonempty_bytes_spec H2%negb_false_iff%nonempty_bytes_spec].
    done.
  - intros (-> & Hk & Hi & Hn). rewrite (proj2 (strip_prefix_Some _ _ _) eq_refl). simpl.
    unfold strip_prefix. simpl. rewrite drop_0.
    rewrite (proj2 (split_slash_Some _ _ _) (conj eq_refl Hn)).
    rewrite (proj2 (nonempty_bytes_spec _) Hk), (proj2 (nonempty_bytes_spec _) Hi). by destruct k.
Qed.

(** [key] is the prefix itself or continues it at a [/]. *)
Definition within (p key : bytes) : Prop :=
  exists rest, key = trim_slashes p ++ rest /\ (rest = [] \/ exists r, rest = SLASH :: r).

Lemma parse_within p key :
  match parse p key with
  | ROk _ | RErr (MissingSuffix _) | RErr (EmptySegment _) => within p key
  | RErr (PrefixMismatch _ _) => ~ within p key
  end.
Proof.
  unfold parse. destruct (strip_prefix _ key) as [rest|] eqn:Es.
  2: { intros (rest & E & _). rewrite (proj2 (strip_prefix_Some _ _ _) E) in Es. done. }
  apply strip_prefix_Some in Es as ->. destruct (_ && _) eqn:Eb.
  - apply andb_true_iff in Eb as [Hn Hs%negb_true_iff]. intros (r & E & Hr). apply app_inv_head in E as <-.
    destruct Hr as [-> |[r ->]]; [done|]. by rewrite (proj2 (starts_with_spec [SLASH] (SLASH :: r)) (ex_intro _ r eq_refl)) in Hs.
  - assert (within p (trim_slashes p ++ rest)) as Hw; [|by repeat case_match].
    exists rest. split; [done|]. apply andb_false_iff in Eb as [Eb|Eb]; [left; by destruct rest|right].
    apply negb_false_iff, starts_with_spec in Eb as [r ->]. by exists r.
Qed.

Lemma resolve_loop_spec ps key err :
  match resolve_loop ps key err with
  | ROk sk => exists ps1 w ps2, ps = ps1 ++ w :: ps2 /\ scope w = sk_scope sk /\
      (forall w', w' ∈ ps1 -> ~ within (prefix w') key) /\
      parse (prefix w) key = ROk (mkKey (sk_kind sk) (sk_id sk))
  | RErr _ =>
      (forall w, w ∈ ps -> ~ within (prefix w) key) \/
      exists ps1 w ps2 e, ps = ps1 ++ w :: ps2 /\ (forall w', w' ∈ ps1 -> ~ within (prefix w') key) /\
        parse (prefix w) key = RErr e /\ within (prefix w) key
  end.
Proof.
  revert err. induction ps as [|w ps IH]; intros err; simpl.
  { left. intros w Hw. by apply elem_of_nil in Hw. }
  pose proof (parse_within (prefix w) key) as Hp.
  destruct (parse (prefix w) key) as [[kind id]|[k p|k|k]] eqn:E.
  - exists [], w, ps. simpl. split_and!; try done. intros w' Hw'. by apply elem_of_nil in Hw'.
  - specialize (IH (Some (default (PrefixMismatch k p) err))). destruct (resolve_loop _ _ _) as [sk|e].
    + destruct IH as (ps1 & w0 & ps2 & -> & Hs & Hn & Hp0). exists (w :: ps1), w0, ps2.
      split_and!; try done. intros w' [-> |Hw']%elem_of_cons; auto.
    + destruct IH as [IH|(ps1 & w0 & ps2 & e0 & -> & Hn & Hp0 & Hw0)].
      * left. intros w' [-> |Hw']%elem_of_cons; auto.
      * right. exists (w :: ps1), w0, ps2, e0. split_and!; try done. intros w' [-> |Hw']%elem_of_cons; auto.
  - right. exists [], w, ps, (MissingSuffix k). split_and!; try done. intros w' Hw'. by apply elem_of_nil in Hw'.
  - right. exists [], w, ps, (EmptySegment k). split_and!; try done. intros w' Hw'. by apply elem_of_nil in Hw'.
Qed.

Lemma prefix_set_new_elem l w : w ∈ prefix_set_new l <-> w ∈ l.
Proof. unfold prefix_set_new. by rewrite stable_sort_perm. Qed.

Lemma prefix_set_new_first l ps1 w ps2 w' :
  prefix_set_new l = ps1 ++ w :: ps2 -> w' ∈ l -> w' ∉ ps1 ->
  (length (trim_slashes (prefix w')) <= length (trim_slashes (prefix w)))%nat.
Proof.
  intros E Hw' Hn. apply prefix_set_new_elem in Hw'. rewrite E, elem_of_app, elem_of_cons in Hw'.
  assert (sorted (fun a b => (length (trim_slashes (prefix b)) <=? length (trim_slashes (prefix a)))%nat)
            (ps1 ++ w :: ps2)) as Hs.
  { rewrite <- E. apply stable_sort_sorted.
    - intros x y. rewrite !Nat.leb_le. lia.
    - intros x y z. rewrite !Nat.leb_le. lia. }
  clear E. induction ps1 as [|x ps1 IH]; simpl in Hs.
  - inversion Hs as [|? ? Hx _]; subst. destruct Hw' as [[]%elem_of_nil|[-> |Hw']]; [done|].
    apply Nat.leb_le. by apply Hx.
  - inversion Hs; subst. apply IH; [set_solver|set_solver|done].
Qed.

Definition well_formed (kind id : bytes) : Prop := kind <> [] /\ id <> [] /\ SLASH ∉ kind.

Lemma resolve_sound l key sk :
  resolve (prefix_set_new l) key = ROk sk ->
  exists w, w ∈ l /\ scope w = sk_scope sk /\ key = key_under (prefix w) (sk_kind sk) (sk_id sk) /\
    well_formed (sk_kind sk) (sk_id sk) /\
    forall w', w' ∈ l -> within (prefix w') key ->
      (length (trim_slashes (prefix w')) <= length (trim_slashes (prefix w)))%nat.
Proof.
  unfold resolve. intros E. pose proof (resolve_loop_spec (prefix_set_new l) key None) as H. rewrite E in H.
  destruct H as (ps1 & w & ps2 & El & Hs & Hn & Hp). apply parse_spec in Hp as (Hk & Hne & Hi & Hsl).
  exists w. split_and!; try done.
  - apply prefix_set_new_elem. rewrite El. set_solver.
  - intros w' Hw' Hin. apply (prefix_set_new_first _ _ _ _ _ El Hw'). intros Hin'. by apply (Hn w').
Qed.

(** A key names one document.  A key resolves only to the scope, kind and
    id it was written with, under the longest watched prefix that contains it,
    so a catalog key is never read as an environment document however the
    prefixes nest; and every document written under a watched prefix, which no
    longer one contains, resolves back to exactly its scope, kind and id. *)
Theorem key_roundtrip l key :
  (forall sk, resolve (prefix_set_new l) key = ROk sk ->
     exists w, w ∈ l /\ scope w = sk_scope sk /\ well_formed (sk_kind sk) (sk_id sk) /\
       key = key_under (prefix w) (sk_kind sk) (sk_id sk) /\
       forall w', w' ∈ l -> within (prefix w') key ->
         (length (trim_slashes (prefix w')) <= length (trim_slashes (prefix w)))%nat) /\
  (forall w kind id, w ∈ l -> well_formed kind id -> key = key_under (prefix w) kind id ->
     (forall w', w' ∈ l -> within (prefix w') key -> w' <> w ->
        (length (trim_slashes (prefix w')) < length (trim_slashes (prefix w)))%nat) ->
     resolve (prefix_set_new l) key = ROk (mkScoped (scope w) kind id)).
Proof.
  split.
  - intros sk E. destruct (resolve_sound l key sk E) as (w & ? & ? & ? & ? & ?). exists w. auto.
  - intros w kind id Hw (Hk & Hi & Hsl) -> Hlong. set (key := key_under _ _ _) in *.
    assert (parse (prefix w) key = ROk (mkKey kind id)) as Hp by (by apply parse_spec).
    assert (within (prefix w) key) as Hwin by (pose proof (parse_within (prefix w) key) as H; by rewrite Hp in H).
    assert (forall ps1 w' ps2, prefix_set_new l = ps1 ++ w' :: ps2 ->
      (forall x, x ∈ ps1 -> ~ within (prefix x) key) -> within (prefix w') key -> w' = w) as Huniq.
    { intros ps1 w' ps2 El Hn Hin. destruct (decide (w' = w)) as [|Hne]; [done|].
      assert (w' ∈ l) as Hw' by (apply prefix_set_new_elem; rewrite El; set_solver).
      specialize (Hlong w' Hw' Hin Hne).
      assert (w ∉ ps1) as Hnot by (intros Hin'; by apply (Hn w)).
      pose proof (prefix_set_new_first _ _ _ _ _ El Hw Hnot). lia. }
    unfold resolve. pose proof (resolve_loop_spec (prefix_set_new l) key None) as H.
    destruct (resolve_loop _ _ _) as [sk|e].
    + destruct H as (ps1 & w' & ps2 & El & Hs & Hn & Hp').
      assert (w' = w) as -> by (apply (Huniq _ _ _ El Hn); pose proof (parse_within (prefix w') key) as H;
                                by rewrite Hp' in H).
      rewrite Hp in Hp'. injection Hp' as -> ->. rewrite Hs. by destruct sk.
    + destruct H as [H|(ps1 & w' & ps2 & e' & El & Hn & Hp' & Hin)].
      * destruct (H w); [by apply prefix_set_new_elem|done].
      * rewrite (Huniq _ _ _ El Hn Hin) in Hp'. congruence.
Qed.

(** Where each scope has one prefix, a key is determined by what it resolves to. *)
Lemma resolve_inj l key key' sk :
  (forall w w', w ∈ l -> w' ∈ l -> scope w = scope w' -> w = w') ->
  resolve (prefix_set_new l) key = ROk sk -> resolve (prefix_set_new l) key' = ROk sk -> key = key'.
Proof.
  intros Hone E E'. destruct (resolve_sound l key sk E) as (w & Hw & Hs & -> & _).
  destruct (resolve_sound l key' sk E') as (w' & Hw' & Hs' & -> & _).
  rewrite (Hone w w') by (try done; congruence). done.
Qed.

(** The comment in [resolve] that no other prefix contains a malformed key does
    not hold of nested prefixes: the bare base contains the catalog's. *)
Lemma nested_suffix_refused :
  let base := mkWatched (lit "/aisix") Environment in
  let catalog := mkWatched (lit "/aisix/global") Global in
  let key := lit "/aisix/global/pricing" in
  resolve (prefix_set_new [base; catalog]) key = RErr (MissingSuffix key) /\
  resolve (prefix_set_new [base]) key = ROk (mkScoped Environment (lit "global") (lit "pricing")).
Proof. split; vm_compute; reflexivity. Qed.

(** ** The reconnect schedule *)

Fixpoint delays (n : nat) (b : ExpBackoff) : ExpBackoff :=
  match n with O => b | S n => delays n (snd (next_delay b)) end.

Lemma delays_snoc n b : delays (S n) b = snd (next_delay (delays n b)).
Proof. revert b. induction n as [|n IH]; intros b; [done|]. exact (IH (snd (next_delay b))). Qed.

Lemma delays_limits n b : base_ms (delays n b) = base_ms b /\ max_ms (delays n b) = max_ms b.
Proof. induction n as [|n [IH1 IH2]]; [done|]. by rewrite delays_snoc. Qed.

(** Failure [n] in a row waits the base doubled [n] times, and no longer than
    the maximum; a successful reconnect starts over at the base. *)
Theorem backoff_schedule b n k :
  max_ms b <= u64_max ->
  fst (next_delay (delays n (backoff_reset (delays k b)))) =
    match n with O => base_ms b | S _ => N.min (base_ms b * 2 ^ N.of_nat n) (max_ms b) end.
Proof.
  intros Hm. destruct (delays_limits k b) as [Hb Hx]. unfold backoff_reset. rewrite Hb, Hx.
  induction n as [|n IH]; [done|]. destruct (delays_limits n (mkBackoff (base_ms b) (base_ms b) (max_ms b))) as [_ Hmax].
  rewrite delays_snoc. simpl in IH |- *. rewrite IH, Hmax. unfold sat_mul. simpl max_ms.
  destruct n as [|n]; [change (2 ^ N.of_nat 1) with 2; lia|].
  replace (N.of_nat (S (S n))) with (N.succ (N.of_nat (S n))) by lia. rewrite N.pow_succ_r'. lia.
Qed.

(** ** Witnesses *)

Definition demo_prefixes : list WatchedPrefix :=
  [mkWatched (lit "/aisix") Environment; mkWatched (lit "/aisix/global/") Global].

Lemma key_roundtrip_witness :
  let key := lit "/aisix/global/pricing/p1" in
  resolve (prefix_set_new demo_prefixes) key = ROk (mkScoped Global (lit "pricing") (lit "p1")).
Proof.
  intros key. destruct (key_roundtrip demo_prefixes key) as [_ H].
  apply (H (mkWatched (lit "/aisix/global/") Global) (lit "pricing") (lit "p1")).
  - by right; left.
  - split_and!; [done|done|]. by apply (bool_decide_unpack _).
  - reflexivity.
  - intros w' [-> |[-> |[]%elem_of_nil]%elem_of_cons]%elem_of_cons _; [intros _; vm_compute; lia|done].
Defined.
