(* ===== verification/Loader.v ===== *)
(** * From raw entries to typed tables

    [crates/aisix-etcd/src/loader.rs]: every raw etcd entry is resolved, parsed,
    validated and inserted in the table of its kind, or skipped with a recorded
    reason; one bad row never stops the others.

    The JSON schemas, the typed documents behind serde and the two upgrades of
    stored rows are the interface [Documents]; a table is the rows by id, keyed
    by the table's name ([Snapshot] has the indices).  Error texts, timestamps
    and log lines are not modelled. *)

From S2P Require Import Prelude Sort Utf8 EtcdKey.
Local Open Scope nat_scope.

(** ** The documents of one build *)

Class Documents := {
  Json : Type;
  Doc : Type;
  from_slice : bytes -> option Json;
  validate_lenient : bytes -> Json -> bool;
  deserialize : bytes -> Json -> option (Doc * list string);
  validate_semantics : bytes -> Doc -> bool;
  unknown_field_paths : string -> Json -> list string;
  upgrade_stored_routing : Json -> Json * list string;
  upgrade_stored_mcp_access : Json -> Json * list string;
  strip_kind_inapplicable : Doc -> Doc * list string;
  validate_a2a_agent_url : Json -> bool;
  canonical_json : Json -> bytes;
}.

Record RawEntry := mkRaw { raw_key : bytes; raw_value : bytes; raw_revision : Z }.
#[export] Instance RawEntry_eq_dec : EqDecision RawEntry.
Proof. solve_decision. Defined.

(** ** Rejections and partial compatibility *)

Inductive RejectionKind := BadKey | NonJson | SchemaFailed | ParseFailed | UnknownKind.
#[export] Instance RejectionKind_eq_dec : EqDecision RejectionKind.
Proof. solve_decision. Defined.

Definition rejection_str (k : RejectionKind) : string :=
  match k with
  | BadKey => "bad_key"
  | NonJson => "non_json"
  | SchemaFailed => "schema_failed"
  | ParseFailed => "parse_failed"
  | UnknownKind => "unknown_kind"
  end.

Record RejectedEntry := mkRejected { rej_key : bytes; rej_kind : RejectionKind }.
#[export] Instance RejectedEntry_eq_dec : EqDecision RejectedEntry.
Proof. solve_decision. Defined.

Record PartialCompatRow := mkPartial { pc_key : bytes; pc_kind : bytes; pc_fields : list string }.

Definition MAX_REPORTED_FIELDS_PER_ROW : nat := 64.

(** [sort_unstable] then [dedup]: equal strings are the same string. *)
Definition sorted_fields (l : list string) : list string := dedup (stable_sort string_leb l).

(** The cap on what one row reports, the truncation kept visible. *)
Definition cap_fields (l : list string) : list string :=
  if (MAX_REPORTED_FIELDS_PER_ROW <? length l) then take MAX_REPORTED_FIELDS_PER_ROW l ++ ["...truncated"] else l.

Record BuildStats := mkStats {
  accepted : nat;
  schema_rejected : nat;
  parse_rejected : nat;
  unknown_kind : nat;
  key_rejected : nat;
  build_rejections : list RejectedEntry;
  partial_rows : list PartialCompatRow;
}.

Definition stats_default : BuildStats := mkStats 0 0 0 0 0 [] [].

(** The counter each reason bumps, and the entry it pushes. *)
Definition reject_row (key : bytes) (k : RejectionKind) (s : BuildStats) : BuildStats :=
  mkStats (accepted s)
    (match k with SchemaFailed => S (schema_rejected s) | _ => schema_rejected s end)
    (match k with NonJson | ParseFailed => S (parse_rejected s) | _ => parse_rejected s end)
    (match k with UnknownKind => S (unknown_kind s) | _ => unknown_kind s end)
    (match k with BadKey => S (key_rejected s) | _ => key_rejected s end)
    (build_rejections s ++ [mkRejected key k]) (partial_rows s).

Definition accept (s : BuildStats) : BuildStats :=
  mkStats (S (accepted s)) (schema_rejected s) (parse_rejected s) (unknown_kind s) (key_rejected s)
    (build_rejections s) (partial_rows s).

Definition with_partial_rows (rows : list PartialCompatRow) (s : BuildStats) : BuildStats :=
  mkStats (accepted s) (schema_rejected s) (parse_rejected s) (unknown_kind s) (key_rejected s)
    (build_rejections s) rows.

(** [iter_mut().rfind]: the last row with the key is extended. *)
Fixpoint extend_last (key : bytes) (fields : list string) (rows : list PartialCompatRow)
    : option (list PartialCompatRow) :=
  match rows with
  | [] => None
  | row :: rows =>
      match extend_last key fields rows with
      | Some rows => Some (row :: rows)
      | None =>
          if bool_decide (pc_key row = key)
          then Some (mkPartial (pc_key row) (pc_kind row) (sorted_fields (pc_fields row ++ fields)) :: rows)
          else None
      end
  end.

Definition merge_partial_compat_fields (key kind : bytes) (fields : list string) (s : BuildStats) : BuildStats :=
  with_partial_rows
    (match extend_last key fields (partial_rows s) with
     | Some rows => rows
     | None => partial_rows s ++ [mkPartial key kind fields]
     end) s.

(** ** Ignored paths *)

Definition DOT : N := 46.

(** [str::split('.')] *)
Fixpoint split_dots (l : bytes) : list bytes :=
  match l with
  | [] => [[]]
  | b :: l =>
      if N.eqb b DOT then [] :: split_dots l
      else match split_dots l with
           | seg :: segs => (b :: seg) :: segs
           | [] => [[b]]
           end
  end.

Fixpoint join_dots (l : list bytes) : bytes :=
  match l with
  | [] => []
  | [seg] => seg
  | seg :: l => seg ++ DOT :: join_dots l
  end.

(** [str::parse::<usize>().is_ok()]: an optional [+], then digits that fit. *)
Definition is_digit (b : N) : bool := Utf8.between 48 57 b.
Definition digits_value (l : bytes) : N := foldl (fun acc b => (acc * 10 + (b - 48))%N) 0%N l.
Definition parses_usize (l : bytes) : bool :=
  let digits := default l (strip_prefix (lit "+") l) in
  nonempty_bytes digits && forallb is_digit digits && (digits_value digits <=? u64_max)%N.

Definition normalize_ignored_path (path : bytes) : bytes :=
  join_dots
    ((fun seg => if parses_usize seg then lit "[]" else seg)
       <$> List.filter (fun seg => negb (bool_decide (seg = lit "?"))) (split_dots path)).

Definition normalized (path : string) : string := of_bytes (normalize_ignored_path (lit path)).

(** The kinds whose unknown fields only the schema can see. *)
Definition schema_reported_resource (row_kind : bytes) : option string :=
  if bool_decide (row_kind = lit "guardrails") then Some "guardrail"
  else if bool_decide (row_kind = lit "observability_exporters") then Some "observability_exporter"
  else if bool_decide (row_kind = lit "models") then Some "model"
  else if bool_decide (row_kind = lit "rate_limit_policies") then Some "rate_limit_policy"
  else None.

(** ** One row *)

Section loader.
Context {DM : Documents}.

(** A [ResourceEntry], its id being the key of its table. *)
Record Row := mkRow { row_doc : Doc; row_revision : Z }.

(** Every table by name, each its rows by id. *)
Abbreviation Tables := (gmap (bytes * bytes) Row).

Definition validate_and_parse (key : bytes) (revision : Z) (parsed : ScopedKey) (value : Json)
    (stats : BuildStats) : option Row * BuildStats :=
  let kind := sk_kind parsed in
  if negb (validate_lenient kind value) then (None, reject_row key SchemaFailed stats)
  else
    match deserialize kind value with
    | None => (None, reject_row key ParseFailed stats)
    | Some (t, ignored) =>
        if negb (validate_semantics kind t) then (None, reject_row key SchemaFailed stats)
        else
          let stats := accept stats in
          let ignored := normalized <$> ignored in
          let ignored :=
            match schema_reported_resource kind with
            | Some resource => ignored ++ (normalized <$> unknown_field_paths resource value)
            | None => ignored
            end in
          let stats :=
            match ignored with
            | [] => stats
            | _ => with_partial_rows
                     (partial_rows stats ++ [mkPartial key kind (cap_fields (sorted_fields ignored))]) stats
            end in
          (Some (mkRow t revision), stats)
    end.

(** A report that is merged only when it says something. *)
Definition report (key kind : bytes) (fields : list string) (stats : BuildStats) : BuildStats :=
  match fields with [] => stats | _ => merge_partial_compat_fields key kind fields stats end.

(** The kinds one arm of the loader's match handles in the common way. *)
Definition PLAIN_KINDS : list bytes :=
  lit <$> ["provider_keys"; "guardrails"; "guardrail_attachments"; "cache_policies";
           "observability_exporters"; "rate_limit_policies"; "mcp_servers"; "mcp_policies";
           "passthrough_routes"; "oidc_providers"; "claim_mappings"; "mcp_auth_settings"; "teams";
           "users"; "budgets"; "budget_policy"; "pricing"].
Definition KINDS : list bytes := lit "models" :: lit "api_keys" :: lit "a2a_agents" :: PLAIN_KINDS.

(** The match on [parsed.kind]: the row to insert, if any. *)
Definition load_kind (raw : RawEntry) (parsed : ScopedKey) (value : Json) (stats : BuildStats)
    : option Row * BuildStats :=
  let kind := sk_kind parsed in
  let load := fun value => validate_and_parse (raw_key raw) (raw_revision raw) parsed value stats in
  if bool_decide (kind = lit "models") then
    let '(value, retired) := upgrade_stored_routing value in
    match load value with
    | (Some row, stats) =>
        let '(doc, stripped) := strip_kind_inapplicable (row_doc row) in
        let stats := report (raw_key raw) kind ((fun f => "inapplicable:" +:+ f) <$> stripped) stats in
        (Some (mkRow doc (row_revision row)), report (raw_key raw) kind retired stats)
    | (None, stats) => (None, stats)
    end
  else if bool_decide (kind = lit "api_keys") then
    let '(value, retired) := upgrade_stored_mcp_access value in
    match load value with
    | (Some row, stats) => (Some row, report (raw_key raw) kind retired stats)
    | (None, stats) => (None, stats)
    end
  else if bool_decide (kind = lit "a2a_agents") then
    match load value with
    | (Some row, stats) =>
        (Some row, if validate_a2a_agent_url value then stats
                   else merge_partial_compat_fields (raw_key raw) kind ["legacy:url_policy"] stats)
    | (None, stats) => (None, stats)
    end
  else if bool_decide (kind ∈ PLAIN_KINDS) then load value
  else (None, reject_row (raw_key raw) UnknownKind stats).

(** The body of the loop. *)
Definition load_entry (prefixes : PrefixSet) (raw : RawEntry) (stats : BuildStats)
    : option (bytes * bytes * Row) * BuildStats :=
  match resolve prefixes (raw_key raw) with
  | RErr _ => (None, reject_row (raw_key raw) BadKey stats)
  | ROk parsed =>
      match from_slice (raw_value raw) with
      | None => (None, reject_row (raw_key raw) NonJson stats)
      | Some value =>
          if bool_decide (sk_scope parsed = Global) && negb (bool_decide (sk_kind parsed = lit "pricing"))
          then (None, reject_row (raw_key raw) UnknownKind stats)
          else
            match load_kind raw parsed value stats with
            | (Some row, stats) => (Some (table_kind parsed, sk_id parsed, row), stats)
            | (None, stats) => (None, stats)
            end
      end
  end.

Definition build_step (prefixes : PrefixSet) (acc : Tables * BuildStats) (raw : RawEntry)
    : Tables * BuildStats :=
  let '(snapshot, stats) := acc in
  match load_entry prefixes raw stats with
  | (Some (table, id, row), stats) => (<[(table, id) := row]> snapshot, stats)
  | (None, stats) => (snapshot, stats)
  end.

Definition build_snapshot (prefixes : PrefixSet) (entries : list RawEntry) : Tables * BuildStats :=
  fold_left (build_step prefixes) entries (∅, stats_default).

(** [aggregate_partial_compat], as the map it collects. *)
Definition aggregate_partial_compat (rows : list PartialCompatRow) : gmap (bytes * string) nat :=
  foldl (fun counts row =>
           foldl (fun counts field => <[(pc_kind row, field) := S (default 0 (counts !! (pc_kind row, field)))]> counts)
             counts (pc_fields row))
    ∅ rows.

(** ** What one row does to the report *)

Definition total_rejected (s : BuildStats) : nat :=
  schema_rejected s + parse_rejected s + unknown_kind s + key_rejected s.

(** The lines of [base], then at most one of [key]'s own. *)
Definition one_line (key : bytes) (base rows : list PartialCompatRow) : Prop :=
  rows = base \/ exists row, pc_key row = key /\ rows = base ++ [row].

Lemma extend_last_none key fields rows :
  (forall row, row ∈ rows -> pc_key row <> key) -> extend_last key fields rows = None.
Proof.
  induction rows as [|row rows IH]; intros Hr; simpl; [done|]. rewrite IH by set_solver.
  rewrite bool_decide_false; [done|]. apply Hr. by left.
Qed.

Lemma extend_last_snoc key fields rows row :
  pc_key row = key ->
  extend_last key fields (rows ++ [row]) =
    Some (rows ++ [mkPartial (pc_key row) (pc_kind row) (sorted_fields (pc_fields row ++ fields))]).
Proof. intros <-. induction rows as [|x rows IH]; simpl; [by rewrite bool_decide_true|by rewrite IH]. Qed.

Lemma merge_one_line key kind fields base s :
  (forall row, row ∈ base -> pc_key row <> key) -> one_line key base (partial_rows s) ->
  one_line key base (partial_rows (merge_partial_compat_fields key kind fields s)).
Proof.
  intros Hb [E|(row & Hk & E)]; unfold merge_partial_compat_fields; simpl; rewrite E.
  - rewrite extend_last_none by done. right. eexists. split; [|reflexivity]. done.
  - rewrite extend_last_snoc by done. right. eexists. split; [|reflexivity]. done.
Qed.

Lemma report_one_line key kind fields base s :
  (forall row, row ∈ base -> pc_key row <> key) -> one_line key base (partial_rows s) ->
  one_line key base (partial_rows (report key kind fields s)).
Proof. unfold report. destruct fields; [done|]. apply merge_one_line. Qed.

(** The report after a row: accepted, with at most one partial-compatibility
    line, or rejected once. *)
Definition row_reported (key : bytes) (loaded : bool) (s s' : BuildStats) : Prop :=
  if loaded then
    accepted s' = S (accepted s) /\ total_rejected s' = total_rejected s /\
    build_rejections s' = build_rejections s /\
    ((forall row, row ∈ partial_rows s -> pc_key row <> key) -> one_line key (partial_rows s) (partial_rows s'))
  else
    accepted s' = accepted s /\ total_rejected s' = S (total_rejected s) /\
    (exists k, build_rejections s' = build_rejections s ++ [mkRejected key k]) /\
    partial_rows s' = partial_rows s.

Lemma reject_reported key k s : row_reported key false s (reject_row key k s).
Proof. unfold row_reported, total_rejected. destruct k; simpl; split_and!; eauto; lia. Qed.

Lemma merge_reported key kind fields s s' :
  row_reported key true s s' -> row_reported key true s (merge_partial_compat_fields key kind fields s').
Proof. intros (? & ? & ? & Hp). split_and!; try done. intros Hb. apply merge_one_line; auto. Qed.

Lemma report_reported key kind fields s s' :
  row_reported key true s s' -> row_reported key true s (report key kind fields s').
Proof. unfold report. destruct fields; [done|]. apply merge_reported. Qed.

Lemma validate_and_parse_reported key rev parsed value s :
  match validate_and_parse key rev parsed value s with
  | (Some _, s') => row_reported key true s s'
  | (None, s') => row_reported key false s s'
  end.
Proof.
  unfold validate_and_parse. destruct (validate_lenient _ _); simpl; [|apply reject_reported].
  destruct (deserialize _ _) as [[t ignored]|]; simpl; [|apply reject_reported].
  destruct (validate_semantics _ _); simpl; [|apply reject_reported].
  case_match; simpl; (split_and!; try done); intros _; [by left|right; eexists; split; [|reflexivity]; done].
Qed.

Lemma load_kind_reported raw parsed value s :
  match load_kind raw parsed value s with
  | (Some _, s') => row_reported (raw_key raw) true s s'
  | (None, s') => row_reported (raw_key raw) false s s'
  end.
Proof.
  unfold load_kind.
  case_bool_decide.
  { destruct (upgrade_stored_routing value) as [v retired].
    pose proof (validate_and_parse_reported (raw_key raw) (raw_revision raw) parsed v s) as Hv.
    destruct (validate_and_parse _ _ _ _ _) as [[row|] s']; [|done].
    destruct (strip_kind_inapplicable _) as [doc stripped]. by do 2 apply report_reported. }
  case_bool_decide.
  { destruct (upgrade_stored_mcp_access value) as [v retired].
    pose proof (validate_and_parse_reported (raw_key raw) (raw_revision raw) parsed v s) as Hv.
    destruct (validate_and_parse _ _ _ _ _) as [[row|] s']; [by apply report_reported|done]. }
  pose proof (validate_and_parse_reported (raw_key raw) (raw_revision raw) parsed value s) as Hv.
  case_bool_decide.
  { destruct (validate_and_parse _ _ _ _ _) as [[row|] s']; [|done].
    destruct (validate_a2a_agent_url value); [done|by apply merge_reported]. }
  case_bool_decide; [done|apply reject_reported].
Qed.

Lemma load_entry_reported ps raw s :
  match load_entry ps raw s with
  | (Some _, s') => row_reported (raw_key raw) true s s'
  | (None, s') => row_reported (raw_key raw) false s s'
  end.
Proof.
  unfold load_entry. destruct (resolve ps (raw_key raw)) as [parsed|]; [|apply reject_reported].
  destruct (from_slice (raw_value raw)) as [value|]; [|apply reject_reported].
  destruct (_ && _); [apply reject_reported|].
  pose proof (load_kind_reported raw parsed value s) as Hk.
  by destruct (load_kind raw parsed value s) as [[row|] s'].
Qed.

(** ** What one row loads as

    The report never feeds back into what is loaded. *)

Definition load_of (ps : PrefixSet) (raw : RawEntry) : option (bytes * bytes * Row) :=
  fst (load_entry ps raw stats_default).

Lemma validate_and_parse_load key rev parsed value s s' :
  fst (validate_and_parse key rev parsed value s) = fst (validate_and_parse key rev parsed value s').
Proof.
  unfold validate_and_parse. destruct (validate_lenient _ _); simpl; [|done].
  destruct (deserialize _ _) as [[t ignored]|]; [|done]. by destruct (validate_semantics _ _).
Qed.

Lemma load_kind_load raw parsed value s s' :
  fst (load_kind raw parsed value s) = fst (load_kind raw parsed value s').
Proof.
  unfold load_kind.
  destruct (upgrade_stored_routing value) as [v retired], (upgrade_stored_mcp_access value) as [v' retired'].
  pose proof (fun v => validate_and_parse_load (raw_key raw) (raw_revision raw) parsed v s s') as Hl.
  repeat case_bool_decide;
    [specialize (Hl v)|specialize (Hl v')|specialize (Hl value)|specialize (Hl value)|done];
    do 2 destruct (validate_and_parse _ _ _ _ _) as [[?|] ?]; simplify_eq/=; try done.
  by destruct (strip_kind_inapplicable _).
Qed.

Lemma load_entry_load ps raw s : fst (load_entry ps raw s) = load_of ps raw.
Proof.
  unfold load_of, load_entry. destruct (resolve ps (raw_key raw)) as [parsed|]; [|done].
  destruct (from_slice (raw_value raw)) as [value|]; [|done]. destruct (_ && _); [done|].
  pose proof (load_kind_load raw parsed value s stats_default) as Hl.
  destruct (load_kind raw parsed value s) as [[row|] s'],
    (load_kind raw parsed value stats_default) as [[row'|] s'']; by simplify_eq/=.
Qed.

(** ** A build *)

Definition loads (ps : PrefixSet) (raw : RawEntry) : bool := bool_decide (is_Some (load_of ps raw)).

Definition inserted (ps : PrefixSet) (snap : Tables) (raw : RawEntry) : Tables :=
  match load_of ps raw with Some (t, i, row) => <[(t, i) := row]> snap | None => snap end.

Lemma build_step_eq ps snap s raw :
  build_step ps (snap, s) raw = (inserted ps snap raw, snd (load_entry ps raw s)).
Proof.
  unfold build_step, inserted. rewrite <- (load_entry_load ps raw s).
  by destruct (load_entry ps raw s) as [[[[t i] row]|] s'].
Qed.

Lemma build_snapshot_snoc ps l raw :
  build_snapshot ps (l ++ [raw]) = build_step ps (build_snapshot ps l) raw.
Proof. unfold build_snapshot. by rewrite fold_left_app. Qed.

Lemma load_entry_row ps raw s : row_reported (raw_key raw) (loads ps raw) s (snd (load_entry ps raw s)).
Proof.
  pose proof (load_entry_reported ps raw s) as H. unfold loads. rewrite <- (load_entry_load ps raw s).
  by destruct (load_entry ps raw s) as [[?|] s'].
Qed.

Lemma build_snapshot_tables ps l : fst (build_snapshot ps l) = foldl (inserted ps) ∅ l.
Proof.
  induction l as [|raw l IH] using rev_ind; [done|].
  rewrite build_snapshot_snoc, foldl_snoc, <- IH. destruct (build_snapshot ps l). by rewrite build_step_eq.
Qed.

(** What an entry writes at a place. *)
Definition row_at (ps : PrefixSet) (place : bytes * bytes) (raw : RawEntry) : option Row :=
  match load_of ps raw with
  | Some (p, row) => if decide (p = place) then Some row else None
  | None => None
  end.

Lemma inserted_lookup ps snap raw place :
  inserted ps snap raw !! place = or_else (row_at ps place raw) (snap !! place).
Proof.
  unfold inserted, row_at. destruct (load_of ps raw) as [[[t i] row]|]; [|done].
  case_decide as E; [subst; apply lookup_insert_eq|by apply lookup_insert_ne].
Qed.

Lemma build_lookup ps l place : foldl (inserted ps) ∅ l !! place = last (omap (row_at ps place) l).
Proof.
  induction l as [|raw l IH] using rev_ind; [apply lookup_empty|].
  rewrite foldl_snoc, inserted_lookup, IH, omap_app. simpl.
  destruct (row_at ps place raw) as [row|]; simpl; [by rewrite last_snoc|by rewrite app_nil_r].
Qed.

Lemma build_partial_keys ps l :
  NoDup (raw_key <$> l) ->
  NoDup (pc_key <$> partial_rows (snd (build_snapshot ps l))) /\
  forall row, row ∈ partial_rows (snd (build_snapshot ps l)) -> pc_key row ∈ raw_key <$> l.
Proof.
  induction l as [|raw l IH] using rev_ind; [intros _; split; [constructor|by intros ? ?%elem_of_nil]|].
  rewrite fmap_app, NoDup_app. intros (Hl & Hd & _). destruct (IH Hl) as [Hn Hin].
  rewrite build_snapshot_snoc. destruct (build_snapshot ps l) as [snap s]. rewrite build_step_eq.
  cbn [fst snd] in *. pose proof (load_entry_row ps raw s) as Hr.
  destruct (loads ps raw); [destruct Hr as (_ & _ & _ & Hp)|destruct Hr as (_ & _ & _ & ->)].
  - destruct Hp as [-> |(row & Hk & ->)].
    + intros row Hrow Hk. apply (Hd (pc_key row)); [by apply Hin|]. rewrite Hk. by left.
    + split; [done|]. intros row Hrow. apply elem_of_app. left. by apply Hin.
    + rewrite fmap_app, NoDup_app. split.
      * split; [done|]. split; [|apply NoDup_singleton].
        intros k (row' & -> & Hrow')%list_elem_of_fmap E%list_elem_of_singleton.
        apply (Hd (pc_key row')); [by apply Hin|]. rewrite E, Hk. by left.
      * intros row' [Hrow'|Hrow']%elem_of_app; apply elem_of_app; [left; by apply Hin|right].
        apply list_elem_of_singleton in Hrow' as ->. rewrite Hk. by left.
  - split; [done|]. intros row Hrow. apply elem_of_app. left. by apply Hin.
Qed.

Lemma build_counts ps l :
  let s := snd (build_snapshot ps l) in
  accepted s + length (build_rejections s) = length l /\
  total_rejected s = length (build_rejections s) /\
  rej_key <$> build_rejections s = raw_key <$> List.filter (fun raw => negb (loads ps raw)) l.
Proof.
  induction l as [|raw l IH] using rev_ind; [done|].
  rewrite build_snapshot_snoc. destruct (build_snapshot ps l) as [snap s]. rewrite build_step_eq.
  cbn [fst snd] in *. destruct IH as (Ha & Ht & Hk). pose proof (load_entry_row ps raw s) as Hr.
  rewrite List.filter_app, fmap_app, !length_app. simpl.
  destruct (loads ps raw).
  - destruct Hr as (-> & -> & -> & _). rewrite app_nil_r. split_and!; [lia|done|done].
  - destruct Hr as (-> & -> & [k ->] & _). rewrite fmap_app, length_app, Hk. simpl.
    split_and!; [lia|lia|done].
Qed.

(** The loader accounts for every entry.  Each one is accepted or rejected
    exactly once, the counters add up to the rejections, which name the entries
    that did not load, in order; a bad entry never stops the rest: a place in
    the tables holds what the last entry that loads there says; and where the
    keys are distinct no key has two partial-compatibility lines, whatever its
    unknown, inapplicable and retired fields. *)
Theorem loader_accounts_for_all ps entries :
  let '(snapshot, stats) := build_snapshot ps entries in
  accepted stats + length (build_rejections stats) = length entries /\
  total_rejected stats = length (build_rejections stats) /\
  rej_key <$> build_rejections stats = raw_key <$> List.filter (fun raw => negb (loads ps raw)) entries /\
  (forall place, snapshot !! place = last (omap (row_at ps place) entries)) /\
  (NoDup (raw_key <$> entries) -> NoDup (pc_key <$> partial_rows stats)).
Proof.
  pose proof (build_snapshot_tables ps entries) as Ht. pose proof (build_partial_keys ps entries) as Hp.
  destruct (build_snapshot ps entries) as [snap s] eqn:E. cbn [fst snd] in Ht, Hp.
  assert (accepted s + length (build_rejections s) = length entries /\
    total_rejected s = length (build_rejections s) /\
    rej_key <$> build_rejections s = raw_key <$> List.filter (fun raw => negb (loads ps raw)) entries) as (H1 & H2 & H3).
  { replace s with (snd (build_snapshot ps entries)) by (by rewrite E). apply build_counts. }
  split_and!; [done|done|done| |intros Hn; by apply Hp].
  intros place. by rewrite Ht, build_lookup.
Qed.
End loader.

(** A small instance: documents are their bytes, and an empty one is refused. *)
Definition demo_documents : Documents := {|
  Json := bytes;
  Doc := bytes;
  from_slice := Some;
  validate_lenient := fun _ value => negb (bool_decide (value = []));
  deserialize := fun _ value => Some (value, []);
  validate_semantics := fun _ _ => true;
  unknown_field_paths := fun _ _ => [];
  upgrade_stored_routing := fun value => (value, []);
  upgrade_stored_mcp_access := fun value => (value, []);
  strip_kind_inapplicable := fun doc => (doc, []);
  validate_a2a_agent_url := fun _ => true;
  canonical_json := id;
|}.
