(* ===== verification/Observed.v ===== *)
(** * The observed configuration and what of it serves

    [ObservedState] of [crates/aisix-etcd/src/supervisor.rs] and [hash_record]
    of [config_status.rs]: the raw entries the supervisor has seen, the digest
    record of each, and the two identities readers watch: [version] moves with
    the entries, [served_version] with the bytes that actually serve.  Deciding
    the second costs the size of a change, not of the configuration; the
    theorems say it decides the same as comparing everything would. *)

From S2P Require Import Prelude Sort Utf8 EtcdKey Loader.
Local Open Scope N_scope.

Section observed.
Context {DM : Documents}.

(** ** State *)

(** One entry's share of the configuration digests. *)
Definition hash_record (key value : bytes) : bytes :=
  key ++ [0] ++ match from_slice value with Some v => canonical_json v | None => value end ++ [10].

Definition raw_record (e : RawEntry) : bytes := hash_record (raw_key e) (raw_value e).

(** A key whose latest bytes are rejected while an older value serves. *)
Record StaleServing := mkStale { stale_entry : RawEntry; since_unix_secs : N }.

(** The lazily encoded cache record is a function of the entry. *)
Record StateEntry := mkStateEntry {
  se_entry : RawEntry;
  se_record : bytes;
  se_served : option bytes;
}.

Definition state_entry_new (e : RawEntry) : StateEntry := mkStateEntry e (raw_record e) None.
Definition with_served (served : option bytes) (row : StateEntry) : StateEntry :=
  mkStateEntry (se_entry row) (se_record row) served.

Record ObservedState := mkObserved {
  observed : gmap bytes StateEntry;
  version : N;
  served_version : N;
  pending : gmap bytes (option bytes);
  filtered : gset bytes;
}.

Definition observed_default : ObservedState := mkObserved ∅ 0 0 ∅ ∅.

(** The first value of a key in a batch wins. *)
Definition remember_served (key : bytes) (served : option bytes) (pending : gmap bytes (option bytes))
    : gmap bytes (option bytes) :=
  match pending !! key with Some _ => pending | None => <[key := served]> pending end.

Definition observed_insert (entry : RawEntry) (st : ObservedState) : ObservedState :=
  let row := state_entry_new entry in
  let key := raw_key entry in
  let fresh :=
    mkObserved (<[key := row]> (observed st)) (wrap64 (version st + 1)) (served_version st)
      (remember_served key (observed st !! key ≫= se_served) (pending st)) (filtered st) in
  match observed st !! key with
  | Some old =>
      if bool_decide (se_record old = se_record row)
      then mkObserved (<[key := with_served (se_served old) row]> (observed st)) (version st)
             (served_version st) (pending st) (filtered st)
      else fresh
  | None => fresh
  end.

Definition observed_remove (key : bytes) (st : ObservedState) : option StateEntry * ObservedState :=
  match observed st !! key with
  | Some row =>
      (Some row,
       mkObserved (delete key (observed st)) (wrap64 (version st + 1)) (served_version st)
         (remember_served key (se_served row) (pending st)) (filtered st))
  | None => (None, st)
  end.

(** What one key contributes to the served set right now. *)
Definition served_record (key : bytes) (entries : gmap bytes StateEntry) (rejected : gset bytes)
    (stale : gmap bytes StaleServing) : option bytes :=
  match stale !! key with
  | Some pinned => Some (raw_record (stale_entry pinned))
  | None => if bool_decide (key ∈ rejected) then None else se_record <$> entries !! key
  end.

(** The loop over the candidates. *)
Definition publish_step (rejected : gset bytes) (stale : gmap bytes StaleServing)
    (pending : gmap bytes (option bytes)) (acc : bool * gmap bytes StateEntry) (key : bytes)
    : bool * gmap bytes StateEntry :=
  let '(moved, entries) := acc in
  let now := served_record key entries rejected stale in
  let before := match pending !! key with
                | Some before => before
                | None => entries !! key ≫= se_served
                end in
  (moved || negb (bool_decide (now = before)), alter (with_served now) key entries).

Definition publish_served (rejected : gset bytes) (stale : gmap bytes StaleServing) (st : ObservedState)
    : N * ObservedState :=
  let filtered' := rejected ∪ dom stale in
  let candidates :=
    (map_to_list (pending st)).*1 ++ elements ((filtered st ∖ filtered') ∪ (filtered' ∖ filtered st)) in
  let '(moved, entries) :=
    fold_left (publish_step rejected stale (pending st)) candidates (false, observed st) in
  let served_version := if moved then wrap64 (served_version st + 1) else served_version st in
  (served_version, mkObserved entries (version st) served_version ∅ filtered').

(** The bytes the observed digest covers, by key. *)
Definition records_by_key (st : ObservedState) : gmap bytes bytes := se_record <$> observed st.

(** ** Invariant *)

(** [last] is what every key served at the last publication. *)
Record observed_ok (last : bytes -> option bytes) (st : ObservedState) : Prop := {
  ok_before key :
    match pending st !! key with
    | Some before => last key = before
    | None => last key = observed st !! key ≫= se_served
    end;
  ok_unfiltered key :
    pending st !! key = None -> key ∉ filtered st -> last key = se_record <$> observed st !! key;
  ok_record key row : observed st !! key = Some row ->
    raw_key (se_entry row) = key /\ se_record row = raw_record (se_entry row);
}.

Lemma observed_default_ok : observed_ok (fun _ => None) observed_default.
Proof. split; intros key; simpl; by rewrite ?lookup_empty. Qed.

Lemma remember_lookup k key served p :
  remember_served k served p !! key =
    match p !! key with Some b => Some b | None => if decide (key = k) then Some served else None end.
Proof.
  unfold remember_served. destruct (p !! k) as [b|] eqn:E.
  - destruct (p !! key) eqn:E'; [done|]. rewrite decide_False; [done|]. congruence.
  - destruct (decide (key = k)) as [-> |Hne]; [by rewrite lookup_insert_eq, E|].
    rewrite lookup_insert_ne by done. by destruct (p !! key).
Qed.

(** A change of one key that remembers what it served. *)
Lemma changed_ok last k m v sv st :
  observed_ok last st ->
  (forall key, key <> k -> m !! key = observed st !! key) ->
  (forall row, m !! k = Some row -> raw_key (se_entry row) = k /\ se_record row = raw_record (se_entry row)) ->
  observed_ok last
    (mkObserved m v sv (remember_served k (observed st !! k ≫= se_served) (pending st)) (filtered st)).
Proof.
  intros [Hb Hu Hr] Hm Hk. split; intros key; simpl.
  - rewrite remember_lookup. specialize (Hb key). destruct (pending st !! key); [done|].
    case_decide as E; [by subst|by rewrite Hm].
  - rewrite remember_lookup. specialize (Hu key). destruct (pending st !! key); [done|].
    case_decide as E; [done|]. rewrite Hm by done. apply Hu.
  - intros row Hrow. destruct (decide (key = k)) as [-> |Hne]; [by apply Hk|].
    rewrite Hm in Hrow by done. by apply Hr.
Qed.

Lemma observed_insert_ok last e st : observed_ok last st -> observed_ok last (observed_insert e st).
Proof.
  intros Hok. unfold observed_insert.
  assert (observed_ok last
    (mkObserved (<[raw_key e := state_entry_new e]> (observed st)) (wrap64 (version st + 1)) (served_version st)
       (remember_served (raw_key e) (observed st !! raw_key e ≫= se_served) (pending st)) (filtered st))) as Hf.
  { apply changed_ok; [done|by intros key Hne; rewrite lookup_insert_ne|].
    intros row. rewrite lookup_insert_eq. by intros [= <-]. }
  destruct (observed st !! raw_key e) as [old|] eqn:Eo; [case_bool_decide as Es; [|done]|done].
  destruct Hok as [Hb Hu Hr]. split; intros key; simpl;
    (destruct (decide (key = raw_key e)) as [-> |Hne]; [rewrite ?lookup_insert_eq|rewrite ?lookup_insert_ne by done]).
  - specialize (Hb (raw_key e)). by rewrite Eo in Hb.
  - apply Hb.
  - intros Hp Hf'. specialize (Hu _ Hp Hf'). rewrite Eo in Hu. simpl in *. congruence.
  - apply Hu.
  - by intros row [= <-].
  - apply Hr.
Qed.

Lemma observed_remove_ok last key st : observed_ok last st -> observed_ok last (snd (observed_remove key st)).
Proof.
  intros Hok. unfold observed_remove. destruct (observed st !! key) as [row|] eqn:Eo; [|done]. simpl.
  replace (se_served row) with (observed st !! key ≫= se_served) by (by rewrite Eo).
  apply changed_ok; [done|by intros k Hne; rewrite lookup_delete_ne|by rewrite lookup_delete_eq].
Qed.

(** ** Publication *)

Section publish.
Context (last : bytes -> option bytes) (rejected : gset bytes) (stale : gmap bytes StaleServing).
Context (st : ObservedState) (Hok : observed_ok last st).

Abbreviation now key := (served_record key (observed st) rejected stale).
Abbreviation filtered' := (rejected ∪ dom stale).
Abbreviation step := (publish_step rejected stale (pending st)).

(** The loop, having treated the keys of [done]. *)
Definition settled (keys : list bytes) (acc : bool * gmap bytes StateEntry) : Prop :=
  (fst acc = true <-> exists key, key ∈ keys /\ now key <> last key) /\
  forall key, snd acc !! key =
    (fun row => if decide (key ∈ keys) then with_served (now key) row else row) <$> observed st !! key.

Lemma served_record_entries m key :
  se_record <$> m !! key = se_record <$> observed st !! key ->
  served_record key m rejected stale = now key.
Proof. intros E. unfold served_record. by rewrite E. Qed.

Lemma settled_step keys acc key : settled keys acc -> settled (keys ++ [key]) (step acc key).
Proof.
  destruct acc as [moved m]. intros [Hm He]. unfold publish_step. cbn [fst snd] in *.
  assert (se_record <$> m !! key = se_record <$> observed st !! key) as Er.
  { rewrite He. destruct (observed st !! key) as [row|]; simpl; [|done]. by case_decide. }
  rewrite (served_record_entries _ _ Er).
  assert (key ∉ keys -> last key = match pending st !! key with
                      | Some before => before
                      | None => m !! key ≫= se_served
                      end) as Hbefore.
  { intros Hk. pose proof (ok_before _ _ Hok key) as Hb. destruct (pending st !! key); [done|]. rewrite Hb, He.
    destruct (observed st !! key) as [row|]; simpl; [|done]. by rewrite decide_False. }
  split; cbn [fst snd].
  - rewrite orb_true_iff, Hm, negb_true_iff, bool_decide_eq_false.
    destruct (decide (key ∈ keys)) as [Hin|Hin]; [|rewrite <- (Hbefore Hin); set_solver].
    split; [|set_solver]. intros [(k & Hk & Hne)|Hne]; [set_solver|]. exists key. split; [set_solver|].
    pose proof (ok_before _ _ Hok key) as Hb. destruct (pending st !! key); [congruence|].
    rewrite He in Hne. destruct (observed st !! key) as [row|] eqn:Eo; simpl in Hne.
    + by rewrite decide_True in Hne.
    + rewrite Hb. done.
  - intros k. destruct (decide (k = key)) as [-> |Hne].
    + rewrite lookup_alter_eq, He. destruct (observed st !! key) as [row|]; simpl; [|done].
      rewrite (decide_True (P := key ∈ keys ++ [key])) by set_solver. by case_decide.
    + rewrite lookup_alter_ne, He by done. destruct (observed st !! k) as [row|]; simpl; [|done].
      f_equal. apply decide_ext. set_solver.
Qed.

Lemma settled_fold keys : settled keys (fold_left step keys (false, observed st)).
Proof.
  induction keys as [|key keys IH] using rev_ind.
  - split; simpl; [split; [done|]; by intros (? & ?%elem_of_nil & _)|].
    intros key. by destruct (observed st !! key).
  - rewrite fold_left_app. by apply settled_step.
Qed.

Abbreviation due :=
  ((map_to_list (pending st)).*1 ++ elements ((filtered st ∖ filtered') ∪ (filtered' ∖ filtered st))).

Lemma elem_of_candidates key :
  key ∈ due <-> is_Some (pending st !! key) \/ (key ∈ filtered st <-> key ∉ filtered').
Proof.
  rewrite elem_of_app, elem_of_elements, elem_of_union, !elem_of_difference, list_elem_of_fmap.
  assert ((exists y, key = fst y /\ y ∈ map_to_list (pending st)) <-> is_Some (pending st !! key)) as ->.
  { split.
    - intros ([k b] & -> & Hk%elem_of_map_to_list). by eexists.
    - intros [b Hb]. exists (key, b). split; [done|by apply elem_of_map_to_list]. }
  destruct (decide (key ∈ filtered st)), (decide (key ∈ filtered')); tauto.
Qed.

(** A key that is no candidate serves what it did. *)
Lemma uncandidate_unmoved key :
  (forall k, k ∈ filtered st -> k ∈ filtered' -> pending st !! k = None -> now k = last k) ->
  key ∉ due -> now key = last key.
Proof.
  intros Hst Hn. rewrite elem_of_candidates in Hn.
  assert (pending st !! key = None) as Hp by (apply eq_None_not_Some; tauto).
  destruct (decide (key ∈ filtered st)) as [Hf|Hf].
  - apply Hst; [done| |done]. destruct (decide (key ∈ filtered')); tauto.
  - rewrite (ok_unfiltered _ _ Hok key Hp Hf). unfold served_record.
    assert (key ∉ filtered') as Hf' by (destruct (decide (key ∈ filtered')); tauto).
    apply not_elem_of_union in Hf' as [Hr Hs]. apply not_elem_of_dom in Hs as ->.
    by rewrite bool_decide_false.
Qed.
End publish.

(** The served identity moves exactly when what serves does.  After any
    inserts and removes, publishing settles the keys that were written to and
    the keys whose rejected or pinned status changed, and [served_version]
    advances precisely when some key of the whole configuration serves other
    bytes than at the last publication, provided a key that stays rejected or
    pinned, unwritten, keeps what it serves, and only observed keys are pinned.  The invariant is restored, so the
    same holds of the next publication. *)
Theorem served_version_exact last rejected stale st :
  observed_ok last st ->
  (forall k, k ∈ filtered st -> k ∈ rejected ∪ dom stale -> pending st !! k = None ->
     served_record k (observed st) rejected stale = last k) ->
  (forall k, k ∈ dom stale -> is_Some (observed st !! k)) ->
  let now key := served_record key (observed st) rejected stale in
  let '(v, st') := publish_served rejected stale st in
  served_version st' = v /\
  ((exists key, now key <> last key) -> v = wrap64 (served_version st + 1)) /\
  ((forall key, now key = last key) -> v = served_version st) /\
  version st' = version st /\ records_by_key st' = records_by_key st /\
  observed_ok now st'.
Proof.
  intros Hok Hst Hpin now. unfold publish_served.
  pose proof (settled_fold last rejected stale st Hok
    ((map_to_list (pending st)).*1 ++
     elements ((filtered st ∖ (rejected ∪ dom stale)) ∪ ((rejected ∪ dom stale) ∖ filtered st)))) as [Hm He].
  pose proof (uncandidate_unmoved last rejected stale st Hok) as Hun.
  destruct (fold_left _ _ _) as [moved m]. cbn [fst snd] in Hm, He. cbn [served_version version].
  split; [done|]. split; [|split; [|split; [done|split]]].
  - intros (key & Hne). destruct moved; [done|]. exfalso.
    destruct (decide (key ∈ (map_to_list (pending st)).*1 ++
      elements ((filtered st ∖ (rejected ∪ dom stale)) ∪ ((rejected ∪ dom stale) ∖ filtered st)))) as [Hin|Hin].
    + enough (false = true) by done. apply Hm. eauto.
    + apply Hne. by apply Hun.
  - intros Hall. destruct moved; [|done]. destruct (proj1 Hm eq_refl) as (key & _ & Hne). by destruct (Hne (Hall key)).
  - unfold records_by_key. simpl. apply map_eq. intros key. rewrite !lookup_fmap, He.
    destruct (observed st !! key); simpl; [|done]. by case_decide.
  - split; intros key; simpl.
    + rewrite lookup_empty, He. destruct (observed st !! key) as [row|] eqn:Eo; simpl.
      * case_decide as Hc; [done|]. trans (last key); [by apply Hun|]. pose proof (ok_before _ _ Hok key) as Hb.
        rewrite elem_of_candidates in Hc. destruct (pending st !! key); [naive_solver|].
        by rewrite Hb, Eo.
      * unfold now, served_record. rewrite Eo. simpl.
        assert (stale !! key = None) as ->.
        { apply eq_None_not_Some. intros [p Hp]. destruct (Hpin key) as [row Hrow]; [by apply elem_of_dom|congruence]. }
        by case_bool_decide.
    + intros _ [Hr Hs]%not_elem_of_union. apply not_elem_of_dom in Hs. unfold now, served_record.
      rewrite Hs, bool_decide_false, He by done. destruct (observed st !! key); simpl; [|done]. by case_decide.
    + rewrite He. destruct (observed st !! key) as [row|] eqn:Eo; simpl; [|done]. intros row' [= <-].
      destruct (ok_record _ _ Hok _ _ Eo). by case_decide.
Qed.
End observed.

#[local] Existing Instance demo_documents.

Definition demo_entry : RawEntry := mkRaw (lit "/aisix/models/m1") (lit "v1") 1.

Lemma served_version_exact_witness :
  fst (publish_served ∅ ∅ (observed_insert demo_entry observed_default)) = 1%N.
Proof.
  pose proof (served_version_exact (fun _ => None) ∅ ∅ (observed_insert demo_entry observed_default)) as H.
  destruct (publish_served _ _ _) as [v st'].
  destruct H as (_ & Hv & _).
  - apply observed_insert_ok, observed_default_ok.
  - done.
  - intros k Hk. by rewrite dom_empty, elem_of_empty in Hk.
  - apply Hv. exists (raw_key demo_entry). unfold served_record. by rewrite lookup_empty, bool_decide_false by set_solver.
Defined.
