(* ===== verification/Supervisor.v ===== *)
(** * The watch supervisor

    [crates/aisix-etcd/src/supervisor.rs]: how etcd events become the served
    configuration.  A Put or Delete, alone or coalesced into a batch, is staged
    with its own bookkeeping and published once; a resync rebuilds everything;
    and a key whose latest bytes are rejected keeps serving its last known good
    value until it loads again or leaves etcd.

    The published snapshot is the rows of every table by name ([Loader]); the
    status view is what [sync_config_status] settles; the disk cache is given
    the state [flush_cache] captures.  Locks hold for a whole operation, so an operation is
    one step.  The watch loop's timing, the providers' I/O and log lines are not
    modelled. *)

From S2P Require Import Prelude Sort Utf8 EtcdKey Loader Observed.
Local Open Scope nat_scope.

Section supervisor.
Context {DM : Documents}.
Abbreviation Tables := (gmap (bytes * bytes) Row).

(** ** Tables *)

Definition TABLES : list bytes := lit "global_pricing" :: KINDS.

Definition snapshot_has (snap : Tables) (kind id : bytes) : bool :=
  bool_decide (kind ∈ TABLES) && bool_decide (is_Some (snap !! (kind, id))).

Definition merge_snapshot (dst src : Tables) : Tables := src ∪ dst.

Definition remove_from_snapshot (snap : Tables) (kind id : bytes) : Tables :=
  if bool_decide (kind ∈ TABLES) then delete (kind, id) snap else snap.

(** ** Retained reports *)

Definition MAX_RETAINED_REJECTIONS : nat := 256.
Definition MAX_RETAINED_UNKNOWN_KINDS : nat := 256.
Definition MAX_RETAINED_PARTIAL_ROWS : nat := 1024.

Definition is_unknown_kind (r : RejectedEntry) : bool := bool_decide (rej_kind r = UnknownKind).
Definition rejection_cap (forward_compat : bool) : nat :=
  if forward_compat then MAX_RETAINED_UNKNOWN_KINDS else MAX_RETAINED_REJECTIONS.

(** The loop of [trim_rejections_per_class], newest first, with what each class
    has kept. *)
Fixpoint trim_newest (kept : bool -> nat) (l : list RejectedEntry) : list RejectedEntry :=
  match l with
  | [] => []
  | e :: l =>
      let class := is_unknown_kind e in
      if kept class <? rejection_cap class
      then e :: trim_newest (fun c => if Bool.eqb c class then S (kept c) else kept c) l
      else trim_newest kept l
  end.

Definition trim_rejections_per_class (entries : list RejectedEntry) : list RejectedEntry :=
  if length entries <=? Nat.min MAX_RETAINED_REJECTIONS MAX_RETAINED_UNKNOWN_KINDS then entries
  else reverse (trim_newest (fun _ => 0) (reverse entries)).

(** [Vec::remove] of the first element a predicate accepts. *)
Fixpoint remove_first {A} (p : A -> bool) (l : list A) : list A :=
  match l with
  | [] => []
  | x :: l => if p x then l else x :: remove_first p l
  end.

(** ** State *)

Record Report := mkReport { rep_observed : N; rep_served : N; rep_revision : Z; rep_reload : bool }.
Record CacheImage := mkImage { image_entries : list RawEntry; image_revision : Z; image_stale : list StaleServing }.

Record Supervisor := mkSup {
  served : Tables;
  state : ObservedState;
  floor : Z;
  status_revision : Z;
  rejections : list RejectedEntry;
  rejected_keys : gset bytes;
  partial_compat : gmap bytes PartialCompatRow;
  stale_serving : gmap bytes StaleServing;
  reported : option Report;
  captured : option CacheImage;
}.

Definition supervisor_new : Supervisor :=
  mkSup ∅ observed_default 0 0 [] ∅ ∅ ∅ None None.

Definition set_served (x : Tables) (s : Supervisor) : Supervisor :=
  mkSup x (state s) (floor s) (status_revision s) (rejections s) (rejected_keys s) (partial_compat s)
    (stale_serving s) (reported s) (captured s).
Definition set_state (x : ObservedState) (s : Supervisor) : Supervisor :=
  mkSup (served s) x (floor s) (status_revision s) (rejections s) (rejected_keys s) (partial_compat s)
    (stale_serving s) (reported s) (captured s).
Definition set_floor (x : Z) (s : Supervisor) : Supervisor :=
  mkSup (served s) (state s) x (status_revision s) (rejections s) (rejected_keys s) (partial_compat s)
    (stale_serving s) (reported s) (captured s).
Definition set_rejections_of (l : list RejectedEntry) (k : gset bytes) (s : Supervisor) : Supervisor :=
  mkSup (served s) (state s) (floor s) (status_revision s) l k (partial_compat s)
    (stale_serving s) (reported s) (captured s).
Definition set_partial (x : gmap bytes PartialCompatRow) (s : Supervisor) : Supervisor :=
  mkSup (served s) (state s) (floor s) (status_revision s) (rejections s) (rejected_keys s) x
    (stale_serving s) (reported s) (captured s).
Definition set_stale (x : gmap bytes StaleServing) (s : Supervisor) : Supervisor :=
  mkSup (served s) (state s) (floor s) (status_revision s) (rejections s) (rejected_keys s)
    (partial_compat s) x (reported s) (captured s).

(** [WatchStatus]: an apply raises the revision, a completed read assigns it. *)
Definition record_apply (revision : Z) (s : Supervisor) : Supervisor :=
  mkSup (served s) (state s) (floor s) (Z.max (status_revision s) revision) (rejections s)
    (rejected_keys s) (partial_compat s) (stale_serving s) (reported s) (captured s).
Definition record_read (revision : Z) (s : Supervisor) : Supervisor :=
  mkSup (served s) (state s) (floor s) revision (rejections s)
    (rejected_keys s) (partial_compat s) (stale_serving s) (reported s) (captured s).

(** ** Bookkeeping of one key *)

Definition set_rejections (new : list RejectedEntry) (s : Supervisor) : Supervisor :=
  set_rejections_of (trim_rejections_per_class new) (list_to_set (rej_key <$> new)) s.

Definition push_rejection (s : Supervisor) (r : RejectedEntry) : Supervisor :=
  let guard := List.filter (fun existing => negb (bool_decide (rej_key existing = rej_key r))) (rejections s) in
  let same_class := fun e => Bool.eqb (is_unknown_kind e) (is_unknown_kind r) in
  let guard :=
    if rejection_cap (is_unknown_kind r) <=? length (List.filter same_class guard)
    then remove_first same_class guard else guard in
  set_rejections_of (guard ++ [r]) ({[rej_key r]} ∪ rejected_keys s) s.

Definition remove_rejection_for_key (key : bytes) (s : Supervisor) : bool * Supervisor :=
  let guard := List.filter (fun existing => negb (bool_decide (rej_key existing = key))) (rejections s) in
  (bool_decide (key ∈ rejected_keys s) || negb (length guard =? length (rejections s)),
   set_rejections_of guard (rejected_keys s ∖ {[key]}) s).

Definition set_partial_rows (rows : list PartialCompatRow) (s : Supervisor) : Supervisor :=
  set_partial
    (foldl (fun m row => if MAX_RETAINED_PARTIAL_ROWS <=? size m then m else <[pc_key row := row]> m) ∅ rows) s.

Definition update_partial_row (key : bytes) (row : option PartialCompatRow) (s : Supervisor) : Supervisor :=
  match row with
  | Some row =>
      if bool_decide (partial_compat s !! key = None) && (MAX_RETAINED_PARTIAL_ROWS <=? size (partial_compat s))
      then s else set_partial (<[key := row]> (partial_compat s)) s
  | None => set_partial (delete key (partial_compat s)) s
  end.

Definition store_observed (entry : RawEntry) (s : Supervisor) : Supervisor :=
  set_floor (Z.max (floor s) (raw_revision entry)) (set_state (observed_insert entry (state s)) s).

(** [sync_config_status], up to the digests its identities stand for. *)
Definition sync_config_status (is_reload : bool) (s : Supervisor) : Supervisor :=
  let '(served_v, state') := publish_served (rejected_keys s) (stale_serving s) (state s) in
  mkSup (served s) state' (floor s) (status_revision s) (rejections s) (rejected_keys s)
    (partial_compat s) (stale_serving s)
    (Some (mkReport (version (state s)) served_v (floor s) is_reload)) (captured s).

(** The image a cache write is given, the cache being enabled and the supervisor
    inside the runtime.  Its ticket, its encoding and the task that writes it are
    those of [SnapCache] and [Restart]. *)
Definition flush_cache (s : Supervisor) : Supervisor :=
  mkSup (served s) (state s) (floor s) (status_revision s) (rejections s) (rejected_keys s)
    (partial_compat s) (stale_serving s) (reported s)
    (Some (mkImage (se_entry <$> (map_to_list (observed (state s))).*2) (floor s)
             (map_to_list (stale_serving s)).*2)).

(** ** Batches *)

Inductive PendingEvent :=
  | Put (entry : RawEntry)
  | Delete (key : bytes) (revision : option Z).

Inductive SnapshotMutation :=
  | Merge (src : Tables)
  | Remove (kind id : bytes).

Definition apply_to (dst : Tables) (m : SnapshotMutation) : Tables :=
  match m with
  | Merge src => merge_snapshot dst src
  | Remove kind id => remove_from_snapshot dst kind id
  end.

(** [BatchView]: the batch's own events over the snapshot it started from. *)
Record BatchView := mkView { added : gset (bytes * bytes); removed : gset (bytes * bytes) }.

Definition record_put (prefixes : PrefixSet) (key : bytes) (v : BatchView) : BatchView :=
  match resolve prefixes key with
  | RErr _ => v
  | ROk parsed =>
      let place := (table_kind parsed, sk_id parsed) in
      mkView ({[place]} ∪ added v) (removed v ∖ {[place]})
  end.

Definition record_delete (kind id : bytes) (v : BatchView) : BatchView :=
  mkView (added v ∖ {[(kind, id)]}) ({[(kind, id)]} ∪ removed v).

Definition present (base : Tables) (v : BatchView) (kind id : bytes) : bool :=
  if bool_decide ((kind, id) ∈ removed v) then false
  else if bool_decide ((kind, id) ∈ added v) then true
  else snapshot_has base kind id.

(** What a batch has staged: the supervisor's bookkeeping, the mutations in
    order, and what it owes when its events are staged. *)
Record Batch := mkBatch {
  sup : Supervisor;
  view : BatchView;
  mutations : list SnapshotMutation;
  apply_stamp : option Z;
  dirty_status : bool;
  dirty_cache : bool;
}.

Definition batch_new (s : Supervisor) : Batch := mkBatch s (mkView ∅ ∅) [] None false false.

Definition stamp_max (slot : option Z) (revision : Z) : option Z :=
  Some (match slot with
        | Some current => if (revision <=? current)%Z then current else revision
        | None => revision
        end).

(** A run of puts folds into the last staged snapshot. *)
Definition push_merge (tiny : Tables) (l : list SnapshotMutation) : list SnapshotMutation :=
  match reverse l with
  | Merge accumulated :: rest => reverse rest ++ [Merge (merge_snapshot accumulated tiny)]
  | _ => l ++ [Merge tiny]
  end.

Section staging.
Context (prefixes : PrefixSet) (now_unix_secs : N) (base : Tables).

Definition capture_last_good (key : bytes) (v : BatchView) (s : Supervisor) : Supervisor :=
  match stale_serving s !! key with
  | Some _ => s
  | None =>
      match resolve prefixes key with
      | RErr _ => s
      | ROk parsed =>
          if present base v (table_kind parsed) (sk_id parsed) then
            match observed (state s) !! key with
            | None => s
            | Some good => set_stale (<[key := mkStale (se_entry good) now_unix_secs]> (stale_serving s)) s
            end
          else s
      end
  end.

Definition stage_put (entry : RawEntry) (b : Batch) : bool * Batch :=
  let '(tiny, stats) := build_snapshot prefixes [entry] in
  if accepted stats =? 0 then
    let s := capture_last_good (raw_key entry) (view b) (sup b) in
    let s := store_observed entry s in
    let s := foldl push_rejection s (build_rejections stats) in
    (false, mkBatch s (view b) (mutations b) (stamp_max (apply_stamp b) (raw_revision entry)) true true)
  else
    let s := snd (remove_rejection_for_key (raw_key entry) (sup b)) in
    let s := set_stale (delete (raw_key entry) (stale_serving s)) s in
    let partial := find (fun row => bool_decide (pc_key row = raw_key entry)) (partial_rows stats) in
    let s := update_partial_row (raw_key entry) partial s in
    let s := store_observed entry s in
    (true, mkBatch s (record_put prefixes (raw_key entry) (view b)) (push_merge tiny (mutations b))
             (stamp_max (apply_stamp b) (raw_revision entry)) true true).

Definition raise_revision_floor (revision : option Z) (b : Batch) : Batch :=
  match revision with
  | None => b
  | Some revision =>
      mkBatch (set_floor (Z.max (floor (sup b)) revision) (sup b)) (view b) (mutations b)
        (stamp_max (apply_stamp b) revision) true (dirty_cache b)
  end.

Definition stage_delete (key : bytes) (revision : option Z) (b : Batch) : bool * Batch :=
  match resolve prefixes key with
  | RErr _ => (false, raise_revision_floor revision b)
  | ROk parsed =>
      let present := present base (view b) (table_kind parsed) (sk_id parsed) in
      let '(removed_rejection, s) := remove_rejection_for_key key (sup b) in
      let s := update_partial_row key None s in
      let s := set_stale (delete key (stale_serving s)) s in
      let '(gone, state') := observed_remove key (state s) in
      let removed_state := bool_decide (is_Some gone) in
      let s := set_state state' s in
      if negb present then
        let b :=
          if removed_rejection || removed_state
          then mkBatch s (view b) (mutations b) (stamp_max (apply_stamp b) (floor s)) true true
          else mkBatch s (view b) (mutations b) (apply_stamp b) (dirty_status b) (dirty_cache b) in
        (removed_rejection, raise_revision_floor revision b)
      else
        let b :=
          mkBatch s (record_delete (table_kind parsed) (sk_id parsed) (view b))
            (mutations b ++ [Remove (table_kind parsed) (sk_id parsed)])
            (stamp_max (apply_stamp b) (floor s)) true true in
        (true, raise_revision_floor revision b)
  end.

Definition stage_event (event : PendingEvent) (b : Batch) : bool * Batch :=
  match event with
  | Put entry => stage_put entry b
  | Delete key revision => stage_delete key revision b
  end.

Fixpoint stage_all (events : list PendingEvent) (b : Batch) : list bool * Batch :=
  match events with
  | [] => ([], b)
  | event :: events =>
      let '(outcome, b) := stage_event event b in
      let '(outcomes, b) := stage_all events b in
      (outcome :: outcomes, b)
  end.
End staging.

(** The single publish of a batch. *)
Definition commit (b : Batch) : Supervisor :=
  let s := sup b in
  let s := match mutations b with
           | [] => s
           | _ => set_served (fold_left apply_to (mutations b) (served s)) s
           end in
  let s := match apply_stamp b with Some revision => record_apply revision s | None => s end in
  let s := if dirty_status b then sync_config_status false s else s in
  if dirty_cache b then flush_cache s else s.

Section apply.
Context (prefixes : PrefixSet) (now_unix_secs : N).

Definition apply_events (events : list PendingEvent) (s : Supervisor) : list bool * Supervisor :=
  let '(outcomes, b) := stage_all prefixes now_unix_secs (served s) events (batch_new s) in
  (outcomes, commit b).

Definition apply_put (entry : RawEntry) (s : Supervisor) : bool * Supervisor :=
  let '(outcomes, s) := apply_events [Put entry] s in (default false (head outcomes), s).
Definition apply_delete (key : bytes) (s : Supervisor) : bool * Supervisor :=
  let '(outcomes, s) := apply_events [Delete key None] s in (default false (head outcomes), s).

(** ** Resync *)

(** Retention ends for keys that load or left, and begins for keys newly
    rejected that served up to this resync. *)
Definition retain_stale (entries : list RawEntry) (rejected : list RejectedEntry)
    (s : Supervisor) : gmap bytes StaleServing :=
  let kept :=
    base.filter (fun kv => bool_decide (kv.1 ∈ raw_key <$> entries) && bool_decide (kv.1 ∈ rej_key <$> rejected))
      (stale_serving s) in
  foldl (fun stale r =>
           match stale !! rej_key r with
           | Some _ => stale
           | None =>
               match resolve prefixes (rej_key r) with
               | RErr _ => stale
               | ROk parsed =>
                   if snapshot_has (served s) (table_kind parsed) (sk_id parsed) then
                     match observed (state s) !! rej_key r with
                     | Some good => <[rej_key r := mkStale (se_entry good) now_unix_secs]> stale
                     | None => stale
                     end
                   else stale
               end
           end) kept rejected.

(** The entry map is reconciled in place. *)
Definition reconcile (entries : list RawEntry) (st : ObservedState) : ObservedState :=
  let incoming : gset bytes := list_to_set (raw_key <$> entries) in
  let departed := List.filter (fun key => negb (bool_decide (key ∈ incoming))) (map_to_list (observed st)).*1 in
  let st := foldl (fun st key => snd (observed_remove key st)) st departed in
  foldl (fun st e => observed_insert e st) st entries.

Definition apply_resync_at (entries : list RawEntry) (read_revision : option Z) (s : Supervisor)
    : BuildStats * Supervisor :=
  let '(snap, stats) := build_snapshot prefixes entries in
  let stale := retain_stale entries (build_rejections stats) s in
  let injected := stale_entry <$> (map_to_list stale).*2 in
  let '(snap, stale, rows) :=
    match injected with
    | [] => (snap, stale, partial_rows stats)
    | _ =>
        let '(lkg_snap, lkg_stats) := build_snapshot prefixes injected in
        (merge_snapshot snap lkg_snap,
         foldl (fun stale r => delete (rej_key r) stale) stale (build_rejections lkg_stats),
         partial_rows stats ++ partial_rows lkg_stats)
    end in
  let stats := with_partial_rows rows stats in
  let s := set_served snap (set_stale stale s) in
  let s := set_state (reconcile entries (state s)) s in
  let s :=
    match read_revision with
    | Some revision => set_floor revision s
    | None => match raw_revision <$> entries with
              | [] => s
              | r :: rs => set_floor (Z.max (floor s) (foldl Z.max r rs)) s
              end
    end in
  let s := record_apply (floor s) s in
  let s := set_rejections (build_rejections stats) s in
  let s := set_partial_rows (partial_rows stats) s in
  (stats, flush_cache (sync_config_status true s)).

Definition apply_resync (entries : list RawEntry) (s : Supervisor) : BuildStats * Supervisor :=
  apply_resync_at entries None s.

Definition record_read_revision (revision : Z) (s : Supervisor) : Supervisor :=
  sync_config_status false (record_read revision (set_floor revision s)).

(** [restore_from_cache], given what [SnapCache.cache_load] made of the file. *)
Definition restore_from_cache (cached : option CacheImage) (s : Supervisor) : Supervisor :=
  match cached with
  | None => s
  | Some image =>
      let s := set_stale (list_to_map ((fun p => (raw_key (stale_entry p), p)) <$> reverse (image_stale image))) s in
      let '(_, s) := apply_resync (image_entries image) s in
      sync_config_status false (set_floor (image_revision image) s)
  end.
End apply.

(** ** A batch decides what its events decide one at a time *)

(** The raw rows and records, not what each last served. *)
Definition obs_rows (st : ObservedState) : gmap bytes (RawEntry * bytes) :=
  (fun row => (se_entry row, se_record row)) <$> observed st.

(** The bookkeeping two supervisors agree on. *)
Record same_core (s s' : Supervisor) : Prop := {
  sc_rows : obs_rows (state s) = obs_rows (state s');
  sc_version : version (state s) = version (state s');
  sc_floor : floor s = floor s';
  sc_rejections : rejections s = rejections s';
  sc_rejected : rejected_keys s = rejected_keys s';
  sc_partial : partial_compat s = partial_compat s';
  sc_stale : stale_serving s = stale_serving s';
}.

#[export] Instance same_core_equiv : Equivalence same_core.
Proof.
  split.
  - by intros s.
  - by intros s s' [].
  - intros s s' s'' [] []. split; congruence.
Qed.

(** All that reads of the configuration and its status report. *)
Definition same_config (s s' : Supervisor) : Prop :=
  same_core s s' /\ served s = served s' /\ status_revision s = status_revision s'.

Lemma obs_rows_lookup st key : obs_rows st !! key = (fun row => (se_entry row, se_record row)) <$> observed st !! key.
Proof. apply lookup_fmap. Qed.

Lemma obs_rows_entry st st' key :
  obs_rows st = obs_rows st' -> se_entry <$> observed st !! key = se_entry <$> observed st' !! key.
Proof.
  intros E. assert (fst <$> obs_rows st !! key = fst <$> obs_rows st' !! key) as H by (by rewrite E).
  by rewrite !obs_rows_lookup, <- !option_fmap_compose in H.
Qed.

Lemma observed_insert_rows e st :
  obs_rows (observed_insert e st) = <[raw_key e := (e, raw_record e)]> (obs_rows st) /\
  version (observed_insert e st) =
    if bool_decide (snd <$> obs_rows st !! raw_key e = Some (raw_record e)) then version st
    else wrap64 (version st + 1).
Proof.
  rewrite obs_rows_lookup. unfold observed_insert, obs_rows. destruct (observed st !! raw_key e) as [old|] eqn:E; simpl.
  - case_bool_decide as Hr; simpl.
    + rewrite fmap_insert, bool_decide_true by (by rewrite Hr). done.
    + rewrite fmap_insert, bool_decide_false by congruence. done.
  - by rewrite fmap_insert.
Qed.

Lemma observed_remove_rows key st :
  obs_rows (snd (observed_remove key st)) = delete key (obs_rows st) /\
  version (snd (observed_remove key st)) =
    (if bool_decide (is_Some (obs_rows st !! key)) then wrap64 (version st + 1) else version st) /\
  (is_Some (fst (observed_remove key st)) <-> is_Some (obs_rows st !! key)).
Proof.
  rewrite obs_rows_lookup. unfold observed_remove, obs_rows. destruct (observed st !! key) as [row|] eqn:E; simpl.
  - rewrite fmap_delete. split_and!; [done|done|]. split; intros _; eauto.
  - split_and!; [|done|by split; intros []].
    rewrite delete_id; [done|]. by rewrite lookup_fmap, E.
Qed.

Lemma store_observed_core e s s' : same_core s s' -> same_core (store_observed e s) (store_observed e s').
Proof.
  intros [Hr Hv Hf Hj Hk Hp Hs].
  destruct (observed_insert_rows e (state s)) as [E1 E2], (observed_insert_rows e (state s')) as [F1 F2].
  split; simpl; [by rewrite E1, F1, Hr|by rewrite E2, F2, Hr, Hv|by rewrite Hf|done..].
Qed.

Lemma push_rejection_core r s s' : same_core s s' -> same_core (push_rejection s r) (push_rejection s' r).
Proof. intros [Hr Hv Hf Hj Hk Hp Hs]. unfold push_rejection. rewrite Hj, Hk. by split. Qed.

Lemma push_rejections_core l s s' : same_core s s' -> same_core (foldl push_rejection s l) (foldl push_rejection s' l).
Proof. revert s s'. induction l as [|r l IH]; intros s s' H; simpl; [done|]. by apply IH, push_rejection_core. Qed.

Lemma remove_rejection_core key s s' :
  same_core s s' ->
  fst (remove_rejection_for_key key s) = fst (remove_rejection_for_key key s') /\
  same_core (snd (remove_rejection_for_key key s)) (snd (remove_rejection_for_key key s')).
Proof.
  intros [Hr Hv Hf Hj Hk Hp Hs]. unfold remove_rejection_for_key. rewrite Hj, Hk. split; [done|by split].
Qed.

Lemma set_stale_core x s s' : same_core s s' -> same_core (set_stale x s) (set_stale x s').
Proof. intros []. by split. Qed.

Lemma set_floor_core x s s' : same_core s s' -> same_core (set_floor x s) (set_floor x s').
Proof. intros []. by split. Qed.

Lemma update_partial_core key row s s' :
  same_core s s' -> same_core (update_partial_row key row s) (update_partial_row key row s').
Proof.
  intros H. pose proof (sc_partial _ _ H) as Hp. unfold update_partial_row. rewrite Hp.
  destruct row; [case_match; [done|]|]; destruct H; by split.
Qed.

Lemma observed_remove_core key s s' :
  same_core s s' ->
  bool_decide (is_Some (fst (observed_remove key (state s)))) =
    bool_decide (is_Some (fst (observed_remove key (state s')))) /\
  same_core (set_state (snd (observed_remove key (state s))) s) (set_state (snd (observed_remove key (state s'))) s').
Proof.
  intros [Hr Hv Hf Hj Hk Hp Hs]. destruct (observed_remove_rows key (state s)) as (E1 & E2 & E3),
    (observed_remove_rows key (state s')) as (F1 & F2 & F3). split.
  - apply bool_decide_ext. by rewrite E3, F3, Hr.
  - split; simpl; [by rewrite E1, F1, Hr|by rewrite E2, F2, Hr, Hv|done..].
Qed.

(** The bookkeeping of an accepted put, a rejected one, and a delete. *)
Definition put_accepted (prefixes : PrefixSet) (e : RawEntry) (s : Supervisor) : Supervisor :=
  let stats := snd (load_entry prefixes e stats_default) in
  let s := snd (remove_rejection_for_key (raw_key e) s) in
  let s := set_stale (delete (raw_key e) (stale_serving s)) s in
  let s := update_partial_row (raw_key e)
             (find (fun row => bool_decide (pc_key row = raw_key e)) (partial_rows stats)) s in
  store_observed e s.

Definition put_rejected (prefixes : PrefixSet) (now : N) (base : Tables) (e : RawEntry) (v : BatchView)
    (s : Supervisor) : Supervisor :=
  foldl push_rejection (store_observed e (capture_last_good prefixes now base (raw_key e) v s))
    (build_rejections (snd (load_entry prefixes e stats_default))).

Definition del_state (key : bytes) (s : Supervisor) : Supervisor :=
  let s := update_partial_row key None (snd (remove_rejection_for_key key s)) in
  set_stale (delete key (stale_serving s)) s.

Section sequential.
Context (prefixes : PrefixSet) (now : N).

Lemma build_one e :
  build_snapshot prefixes [e] = (inserted prefixes ∅ e, snd (load_entry prefixes e stats_default)).
Proof. exact (build_step_eq prefixes ∅ stats_default e). Qed.

Lemma accepted_one e : (accepted (snd (load_entry prefixes e stats_default)) =? 0) = negb (loads prefixes e).
Proof.
  pose proof (load_entry_row prefixes e stats_default) as H.
  destruct (loads prefixes e); destruct H as [-> _]; done.
Qed.

Lemma stage_put_eq base e b :
  stage_put prefixes now base e b =
    if loads prefixes e then
      (true, mkBatch (put_accepted prefixes e (sup b)) (record_put prefixes (raw_key e) (view b))
               (push_merge (inserted prefixes ∅ e) (mutations b))
               (stamp_max (apply_stamp b) (raw_revision e)) true true)
    else
      (false, mkBatch (put_rejected prefixes now base e (view b) (sup b)) (view b) (mutations b)
                (stamp_max (apply_stamp b) (raw_revision e)) true true).
Proof. unfold stage_put. rewrite build_one, accepted_one. by destruct (loads prefixes e). Qed.

Lemma put_accepted_core e s s' :
  same_core s s' -> same_core (put_accepted prefixes e s) (put_accepted prefixes e s').
Proof.
  intros H. unfold put_accepted. apply store_observed_core, update_partial_core.
  destruct (remove_rejection_core (raw_key e) s s' H) as [_ Hr]. pose proof (sc_stale _ _ Hr) as ->.
  by apply set_stale_core.
Qed.

Lemma capture_core base base' key v v' s s' :
  same_core s s' -> (forall k i, present base v k i = present base' v' k i) ->
  same_core (capture_last_good prefixes now base key v s) (capture_last_good prefixes now base' key v' s').
Proof.
  intros H Hp. unfold capture_last_good. rewrite <- (sc_stale _ _ H).
  destruct (stale_serving s !! key); [done|]. destruct (resolve prefixes key) as [parsed|]; [|done].
  rewrite <- Hp. destruct (present base v _ _); [|done].
  pose proof (obs_rows_entry _ _ key (sc_rows _ _ H)) as E.
  destruct (observed (state s) !! key) as [row|], (observed (state s') !! key) as [row'|]; [|done..].
  injection E as ->. by apply set_stale_core.
Qed.

Lemma put_rejected_core base base' e v v' s s' :
  same_core s s' -> (forall k i, present base v k i = present base' v' k i) ->
  same_core (put_rejected prefixes now base e v s) (put_rejected prefixes now base' e v' s').
Proof. intros H Hp. by apply push_rejections_core, store_observed_core, capture_core. Qed.

Lemma del_state_core key s s' : same_core s s' -> same_core (del_state key s) (del_state key s').
Proof.
  intros H. unfold del_state. destruct (remove_rejection_core key s s' H) as [_ Hr].
  pose proof (update_partial_core key None _ _ Hr) as Hu. rewrite (sc_stale _ _ Hu). by apply set_stale_core.
Qed.

(** ** Views and mutations *)

Lemma fold_push_merge (tiny base : Tables) (l : list SnapshotMutation) :
  fold_left apply_to (push_merge tiny l) base = tiny ∪ fold_left apply_to l base.
Proof.
  unfold push_merge. destruct (reverse l) as [|[acc|k i] rest] eqn:E.
  - apply (f_equal reverse) in E. rewrite reverse_involutive in E. by subst.
  - apply (f_equal reverse) in E. rewrite reverse_involutive, reverse_cons in E. subst l.
    rewrite !fold_left_app. simpl. unfold merge_snapshot. by rewrite (assoc_L (∪)).
  - by rewrite fold_left_app.
Qed.

Lemma load_of_place e place row :
  load_of prefixes e = Some (place, row) ->
  exists parsed, resolve prefixes (raw_key e) = ROk parsed /\ place = (table_kind parsed, sk_id parsed) /\
    (sk_scope parsed = Global -> sk_kind parsed = lit "pricing") /\ sk_kind parsed ∈ KINDS.
Proof.
  unfold load_of, load_entry. destruct (resolve prefixes (raw_key e)) as [parsed|]; [|done].
  destruct (from_slice (raw_value e)) as [value|]; [|done].
  destruct (_ && _) eqn:Eg; [done|].
  assert (sk_kind parsed ∉ KINDS -> fst (load_kind e parsed value stats_default) = None) as Hk.
  { unfold load_kind, KINDS. rewrite !not_elem_of_cons. intros (H1 & H2 & H3 & H4).
    by rewrite !bool_decide_false. }
  destruct (load_kind e parsed value stats_default) as [[r|] s]; [|done]. intros [= <- <-].
  exists parsed. split_and!; try done.
  - intros Hg. apply andb_false_iff in Eg as [Eg|Eg]; [by apply bool_decide_eq_false in Eg|].
    by apply negb_false_iff, bool_decide_eq_true in Eg.
  - destruct (decide (sk_kind parsed ∈ KINDS)) as [|Hn]; [done|]. by specialize (Hk Hn).
Qed.

Lemma table_kind_in parsed :
  (sk_scope parsed = Global -> sk_kind parsed = lit "pricing") -> sk_kind parsed ∈ KINDS ->
  table_kind parsed ∈ TABLES.
Proof.
  unfold table_kind, TABLES. intros Hg Hk. destruct (sk_scope parsed); [by right|].
  rewrite bool_decide_true by auto. by left.
Qed.

(** What the view of a batch answers against the rows it stands for. *)
Definition seen (base : Tables) (v : BatchView) (rows : Tables) : Prop :=
  forall k i, present base v k i = snapshot_has rows k i.

Lemma snapshot_has_insert rows k i row kind id :
  kind ∈ TABLES ->
  snapshot_has (<[(kind, id) := row]> rows) k i = bool_decide ((k, i) = (kind, id)) || snapshot_has rows k i.
Proof.
  intros Hk. unfold snapshot_has. destruct (decide ((k, i) = (kind, id))) as [E|E].
  - injection E as -> ->. rewrite lookup_insert_eq, (bool_decide_true ((kind, id) = (kind, id))) by done.
    by rewrite !bool_decide_true by done.
  - by rewrite lookup_insert_ne, (bool_decide_false ((k, i) = (kind, id))) by congruence.
Qed.

Lemma snapshot_has_remove rows k i kind id :
  snapshot_has (remove_from_snapshot rows kind id) k i =
    negb (bool_decide ((k, i) = (kind, id))) && snapshot_has rows k i.
Proof.
  unfold snapshot_has, remove_from_snapshot. destruct (decide ((k, i) = (kind, id))) as [E|E].
  - injection E as -> ->. rewrite (bool_decide_true ((kind, id) = (kind, id))) by done.
    destruct (decide (kind ∈ TABLES)); [|by rewrite bool_decide_false].
    by rewrite bool_decide_true, lookup_delete_eq, (bool_decide_false (is_Some None)) by (done || apply is_Some_None).
  - rewrite (bool_decide_false ((k, i) = (kind, id))) by done.
    destruct (decide (kind ∈ TABLES)); [|by rewrite (bool_decide_false (kind ∈ TABLES))].
    by rewrite (bool_decide_true (kind ∈ TABLES)), lookup_delete_ne by congruence.
Qed.

Lemma seen_new rows : seen rows (mkView ∅ ∅) rows.
Proof. intros k i. unfold present. simpl. by rewrite !bool_decide_false by set_solver. Qed.

Lemma seen_put base v rows e :
  seen base v rows -> loads prefixes e = true ->
  seen base (record_put prefixes (raw_key e) v) (inserted prefixes rows e).
Proof.
  intros Hs Hl k i. unfold loads in Hl. apply bool_decide_eq_true in Hl as [[place row] Hl].
  destruct (load_of_place _ _ _ Hl) as (parsed & Hr & -> & Hg & Hk).
  unfold inserted, record_put. rewrite Hl, Hr, snapshot_has_insert by (by apply table_kind_in).
  rewrite <- Hs. unfold present. simpl. destruct (decide ((k, i) = (table_kind parsed, sk_id parsed))) as [->|E].
  - rewrite (bool_decide_false (_ ∈ removed v ∖ _)), (bool_decide_true (_ ∈ {[_]} ∪ _)) by set_solver.
    by rewrite bool_decide_true.
  - rewrite (bool_decide_false (_ = _)) by done. simpl.
    rewrite (bool_decide_ext (_ ∈ removed v ∖ _) ((k, i) ∈ removed v)) by set_solver.
    by rewrite (bool_decide_ext (_ ∈ {[_]} ∪ _) ((k, i) ∈ added v)) by set_solver.
Qed.

Lemma seen_delete base v rows kind id :
  seen base v rows -> seen base (record_delete kind id v) (remove_from_snapshot rows kind id).
Proof.
  intros Hs k i. rewrite snapshot_has_remove, <- Hs. unfold present, record_delete. simpl.
  destruct (decide ((k, i) = (kind, id))) as [->|E].
  - by rewrite (bool_decide_true ((kind, id) ∈ _)), (bool_decide_true (_ = _)) by set_solver.
  - rewrite (bool_decide_false (_ = _)) by done. simpl.
    rewrite (bool_decide_ext (_ ∈ {[_]} ∪ _) ((k, i) ∈ removed v)) by set_solver.
    by rewrite (bool_decide_ext (_ ∈ added v ∖ _) ((k, i) ∈ added v)) by set_solver.
Qed.

(** The status revision a batch will leave. *)
Definition stamped (stamp : option Z) (r : Z) : Z := match stamp with Some r' => Z.max r r' | None => r end.

Lemma stamped_max stamp r' r : stamped (stamp_max stamp r') r = Z.max (stamped stamp r) r'.
Proof. unfold stamped, stamp_max. destruct stamp as [c|]; [destruct (Z.leb_spec r' c)|]; lia. Qed.

(** Two batches, begun at different rows, that stand for the same ones. *)
Record batch_sim (base : Tables) (status : Z) (b : Batch) (base' : Tables) (status' : Z) (c : Batch) : Prop := {
  bs_core : same_core (sup b) (sup c);
  bs_rows : fold_left apply_to (mutations b) base = fold_left apply_to (mutations c) base';
  bs_seen : seen base (view b) (fold_left apply_to (mutations b) base);
  bs_seen' : seen base' (view c) (fold_left apply_to (mutations b) base);
  bs_status : stamped (apply_stamp b) status = stamped (apply_stamp c) status';
}.

Lemma publish_rows rejected stale st :
  obs_rows (snd (publish_served rejected stale st)) = obs_rows st /\
  version (snd (publish_served rejected stale st)) = version st.
Proof.
  unfold publish_served. set (keys := _ ++ _). clearbody keys.
  assert (forall acc, (fun row => (se_entry row, se_record row)) <$> snd acc = obs_rows st ->
    (fun row => (se_entry row, se_record row)) <$>
      snd (fold_left (publish_step rejected stale (pending st)) keys acc) = obs_rows st) as H.
  { induction keys as [|key keys IH]; intros acc Hacc; simpl; [done|]. apply IH.
    unfold publish_step. destruct acc as [moved m]. simpl in *. rewrite <- Hacc. apply map_eq. intros k.
    rewrite !lookup_fmap. destruct (decide (k = key)) as [-> |Hne].
    - rewrite lookup_alter_eq. by destruct (m !! key).
    - by rewrite lookup_alter_ne. }
  specialize (H (false, observed st) eq_refl). by destruct (fold_left _ _ _).
Qed.

Lemma sync_core r s : same_core (sync_config_status r s) s.
Proof.
  unfold sync_config_status. pose proof (publish_rows (rejected_keys s) (stale_serving s) (state s)) as [Hr Hv].
  by destruct (publish_served _ _ _) as [v st].
Qed.

Lemma inserted_union rows e : inserted prefixes ∅ e ∪ rows = inserted prefixes rows e.
Proof.
  unfold inserted. destruct (load_of prefixes e) as [[[t i] row]|]; [|by rewrite (left_id_L ∅ (∪))].
  by rewrite <- insert_union_l, (left_id_L ∅ (∪)).
Qed.

Lemma stage_put_sim base st b base' st' c e :
  batch_sim base st b base' st' c ->
  fst (stage_put prefixes now base e b) = fst (stage_put prefixes now base' e c) /\
  batch_sim base st (snd (stage_put prefixes now base e b)) base' st' (snd (stage_put prefixes now base' e c)).
Proof.
  intros [Hc Hr Hs Hs' Ht]. rewrite !stage_put_eq.
  destruct (loads prefixes e) eqn:El; (split; [done|]); split; cbn [snd sup view mutations apply_stamp];
    rewrite ?fold_push_merge, ?inserted_union, ?stamped_max, ?Ht; try done.
  - by apply put_accepted_core.
  - by rewrite Hr.
  - by apply seen_put.
  - by apply seen_put.
  - apply put_rejected_core; [done|]. intros k i. by rewrite (Hs k i), (Hs' k i).
Qed.

Lemma raise_sim base st b base' st' c rev :
  batch_sim base st b base' st' c ->
  batch_sim base st (raise_revision_floor rev b) base' st' (raise_revision_floor rev c).
Proof.
  intros [Hc Hr Hs Hs' Ht]. destruct rev as [rev|]; [|done].
  split; cbn [raise_revision_floor sup view mutations apply_stamp]; try done.
  - rewrite (sc_floor _ _ Hc). by apply set_floor_core.
  - by rewrite !stamped_max, Ht.
Qed.

(** What a delete that resolves stages, before its revision. *)
Definition delete_staged (base : Tables) (key : bytes) (parsed : ScopedKey) (b : Batch) : bool * Batch :=
  let '(gone, state') := observed_remove key (state (del_state key (sup b))) in
  let s := set_state state' (del_state key (sup b)) in
  let removed_rejection := fst (remove_rejection_for_key key (sup b)) in
  if present base (view b) (table_kind parsed) (sk_id parsed) then
    (true, mkBatch s (record_delete (table_kind parsed) (sk_id parsed) (view b))
             (mutations b ++ [Remove (table_kind parsed) (sk_id parsed)])
             (stamp_max (apply_stamp b) (floor s)) true true)
  else if removed_rejection || bool_decide (is_Some gone) then
    (removed_rejection, mkBatch s (view b) (mutations b) (stamp_max (apply_stamp b) (floor s)) true true)
  else
    (removed_rejection, mkBatch s (view b) (mutations b) (apply_stamp b) (dirty_status b) (dirty_cache b)).

Lemma stage_delete_eq base key rev b :
  stage_delete prefixes base key rev b =
    match resolve prefixes key with
    | RErr _ => (false, raise_revision_floor rev b)
    | ROk parsed =>
        let '(outcome, b) := delete_staged base key parsed b in (outcome, raise_revision_floor rev b)
    end.
Proof.
  unfold stage_delete, delete_staged, del_state. destruct (resolve prefixes key) as [parsed|]; [|done].
  destruct (remove_rejection_for_key key (sup b)) as [rr s]. cbn [fst snd].
  destruct (observed_remove key _) as [gone st']. by destruct (present _ _ _ _), (rr || _).
Qed.

Lemma delete_staged_sim base st b base' st' c key parsed :
  batch_sim base st b base' st' c ->
  fst (delete_staged base key parsed b) = fst (delete_staged base' key parsed c) /\
  batch_sim base st (snd (delete_staged base key parsed b)) base' st' (snd (delete_staged base' key parsed c)).
Proof.
  intros [Hc Hr Hs Hs' Ht]. unfold delete_staged.
  pose proof (del_state_core key _ _ Hc) as Hd. destruct (observed_remove_core key _ _ Hd) as [Hg Ho].
  rewrite (Hs _ _), (Hs' _ _), (proj1 (remove_rejection_core key _ _ Hc)).
  destruct (observed_remove key (state (del_state key (sup b)))) as [gone st1].
  destruct (observed_remove key (state (del_state key (sup c)))) as [gone' st1']. cbn [fst snd] in Hg, Ho.
  rewrite Hg. destruct (snapshot_has _ _ _).
  - split; [done|]. split; cbn [snd sup view mutations apply_stamp].
    + done.
    + by rewrite !fold_left_app, Hr.
    + rewrite fold_left_app. by apply seen_delete.
    + rewrite fold_left_app. by apply seen_delete.
    + by rewrite !stamped_max, Ht, (sc_floor _ _ Ho).
  - destruct (_ || _); (split; [done|]); split; cbn [snd sup view mutations apply_stamp];
      rewrite ?stamped_max, ?Ht, ?(sc_floor _ _ Ho); done.
Qed.

(** Staging an event decides the same on both, and keeps them together. *)
Lemma stage_sim base st b base' st' c ev :
  batch_sim base st b base' st' c ->
  fst (stage_event prefixes now base ev b) = fst (stage_event prefixes now base' ev c) /\
  batch_sim base st (snd (stage_event prefixes now base ev b)) base' st' (snd (stage_event prefixes now base' ev c)).
Proof.
  intros H. destruct ev as [e|key rev]; simpl; [by apply stage_put_sim|].
  rewrite !stage_delete_eq. destruct (resolve prefixes key) as [parsed|]; [|by split; [|apply raise_sim]].
  destruct (delete_staged_sim _ _ _ _ _ _ key parsed H) as [Ho Hs].
  destruct (delete_staged base key parsed b), (delete_staged base' key parsed c). simpl in *.
  by split; [|apply raise_sim].
Qed.

(** *** What staging leaves to the publish *)

Definition published (s : Supervisor) : Tables * Z := (served s, status_revision s).

Lemma push_rejections_published l s : published (foldl push_rejection s l) = published s.
Proof. revert s. induction l as [|r l IH]; intros s; simpl; [done|]. by rewrite IH. Qed.

Lemma update_partial_published key row s : published (update_partial_row key row s) = published s.
Proof. unfold update_partial_row. destruct row; [by case_match|done]. Qed.

Lemma capture_published base key v s : published (capture_last_good prefixes now base key v s) = published s.
Proof. unfold capture_last_good. by repeat case_match. Qed.

Lemma stage_published base ev b : published (sup (snd (stage_event prefixes now base ev b))) = published (sup b).
Proof.
  destruct ev as [e|key rev]; simpl.
  - rewrite stage_put_eq. destruct (loads prefixes e); simpl.
    + unfold put_accepted. exact (update_partial_published (raw_key e) _ _).
    + unfold put_rejected. rewrite push_rejections_published. exact (capture_published base (raw_key e) _ _).
  - assert (forall b', published (sup (raise_revision_floor rev b')) = published (sup b')) as Hf by (by destruct rev).
    rewrite stage_delete_eq. destruct (resolve prefixes key) as [parsed|]; [|apply Hf].
    assert (published (sup (snd (delete_staged base key parsed b))) = published (sup b)) as Hd.
    { unfold delete_staged. destruct (observed_remove key _) as [gone st'].
      transitivity (published (del_state key (sup b))); [by repeat case_match|].
      unfold del_state. exact (update_partial_published key None _). }
    destruct (delete_staged base key parsed b). simpl in *. by rewrite Hf.
Qed.

Lemma commit_spec b :
  same_core (commit b) (sup b) /\
  served (commit b) = fold_left apply_to (mutations b) (served (sup b)) /\
  status_revision (commit b) = stamped (apply_stamp b) (status_revision (sup b)).
Proof.
  assert (forall (c : bool) s, let s' := if c then flush_cache s else s in
            same_core s' s /\ published s' = published s) as Hflush by (intros []; by split).
  assert (forall (c : bool) s, let s' := if c then sync_config_status false s else s in
            same_core s' s /\ published s' = published s) as Hsync.
  { intros [] s; [|by split]. split; [apply sync_core|]. unfold sync_config_status. by destruct (publish_served _ _ _). }
  unfold commit. set (s1 := match mutations b with [] => _ | _ => _ end).
  set (s2 := match apply_stamp b with Some r => record_apply r s1 | None => s1 end).
  destruct (Hsync (dirty_status b) s2) as [C1 P1], (Hflush (dirty_cache b)
    (if dirty_status b then sync_config_status false s2 else s2)) as [C2 P2].
  assert (same_core s2 (sup b) /\ served s2 = fold_left apply_to (mutations b) (served (sup b)) /\
          status_revision s2 = stamped (apply_stamp b) (status_revision (sup b))) as (C3 & R3 & S3).
  { subst s2 s1. by destruct (mutations b), (apply_stamp b). }
  rewrite P1 in P2. injection P2 as R2 S2.
  split; [by rewrite C2, C1|]. split; [by rewrite R2|by rewrite S2].
Qed.

Lemma batch_sim_new s : batch_sim (served s) (status_revision s) (batch_new s) (served s) (status_revision s) (batch_new s).
Proof. split; simpl; try done; apply seen_new. Qed.

(** Committing one side after an event and beginning a batch again. *)
Lemma commit_sim base st b s c :
  batch_sim base st b (served s) (status_revision s) c -> published (sup c) = published s ->
  batch_sim base st b (served (commit c)) (status_revision (commit c)) (batch_new (commit c)).
Proof.
  intros [Hc Hr Hs Hs' Ht] [= P1 P2]. destruct (commit_spec c) as (Cc & Cr & Cs). rewrite P1 in Cr. rewrite P2 in Cs.
  split; simpl.
  - by rewrite Cc.
  - by rewrite Cr.
  - done.
  - rewrite Hr, <- Cr. apply seen_new.
  - by rewrite Cs.
Qed.

(** Each event a batch of its own. *)
Fixpoint apply_each (events : list PendingEvent) (s : Supervisor) : list bool * Supervisor :=
  match events with
  | [] => ([], s)
  | event :: events =>
      let '(outcome, s) := apply_events prefixes now [event] s in
      let '(outcomes, s) := apply_each events s in
      (outcome ++ outcomes, s)
  end.

Lemma stage_all_sim base st b s events :
  batch_sim base st b (served s) (status_revision s) (batch_new s) ->
  let '(outcomes, b') := stage_all prefixes now base events b in
  let '(outcomes', s') := apply_each events s in
  outcomes = outcomes' /\ batch_sim base st b' (served s') (status_revision s') (batch_new s') /\
  published (sup b') = published (sup b).
Proof.
  revert b s. induction events as [|ev events IH]; intros b s H; simpl; [done|].
  destruct (stage_sim base st b (served s) (status_revision s) (batch_new s) ev H) as [Ho Hs].
  pose proof (stage_published base ev b) as Pb. pose proof (stage_published (served s) ev (batch_new s)) as Pc.
  unfold apply_events. simpl. destruct (stage_event prefixes now base ev b) as [o b1].
  destruct (stage_event prefixes now (served s) ev (batch_new s)) as [o' c1]. simpl in *. subst o'.
  specialize (IH b1 (commit c1) (commit_sim _ _ _ _ _ Hs Pc)).
  destruct (stage_all prefixes now base events b1) as [os b2], (apply_each events (commit c1)) as [os' s2].
  destruct IH as (-> & IH & P). split; [done|]. split; [done|]. by rewrite P.
Qed.
End sequential.

Lemma apply_events_each prefixes now events s :
  fst (apply_events prefixes now events s) = fst (apply_each prefixes now events s) /\
  same_config (snd (apply_events prefixes now events s)) (snd (apply_each prefixes now events s)).
Proof.
  pose proof (stage_all_sim prefixes now _ _ _ s events (batch_sim_new s)) as H.
  unfold apply_events. destruct (stage_all _ _ _ _ _) as [os b], (apply_each _ _ _ _) as [os' s'].
  destruct H as (-> & [Hc Hr Hs Hs' Ht] & [= P1 P2]). cbn [fst snd]. split; [done|].
  destruct (commit_spec b) as (Cc & Cr & Cs). simpl in *. split; [by rewrite Cc|]. split.
  - by rewrite Cr, P1, Hr.
  - by rewrite Cs, P2, Ht.
Qed.

(** C4. Coalescing events is invisible in what they decide.  A batch of puts and
    deletes, staged against one view and published once, answers for each event
    what applying the events one batch each answers, and leaves the same served
    rows, observed rows and version, revision floor, applied revision,
    rejections, partial reads and pinned last-good values, whatever the batch:
    rows put and deleted again, rejected rows that still serve what an earlier
    event of the batch put, keys outside every prefix. *)
Theorem batch_is_sequential prefixes now events s :
  fst (apply_events prefixes now events s) = fst (apply_each prefixes now events s) /\
  same_config (snd (apply_events prefixes now events s)) (snd (apply_each prefixes now events s)).
Proof. apply apply_events_each. Qed.
End supervisor.
