(* ===== verification/SnapCache.v ===== *)
(** * The snapshot cache

    [crates/aisix-etcd/src/snapshot_cache.rs]: the file a process restarts from.
    Each apply takes a ticket for what it captured and leaves the writing to a task
    of its own; the tasks take the lock in any order, stand down when a later
    capture was committed or is on its way, and replace the file as a whole or not
    at all.

    [base64] and [serde_json] are arguments, with the round trips the cache relies
    on.  A write is two steps, the guards under the lock and the rename that ends
    [atomic_write], with anything in between; every failure [atomic_write] reports
    comes before the file is replaced.  Permissions, the directory and log lines are
    not modelled. *)

From stdpp Require Import pretty.
From S2P Require Import Prelude Utf8 Loader Observed Supervisor.
Local Open Scope N_scope.

Definition FORMAT_VERSION : N := 1.

Record CachedEntry := mkCachedEntry { ce_key : bytes; ce_value_b64 : bytes; ce_revision : Z }.
Record CachedStaleEntry := mkCachedStale { cs_key : bytes; cs_value_b64 : bytes; cs_revision : Z; cs_since_unix_secs : N }.
Record CachedFile := mkCachedFile {
  cf_version : N;
  cf_revision : Z;
  cf_entries : list CachedEntry;
  cf_stale : list CachedStaleEntry;
}.

(** ** The text of the file *)

Definition quoted (s : string) : bytes := 34 :: lit s ++ [34].

Definition write_records (records : list bytes) : bytes :=
  concat (imap (fun index record => (if Nat.ltb 0 index then lit "," else []) ++ record) records).

Definition file_text (entries : list bytes) (revision : Z) (stale : list bytes) : bytes :=
  lit "{" ++ quoted "version" ++ lit ":" ++ lit (pretty FORMAT_VERSION) ++
  lit "," ++ quoted "revision" ++ lit ":" ++ lit (pretty revision) ++
  lit "," ++ quoted "entries" ++ lit ":[" ++ write_records entries ++
  lit "]," ++ quoted "stale" ++ lit ":[" ++ write_records stale ++ lit "]}".

(** What the cache calls of the two crates. *)
Class DiskFormat := {
  b64_encode : bytes -> bytes;
  b64_decode : bytes -> option bytes;
  entry_to_vec : CachedEntry -> bytes;
  stale_to_vec : CachedStaleEntry -> bytes;
  file_from_slice : bytes -> option CachedFile;
}.

(** What it relies on: base64 decodes what it encoded, and the envelope written by
    hand around records [serde_json] wrote is read back field by field. *)
Class DiskLaws (DF : DiskFormat) : Prop := {
  b64_round value : b64_decode (b64_encode value) = Some value;
  file_round entries revision stale :
    file_from_slice (file_text (entry_to_vec <$> entries) revision (stale_to_vec <$> stale))
    = Some (mkCachedFile FORMAT_VERSION revision entries stale);
}.

Section cache.
Context {DF : DiskFormat}.

Definition encode_entry (entry : RawEntry) : bytes :=
  entry_to_vec (mkCachedEntry (raw_key entry) (b64_encode (raw_value entry)) (raw_revision entry)).
Definition encode_stale (stale : StaleServing) : bytes :=
  let entry := stale_entry stale in
  stale_to_vec (mkCachedStale (raw_key entry) (b64_encode (raw_value entry)) (raw_revision entry) (since_unix_secs stale)).

Definition decode_entry (e : CachedEntry) : option RawEntry :=
  (fun value => mkRaw (ce_key e) value (ce_revision e)) <$> b64_decode (ce_value_b64 e).
Definition decode_stale (s : CachedStaleEntry) : option StaleServing :=
  (fun value => mkStale (mkRaw (cs_key s) value (cs_revision s)) (cs_since_unix_secs s)) <$> b64_decode (cs_value_b64 s).

(** ** State *)

(** A write a task is to make: its ticket and what it captured, encoded. *)
Record CacheWrite := mkWrite {
  w_ticket : N;
  w_entries : list bytes;
  w_revision : Z;
  w_stale : list bytes;
}.
Definition write_text (w : CacheWrite) : bytes := file_text (w_entries w) (w_revision w) (w_stale w).

(** [disk]: the file at the path.  [writing]: the write that holds the lock. *)
Record SnapshotCache := mkCache {
  has_path : bool;
  disk : option bytes;
  next_ticket : N;
  committed : N;
  writing : option CacheWrite;
}.

(** [SnapshotCache::new] and [disabled], over what is at the path. *)
Definition cache_new (file : option bytes) : SnapshotCache := mkCache true file 0 0 None.
Definition cache_disabled : SnapshotCache := mkCache false None 0 0 None.
Definition cache_is_enabled (c : SnapshotCache) : bool := has_path c.

Definition cache_load (c : SnapshotCache) : option CacheImage :=
  if has_path c then
    data ← disk c;
    cached ← file_from_slice data;
    if negb (cf_version cached =? FORMAT_VERSION) then None
    else
      entries ← mapM decode_entry (cf_entries cached);
      stale ← mapM decode_stale (cf_stale cached);
      Some (mkImage entries (cf_revision cached) stale)
  else None.

Definition ticket (c : SnapshotCache) : N * SnapshotCache :=
  let next := wrap64 (next_ticket c + 1) in
  (next, mkCache (has_path c) (disk c) next (committed c) (writing c)).

(** [store_encoded] up to the file: the lock is free, and the guards decide. *)
Definition store_begin (w : CacheWrite) (c : SnapshotCache) : SnapshotCache :=
  if negb (has_path c) then c
  else if w_ticket w <=? committed c then c
  else if w_ticket w <? next_ticket c then c
  else mkCache (has_path c) (disk c) (next_ticket c) (committed c) (Some w).

(** [store_encoded] from the file on: [atomic_write] replaced it, or failed. *)
Definition store_finish (replaced : bool) (c : SnapshotCache) : SnapshotCache :=
  match writing c with
  | None => c
  | Some w =>
      if replaced then mkCache (has_path c) (Some (write_text w)) (next_ticket c) (w_ticket w) None
      else mkCache (has_path c) (disk c) (next_ticket c) (committed c) None
  end.

(** What the task of a captured image is given. *)
Definition image_write (t : N) (image : CacheImage) : CacheWrite :=
  mkWrite t (encode_entry <$> image_entries image) (image_revision image) (encode_stale <$> image_stale image).

(** ** What is written is what is read *)

Section laws.
Context {DL : DiskLaws DF}.

Lemma mapM_encoded {A B} (f : A -> B) (g : B -> option A) (l : list A) :
  (forall x, g (f x) = Some x) -> mapM g (f <$> l) = Some l.
Proof. intros Hg. induction l as [|x l IH]; [done|]. cbn. by rewrite Hg, IH. Qed.

Lemma load_written c t image :
  has_path c = true -> disk c = Some (write_text (image_write t image)) -> cache_load c = Some image.
Proof.
  intros Hp Hd. unfold cache_load. rewrite Hp, Hd. cbn [mbind option_bind]. destruct image as [entries revision stale].
  unfold write_text, image_write. cbn [w_entries w_revision w_stale image_entries image_revision image_stale].
  set (ce := fun e => mkCachedEntry (raw_key e) (b64_encode (raw_value e)) (raw_revision e)).
  set (cs := fun s => mkCachedStale (raw_key (stale_entry s)) (b64_encode (raw_value (stale_entry s)))
                        (raw_revision (stale_entry s)) (since_unix_secs s)).
  replace (encode_entry <$> entries) with (entry_to_vec <$> (ce <$> entries)) by (by rewrite <- list_fmap_compose).
  replace (encode_stale <$> stale) with (stale_to_vec <$> (cs <$> stale)) by (by rewrite <- list_fmap_compose).
  rewrite file_round. cbn [mbind option_bind cf_version cf_entries cf_stale cf_revision]. rewrite N.eqb_refl. cbn [negb].
  rewrite (mapM_encoded ce decode_entry), (mapM_encoded cs decode_stale); [done| |].
  - intros [[k v r] since]. unfold cs, decode_stale. simpl. by rewrite b64_round.
  - intros [k v r]. unfold ce, decode_entry. simpl. by rewrite b64_round.
Qed.

Lemma load_nothing c : disk c = None -> cache_load c = None.
Proof. unfold cache_load. intros ->. by destruct (has_path c). Qed.
End laws.
End cache.

(** ** A format

    For the witnesses: a record is one number past the bytes, so that the envelope
    can be taken apart at its commas and brackets. *)

(** Decimal numbers, read back. *)
Definition all_digits (l : bytes) : Prop := Forall (fun d => 48 <= d <= 57) l.

Lemma digits_value_snoc l d : digits_value (l ++ [d]) = digits_value l * 10 + (d - 48).
Proof. unfold digits_value. by rewrite foldl_snoc. Qed.

Lemma digit_code x : x < 10 -> Ascii.N_of_ascii (pretty_N_char x) = 48 + x.
Proof.
  intros Hx. assert (x = 0 \/ x = 1 \/ x = 2 \/ x = 3 \/ x = 4 \/ x = 5 \/ x = 6 \/ x = 7 \/ x = 8 \/ x = 9) as H by lia.
  by repeat destruct H as [-> |H]; [..|subst x].
Qed.

Lemma pretty_go_digits x s :
  exists ds, lit (pretty_N_go x s) = ds ++ lit s /\ all_digits ds /\ digits_value ds = x.
Proof.
  revert s. induction (N.lt_wf_0 x) as [x _ IH]. intros s. destruct (decide (x = 0)) as [-> |Hx].
  { exists []. rewrite pretty_N_go_0. split_and!; [done|constructor|done]. }
  rewrite pretty_N_go_step by lia.
  destruct (IH (x / 10) (N.div_lt x 10 ltac:(lia) eq_refl) (String (pretty_N_char (x mod 10)) s)) as (ds & E & Hd & Hv).
  pose proof (N.mod_lt x 10 ltac:(lia)) as Hm. exists (ds ++ [48 + x mod 10]). split_and!.
  - rewrite E. cbn [lit]. rewrite (digit_code _ Hm). by rewrite <- app_assoc.
  - apply Forall_app. split; [done|]. constructor; [lia|constructor].
  - rewrite digits_value_snoc, Hv. pose proof (N.div_mod x 10 ltac:(lia)). lia.
Qed.

Lemma pretty_digits x : all_digits (lit (pretty x)) /\ digits_value (lit (pretty x)) = x.
Proof.
  unfold pretty, pretty_N. destruct (decide (x = 0)) as [-> |Hx].
  - split; [|done]. constructor; [|constructor]. by split.
  - destruct (pretty_go_digits x "") as (ds & -> & Hd & Hv). cbn [lit]. by rewrite app_nil_r.
Qed.

Definition demo_integer (l : bytes) : Z :=
  match strip_prefix [45] l with
  | Some l => (- Z.of_N (digits_value l))%Z
  | None => Z.of_N (digits_value l)
  end.

Lemma integer_round z : demo_integer (lit (pretty z)) = z /\ 44 ∉ lit (pretty z).
Proof.
  assert (forall x, demo_integer (lit (pretty x)) = Z.of_N x /\ 44 ∉ lit (pretty x)) as Hpos.
  { intros x. destruct (pretty_digits x) as [Hd Hv]. pose proof (proj1 (Forall_forall _ _) Hd) as Hall. split.
    - unfold demo_integer. destruct (strip_prefix [45] (lit (pretty x))) as [rest|] eqn:E; [|by rewrite Hv].
      apply strip_prefix_Some in E. assert (48 <= 45 <= 57); [|lia]. apply Hall. rewrite E. by left.
    - intros H%Hall. lia. }
  destruct z as [|p|p]; [apply (Hpos 0)|apply (Hpos (Npos p))|].
  destruct (Hpos (Npos p)) as [Hv Hn]. destruct (pretty_digits (Npos p)) as [_ Hd].
  change (lit (pretty (Zneg p))) with ([45] ++ lit (pretty (Npos p))). split.
  - unfold demo_integer. rewrite (proj2 (strip_prefix_Some _ _ _) eq_refl), Hd. done.
  - rewrite elem_of_app. intros [H|H]; [by apply list_elem_of_singleton in H|done].
Qed.

Fixpoint before_comma (l : bytes) : bytes * bytes :=
  match l with
  | [] => ([], [])
  | x :: l => if x =? 44 then ([], l) else let '(a, b) := before_comma l in (x :: a, b)
  end.
Lemma before_comma_app a b : 44 ∉ a -> before_comma (a ++ 44 :: b) = (a, b).
Proof.
  induction a as [|x a IH]; intros H; [done|]. cbn. rewrite IH by set_solver.
  destruct (N.eqb_spec x 44) as [-> |]; [|done]. destruct H. by left.
Qed.

(** Records up to the bracket that ends them. *)
Fixpoint demo_records {A} (read : N -> option A) (l : bytes) : option (list A * bytes) :=
  match l with
  | [] => None
  | x :: l =>
      if x =? 44 then demo_records read l
      else if x =? 93 then Some ([], l)
      else r ← read x; '(rs, rest) ← demo_records read l; Some (r :: rs, rest)
  end.

Definition demo_record {A} (code : A -> positive) (x : A) : bytes := [256 + Npos (code x)].
Definition demo_read {A} (uncode : positive -> option A) (n : N) : option A :=
  match n - 256 with Npos p => uncode p | N0 => None end.

Lemma demo_records_round {A} (code : A -> positive) (uncode : positive -> option A) k l rest :
  (forall x, uncode (code x) = Some x) ->
  demo_records (demo_read uncode)
    (concat (imap (fun index record => (if Nat.ltb 0 (k + index) then lit "," else []) ++ record) (demo_record code <$> l))
     ++ 93 :: rest) = Some (l, rest).
Proof.
  intros Hr. revert k. induction l as [|x l IH]; intros k; [done|]. rewrite fmap_cons, imap_cons. cbn [concat].
  assert (forall tail, demo_records (demo_read uncode) (demo_record code x ++ tail) =
            '(rs, rest) ← demo_records (demo_read uncode) tail; Some (x :: rs, rest)) as Hone.
  { intros tail. unfold demo_record. cbn [app demo_records]. rewrite (proj2 (N.eqb_neq _ 44)), (proj2 (N.eqb_neq _ 93)) by lia.
    assert (demo_read uncode (256 + Npos (code x)) = Some x) as ->; [|done].
    unfold demo_read. replace (256 + Npos (code x) - 256) with (Npos (code x)) by lia. by rewrite Hr. }
  rewrite <- !app_assoc. specialize (IH (S k)).
  rewrite (imap_ext _ (fun index record => (if Nat.ltb 0 (S k + index) then lit "," else []) ++ record)).
  2: { intros i y _. simpl. by rewrite Nat.add_succ_r. }
  assert (forall (b : bool) tail, demo_records (demo_read uncode) ((if b then lit "," else []) ++ tail)
            = demo_records (demo_read uncode) tail) as -> by (by intros []).
  by rewrite Hone, IH.
Qed.

Definition entry_fields (e : CachedEntry) := (ce_key e, ce_value_b64 e, ce_revision e).
Definition stale_fields (s : CachedStaleEntry) := (cs_key s, cs_value_b64 s, cs_revision s, cs_since_unix_secs s).
Definition entry_code (e : CachedEntry) : positive := countable.encode (entry_fields e).
Definition stale_code (s : CachedStaleEntry) : positive := countable.encode (stale_fields s).
Definition entry_uncode (p : positive) : option CachedEntry :=
  (fun '(k, v, r) => mkCachedEntry k v r) <$> countable.decode p.
Definition stale_uncode (p : positive) : option CachedStaleEntry :=
  (fun '(k, v, r, t) => mkCachedStale k v r t) <$> countable.decode p.

Definition demo_head : bytes :=
  lit "{" ++ quoted "version" ++ lit ":" ++ lit (pretty FORMAT_VERSION) ++ lit "," ++ quoted "revision" ++ lit ":".
Definition demo_entries : bytes := quoted "entries" ++ lit ":[".
Definition demo_stale : bytes := lit "," ++ quoted "stale" ++ lit ":[".

Lemma strip_prefix_front p r : strip_prefix p (p ++ r) = Some r.
Proof. by apply strip_prefix_Some. Qed.

Lemma file_text_parts entries revision stale :
  file_text entries revision stale =
  demo_head ++ lit (pretty revision) ++ 44 :: demo_entries ++ write_records entries ++ 93 ::
  demo_stale ++ write_records stale ++ 93 :: lit "}".
Proof. unfold file_text, demo_head, demo_entries, demo_stale. by rewrite <- !app_assoc. Qed.

Definition demo_from_slice (data : bytes) : option CachedFile :=
  data ← strip_prefix demo_head data;
  let '(revision, data) := before_comma data in
  data ← strip_prefix demo_entries data;
  '(entries, data) ← demo_records (demo_read entry_uncode) data;
  data ← strip_prefix demo_stale data;
  '(stale, _) ← demo_records (demo_read stale_uncode) data;
  Some (mkCachedFile FORMAT_VERSION (demo_integer revision) entries stale).

#[export] Instance demo_format : DiskFormat := {
  b64_encode value := value;
  b64_decode text := Some text;
  entry_to_vec := demo_record entry_code;
  stale_to_vec := demo_record stale_code;
  file_from_slice := demo_from_slice;
}.

#[export] Instance demo_format_laws : DiskLaws demo_format.
Proof.
  split; [done|]. intros entries revision stale. cbn [file_from_slice entry_to_vec stale_to_vec demo_format].
  assert (forall x, entry_uncode (entry_code x) = Some x) as He.
  { intros [k v r]. unfold entry_uncode, entry_code. rewrite countable.decode_encode. done. }
  assert (forall x, stale_uncode (stale_code x) = Some x) as Hs.
  { intros [k v r t]. unfold stale_uncode, stale_code. rewrite countable.decode_encode. done. }
  destruct (integer_round revision) as [Hi Hn]. unfold demo_from_slice.
  rewrite file_text_parts, strip_prefix_front. cbn [mbind option_bind].
  rewrite (before_comma_app _ _ Hn), strip_prefix_front. cbn [mbind option_bind].
  pose proof (demo_records_round entry_code entry_uncode 0 entries) as Hre. unfold write_records at 1.
  rewrite (Hre _ He). cbn [mbind option_bind]. rewrite strip_prefix_front. cbn [mbind option_bind].
  pose proof (demo_records_round stale_code stale_uncode 0 stale) as Hrs. unfold write_records.
  rewrite (Hrs _ Hs). cbn [mbind option_bind]. by rewrite Hi.
Qed.
