(* ===== verification/Serving.v ===== *)
(** * What serves

    The contract of [supervisor.rs] in terms of one map, the entry each key
    serves from: a put that loads takes its key over, a put that is rejected
    leaves it with what it served, a delete ends it, and a resync does all three
    at once.  The supervisor's tables, reports, pins and the image it captures for
    the disk are shown to implement it.

    The keys are those an environment is written under: every scope has one
    watched prefix, and no key names a table its scope does not own. *)

From S2P Require Import Prelude Sort Utf8 EtcdKey Loader Observed Supervisor.
Local Open Scope nat_scope.

Section serving.
Context {DM : Documents} (l : list WatchedPrefix) (now : N).
Context (Hone : forall w w', w ∈ l -> w' ∈ l -> scope w = scope w' -> w = w').
Abbreviation ps := (prefix_set_new l).
Abbreviation Tables := (gmap (bytes * bytes) Row).

(** ** Keys and places *)

Definition own_table (parsed : ScopedKey) : Prop :=
  match sk_scope parsed with
  | Global => sk_kind parsed = lit "pricing"
  | Environment => sk_kind parsed <> lit "global_pricing"
  end.

Definition well_placed (key : bytes) : Prop :=
  match resolve ps key with ROk parsed => own_table parsed | RErr _ => True end.

Definition place_of (key : bytes) : option (bytes * bytes) :=
  match resolve ps key with ROk parsed => Some (table_kind parsed, sk_id parsed) | RErr _ => None end.

Lemma place_inj key key' place :
  well_placed key -> well_placed key' -> place_of key = Some place -> place_of key' = Some place -> key = key'.
Proof.
  unfold well_placed, place_of. destruct (resolve ps key) as [p|] eqn:E; [|done].
  destruct (resolve ps key') as [p'|] eqn:E'; [|done]. intros Hp Hp' [= <-] [= Hk Hi].
  assert (p = p') as <-; [|by apply (resolve_inj l key key' p)].
  unfold own_table, table_kind in *. destruct p as [[] k i], p' as [[] k' i']; simpl in *; subst; try done.
Qed.

Lemma load_place e place row : load_of ps e = Some (place, row) -> place_of (raw_key e) = Some place /\ place.1 ∈ TABLES.
Proof.
  intros H. destruct (load_of_place ps e place row H) as (parsed & Hr & -> & Hg & Hk). unfold place_of. rewrite Hr.
  split; [done|]. by apply table_kind_in.
Qed.

Lemma loads_spec e : loads ps e = true <-> exists place row, load_of ps e = Some (place, row).
Proof.
  unfold loads. rewrite bool_decide_eq_true. split; [intros [[place row] ->]; eauto|intros (place & row & ->); eauto].
Qed.

(** ** What a key serves from *)

Definition serving (s : Supervisor) (key : bytes) : option RawEntry :=
  match stale_serving s !! key with
  | Some pin => Some (stale_entry pin)
  | None => if bool_decide (key ∈ rejected_keys s) then None else fst <$> obs_rows (state s) !! key
  end.

(** The rows that serve are those of the serving entries. *)
Definition rows_of (m : bytes -> option RawEntry) (rows : Tables) : Prop :=
  forall place row, rows !! place = Some row <-> exists key e, m key = Some e /\ load_of ps e = Some (place, row).

Record sup_ok (s : Supervisor) : Prop := {
  so_placed : forall key row, obs_rows (state s) !! key = Some row -> well_placed key;
  so_keyed : forall key e r, obs_rows (state s) !! key = Some (e, r) -> raw_key e = key /\ r = raw_record e;
  so_rejected : forall key, key ∈ rejected_keys s <->
    exists e r, obs_rows (state s) !! key = Some (e, r) /\ loads ps e = false;
  so_pinned : forall key pin, stale_serving s !! key = Some pin ->
    key ∈ rejected_keys s /\ raw_key (stale_entry pin) = key /\ loads ps (stale_entry pin) = true;
  so_served : rows_of (serving s) (served s);
}.

Lemma serving_new key : serving supervisor_new key = None.
Proof.
  unfold serving, obs_rows. simpl. rewrite !lookup_empty, fmap_empty, lookup_empty. by case_bool_decide.
Qed.

Lemma sup_ok_new : sup_ok supervisor_new.
Proof.
  split; simpl; unfold obs_rows; simpl.
  - intros key row. by rewrite fmap_empty, lookup_empty.
  - intros key e r. by rewrite fmap_empty, lookup_empty.
  - intros key. rewrite fmap_empty. split; [set_solver|]. intros (e & r & H & _). by rewrite lookup_empty in H.
  - intros key pin. by rewrite lookup_empty.
  - intros place row. rewrite lookup_empty. split; [done|]. intros (key & e & H & _).
    by rewrite serving_new in H.
Qed.

(** The invariant is of the core and the rows. *)
Lemma sup_ok_core s s' : same_core s s' -> served s = served s' -> sup_ok s -> sup_ok s'.
Proof.
  intros [Hr Hv Hf Hj Hk Hp Hs] E [H1 H2 H3 H4 H5].
  assert (forall key, serving s' key = serving s key) as Hse by (intros key; unfold serving; by rewrite <- Hs, <- Hk, <- Hr).
  split; rewrite <- ?Hr, <- ?Hk, <- ?Hs, <- ?E; try done.
  intros place row. rewrite (H5 place row). by setoid_rewrite Hse.
Qed.

Lemma serving_core s s' key : same_core s s' -> serving s key = serving s' key.
Proof. intros [Hr Hv Hf Hj Hk Hp Hs]. unfold serving. by rewrite Hs, Hk, Hr. Qed.

Section ok.
Context (s : Supervisor) (Hok : sup_ok s).

Lemma serving_ok key e : serving s key = Some e -> raw_key e = key /\ loads ps e = true /\ well_placed key.
Proof.
  unfold serving. destruct (stale_serving s !! key) as [pin|] eqn:Es.
  - intros [= <-]. destruct (so_pinned s Hok _ _ Es) as (Hr & Hk & Hl).
    apply (so_rejected s Hok) in Hr as (e & r & Hr & _). split_and!; [done|done|]. by eapply so_placed.
  - case_bool_decide as Hr; [done|]. destruct (obs_rows (state s) !! key) as [[e' r]|] eqn:Eo; [|done].
    intros [= <-]. destruct (so_keyed s Hok _ _ _ Eo) as [Hk _]. split_and!; [done| |by eapply so_placed].
    destruct (loads ps e') eqn:El; [done|]. destruct Hr. apply (so_rejected s Hok). eauto.
Qed.

(** A place serves exactly when its key does. *)
Lemma served_place key place :
  well_placed key -> place_of key = Some place -> served s !! place = serving s key ≫= row_at ps place.
Proof.
  intros Hw Hp. destruct (served s !! place) as [row|] eqn:E.
  - apply (so_served s Hok) in E as (key' & e & Hs & Hl). destruct (serving_ok _ _ Hs) as (Hk & _ & Hw').
    destruct (load_place _ _ _ Hl) as [Hp' _]. rewrite Hk in Hp'.
    rewrite (place_inj key key' place), Hs by done. simpl. unfold row_at. by rewrite Hl, decide_True.
  - destruct (serving s key) as [e|] eqn:Hs; [|done]. simpl. unfold row_at.
    destruct (load_of ps e) as [[p row]|] eqn:Hl; [|done]. case_decide as Ep; [subst p|done].
    assert (served s !! place = Some row) as H; [|congruence]. apply (so_served s Hok). eauto.
Qed.

Lemma has_place key parsed :
  well_placed key -> resolve ps key = ROk parsed ->
  snapshot_has (served s) (table_kind parsed) (sk_id parsed) = bool_decide (is_Some (serving s key)).
Proof.
  intros Hw Hr. assert (place_of key = Some (table_kind parsed, sk_id parsed)) as Hp by (unfold place_of; by rewrite Hr).
  unfold snapshot_has. rewrite (served_place key _ Hw Hp). destruct (serving s key) as [e|] eqn:Es; simpl.
  - destruct (serving_ok _ _ Es) as (Hk & (place & row & Hl)%loads_spec & _).
    destruct (load_place _ _ _ Hl) as [Hp' Ht]. rewrite Hk, Hp in Hp'. injection Hp' as <-.
    unfold row_at. rewrite Hl, decide_True by done. by rewrite !bool_decide_true.
  - by rewrite andb_false_r.
Qed.

(** What capturing pins is what serves. *)
Lemma capture_serving key :
  well_placed key ->
  let s' := capture_last_good ps now (served s) key (mkView ∅ ∅) s in
  stale_entry <$> stale_serving s' !! key = serving s key /\
  (forall k, k <> key -> stale_serving s' !! k = stale_serving s !! k) /\
  obs_rows (state s') = obs_rows (state s) /\ rejected_keys s' = rejected_keys s.
Proof.
  intros Hw. cbv zeta. unfold capture_last_good. destruct (stale_serving s !! key) as [pin|] eqn:Es.
  { simpl. unfold serving. rewrite Es. done. }
  destruct (resolve ps key) as [parsed|] eqn:Er.
  - pose proof (seen_new (served s) (table_kind parsed) (sk_id parsed)) as Hp.
    rewrite (has_place key parsed Hw Er) in Hp. rewrite Hp. clear Hp. case_bool_decide as Hs.
    + destruct Hs as [e Hs]. rewrite Hs. pose proof Hs as Hs'. unfold serving in Hs'. rewrite Es in Hs'.
      case_bool_decide; [done|]. rewrite obs_rows_lookup in Hs'. destruct (observed (state s) !! key) as [row|]; [|done].
      injection Hs' as ->. simpl. rewrite lookup_insert_eq. split_and!; try done.
      intros k Hne. by rewrite lookup_insert_ne.
    + rewrite Es. split_and!; try done. destruct (serving s key); [by destruct Hs|done].
  - rewrite Es. split_and!; try done. destruct (serving s key) as [good|] eqn:Hs; [|done]. exfalso.
    destruct (serving_ok _ _ Hs) as (Hk & (place & row & Hl)%loads_spec & _).
    destruct (load_place _ _ _ Hl) as [Hp _]. unfold place_of in Hp. by rewrite Hk, Er in Hp.
Qed.
End ok.

(** ** Events

    What each key serves from, under each operation. *)

Definition good_event (event : PendingEvent) (m : gmap bytes RawEntry) : gmap bytes RawEntry :=
  match event with
  | Put e => if loads ps e then <[raw_key e := e]> m else m
  | Delete key _ => delete key m
  end.

Definition event_key (event : PendingEvent) : bytes :=
  match event with Put e => raw_key e | Delete key _ => key end.

Definition implements (s : Supervisor) (m : gmap bytes RawEntry) : Prop :=
  sup_ok s /\ forall key, serving s key = m !! key.

Lemma rows_update s s' key :
  sup_ok s -> well_placed key ->
  (forall k, k <> key -> serving s' k = serving s k) ->
  (forall e, serving s' key = Some e -> raw_key e = key) ->
  (forall place, served s' !! place =
     if decide (place_of key = Some place) then serving s' key ≫= row_at ps place else served s !! place) ->
  rows_of (serving s') (served s').
Proof.
  intros Hok Hw Hne Hkey Hs place row. rewrite Hs. case_decide as Hp.
  - split.
    + destruct (serving s' key) as [e|] eqn:Es; [|done]. simpl. unfold row_at.
      destruct (load_of ps e) as [[p r]|] eqn:Hl; [|done]. case_decide; [|done]. intros [= ->]. subst. eauto.
    + intros (k & e & Hk & Hl). destruct (load_place _ _ _ Hl) as [Hp' _].
      destruct (decide (k = key)) as [-> |Hn].
      * rewrite Hk. simpl. unfold row_at. by rewrite Hl, decide_True.
      * rewrite Hne in Hk by done. destruct (serving_ok s Hok _ _ Hk) as (Hk' & _ & Hw'). subst k.
        destruct Hn. by apply (place_inj _ _ place).
  - rewrite (so_served s Hok place row). split; intros (k & e & Hk & Hl); exists k, e; (split; [|done]);
      destruct (load_place _ _ _ Hl) as [Hp' _]; destruct (decide (k = key)) as [-> |Hn].
    + destruct (serving_ok s Hok _ _ Hk) as (Hk' & _). congruence.
    + by rewrite Hne.
    + specialize (Hkey _ Hk). congruence.
    + by rewrite <- Hne.
Qed.

(** A put, whatever it leaves pinned. *)
Lemma put_ok s s' e :
  sup_ok s -> well_placed (raw_key e) ->
  obs_rows (state s') = <[raw_key e := (e, raw_record e)]> (obs_rows (state s)) ->
  (forall k, k ∈ rejected_keys s' <-> if decide (k = raw_key e) then loads ps e = false else k ∈ rejected_keys s) ->
  (forall k, k <> raw_key e -> stale_serving s' !! k = stale_serving s !! k) ->
  (stale_entry <$> stale_serving s' !! raw_key e = if loads ps e then None else serving s (raw_key e)) ->
  served s' = inserted ps (served s) e ->
  sup_ok s' /\ (forall k, serving s' k = if decide (k = raw_key e) then
                                          (if loads ps e then Some e else serving s k) else serving s k).
Proof.
  intros Hok Hw Ho Hr Hs Hpin Hsv.
  assert (forall k, serving s' k = if decide (k = raw_key e) then
            (if loads ps e then Some e else serving s k) else serving s k) as Hse.
  { intros k. unfold serving at 1. specialize (Hr k). case_decide as Ek; [subst k|].
    - rewrite Ho, lookup_insert_eq. destruct (stale_serving s' !! raw_key e) as [pin|]; simpl in Hpin.
      + destruct (loads ps e); [done|by rewrite <- Hpin].
      + destruct (loads ps e); [by rewrite bool_decide_false by (by rewrite Hr)|].
        rewrite bool_decide_true; [done|by apply Hr].
    - rewrite Hs, Ho, lookup_insert_ne by done. unfold serving. destruct (stale_serving s !! k); [done|].
      by rewrite (bool_decide_ext _ _ Hr). }
  split; [|done]. split.
  - intros key row. rewrite Ho. destruct (decide (key = raw_key e)) as [-> |Hn]; [done|].
    rewrite lookup_insert_ne by done. by apply so_placed.
  - intros key e' r. rewrite Ho. destruct (decide (key = raw_key e)) as [-> |Hn].
    + rewrite lookup_insert_eq. by intros [= <- <-].
    + rewrite lookup_insert_ne by done. by apply so_keyed.
  - intros key. rewrite Hr, Ho. case_decide as Hn.
    + subst. rewrite lookup_insert_eq. split; [eauto|by intros (e' & r & [= <- <-] & ?)].
    + rewrite lookup_insert_ne by done. by apply so_rejected.
  - intros key pin Hp. rewrite Hr. case_decide as Hn.
    + subst. rewrite Hp in Hpin. simpl in Hpin. destruct (loads ps e); [done|].
      symmetry in Hpin. split; [done|]. destruct (serving_ok s Hok _ _ Hpin) as (? & ? & _). done.
    + rewrite Hs in Hp by done. by apply (so_pinned s Hok).
  - apply (rows_update s s' (raw_key e) Hok Hw).
    + intros k Hn. by rewrite Hse, decide_False.
    + intros e' He. rewrite Hse, decide_True in He by done. destruct (loads ps e); [congruence|].
      by destruct (serving_ok s Hok _ _ He).
    + intros place. rewrite Hsv, inserted_lookup, Hse, (decide_True (P := raw_key e = raw_key e)) by done.
      case_decide as Hp.
      * rewrite (served_place s Hok _ _ Hw Hp). unfold row_at. destruct (loads ps e) eqn:El.
        -- apply loads_spec in El as (p & row & Hl). rewrite Hl. destruct (load_place _ _ _ Hl) as [Hp' _].
           rewrite Hp in Hp'. injection Hp' as <-. simpl. by rewrite Hl, decide_True.
        -- destruct (load_of ps e) as [[p row]|] eqn:Hl; [|done].
           assert (loads ps e = true) by (apply loads_spec; eauto). congruence.
      * unfold row_at. destruct (load_of ps e) as [[p row]|] eqn:Hl; [|done]. case_decide; [|done]. subst p.
        by destruct (load_place _ _ _ Hl).
Qed.

Lemma update_partial_fields key row s : exists m, update_partial_row key row s = set_partial m s.
Proof.
  unfold update_partial_row. destruct row; [case_match|]; eauto.
  exists (partial_compat s). by destruct s.
Qed.

Lemma put_accepted_fields s e :
  exists m, put_accepted ps e s =
    store_observed e (set_partial m (set_stale (delete (raw_key e) (stale_serving s))
                                       (snd (remove_rejection_for_key (raw_key e) s)))).
Proof.
  unfold put_accepted. cbv zeta.
  match goal with |- context [update_partial_row ?k ?r ?x] => destruct (update_partial_fields k r x) as [m ->] end.
  by exists m.
Qed.

Lemma put_accepted_ok s e :
  sup_ok s -> well_placed (raw_key e) -> loads ps e = true ->
  let s' := set_served (inserted ps (served s) e) (put_accepted ps e s) in
  sup_ok s' /\ forall k, serving s' k = if decide (k = raw_key e) then Some e else serving s k.
Proof.
  intros Hok Hw Hl. destruct (put_accepted_fields s e) as [m ->].
  cbv zeta. match goal with |- sup_ok ?x /\ _ => pose proof (put_ok s x e Hok Hw) as H end.
  rewrite Hl in H. destruct H as [H1 H2]; simpl.
  - apply observed_insert_rows.
  - intros k. case_decide; set_solver.
  - intros k Hn. by rewrite lookup_delete_ne.
  - by rewrite lookup_delete_eq.
  - done.
  - split; [done|]. intros k. rewrite H2. by case_decide.
Qed.

Lemma put_rejected_ok s e :
  sup_ok s -> well_placed (raw_key e) -> loads ps e = false ->
  let s' := put_rejected ps now (served s) e (mkView ∅ ∅) s in
  sup_ok (set_served (served s) s') /\ forall k, serving (set_served (served s) s') k = serving s k.
Proof.
  intros Hok Hw Hl. destruct (capture_serving s Hok (raw_key e) Hw) as (Hc & Hcn & Hco & Hcr).
  unfold put_rejected. set (s1 := capture_last_good _ _ _ _ _ _) in *. cbv zeta.
  pose proof (load_entry_row ps e stats_default) as Hrow. rewrite Hl in Hrow.
  destruct Hrow as (_ & _ & [k ->] & _). simpl.
  match goal with |- sup_ok ?x /\ _ => pose proof (put_ok s x e Hok Hw) as H end.
  rewrite Hl in H. destruct H as [H1 H2]; simpl.
  - rewrite <- Hco. apply observed_insert_rows.
  - intros k'. rewrite Hcr. case_decide; set_solver.
  - done.
  - done.
  - unfold inserted. destruct (load_of ps e) as [[p row]|] eqn:E; [|done].
    assert (loads ps e = true) by (apply loads_spec; eauto). congruence.
  - split; [done|]. intros k'. rewrite H2. by case_decide.
Qed.

Lemma del_state_fields key s :
  exists m, del_state key s =
    set_stale (delete key (stale_serving s)) (set_partial m (snd (remove_rejection_for_key key s))).
Proof.
  unfold del_state. destruct (update_partial_fields key None (snd (remove_rejection_for_key key s))) as [m ->].
  by exists m.
Qed.

Lemma delete_ok s key :
  sup_ok s -> well_placed key ->
  let s' := set_state (snd (observed_remove key (state (del_state key s)))) (del_state key s) in
  let s' := set_served (match place_of key with Some place => delete place (served s) | None => served s end) s' in
  sup_ok s' /\ forall k, serving s' k = if decide (k = key) then None else serving s k.
Proof.
  intros Hok Hw. cbv zeta. destruct (del_state_fields key s) as [m ->]. simpl.
  set (s' := set_served _ _).
  destruct (observed_remove_rows key (state s)) as (Ho & _ & _).
  assert (obs_rows (state s') = delete key (obs_rows (state s))) as Ho' by done. clear Ho.
  assert (rejected_keys s' = rejected_keys s ∖ {[key]}) as Hr by done.
  assert (stale_serving s' = delete key (stale_serving s)) as Hs by done.
  assert (forall k, serving s' k = if decide (k = key) then None else serving s k) as Hse.
  { intros k. unfold serving. rewrite Ho', Hr, Hs. case_decide as E.
    - subst. rewrite !lookup_delete_eq. by case_bool_decide.
    - rewrite !lookup_delete_ne by done. destruct (stale_serving s !! k); [done|].
      by rewrite (bool_decide_ext (k ∈ _ ∖ _) (k ∈ rejected_keys s)) by set_solver. }
  split; [|done]. split.
  - intros k row. rewrite Ho', lookup_delete_Some. intros [_ Hk]. by eapply (so_placed s Hok).
  - intros k e r. rewrite Ho', lookup_delete_Some. intros [_ Hk]. by apply (so_keyed s Hok).
  - intros k. rewrite Ho', Hr, elem_of_difference, (so_rejected s Hok). setoid_rewrite lookup_delete_Some. set_solver.
  - intros k pin. rewrite Hs, Hr, lookup_delete_Some. intros [Hn Hk]. destruct (so_pinned s Hok _ _ Hk). set_solver.
  - apply (rows_update s s' key Hok Hw).
    + intros k Hn. by rewrite Hse, decide_False.
    + intros e. by rewrite Hse, decide_True.
    + intros place. rewrite (Hse key), (decide_True (P := key = key)) by done. unfold s'. simpl.
      destruct (place_of key) as [p|]; [|by rewrite decide_False].
      case_decide as E; [injection E as ->; by rewrite lookup_delete_eq|by rewrite lookup_delete_ne by congruence].
Qed.

Lemma commit_implements s (b : Batch) m rows :
  sup_ok (set_served rows (sup b)) -> (forall key, serving (set_served rows (sup b)) key = m !! key) ->
  served (sup b) = served s -> fold_left apply_to (mutations b) (served s) = rows ->
  implements (commit b) m.
Proof.
  intros Hok Hs Hsv Hr. destruct (commit_spec b) as (Hc & Hrows & _). rewrite Hsv, Hr in Hrows.
  assert (same_core (set_served rows (sup b)) (commit b)) as Hc'.
  { transitivity (sup b); [by split|by symmetry]. }
  split; [by apply (sup_ok_core _ _ Hc')|]. intros key. by rewrite <- (serving_core _ _ key Hc').
Qed.

Lemma put_implements s e m :
  implements s m -> well_placed (raw_key e) ->
  implements (snd (apply_events ps now [Put e] s)) (good_event (Put e) m).
Proof.
  intros [Hok Hm] Hw. pose proof (stage_published ps now (served s) (Put e) (batch_new s)) as [= Hpub _].
  unfold apply_events. simpl in *. rewrite stage_put_eq in *. destruct (loads ps e) eqn:Hl; simpl.
  - destruct (put_accepted_ok s e Hok Hw Hl) as [H1 H2].
    apply (commit_implements s _ _ (inserted ps (served s) e)); [exact H1|..].
    + intros key. rewrite H2. case_decide; [subst; by rewrite lookup_insert_eq|by rewrite lookup_insert_ne].
    + done.
    + simpl. unfold merge_snapshot. apply inserted_union.
  - destruct (put_rejected_ok s e Hok Hw Hl) as [H1 H2].
    apply (commit_implements s _ _ (served s)); [exact H1|..].
    + intros key. by rewrite H2.
    + done.
    + done.
Qed.

Lemma delete_implements s key rev m :
  implements s m -> well_placed key ->
  implements (snd (apply_events ps now [Delete key rev] s)) (good_event (Delete key rev) m).
Proof.
  intros [Hok Hm] Hw. unfold apply_events. simpl.
  pose proof (stage_published ps now (served s) (Delete key rev) (batch_new s)) as Hpub. simpl in Hpub.
  rewrite stage_delete_eq in *.
  assert (forall rows b0, sup_ok (set_served rows (sup b0)) ->
            (forall k, serving (set_served rows (sup b0)) k = if decide (k = key) then None else serving s k) ->
            published (sup (raise_revision_floor rev b0)) = published s ->
            fold_left apply_to (mutations b0) (served s) = rows ->
            implements (commit (raise_revision_floor rev b0)) (delete key m)) as Hfin.
  { intros rows b0 H1 H2 [= H3 _] H4. apply (commit_implements s _ _ rows).
    - destruct rev as [r|]; [|done]. simpl. destruct H1 as [P1 P2 P3 P4 P5]. split; [exact P1|exact P2|exact P3|exact P4|exact P5].
    - intros k. transitivity (serving (set_served rows (sup b0)) k); [by destruct rev|].
      rewrite H2, Hm. case_decide; [subst; by rewrite lookup_delete_eq|by rewrite lookup_delete_ne].
    - done.
    - by destruct rev. }
  destruct (resolve ps key) as [parsed|] eqn:Er.
  - assert (place_of key = Some (table_kind parsed, sk_id parsed)) as Hp by (unfold place_of; by rewrite Er).
    destruct (delete_ok s key Hok Hw) as [H1 H2]. rewrite Hp in H1, H2.
    pose proof (seen_new (served s) (table_kind parsed) (sk_id parsed)) as Hseen.
    rewrite (has_place s Hok key parsed Hw Er) in Hseen.
    pose proof (served_place s Hok key _ Hw Hp) as Hsp.
    unfold delete_staged in *. simpl in *. rewrite Hseen in *.
    destruct (observed_remove key (state s)) as [gone st']. cbn [snd] in H1, H2.
    case_bool_decide as Hs.
    + apply (Hfin (delete (table_kind parsed, sk_id parsed) (served s))); [exact H1|exact H2|exact Hpub|].
      simpl. unfold remove_from_snapshot. rewrite bool_decide_true; [done|].
      destruct Hs as [e Hs]. destruct (serving_ok s Hok _ _ Hs) as (Hk & (place & row & Hl)%loads_spec & _).
      destruct (load_place _ _ _ Hl) as [Hp' Ht]. rewrite Hk, Hp in Hp'. by injection Hp' as <-.
    + assert (delete (table_kind parsed, sk_id parsed) (served s) = served s) as Hd.
      { apply delete_id. rewrite Hsp. by destruct (serving s key); [destruct Hs|]. }
      rewrite Hd in H1, H2. destruct (_ || _); by apply (Hfin (served s)).
  - apply (Hfin (served s)).
    + apply (sup_ok_core s); [by split|done|done].
    + intros k. case_decide as Ek; [|done]. subst k. change (serving s key = None).
      destruct (serving s key) as [good|] eqn:Hs; [|done].
      destruct (serving_ok s Hok _ _ Hs) as (Hk & (place & row & Hl)%loads_spec & _).
      destruct (load_place _ _ _ Hl) as [Hp _]. unfold place_of in Hp. by rewrite Hk, Er in Hp.
    + done.
    + done.
Qed.

Lemma events_implement events s m :
  implements s m -> (forall ev, ev ∈ events -> well_placed (event_key ev)) ->
  implements (snd (apply_events ps now events s)) (foldl (fun m ev => good_event ev m) m events).
Proof.
  intros H Hw. assert (implements (snd (apply_each ps now events s)) (foldl (fun m ev => good_event ev m) m events)) as Heach.
  { revert s m H. induction events as [|ev events IH]; intros s m H; simpl; [done|].
    destruct (apply_events ps now [ev] s) as [o s1] eqn:E.
    specialize (IH (fun ev' Hin => Hw ev' (list_elem_of_further _ _ _ Hin)) s1 (good_event ev m)).
    destruct (apply_each ps now events s1) as [os s2]. apply IH.
    replace s1 with (snd (apply_events ps now [ev] s)) by (by rewrite E).
    specialize (Hw ev (list_elem_of_here _ _)). destruct ev; [by apply put_implements|by apply delete_implements]. }
  destruct (apply_events_each ps now events s) as [_ (Hc & Hs & _)]. destruct Heach as [Hok Hse]. split.
  - apply (sup_ok_core _ _ (symmetry Hc)); [by symmetry|done].
  - intros key. by rewrite (serving_core _ _ key Hc).
Qed.

(** ** Resync *)

Definition incoming (entries : list RawEntry) : gmap bytes RawEntry :=
  list_to_map ((fun e => (raw_key e, e)) <$> entries).

Definition good_resync (entries : list RawEntry) (m : gmap bytes RawEntry) : gmap bytes RawEntry :=
  map_imap (fun key e => if loads ps e then Some e else m !! key) (incoming entries).

(** What a resync may count on: the pins, and what it would pin, are what serves. *)
Definition capture (s : Supervisor) (key : bytes) : option StaleServing :=
  match resolve ps key with
  | RErr _ => None
  | ROk parsed =>
      if snapshot_has (served s) (table_kind parsed) (sk_id parsed)
      then (fun good => mkStale (se_entry good) now) <$> observed (state s) !! key
      else None
  end.

Record resync_ready (s : Supervisor) (m : gmap bytes RawEntry) : Prop := {
  rr_pinned : forall key pin, stale_serving s !! key = Some pin -> m !! key = Some (stale_entry pin);
  rr_capture : forall key, well_placed key -> stale_serving s !! key = None ->
    stale_entry <$> capture s key = m !! key;
  rr_good : forall key e, m !! key = Some e -> raw_key e = key /\ loads ps e = true;
}.

Lemma implements_ready s m : implements s m -> resync_ready s m.
Proof.
  intros [Hok Hm]. split.
  - intros key pin Hp. rewrite <- Hm. unfold serving. by rewrite Hp.
  - intros key Hw Hp. rewrite <- Hm. unfold capture. destruct (resolve ps key) as [parsed|] eqn:Er.
    + rewrite (has_place s Hok key parsed Hw Er). case_bool_decide as Hs.
      * destruct Hs as [e Hs]. pose proof Hs as Hs'. unfold serving in Hs'. rewrite Hp in Hs'.
        case_bool_decide; [done|]. rewrite obs_rows_lookup in Hs'. rewrite Hs.
        destruct (observed (state s) !! key) as [row|]; [|done]. simpl in *. congruence.
      * by destruct (serving s key); [destruct Hs|].
    + destruct (serving s key) as [good|] eqn:Hs; [|done].
      destruct (serving_ok s Hok _ _ Hs) as (Hk & (place & row & Hl)%loads_spec & _).
      destruct (load_place _ _ _ Hl) as [Hp' _]. unfold place_of in Hp'. by rewrite Hk, Er in Hp'.
  - intros key e He. rewrite <- Hm in He. by destruct (serving_ok s Hok _ _ He) as (? & ? & _).
Qed.

Lemma retain_fold (step : gmap bytes StaleServing -> RejectedEntry -> gmap bytes StaleServing)
    (cap : bytes -> option StaleServing) rejected kept key :
  (forall stale r k, step stale r !! k =
     or_else (stale !! k) (if decide (k = rej_key r) then cap k else None)) ->
  foldl step kept rejected !! key =
    or_else (kept !! key) (if decide (key ∈ rej_key <$> rejected) then cap key else None).
Proof.
  intros Hstep. revert kept. induction rejected as [|r rejected IH]; intros kept; cbn [foldl].
  - rewrite decide_False by (by intros ?%elem_of_nil). by destruct (kept !! key).
  - rewrite IH, Hstep, fmap_cons. destruct (kept !! key); simpl; [done|].
    destruct (decide (key = rej_key r)) as [E|E]; simpl.
    + rewrite (decide_True (P := key ∈ rej_key r :: (rej_key <$> rejected))) by (rewrite E; by left). destruct (cap key); simpl; [done|]. by case_decide.
    + apply decide_ext. rewrite elem_of_cons. tauto.
Qed.

Lemma retain_lookup entries rejected s m key :
  resync_ready s m -> (key ∈ rej_key <$> rejected -> key ∈ raw_key <$> entries /\ well_placed key) ->
  stale_entry <$> retain_stale ps now entries rejected s !! key =
    if decide (key ∈ rej_key <$> rejected) then m !! key else None.
Proof.
  intros [Hp Hc Hg] Hin. unfold retain_stale. rewrite (retain_fold _ (capture s)).
  - rewrite map_lookup_filter. simpl. destruct (stale_serving s !! key) as [pin|] eqn:Es; simpl.
    + rewrite option_guard_decide. destruct (decide (key ∈ rej_key <$> rejected)) as [Hr|Hr].
      * rewrite decide_True by (by rewrite !bool_decide_true by (done || by apply Hin)). simpl. by rewrite (Hp _ _ Es).
      * rewrite decide_False; [done|]. rewrite (bool_decide_false (key ∈ rej_key <$> rejected)) by done.
        rewrite andb_false_r. exact id.
    + case_decide as Hr; [|done]. apply Hc; [by apply Hin|done].
  - intros stale r k. unfold capture. destruct (decide (k = rej_key r)) as [-> |Hne].
    + destruct (stale !! rej_key r) eqn:Ek; simpl; [done|]. destruct (resolve ps (rej_key r)); [|done].
      case_match; [|done]. destruct (observed (state s) !! rej_key r); simpl; [by rewrite lookup_insert_eq|done].
    + transitivity (stale !! k); [|by destruct (stale !! k)].
      destruct (stale !! rej_key r); [done|]. destruct (resolve ps (rej_key r)); [|done].
      case_match; [|done]. destruct (observed (state s) !! rej_key r); [by rewrite lookup_insert_ne|done].
Qed.

Lemma reconcile_rows entries st :
  NoDup (raw_key <$> entries) ->
  obs_rows (reconcile entries st) = (fun e => (e, raw_record e)) <$> incoming entries.
Proof.
  intros Hn. unfold reconcile. set (departed := List.filter _ _).
  assert (forall ks st k, obs_rows (foldl (fun st key => snd (observed_remove key st)) st ks) !! k =
            if decide (k ∈ ks) then None else obs_rows st !! k) as Hrem.
  { clear. induction ks as [|key ks IH]; intros st k; cbn [foldl]; [by rewrite decide_False by (by intros ?%elem_of_nil)|].
    rewrite IH, (proj1 (observed_remove_rows key st)). destruct (decide (k = key)) as [-> |Hne].
    - rewrite lookup_delete_eq, (decide_True (P := key ∈ key :: ks)) by (by left). by case_decide.
    - rewrite lookup_delete_ne by done. apply decide_ext. rewrite elem_of_cons. tauto. }
  assert (forall st k, obs_rows (foldl (fun st e => observed_insert e st) st entries) !! k =
            or_else ((fun e => (e, raw_record e)) <$> incoming entries !! k) (obs_rows st !! k)) as Hins.
  { clear - Hn. unfold incoming. induction entries as [|e entries IH]; intros st k; simpl; [done|].
    rewrite fmap_cons, NoDup_cons in Hn. destruct Hn as [Hk Hn].
    rewrite (IH Hn), (proj1 (observed_insert_rows e st)). destruct (decide (k = raw_key e)) as [-> |Hne].
    - rewrite !lookup_insert_eq, (not_elem_of_list_to_map_1 _ (raw_key e)); [done|].
      rewrite <- list_fmap_compose. done.
    - by rewrite !lookup_insert_ne. }
  apply map_eq. intros k. rewrite Hins, lookup_fmap, Hrem. destruct (incoming entries !! k) as [e|] eqn:E; [done|]. simpl.
  case_decide as Hd; [done|]. destruct (obs_rows st !! k) as [row|] eqn:Eo; [|done]. destruct Hd.
  unfold departed. apply list_elem_of_In, filter_In. split.
  - apply list_elem_of_In. rewrite obs_rows_lookup in Eo. destruct (observed st !! k) as [r|] eqn:Er; [|done].
    apply list_elem_of_fmap. exists (k, r). split; [done|]. by apply elem_of_map_to_list.
  - rewrite bool_decide_false; [done|]. rewrite elem_of_list_to_set. intros (e & -> & He)%list_elem_of_fmap.
    apply not_elem_of_list_to_map_2 in E. apply E. rewrite <- list_fmap_compose.
    by apply (list_elem_of_fmap_2 raw_key).
Qed.

Lemma incoming_lookup entries key e :
  NoDup (raw_key <$> entries) -> incoming entries !! key = Some e <-> e ∈ entries /\ raw_key e = key.
Proof.
  intros Hn. unfold incoming. rewrite <- elem_of_list_to_map.
  - rewrite list_elem_of_fmap. split; [by intros (e' & [= -> ->] & ?)|intros [? <-]; eauto].
  - by rewrite <- list_fmap_compose.
Qed.

(** With a key each, the rows built are those of the entries that load. *)
Lemma built_spec entries :
  NoDup (raw_key <$> entries) -> (forall e, e ∈ entries -> well_placed (raw_key e)) ->
  forall place row, foldl (inserted ps) ∅ entries !! place = Some row <->
    exists e, e ∈ entries /\ load_of ps e = Some (place, row).
Proof.
  intros Hn Hw place row. rewrite build_lookup. split.
  - intros H%last_Some_elem_of. apply list_elem_of_omap in H as (e & He & Hr). exists e. split; [done|].
    unfold row_at in Hr. destruct (load_of ps e) as [[p r]|]; [|done]. case_decide; [|done]. congruence.
  - intros (e & He & Hl). destruct (last (omap (row_at ps place) entries)) as [row'|] eqn:E.
    + apply last_Some_elem_of, list_elem_of_omap in E as (e' & He' & Hr). unfold row_at in Hr.
      destruct (load_of ps e') as [[p r]|] eqn:Hl'; [|done]. case_decide; [|done]. simplify_eq.
      destruct (load_place _ _ _ Hl) as [Hp _], (load_place _ _ _ Hl') as [Hp' _].
      pose proof (place_inj _ _ _ (Hw _ He) (Hw _ He') Hp Hp') as Hk.
      assert (incoming entries !! raw_key e = Some e) as E1 by (by apply incoming_lookup).
      assert (incoming entries !! raw_key e = Some e') as E2 by (by apply incoming_lookup). congruence.
    + apply last_None in E. assert (row ∈ omap (row_at ps place) entries) as H; [|rewrite E in H; by apply elem_of_nil in H].
      apply list_elem_of_omap. exists e. split; [done|]. unfold row_at. by rewrite Hl, decide_True.
Qed.

Lemma resync_serving entries m s' :
  obs_rows (state s') = (fun e => (e, raw_record e)) <$> incoming entries ->
  (forall key, key ∈ rejected_keys s' <-> exists e, incoming entries !! key = Some e /\ loads ps e = false) ->
  (forall key, stale_entry <$> stale_serving s' !! key = if decide (key ∈ rejected_keys s') then m !! key else None) ->
  forall key, serving s' key = good_resync entries m !! key.
Proof.
  intros Ho Hr Hs key. unfold good_resync. rewrite map_lookup_imap. unfold serving. rewrite Ho, lookup_fmap.
  specialize (Hs key). destruct (incoming entries !! key) as [e|] eqn:E; simpl.
  - destruct (loads ps e) eqn:El.
    + assert (key ∉ rejected_keys s') as Hn by (rewrite Hr; intros (e' & ? & ?); congruence).
      rewrite decide_False in Hs by done. destruct (stale_serving s' !! key); [done|]. by rewrite bool_decide_false.
    + assert (key ∈ rejected_keys s') as Hn by (rewrite Hr; eauto).
      rewrite decide_True in Hs by done. rewrite <- Hs. destruct (stale_serving s' !! key); [done|]. by rewrite bool_decide_true.
  - assert (key ∉ rejected_keys s') as Hn by (rewrite Hr; intros (e' & ? & ?); congruence).
    rewrite decide_False in Hs by done. destruct (stale_serving s' !! key); [done|]. by case_bool_decide.
Qed.

Definition pins (stale : gmap bytes StaleServing) : list RawEntry := stale_entry <$> (map_to_list stale).*2.

Lemma elem_of_pins stale e : e ∈ pins stale <-> exists key pin, stale !! key = Some pin /\ stale_entry pin = e.
Proof.
  unfold pins. rewrite list_elem_of_fmap. split.
  - intros (pin & -> & ([key p] & -> & Hp%elem_of_map_to_list)%list_elem_of_fmap). eauto.
  - intros (key & pin & Hp & <-). exists pin. split; [done|]. apply list_elem_of_fmap. exists (key, pin).
    split; [done|]. by apply elem_of_map_to_list.
Qed.

Lemma pins_keys stale :
  (forall key pin, stale !! key = Some pin -> raw_key (stale_entry pin) = key) -> NoDup (raw_key <$> pins stale).
Proof.
  intros Hk. unfold pins. rewrite <- !list_fmap_compose.
  assert (raw_key ∘ stale_entry ∘ snd <$> map_to_list stale = fst <$> map_to_list stale) as ->;
    [|apply NoDup_fst_map_to_list].
  apply list_fmap_ext. intros i [key pin] Hi. simpl. apply Hk. apply elem_of_map_to_list.
  by eapply list_elem_of_lookup_2.
Qed.

Lemma resync_ok entries m s' :
  NoDup (raw_key <$> entries) -> (forall e, e ∈ entries -> well_placed (raw_key e)) ->
  (forall key e, m !! key = Some e -> raw_key e = key /\ loads ps e = true) ->
  obs_rows (state s') = (fun e => (e, raw_record e)) <$> incoming entries ->
  (forall key, key ∈ rejected_keys s' <-> exists e, incoming entries !! key = Some e /\ loads ps e = false) ->
  (forall key, stale_entry <$> stale_serving s' !! key = if decide (key ∈ rejected_keys s') then m !! key else None) ->
  served s' = foldl (inserted ps) ∅ (pins (stale_serving s')) ∪ foldl (inserted ps) ∅ entries ->
  implements s' (good_resync entries m).
Proof.
  intros Hn Hw Hm Ho Hr Hs Hsv. pose proof (resync_serving entries m s' Ho Hr Hs) as Hse.
  assert (forall key pin, stale_serving s' !! key = Some pin -> key ∈ rejected_keys s' /\ m !! key = Some (stale_entry pin)) as Hpin.
  { intros key pin Hp. specialize (Hs key). rewrite Hp in Hs. simpl in Hs. by case_decide. }
  assert (forall key e, incoming entries !! key = Some e -> well_placed key /\ raw_key e = key) as Hin.
  { intros key e [He <-]%incoming_lookup; [|done]. auto. }
  assert (forall e, e ∈ pins (stale_serving s') -> well_placed (raw_key e)) as Hwp.
  { intros e (key & pin & Hp & <-)%elem_of_pins. destruct (Hpin _ _ Hp) as [(e & He & _)%Hr Hk].
    destruct (Hm _ _ Hk) as [-> _]. by eapply Hin. }
  assert (NoDup (raw_key <$> pins (stale_serving s'))) as Hnp.
  { apply pins_keys. intros key pin Hp. destruct (Hpin _ _ Hp) as [_ Hk]. by destruct (Hm _ _ Hk). }
  split; [split|done].
  - intros key row. rewrite Ho, lookup_fmap. destruct (incoming entries !! key) as [e|] eqn:E; [|done]. intros _. by eapply Hin.
  - intros key e r. rewrite Ho, lookup_fmap. destruct (incoming entries !! key) as [e'|] eqn:E; [|done]. intros [= <- <-].
    split; [by eapply Hin|done].
  - intros key. rewrite Hr, Ho, lookup_fmap. destruct (incoming entries !! key) as [e|]; simpl; [|naive_solver].
    split; [intros (e' & [= <-] & ?); eauto|intros (e' & r & [= <- <-] & ?); eauto].
  - intros key pin Hp. destruct (Hpin _ _ Hp) as [Hk Hk']. destruct (Hm _ _ Hk'). done.
  - intros place row. rewrite Hsv, lookup_union_Some_raw, (built_spec _ Hnp Hwp), (built_spec entries Hn Hw).
    split.
    + intros [(e & (key & pin & Hp & <-)%elem_of_pins & Hl)|(_ & e & He & Hl)].
      * exists key, (stale_entry pin). split; [|done]. unfold serving. by rewrite Hp.
      * exists (raw_key e), e. split; [|done]. rewrite Hse. unfold good_resync. rewrite map_lookup_imap.
        assert (incoming entries !! raw_key e = Some e) as -> by (by apply incoming_lookup). simpl.
        assert (loads ps e = true) as -> by (apply loads_spec; eauto). done.
    + intros (key & e & Hk & Hl). unfold serving in Hk. destruct (stale_serving s' !! key) as [pin|] eqn:Hp.
      * left. exists e. split; [|done]. apply elem_of_pins. injection Hk as <-. eauto.
      * case_bool_decide as Hk'; [done|]. rewrite Ho, lookup_fmap in Hk.
        destruct (incoming entries !! key) as [e'|] eqn:He; [|done]. injection Hk as ->.
        pose proof He as [He' Hke]%incoming_lookup; [|done]. right. split; [|eauto].
        destruct (foldl (inserted ps) ∅ (pins (stale_serving s')) !! place) as [row'|] eqn:E; [|done].
        apply (built_spec _ Hnp Hwp) in E as (e2 & He2 & Hl2).
        destruct (load_place _ _ _ Hl) as [Hp1 _], (load_place _ _ _ Hl2) as [Hp2 _].
        pose proof (place_inj _ _ _ (Hw _ He') (Hwp _ He2) Hp1 Hp2) as Hkk.
        apply elem_of_pins in He2 as (key2 & pin & Hpn & <-). destruct (Hpin _ _ Hpn) as [_ Hm2].
        destruct (Hm _ _ Hm2) as [Hk2 _]. congruence.
Qed.

Lemma good_resync_good entries m :
  NoDup (raw_key <$> entries) ->
  (forall key e, m !! key = Some e -> raw_key e = key /\ loads ps e = true) ->
  forall key e, good_resync entries m !! key = Some e -> raw_key e = key /\ loads ps e = true.
Proof.
  intros Hn Hm key e. unfold good_resync. rewrite map_lookup_imap.
  destruct (incoming entries !! key) as [e'|] eqn:E; [|done]. simpl. apply incoming_lookup in E as [_ <-]; [|done].
  destruct (loads ps e') eqn:El; [intros [= <-]; done|apply Hm].
Qed.

(** What a resync leaves, the pins it keeps all loading. *)
Lemma resync_fields entries rev s :
  let stats := snd (build_snapshot ps entries) in
  let stale := retain_stale ps now entries (build_rejections stats) s in
  (forall key pin, stale !! key = Some pin -> loads ps (stale_entry pin) = true) ->
  let s' := snd (apply_resync_at ps now entries rev s) in
  obs_rows (state s') = obs_rows (reconcile entries (state s)) /\
  rejected_keys s' = list_to_set (rej_key <$> build_rejections stats) /\
  stale_serving s' = stale /\
  served s' = foldl (inserted ps) ∅ (pins stale) ∪ foldl (inserted ps) ∅ entries.
Proof.
  cbv zeta. intros Hl. unfold apply_resync_at. pose proof (build_snapshot_tables ps entries) as Ht.
  destruct (build_snapshot ps entries) as [snap stats]. cbn [fst snd] in *. subst snap.
  set (stale := retain_stale ps now entries (build_rejections stats) s) in *.
  change (stale_entry <$> (map_to_list stale).*2) with (pins stale).
  assert (exists rows, match pins stale with
           | [] => (foldl (inserted ps) ∅ entries, stale, partial_rows stats)
           | _ :: _ =>
               let '(lkg_snap, lkg_stats) := build_snapshot ps (pins stale) in
               (merge_snapshot (foldl (inserted ps) ∅ entries) lkg_snap,
                foldl (fun stale0 r => delete (rej_key r) stale0) stale (build_rejections lkg_stats),
                partial_rows stats ++ partial_rows lkg_stats)
           end = (foldl (inserted ps) ∅ (pins stale) ∪ foldl (inserted ps) ∅ entries, stale, rows)) as [rows ->].
  { destruct (pins stale) as [|e pinned] eqn:Ep.
    - exists (partial_rows stats). simpl. by rewrite (left_id_L ∅ (∪)).
    - rewrite <- Ep. pose proof (build_snapshot_tables ps (pins stale)) as Hp.
      pose proof (build_counts ps (pins stale)) as (_ & _ & Hr).
      destruct (build_snapshot ps (pins stale)) as [lkg lkg_stats]. cbn [fst snd] in *. subst lkg.
      assert (build_rejections lkg_stats = []) as ->; [|by eexists].
      apply (fmap_nil_inv rej_key). rewrite Hr.
      assert (List.filter (fun raw => negb (loads ps raw)) (pins stale) = []) as ->; [|done].
      destruct (List.filter _ _) as [|e' rest] eqn:Ef; [done|].
      assert (e' ∈ e' :: rest) as He' by (by left). rewrite <- Ef in He'.
      apply list_elem_of_In, filter_In in He' as [He' Hl']. apply list_elem_of_In, elem_of_pins in He' as (key & pin & Hpin & <-).
      by rewrite (Hl _ _ Hpin) in Hl'. }
  match goal with |- obs_rows (state (snd (_, flush_cache (sync_config_status true ?x)))) = _ /\ _ =>
    pose proof (sync_core true x) as [H1 _ _ _ H5 _ H7];
    assert (served (sync_config_status true x) = served x) as H8 by
      (unfold sync_config_status; by destruct (publish_served _ _ _)) end.
  cbn [snd]. unfold flush_cache. cbn [state rejected_keys stale_serving served].
  rewrite H1, H5, H7, H8. split_and!; try done.
  - simpl. destruct rev as [rev|]; [done|]. by destruct (raw_revision <$> entries).
  - simpl. destruct rev as [rev|]; [done|]. by destruct (raw_revision <$> entries).
  - simpl. destruct rev as [rev|]; [done|]. by destruct (raw_revision <$> entries).
Qed.

(** The rejections reported after a resync are of entries it could not load. *)
Lemma trim_newest_elem kept rs r : r ∈ trim_newest kept rs -> r ∈ rs.
Proof.
  revert kept. induction rs as [|x rs IH]; intros kept; [done|]. simpl. case_match; [|intros Hr; right; by eapply IH].
  intros [-> |Hr]%elem_of_cons; [by left|right; by eapply IH].
Qed.

Lemma trim_rejections_elem rs r : r ∈ trim_rejections_per_class rs -> r ∈ rs.
Proof.
  unfold trim_rejections_per_class. case_match; [done|]. rewrite elem_of_reverse. intros Hr%trim_newest_elem.
  by rewrite elem_of_reverse in Hr.
Qed.

Lemma resync_rejections entries rev s :
  let s' := snd (apply_resync_at ps now entries rev s) in
  let rejected := build_rejections (snd (build_snapshot ps entries)) in
  rejections s' = trim_rejections_per_class rejected /\ rejected_keys s' = list_to_set (rej_key <$> rejected).
Proof.
  cbv zeta. unfold apply_resync_at. destruct (build_snapshot ps entries) as [snap stats]. cbv zeta.
  match goal with |- context [match ?x with [] => _ | _ => _ end] =>
    destruct (match x with [] => _ | _ => _ end) as [[snap' stale'] rows] end.
  match goal with |- rejections (snd (_, flush_cache (sync_config_status true ?x))) = _ /\ _ =>
    pose proof (sync_core true x) as [_ _ _ H4 H5 _ _] end.
  cbn [snd]. unfold flush_cache. cbn [rejections rejected_keys]. by rewrite H4, H5.
Qed.

Lemma resync_not_rejected entries rev s e :
  NoDup (raw_key <$> entries) -> e ∈ entries -> loads ps e = true ->
  let s' := snd (apply_resync_at ps now entries rev s) in
  (raw_key e ∉ rejected_keys s') /\ forall r, r ∈ rejections s' -> rej_key r <> raw_key e.
Proof.
  intros Hn He Hl. cbv zeta. destruct (resync_rejections entries rev s) as [-> ->].
  assert (raw_key e ∉ rej_key <$> build_rejections (snd (build_snapshot ps entries))) as Hno.
  { destruct (build_counts ps entries) as (_ & _ & ->). rewrite list_elem_of_fmap.
    intros (e' & Hk & [He' Hl']%list_elem_of_In%filter_In). apply list_elem_of_In in He'.
    assert (incoming entries !! raw_key e = Some e) as E1 by (by apply incoming_lookup).
    assert (incoming entries !! raw_key e = Some e') as E2 by (by apply incoming_lookup).
    assert (e' = e) as -> by congruence. by rewrite Hl in Hl'. }
  split; [by rewrite elem_of_list_to_set|]. intros r Hr%trim_rejections_elem Hk. apply Hno. rewrite <- Hk.
  by apply list_elem_of_fmap_2.
Qed.

Lemma resync_implements entries rev s m :
  resync_ready s m -> NoDup (raw_key <$> entries) -> (forall e, e ∈ entries -> well_placed (raw_key e)) ->
  implements (snd (apply_resync_at ps now entries rev s)) (good_resync entries m).
Proof.
  intros Hready Hn Hw. pose proof (build_counts ps entries) as (_ & _ & Hrej).
  set (stats := snd (build_snapshot ps entries)) in *.
  assert (forall key, key ∈ rej_key <$> build_rejections stats <->
            exists e, incoming entries !! key = Some e /\ loads ps e = false) as Hr.
  { intros key. rewrite Hrej, list_elem_of_fmap. split.
    - intros (e & -> & [He Hl]%list_elem_of_In%filter_In). exists e. rewrite incoming_lookup by done.
      apply list_elem_of_In in He. apply negb_true_iff in Hl. done.
    - intros (e & [He <-]%incoming_lookup & Hl); [|done]. exists e. split; [done|].
      apply list_elem_of_In, filter_In. split; [by apply list_elem_of_In|by rewrite Hl]. }
  assert (forall key, stale_entry <$> retain_stale ps now entries (build_rejections stats) s !! key =
            if decide (key ∈ rej_key <$> build_rejections stats) then m !! key else None) as Hs.
  { intros key. apply (retain_lookup entries _ s m key Hready).
    intros (e & [He <-]%incoming_lookup & _)%Hr; [|done]. split; [by apply list_elem_of_fmap_2|auto]. }
  destruct (resync_fields entries rev s) as (F1 & F2 & F3 & F4).
  { intros key pin Hp. fold stats in Hp. specialize (Hs key). rewrite Hp in Hs. simpl in Hs.
    case_decide; [|done]. symmetry in Hs. by destruct (rr_good _ _ Hready _ _ Hs). }
  fold stats in F2, F3, F4. apply resync_ok; [done|done|apply (rr_good _ _ Hready)|..].
  - rewrite F1. by apply reconcile_rows.
  - intros key. rewrite F2, elem_of_list_to_set. apply Hr.
  - intros key. rewrite F2, F3, Hs. apply decide_ext. by rewrite elem_of_list_to_set.
  - by rewrite F3, F4.
Qed.

(** ** The disk image *)

(** The image, if any, is of what is observed and pinned now. *)
Definition cached_as (s : Supervisor) : Prop :=
  captured s = None /\ obs_rows (state s) = ∅ /\ stale_serving s = ∅ \/
  exists s0, captured s = captured (flush_cache s0) /\ obs_rows (state s0) = obs_rows (state s) /\
    stale_serving s0 = stale_serving s.

Definition pins_rejected (s : Supervisor) : Prop := forall key, is_Some (stale_serving s !! key) -> key ∈ rejected_keys s.

(** Nothing an image holds changed. *)
Definition same_image (s s' : Supervisor) : Prop :=
  obs_rows (state s) = obs_rows (state s') /\ stale_serving s = stale_serving s'.

Lemma capture_keeps base key v s :
  let s' := capture_last_good ps now base key v s in
  captured s' = captured s /\ rejected_keys s' = rejected_keys s /\
  forall k, is_Some (stale_serving s' !! k) -> k = key \/ is_Some (stale_serving s !! k).
Proof.
  unfold capture_last_good. cbv zeta. repeat case_match; simpl; split_and!; auto.
  intros k. destruct (decide (k = key)) as [-> |Hn]; [auto|rewrite lookup_insert_ne by done; auto].
Qed.

Lemma stage_put_cache base e b :
  pins_rejected (sup b) ->
  let b' := snd (stage_put ps now base e b) in
  pins_rejected (sup b') /\ captured (sup b') = captured (sup b) /\ dirty_cache b' = true.
Proof.
  intros Hp. cbv zeta. rewrite stage_put_eq. destruct (loads ps e) eqn:Hl; cbn [snd sup dirty_cache].
  - destruct (put_accepted_fields (sup b) e) as [m ->].
    split_and!; try done. intros k. simpl. rewrite <- not_eq_None_Some. intros Hk.
    destruct (decide (k = raw_key e)) as [-> |Hn]; [by rewrite lookup_delete_eq in Hk|].
    rewrite lookup_delete_ne in Hk by done. apply not_eq_None_Some, Hp in Hk. set_solver.
  - unfold put_rejected. pose proof (load_entry_row ps e stats_default) as Hrow. rewrite Hl in Hrow.
    destruct Hrow as (_ & _ & [k ->] & _). simpl.
    destruct (capture_keeps base (raw_key e) (view b) (sup b)) as (Hc & Hr & Hs).
    split_and!; try done. intros k' Hk'. simpl in *. rewrite Hr. destruct (Hs k' Hk') as [-> |H]; [set_solver|].
    apply Hp in H. set_solver.
Qed.

Lemma raise_cache rev b :
  same_image (sup b) (sup (raise_revision_floor rev b)) /\
  rejected_keys (sup (raise_revision_floor rev b)) = rejected_keys (sup b) /\
  captured (sup (raise_revision_floor rev b)) = captured (sup b) /\
  dirty_cache (raise_revision_floor rev b) = dirty_cache b.
Proof. by destruct rev. Qed.

Lemma delete_staged_cache base key parsed b :
  pins_rejected (sup b) ->
  let b' := snd (delete_staged base key parsed b) in
  pins_rejected (sup b') /\ captured (sup b') = captured (sup b) /\
  (dirty_cache b' = true \/ dirty_cache b' = dirty_cache b /\ same_image (sup b) (sup b')).
Proof.
  intros Hp. unfold delete_staged. destruct (del_state_fields key (sup b)) as [m Hd]. rewrite Hd. clear Hd. simpl.
  pose proof (observed_remove_rows key (state (sup b))) as (Ho & _ & Hg).
  destruct (observed_remove key (state (sup b))) as [gone st'] eqn:Er. cbn [fst snd] in Ho, Hg. cbv zeta.
  assert (forall s, stale_serving s = delete key (stale_serving (sup b)) ->
            rejected_keys s = rejected_keys (sup b) ∖ {[key]} -> pins_rejected s) as Hpr.
  { intros s Es Erj k. rewrite Es, Erj, <- not_eq_None_Some. intros Hk.
    destruct (decide (k = key)) as [-> |Hn]; [by rewrite lookup_delete_eq in Hk|].
    rewrite lookup_delete_ne in Hk by done. apply not_eq_None_Some, Hp in Hk. set_solver. }
  destruct (present base (view b) (table_kind parsed) (sk_id parsed)); [split_and!; [by apply Hpr|done|by left]|].
  case_bool_decide as Erj; simpl; [split_and!; [by apply Hpr|done|by left]|].
  destruct (negb _); simpl; [split_and!; [by apply Hpr|done|by left]|].
  case_bool_decide as Hgone; simpl; [split_and!; [by apply Hpr|done|by left]|].
  split_and!; [by apply Hpr|done|]. right. split; [done|].
  split; simpl.
  - rewrite Ho, delete_id; [done|]. rewrite Hg in Hgone. by apply eq_None_not_Some.
  - rewrite delete_id; [done|]. apply eq_None_not_Some. intros H. by apply Hp in H.
Qed.

Lemma stage_cache base ev b :
  pins_rejected (sup b) ->
  let b' := snd (stage_event ps now base ev b) in
  pins_rejected (sup b') /\ captured (sup b') = captured (sup b) /\
  (dirty_cache b' = true \/ dirty_cache b' = dirty_cache b /\ same_image (sup b) (sup b')).
Proof.
  intros Hp. cbv zeta. destruct ev as [e|key rev]; simpl.
  - destruct (stage_put_cache base e b Hp) as (? & ? & ?). auto.
  - rewrite stage_delete_eq. destruct (resolve ps key) as [parsed|]; simpl.
    + pose proof (delete_staged_cache base key parsed b Hp) as (H1 & H2 & H3).
      destruct (delete_staged base key parsed b) as [o b1]. simpl in *.
      destruct (raise_cache rev b1) as ([I1 I2] & R1 & R2 & R3). rewrite R2, R3. split_and!; [|done|].
      * intros k. rewrite <- I2, R1. apply H1.
      * destruct H3 as [H3|[H3 [J1 J2]]]; [by left|right]. split; [done|]. split; congruence.
    + destruct (raise_cache rev b) as (I & R1 & R2 & R3). split_and!; [|done|by right].
      intros k. destruct I as [_ <-]. rewrite R1. apply Hp.
Qed.

Lemma stage_all_cache base events b :
  pins_rejected (sup b) ->
  let b' := snd (stage_all ps now base events b) in
  captured (sup b') = captured (sup b) /\
  (dirty_cache b' = true \/ dirty_cache b' = dirty_cache b /\ same_image (sup b) (sup b')).
Proof.
  revert b. induction events as [|ev events IH]; intros b Hp; simpl.
  - split; [done|]. right. split; [done|by split].
  - destruct (stage_cache base ev b Hp) as (Hp' & Hc & Hd). destruct (stage_event ps now base ev b) as [o b1].
    specialize (IH b1 Hp'). destruct (stage_all ps now base events b1) as [os b2]. simpl in *.
    destruct IH as [Hc2 Hd2]. split; [congruence|]. unfold same_image in *.
    destruct Hd2 as [|[Hd2 [? ?]]]; [by left|]. destruct Hd as [|[? [? ?]]]; [left; congruence|right].
    split; [congruence|]. split; congruence.
Qed.

Lemma commit_captured b :
  captured (commit b) = (if dirty_cache b then captured (flush_cache (commit b)) else captured (sup b)).
Proof.
  unfold commit. set (s1 := match mutations b with [] => _ | _ => _ end).
  set (s2 := match apply_stamp b with Some r => record_apply r s1 | None => s1 end).
  assert (captured s2 = captured (sup b)) as H2 by (subst s2 s1; by destruct (mutations b), (apply_stamp b)).
  destruct (dirty_cache b); [done|]. rewrite <- H2. destruct (dirty_status b); [|done].
  unfold sync_config_status. by destruct (publish_served _ _ _).
Qed.

Lemma events_cached events s :
  sup_ok s -> cached_as s -> cached_as (snd (apply_events ps now events s)).
Proof.
  intros Hok Hc. unfold apply_events.
  pose proof (stage_all_cache (served s) events (batch_new s)) as H.
  destruct (stage_all ps now (served s) events (batch_new s)) as [os b]. cbn [fst snd] in *.
  destruct H as [Hcap Hd].
  { intros key [pin Hp]. by destruct (so_pinned s Hok _ _ Hp). }
  pose proof (commit_captured b) as Hcc. destruct (commit_spec b) as ([Cr _ _ _ _ _ Cs] & _ & _).
  destruct (dirty_cache b).
  - right. by exists (commit b).
  - destruct Hd as [|[_ [Ir Is]]]; [done|]. simpl in *. rewrite Hcap in Hcc. unfold cached_as.
    rewrite Hcc, Cr, Cs, <- Ir, <- Is. exact Hc.
Qed.

Lemma resync_cached entries rev s : cached_as (snd (apply_resync_at ps now entries rev s)).
Proof.
  unfold apply_resync_at. destruct (build_snapshot ps entries) as [snap stats]. cbv zeta.
  match goal with |- context [match ?x with [] => _ | _ => _ end] =>
    destruct (match x with [] => _ | _ => _ end) as [[snap' stale'] rows] end.
  right. eexists. split; [reflexivity|done].
Qed.

Lemma sync_cached r s : cached_as s -> cached_as (sync_config_status r s).
Proof.
  pose proof (sync_core r s) as [H1 _ _ _ _ _ H7]. unfold cached_as. rewrite H1, H7.
  unfold sync_config_status. by destruct (publish_served _ _ _).
Qed.
End serving.

(** ** A supervisor's life *)

Section service.
Context {DM : Documents} (l : list WatchedPrefix).
Context (Hone : forall w w', w ∈ l -> w' ∈ l -> scope w = scope w' -> w = w').
Abbreviation ps := (prefix_set_new l).

(** A restart here is from what was captured last; [Restart] has the file, and the
    writes that may not have reached it. *)
Inductive Operation :=
  | Watched (now : N) (events : list PendingEvent)
  | Reread (now : N) (entries : list RawEntry) (revision : option Z)
  | Confirmed (revision : Z)
  | Restarted (now : N).

Definition operate (op : Operation) (s : Supervisor) : Supervisor :=
  match op with
  | Watched now events => snd (apply_events ps now events s)
  | Reread now entries revision => snd (apply_resync_at ps now entries revision s)
  | Confirmed revision => record_read_revision revision s
  | Restarted now => restore_from_cache ps now (captured s) supervisor_new
  end.

(** What the contract says of the entry each key serves from. *)
Definition good_after (op : Operation) (m : gmap bytes RawEntry) : gmap bytes RawEntry :=
  match op with
  | Watched _ events => foldl (fun m event => good_event l event m) m events
  | Reread _ entries _ => good_resync l entries m
  | Confirmed _ | Restarted _ => m
  end.

(** etcd's keys are distinct, and written under the tables of their scope. *)
Definition operation_ok (op : Operation) : Prop :=
  match op with
  | Watched _ events => forall ev, ev ∈ events -> well_placed l (event_key ev)
  | Reread _ entries _ => NoDup (raw_key <$> entries) /\ forall e, e ∈ entries -> well_placed l (raw_key e)
  | _ => True
  end.

Lemma implements_core s s' m : same_core s s' -> served s = served s' -> implements l s m -> implements l s' m.
Proof.
  intros Hc Hs [Hok Hm]. split; [by apply (sup_ok_core l s)|]. intros key. by rewrite <- (serving_core s).
Qed.

(** The pins of an image, read back. *)
Lemma image_pins s key :
  (forall key pin, stale_serving s !! key = Some pin -> raw_key (stale_entry pin) = key) ->
  (list_to_map ((fun p => (raw_key (stale_entry p), p)) <$> reverse (map_to_list (stale_serving s)).*2)
     : gmap bytes StaleServing) !! key = stale_serving s !! key.
Proof.
  intros Hk. rewrite fmap_reverse.
  assert ((fun p => (raw_key (stale_entry p), p)) <$> (map_to_list (stale_serving s)).*2 =
          map_to_list (stale_serving s)) as ->.
  { rewrite <- list_fmap_compose. rewrite <- (list_fmap_id (map_to_list (stale_serving s))) at 2.
    apply list_fmap_ext. intros i [k pin] Hi. simpl. f_equal. apply Hk, elem_of_map_to_list.
    by eapply list_elem_of_lookup_2. }
  rewrite (list_to_map_proper _ (map_to_list (stale_serving s))).
  - by rewrite list_to_map_to_list.
  - rewrite fmap_reverse, reverse_Permutation. apply NoDup_fst_map_to_list.
  - apply reverse_Permutation.
Qed.

Lemma restart_implements now s m :
  implements l s m -> cached_as s ->
  implements l (restore_from_cache ps now (captured s) supervisor_new) m /\
  cached_as (restore_from_cache ps now (captured s) supervisor_new).
Proof.
  intros [Hok Hm] [(-> & Ho & Hs)|(s0 & -> & Ho & Hs)]; simpl.
  - split; [|by left]. split; [by apply sup_ok_new|]. intros key. rewrite <- Hm, serving_new. unfold serving.
    rewrite Hs, Ho, !lookup_empty. by case_bool_decide.
  - set (entries := se_entry <$> (map_to_list (observed (state s0))).*2).
    assert (forall e, e ∈ entries <-> exists key r, obs_rows (state s) !! key = Some (e, r)) as Hin.
    { intros e. rewrite <- Ho. unfold entries. rewrite <- list_fmap_compose, list_elem_of_fmap. split.
      - intros ([key row] & -> & Hr%elem_of_map_to_list). exists key, (se_record row). by rewrite obs_rows_lookup, Hr.
      - intros (key & r & Hr). rewrite obs_rows_lookup in Hr.
        destruct (observed (state s0) !! key) as [row|] eqn:E; [|done]. injection Hr as <- <-.
        exists (key, row). split; [done|]. by apply elem_of_map_to_list. }
    assert (NoDup (raw_key <$> entries)) as Hn.
    { unfold entries. rewrite <- !list_fmap_compose.
      rewrite (list_fmap_ext _ fst); [apply NoDup_fst_map_to_list|]. intros i [key row] Hi. simpl.
      apply list_elem_of_lookup_2, elem_of_map_to_list in Hi.
      destruct (so_keyed l s Hok key (se_entry row) (se_record row)); [|done].
      by rewrite <- Ho, obs_rows_lookup, Hi. }
    set (s1 := set_stale _ supervisor_new).
    assert (forall key, stale_serving s1 !! key = stale_serving s !! key) as Hst.
    { intros key. rewrite <- Hs. apply image_pins. intros k pin. rewrite Hs. intros Hp.
      by destruct (so_pinned l s Hok _ _ Hp) as (_ & ? & _). }
    assert (resync_ready l now s1 (stale_entry <$> stale_serving s)) as Hready.
    { split.
      - intros key pin. by rewrite Hst, lookup_fmap => ->.
      - intros key _. rewrite Hst, lookup_fmap => ->. unfold capture. destruct (resolve ps key); [|done].
        by case_match.
      - intros key e. rewrite lookup_fmap. destruct (stale_serving s !! key) as [pin|] eqn:E; [|done].
        intros [= <-]. by destruct (so_pinned l s Hok _ _ E) as (_ & ? & ?). }
    pose proof (resync_implements l now Hone entries None s1 _ Hready Hn) as Hres.
    pose proof (resync_cached l now entries None s1) as Hca.
    unfold apply_resync. fold s1. destruct (apply_resync_at ps now entries None s1) as [stats s2]. cbn [snd] in *.
    split; [|by apply sync_cached].
    assert (implements l s2 m) as Hs2.
    { destruct Hres as [Hok2 Hm2].
      - intros e (key & r & Hr)%Hin. destruct (so_keyed l s Hok _ _ _ Hr) as [-> _]. by eapply (so_placed l s Hok).
      - split; [done|]. intros key. rewrite Hm2, <- Hm. unfold good_resync. rewrite map_lookup_imap, lookup_fmap.
        unfold serving. destruct (incoming entries !! key) as [e|] eqn:E; simpl.
        + apply incoming_lookup in E as [(k & r & Hr)%Hin <-]; [|done].
          destruct (so_keyed l s Hok _ _ _ Hr) as [Hk _]. rewrite Hk, Hr.
          destruct (stale_serving s !! k) as [pin|] eqn:Ep; destruct (loads ps e) eqn:El; try done.
          * destruct (so_pinned l s Hok _ _ Ep) as ((e' & r' & Hr' & ?)%(so_rejected l s Hok) & _). congruence.
          * rewrite bool_decide_false; [done|]. intros (e' & r' & Hr' & ?)%(so_rejected l s Hok). congruence.
          * rewrite bool_decide_true; [done|]. apply (so_rejected l s Hok). eauto.
        + assert (obs_rows (state s) !! key = None) as Ho'.
          { destruct (obs_rows (state s) !! key) as [[e r]|] eqn:Hr; [|done].
            destruct (so_keyed l s Hok _ _ _ Hr) as [Hk _].
            assert (incoming entries !! key = Some e); [|congruence]. apply incoming_lookup; [done|].
            split; [apply Hin; eauto|done]. }
          rewrite Ho'. destruct (stale_serving s !! key) as [pin|] eqn:Ep; [|by case_bool_decide].
          destruct (so_pinned l s Hok _ _ Ep) as ((e' & r' & Hr' & _)%(so_rejected l s Hok) & _). congruence. }
    apply (implements_core (set_floor (floor s0) s2)).
    + symmetry. apply sync_core.
    + unfold sync_config_status. by destruct (publish_served _ _ _).
    + destruct Hs2 as [[H1 H2 H3 H4 H5] H6]. split; [split; [exact H1|exact H2|exact H3|exact H4|exact H5]|exact H6].
Qed.

Lemma operate_implements op s m :
  operation_ok op -> implements l s m -> cached_as s ->
  implements l (operate op s) (good_after op m) /\ cached_as (operate op s).
Proof.
  intros Hop Him Hca. destruct op as [now events|now entries rev|rev|now]; simpl in *.
  - split; [by apply events_implement|]. apply (events_cached l); try done; by destruct Him.
  - destruct Hop as [Hn Hw]. split; [|apply resync_cached].
    apply resync_implements; try done. by apply implements_ready.
  - split; [|apply sync_cached; exact Hca].
    apply (implements_core (record_read rev (set_floor rev s))).
    + symmetry. apply sync_core.
    + unfold record_read_revision, sync_config_status. by destruct (publish_served _ _ _).
    + destruct Him as [[H1 H2 H3 H4 H5] H6]. split; [split; [exact H1|exact H2|exact H3|exact H4|exact H5]|exact H6].
  - by apply restart_implements.
Qed.

(** A life from the start, and the contract's account of it. *)
Definition life (ops : list Operation) : Supervisor := foldl (fun s op => operate op s) supervisor_new ops.
Definition good (ops : list Operation) : gmap bytes RawEntry := foldl (fun m op => good_after op m) ∅ ops.

Lemma life_implements ops :
  (forall op, op ∈ ops -> operation_ok op) -> implements l (life ops) (good ops) /\ cached_as (life ops).
Proof.
  induction ops as [|op ops IH] using rev_ind; intros Hops.
  - split; [|by left]. split; [by apply sup_ok_new|]. intros key. unfold life, good. simpl.
    by rewrite serving_new, lookup_empty.
  - unfold life, good. rewrite !foldl_snoc. destruct IH as [H1 H2]; [set_solver|].
    apply operate_implements; [set_solver|done|done].
Qed.

Lemma rows_of_unique (m m' : bytes -> option RawEntry) rows rows' :
  (forall key, m key = m' key) -> rows_of l m rows -> rows_of l m' rows' -> rows = rows'.
Proof.
  intros Hm H H'. apply map_eq. intros place. apply option_eq. intros row. rewrite (H place row), (H' place row).
  by setoid_rewrite Hm.
Qed.

Lemma implements_served s s' m m' :
  implements l s m -> implements l s' m' -> m = m' -> served s = served s'.
Proof.
  intros [H1 H2] [H1' H2'] ->. apply (rows_of_unique (serving s) (serving s'));
    [intros key; by rewrite H2, H2'|by apply so_served..].
Qed.

(** C3. The supervisor implements its contract.  After any life of batches of
    watch events, full re-reads, confirmed revisions and restarts from the disk
    image, the tables that serve are exactly the rows of the entries the contract
    says serve: a write that loads takes over, one that does not leaves the key
    with what it last served, a delete or an absence from a re-read ends it, a
    restart changes nothing.  And the bytes the status view reports as serving
    are those of these entries, key by key. *)
Theorem supervisor_serves_last_good ops :
  (forall op, op ∈ ops -> operation_ok op) ->
  (forall place row, served (life ops) !! place = Some row <->
     exists key e, good ops !! key = Some e /\ raw_key e = key /\ load_of ps e = Some (place, row)) /\
  (forall key, served_record key (observed (state (life ops))) (rejected_keys (life ops)) (stale_serving (life ops)) =
     raw_record <$> good ops !! key).
Proof.
  intros Hops. destruct (life_implements ops Hops) as [[Hok Hm] _]. split.
  - intros place row. rewrite (so_served l _ Hok place row). setoid_rewrite Hm. split.
    + intros (key & e & Hk & Hl). exists key, e. split_and!; [done| |done].
      rewrite <- Hm in Hk. by destruct (serving_ok l _ Hok _ _ Hk).
    + intros (key & e & Hk & _ & Hl). eauto.
  - intros key. rewrite <- Hm. unfold served_record, serving.
    destruct (stale_serving (life ops) !! key) as [pin|]; [done|]. case_bool_decide; [done|].
    pose proof (so_keyed l _ Hok key) as Hkey. rewrite obs_rows_lookup in *.
    destruct (observed (state (life ops)) !! key) as [row|]; [|done]. simpl in *.
    by destruct (Hkey _ _ eq_refl) as [_ ->].
Qed.

(** C5. A bad write never takes a row away.  After any life, a write the loader
    refuses changes nothing that serves, and in a re-read an entry it refuses
    leaves its place serving what it did, whatever the other entries do. *)
Theorem bad_write_never_unserves ops now :
  (forall op, op ∈ ops -> operation_ok op) ->
  (forall e, well_placed l (raw_key e) -> loads ps e = false ->
     served (operate (Watched now [Put e]) (life ops)) = served (life ops)) /\
  (forall entries rev e place, operation_ok (Reread now entries rev) -> e ∈ entries -> loads ps e = false ->
     place_of l (raw_key e) = Some place ->
     served (operate (Reread now entries rev) (life ops)) !! place = served (life ops) !! place).
Proof.
  intros Hops. destruct (life_implements ops Hops) as [Him Hca]. split.
  - intros e Hw Hl. pose proof (put_implements l now Hone _ e _ Him Hw) as Him'.
    symmetry. apply (implements_served _ _ _ _ Him Him'). simpl. by rewrite Hl.
  - intros entries rev e place Hop He Hl Hp. pose proof Hop as [Hn Hw].
    destruct (operate_implements _ _ _ Hop Him Hca) as [[Hok' Hm'] _]. destruct Him as [Hok Hm].
    rewrite (served_place l Hone _ Hok' _ _ (Hw _ He) Hp), (served_place l Hone _ Hok _ _ (Hw _ He) Hp), Hm, Hm'.
    simpl. unfold good_resync. rewrite map_lookup_imap.
    assert (incoming entries !! raw_key e = Some e) as -> by (by apply incoming_lookup). simpl. by rewrite Hl.
Qed.

(** The key serves what was just written, and nothing is left of a failure. *)
Definition recovered (s : Supervisor) (e : RawEntry) (place : bytes * bytes) (row : Row) : Prop :=
  served s !! place = Some row /\ (raw_key e ∉ rejected_keys s) /\
  (forall r, r ∈ rejections s -> rej_key r <> raw_key e) /\ stale_serving s !! raw_key e = None.

Lemma good_served s m e place row :
  implements l s m -> m !! raw_key e = Some e -> load_of ps e = Some (place, row) -> served s !! place = Some row.
Proof. intros [Hok Hm] He Hl. apply (so_served l s Hok). exists (raw_key e), e. by rewrite Hm. Qed.

(** C35. A good write always recovers its key.  Whatever came before, rejections
    and pins included, a write that loads serves at once, its key is in neither the
    set of rejected keys nor the list of rejections the status reports, and it is
    not pinned to an older value; and so it is after a re-read that holds it. *)
Theorem good_write_recovers ops now e place row :
  (forall op, op ∈ ops -> operation_ok op) ->
  well_placed l (raw_key e) -> load_of ps e = Some (place, row) ->
  recovered (operate (Watched now [Put e]) (life ops)) e place row /\
  (forall entries rev, operation_ok (Reread now entries rev) -> e ∈ entries ->
     recovered (operate (Reread now entries rev) (life ops)) e place row).
Proof.
  intros Hops Hw Hl. destruct (life_implements ops Hops) as [Him Hca].
  assert (loads ps e = true) as Hlo by (apply loads_spec; eauto). split.
  - pose proof (put_implements l now Hone _ e _ Him Hw) as Him'. simpl in *. rewrite Hlo in Him'. split.
    + eapply good_served; [done| |done]. by rewrite lookup_insert_eq.
    + unfold apply_events. simpl. rewrite stage_put_eq, Hlo. cbn [snd].
      match goal with |- (_ ∉ rejected_keys (commit ?b)) /\ _ =>
        destruct (commit_spec b) as ([_ _ _ -> -> _ ->] & _ & _) end.
      cbn [sup batch_new]. destruct (put_accepted_fields l (life ops) e) as [m Hp]. rewrite Hp. simpl.
      split; [set_solver|]. split; [|apply lookup_delete_eq].
      intros r [_ Hr]%list_elem_of_In%filter_In Hk. by rewrite bool_decide_true in Hr.
  - intros entries rev Hop He. destruct (operate_implements _ _ _ Hop Him Hca) as [Him' _]. destruct Hop as [Hn _].
    destruct (resync_not_rejected l now entries rev (life ops) e Hn He Hlo) as [Hr Hb].
    split; [|split_and!; [exact Hr|exact Hb|]].
    + eapply good_served; [done| |done]. simpl. unfold good_resync. rewrite map_lookup_imap.
      assert (incoming entries !! raw_key e = Some e) as -> by (by apply incoming_lookup). simpl. by rewrite Hlo.
    + destruct (stale_serving _ !! raw_key e) as [pin|] eqn:Ep; [|done].
      destruct Him' as [Hok' _]. by destruct (so_pinned l _ Hok' _ _ Ep).
Qed.
End service.

(** C36. A deleted stray key unserves another.  A key under the global prefix of
    any kind but pricing never loads, whatever its value; yet its deletion removes
    the environment's row of that kind and id from what serves, although the
    environment's own key was not touched.  This is why the keys of a life are
    asked to be well placed. *)
Theorem stray_delete_unserves {DM : Documents} ps now (s : Supervisor) key parsed :
  resolve ps key = ROk parsed -> sk_scope parsed = Global -> sk_kind parsed <> lit "pricing" ->
  sk_kind parsed ∈ KINDS ->
  (forall value rev, loads ps (mkRaw key value rev) = false) /\
  served (snd (apply_delete ps now key s)) !! (sk_kind parsed, sk_id parsed) = None.
Proof.
  intros Hr Hs Hk Hin. assert (table_kind parsed = sk_kind parsed) as Ht.
  { unfold table_kind. rewrite Hs. by rewrite bool_decide_false. }
  split.
  - intros value rev. unfold loads, load_of, load_entry. cbn [raw_key raw_value]. rewrite Hr.
    destruct (from_slice value) as [v|]; [|done].
    by rewrite Hs, (bool_decide_true (Global = Global)), (bool_decide_false (sk_kind parsed = _)).
  - pose proof (stage_published ps now (served s) (Delete key None) (batch_new s)) as [= Hpub _].
    unfold apply_delete, apply_events. cbn [stage_all stage_event] in *. rewrite stage_delete_eq, Hr in *.
    unfold delete_staged in *. destruct (observed_remove key _) as [gone st'].
    assert (sk_kind parsed ∈ TABLES) as Htab by (by right).
    pose proof (seen_new (served s) (table_kind parsed) (sk_id parsed)) as Hp.
    change (view (batch_new s)) with (mkView ∅ ∅) in *. rewrite Hp in *. clear Hp. rewrite Ht in *.
    unfold snapshot_has in *. rewrite (bool_decide_true _ Htab) in *. cbn [andb] in *. case_bool_decide as Hsv.
    + match goal with |- context [commit ?b] => destruct (commit_spec b) as (_ & H & _) end.
      cbn [raise_revision_floor fst snd] in *. rewrite H, Hpub. simpl. unfold remove_from_snapshot.
      rewrite bool_decide_true by done. apply lookup_delete_eq.
    + apply eq_None_not_Some in Hsv. destruct (_ || _);
        (match goal with |- context [commit ?b] => destruct (commit_spec b) as (_ & H & _) end);
        cbn [raise_revision_floor fst snd] in *; by rewrite H, Hpub.
Qed.

(** ** Witnesses *)

Definition demo_put (key value : string) (revision : Z) : RawEntry := mkRaw (lit key) (lit value) revision.

(** A model written, then overwritten with what the loader refuses; a re-read
    that finds the bad bytes still there and a price; a restart. *)
Definition demo_bad : RawEntry := demo_put "/aisix/models/m1" "" 2.
Definition demo_life : list Operation :=
  [Watched 5 [Put (demo_put "/aisix/models/m1" "v1" 1); Put demo_bad];
   Reread 7 [demo_bad; demo_put "/aisix/global/pricing/p1" "cheap" 3] (Some 9%Z);
   Restarted 11].

Lemma demo_one w w' : w ∈ demo_prefixes -> w' ∈ demo_prefixes -> scope w = scope w' -> w = w'.
Proof. unfold demo_prefixes. rewrite !elem_of_cons, !elem_of_nil. naive_solver. Qed.

Lemma demo_keys e :
  raw_key e = lit "/aisix/models/m1" \/ raw_key e = lit "/aisix/global/pricing/p1" ->
  well_placed demo_prefixes (raw_key e).
Proof. intros [-> | ->]; vm_compute; done. Qed.

Lemma demo_life_ok op : op ∈ demo_life -> operation_ok demo_prefixes op.
Proof.
  unfold demo_life. rewrite !elem_of_cons, elem_of_nil. intros [-> |[-> |[-> |[]]]]; simpl; [| |done].
  - intros ev. rewrite !elem_of_cons, elem_of_nil. intros [-> |[-> |[]]]; apply demo_keys; by left.
  - split; [by apply (bool_decide_unpack _)|].
    intros e. rewrite !elem_of_cons, elem_of_nil. intros [-> |[-> |[]]]; apply demo_keys; [by left|by right].
Qed.

Lemma stray_delete_unserves_witness :
  let own := demo_put "/aisix/models/m1" "v1" 1 in
  let s := @life demo_documents demo_prefixes [Watched 5 [Put own]] in
  let s' := snd (@apply_delete demo_documents (prefix_set_new demo_prefixes) 6 (lit "/aisix/global/models/m1") s) in
  served s !! (lit "models", lit "m1") = Some (@mkRow demo_documents (lit "v1") 1) /\
  served s' !! (lit "models", lit "m1") = None /\
  @serving demo_documents s' (raw_key own) = Some own.
Proof.
  split; [vm_compute; reflexivity|]. split; [|vm_compute; reflexivity].
  apply (@stray_delete_unserves demo_documents (prefix_set_new demo_prefixes) 6 _ _
           (mkScoped Global (lit "models") (lit "m1"))).
  - vm_compute. reflexivity.
  - reflexivity.
  - by apply (bool_decide_unpack _).
  - by left.
Defined.

Lemma supervisor_serves_last_good_witness :
  let place := (lit "models", lit "m1") in
  served (@life demo_documents demo_prefixes demo_life) !! place = Some (@mkRow demo_documents (lit "v1") 1).
Proof.
  apply (@supervisor_serves_last_good demo_documents demo_prefixes demo_one demo_life demo_life_ok).
  exists (lit "/aisix/models/m1"), (demo_put "/aisix/models/m1" "v1" 1). split_and!; vm_compute; reflexivity.
Defined.

Lemma bad_write_never_unserves_witness :
  let s := @life demo_documents demo_prefixes demo_life in
  served (@operate demo_documents demo_prefixes (Watched 12 [Put demo_bad]) s) = served s.
Proof.
  apply (@bad_write_never_unserves demo_documents demo_prefixes demo_one demo_life 12 demo_life_ok).
  - apply demo_keys. by left.
  - vm_compute. reflexivity.
Defined.

Lemma good_write_recovers_witness :
  let e := demo_put "/aisix/models/m1" "v3" 4 in
  @recovered demo_documents
    (@operate demo_documents demo_prefixes (Watched 12 [Put e]) (@life demo_documents demo_prefixes demo_life))
    e (lit "models", lit "m1") (@mkRow demo_documents (lit "v3") 4).
Proof.
  cbv zeta. destruct (@good_write_recovers demo_documents demo_prefixes demo_one demo_life 12
    (demo_put "/aisix/models/m1" "v3" 4) (lit "models", lit "m1") (@mkRow demo_documents (lit "v3") 4) demo_life_ok)
    as [H _].
  - apply demo_keys. by left.
  - vm_compute. reflexivity.
  - exact H.
Defined.
