(* ===== verification/Restart.v ===== *)
(** * Restarts

    The supervisor with its snapshot cache and the write tasks it spawned, in any
    interleaving of applies, of tasks that take the lock and end, and of deaths: what
    a process that starts from the file serves.

    The cache is enabled and the supervisor runs inside the runtime, without which
    [flush_cache] writes nothing. *)

From S2P Require Import Prelude Utf8 EtcdKey Loader Observed Supervisor SnapCache Serving.
Local Open Scope N_scope.

Section restart.
Context {DM : Documents} {DF : DiskFormat} {DL : DiskLaws DF} (l : list WatchedPrefix).
Context (Hone : forall w w', w ∈ l -> w' ∈ l -> scope w = scope w' -> w = w').
Abbreviation ps := (prefix_set_new l).

(** ** A process *)

Record HostState := mkHost {
  running : Supervisor;
  cache : SnapshotCache;
  pending_writes : list CacheWrite;
}.

Definition host_new : HostState := mkHost supervisor_new (cache_new None) [].

(** [flush_cache] from the ticket on. *)
Definition spawn_write (image : option CacheImage) (h : HostState) : HostState :=
  match image with
  | None => h
  | Some image =>
      let '(t, c) := ticket (cache h) in
      mkHost (running h) c (pending_writes h ++ [image_write t image])
  end.

(** What an operation hands to [flush_cache]. *)
Definition flushed (op : Operation) (s : Supervisor) : option CacheImage :=
  match op with
  | Watched now events =>
      if dirty_cache (stage_all ps now (served s) events (batch_new s)).2 then captured (operate l op s) else None
  | Reread _ _ _ => captured (operate l op s)
  | Confirmed _ | Restarted _ => None
  end.

(** A process that starts from what is at the path. *)
Definition boot (now : N) (c : SnapshotCache) : Supervisor := restore_from_cache ps now (cache_load c) supervisor_new.

Inductive Step :=
  | Operated (op : Operation)
  | Begun (i : nat)
  | Finished (replaced : bool).

(** A restart loses the tasks that have not ended, and what the lock remembers. *)
Definition host_step (st : Step) (h : HostState) : HostState :=
  match st with
  | Operated (Restarted now) =>
      let c := cache_new (disk (cache h)) in
      spawn_write (captured (boot now c)) (mkHost (boot now c) c [])
  | Operated op =>
      spawn_write (flushed op (running h)) (mkHost (operate l op (running h)) (cache h) (pending_writes h))
  | Begun i =>
      match pending_writes h !! i, writing (cache h) with
      | Some w, None => mkHost (running h) (store_begin w (cache h)) (delete i (pending_writes h))
      | _, _ => h
      end
  | Finished replaced => mkHost (running h) (store_finish replaced (cache h)) (pending_writes h)
  end.

Definition host_run (steps : list Step) : HostState := foldl (fun h st => host_step st h) host_new steps.

Definition operations (steps : list Step) : list Operation :=
  omap (fun st => match st with Operated op => Some op | _ => None end) steps.

(** The tasks still out, run to their end. *)
Definition drain_writes (h : HostState) : list Step :=
  Finished true :: concat (replicate (length (pending_writes h)) [Begun 0; Finished true]).

(** ** What the tasks carry *)

Definition image_at (steps : list Step) (image : CacheImage) : Prop :=
  exists pre m, pre `prefix_of` steps /\ captured (running (host_run pre)) = Some image /\
    implements l (running (host_run pre)) m /\ cached_as (running (host_run pre)).

(** The file and the tasks hold images of the run, the lock a write newer than what
    was committed. *)
Record tasks_ok (steps : list Step) (c : SnapshotCache) (tasks : list CacheWrite) : Prop := {
  to_path : has_path c = true;
  to_bound : next_ticket c <= N.of_nat (length (operations steps));
  to_disk data : disk c = Some data -> exists t image, image_at steps image /\ data = write_text (image_write t image);
  to_tasks w : w ∈ tasks \/ writing c = Some w ->
    w_ticket w <= next_ticket c /\ exists image, image_at steps image /\ w = image_write (w_ticket w) image;
  to_writing w : writing c = Some w -> committed c < w_ticket w;
  to_committed : committed c <= next_ticket c;
}.

(** And what carries the last ticket is what was captured last. *)
Record host_ok (steps : list Step) (h : HostState) : Prop := {
  ho_good : exists m, implements l (running h) m;
  ho_cached : cached_as (running h);
  ho_tasks : tasks_ok steps (cache h) (pending_writes h);
  ho_latest w : w ∈ pending_writes h \/ writing (cache h) = Some w -> w_ticket w = next_ticket (cache h) ->
    exists image, captured (running h) = Some image /\ w = image_write (w_ticket w) image;
  ho_settled : committed (cache h) = next_ticket (cache h) ->
    match captured (running h) with
    | None => disk (cache h) = None
    | Some image => exists t, disk (cache h) = Some (write_text (image_write t image))
    end;
}.

(** The last capture is in the file or on its way there. *)
Definition on_its_way (h : HostState) : Prop :=
  committed (cache h) = next_ticket (cache h) \/
  exists w, (w ∈ pending_writes h \/ writing (cache h) = Some w) /\ w_ticket w = next_ticket (cache h).

Lemma image_at_more steps more image : image_at steps image -> image_at (steps ++ more) image.
Proof. intros (pre & m & [k ->] & H). exists pre, m. split; [|done]. rewrite <- app_assoc. by apply prefix_app_r. Qed.

Lemma image_at_now steps h image :
  host_run steps = h -> (exists m, implements l (running h) m) -> cached_as (running h) ->
  captured (running h) = Some image -> image_at steps image.
Proof. intros <- [m Hm] Hca Hc. exists steps, m. done. Qed.

Lemma operations_snoc steps st :
  operations (steps ++ [st]) = operations steps ++ match st with Operated op => [op] | _ => [] end.
Proof. unfold operations. rewrite omap_app. by destruct st. Qed.

Lemma resync_captured now entries rev s : is_Some (captured (apply_resync_at ps now entries rev s).2).
Proof.
  unfold apply_resync_at. destruct (build_snapshot ps entries) as [snap stats]. cbv zeta.
  match goal with |- context [match ?x with [] => _ | _ => _ end] =>
    destruct (match x with [] => _ | _ => _ end) as [[snap' stale'] rows] end.
  by eexists.
Qed.

Lemma sync_captured r s : captured (sync_config_status r s) = captured s.
Proof. unfold sync_config_status. by destruct (publish_served _ _ _). Qed.

(** An operation that hands nothing over leaves the image as it was. *)
Lemma flushed_captured op s m :
  implements l s m -> (forall now, op <> Restarted now) ->
  captured (operate l op s) = match flushed op s with Some image => Some image | None => captured s end.
Proof.
  intros [Hok _] Hop. destruct op as [now events|now entries rev|rev|now]; [| | |by destruct (Hop now)].
  - simpl. unfold apply_events.
    pose proof (stage_all_cache l now Hone (served s) events (batch_new s)) as H.
    destruct (stage_all ps now (served s) events (batch_new s)) as [os b]. cbn [fst snd] in *.
    destruct H as [Hcap _]; [intros key [pin Hp]; by destruct (so_pinned l s Hok _ _ Hp)|].
    rewrite commit_captured. destruct (dirty_cache b); [done|exact Hcap].
  - simpl. by destruct (resync_captured now entries rev s) as [image ->].
  - simpl. unfold record_read_revision. by rewrite sync_captured.
Qed.

Lemma boot_captured now c image : cache_load c = Some image -> is_Some (captured (boot now c)).
Proof.
  intros E. unfold boot, restore_from_cache. rewrite E. unfold apply_resync.
  match goal with |- context [apply_resync_at ?a ?b ?c ?d ?e] => pose proof (resync_captured b c d e) as H;
    destruct (apply_resync_at a b c d e) end.
  by rewrite sync_captured.
Qed.

(** A process that starts from an image of the run serves what the run served. *)
Lemma boot_image now s m c :
  implements l s m -> cached_as s -> cache_load c = captured s -> implements l (boot now c) m /\ cached_as (boot now c).
Proof. intros Him Hca E. unfold boot. rewrite E. by apply restart_implements. Qed.

Lemma load_image c t image :
  has_path c = true -> disk c = Some (write_text (image_write t image)) -> cache_load (cache_new (disk c)) = Some image.
Proof. intros Hp Hd. by apply (load_written _ t). Qed.

(** ** The invariant *)

Lemma new_good : implements l supervisor_new ∅.
Proof. split; [by apply sup_ok_new|]. intros key. by rewrite serving_new, lookup_empty. Qed.

Lemma host_new_ok : host_ok [] host_new.
Proof.
  split; try done.
  - exists ∅. apply new_good.
  - by left.
  - split; try done. intros w [H|H]; [by apply elem_of_nil in H|done].
  - intros w [H|H]; [by apply elem_of_nil in H|done].
Qed.

Lemma tasks_more steps st c tasks : tasks_ok steps c tasks -> tasks_ok (steps ++ [st]) c tasks.
Proof.
  intros [H1 H2 H3 H4 H5 H6]. split; [done| | | |done|done].
  - rewrite operations_snoc, length_app. lia.
  - intros data Hd. destruct (H3 data Hd) as (t & image & Hi & ->). exists t, image. split; [by apply image_at_more|done].
  - intros w Hw. destruct (H4 w Hw) as (? & image & Hi & E). split; [done|]. exists image. split; [by apply image_at_more|done].
Qed.

(** A ticket taken for an image, its write joining those under way. *)
Lemma spawn_some_ok steps op c tasks s m image :
  let h := spawn_write (Some image) (mkHost s c tasks) in
  tasks_ok steps c tasks -> host_run (steps ++ [Operated op]) = h ->
  implements l s m -> cached_as s -> captured s = Some image ->
  N.of_nat (length (operations (steps ++ [Operated op]))) <= u64_max ->
  host_ok (steps ++ [Operated op]) h /\ on_its_way h.
Proof.
  cbv zeta. intros Ht Hrun Him Hca Hc Hlen. pose proof (tasks_more _ (Operated op) _ _ Ht) as Ht'.
  pose proof (to_bound _ _ _ Ht) as Hb. rewrite operations_snoc, length_app in Hlen. cbn [length] in Hlen.
  assert (wrap64 (next_ticket c + 1) = next_ticket c + 1) as Hw by (unfold wrap64; apply N.mod_small; unfold u64_max in Hlen; lia).
  assert (image_at (steps ++ [Operated op]) image) as Hat by (apply (image_at_now _ _ _ Hrun); [by exists m|done|done]).
  simpl in *. rewrite Hw in *. split; [split|]; cbn [running cache pending_writes next_ticket committed disk writing has_path] in *.
  - by exists m.
  - done.
  - destruct Ht' as [H1 H2 H3 H4 H5 H6]. split; [done| |done| |done|simpl; lia].
    + simpl. rewrite operations_snoc, length_app. simpl. lia.
    + intros w [[Hin| ->%list_elem_of_singleton]%elem_of_app|Hin].
      * destruct (H4 w (or_introl Hin)) as [? ?]. split; [simpl; lia|done].
      * split; [done|]. by exists image.
      * destruct (H4 w (or_intror Hin)) as [? ?]. split; [simpl; lia|done].
  - intros w [[Hin| ->%list_elem_of_singleton]%elem_of_app|Hin].
    + destruct (to_tasks _ _ _ Ht w (or_introl Hin)). lia.
    + intros _. by exists image.
    + destruct (to_tasks _ _ _ Ht w (or_intror Hin)). lia.
  - pose proof (to_committed _ _ _ Ht). lia.
  - right. exists (image_write (next_ticket c + 1) image). split; [left; apply elem_of_app; right; by left|done].
Qed.

Definition step_keeps (steps : list Step) (st : Step) (h h' : HostState) : Prop :=
  host_ok (steps ++ [st]) h' /\ (on_its_way h -> st <> Finished false -> on_its_way h').

Lemma host_run_snoc steps st : host_run (steps ++ [st]) = host_step st (host_run steps).
Proof. unfold host_run. by rewrite foldl_snoc. Qed.

Lemma restarted_ok steps now :
  host_ok steps (host_run steps) -> N.of_nat (length (operations (steps ++ [Operated (Restarted now)]))) <= u64_max ->
  step_keeps steps (Operated (Restarted now)) (host_run steps) (host_step (Operated (Restarted now)) (host_run steps)).
Proof.
  intros Hok Hlen. pose proof (ho_tasks _ _ Hok) as Ht. pose proof (host_run_snoc steps (Operated (Restarted now))) as Hrun.
  set (h := host_run steps) in *. set (c := cache_new (disk (cache h))).
  assert (host_step (Operated (Restarted now)) h = spawn_write (captured (boot now c)) (mkHost (boot now c) c [])) as Hst by done.
  rewrite Hst in *. assert (tasks_ok steps c []) as Htc.
  { split; [done|simpl; lia|exact (to_disk _ _ _ Ht)| |done|simpl; lia].
    intros w [Hw|Hw]; [by apply elem_of_nil in Hw|done]. }
  destruct (disk (cache h)) as [data|] eqn:Ed.
  - destruct (to_disk _ _ _ Ht data Ed) as (t & image & (pre & m & _ & Hc & Him & Hca) & ->).
    assert (cache_load c = Some image) as Hl by (by apply (load_written _ t)).
    destruct (boot_image now _ m c Him Hca) as [Hb Hbc]; [by rewrite Hl|].
    destruct (boot_captured now c image Hl) as [image' Hcap]. rewrite Hcap in *.
    by destruct (spawn_some_ok steps (Restarted now) c [] (boot now c) m image' Htc Hrun Hb Hbc Hcap Hlen).
  - assert (boot now c = supervisor_new) as -> by done. simpl spawn_write.
    split; [|by left]. split; [exists ∅; apply new_good|by left|by apply tasks_more| |done].
    intros w [Hw|Hw]; [by apply elem_of_nil in Hw|done].
Qed.

Lemma applied_ok steps op :
  host_ok steps (host_run steps) -> operation_ok l op -> (forall now, op <> Restarted now) ->
  N.of_nat (length (operations (steps ++ [Operated op]))) <= u64_max ->
  step_keeps steps (Operated op) (host_run steps) (host_step (Operated op) (host_run steps)).
Proof.
  intros Hok Hop Hne Hlen. destruct (ho_good _ _ Hok) as [m Him]. pose proof (ho_cached _ _ Hok) as Hca.
  pose proof (host_run_snoc steps (Operated op)) as Hrun. set (h := host_run steps) in *.
  assert (host_step (Operated op) h =
    spawn_write (flushed op (running h)) (mkHost (operate l op (running h)) (cache h) (pending_writes h))) as Hst.
  { destruct op as [| | |now]; [done..|by destruct (Hne now)]. }
  rewrite Hst in *. pose proof (flushed_captured op (running h) m Him Hne) as Hf.
  destruct (operate_implements l Hone op _ m Hop Him Hca) as [Him' Hca'].
  destruct (flushed op (running h)) as [image|].
  - by destruct (spawn_some_ok steps op (cache h) (pending_writes h) _ _ image (ho_tasks _ _ Hok) Hrun Him' Hca' Hf Hlen).
  - destruct Hok as [_ _ Ht Hl Hs]. split; [|done]. simpl. rewrite <- Hf in Hl, Hs.
    split; [by eexists|done|by apply tasks_more|done|done].
Qed.

Lemma delete_elem {A} i (tasks : list A) w : w ∈ delete i tasks -> w ∈ tasks.
Proof. rewrite list_elem_of_lookup, list_elem_of_lookup. intros [j Hj]. rewrite list_lookup_delete in Hj. case_decide; eauto. Qed.

Lemma task_begun_ok steps i h : host_ok steps h -> step_keeps steps (Begun i) h (host_step (Begun i) h).
Proof.
  intros [Hg Hc Ht Hl Hs]. pose proof (tasks_more _ (Begun i) _ _ Ht) as Ht'. simpl.
  destruct (pending_writes h !! i) as [w|] eqn:Ew; [|by split].
  destruct (writing (cache h)) as [w0|] eqn:Eh; rewrite <- Eh in Hl; [by split|].
  assert (w ∈ pending_writes h) as Hw by (by eapply list_elem_of_lookup_2).
  assert (forall w', w' ∈ pending_writes h -> w' = w \/ w' ∈ delete i (pending_writes h)) as Hrest.
  { intros w' [j Hj]%list_elem_of_lookup. destruct (decide (j = i)) as [-> |Hne]; [left; congruence|right].
    destruct (decide (j < i)%nat) as [Hlt|Hge].
    - apply (list_elem_of_lookup_2 _ j). by rewrite list_lookup_delete_lt.
    - apply (list_elem_of_lookup_2 _ (pred j)). rewrite list_lookup_delete_ge by lia. by replace (S (pred j)) with j by lia. }
  destruct Ht' as [T1 T2 T3 T4 T5 T6]. unfold store_begin. rewrite T1. cbn [negb].
  destruct (N.leb_spec (w_ticket w) (committed (cache h))) as [Hcm|Hcm];
    [|destruct (N.ltb_spec (w_ticket w) (next_ticket (cache h))) as [Hlt|Hge]].
  - split.
    + split; simpl; [done|done| | |done].
      * split; [done..| |done|done]. intros w' [Hin%delete_elem|Hin]; apply T4; by auto.
      * intros w' [Hin%delete_elem|Hin]; apply Hl; by auto.
    + intros [Hset|(w' & [Hin|Hin] & Hw')] _; [by left| |congruence].
      destruct (Hrest w' Hin) as [-> |Hin']; [left; simpl; lia|right; exists w'; by auto].
  - split.
    + split; simpl; [done|done| | |done].
      * split; [done..| |done|done]. intros w' [Hin%delete_elem|Hin]; apply T4; by auto.
      * intros w' [Hin%delete_elem|Hin]; apply Hl; by auto.
    + intros [Hset|(w' & [Hin|Hin] & Hw')] _; [by left| |congruence].
      destruct (Hrest w' Hin) as [-> |Hin']; [lia|right; exists w'; by auto].
  - split.
    + split; simpl; [done|done| | |done].
      * split; [done..| | |done]; simpl.
        -- intros w' [Hin%delete_elem|[= <-]]; apply T4; by auto.
        -- by intros w' [= <-].
      * intros w' [Hin%delete_elem|[= <-]]; apply Hl; by auto.
    + intros [Hset|(w' & [Hin|Hin] & Hw')] _; [by left| |congruence].
      right. exists w'. simpl. destruct (Hrest w' Hin) as [-> |Hin']; by auto.
Qed.

Lemma task_finished_ok steps replaced h : host_ok steps h -> step_keeps steps (Finished replaced) h (host_step (Finished replaced) h).
Proof.
  intros [Hg Hc Ht Hl Hs]. pose proof (tasks_more _ (Finished replaced) _ _ Ht) as Ht'. simpl. unfold store_finish.
  destruct (writing (cache h)) as [w|] eqn:Eh; rewrite <- Eh in Hl; [|by destruct h].
  destruct Ht' as [T1 T2 T3 T4 T5 T6]. destruct (T4 w (or_intror Eh)) as (Hle & image & Hat & Ew).
  destruct replaced.
  - split.
    + split; simpl; [done|done| | |].
      * split; simpl; [done|done| | |done|done].
        -- intros data [= <-]. exists (w_ticket w), image. by rewrite <- Ew.
        -- intros w' [Hin|Hin]; [|done]. apply T4. by left.
      * intros w' [Hin|Hin]; [|done]. apply Hl. by left.
      * intros Hset. destruct (Hl w (or_intror Eh) Hset) as (image' & -> & E'). exists (w_ticket w). by rewrite <- E'.
    + intros [Hset|(w' & [Hin|Hin] & Hw')] _.
      * specialize (T5 w Eh). lia.
      * right. exists w'. simpl. by auto.
      * left. simpl. congruence.
  - split; [|done]. split; simpl; [done|done| | |done].
    + split; simpl; [done|done|done| |done|done]. intros w' [Hin|Hin]; [|done]. apply T4. by left.
    + intros w' [Hin|Hin]; [|done]. apply Hl. by left.
Qed.

Lemma host_run_ok steps :
  (forall op, Operated op ∈ steps -> operation_ok l op) -> N.of_nat (length (operations steps)) <= u64_max ->
  host_ok steps (host_run steps) /\ (Finished false ∉ steps -> on_its_way (host_run steps)).
Proof.
  induction steps as [|st steps IH] using rev_ind; intros Hops Hlen.
  { split; [exact host_new_ok|by left]. }
  destruct IH as [Hok Hway]; [intros; apply Hops; set_solver| |].
  { rewrite operations_snoc, length_app in Hlen. lia. }
  assert (step_keeps steps st (host_run steps) (host_step st (host_run steps))) as [Hok' Hway'].
  { destruct st as [op|i|replaced]; [|by apply task_begun_ok|by apply task_finished_ok].
    assert (operation_ok l op) as Hop by (apply Hops; set_solver).
    destruct op as [| | |now]; [by apply applied_ok..|by apply restarted_ok]. }
  rewrite host_run_snoc. split; [done|]. intros Hno. apply Hway'; [apply Hway; set_solver|set_solver].
Qed.

(** ** The end of the tasks *)

Lemma drain_tasks h :
  writing (cache h) = None -> has_path (cache h) = true -> committed (cache h) <= next_ticket (cache h) ->
  (forall w, w ∈ pending_writes h -> w_ticket w <= next_ticket (cache h)) -> on_its_way h ->
  let h' := foldl (fun h st => host_step st h) h (concat (replicate (length (pending_writes h)) [Begun 0; Finished true])) in
  running h' = running h /\ committed (cache h') = next_ticket (cache h').
Proof.
  destruct h as [s c tasks]. simpl. revert c. induction tasks as [|w tasks IH]; intros c Hw Hp Hc Ht Hway.
  { split; [done|]. destruct Hway as [|(w & [Hin|Hin] & _)]; [done|by apply elem_of_nil in Hin|simpl in Hin; congruence]. }
  simpl. rewrite Hw. cbn [delete list_delete running cache pending_writes].
  assert (forall c', c' = store_finish true (store_begin w c) -> writing c' = None /\ has_path c' = true /\
    committed c' <= next_ticket c' /\ (forall w, w ∈ tasks -> w_ticket w <= next_ticket c') /\ on_its_way (mkHost s c' tasks)) as H.
  2: { destruct (H _ eq_refl) as (H1 & H2 & H3 & H4 & H5). by apply IH. }
  intros c' ->. unfold store_begin. rewrite Hp. cbn [negb]. unfold on_its_way in *. simpl in *.
  assert (w_ticket w <= next_ticket c) as Hwt by (apply Ht; by left).
  destruct (N.leb_spec (w_ticket w) (committed c)) as [Hcm|Hcm];
    [|destruct (N.ltb_spec (w_ticket w) (next_ticket c)) as [Hlt|Hge]]; unfold store_finish; rewrite ?Hw; simpl.
  - split_and!; [done..|intros; apply Ht; by right|].
    destruct Hway as [|(w' & [[-> |Hin]%elem_of_cons|Hin] & Hw')]; [by left|left; lia|right; by eauto|congruence].
  - split_and!; [done..|intros; apply Ht; by right|].
    destruct Hway as [|(w' & [[-> |Hin]%elem_of_cons|Hin] & Hw')]; [by left|lia|right; by eauto|congruence].
  - split_and!; [done..|intros; apply Ht; by right|left; lia].
Qed.

Lemma drain_settles steps h :
  host_ok steps h -> on_its_way h ->
  let h' := foldl (fun h st => host_step st h) h (drain_writes h) in
  running h' = running h /\ committed (cache h') = next_ticket (cache h').
Proof.
  intros Hok Hway. pose proof (task_finished_ok steps true h Hok) as [Hok' Hway']. unfold drain_writes. cbn [foldl].
  set (h1 := host_step (Finished true) h) in *.
  replace (length (pending_writes h)) with (length (pending_writes h1)) by done. change (running h) with (running h1).
  destruct Hok' as [_ _ [T1 T2 T3 T4 T5 T6] _ _]. apply drain_tasks; [|done|done| |by apply Hway'].
  - unfold h1. simpl. unfold store_finish. by destruct (writing (cache h)) eqn:E.
  - intros w Hw. by apply T4; left.
Qed.

Lemma drain_operations h : operations (drain_writes h) = [].
Proof. unfold drain_writes, operations. simpl. induction (length (pending_writes h)) as [|n IH]; [done|exact IH]. Qed.

(** C20. What the file holds is enough, and never mixed.  Take any interleaving of
    the supervisor's operations, of write tasks that take the lock in any order and
    replace the file or fail, and of deaths and restarts, from a first start without
    a file; the watched prefixes being one per scope, the entries under well-placed
    and, in a re-read, distinct keys, as in [Serving], the run having fewer than 2^64
    operations, and base64 and [serde_json] reading back what they wrote.  Once the last capture's write has been committed, a
    process that starts from the file alone, etcd unreachable, serves exactly what
    the old one served.  If it has not, because the process died first or the write
    failed, the new one serves exactly what was served at some moment of the run.
    And where no write failed, letting the tasks that are out run to their end, as a
    shutdown does for as long as it waits, is enough for the first.  The guard on the file goes by the order
    of captures and not by revision, so this holds after a re-read at a lower
    revision too. *)
Theorem restart_serves_same steps now :
  (forall op, Operated op ∈ steps -> operation_ok l op) -> N.of_nat (length (operations steps)) <= u64_max ->
  let h := host_run steps in
  let restarted h := served (boot now (cache_new (disk (cache h)))) in
  (committed (cache h) = next_ticket (cache h) -> restarted h = served (running h)) /\
  (exists pre, pre `prefix_of` steps /\ restarted h = served (running (host_run pre))) /\
  (Finished false ∉ steps -> restarted (host_run (steps ++ drain_writes h)) = served (running h)).
Proof.
  intros Hops Hlen. cbv zeta.
  assert (forall steps, host_ok steps (host_run steps) -> committed (cache (host_run steps)) = next_ticket (cache (host_run steps)) ->
    served (boot now (cache_new (disk (cache (host_run steps))))) = served (running (host_run steps))) as Hsettled.
  { clear steps Hops Hlen. intros steps [[m Him] Hca Ht _ Hs] Heq. specialize (Hs Heq).
    destruct (boot_image now _ m (cache_new (disk (cache (host_run steps)))) Him Hca) as [Hb _].
    - destruct (captured (running (host_run steps))) as [image|]; [|by apply load_nothing].
      destruct Hs as [t Hd]. by apply (load_image _ t); [apply (to_path _ _ _ Ht)|].
    - by apply (implements_served l _ _ _ _ Hb Him). }
  destruct (host_run_ok steps Hops Hlen) as [Hok Hway]. split; [by apply Hsettled|]. split.
  - destruct (disk (cache (host_run steps))) as [data|] eqn:Ed.
    + destruct (to_disk _ _ _ (ho_tasks _ _ Hok) data Ed) as (t & image & (pre & m & Hpre & Hc & Him & Hca) & ->).
      exists pre. split; [done|]. destruct (boot_image now _ m (cache_new (Some (write_text (image_write t image)))) Him Hca) as [Hb _].
      * rewrite Hc. by apply (load_written _ t).
      * by apply (implements_served l _ _ _ _ Hb Him).
    + exists []. split; [apply prefix_nil|done].
  - intros Hno. destruct (drain_settles steps _ Hok (Hway Hno)) as [Hrun Heq].
    assert (host_run (steps ++ drain_writes (host_run steps)) =
      foldl (fun h st => host_step st h) (host_run steps) (drain_writes (host_run steps))) as E by (unfold host_run at 1; by rewrite foldl_app).
    rewrite <- E in Hrun, Heq. rewrite <- Hrun. apply Hsettled; [|done].
    pose proof (drain_operations (host_run steps)) as Hnone.
    apply host_run_ok.
    + intros op [Hin|Hin]%elem_of_app; [by apply Hops|].
      assert (op ∈ operations (drain_writes (host_run steps))) as Hop by (apply list_elem_of_omap; by eexists).
      rewrite Hnone in Hop. by apply elem_of_nil in Hop.
    + unfold operations in *. rewrite omap_app, length_app, Hnone. simpl. lia.
Qed.
End restart.

(** ** Witness

    The life of [Serving.demo_life] with its tasks: the re-read's write takes the
    lock before the batch's, which then stands down; the process restarts, and dies
    before what it wrote down at boot is committed. *)
Definition demo_steps : list Step :=
  [Operated (Watched 5 [Put (demo_put "/aisix/models/m1" "v1" 1); Put demo_bad]);
   Operated (Reread 7 [demo_bad; demo_put "/aisix/global/pricing/p1" "cheap" 3] (Some 9%Z));
   Begun 1; Finished true; Begun 0; Operated (Restarted 11); Begun 0].

Abbreviation demo_host := (@host_run demo_documents demo_format demo_prefixes).
Abbreviation demo_boot now h := (@boot demo_documents demo_format demo_prefixes now (cache_new (disk (cache h)))).

Lemma demo_steps_ok op : Operated op ∈ demo_steps -> operation_ok demo_prefixes op.
Proof.
  intros H. apply demo_life_ok. unfold demo_steps, demo_life in *.
  repeat (apply elem_of_cons in H as [H|H]; [first [discriminate H|injection H as ->; set_solver]|]).
  by apply elem_of_nil in H.
Qed.

Lemma restart_serves_same_witness :
  let h := demo_host (take 5 demo_steps) in
  (committed (cache h) = 2 /\ pending_writes h = []) /\ served (demo_boot 20 h) = served (running h) /\
  served (running h) !! (lit "models", lit "m1") = Some (@mkRow demo_documents (lit "v1") 1) /\
  served (demo_boot 20 (demo_host (demo_steps ++ drain_writes (demo_host demo_steps)))) = served (running (demo_host demo_steps)).
Proof.
  cbv zeta. split; [split; vm_compute; reflexivity|].
  destruct (@restart_serves_same demo_documents demo_format demo_format_laws demo_prefixes demo_one (take 5 demo_steps) 20)
    as (H & _ & _).
  { intros op Hin. apply demo_steps_ok. unfold demo_steps in *. cbn [take] in Hin. rewrite !elem_of_cons, elem_of_nil in *. tauto. }
  { vm_compute. discriminate. }
  destruct (@restart_serves_same demo_documents demo_format demo_format_laws demo_prefixes demo_one demo_steps 20 demo_steps_ok)
    as (_ & _ & Hd).
  { vm_compute. discriminate. }
  split; [apply H; vm_compute; reflexivity|]. split; [vm_compute; reflexivity|].
  apply Hd. unfold demo_steps. rewrite !elem_of_cons, elem_of_nil. intros Hin. by repeat destruct Hin as [Hin|Hin].
Defined.
