(* ===== verification/Guardrail.v ===== *)
(** * Guardrails

    [crates/aisix-guardrails/src/lib.rs]: the verdict, the streamed-output
    policies, the trait with its default methods, and the latest-turn window;
    and the two decorators of [build.rs], the row that could not be built and
    the monitored row.

    A guardrail is the record of its methods; what a remote one answers is a
    function of what it is handed.  Timing, log lines and the similarity-score
    binding are not modelled; [message_scan_text] and [guardrail_output_text]
    are fields of what they are computed from. *)

From S2P Require Import Prelude.
Local Open Scope nat_scope.

(** ** Requests and responses *)

Inductive Role := System | Developer | User | Assistant | Tool | FunctionRole.
#[export] Instance Role_eq_dec : EqDecision Role.
Proof. solve_decision. Defined.

Definition is_instruction (r : Role) : bool := match r with System | Developer => true | _ => false end.

Record ChatMessage := mkMessage { msg_role : Role; message_scan_text : string }.
Record ChatFormat := mkChat { chat_model : string; messages : list ChatMessage }.
Record ChatResponse := mkResponse { guardrail_output_text : string }.

(** [Iterator::last_position]. *)
Definition last_position {A} (p : A -> bool) (l : list A) : option nat :=
  snd (fold_left (fun '(i, found) x => (S i, if p x then Some i else found)) l (0, None)).

Definition latest_turn_messages (l : list ChatMessage) : list ChatMessage :=
  let answered := default 0 (last_position (fun m => negb (is_instruction (msg_role m))) l) in
  let start :=
    match last_position (fun m => bool_decide (msg_role m = Assistant)) (take answered l) with
    | Some i => i + 1
    | None => 0
    end in
  List.filter (fun m => negb (is_instruction (msg_role m))) (drop start l).

Definition latest_turn_view (req : ChatFormat) : ChatFormat :=
  mkChat (chat_model req) (latest_turn_messages (messages req)).

(** ** Verdicts *)

Inductive GuardrailVerdict :=
  | Allow
  | Block (reason : string) (guardrail_name : option string) (unavailable : option string)
  | Bypass (reason : string).
#[export] Instance GuardrailVerdict_eq_dec : EqDecision GuardrailVerdict.
Proof. solve_decision. Defined.

Definition ascii_lowercase (c : Ascii.ascii) : Ascii.ascii :=
  let n := Ascii.N_of_ascii c in
  if (65 <=? n)%N && (n <=? 90)%N then Ascii.ascii_of_N (n + 32) else c.
Definition tag_char (c : Ascii.ascii) : bool :=
  let n := Ascii.N_of_ascii c in
  ((97 <=? n) && (n <=? 122) || (48 <=? n) && (n <=? 57) || (n =? 95))%N.

Definition bounded_failure_tag (tag : string) : string :=
  let cleaned := take 64 (List.filter tag_char (ascii_lowercase <$> String.list_ascii_of_string tag)) in
  match cleaned with
  | [] => "unknown"
  | _ => String.string_of_list_ascii cleaned
  end.

Definition block (reason : string) : GuardrailVerdict := Block reason None None.
Definition block_unavailable (reason tag : string) : GuardrailVerdict :=
  Block reason None (Some (bounded_failure_tag tag)).
Definition unavailable_tag (v : GuardrailVerdict) : option string :=
  match v with Block _ _ tag => tag | _ => None end.
Definition is_block (v : GuardrailVerdict) : bool := match v with Block _ _ _ => true | _ => false end.
Definition is_bypass (v : GuardrailVerdict) : bool := match v with Bypass _ => true | _ => false end.
Definition bypass_reason (v : GuardrailVerdict) : option string := match v with Bypass r => Some r | _ => None end.

Definition merged_with (v other : GuardrailVerdict) : GuardrailVerdict :=
  match v, other with
  | Block _ _ _, _ => v
  | _, Block _ _ _ => other
  | Bypass _, _ => v
  | _, Bypass _ => other
  | _, _ => Allow
  end.

(** ** Streamed output *)

Definition usize_max : N := u64_max.
Definition DEFAULT_STREAM_OUTPUT_BUFFER_BYTES : N := 262144.

Inductive StreamOutputPolicy :=
  | EndOfStreamCheck
  | Window (size_chars overlap_chars max_buffer_bytes : N) (on_exceeded_fail_open : bool)
  | BufferFull (max_buffer_bytes : N) (on_exceeded_fail_open : bool).

Definition holds_back (p : StreamOutputPolicy) : bool := match p with EndOfStreamCheck => false | _ => true end.

Definition hold_cap (p : StreamOutputPolicy) : option (N * bool) :=
  match p with
  | EndOfStreamCheck => None
  | Window _ _ cap open | BufferFull cap open => Some (cap, open)
  end.

Definition with_cap_of (p other : StreamOutputPolicy) : StreamOutputPolicy :=
  match hold_cap other with
  | None => p
  | Some (cap_b, open_b) =>
      match p with
      | EndOfStreamCheck => EndOfStreamCheck
      | Window s o cap open => Window s o (N.min cap cap_b) (open && open_b)
      | BufferFull cap open => BufferFull (N.min cap cap_b) (open && open_b)
      end
  end.

Definition rank (p : StreamOutputPolicy) : nat :=
  match p with EndOfStreamCheck => 0 | Window _ _ _ _ => 1 | BufferFull _ _ => 2 end.

Definition stricter (p other : StreamOutputPolicy) : StreamOutputPolicy :=
  match Nat.compare (rank p) (rank other) with
  | Lt => other
  | Gt => p
  | Eq =>
      let winner :=
        match p, other with
        | Window a oa _ _, Window b ob _ _ => Window (N.min a b) (N.max oa ob) usize_max true
        | _, _ => p
        end in
      with_cap_of (with_cap_of winner p) other
  end.

(** ** Redactions and segments *)

Definition Counts : Type := gmap string N.
Definition wrap32 (n : N) : N := (n mod u32_mod)%N.

Record Redaction := mkRedaction { red_text : string; red_counts : Counts }.

(** [*into.entry(k).or_insert(0) += v] *)
Definition merge_counts (into other : Counts) : Counts :=
  union_with (fun a b => Some (wrap32 (a + b))) into other.

Record GuardrailMonitorHit := mkHit {
  hit_name : string;
  hit_hook : string;
  hit_action : string;
  hit_reason : string;
  hit_error_type : string;
  hit_counts : Counts;
}.

Record SegmentsOutcome := mkOutcome {
  seg_verdict : GuardrailVerdict;
  seg_masked : option (list string);
  seg_counts : Counts;
  seg_hits : list GuardrailMonitorHit;
}.
Definition segments_allow : SegmentsOutcome := mkOutcome Allow None ∅ [].
Definition from_verdict (v : GuardrailVerdict) : SegmentsOutcome := mkOutcome v None ∅ [].

Inductive SegmentRole := Rewritable | ScanOnly | Label | Echo.
#[export] Instance SegmentRole_eq_dec : EqDecision SegmentRole.
Proof. solve_decision. Defined.
Record ScanSegment := mkSegment { seg_text : string; seg_role : SegmentRole; in_latest_turn : bool }.

(** ** The trait *)

Definition Observed : Type := GuardrailVerdict * list GuardrailMonitorHit.

(** What a kind implements; the rest has defaults. *)
Record Kind := mkKind {
  k_name : string;
  k_check_input : ChatFormat -> GuardrailVerdict;
  k_check_output : ChatResponse -> GuardrailVerdict;
  k_stream_output_policy : StreamOutputPolicy;
  k_runs_on_input : bool;
  k_runs_on_output : bool;
  k_checks_input_remotely : bool;
  k_fails_closed_on_input : bool;
  k_fails_closed_on_output : bool;
  k_redacts_input : bool;
  k_redacts_output : bool;
  k_redact_input_text : string -> option Redaction;
  k_redact_output_text : string -> option Redaction;
  k_locates_input_hits : bool;
  k_mask_input_hits : string -> option string;
  k_moderates_segments : bool;
  k_moderate_input_segments : list string -> option nat -> option string -> SegmentsOutcome;
  k_moderate_output_segments : list string -> SegmentsOutcome;
  k_checks_local_segments : bool;
  k_check_local_segments : list ScanSegment -> bool -> Observed;
}.

Record Guardrail := mkGuardrail {
  kind_ops : Kind;
  output_buffer_bytes : N;
  enforces_input : bool;
  refuses_unevaluable_input : bool;
  refuses_unevaluable_output : bool;
  check_input_observed : ChatFormat -> Observed;
  check_output_observed : ChatResponse -> Observed;
  check_input_unmaskable_observed : ChatFormat -> Observed;
  check_output_unmaskable_observed : ChatResponse -> Observed;
}.

Definition name g := k_name (kind_ops g).
Definition check_input g := k_check_input (kind_ops g).
Definition check_output g := k_check_output (kind_ops g).
Definition stream_output_policy g := k_stream_output_policy (kind_ops g).
Definition runs_on_input g := k_runs_on_input (kind_ops g).
Definition runs_on_output g := k_runs_on_output (kind_ops g).
Definition checks_input_remotely g := k_checks_input_remotely (kind_ops g).
Definition fails_closed_on_input g := k_fails_closed_on_input (kind_ops g).
Definition fails_closed_on_output g := k_fails_closed_on_output (kind_ops g).
Definition redacts_input g := k_redacts_input (kind_ops g).
Definition redacts_output g := k_redacts_output (kind_ops g).
Definition redact_input_text g := k_redact_input_text (kind_ops g).
Definition redact_output_text g := k_redact_output_text (kind_ops g).
Definition locates_input_hits g := k_locates_input_hits (kind_ops g).
Definition mask_input_hits g := k_mask_input_hits (kind_ops g).
Definition moderates_segments g := k_moderates_segments (kind_ops g).
Definition moderate_input_segments g := k_moderate_input_segments (kind_ops g).
Definition moderate_output_segments g := k_moderate_output_segments (kind_ops g).
Definition checks_local_segments g := k_checks_local_segments (kind_ops g).
Definition check_local_segments g := k_check_local_segments (kind_ops g).

Definition judged_by_segments (g : Guardrail) : bool := moderates_segments g || checks_local_segments g.

Definition check_input_non_segment (g : Guardrail) (req : ChatFormat) : GuardrailVerdict :=
  if judged_by_segments g then Allow else check_input g req.
Definition check_output_non_segment (g : Guardrail) (resp : ChatResponse) : GuardrailVerdict :=
  if judged_by_segments g then Allow else check_output g resp.
Definition check_input_non_segment_observed (g : Guardrail) (req : ChatFormat) : Observed :=
  if judged_by_segments g then (Allow, []) else check_input_observed g req.
Definition check_output_non_segment_observed (g : Guardrail) (resp : ChatResponse) : Observed :=
  if judged_by_segments g then (Allow, []) else check_output_observed g resp.
Definition check_output_non_local_observed (g : Guardrail) (resp : ChatResponse) : Observed :=
  if checks_local_segments g then (Allow, []) else check_output_observed g resp.

(** A kind with every default kept. *)
Definition of_kind (k : Kind) : Guardrail :=
  mkGuardrail k
    (match hold_cap (k_stream_output_policy k) with Some (cap, _) => cap | None => DEFAULT_STREAM_OUTPUT_BUFFER_BYTES end)
    (k_runs_on_input k)
    (k_runs_on_input k && k_fails_closed_on_input k)
    (k_runs_on_output k && k_fails_closed_on_output k)
    (fun req => (k_check_input k req, []))
    (fun resp => (k_check_output k resp, []))
    (fun req => (k_check_input k req, []))
    (fun resp => (k_check_output k resp, [])).

(** ** The row that does not build *)

Inductive GuardrailHookPoint := HookInput | HookOutput | HookBoth.

Definition UNBUILT_TAG : string := "guardrail_invalid_config".
Definition unbuilt_verdict (fail_open : bool) : GuardrailVerdict :=
  if fail_open then Bypass UNBUILT_TAG
  else block_unavailable "guardrail config does not build" UNBUILT_TAG.

Definition UnbuiltGuardrail (kind : string) (hook : GuardrailHookPoint) (input_fail_open output_fail_open : bool)
    : Guardrail :=
  let on_input := match hook with HookOutput => false | _ => true end in
  let on_output := match hook with HookInput => false | _ => true end in
  of_kind {|
    k_name := kind;
    k_check_input := fun _ => if on_input then unbuilt_verdict input_fail_open else Allow;
    k_check_output := fun _ => if on_output then unbuilt_verdict output_fail_open else Allow;
    k_stream_output_policy :=
      if output_fail_open then EndOfStreamCheck else BufferFull DEFAULT_STREAM_OUTPUT_BUFFER_BYTES false;
    k_runs_on_input := on_input;
    k_runs_on_output := on_output;
    k_checks_input_remotely := false;
    k_fails_closed_on_input := negb input_fail_open;
    k_fails_closed_on_output := negb output_fail_open;
    k_redacts_input := false;
    k_redacts_output := false;
    k_redact_input_text := fun _ => None;
    k_redact_output_text := fun _ => None;
    k_locates_input_hits := negb on_input;
    k_mask_input_hits := fun _ => None;
    k_moderates_segments := false;
    k_moderate_input_segments := fun _ _ _ => segments_allow;
    k_moderate_output_segments := fun _ => segments_allow;
    k_checks_local_segments := false;
    k_check_local_segments := fun _ _ => (Allow, []);
  |}.

(** ** The monitored row *)

Definition ACTION_WOULD_MASK : string := "would_mask".
Definition ACTION_WOULD_MASK_UNSUPPORTED : string := "would_mask_unsupported".

Definition observe (v : GuardrailVerdict) : GuardrailVerdict :=
  match v with Block _ _ _ => Allow | other => other end.

Definition NEWLINE : string := String (Ascii.ascii_of_nat 10) "".
Definition request_text (req : ChatFormat) : string :=
  String.concat NEWLINE
    (List.filter (fun s => negb (bool_decide (s = ""))) (message_scan_text <$> messages req)).

Section monitor.
Context (row_name kind : string) (inner : Guardrail).

Definition would_block_hit (hook : string) (unavailable : option string) : GuardrailMonitorHit :=
  mkHit row_name hook "would_block"
    match unavailable with
    | Some tag => kind +:+ " guardrail evaluation unavailable (" +:+ tag +:+ ")"
    | None => kind +:+ " guardrail policy matched"
    end (default "" unavailable) ∅.

Definition would_mask_hit (hook action : string) (counts : Counts) : GuardrailMonitorHit :=
  mkHit row_name hook action "" "" counts.

Definition observe_hit (hook : string) (v : GuardrailVerdict) (hits : list GuardrailMonitorHit) : Observed :=
  (observe v,
   match v with Block _ _ unavailable => hits ++ [would_block_hit hook unavailable] | _ => hits end).

Definition observe_segments (hook : string) (outcome : SegmentsOutcome) : SegmentsOutcome :=
  let hits :=
    match seg_masked outcome with
    | Some _ => seg_hits outcome ++ [would_mask_hit hook ACTION_WOULD_MASK (seg_counts outcome)]
    | None => seg_hits outcome
    end in
  let '(v, hits) := observe_hit hook (seg_verdict outcome) hits in
  mkOutcome v None ∅ hits.

Definition probe_redaction (hook action : string) (redacts : bool) (r : option Redaction)
    (hits : list GuardrailMonitorHit) : list GuardrailMonitorHit :=
  if redacts then
    match r with Some red => hits ++ [would_mask_hit hook action (red_counts red)] | None => hits end
  else hits.

Definition observe_input (mask_action : string) (req : ChatFormat) : Observed :=
  let '(v, hits) := observe_hit "input" (check_input inner req) [] in
  let text := request_text req in
  (v, probe_redaction "input" mask_action (redacts_input inner && negb (bool_decide (text = "")))
        (redact_input_text inner text) hits).

Definition observe_output (mask_action : string) (resp : ChatResponse) : Observed :=
  let '(v, hits) := observe_hit "output" (check_output inner resp) [] in
  let text := guardrail_output_text resp in
  (v, probe_redaction "output" mask_action (redacts_output inner && negb (bool_decide (text = "")))
        (redact_output_text inner text) hits).

Definition monitor_local_segments (segments : list ScanSegment) (input : bool) : Observed :=
  let hook := if input then "input" else "output" in
  let '(v, hits) := check_local_segments inner segments input in
  let '(v, hits) := observe_hit hook v hits in
  let redacts := if input then redacts_input inner else redacts_output inner in
  let redact := if input then redact_input_text inner else redact_output_text inner in
  if redacts then
    let counts :=
      foldl (fun counts seg =>
               match redact (seg_text seg) with
               | Some r => merge_counts counts (red_counts r)
               | None => counts
               end) ∅
        (List.filter (fun s => bool_decide (seg_role s = Rewritable)) segments) in
    if bool_decide (counts = ∅) then (v, hits)
    else (v, probe_redaction hook ACTION_WOULD_MASK true (Some (mkRedaction "" counts)) hits)
  else (v, hits).

Definition MonitorGuardrail : Guardrail :=
  mkGuardrail {|
    k_name := name inner;
    k_check_input := fun req => observe (check_input inner req);
    k_check_output := fun resp => observe (check_output inner resp);
    k_stream_output_policy := EndOfStreamCheck;
    k_runs_on_input := runs_on_input inner;
    k_runs_on_output := runs_on_output inner;
    k_checks_input_remotely := checks_input_remotely inner;
    k_fails_closed_on_input := fails_closed_on_input inner;
    k_fails_closed_on_output := fails_closed_on_output inner;
    k_redacts_input := false;
    k_redacts_output := false;
    k_redact_input_text := fun _ => None;
    k_redact_output_text := fun _ => None;
    k_locates_input_hits := true;
    k_mask_input_hits := fun _ => None;
    k_moderates_segments := moderates_segments inner;
    k_moderate_input_segments := fun texts newest model =>
      observe_segments "input" (moderate_input_segments inner texts newest model);
    k_moderate_output_segments := fun texts => observe_segments "output" (moderate_output_segments inner texts);
    k_checks_local_segments := checks_local_segments inner;
    k_check_local_segments := monitor_local_segments;
  |} (output_buffer_bytes inner) false false false
    (observe_input ACTION_WOULD_MASK) (observe_output ACTION_WOULD_MASK)
    (observe_input ACTION_WOULD_MASK_UNSUPPORTED) (observe_output ACTION_WOULD_MASK_UNSUPPORTED).
End monitor.

(** [apply_enforcement_mode]: an unknown mode enforces. *)
Definition apply_enforcement_mode (mode row_name kind : string) (inner : Guardrail) : Guardrail :=
  if bool_decide (mode = "monitor") then MonitorGuardrail row_name kind inner else inner.

(** ** The latest turn *)

Definition conversational (m : ChatMessage) : bool := negb (is_instruction (msg_role m)).
Definition from_assistant (m : ChatMessage) : bool := bool_decide (msg_role m = Assistant).

Lemma last_position_snoc {A} (p : A -> bool) l x :
  last_position p (l ++ [x]) = if p x then Some (length l) else last_position p l.
Proof.
  unfold last_position. rewrite fold_left_app. simpl.
  assert (forall acc, fst (fold_left (fun '(i, found) y => (S i, if p y then Some i else found)) l acc) = length l + fst acc) as Hf.
  { induction l as [|y l IH]; intros [i found]; simpl; [done|]. rewrite IH. simpl. lia. }
  specialize (Hf (0, None)). destruct (fold_left _ l (0, None)) as [i found]. simpl in *. subst i.
  destruct (p x); [f_equal; lia|done].
Qed.

Lemma last_position_None {A} (p : A -> bool) l : (forall x, x ∈ l -> p x = false) -> last_position p l = None.
Proof.
  induction l as [|x l IH] using rev_ind; [done|]. intros H. rewrite last_position_snoc, H by set_solver.
  apply IH. set_solver.
Qed.

Lemma last_position_app_r {A} (p : A -> bool) l l' :
  (forall x, x ∈ l' -> p x = false) -> last_position p (l ++ l') = last_position p l.
Proof.
  induction l' as [|x l' IH] using rev_ind; intros H; [by rewrite app_nil_r|].
  rewrite app_assoc, last_position_snoc, H by set_solver. apply IH. set_solver.
Qed.

Lemma filter_none_list {A} (p : A -> bool) l : (forall x, x ∈ l -> p x = false) -> List.filter p l = [].
Proof. induction l as [|x l IH]; [done|]. intros H. simpl. rewrite H by (by left). apply IH. set_solver. Qed.

(** Every shape of a request: instructions aside, an answered part that ends
    with an assistant message, the messages since, and the last message. *)
Lemma latest_turn_shape pre turn final trailing :
  (pre = [] \/ exists pre' a, pre = pre' ++ [a] /\ from_assistant a = true) ->
  (forall m, m ∈ turn -> from_assistant m = false) -> conversational final = true ->
  (forall m, m ∈ trailing -> conversational m = false) ->
  latest_turn_messages (pre ++ turn ++ [final] ++ trailing) = List.filter conversational turn ++ [final].
Proof.
  intros Hpre Hturn Hfinal Htr. unfold latest_turn_messages.
  change (fun m => negb (is_instruction (msg_role m))) with conversational.
  change (fun m => bool_decide (msg_role m = Assistant)) with from_assistant.
  assert (last_position conversational (pre ++ turn ++ [final] ++ trailing) = Some (length (pre ++ turn))) as ->.
  { rewrite !app_assoc, last_position_app_r by done. by rewrite last_position_snoc, Hfinal. }
  cbn [from_option id]. rewrite (app_assoc pre turn ([final] ++ trailing)), take_app_length, last_position_app_r by done.
  destruct Hpre as [-> |(pre' & a & -> & Ha)].
  - change (last_position from_assistant []) with (@None nat). rewrite app_nil_l, drop_0.
    rewrite List.filter_app. simpl. by rewrite Hfinal, (filter_none_list _ trailing).
  - rewrite last_position_snoc, Ha.
    replace (length pre' + 1) with (length (pre' ++ [a])) by (rewrite length_app; simpl; lia).
    rewrite <- (app_assoc _ turn), drop_app_length, List.filter_app. simpl. rewrite Hfinal.
    by rewrite (filter_none_list _ trailing).
Qed.

(** What a latest-turn rule reads.  In a request whose conversation ends with
    [final], the window is the messages since the last assistant message before
    [final], instructions dropped, and [final] itself: never empty, whatever
    instructions surround it.  But a prefill of two assistant messages is read as an
    answered turn: the window is then the last one alone, and the user's messages
    are not in it. *)
Theorem latest_turn_window chat pre turn final trailing :
  (pre = [] \/ exists pre' a, pre = pre' ++ [a] /\ from_assistant a = true) ->
  (forall m, m ∈ turn -> from_assistant m = false) -> conversational final = true ->
  (forall m, m ∈ trailing -> conversational m = false) ->
  messages (latest_turn_view (mkChat chat (pre ++ turn ++ [final] ++ trailing)))
    = List.filter conversational turn ++ [final] /\
  (forall a a', from_assistant a = true -> from_assistant a' = true ->
     messages (latest_turn_view (mkChat chat (pre ++ turn ++ [final; a; a'] ++ trailing))) = [a']).
Proof.
  intros Hpre Hturn Hfinal Htr. split; [by apply latest_turn_shape|].
  intros a a' Ha Ha'. simpl.
  replace (pre ++ turn ++ final :: a :: a' :: trailing)
    with ((pre ++ turn ++ [final; a]) ++ [] ++ [a'] ++ trailing) by (by rewrite <- !app_assoc).
  rewrite latest_turn_shape; [done| |by intros ? ?%elem_of_nil| |done].
  - right. exists (pre ++ turn ++ [final]), a. split; [by rewrite <- !app_assoc|done].
  - unfold from_assistant in Ha'. apply bool_decide_eq_true in Ha'. unfold conversational. by rewrite Ha'.
Qed.

(** ** The failure tag *)

Lemma ascii_lowercase_tag c : tag_char c = true -> ascii_lowercase c = c.
Proof.
  unfold tag_char, ascii_lowercase. rewrite !orb_true_iff, !andb_true_iff, !N.leb_le, N.eqb_eq.
  intros H. destruct (N.leb_spec 65 (Ascii.N_of_ascii c)), (N.leb_spec (Ascii.N_of_ascii c) 90); simpl; try done. lia.
Qed.

Lemma filter_idem {A} (p : A -> bool) l : (forall x, x ∈ l -> p x = true) -> List.filter p l = l.
Proof. induction l as [|x l IH]; [done|]. intros H. simpl. rewrite H by (by left). f_equal. apply IH. set_solver. Qed.

Lemma elem_of_bool_filter {A} (p : A -> bool) l x : x ∈ List.filter p l -> p x = true /\ x ∈ l.
Proof. rewrite !list_elem_of_In, filter_In. tauto. Qed.

(** A failure tag is safe to label a metric with.  It is never empty, has at
    most 64 characters, all lowercase letters, digits or underscores, whatever text
    a guardrail reports, and clamping it again changes nothing. *)
Theorem failure_tag_bounded tag :
  let chars := String.list_ascii_of_string (bounded_failure_tag tag) in
  chars <> [] /\ length chars <= 64 /\ (forall c, c ∈ chars -> tag_char c = true) /\
  bounded_failure_tag (bounded_failure_tag tag) = bounded_failure_tag tag.
Proof.
  cbv zeta. unfold bounded_failure_tag at 1 2 3 5 6.
  set (cleaned := take 64 (List.filter tag_char (ascii_lowercase <$> String.list_ascii_of_string tag))).
  assert (length cleaned <= 64 /\ forall c, c ∈ cleaned -> tag_char c = true) as [Hlen Hall].
  { split; [unfold cleaned; rewrite length_take; lia|]. intros c Hc.
    by apply elem_of_take, elem_of_bool_filter in Hc as (? & ?%list_elem_of_lookup_2%elem_of_bool_filter & _) || 
       (eapply (elem_of_bool_filter tag_char), subseteq_take, Hc). }
  destruct cleaned as [|c cleaned'] eqn:Ec.
  - split; [done|]. split; [simpl; lia|]. split; [|by vm_compute]. apply Forall_forall. by repeat constructor.
  - rewrite <- Ec in *. rewrite String.list_ascii_of_string_of_list_ascii. split; [by rewrite Ec|]. split; [done|].
    split; [done|]. unfold bounded_failure_tag. rewrite String.list_ascii_of_string_of_list_ascii.
    assert (ascii_lowercase <$> cleaned = cleaned) as ->.
    { rewrite <- (list_fmap_id cleaned) at 2. apply list_fmap_ext. intros i x Hx. apply ascii_lowercase_tag, Hall.
      by eapply list_elem_of_lookup_2. }
    rewrite filter_idem, take_ge by done. by rewrite Ec.
Qed.

(** ** The policy of several guardrails *)

Definition full_caps : list StreamOutputPolicy -> list (N * bool) :=
  omap (fun p => match p with BufferFull cap open => Some (cap, open) | _ => None end).
Definition windows : list StreamOutputPolicy -> list (N * N * (N * bool)) :=
  omap (fun p => match p with Window s o cap open => Some (s, o, (cap, open)) | _ => None end).

Definition least (l : list N) : N := foldr N.min usize_max l.
Definition greatest (l : list N) : N := foldr N.max 0%N l.

Definition full_over (caps : list (N * bool)) : StreamOutputPolicy :=
  BufferFull (least caps.*1) (forallb snd caps).
Definition window_over (ws : list (N * N * (N * bool))) : StreamOutputPolicy :=
  Window (least ws.*1.*1) (greatest ws.*1.*2) (least ws.*2.*1) (forallb snd ws.*2).

(** The strictest form any member asks for, tightened over the members of that
    form: the smallest cap, and open on overflow only if all are. *)
Definition strictest (l : list StreamOutputPolicy) : StreamOutputPolicy :=
  match full_caps l, windows l with
  | (_ :: _) as caps, _ => full_over caps
  | [], (_ :: _) as ws => window_over ws
  | [], [] => EndOfStreamCheck
  end.

(** The sizes are those of a [usize]. *)
Definition policy_ok (p : StreamOutputPolicy) : Prop :=
  match p with
  | EndOfStreamCheck => True
  | Window s _ cap _ => (s <= usize_max)%N /\ (cap <= usize_max)%N
  | BufferFull cap _ => (cap <= usize_max)%N
  end.

Lemma least_app l l' : least (l ++ l') = N.min (least l) (least l').
Proof.
  unfold least. induction l as [|x l IH]; simpl; [|rewrite IH; lia].
  induction l' as [|y l' IH']; simpl; lia.
Qed.
Lemma greatest_app l l' : greatest (l ++ l') = N.max (greatest l) (greatest l').
Proof. unfold greatest. induction l as [|x l IH]; simpl; [|rewrite IH]; lia. Qed.

Lemma stricter_window s o cap open s' o' cap' open' :
  (cap <= usize_max)%N ->
  stricter (Window s o cap open) (Window s' o' cap' open') =
    Window (N.min s s') (N.max o o') (N.min cap cap') (open && open').
Proof. intros Hc. unfold stricter. cbn -[N.min N.max usize_max]. f_equal. lia. Qed.

Lemma stricter_full cap open cap' open' :
  stricter (BufferFull cap open) (BufferFull cap' open') = BufferFull (N.min cap cap') (open && open').
Proof. unfold stricter. cbn -[N.min]. f_equal; [lia|]. by destruct open. Qed.

Lemma least_le l : (least l <= usize_max)%N.
Proof. induction l as [|x l IH]; simpl; lia. Qed.

Lemma full_over_snoc caps cap open :
  (cap <= usize_max)%N ->
  full_over (caps ++ [(cap, open)]) = stricter (full_over caps) (BufferFull cap open).
Proof.
  intros Hc. unfold full_over.
  rewrite stricter_full, !fmap_app, forallb_app, !least_app. cbn -[least N.min]. rewrite andb_true_r.
  f_equal. unfold least at 2. cbn -[N.min usize_max]. lia.
Qed.

Lemma window_over_snoc ws s o cap open :
  (s <= usize_max)%N -> (cap <= usize_max)%N ->
  window_over (ws ++ [(s, o, (cap, open))]) = stricter (window_over ws) (Window s o cap open).
Proof.
  intros Hs Hc. unfold window_over. rewrite stricter_window by apply least_le.
  rewrite !fmap_app, forallb_app, !least_app, greatest_app. cbn -[least greatest N.min N.max].
  rewrite andb_true_r. f_equal; unfold least, greatest; cbn -[N.min N.max usize_max]; lia.
Qed.

Lemma strictest_snoc l p : policy_ok p -> strictest (l ++ [p]) = stricter (strictest l) p.
Proof.
  intros Hp. unfold strictest. assert (full_caps (l ++ [p]) = full_caps l ++ full_caps [p]) as -> by apply omap_app.
  assert (windows (l ++ [p]) = windows l ++ windows [p]) as -> by apply omap_app.
  generalize (full_caps l) (windows l). intros caps ws. destruct p as [|s o cap open|cap open].
  - cbn [full_caps windows omap list_omap]. rewrite !app_nil_r. destruct caps; [by destruct ws|done].
  - destruct Hp as [Hs Hc]. cbn [full_caps windows omap list_omap]. rewrite app_nil_r.
    destruct caps as [|c caps]; [|done]. destruct ws as [|w ws]; [|by apply (window_over_snoc (w :: ws))].
    unfold window_over. cbn -[N.min N.max usize_max]. by rewrite andb_true_r, !N.min_l, N.max_0_r by done.
  - cbn [full_caps windows omap list_omap]. destruct caps as [|c caps].
    + unfold full_over. cbn -[N.min N.max usize_max]. rewrite andb_true_r, N.min_l by done. by destruct ws.
    + by apply (full_over_snoc (c :: caps)).
Qed.

Lemma strictest_fold l :
  (forall p, p ∈ l -> policy_ok p) -> fold_left stricter l EndOfStreamCheck = strictest l.
Proof.
  induction l as [|p l IH] using rev_ind; intros Hl; [done|].
  rewrite fold_left_app, IH by set_solver. simpl. symmetry. apply strictest_snoc, Hl. set_solver.
Qed.

Lemma least_perm l l' : l ≡ₚ l' -> least l = least l'.
Proof. induction 1; simpl; lia. Qed.
Lemma greatest_perm l l' : l ≡ₚ l' -> greatest l = greatest l'.
Proof. induction 1; simpl; lia. Qed.
Lemma forallb_perm {A} (p : A -> bool) l l' : l ≡ₚ l' -> forallb p l = forallb p l'.
Proof. induction 1; simpl; try congruence. by destruct (p x), (p y). Qed.

(** The order of the members does not matter. *)
Lemma strictest_perm l l' : l ≡ₚ l' -> strictest l = strictest l'.
Proof.
  intros H. unfold strictest.
  assert (full_caps l ≡ₚ full_caps l') as Hc by (by apply omap_Permutation).
  assert (windows l ≡ₚ windows l') as Hw by (by apply omap_Permutation).
  destruct (full_caps l) as [|c caps] eqn:E, (full_caps l') as [|c' caps'] eqn:E';
    [|by apply Permutation_nil_cons in Hc|by symmetry in Hc; apply Permutation_nil_cons in Hc|].
  - destruct (windows l) as [|w ws] eqn:F, (windows l') as [|w' ws'] eqn:F';
      [done|by apply Permutation_nil_cons in Hw|by symmetry in Hw; apply Permutation_nil_cons in Hw|].
    rewrite <- F, <- F' in *.
    unfold window_over. rewrite (least_perm _ _ (fmap_Permutation fst _ _ (fmap_Permutation fst _ _ Hw))),
      (greatest_perm _ _ (fmap_Permutation snd _ _ (fmap_Permutation fst _ _ Hw))),
      (least_perm _ _ (fmap_Permutation fst _ _ (fmap_Permutation snd _ _ Hw))),
      (forallb_perm snd _ _ (fmap_Permutation snd _ _ Hw)). done.
  - rewrite <- E, <- E' in *.
    unfold full_over. by rewrite (least_perm _ _ (fmap_Permutation fst _ _ Hc)), (forallb_perm snd _ _ Hc).
Qed.

(** ** A concrete guardrail

    It refuses one word, wherever it stands alone, and masks another. *)
Definition demo_word (refused masked : string) (policy : StreamOutputPolicy) : Guardrail :=
  let check texts := if existsb (fun t => bool_decide (t = refused)) texts then block "refused word" else Allow in
  let moderate texts :=
    mkOutcome (check texts)
      (if existsb (fun t => bool_decide (t = masked)) texts
       then Some ((fun t => if bool_decide (t = masked) then "***" else t) <$> texts) else None) ∅ [] in
  of_kind {|
    k_name := "demo";
    k_check_input := fun req => check (message_scan_text <$> messages req);
    k_check_output := fun resp => check [guardrail_output_text resp];
    k_stream_output_policy := policy;
    k_runs_on_input := true;
    k_runs_on_output := true;
    k_checks_input_remotely := true;
    k_fails_closed_on_input := true;
    k_fails_closed_on_output := true;
    k_redacts_input := false;
    k_redacts_output := false;
    k_redact_input_text := fun _ => None;
    k_redact_output_text := fun _ => None;
    k_locates_input_hits := true;
    k_mask_input_hits := fun _ => None;
    k_moderates_segments := true;
    k_moderate_input_segments := fun texts _ _ => moderate texts;
    k_moderate_output_segments := moderate;
    k_checks_local_segments := false;
    k_check_local_segments := fun _ _ => (Allow, []);
  |}.

Definition demo_chat : ChatFormat :=
  mkChat "model"
    [mkMessage System "be brief"; mkMessage User "old"; mkMessage Assistant "answer"; mkMessage User "stop"].

Lemma latest_turn_window_witness :
  messages (latest_turn_view demo_chat) = [mkMessage User "stop"] /\
  messages (latest_turn_view (mkChat "model" (messages demo_chat ++ [mkMessage Assistant "a"; mkMessage Assistant "b"])))
    = [mkMessage Assistant "b"].
Proof.
  destruct (latest_turn_window "model"
    [mkMessage System "be brief"; mkMessage User "old"; mkMessage Assistant "answer"] [] (mkMessage User "stop") [])
    as [H H'].
  - right. exists [mkMessage System "be brief"; mkMessage User "old"], (mkMessage Assistant "answer"). by split.
  - by intros ? ?%elem_of_nil.
  - done.
  - by intros ? ?%elem_of_nil.
  - split; [exact H|]. by apply (H' (mkMessage Assistant "a") (mkMessage Assistant "b")).
Defined.
