(* ===== verification/Chain.v ===== *)
(** * Guardrail chains

    [crates/aisix-guardrails/src/chain.rs] and the request's audit log
    [audit.rs].  A chain is its members and what it reports to: the metrics
    sink as the list of events it has received, and the log.  Every operation
    returns its answer and the receivers as it leaves them.

    The nine check folds of the source are one loop with what a member is asked,
    whether the answer counts as an execution, and what follows it.  Durations
    and similarity scores are not modelled. *)

From S2P Require Import Prelude Guardrail.
Local Open Scope nat_scope.

(** ** The audit log *)

Definition HitKey : Type := string * string * string * string.
Record GuardrailEnforcedHit := mkEnforced {
  enf_name : string;
  enf_hook : string;
  enf_action : string;
  enf_error_type : string;
  enf_counts : Counts;
}.
Record GuardrailAuditLog := mkAudit {
  audit_hits : gmap HitKey GuardrailEnforcedHit;
  audit_bypass : option string;
}.
Definition audit_new : GuardrailAuditLog := mkAudit ∅ None.

Definition sat_add32 (a b : N) : N := N.min (a + b) (u32_mod - 1).
Definition add_hit_counts (into other : Counts) : Counts :=
  union_with (fun a b => Some (sat_add32 a b)) into other.

Definition audit_record (name hook action : string) (error_type : option string) (counts : Counts)
    (log : GuardrailAuditLog) : GuardrailAuditLog :=
  let error_type := default "" error_type in
  let key := (name, hook, action, error_type) in
  let entry := default (mkEnforced name hook action error_type ∅) (audit_hits log !! key) in
  let entry := mkEnforced (enf_name entry) (enf_hook entry) (enf_action entry) (enf_error_type entry)
                 (add_hit_counts (enf_counts entry) counts) in
  mkAudit (<[key := entry]> (audit_hits log)) (audit_bypass log).

(** First one sticks. *)
Definition audit_record_bypass (reason : string) (log : GuardrailAuditLog) : GuardrailAuditLog :=
  match audit_bypass log with
  | None => mkAudit (audit_hits log) (Some (bounded_failure_tag reason))
  | Some _ => log
  end.

(** ** Members and receivers *)

Inductive GuardrailInputMessages := AllMessages | LatestTurn.
#[export] Instance GuardrailInputMessages_eq_dec : EqDecision GuardrailInputMessages.
Proof. solve_decision. Defined.

Record ChainMember := mkMember {
  m_name : string;
  m_kind : string;
  m_guardrail : Guardrail;
  m_input_messages : GuardrailInputMessages;
}.

Definition applies (m : ChainMember) (input : bool) : bool :=
  if input then runs_on_input (m_guardrail m) else runs_on_output (m_guardrail m).

Inductive SinkEvent :=
  | SinkExecution (guardrail_name kind phase result : string) (error_type : option string)
  | SinkBypass (tag : string).

Record Recorders := mkRecorders { rec_sink : option (list SinkEvent); rec_audit : option GuardrailAuditLog }.

Record AppliedGuardrail := mkApplied { applied_kind : string; applied_hook : GuardrailHookPoint }.

Record GuardrailChain := mkChain { members : list ChainMember; applied : list AppliedGuardrail; recorders : Recorders }.

Definition chain_new (guardrails : list Guardrail) : GuardrailChain :=
  mkChain ((fun g => mkMember (name g) (name g) g AllMessages) <$> guardrails) [] (mkRecorders None None).

Definition new_with_applied (rows : list (string * Guardrail * GuardrailInputMessages)) (applied : list AppliedGuardrail)
    : GuardrailChain :=
  mkChain
    (imap (fun i '(n, g, w) =>
       mkMember n match applied !! i with Some a => applied_kind a | None => name g end g w) rows)
    applied (mkRecorders None None).

Definition with_metrics_sink (sink : option (list SinkEvent)) (c : GuardrailChain) : GuardrailChain :=
  mkChain (members c) (applied c) (mkRecorders sink (rec_audit (recorders c))).
Definition with_audit_log (audit : option GuardrailAuditLog) (c : GuardrailChain) : GuardrailChain :=
  mkChain (members c) (applied c) (mkRecorders (rec_sink (recorders c)) audit).
Definition without_audit (c : GuardrailChain) : GuardrailChain := with_audit_log None c.

Definition to_sink (e : SinkEvent) (to : Recorders) : Recorders :=
  mkRecorders ((fun l => l ++ [e]) <$> rec_sink to) (rec_audit to).
Definition to_audit (f : GuardrailAuditLog -> GuardrailAuditLog) (to : Recorders) : Recorders :=
  mkRecorders (rec_sink to) (f <$> rec_audit to).

Definition latest_turn_view_if_needed (ms : list ChainMember) (req : ChatFormat) : option ChatFormat :=
  if existsb (fun m => bool_decide (m_input_messages m = LatestTurn)) ms then Some (latest_turn_view req) else None.

Definition member_input (m : ChainMember) (req : ChatFormat) (narrowed : option ChatFormat) : ChatFormat :=
  match m_input_messages m with
  | AllMessages => req
  | LatestTurn => default req narrowed
  end.

(** ** Reporting an execution *)

Definition has_action (action : string) (hits : list GuardrailMonitorHit) : bool :=
  existsb (fun h => bool_decide (hit_action h = action)) hits.

Definition classify_execution (v : GuardrailVerdict) (masked : bool) (hits : list GuardrailMonitorHit)
    : string * option string :=
  match v with
  | Block _ _ unavailable => ("blocked", unavailable)
  | Bypass reason => ("bypassed", Some reason)
  | Allow =>
      if masked then ("masked", None)
      else if has_action "would_block" hits then
        ("would_block",
         hit_error_type <$> List.find (fun h => bool_decide (hit_action h = "would_block")
                                             && negb (bool_decide (hit_error_type h = ""))) hits)
      else if has_action ACTION_WOULD_MASK hits then (ACTION_WOULD_MASK, None)
      else if has_action ACTION_WOULD_MASK_UNSUPPORTED hits then (ACTION_WOULD_MASK_UNSUPPORTED, None)
      else ("allowed", None)
  end.

Definition record_execution (to : Recorders) (m : ChainMember) (phase : string) (v : GuardrailVerdict)
    (masked : bool) (hits : list GuardrailMonitorHit) (counts : option Counts) : Recorders :=
  let '(res, error_type) := classify_execution v masked hits in
  let to := to_sink (SinkExecution (m_name m) (m_kind m) phase res error_type) to in
  let to := match bypass_reason v with Some tag => to_audit (audit_record_bypass tag) to | None => to end in
  let to :=
    match bool_decide (res = "would_block"), error_type with
    | true, Some tag =>
        let tag := bounded_failure_tag tag in
        to_sink (SinkBypass tag) (to_audit (audit_record_bypass tag) to)
    | _, _ => to
    end in
  if bool_decide (res = "blocked") || bool_decide (res = "masked") then
    let counts := if bool_decide (res = "masked") then default ∅ counts else ∅ in
    let action :=
      match bool_decide (res = "blocked"), error_type with true, Some _ => "blocked_unavailable" | _, _ => res end in
    to_audit (audit_record (m_name m) phase action error_type counts) to
  else to.

Definition attribute_block (member_name reason : string) (guardrail_name unavailable : option string)
    : GuardrailVerdict :=
  match guardrail_name with
  | Some _ => Block reason guardrail_name unavailable
  | None => Block ("guardrail '" +:+ member_name +:+ "': " +:+ reason) (Some member_name) unavailable
  end.

Definition final_verdict (bypass : option string) : GuardrailVerdict :=
  match bypass with Some reason => Bypass reason | None => Allow end.

(** ** The check folds *)

Section fold.
Context (phase : string) (recorded : ChainMember -> bool) (ask : ChainMember -> Observed).
Context (after : ChainMember -> GuardrailVerdict -> Recorders -> Recorders).

Fixpoint fold_checks (ms : list ChainMember) (bypass : option string) (hits : list GuardrailMonitorHit)
    (to : Recorders) : Observed * Recorders :=
  match ms with
  | [] => (final_verdict bypass, hits, to)
  | m :: ms =>
      let '(v, member_hits) := ask m in
      let to := if recorded m then record_execution to m phase v false member_hits None else to in
      let hits := hits ++ member_hits in
      let to := after m v to in
      match v with
      | Allow => fold_checks ms bypass hits to
      | Block reason guardrail_name unavailable =>
          (attribute_block (m_name m) reason guardrail_name unavailable, hits, to)
      | Bypass reason => fold_checks ms (or_else bypass (Some reason)) hits to
      end
  end.
End fold.

Definition ACTION_BLOCKED_BUFFER_EXCEEDED : string := "blocked_buffer_exceeded".
Definition ACTION_MASK_UNSUPPORTED : string := "mask_unsupported".

Definition record_mask_unsupported (m : ChainMember) (phase : string) (redacted : option Redaction) (to : Recorders)
    : Recorders :=
  match redacted with
  | Some r => to_audit (audit_record (m_name m) phase ACTION_MASK_UNSUPPORTED None (red_counts r)) to
  | None => to
  end.

Definition every : ChainMember -> bool := fun _ => true.
Definition nothing_after (m : ChainMember) (v : GuardrailVerdict) (to : Recorders) : Recorders := to.

Section chain.
Context (c : GuardrailChain).

Definition readers (input : bool) : list ChainMember := List.filter (fun m => applies m input) (members c).

Definition run (phase : string) recorded ask after (ms : list ChainMember) : Observed * Recorders :=
  fold_checks phase recorded ask after ms None [] (recorders c).

(** A check that reports no observations of its own. *)
Definition plain (v : GuardrailVerdict) : Observed := (v, []).
Definition verdict_of (r : Observed * Recorders) : GuardrailVerdict * Recorders := (r.1.1, r.2).

Definition input_for (req : ChatFormat) (m : ChainMember) : ChatFormat :=
  member_input m req (latest_turn_view_if_needed (members c) req).

Definition chain_check_input (req : ChatFormat) : GuardrailVerdict * Recorders :=
  verdict_of (run "input" every (fun m => plain (check_input (m_guardrail m) (input_for req m))) nothing_after
                (readers true)).

Definition chain_check_output (resp : ChatResponse) : GuardrailVerdict * Recorders :=
  verdict_of (run "output" every (fun m => plain (check_output (m_guardrail m) resp)) nothing_after (readers false)).

Definition fold_input_observed (req : ChatFormat) (unmaskable : bool) : Observed * Recorders :=
  run "input" every
    (fun m => let input := input_for req m in
              if unmaskable then check_input_unmaskable_observed (m_guardrail m) input
              else check_input_observed (m_guardrail m) input)
    (fun m v to =>
       if unmaskable && negb (is_block v) && redacts_input (m_guardrail m) then
         record_mask_unsupported m "input" (redact_input_text (m_guardrail m) (request_text (input_for req m))) to
       else to)
    (readers true).

Definition fold_output_observed (resp : ChatResponse) (unmaskable : bool) : Observed * Recorders :=
  run "output" every
    (fun m => if unmaskable then check_output_unmaskable_observed (m_guardrail m) resp
              else check_output_observed (m_guardrail m) resp)
    (fun m v to =>
       if unmaskable && negb (is_block v) && redacts_output (m_guardrail m) then
         record_mask_unsupported m "output" (redact_output_text (m_guardrail m) (guardrail_output_text resp)) to
       else to)
    (readers false).

Definition unjudged (m : ChainMember) : bool := negb (judged_by_segments (m_guardrail m)).

Definition chain_check_output_non_local_observed (resp : ChatResponse) : Observed * Recorders :=
  run "output" (fun m => negb (checks_local_segments (m_guardrail m)))
    (fun m => check_output_non_local_observed (m_guardrail m) resp) nothing_after (readers false).

Definition chain_check_input_non_segment_observed (req : ChatFormat) : Observed * Recorders :=
  run "input" unjudged (fun m => check_input_non_segment_observed (m_guardrail m) (input_for req m)) nothing_after
    (readers true).

Definition chain_check_output_non_segment_observed (resp : ChatResponse) : Observed * Recorders :=
  run "output" unjudged (fun m => check_output_non_segment_observed (m_guardrail m) resp) nothing_after (readers false).

Definition chain_check_input_non_segment (req : ChatFormat) : GuardrailVerdict * Recorders :=
  verdict_of (run "input" unjudged (fun m => plain (check_input_non_segment (m_guardrail m) (input_for req m)))
                nothing_after (readers true)).

Definition chain_check_output_non_segment (resp : ChatResponse) : GuardrailVerdict * Recorders :=
  verdict_of (run "output" unjudged (fun m => plain (check_output_non_segment (m_guardrail m) resp)) nothing_after
                (readers false)).

Definition chain_check_local_segments (segments : list ScanSegment) (input : bool) : Observed * Recorders :=
  let view m :=
    if input && bool_decide (m_input_messages m = LatestTurn) then List.filter in_latest_turn segments else segments in
  run (if input then "input" else "output") every
    (fun m => check_local_segments (m_guardrail m) (view m) input) nothing_after
    (List.filter (fun m => checks_local_segments (m_guardrail m) && applies m input) (members c)).

(** ** What the chain says of itself *)

Definition some_member (p : Guardrail -> bool) : bool := existsb (fun m => p (m_guardrail m)) (members c).

Definition output_members : list ChainMember := List.filter (fun m => runs_on_output (m_guardrail m)) (members c).

Definition chain_stream_output_policy : StreamOutputPolicy :=
  fold_left stricter ((fun m => stream_output_policy (m_guardrail m)) <$> output_members) EndOfStreamCheck.

Definition chain_output_buffer_bytes : N :=
  match (fun m => output_buffer_bytes (m_guardrail m)) <$> output_members with
  | [] => DEFAULT_STREAM_OUTPUT_BUFFER_BYTES
  | n :: ns => fold_left N.min ns n
  end.

Definition chain_runs_on_output : bool := some_member runs_on_output.
Definition chain_checks_input_remotely : bool := some_member checks_input_remotely.
Definition chain_runs_on_input : bool := some_member runs_on_input.
Definition chain_enforces_input : bool := some_member enforces_input.
Definition chain_fails_closed_on_input : bool := some_member fails_closed_on_input.
Definition chain_fails_closed_on_output : bool := some_member fails_closed_on_output.
Definition chain_refuses_unevaluable_input : bool := some_member refuses_unevaluable_input.
Definition chain_refuses_unevaluable_output : bool := some_member refuses_unevaluable_output.
Definition chain_moderates_segments : bool := some_member moderates_segments.
Definition chain_checks_local_segments : bool := some_member checks_local_segments.
Definition chain_redacts_input : bool := some_member redacts_input.
Definition chain_redacts_output : bool := some_member redacts_output.

(** The discriminants compared are those of the policies' forms. *)
Definition output_buffer_owner : option string :=
  fst <$> fold_left
    (fun owner m =>
       let policy := stream_output_policy (m_guardrail m) in
       if rank policy =? rank chain_stream_output_policy then
         match hold_cap policy with
         | Some (max_buffer_bytes, _) =>
             match owner with
             | None => Some (m_name m, max_buffer_bytes)
             | Some (_, cap) =>
                 if (max_buffer_bytes <? cap)%N then Some (m_name m, max_buffer_bytes) else owner
             end
         | None => owner
         end
       else owner) output_members None.

Definition record_output_buffer_exceeded : Recorders :=
  match output_buffer_owner with
  | Some n => to_audit (audit_record n "output" ACTION_BLOCKED_BUFFER_EXCEEDED None ∅) (recorders c)
  | None => recorders c
  end.

Definition record_bypass (reason : string) : Recorders :=
  let tag := bounded_failure_tag reason in
  to_sink (SinkBypass tag) (to_audit (audit_record_bypass tag) (recorders c)).

Definition record_unevaluable_input_bypass (reason : string) : Recorders :=
  if chain_runs_on_input && negb chain_refuses_unevaluable_input then record_bypass reason else recorders c.
Definition record_unevaluable_output_bypass (reason : string) : Recorders :=
  if chain_runs_on_output && negb chain_refuses_unevaluable_output then record_bypass reason else recorders c.

Definition chain_bypass_reason : option string := a ← rec_audit (recorders c); audit_bypass a.
Definition chain_locates_input_hits : bool :=
  bool_decide (chain_bypass_reason = None) && forallb (fun m => locates_input_hits (m_guardrail m)) (members c).

Definition chain_mask_input_hits (text : string) : option string :=
  fold_left (fun masked m => or_else (mask_input_hits (m_guardrail m) (default text masked)) masked) (members c) None.
End chain.

(** ** Segments *)

Section segments.
Context (input : bool) (newest_from : option nat) (in_turn : option (list bool)) (model : option string).
Context (texts : list string).

(** The slots a member may read, [None] for all of them. *)
Definition segment_window (m : ChainMember) (n : nat) : option (list nat) :=
  match m_input_messages m, in_turn with
  | LatestTurn, Some flags =>
      let idx := List.filter (fun i => default true (flags !! i)) (seq 0 n) in
      if length idx =? n then None else Some idx
  | _, _ => None
  end.

Definition narrow (window : option (list nat)) (full : list string) : list string :=
  match window with Some idx => omap (fun i => full !! i) idx | None => full end.

Definition member_newest (window : option (list nat)) : option nat :=
  match window, newest_from with
  | Some idx, Some newest => fst <$> list_find (fun i => newest <= i) idx
  | _, newest => newest
  end.

Definition moderate (m : ChainMember) (window : option (list nat)) (src : list string) : SegmentsOutcome :=
  if input then moderate_input_segments (m_guardrail m) src (member_newest window) model
  else moderate_output_segments (m_guardrail m) src.

(** A mask that does not line up is dropped and the member blocks. *)
Definition aligned (n : nat) (outcome : SegmentsOutcome) : SegmentsOutcome :=
  match seg_masked outcome with
  | Some masked =>
      if length masked =? n then outcome
      else
        mkOutcome
          (if is_block (seg_verdict outcome) then seg_verdict outcome
           else block_unavailable "segment moderation returned misaligned mask" "mask_writeback_failed")
          None ∅ (seg_hits outcome)
  | None => outcome
  end.

Definition splice (window : option (list nat)) (full new_masked : list string) : list string :=
  match window with
  | Some idx => fold_left (fun s '(i, x) => <[i := x]> s) (zip idx new_masked) full
  | None => new_masked
  end.

Fixpoint fold_segments (ms : list ChainMember) (masked : option (list string)) (counts : Counts)
    (bypass : option string) (hits : list GuardrailMonitorHit) (to : Recorders) : SegmentsOutcome * Recorders :=
  match ms with
  | [] => (mkOutcome (final_verdict bypass) masked counts hits, to)
  | m :: ms =>
      if moderates_segments (m_guardrail m) && applies m input then
        let full := default texts masked in
        let window := segment_window m (length full) in
        let src := narrow window full in
        let outcome := aligned (length src) (moderate m window src) in
        let to :=
          record_execution to m (if input then "input" else "output") (seg_verdict outcome)
            (bool_decide (is_Some (seg_masked outcome))) (seg_hits outcome) (Some (seg_counts outcome)) in
        let hits := hits ++ seg_hits outcome in
        let '(masked, counts) :=
          match seg_masked outcome with
          | Some new_masked => (Some (splice window full new_masked), merge_counts counts (seg_counts outcome))
          | None => (masked, counts)
          end in
        match seg_verdict outcome with
        | Allow => fold_segments ms masked counts bypass hits to
        | Block reason guardrail_name unavailable =>
            (mkOutcome (attribute_block (m_name m) reason guardrail_name unavailable) None ∅ hits, to)
        | Bypass reason => fold_segments ms masked counts (or_else bypass (Some reason)) hits to
        end
      else fold_segments ms masked counts bypass hits to
  end.
End segments.

Definition chain_moderate_input_segments (c : GuardrailChain) (texts : list string) (newest : option nat)
    : SegmentsOutcome * Recorders :=
  fold_segments true newest None None texts (members c) None ∅ None [] (recorders c).
Definition chain_moderate_input_segments_for_model (c : GuardrailChain) (texts : list string) (newest : option nat)
    (model : option string) : SegmentsOutcome * Recorders :=
  fold_segments true newest None model texts (members c) None ∅ None [] (recorders c).
Definition chain_moderate_input_segments_in_turn (c : GuardrailChain) (texts : list string) (in_latest_turn : list bool)
    (newest : option nat) (model : option string) : SegmentsOutcome * Recorders :=
  fold_segments true newest (Some in_latest_turn) model texts (members c) None ∅ None [] (recorders c).
Definition chain_moderate_output_segments (c : GuardrailChain) (texts : list string) : SegmentsOutcome * Recorders :=
  fold_segments false None None None texts (members c) None ∅ None [] (recorders c).

(** ** Redaction *)

Definition fold_redaction_step (phase : string) (redact : ChainMember -> string -> option Redaction) (text : string)
    (st : option Redaction * Recorders) (m : ChainMember) : option Redaction * Recorders :=
  let '(current, to) := st in
  match redact m match current with Some r => red_text r | None => text end with
  | Some r =>
      (Some match current with
            | None => r
            | Some acc => mkRedaction (red_text r) (merge_counts (red_counts acc) (red_counts r))
            end,
       to_audit (audit_record (m_name m) phase "masked" None (red_counts r)) to)
  | None => (current, to)
  end.

Definition fold_redactions (text : string) (ms : list ChainMember) (input : bool) (to : Recorders)
    : option Redaction * Recorders :=
  let redact m := if input then redact_input_text (m_guardrail m) else redact_output_text (m_guardrail m) in
  fold_left (fold_redaction_step (if input then "input" else "output") redact text) ms (None, to).

Definition redact_input_text_in_turn (c : GuardrailChain) (text : string) (in_turn : bool)
    : option Redaction * Recorders :=
  fold_redactions text
    (List.filter (fun m => redacts_input (m_guardrail m)
                        && (in_turn || bool_decide (m_input_messages m = AllMessages))) (members c))
    true (recorders c).
Definition chain_redact_input_text (c : GuardrailChain) (text : string) : option Redaction * Recorders :=
  redact_input_text_in_turn c text true.
Definition chain_redact_output_text (c : GuardrailChain) (text : string) : option Redaction * Recorders :=
  fold_redactions text (List.filter (fun m => redacts_output (m_guardrail m)) (members c)) false (recorders c).

(** ** What a chain answers *)

Section decision.
Context (ask : ChainMember -> Observed).

Definition blocking (m : ChainMember) : bool := is_block (ask m).1.

(** The members a fold reaches: all up to the first that blocks. *)
Fixpoint consulted (ms : list ChainMember) : list ChainMember :=
  match ms with
  | [] => []
  | m :: ms => m :: if blocking m then [] else consulted ms
  end.

Definition attributed (m : ChainMember) : GuardrailVerdict :=
  match (ask m).1 with
  | Block reason guardrail_name unavailable => attribute_block (m_name m) reason guardrail_name unavailable
  | v => v
  end.

(** The first block, in the name of the member that fired; else the first
    bypass. *)
Definition decision (ms : list ChainMember) : GuardrailVerdict :=
  match List.find blocking ms with
  | Some m => attributed m
  | None => final_verdict (head (omap (fun m => bypass_reason (ask m).1) ms))
  end.

Definition observations (ms : list ChainMember) : list GuardrailMonitorHit := flat_map (fun m => (ask m).2) ms.

Definition report_member phase (recorded : ChainMember -> bool) after (to : Recorders) (m : ChainMember) : Recorders :=
  after m (ask m).1 (if recorded m then record_execution to m phase (ask m).1 false (ask m).2 None else to).

Lemma fold_checks_spec phase recorded after ms : forall bypass hits to,
  fold_checks phase recorded ask after ms bypass hits to =
    (match List.find blocking ms with
     | Some m => attributed m
     | None => final_verdict (or_else bypass (head (omap (fun m => bypass_reason (ask m).1) ms)))
     end,
     hits ++ observations (consulted ms),
     fold_left (report_member phase recorded after) (consulted ms) to).
Proof.
  induction ms as [|m ms IH]; intros bypass hits to; [simpl; rewrite app_nil_r; by destruct bypass|].
  cbn [List.find consulted fold_checks fold_left observations flat_map].
  change (fold_left ?f ?l (report_member phase recorded after to m)) with (fold_left f l (report_member phase recorded after to m)).
  unfold report_member at 2, attributed, blocking. destruct (ask m) as [v hs] eqn:E. cbn [fst snd].
  destruct v as [|r n u|r]; cbn [is_block omap list_omap bypass_reason].
  - rewrite IH, <- app_assoc, E. done.
  - cbn. by rewrite app_nil_r, ?E.
  - rewrite IH, <- app_assoc, E. by destruct bypass.
Qed.

Lemma run_spec c phase recorded after ms :
  run c phase recorded ask after ms =
    (decision ms, observations (consulted ms), fold_left (report_member phase recorded after) (consulted ms) (recorders c)).
Proof. unfold run. by rewrite fold_checks_spec. Qed.

Lemma consulted_prefix ms : exists rest, ms = consulted ms ++ rest.
Proof.
  induction ms as [|m ms [rest IH]]; [by exists []|]. simpl. destruct (blocking m); [by exists ms|].
  exists rest. simpl. by f_equal.
Qed.

Lemma consulted_all ms : List.find blocking ms = None -> consulted ms = ms.
Proof. induction ms as [|m ms IH]; [done|]. simpl. destruct (blocking m); [done|]. intros H. by rewrite IH. Qed.

Lemma consulted_block ms m :
  List.find blocking ms = Some m -> exists before, consulted ms = before ++ [m] /\ blocking m = true.
Proof.
  induction ms as [|x ms IH]; [done|]. simpl. destruct (blocking x) eqn:E.
  - intros [= ->]. by exists [].
  - intros (before & -> & Hb)%IH. by exists (x :: before).
Qed.

Lemma consulted_before ms before m : consulted ms = before ++ [m] -> Forall (fun m' => is_block (ask m').1 = false) before.
Proof.
  revert before. induction ms as [|x ms IH]; intros before; simpl; [by destruct before|].
  destruct before as [|y before]; [constructor|]. destruct (blocking x) eqn:Hx; intros [= -> E]; [by destruct before|].
  constructor; [exact Hx|by apply IH].
Qed.

Lemma decision_block ms reason n u :
  decision ms = Block reason n u ->
  exists before m reason' n', consulted ms = before ++ [m] /\
    (ask m).1 = Block reason' n' u /\ n = Some (default (m_name m) n').
Proof.
  unfold decision. destruct (List.find blocking ms) as [m|] eqn:E; [|by destruct (head _)].
  destruct (consulted_block _ _ E) as (before & Hc & Hb). unfold attributed, attribute_block. revert Hb.
  unfold blocking. destruct (ask m).1 as [|r n0 u0|] eqn:Ea; try done. intros _ Hd.
  exists before, m, r, n0. rewrite Hc, Ea. destruct n0; simplify_eq/=; by split_and!.
Qed.
End decision.

(** ** What is reported *)

Definition execution_of (e : SinkEvent) : option (string * string) :=
  match e with SinkExecution n _ _ res _ => Some (n, res) | SinkBypass _ => None end.
Definition executions (to : Recorders) : list (string * string) := omap execution_of (default [] (rec_sink to)).

Lemma to_audit_sink f to : rec_sink (to_audit f to) = rec_sink to.
Proof. done. Qed.

Lemma record_execution_sink to m phase v masked hits counts sink :
  rec_sink to = Some sink ->
  exists more, rec_sink (record_execution to m phase v masked hits counts) = Some (sink ++ more) /\
    omap execution_of more = [(m_name m, (classify_execution v masked hits).1)].
Proof.
  intros Hs. unfold record_execution. destruct (classify_execution v masked hits) as [res et].
  set (to1 := to_sink _ to). assert (rec_sink to1 = Some (sink ++ [SinkExecution (m_name m) (m_kind m) phase res et])) as H1.
  { unfold to1, to_sink. simpl. by rewrite Hs. }
  set (to2 := match bypass_reason v with Some tag => _ | None => _ end).
  assert (rec_sink to2 = rec_sink to1) as H2 by (unfold to2; by destruct (bypass_reason v)).
  set (to3 := match bool_decide (res = "would_block"), et with true, Some tag => _ | _, _ => _ end).
  assert (exists tags, rec_sink to3 = Some (sink ++ SinkExecution (m_name m) (m_kind m) phase res et :: (SinkBypass <$> tags))) as [tags H3].
  { unfold to3. destruct (bool_decide (res = "would_block")), et as [tag|];
      try (exists []; rewrite H2, H1; done).
    exists [bounded_failure_tag tag]. unfold to_sink. rewrite to_audit_sink, H2, H1. simpl. by rewrite <- app_assoc. }
  eexists (SinkExecution (m_name m) (m_kind m) phase res et :: (SinkBypass <$> tags)). split.
  - destruct (_ || _); [rewrite to_audit_sink|]; apply H3.
  - simpl. f_equal. clear. induction tags as [|t tags IH]; [done|]. apply IH.
Qed.

Lemma reports_sink ask phase recorded ms to sink :
  rec_sink to = Some sink ->
  exists more, rec_sink (fold_left (report_member ask phase recorded nothing_after) ms to) = Some (sink ++ more) /\
    omap execution_of more =
      (fun m => (m_name m, (classify_execution (ask m).1 false (ask m).2).1)) <$> List.filter recorded ms.
Proof.
  revert to sink. induction ms as [|m ms IH]; intros to sink Hs; [exists []; simpl; by rewrite app_nil_r|].
  cbn [fold_left List.filter]. unfold report_member at 2, nothing_after at 2. destruct (recorded m).
  - destruct (record_execution_sink to m phase (ask m).1 false (ask m).2 None sink Hs) as (more & Hm & Ho).
    destruct (IH _ _ Hm) as (more' & Hm' & Ho'). exists (more ++ more'). rewrite app_assoc, omap_app, Ho, Ho'. by split.
  - by apply IH.
Qed.

(** What the members are asked on the request. *)
Definition asked_input (c : GuardrailChain) (req : ChatFormat) (m : ChainMember) : Observed :=
  plain (check_input (m_guardrail m) (input_for c req m)).

(** C18. A chain's answer on a request.  It is that of the first member, in chain
    order, that blocks, in that member's name; if none blocks, the first member that
    was bypassed; else allow.  Members after the first block are not asked, and a
    bypass stops nothing.  The observing fold decides the same way over what the
    members observe, and keeps the observations of every member it asked, those
    before the block included.  The metrics sink receives one execution for each
    member asked, in order. *)
Theorem chain_input_decided c req :
  let ms := readers c true in
  let ask := asked_input c req in
  let observe m := check_input_observed (m_guardrail m) (input_for c req m) in
  (chain_check_input c req).1 = decision ask ms /\
  (fold_input_observed c req false).1 = (decision observe ms, observations observe (consulted observe ms)) /\
  (forall sink, rec_sink (recorders c) = Some sink ->
     exists more, rec_sink (chain_check_input c req).2 = Some (sink ++ more) /\
       omap execution_of more =
         (fun m => (m_name m, (classify_execution (ask m).1 false []).1)) <$> consulted ask ms).
Proof.
  cbv zeta. unfold chain_check_input, fold_input_observed. change (fun m => plain _) with (asked_input c req).
  rewrite !run_spec. split; [done|]. split; [done|]. intros sink Hs. cbn [verdict_of snd].
  destruct (reports_sink (asked_input c req) "input" every (consulted (asked_input c req) (readers c true)) _ _ Hs)
    as (more & Hm & Ho). exists more. split; [done|]. rewrite Ho. f_equal. by apply filter_idem.
Qed.

(** ** The log of a block *)

(** A hit is filed under what it says. *)
Definition key_of (e : GuardrailEnforcedHit) : HitKey := (enf_name e, enf_hook e, enf_action e, enf_error_type e).
Definition log_ok (log : GuardrailAuditLog) : Prop := map_Forall (fun k e => key_of e = k) (audit_hits log).
Definition keeps_log (f : Recorders -> Recorders) : Prop :=
  forall to log, rec_audit to = Some log -> log_ok log -> exists log', rec_audit (f to) = Some log' /\ log_ok log'.

Definition block_action (unavailable : option string) : string :=
  match unavailable with Some _ => "blocked_unavailable" | None => "blocked" end.

Lemma audit_record_ok name hook action et counts log :
  log_ok log -> log_ok (audit_record name hook action et counts log).
Proof.
  intros Hl. unfold audit_record. apply map_Forall_insert_2; [|done]. unfold key_of. simpl.
  destruct (audit_hits log !! _) as [e|] eqn:E; [|done]. by apply Hl in E.
Qed.

Lemma audit_record_lookup name hook action et counts log :
  is_Some (audit_hits (audit_record name hook action et counts log) !! (name, hook, action, default "" et)).
Proof. unfold audit_record. simpl. rewrite lookup_insert_eq. by eexists. Qed.

Lemma audit_record_bypass_ok tag log : log_ok log -> log_ok (audit_record_bypass tag log).
Proof. intros Hl. unfold audit_record_bypass. by destruct (audit_bypass log). Qed.

Lemma keeps_log_compose f g : keeps_log f -> keeps_log g -> keeps_log (fun to => g (f to)).
Proof. intros Hf Hg to log Ha Hl. destruct (Hf _ _ Ha Hl) as (l & ? & ?). by eapply Hg. Qed.
Lemma keeps_log_sink e : keeps_log (to_sink e).
Proof. intros to log Ha Hl. by exists log. Qed.
Lemma keeps_log_audit f : (forall log, log_ok log -> log_ok (f log)) -> keeps_log (to_audit f).
Proof. intros Hf to log Ha Hl. exists (f log). unfold to_audit. simpl. rewrite Ha. split; [done|by apply Hf]. Qed.
Lemma keeps_log_bypass tag : keeps_log (to_audit (audit_record_bypass tag)).
Proof. apply keeps_log_audit. intros. by apply audit_record_bypass_ok. Qed.

(** The reports of [record_execution] that come before its hit. *)
Definition before_hit (to : Recorders) (m : ChainMember) (phase : string) (v : GuardrailVerdict) (res : string)
    (error_type : option string) : Recorders :=
  let to := to_sink (SinkExecution (m_name m) (m_kind m) phase res error_type) to in
  let to := match bypass_reason v with Some tag => to_audit (audit_record_bypass tag) to | None => to end in
  match bool_decide (res = "would_block"), error_type with
  | true, Some tag =>
      let tag := bounded_failure_tag tag in
      to_sink (SinkBypass tag) (to_audit (audit_record_bypass tag) to)
  | _, _ => to
  end.

Lemma before_hit_keeps m phase v res et : keeps_log (fun to => before_hit to m phase v res et).
Proof.
  intros to log Ha Hl. unfold before_hit.
  destruct (keeps_log_sink (SinkExecution (m_name m) (m_kind m) phase res et) _ _ Ha Hl) as (l1 & H1 & Hl1).
  set (to2 := match bypass_reason v with Some tag => _ | None => _ end).
  assert (exists l2, rec_audit to2 = Some l2 /\ log_ok l2) as (l2 & H2 & Hl2).
  { unfold to2. destruct (bypass_reason v); [by eapply keeps_log_bypass|by eexists]. }
  destruct (bool_decide _), et as [tag|]; try (by exists l2).
  eapply (keeps_log_compose _ _ (keeps_log_bypass _) (keeps_log_sink _)); done.
Qed.

Lemma record_execution_keeps m phase v masked hits counts :
  keeps_log (fun to => record_execution to m phase v masked hits counts).
Proof.
  intros to log Ha Hl. unfold record_execution. destruct (classify_execution v masked hits) as [res et].
  destruct (before_hit_keeps m phase v res et _ _ Ha Hl) as (l & H & Hl'). unfold before_hit in H.
  destruct (_ || _); [|by exists l]. eapply keeps_log_audit; [|done|done]. intros. by apply audit_record_ok.
Qed.

Lemma record_execution_block to m phase reason n u masked hits counts log :
  rec_audit to = Some log -> log_ok log ->
  exists log' e, rec_audit (record_execution to m phase (Block reason n u) masked hits counts) = Some log' /\
    log_ok log' /\ audit_hits log' !! (m_name m, phase, block_action u, default "" u) = Some e.
Proof.
  intros Ha Hl. destruct (record_execution_keeps m phase (Block reason n u) masked hits counts _ _ Ha Hl) as (l & H & Hl').
  exists l. destruct u as [tag|];
    (eexists; split; [done|]; split; [done|]; unfold record_execution in H; simpl in H; rewrite Ha in H;
     simplify_eq/=; apply lookup_insert_eq).
Qed.

Lemma reports_keep ask phase recorded ms :
  keeps_log (fold_left (report_member ask phase recorded nothing_after) ms).
Proof.
  induction ms as [|m ms IH]; intros to log Ha Hl; [by exists log|]. cbn [fold_left].
  assert (exists l, rec_audit (report_member ask phase recorded nothing_after to m) = Some l /\ log_ok l) as (l & H & Hl').
  { unfold report_member, nothing_after. destruct (recorded m); [by eapply (record_execution_keeps m phase)|by exists log]. }
  by eapply IH.
Qed.

(** C30. A block is accounted for.  When a chain blocks a request, the first of its
    members that read requests and whose check blocks decided it - every one before
    it answered without blocking: the verdict carries that member's
    name (or the name the member itself attributed it to) and its failure tag
    untouched, and the request's audit log holds a hit under the member's name, the
    hook, and the tag, as "blocked" for a content decision and as
    "blocked_unavailable" when the check could not run.  Every entry of the log
    stays filed under what it says. *)
Theorem block_is_audited c req reason n u log :
  rec_audit (recorders c) = Some log -> log_ok log ->
  (chain_check_input c req).1 = Block reason n u ->
  exists before m rest reason' n' log' e,
    readers c true = before ++ m :: rest /\
    Forall (fun m' => is_block (check_input (m_guardrail m') (input_for c req m')) = false) before /\
    check_input (m_guardrail m) (input_for c req m) = Block reason' n' u /\
    n = Some (default (m_name m) n') /\
    rec_audit (chain_check_input c req).2 = Some log' /\ log_ok log' /\
    audit_hits log' !! (m_name m, "input", block_action u, default "" u) = Some e.
Proof.
  intros Ha Hl. unfold chain_check_input. change (fun m => plain _) with (asked_input c req). rewrite run_spec.
  cbn [verdict_of fst snd]. intros (before & m & r & n' & Hc & Hask & Hn)%decision_block.
  rewrite Hc, fold_left_app. destruct (consulted_prefix (asked_input c req) (readers c true)) as [rest Hrest].
  destruct (reports_keep (asked_input c req) "input" every before _ _ Ha Hl) as (l & Hm & Hl').
  cbn [fold_left].
  replace (report_member (asked_input c req) "input" every nothing_after (fold_left _ before _) m)
    with (record_execution (fold_left (report_member (asked_input c req) "input" every nothing_after) before (recorders c))
            m "input" (asked_input c req m).1 false (asked_input c req m).2 None) by done.
  rewrite Hask.
  destruct (record_execution_block _ m "input" r n' u false (asked_input c req m).2 None _ Hm Hl') as (l' & e & H & Hok & Hlook).
  exists before, m, rest, r, n', l', e. split_and!; try done.
  - by rewrite Hrest, Hc, <- app_assoc.
  - by apply (consulted_before (asked_input c req) (readers c true) before m).
Qed.

(** ** Masks *)

(** Writing the texts [new], in order, over the slots of [t] that are seen. *)
Definition rank_of (seen : nat -> bool) (i : nat) : nat := length (List.filter seen (seq 0 i)).
Definition written (seen : nat -> bool) (new t t' : list string) : Prop :=
  length t' = length t /\
  forall i, i < length t -> t' !! i = if seen i then new !! rank_of seen i else t !! i.

Lemma splice_length idx : forall new t,
  length (fold_left (fun s '(i, x) => <[i := x]> s) (zip idx new) t) = length (t : list string).
Proof. induction idx as [|i idx IH]; intros [|x new] t; simpl; [done..|]. by rewrite IH, length_insert. Qed.

Lemma splice_other idx : forall new (t : list string) i,
  i ∉ idx -> fold_left (fun s '(i, x) => <[i := x]> s) (zip idx new) t !! i = t !! i.
Proof.
  induction idx as [|j idx IH]; intros [|x new] t i Hi; simpl; [done..|].
  rewrite IH by set_solver. apply list_lookup_insert_ne. set_solver.
Qed.

Lemma splice_at idx : forall new (t : list string) k i,
  NoDup idx -> length new = length idx -> idx !! k = Some i -> i < length t ->
  fold_left (fun s '(i, x) => <[i := x]> s) (zip idx new) t !! i = new !! k.
Proof.
  induction idx as [|j idx IH]; intros [|x new] t k i Hd Hl Hk Hi; simplify_eq/=; try done.
  apply NoDup_cons in Hd as [Hj Hd]. destruct k as [|k]; simplify_eq/=.
  - rewrite splice_other by done. by apply list_lookup_insert_eq.
  - apply IH; try done. by rewrite length_insert.
Qed.

Lemma seen_split seen i n :
  i < n -> seen i = true ->
  exists rest, List.filter seen (seq 0 n) = List.filter seen (seq 0 i) ++ i :: rest.
Proof.
  intros Hi Hs. replace n with (i + S (n - S i)) by lia. rewrite seq_app, List.filter_app. simpl. rewrite Hs. by eexists.
Qed.

Lemma filter_full {A} (p : A -> bool) l : length (List.filter p l) = length l -> forall x, x ∈ l -> p x = true.
Proof.
  induction l as [|y l IH]; [set_solver|]. simpl. pose proof (List.filter_length_le p l).
  destruct (p y) eqn:E; simpl; intros Hl; [|lia]. intros x [->|Hx]%elem_of_cons; [done|]. by apply IH; [lia|].
Qed.

Lemma NoDup_bool_filter {A} (p : A -> bool) l : NoDup l -> NoDup (List.filter p l).
Proof.
  induction 1 as [|x l Hx Hl IH]; simpl; [constructor|]. destruct (p x); [|done].
  constructor; [|done]. by intros [_ ?]%elem_of_bool_filter.
Qed.

Lemma omap_ext_elem {A B} (f g : A -> option B) (l : list A) : (forall x, x ∈ l -> f x = g x) -> omap f l = omap g l.
Proof.
  induction l as [|x l IH]; intros H; [done|]. cbn. rewrite H by (by left).
  case_match; [f_equal|]; apply IH; intros y Hy; apply H; by right.
Qed.

Section masks.
Context (input : bool) (newest_from : option nat) (in_turn : option (list bool)) (model : option string).

Definition takes_part (m : ChainMember) : bool := moderates_segments (m_guardrail m) && applies m input.

(** The slots of the member's window. *)
Definition sees (m : ChainMember) (i : nat) : bool :=
  match m_input_messages m, in_turn with LatestTurn, Some flags => default true (flags !! i) | _, _ => true end.

(** What the member reads of the texts, and its answer. *)
Definition reads (m : ChainMember) (t : list string) : list string :=
  omap (fun i => t !! i) (List.filter (sees m) (seq 0 (length t))).
Definition answer (m : ChainMember) (t : list string) : SegmentsOutcome :=
  moderate input newest_from model m (segment_window in_turn m (length t)) (reads m t).

(** Each member that takes part reads its window of what the previous one left,
    does not block, and may rewrite what it read. *)
Inductive masks : list ChainMember -> list string -> list string -> Prop :=
  | masks_nil t : masks [] t t
  | masks_out m ms t t' : takes_part m = false -> masks ms t t' -> masks (m :: ms) t t'
  | masks_kept m ms t t' :
      takes_part m = true -> is_block (seg_verdict (answer m t)) = false -> seg_masked (answer m t) = None ->
      masks ms t t' -> masks (m :: ms) t t'
  | masks_written m ms t t1 t' new :
      takes_part m = true -> is_block (seg_verdict (answer m t)) = false -> seg_masked (answer m t) = Some new ->
      length new = length (reads m t) -> written (sees m) new t t1 ->
      masks ms t1 t' -> masks (m :: ms) t t'.

Lemma masks_untouched ms t t' i :
  masks ms t t' -> (forall m, m ∈ ms -> takes_part m = true -> sees m i = false) -> t' !! i = t !! i.
Proof.
  induction 1 as [|? ? ? ? ? ? IH|? ? ? ? ? ? ? ? IH|? ? ? ? ? ? ? ? ? ? [Hlen Hw] ? IH]; intros Hs; [done|..];
    rewrite IH by (intros; apply Hs; set_solver); [done|done|].
  destruct (decide (i < length t)) as [Hi|Hi]; [|rewrite !lookup_ge_None_2 by lia; done].
  rewrite Hw by done. by rewrite Hs by set_solver.
Qed.

Lemma masks_length ms t t' : masks ms t t' -> length t' = length t.
Proof. induction 1 as [| | |? ? ? ? ? ? ? ? ? ? [Hlen Hw] ? IH]; congruence. Qed.

(** All slots in the window. *)
Lemma segment_window_None m n : segment_window in_turn m n = None -> forall i, i < n -> sees m i = true.
Proof.
  unfold segment_window, sees. destruct (m_input_messages m), in_turn as [flags|]; try done.
  destruct (length _ =? n) eqn:E; [|done]. intros _ i Hi. apply Nat.eqb_eq in E.
  apply (filter_full (fun i => default true (flags !! i)) (seq 0 n)); [by rewrite length_seq|].
  apply elem_of_seq. lia.
Qed.

Lemma segment_window_Some m n idx : segment_window in_turn m n = Some idx -> idx = List.filter (sees m) (seq 0 n).
Proof.
  unfold segment_window, sees. destruct (m_input_messages m), in_turn as [flags|]; try done.
  destruct (length _ =? n); [done|]. by intros [= <-].
Qed.

Lemma omap_seq (t : list string) : omap (fun i => t !! i) (seq 0 (length t)) = t.
Proof.
  induction t as [|x t IH] using rev_ind; [done|]. rewrite length_app, seq_app, omap_app. simpl.
  rewrite lookup_app_r, Nat.sub_diag by lia. simpl. f_equal. etrans; [|exact IH].
  apply omap_ext_elem. intros i Hi%elem_of_seq. apply lookup_app_l. lia.
Qed.

Lemma narrow_reads m t : narrow (segment_window in_turn m (length t)) t = reads m t.
Proof.
  unfold narrow, reads. destruct (segment_window in_turn m (length t)) as [idx|] eqn:E.
  - by rewrite (segment_window_Some _ _ _ E).
  - rewrite filter_idem, omap_seq; [done|]. intros i Hi%elem_of_seq. apply (segment_window_None _ _ E). lia.
Qed.

Lemma reads_length m t : length (reads m t) = length (List.filter (sees m) (seq 0 (length t))).
Proof.
  unfold reads. assert (forall l, (forall i, i ∈ l -> i < length t) -> length (omap (fun i => t !! i) l) = length l) as H.
  { induction l as [|i l IH]; intros Hl; [done|]. simpl.
    destruct (lookup_lt_is_Some_2 t i) as [x ->]; [apply Hl; by left|]. simpl. f_equal. apply IH.
    intros j Hj. apply Hl. by right. }
  apply H. intros i [_ Hi%elem_of_seq]%elem_of_bool_filter. lia.
Qed.

Lemma splice_written m t new :
  length new = length (reads m t) ->
  written (sees m) new t (splice (segment_window in_turn m (length t)) t new).
Proof.
  rewrite reads_length. intros Hl. unfold splice. destruct (segment_window in_turn m (length t)) as [idx|] eqn:E.
  - apply segment_window_Some in E as ->. split; [apply splice_length|]. intros i Hi. destruct (sees m i) eqn:Es.
    + destruct (seen_split (sees m) i (length t) Hi Es) as [rest Hr]. apply splice_at; [| |rewrite Hr|done]; try done.
      * apply NoDup_bool_filter, NoDup_seq.
      * unfold rank_of. by rewrite lookup_app_r, Nat.sub_diag by lia.
    + apply splice_other. by intros [? _]%elem_of_bool_filter; congruence.
  - pose proof (segment_window_None _ _ E) as Hall.
    assert (forall n, n <= length t -> List.filter (sees m) (seq 0 n) = seq 0 n) as Hf.
    { intros n Hn. apply filter_idem. intros i Hi%elem_of_seq. apply Hall. lia. }
    rewrite Hf, length_seq in Hl by done. split; [done|]. intros i Hi. rewrite Hall by done.
    unfold rank_of. by rewrite Hf, length_seq by lia.
Qed.

Lemma aligned_masked n outcome new :
  seg_masked (aligned n outcome) = Some new -> aligned n outcome = outcome /\ length new = n.
Proof.
  unfold aligned. destruct (seg_masked outcome) as [masked|] eqn:E; [|by rewrite E].
  destruct (Nat.eqb_spec (length masked) n) as [Hn|]; [|done]. rewrite E. by intros [= <-].
Qed.

Lemma aligned_kept n outcome :
  seg_masked (aligned n outcome) = None -> is_block (seg_verdict (aligned n outcome)) = false ->
  aligned n outcome = outcome.
Proof.
  unfold aligned. destruct (seg_masked outcome) as [masked|] eqn:E; [|done].
  destruct (length masked =? n); [done|]. simpl. by destruct (seg_verdict outcome).
Qed.

Lemma fold_segments_masks texts ms : forall masked counts bypass hits to,
  let out := (fold_segments input newest_from in_turn model texts ms masked counts bypass hits to).1 in
  if is_block (seg_verdict out) then seg_masked out = None /\ seg_counts out = ∅
  else masks ms (default texts masked) (default texts (seg_masked out)).
Proof.
  induction ms as [|m ms IH]; intros masked counts bypass hits to; cbv zeta; cbn [fold_segments].
  { destruct bypass; apply masks_nil. }
  destruct (moderates_segments (m_guardrail m) && applies m input) eqn:Htp.
  2: { specialize (IH masked counts bypass hits to). cbv zeta in IH.
       destruct (is_block _); [done|]. by apply masks_out. }
  rewrite narrow_reads. set (t := default texts masked).
  change (moderate input newest_from model m _ (reads m t)) with (answer m t).
  destruct (seg_masked (aligned (length (reads m t)) (answer m t))) as [new|] eqn:Em.
  - destruct (aligned_masked _ _ _ Em) as [Heq Hlen]. rewrite Heq in *. pose proof (splice_written m t new Hlen) as Hw.
    destruct (seg_verdict (answer m t)) as [|r n u|r] eqn:Ev; [| by destruct n |];
      (match goal with |- context [fold_segments _ _ _ _ _ _ ?a ?b ?c ?d ?e] => specialize (IH a b c d e) end;
       cbv zeta in IH; destruct (is_block _); [done|];
       eapply masks_written; [done|by rewrite Ev|done|done|exact Hw|exact IH]).
  - destruct (seg_verdict (aligned (length (reads m t)) (answer m t))) as [|r n u|r] eqn:Ev; [| by destruct n |];
      (assert (aligned (length (reads m t)) (answer m t) = answer m t) as Heq
         by (apply aligned_kept; [done|by rewrite Ev]);
       rewrite Heq in *;
       match goal with |- context [fold_segments _ _ _ _ _ _ ?a ?b ?c ?d ?e] => specialize (IH a b c d e) end;
       cbv zeta in IH; destruct (is_block _); [done|];
       eapply masks_kept; [done|by rewrite Ev|done|exact IH]).
Qed.
End masks.

(** C8. Masks compose, in order and in place.  What a chain makes of the texts of
    a request, or of a response, is either a block, with no mask and no counts, or
    the result of applying its members one after the other: each that takes part
    reads the slots of its window of what the one before left, answers with one text
    per slot it read, and those replace exactly these slots.  A mask of another
    length is never applied, whoever returns it.  As many texts come out as went in,
    and a slot outside every window is the caller's. *)
Theorem segments_masked_in_place c texts flags newest model :
  let out := (chain_moderate_input_segments_in_turn c texts flags newest model).1 in
  let out' := (chain_moderate_output_segments c texts).1 in
  let final := default texts (seg_masked out) in
  (if is_block (seg_verdict out) then seg_masked out = None /\ seg_counts out = ∅
   else masks true newest (Some flags) model (members c) texts final) /\
  (if is_block (seg_verdict out') then seg_masked out' = None /\ seg_counts out' = ∅
   else masks false None None None (members c) texts (default texts (seg_masked out'))) /\
  length final = length texts /\
  (forall i, (forall m, m ∈ members c -> takes_part true m = true -> sees (Some flags) m i = false) ->
     final !! i = texts !! i).
Proof.
  cbv zeta. unfold chain_moderate_input_segments_in_turn, chain_moderate_output_segments.
  pose proof (fold_segments_masks true newest (Some flags) model texts (members c) None ∅ None [] (recorders c)) as H.
  pose proof (fold_segments_masks false None None None texts (members c) None ∅ None [] (recorders c)) as H'.
  cbv zeta in H, H'. cbn [from_option id] in H, H'. split; [exact H|]. split; [exact H'|].
  destruct (is_block _); [by destruct H as [-> _]|]. split; [by eapply masks_length|].
  intros i Hi. by eapply masks_untouched.
Qed.

(** ** The cap of a held stream *)

Definition policy_of (m : ChainMember) : StreamOutputPolicy := stream_output_policy (m_guardrail m).

(** The caps of the policies of one form. *)
Definition caps_of_form (r : nat) (l : list StreamOutputPolicy) : list N :=
  omap (fun p => if rank p =? r then fst <$> hold_cap p else None) l.

Lemma caps_full l : caps_of_form 2 l = (full_caps l).*1.
Proof. induction l as [|[] l IH]; simpl; [done|done|done|]. by f_equal. Qed.
Lemma caps_windows l : caps_of_form 1 l = (windows l).*2.*1.
Proof. induction l as [|[] l IH]; simpl; [done|done| |done]. by f_equal. Qed.
Lemma caps_none l : caps_of_form 0 l = [].
Proof. by induction l as [|[] l IH]. Qed.

Lemma least_is x l : x ∈ l -> (forall y, y ∈ l -> (x <= y)%N) -> (x <= usize_max)%N -> least l = x.
Proof.
  intros Hx Hle Hm. induction l as [|y l IH]; [by apply elem_of_nil in Hx|]. simpl.
  pose proof (Hle y ltac:(by left)). apply elem_of_cons in Hx as [->|Hx].
  - enough (y <= least l)%N by lia. clear IH H. induction l as [|z l IH]; [done|]. simpl.
    pose proof (Hle z ltac:(by right; left)). enough (y <= least l)%N by lia. apply IH.
    intros w [->|Hw]%elem_of_cons; [done|]. apply Hle. by do 2 right.
  - rewrite IH; [lia|done|]. intros z Hz. apply Hle. by right.
Qed.

(** The cap a policy that holds back is given by the members of its form. *)
Lemma strictest_cap l :
  match hold_cap (strictest l) with
  | Some (cap, _) => cap = least (caps_of_form (rank (strictest l)) l) /\ caps_of_form (rank (strictest l)) l <> []
  | None => rank (strictest l) = 0
  end.
Proof.
  unfold strictest. destruct (full_caps l) as [|f fs] eqn:F; [destruct (windows l) as [|w ws] eqn:W|].
  - done.
  - cbn [hold_cap rank window_over]. by rewrite caps_windows, W.
  - cbn [hold_cap rank full_over]. by rewrite caps_full, F.
Qed.

(** The loop of [output_buffer_owner], over the members of one form. *)
Definition owner_step (r : nat) (owner : option (string * N)) (m : ChainMember) : option (string * N) :=
  if rank (policy_of m) =? r then
    match hold_cap (policy_of m) with
    | Some (max_buffer_bytes, _) =>
        match owner with
        | None => Some (m_name m, max_buffer_bytes)
        | Some (_, cap) => if (max_buffer_bytes <? cap)%N then Some (m_name m, max_buffer_bytes) else owner
        end
    | None => owner
    end
  else owner.

Lemma owner_fold r ms :
  match fold_left (owner_step r) ms None with
  | None => caps_of_form r (policy_of <$> ms) = []
  | Some (n, cap) =>
      (exists m, m ∈ ms /\ m_name m = n /\ rank (policy_of m) = r /\ fst <$> hold_cap (policy_of m) = Some cap) /\
      cap ∈ caps_of_form r (policy_of <$> ms) /\ (forall y, y ∈ caps_of_form r (policy_of <$> ms) -> (cap <= y)%N)
  end.
Proof.
  induction ms as [|m ms IH] using rev_ind; [done|]. rewrite fold_left_app. cbn [fold_left].
  assert (caps_of_form r (policy_of <$> ms ++ [m]) = caps_of_form r (policy_of <$> ms) ++ caps_of_form r [policy_of m]) as ->
    by (rewrite fmap_app; apply omap_app).
  unfold caps_of_form at 2 4 6. cbn [omap list_omap]. unfold owner_step at 1.
  destruct (Nat.eqb_spec (rank (policy_of m)) r) as [Hr|Hr].
  2: { rewrite app_nil_r. destruct (fold_left _ ms None) as [[n cap]|]; [|done].
       destruct IH as [(m' & ? & ?) ?]. split; [|done]. exists m'. set_solver. }
  destruct (hold_cap (policy_of m)) as [[c o]|] eqn:Hc; cbn [fmap option_fmap option_map fst].
  2: { rewrite app_nil_r. destruct (fold_left _ ms None) as [[n cap]|]; [|done].
       destruct IH as [(m' & ? & ?) ?]. split; [|done]. exists m'. set_solver. }
  destruct (fold_left _ ms None) as [[n cap]|].
  - destruct IH as [(m' & Hm' & Hn & Hr' & Hc') [Hin Hle]]. destruct (N.ltb_spec c cap).
    + split; [exists m; split_and!; try done; [set_solver|by rewrite Hc]|]. split; [set_solver|].
      intros y [Hy| ->%list_elem_of_singleton]%elem_of_app; [|done]. specialize (Hle y Hy). lia.
    + split; [exists m'; split_and!; try done; set_solver|]. split; [set_solver|].
      intros y [Hy| ->%list_elem_of_singleton]%elem_of_app; [by apply Hle|done].
  - rewrite IH. split; [exists m; split_and!; try done; [set_solver|by rewrite Hc]|]. split; [set_solver|].
    by intros y ->%list_elem_of_singleton.
Qed.

Lemma bool_filter_perm {A} (p : A -> bool) l l' : l ≡ₚ l' -> List.filter p l ≡ₚ List.filter p l'.
Proof.
  induction 1 as [|x l l' ? IH|x y l|? ? ? ? IH ? IH']; simpl; [done| | |by etrans].
  - destruct (p x); [by constructor|done].
  - destruct (p x), (p y); done || constructor.
Qed.

Lemma caps_ok r l y : (forall p, p ∈ l -> policy_ok p) -> y ∈ caps_of_form r l -> (y <= usize_max)%N.
Proof.
  intros Hl (p & Hp & H)%list_elem_of_omap. destruct (rank p =? r); [|done]. specialize (Hl p Hp).
  destruct p; simplify_eq/=; tauto.
Qed.

(** C31. How much of a streamed response a chain holds back.  The chain's policy is
    the strictest form any of its output members asks for, with the tightest
    parameters of the members of that form and failing open only if all of them do;
    the order of the members does not matter, and members of a laxer form do not
    bind.  A refusal for outgrowing the cap is charged to an output member whose own
    cap is that of the chain, and to nobody exactly when nothing is held back. *)
Theorem stream_cap_owned c :
  (forall m, m ∈ output_members c -> policy_ok (policy_of m)) ->
  chain_stream_output_policy c = strictest (policy_of <$> output_members c) /\
  (forall c', members c' ≡ₚ members c -> chain_stream_output_policy c' = chain_stream_output_policy c) /\
  match output_buffer_owner c, hold_cap (chain_stream_output_policy c) with
  | None, None => True
  | Some n, Some (cap, _) =>
      exists m, m ∈ output_members c /\ m_name m = n /\
        rank (policy_of m) = rank (chain_stream_output_policy c) /\ fst <$> hold_cap (policy_of m) = Some cap
  | _, _ => False
  end.
Proof.
  intros Hok. assert (forall p, p ∈ policy_of <$> output_members c -> policy_ok p) as Hok'.
  { intros p (m & -> & Hm)%list_elem_of_fmap. by apply Hok. }
  assert (chain_stream_output_policy c = strictest (policy_of <$> output_members c)) as Hs by by apply strictest_fold.
  split; [done|]. split.
  { intros c' Hc'. assert (policy_of <$> output_members c' ≡ₚ policy_of <$> output_members c) as Hp
      by by apply fmap_Permutation, bool_filter_perm.
    rewrite Hs. unfold chain_stream_output_policy. change (fun m => stream_output_policy _) with policy_of.
    rewrite strictest_fold; [by apply strictest_perm|]. intros p Hin. apply Hok'. by rewrite <- Hp. }
  change (output_buffer_owner c)
    with (fst <$> fold_left (owner_step (rank (chain_stream_output_policy c))) (output_members c) None).
  pose proof (owner_fold (rank (chain_stream_output_policy c)) (output_members c)) as Ho.
  pose proof (strictest_cap (policy_of <$> output_members c)) as Hc. rewrite Hs in *.
  destruct (hold_cap (strictest _)) as [[cap o]|], (fold_left _ _ None) as [[n cap']|]; cbn [fmap option_fmap option_map fst].
  - destruct Ho as [Hm [Hin Hle]], Hc as [-> _]. rewrite (least_is cap'); [done|done|done|]. by eapply caps_ok.
  - by destruct Hc.
  - rewrite Hc, caps_none in Ho. destruct Ho as [_ [Hin _]]. by apply elem_of_nil in Hin.
  - done.
Qed.

(** ** Monitored chains *)

(** The row of the member is in monitor mode. *)
Definition monitored (m : ChainMember) : Prop :=
  exists row_name kind inner, m_guardrail m = apply_enforcement_mode "monitor" row_name kind inner.

Lemma observe_never_blocks v : is_block (observe v) = false.
Proof. by destruct v. Qed.

Lemma final_verdict_never_blocks b : is_block (final_verdict b) = false.
Proof. by destruct b. Qed.

Lemma decision_never_blocks ask ms :
  (forall m, m ∈ ms -> is_block (ask m).1 = false) -> is_block (decision ask ms) = false.
Proof.
  intros H. unfold decision. destruct (List.find _ ms) as [m|] eqn:E; [|apply final_verdict_never_blocks].
  apply find_some in E as [Hm Hb]. unfold blocking in Hb. rewrite H in Hb; [done|]. by apply list_elem_of_In.
Qed.

Lemma masks_unmasked input newest in_turn model ms t t' :
  (forall m u, m ∈ ms -> seg_masked (answer input newest in_turn model m u) = None) ->
  masks input newest in_turn model ms t t' -> t' = t.
Proof.
  intros H. induction 1 as [| | |? ? ? ? ? ? ? ? Hm]; try done; [apply IHmasks; set_solver..|].
  rewrite H in Hm by set_solver. done.
Qed.

Lemma monitored_ops m : monitored m -> exists row_name kind inner, m_guardrail m = MonitorGuardrail row_name kind inner.
Proof. intros (n & k & g & ->). by exists n, k, g. Qed.

Lemma observe_input_verdict n k g a req : (observe_input n k g a req).1 = observe (check_input g req).
Proof. unfold observe_input, observe_hit. by destruct (check_input g req). Qed.
Lemma observe_output_verdict n k g a resp : (observe_output n k g a resp).1 = observe (check_output g resp).
Proof. unfold observe_output, observe_hit. by destruct (check_output g resp). Qed.
Lemma observe_segments_allow n k hook outcome :
  seg_masked (observe_segments n k hook outcome) = None /\
  is_block (seg_verdict (observe_segments n k hook outcome)) = false.
Proof. unfold observe_segments, observe_hit. by destruct (seg_verdict outcome). Qed.

Lemma some_member_none c p : (forall m, m ∈ members c -> p (m_guardrail m) = false) -> some_member c p = false.
Proof.
  intros H. unfold some_member. apply not_true_is_false. intros (m & Hm & Hp)%existsb_exists.
  rewrite H in Hp; [done|]. by apply list_elem_of_In.
Qed.

Lemma fold_segments_monitored input newest in_turn model texts ms : forall bypass hits to,
  (forall m, m ∈ ms -> monitored m) ->
  let out := (fold_segments input newest in_turn model texts ms None ∅ bypass hits to).1 in
  is_block (seg_verdict out) = false /\ seg_masked out = None /\ seg_counts out = ∅.
Proof.
  induction ms as [|m ms IH]; intros bypass hits to Hm; cbn [fold_segments]; [by destruct bypass|].
  destruct (_ && _); [|apply IH; set_solver].
  destruct (monitored_ops m) as (n & k & g & Hg); [apply Hm; by left|].
  set (window := segment_window _ _ _). set (src := narrow _ _).
  assert (exists hook outcome, moderate input newest model m window src = observe_segments n k hook outcome) as (hook & o & ->).
  { unfold moderate. rewrite Hg. destruct input; by eexists _, _. }
  destruct (observe_segments_allow n k hook o) as [H1 H2].
  assert (aligned (length src) (observe_segments n k hook o) = observe_segments n k hook o) as ->
    by (unfold aligned; by rewrite H1).
  rewrite H1. destruct (seg_verdict (observe_segments n k hook o)); [|done|]; apply IH; set_solver.
Qed.

(** What a monitored row's own passes answer. *)
Record silent (g : Guardrail) : Prop := {
  silent_input req : is_block (check_input g req) = false;
  silent_output resp : is_block (check_output g resp) = false;
  silent_input_observed req : is_block (check_input_observed g req).1 = false;
  silent_output_observed resp : is_block (check_output_observed g resp).1 = false;
  silent_input_unmaskable req : is_block (check_input_unmaskable_observed g req).1 = false;
  silent_output_unmaskable resp : is_block (check_output_unmaskable_observed g resp).1 = false;
  silent_local segments input : is_block (check_local_segments g segments input).1 = false;
  silent_hits text : mask_input_hits g text = None;
}.

Lemma monitored_silent m : monitored m -> silent (m_guardrail m).
Proof.
  intros (n & k & g & ->)%monitored_ops. split; intros; cbn; rewrite ?observe_input_verdict, ?observe_output_verdict;
    try apply observe_never_blocks; [|done].
  unfold monitor_local_segments, observe_hit. destruct (check_local_segments g segments input) as [v hits].
  repeat case_match; apply observe_never_blocks.
Qed.

Lemma run_silent c phase recorded ask after ms :
  (forall m, m ∈ ms -> is_block (ask m).1 = false) -> is_block (run c phase recorded ask after ms).1.1 = false.
Proof. intros H. rewrite run_spec. cbn [fst]. by apply decision_never_blocks. Qed.

Section monitored_chain.
Context (c : GuardrailChain) (Hm : forall m, m ∈ members c -> monitored m).

Lemma reader_silent p m : m ∈ List.filter p (members c) -> silent (m_guardrail m).
Proof. intros [_ Hin]%elem_of_bool_filter. by apply monitored_silent, Hm. Qed.

Lemma monitored_input req :
  Forall (fun v => is_block v = false)
    [(chain_check_input c req).1; (fold_input_observed c req false).1.1; (fold_input_observed c req true).1.1;
     (chain_check_input_non_segment c req).1; (chain_check_input_non_segment_observed c req).1.1].
Proof.
  repeat apply Forall_cons_2; [..|apply Forall_nil_2]; apply run_silent; intros m Hin; apply reader_silent in Hin;
    cbn [plain fst]; unfold check_input_non_segment, check_input_non_segment_observed;
    try destruct (judged_by_segments _); try done; apply Hin.
Qed.

Lemma monitored_output resp :
  Forall (fun v => is_block v = false)
    [(chain_check_output c resp).1; (fold_output_observed c resp false).1.1; (fold_output_observed c resp true).1.1;
     (chain_check_output_non_local_observed c resp).1.1;
     (chain_check_output_non_segment c resp).1; (chain_check_output_non_segment_observed c resp).1.1].
Proof.
  repeat apply Forall_cons_2; [..|apply Forall_nil_2]; apply run_silent; intros m Hin; apply reader_silent in Hin;
    cbn [plain fst]; unfold check_output_non_segment, check_output_non_segment_observed, check_output_non_local_observed;
    try destruct (judged_by_segments _); try destruct (checks_local_segments _); try done; apply Hin.
Qed.

Lemma monitored_policy : chain_stream_output_policy c = EndOfStreamCheck.
Proof.
  unfold chain_stream_output_policy. assert (forall m, m ∈ output_members c -> policy_of m = EndOfStreamCheck) as H.
  { intros m [_ Hin]%elem_of_bool_filter. destruct (monitored_ops m (Hm m Hin)) as (n & k & g & Hg).
    unfold policy_of. by rewrite Hg. }
  change (fun m => stream_output_policy _) with policy_of. revert H. generalize (output_members c). intros l H.
  induction l as [|m l IH]; [done|]. rewrite fmap_cons. cbn [fold_left]. rewrite H by (by left). apply IH. set_solver.
Qed.

Lemma monitored_no_member p : (forall n k g, p (MonitorGuardrail n k g) = false) -> some_member c p = false.
Proof. intros H. apply some_member_none. intros m Hin. destruct (monitored_ops m (Hm m Hin)) as (n & k & g & ->). apply H. Qed.

Lemma monitored_redactions text in_turn :
  (redact_input_text_in_turn c text in_turn).1 = None /\ (chain_redact_output_text c text).1 = None /\
  chain_mask_input_hits c text = None.
Proof.
  assert (forall m, m ∈ members c -> redacts_input (m_guardrail m) = false /\ redacts_output (m_guardrail m) = false) as Hr.
  { intros m Hin. by destruct (monitored_ops m (Hm m Hin)) as (n & k & g & ->). }
  unfold redact_input_text_in_turn, chain_redact_output_text, chain_mask_input_hits. split_and!.
  - rewrite filter_none_list; [done|]. intros m Hin. by rewrite (proj1 (Hr m Hin)).
  - rewrite filter_none_list; [done|]. intros m Hin. by apply Hr.
  - pose proof Hm as H. revert H. generalize (members c). intros l H. induction l as [|m l IH]; [done|]. cbn [fold_left].
    rewrite (silent_hits _ (monitored_silent m (H m ltac:(left)))). apply IH. set_solver.
Qed.
End monitored_chain.

(** A monitored row says what the guardrail it wraps would have done. *)
Lemma observe_hit_reports n k hook v hits reason gn u :
  v = Block reason gn u -> would_block_hit n k hook u ∈ (observe_hit n k hook v hits).2.
Proof. intros ->. cbn. set_solver. Qed.
Lemma probe_redaction_keeps n hook action redacts r hits h :
  h ∈ hits -> h ∈ probe_redaction n hook action redacts r hits.
Proof. unfold probe_redaction. intros. repeat case_match; set_solver. Qed.

(** C24. Monitor mode changes no answer.  A chain whose rows are all monitored never
    blocks, whatever the guardrails it wraps answer: not in the plain and observed
    passes over a request or a response, not in those left to the guardrails no
    segment pass judges, not in the local-segment pass, and not in the moderation of
    input or output segments, which masks nothing either; it redacts and masks no
    text, holds nothing back of a stream, and refuses nothing for being unreadable.
    A monitored row does say what it would have done: in every observed pass it
    reports a "would_block" hit in its name, with the failure tag, whenever the
    guardrail it wraps blocks. *)
Theorem monitored_chain_transparent c :
  (forall m, m ∈ members c -> monitored m) ->
  (forall req, Forall (fun v => is_block v = false)
     [(chain_check_input c req).1; (fold_input_observed c req false).1.1; (fold_input_observed c req true).1.1;
      (chain_check_input_non_segment c req).1; (chain_check_input_non_segment_observed c req).1.1]) /\
  (forall resp, Forall (fun v => is_block v = false)
     [(chain_check_output c resp).1; (fold_output_observed c resp false).1.1; (fold_output_observed c resp true).1.1;
      (chain_check_output_non_local_observed c resp).1.1;
      (chain_check_output_non_segment c resp).1; (chain_check_output_non_segment_observed c resp).1.1]) /\
  (forall segments input, is_block (chain_check_local_segments c segments input).1.1 = false) /\
  (forall texts flags newest model, Forall (fun out =>
       is_block (seg_verdict out) = false /\ seg_masked out = None /\ seg_counts out = ∅)
     [(chain_moderate_input_segments c texts newest).1; (chain_moderate_input_segments_for_model c texts newest model).1;
      (chain_moderate_input_segments_in_turn c texts flags newest model).1; (chain_moderate_output_segments c texts).1]) /\
  (forall text in_turn, (redact_input_text_in_turn c text in_turn).1 = None /\ (chain_redact_output_text c text).1 = None /\
     chain_mask_input_hits c text = None) /\
  chain_stream_output_policy c = EndOfStreamCheck /\
  chain_refuses_unevaluable_input c = false /\ chain_refuses_unevaluable_output c = false /\
  chain_enforces_input c = false /\
  (forall row_name kind inner reason n u, let g := apply_enforcement_mode "monitor" row_name kind inner in
     let reported hook hits := would_block_hit row_name kind hook u ∈ hits in
     (forall req, check_input inner req = Block reason n u ->
        reported "input" (check_input_observed g req).2 /\ reported "input" (check_input_unmaskable_observed g req).2) /\
     (forall resp, check_output inner resp = Block reason n u ->
        reported "output" (check_output_observed g resp).2 /\ reported "output" (check_output_unmaskable_observed g resp).2) /\
     (forall segments input, (check_local_segments inner segments input).1 = Block reason n u ->
        reported (if input then "input" else "output") (check_local_segments g segments input).2) /\
     (forall texts newest model, seg_verdict (moderate_input_segments inner texts newest model) = Block reason n u ->
        reported "input" (seg_hits (moderate_input_segments g texts newest model))) /\
     (forall texts, seg_verdict (moderate_output_segments inner texts) = Block reason n u ->
        reported "output" (seg_hits (moderate_output_segments g texts)))).
Proof.
  intros Hm. split_and!; [by apply monitored_input|by apply monitored_output| | | |by apply monitored_policy| | | |].
  - intros segments input. apply run_silent. intros m Hin. by apply (reader_silent c Hm _ m) in Hin as [].
  - intros. repeat apply Forall_cons_2; [..|apply Forall_nil_2]; by apply fold_segments_monitored.
  - intros text in_turn. by apply monitored_redactions.
  - by apply monitored_no_member.
  - by apply monitored_no_member.
  - by apply monitored_no_member.
  - intros n k g reason gn u. change (apply_enforcement_mode "monitor" n k g) with (MonitorGuardrail n k g).
    cbn -[check_input check_output check_local_segments moderate_input_segments moderate_output_segments]. split_and!.
    + intros req H. unfold observe_input, observe_hit. rewrite H.
      split; apply probe_redaction_keeps; set_solver.
    + intros resp H. unfold observe_output, observe_hit. rewrite H.
      split; apply probe_redaction_keeps; set_solver.
    + intros segments input H. change (check_local_segments (MonitorGuardrail n k g)) with (monitor_local_segments n k g).
      unfold monitor_local_segments. destruct (check_local_segments g segments input) as [v hits].
      cbn in H. subst v. cbn [observe_hit]. repeat case_match; cbn [snd]; try apply probe_redaction_keeps; set_solver.
    + intros texts newest model H.
      change (would_block_hit n k "input" u ∈ seg_hits (observe_segments n k "input" (moderate_input_segments g texts newest model))).
      unfold observe_segments, observe_hit. rewrite H. cbn [seg_hits]. set_solver.
    + intros texts H. change (would_block_hit n k "output" u ∈ seg_hits (observe_segments n k "output" (moderate_output_segments g texts))).
      unfold observe_segments, observe_hit. rewrite H. cbn [seg_hits]. set_solver.
Qed.

(** ** Concrete chains *)

Definition demo_member (n refused masked : string) (policy : StreamOutputPolicy) (w : GuardrailInputMessages) : ChainMember :=
  mkMember n "demo" (demo_word refused masked policy) w.
Definition demo_chain : GuardrailChain :=
  mkChain
    [demo_member "first" "old" "secret" (BufferFull 100 true) LatestTurn;
     demo_member "second" "stop" "***" (BufferFull 50 false) AllMessages;
     demo_member "third" "stop" "x" (Window 10 2 5 false) AllMessages]
    [] (mkRecorders (Some []) (Some audit_new)).

Lemma chain_input_decided_witness :
  exists more, rec_sink (chain_check_input demo_chain demo_chat).2 = Some ([] ++ more) /\
    omap execution_of more = [("first", "allowed"); ("second", "blocked")].
Proof. destruct (chain_input_decided demo_chain demo_chat) as (_ & _ & H). exact (H [] eq_refl). Defined.

Lemma block_is_audited_witness :
  exists m log' e, rec_audit (chain_check_input demo_chain demo_chat).2 = Some log' /\ log_ok log' /\
    audit_hits log' !! (m_name m, "input", "blocked", "") = Some e.
Proof.
  destruct (block_is_audited demo_chain demo_chat "guardrail 'second': refused word" (Some "second") None audit_new)
    as (before & m & rest & r & n & log' & e & _ & _ & _ & _ & H & Hok & He).
  - reflexivity.
  - apply map_Forall_empty.
  - vm_compute. reflexivity.
  - by exists m, log', e.
Defined.

Lemma segments_masked_in_place_witness :
  seg_masked (chain_moderate_input_segments_in_turn demo_chain ["secret"; "y"; "secret"] [false; true; true] None None).1
    = Some ["secret"; "y"; "***"] /\
  length (default [] (seg_masked
    (chain_moderate_input_segments_in_turn demo_chain ["secret"; "y"; "secret"] [false; true; true] None None).1)) = 3.
Proof.
  split; [vm_compute; reflexivity|].
  destruct (segments_masked_in_place demo_chain ["secret"; "y"; "secret"] [false; true; true] None None)
    as (_ & _ & H & _). exact H.
Defined.

Lemma stream_cap_owned_witness :
  chain_stream_output_policy demo_chain = BufferFull 50 false /\ output_buffer_owner demo_chain = Some "second".
Proof.
  destruct (stream_cap_owned demo_chain) as (H & _ & _).
  - intros m Hm. assert (forallb (fun m => match policy_of m with
                                           | EndOfStreamCheck => true
                                           | Window s _ cap _ => (s <=? usize_max)%N && (cap <=? usize_max)%N
                                           | BufferFull cap _ => (cap <=? usize_max)%N
                                           end) (output_members demo_chain) = true) as Hb by (vm_compute; reflexivity).
    rewrite forallb_forall in Hb. specialize (Hb m (proj1 (list_elem_of_In _ _) Hm)).
    destruct (policy_of m); simpl; rewrite ?andb_true_iff, ?N.leb_le in Hb; done.
  - rewrite H. split; [vm_compute; reflexivity|vm_compute; reflexivity].
Defined.

Definition demo_monitored : GuardrailChain :=
  mkChain [mkMember "watch" "demo" (apply_enforcement_mode "monitor" "watch" "demo" (demo_word "stop" "x" (BufferFull 9 false)))
             AllMessages] [] (mkRecorders None None).

Lemma monitored_chain_transparent_witness :
  is_block (chain_check_input demo_monitored demo_chat).1 = false /\
  chain_stream_output_policy demo_monitored = EndOfStreamCheck.
Proof.
  destruct (monitored_chain_transparent demo_monitored) as (H & _ & _ & _ & _ & Hp & _).
  - intros m [->|Hm]%elem_of_cons; [|by apply elem_of_nil in Hm]. by eexists _, _, _.
  - split; [exact (Forall_inv (H demo_chat))|exact Hp].
Defined.
