(* ===== verification/GuardIndex.v ===== *)
(** * Which guardrails govern a request

    [crates/aisix-guardrails/src/index.rs] and the builders of [build.rs]: the
    rows and attachments of a snapshot become an index of instances, and the
    index a chain for one request.

    Constructing the check of one kind, [build_one_inner], is an argument of the
    builders: it compiles expressions and opens clients.  So is [Arc::ptr_eq] on
    rows, of which only what it is for is used: the same allocation holds the
    same row.  Log lines, and the notice about unattached rows, are not
    modelled. *)

From S2P Require Import Prelude Sort Snapshot Guardrail Chain.
Local Open Scope nat_scope.

(** ** Rows and attachments *)

(** The kinds, with what [unbuilt_row] and [kind_str] read of them; [cfg] is the
    rest of the configuration. *)
Inductive GuardrailKind :=
  | Keyword (cfg : string)
  | Bedrock (output_fail_open : bool) (cfg : string)
  | AzureContentSafety (output_fail_open : bool) (cfg : string)
  | AzureContentSafetyTextModeration (output_fail_open : bool) (cfg : string)
  | AliyunTextModeration (output_fail_open : bool) (cfg : string)
  | AliyunAiGuardrail (output_fail_open : bool) (cfg : string)
  | Pii (cfg : string)
  | Lakera (output_fail_open : bool) (cfg : string)
  | OpenaiModeration (output_fail_open : bool) (cfg : string)
  | Presidio (output_fail_open : bool) (cfg : string)
  | Semantic (output_fail_open : bool) (cfg : string)
  | Custom (output_fail_open : bool) (cfg : string).
#[export] Instance GuardrailKind_eq_dec : EqDecision GuardrailKind.
Proof. solve_decision. Defined.
#[export] Instance GuardrailHookPoint_eq_dec : EqDecision GuardrailHookPoint.
Proof. solve_decision. Defined.

Definition guard_kind_str (k : GuardrailKind) : string :=
  match k with
  | Keyword _ => "keyword"
  | Bedrock _ _ => "bedrock"
  | AzureContentSafety _ _ => "azure_content_safety"
  | AzureContentSafetyTextModeration _ _ => "azure_content_safety_text_moderation"
  | AliyunTextModeration _ _ => "aliyun_text_moderation"
  | AliyunAiGuardrail _ _ => "aliyun_ai_guardrail"
  | Pii _ => "pii"
  | Lakera _ _ => "lakera"
  | OpenaiModeration _ _ => "openai_moderation"
  | Presidio _ _ => "presidio"
  | Semantic _ _ => "semantic"
  | Custom _ _ => "custom"
  end.

Record DomainGuardrail := mkDomain {
  g_name : string;
  g_enabled : bool;
  g_hook_point : GuardrailHookPoint;
  g_input_messages : GuardrailInputMessages;
  g_fail_open : bool;
  g_config : GuardrailKind;
  g_enforcement_mode : string;
  g_created_at : option string;
}.
#[export] Instance DomainGuardrail_eq_dec : EqDecision DomainGuardrail.
Proof. solve_decision. Defined.

Abbreviation GuardRow := (ResourceEntry DomainGuardrail).
#[export] Instance GuardRow_eq_dec : EqDecision GuardRow.
Proof. solve_decision. Defined.

Inductive ScopeKind := ScopeEnv | ScopeModel | ScopeMcpServer | ScopeApiKey | ScopeTeam | ScopePassthroughRoute.

Record GuardrailAttachment := mkAttachment {
  a_guardrail_id : string;
  a_scope_type : ScopeKind;
  a_scope_id : option string;
  a_priority : Z;
  a_enabled : bool;
}.

Definition applied_for (row : DomainGuardrail) : AppliedGuardrail :=
  mkApplied (guard_kind_str (g_config row)) (g_hook_point row).

(** ** Building a row *)

Inductive BuildError :=
  | InvalidRegex (field : string)
  | InvalidValue (field value : string)
  | ReplacementOnBlock (name : string)
  | FeatureDisabled (kind : string)
  | EmbedderUnavailable
  | ScriptCompile (message : string).

Definition status_reason (e : BuildError) : string :=
  let '(category, field) :=
    match e with
    | InvalidRegex field => ("invalid_regex", field)
    | InvalidValue field _ => ("invalid_value", field)
    | ReplacementOnBlock _ => ("incompatible_fields", "custom_patterns[].replacement")
    | FeatureDisabled _ => ("feature_disabled", "kind")
    | EmbedderUnavailable => ("runtime_unavailable", "embedding_model")
    | ScriptCompile _ => ("compile_failed", "script")
    end in
  "guardrail runtime build failed: " +:+ category +:+ " at config." +:+ field.

Definition enforce_row (row : DomainGuardrail) (inner : Guardrail) : Guardrail :=
  apply_enforcement_mode (g_enforcement_mode row) (g_name row) (guard_kind_str (g_config row)) inner.

Definition row_output_fail_open (row : DomainGuardrail) : bool :=
  match g_config row with
  | Keyword _ | Pii _ => g_fail_open row
  | Bedrock o _ | AzureContentSafety o _ | AzureContentSafetyTextModeration o _ | AliyunTextModeration o _
  | AliyunAiGuardrail o _ | Lakera o _ | OpenaiModeration o _ | Presidio o _ | Semantic o _ | Custom o _ => o
  end.

Definition unbuilt_row (row : DomainGuardrail) (err : BuildError) : option Guardrail :=
  match err with
  | EmbedderUnavailable => None
  | _ =>
      Some (enforce_row row
        (UnbuiltGuardrail (guard_kind_str (g_config row)) (g_hook_point row) (g_fail_open row) (row_output_fail_open row)))
  end.

Record GuardrailBuildRejection := mkBuildRejection {
  br_id : string;
  br_reason : string;
  br_serving_stale : bool;
}.

Record BuildOutcome := mkBuilt {
  bo_serving : option Guardrail;
  bo_serving_row : GuardRow;
  bo_rejection : option GuardrailBuildRejection;
}.

Definition last_good (o : BuildOutcome) : option (Guardrail * GuardRow) :=
  let built := match bo_rejection o with None => true | Some r => br_serving_stale r end in
  if built then (fun g => (g, bo_serving_row o)) <$> bo_serving o else None.

Record MemoSlot := mkSlot { slot_row : GuardRow; slot_outcome : BuildOutcome }.
Abbreviation GuardrailInstances := (gmap string MemoSlot).
Record BuildReuse := mkReuse { constructed : nat; reused : nat }.

(** ** The index *)

Record IndexEntry := mkIndexEntry {
  ie_guardrail_id : string;
  ie_guardrail_name : string;
  ie_scope_kind : ScopeKind;
  ie_scope_id : option string;
  ie_priority : Z;
  ie_guardrail : Guardrail;
  ie_input_messages : GuardrailInputMessages;
  ie_applied : AppliedGuardrail;
}.

Record RequestContext := mkContext {
  ctx_model_id : string;
  ctx_mcp_server_id : string;
  ctx_passthrough_route_id : string;
  ctx_api_key_id : string;
  ctx_team_id : option string;
}.

Definition matches_id (scope_id : option string) (ctx_id : string) : bool :=
  negb (bool_decide (ctx_id = "")) && bool_decide (scope_id = Some ctx_id).

Definition applies_to (e : IndexEntry) (ctx : RequestContext) : bool :=
  match ie_scope_kind e with
  | ScopeEnv => true
  | ScopeModel => matches_id (ie_scope_id e) (ctx_model_id ctx)
  | ScopeMcpServer => matches_id (ie_scope_id e) (ctx_mcp_server_id ctx)
  | ScopePassthroughRoute => matches_id (ie_scope_id e) (ctx_passthrough_route_id ctx)
  | ScopeApiKey => bool_decide (ie_scope_id e = Some (ctx_api_key_id ctx))
  | ScopeTeam =>
      match ctx_team_id ctx, ie_scope_id e with
      | Some ctx_team, Some entry_team => bool_decide (ctx_team = entry_team)
      | _, _ => false
      end
  end.

Definition scope_specificity (k : ScopeKind) : nat :=
  match k with
  | ScopeApiKey => 3
  | ScopeTeam => 2
  | ScopeModel | ScopeMcpServer | ScopePassthroughRoute => 1
  | ScopeEnv => 0
  end.

(** The order of the entries: priority first, then the narrower scope. *)
Definition entry_leb (a b : IndexEntry) : bool :=
  match Z.compare (ie_priority b) (ie_priority a) with
  | Lt => true
  | Gt => false
  | Eq => scope_specificity (ie_scope_kind b) <=? scope_specificity (ie_scope_kind a)
  end.

Definition GuardrailIndex : Type := list IndexEntry.
Definition guard_index_new (es : list IndexEntry) : GuardrailIndex := stable_sort entry_leb es.

Fixpoint resolve_walk (ctx : RequestContext) (es : list IndexEntry) (seen : gset string) : list IndexEntry :=
  match es with
  | [] => []
  | e :: es =>
      if negb (applies_to e ctx) then resolve_walk ctx es seen
      else if bool_decide (ie_guardrail_id e ∈ seen) then resolve_walk ctx es seen
      else e :: resolve_walk ctx es ({[ie_guardrail_id e]} ∪ seen)
  end.

Definition resolve_chain (index : GuardrailIndex) (ctx : RequestContext) : GuardrailChain :=
  let kept := resolve_walk ctx index ∅ in
  new_with_applied ((fun e => (ie_guardrail_name e, ie_guardrail e, ie_input_messages e)) <$> kept) (ie_applied <$> kept).

(** ** Building the index *)

Definition guard_key (g : DomainGuardrail) : string := g_name g.
Definition attachment_key (a : GuardrailAttachment) : string := a_guardrail_id a.

Record GuardSnapshot := mkGuardSnapshot {
  guardrails : ResourceTable DomainGuardrail;
  guardrail_attachments : ResourceTable GuardrailAttachment;
}.

(** The loop state of a build. *)
Record Building := mkBuilding {
  b_instances : GuardrailInstances;
  b_entries : list IndexEntry;
  b_rejected : gmap string GuardrailBuildRejection;
  b_reuse : BuildReuse;
}.

Section build.
Context (build_one_inner : DomainGuardrail -> result (option Guardrail) BuildError).
Context (ptr_eq : GuardRow -> GuardRow -> bool).

Definition guard_build_one (row : DomainGuardrail) : result (option Guardrail) BuildError :=
  match build_one_inner row with
  | ROk g => ROk (enforce_row row <$> g)
  | RErr e => RErr e
  end.

(** The instance a row is built into, given what it last built. *)
Definition build_outcome (entry : GuardRow) (kept : option (Guardrail * GuardRow)) : BuildOutcome :=
  match guard_build_one (value entry) with
  | ROk serving => mkBuilt serving entry None
  | RErr err =>
      let '(serving, serving_row) :=
        match kept with
        | Some (g, row) => (Some g, row)
        | None => (unbuilt_row (value entry) err, entry)
        end in
      mkBuilt serving serving_row
        (Some (mkBuildRejection (entry_id entry) (status_reason err) (bool_decide (is_Some kept))))
  end.

Definition instance (entry : GuardRow) (memo : GuardrailInstances) (reuse : BuildReuse)
    : BuildOutcome * GuardrailInstances * BuildReuse :=
  let slot := memo !! entry_id entry in
  let rebuild :=
    let outcome := build_outcome entry (slot ≫= fun s => last_good (slot_outcome s)) in
    (outcome, <[entry_id entry := mkSlot entry outcome]> memo, mkReuse (constructed reuse + 1) (reused reuse)) in
  match slot with
  | Some s =>
      if ptr_eq (slot_row s) entry then (slot_outcome s, memo, mkReuse (constructed reuse) (reused reuse + 1)) else rebuild
  | None => rebuild
  end.

Definition retain_present (t : ResourceTable DomainGuardrail) (memo : GuardrailInstances) : GuardrailInstances :=
  filter (fun kv => is_Some (get_by_id kv.1 t)) memo.

Definition push_index_entry (gid : string) (a : GuardrailAttachment) (g : Guardrail) (row : DomainGuardrail) : IndexEntry :=
  mkIndexEntry gid (g_name row) (a_scope_type a) (a_scope_id a) (a_priority a) g (g_input_messages row) (applied_for row).

(** One attachment of the loop. *)
Definition build_attachment (t : ResourceTable DomainGuardrail) (b : Building) (a : ResourceEntry GuardrailAttachment)
    : Building :=
  let attachment := value a in
  let gid := a_guardrail_id attachment in
  if negb (a_enabled attachment) then b
  else
    match get_by_id gid t with
    | None => b
    | Some entry =>
        if negb (g_enabled (value entry)) then b
        else
          let '(outcome, memo, reuse) := instance entry (b_instances b) (b_reuse b) in
          let rejected :=
            match bo_rejection outcome, b_rejected b !! gid with
            | Some r, None => <[gid := r]> (b_rejected b)
            | _, _ => b_rejected b
            end in
          let entries :=
            match bo_serving outcome with
            | Some g => b_entries b ++ [push_index_entry gid attachment g (value (bo_serving_row outcome))]
            | None => b_entries b
            end in
          mkBuilding memo entries rejected reuse
    end.

Definition attachment_order (a b : ResourceEntry GuardrailAttachment) : bool := string_leb (entry_id a) (entry_id b).

Definition build_index_from_snapshot_reported (s : GuardSnapshot) (memo : GuardrailInstances)
    : GuardrailIndex * gmap string GuardrailBuildRejection * BuildReuse * GuardrailInstances :=
  let b :=
    fold_left (build_attachment (guardrails s)) (stable_sort attachment_order (entries (guardrail_attachments s)))
      (mkBuilding memo [] ∅ (mkReuse 0 0)) in
  (guard_index_new (b_entries b), b_rejected b, b_reuse b, retain_present (guardrails s) (b_instances b)).

Definition build_index_from_snapshot (s : GuardSnapshot) : GuardrailIndex :=
  (build_index_from_snapshot_reported s ∅).1.1.1.

(** ** The live index *)

Definition guard_index_key (s : GuardSnapshot) : N * N :=
  (generation (guardrails s), generation (guardrail_attachments s)).

Record LiveGuardrailIndex := mkLive {
  live_key : N * N;
  live_index : GuardrailIndex;
  live_instances : GuardrailInstances;
  live_rejections : gmap string GuardrailBuildRejection;
  live_rebuilds : N;
}.

Definition live_new (s : GuardSnapshot) : LiveGuardrailIndex :=
  let '(index, rejected, _, memo) := build_index_from_snapshot_reported s ∅ in
  mkLive (guard_index_key s) index memo rejected 1.

(** [current]: [seen] is the snapshot of the first load, [now] that of the load
    under the lock. *)
Definition live_current (seen now : GuardSnapshot) (l : LiveGuardrailIndex) : GuardrailIndex * LiveGuardrailIndex :=
  if bool_decide (live_key l = guard_index_key seen) then (live_index l, l)
  else if bool_decide (live_key l = guard_index_key now) then (live_index l, l)
  else
    let '(index, rejected, _, memo) := build_index_from_snapshot_reported now (live_instances l) in
    (index, mkLive (guard_index_key now) index memo rejected (live_rebuilds l + 1)).

Definition live_resolve (sink : option (list SinkEvent)) (seen now : GuardSnapshot) (ctx : RequestContext)
    (l : LiveGuardrailIndex) : GuardrailChain * LiveGuardrailIndex :=
  let '(index, l) := live_current seen now l in
  match index with
  | [] => (chain_new [], l)
  | _ =>
      let chain := with_metrics_sink sink (resolve_chain index ctx) in
      match members chain with
      | [] => (chain, l)
      | _ => (with_audit_log (Some audit_new) chain, l)
      end
  end.
End build.

(** ** One request *)

Lemma entry_leb_total a b : entry_leb a b = true \/ entry_leb b a = true.
Proof.
  unfold entry_leb. rewrite (Z.compare_antisym (ie_priority a)). destruct (Z.compare _ _); simpl; auto.
  rewrite !Nat.leb_le. lia.
Qed.

Lemma entry_leb_trans a b c : entry_leb a b = true -> entry_leb b c = true -> entry_leb a c = true.
Proof.
  unfold entry_leb. destruct (Z.compare_spec (ie_priority b) (ie_priority a)), (Z.compare_spec (ie_priority c) (ie_priority b)),
    (Z.compare_spec (ie_priority c) (ie_priority a)); rewrite ?Nat.leb_le; try done; lia.
Qed.

Lemma index_sorted es : sorted entry_leb (guard_index_new es).
Proof. apply stable_sort_sorted; [apply entry_leb_total|apply entry_leb_trans]. Qed.

(** What the walk keeps: of each id not seen, the first entry that applies. *)
Lemma resolve_walk_elem ctx es : forall seen e,
  e ∈ resolve_walk ctx es seen ->
  applies_to e ctx = true /\ ~ ie_guardrail_id e ∈ seen /\
  exists before after, es = before ++ e :: after /\
    forall x, x ∈ before -> applies_to x ctx = true -> ie_guardrail_id x <> ie_guardrail_id e.
Proof.
  induction es as [|x es IH]; intros seen e; cbn [resolve_walk]; [by intros ?%elem_of_nil|].
  assert (forall (P : Prop), (forall before after, es = before ++ e :: after ->
      (forall y, y ∈ before -> applies_to y ctx = true -> ie_guardrail_id y <> ie_guardrail_id e) ->
      (applies_to x ctx = true -> ie_guardrail_id x <> ie_guardrail_id e) ->
      exists before after, x :: es = before ++ e :: after /\
        forall y, y ∈ before -> applies_to y ctx = true -> ie_guardrail_id y <> ie_guardrail_id e)) as Hext.
  { intros _ before after -> Hb Hx. exists (x :: before), after. split; [done|].
    intros y [->|Hy]%elem_of_cons; [done|by apply Hb]. }
  destruct (applies_to x ctx) eqn:Ex; cbn [negb].
  2: { intros (Ha & Hs & before & after & He & Hb)%IH. split; [done|]. split; [done|]. by apply (Hext True before after). }
  case_bool_decide as Hin.
  - intros (Ha & Hs & before & after & He & Hb)%IH. split; [done|]. split; [done|].
    apply (Hext True before after He Hb). congruence.
  - intros [->|He]%elem_of_cons.
    + split; [done|]. split; [done|]. exists [], es. split; [done|]. by intros ? ?%elem_of_nil.
    + apply IH in He as (Ha & Hs & before & after & He & Hb). split; [done|]. split; [set_solver|].
      apply (Hext True before after He Hb). set_solver.
Qed.

Lemma resolve_walk_complete ctx es : forall seen e,
  e ∈ es -> applies_to e ctx = true -> ~ ie_guardrail_id e ∈ seen ->
  exists e', e' ∈ resolve_walk ctx es seen /\ ie_guardrail_id e' = ie_guardrail_id e.
Proof.
  induction es as [|x es IH]; intros seen e He Ha Hs; cbn [resolve_walk]; [by apply elem_of_nil in He|].
  destruct (applies_to x ctx) eqn:Ex; cbn [negb].
  2: { apply elem_of_cons in He as [->|He]; [congruence|by apply IH]. }
  case_bool_decide as Hin.
  - apply elem_of_cons in He as [->|He]; [done|by apply IH].
  - destruct (decide (ie_guardrail_id x = ie_guardrail_id e)) as [Hid|Hid]; [exists x; split; [by left|done]|].
    apply elem_of_cons in He as [->|He]; [done|].
    destruct (IH ({[ie_guardrail_id x]} ∪ seen) e He Ha) as (e' & He' & Hid'); [set_solver|].
    exists e'. split; [by right|done].
Qed.

Lemma resolve_walk_NoDup ctx es : forall seen, NoDup (ie_guardrail_id <$> resolve_walk ctx es seen).
Proof.
  induction es as [|x es IH]; intros seen; cbn [resolve_walk]; [constructor|]. destruct (applies_to x ctx); [|apply IH].
  simpl. case_bool_decide; [apply IH|]. cbn. constructor; [|apply IH].
  intros (e & Hid & He)%list_elem_of_fmap. apply resolve_walk_elem in He as (_ & Hs & _). set_solver.
Qed.

Lemma sorted_cons_inv {A} (leb : A -> A -> bool) x l :
  sorted leb (x :: l) -> (forall y, y ∈ l -> leb x y = true) /\ sorted leb l.
Proof. inversion 1; subst. by split. Qed.

Lemma resolve_walk_sub ctx es : forall seen x, x ∈ resolve_walk ctx es seen -> x ∈ es.
Proof. intros seen x (_ & _ & before & after & -> & _)%resolve_walk_elem. set_solver. Qed.

Lemma resolve_walk_sorted ctx es : forall seen, sorted entry_leb es -> sorted entry_leb (resolve_walk ctx es seen).
Proof.
  induction es as [|x es IH]; intros seen Hs; cbn [resolve_walk]; [constructor|].
  apply sorted_cons_inv in Hs as [Hx Hs]. destruct (applies_to x ctx); [|by apply IH]. simpl. case_bool_decide; [by apply IH|].
  constructor; [|by apply IH]. intros y Hy%resolve_walk_sub. by apply Hx.
Qed.

Lemma sorted_app_leb {A} (leb : A -> A -> bool) l x l' y :
  sorted leb (l ++ x :: l') -> y ∈ l' -> leb x y = true.
Proof.
  induction l as [|z l IH]; simpl; intros Hs Hy; apply sorted_cons_inv in Hs as [Hz Hs]; [by apply Hz|by apply IH].
Qed.

(** An attachment that governs the request through the same guardrail, at the
    same rank. *)
Definition rival (ctx : RequestContext) (e x : IndexEntry) : Prop :=
  applies_to x ctx = true /\ ie_guardrail_id x = ie_guardrail_id e /\ entry_leb x e = true /\ entry_leb e x = true.
#[export] Instance rival_dec ctx e x : Decision (rival ctx e x).
Proof. unfold rival. apply _. Defined.

Definition member_for (e : IndexEntry) : ChainMember :=
  mkMember (ie_guardrail_name e) (applied_kind (ie_applied e)) (ie_guardrail e) (ie_input_messages e).

Lemma resolve_chain_members index ctx :
  members (resolve_chain index ctx) = member_for <$> resolve_walk ctx index ∅.
Proof.
  unfold resolve_chain, new_with_applied. simpl. generalize (resolve_walk ctx index ∅). intros kept.
  apply list_eq. intros i. rewrite list_lookup_imap, !list_lookup_fmap. destruct (kept !! i) as [e|] eqn:E; [|done].
  done.
Qed.

(** C14. Which guardrails govern a request.  Every guardrail that some attachment
    of the index applies to the request is in the chain, once, and no other is.  It
    is there by the attachment that binds it best: of the highest priority, among
    those of the narrowest scope, and among those the first given.  The chain runs
    in that order too, each member under its own name, kind and window. *)
Theorem resolution_exact es ctx :
  let index := guard_index_new es in
  let kept := resolve_walk ctx index ∅ in
  members (resolve_chain index ctx) = member_for <$> kept /\
  NoDup (ie_guardrail_id <$> kept) /\ sorted entry_leb kept /\
  (forall e, e ∈ kept ->
     e ∈ es /\ applies_to e ctx = true /\
     (forall x, x ∈ es -> applies_to x ctx = true -> ie_guardrail_id x = ie_guardrail_id e -> entry_leb e x = true) /\
     head (filter (rival ctx e) es) = Some e) /\
  (forall x, x ∈ es -> applies_to x ctx = true -> exists e, e ∈ kept /\ ie_guardrail_id e = ie_guardrail_id x).
Proof.
  cbv zeta. split; [apply resolve_chain_members|]. split; [apply resolve_walk_NoDup|].
  split; [apply resolve_walk_sorted, index_sorted|]. assert (forall x, x ∈ guard_index_new es <-> x ∈ es) as Hin
    by (intros x; unfold guard_index_new; by rewrite stable_sort_perm).
  split; [|intros x Hx Ha; apply resolve_walk_complete; [by apply Hin|done|set_solver]].
  intros e He. pose proof (resolve_walk_sub _ _ _ _ He) as Hs.
  apply resolve_walk_elem in He as (Ha & _ & before & after & Heq & Hb).
  split; [by apply Hin|]. split; [done|].
  pose proof (index_sorted es) as Hsorted. rewrite Heq in Hsorted. split.
  - intros x Hx%Hin Hxa Hid. rewrite Heq, elem_of_app, elem_of_cons in Hx.
    destruct Hx as [Hx|[->|Hx]]; [by destruct (Hb x Hx Hxa)|destruct (entry_leb_total e e); done|].
    by eapply sorted_app_leb.
  - rewrite <- (stable_sort_stable entry_leb (rival ctx e)).
    + change (stable_sort entry_leb es) with (guard_index_new es). rewrite Heq, filter_app.
      rewrite (filter_none _ before) by (intros x Hx (Hxa & Hid & _); by apply (Hb x Hx Hxa)).
      rewrite filter_cons, decide_True; [done|]. unfold rival. destruct (entry_leb_total e e); by split_and!.
    + intros y z (_ & _ & Hy & _) (_ & _ & _ & Hz). by eapply entry_leb_trans.
Qed.

(** ** What serves a row

    The versions of a row the builds saw, the latest first, since the row was
    last absent. *)
Section memo.
Context (build_one_inner : DomainGuardrail -> result (option Guardrail) BuildError).
Context (ptr_eq : GuardRow -> GuardRow -> bool) (ptr_eq_same : forall a b, ptr_eq a b = true -> a = b).

Abbreviation built := (guard_build_one build_one_inner).
Abbreviation outcome := (build_outcome build_one_inner).

(** The latest version that built, with what it built; an inert version ends
    what came before it. *)
Fixpoint kept_build (versions : list GuardRow) : option (Guardrail * GuardRow) :=
  match versions with
  | [] => None
  | row :: older =>
      match built (value row) with
      | ROk serving => (fun g => (g, row)) <$> serving
      | RErr _ => kept_build older
      end
  end.

Definition History : Type := string -> list GuardRow.

Definition slot_for (versions : list GuardRow) : option MemoSlot :=
  match versions with
  | [] => None
  | row :: older => Some (mkSlot row (outcome row (kept_build older)))
  end.
Definition memo_ok (memo : GuardrailInstances) (h : History) : Prop := forall id, memo !! id = slot_for (h id).

Lemma outcome_again row older : outcome row (kept_build (row :: older)) = outcome row (kept_build older).
Proof. unfold build_outcome. simpl. by destruct (built (value row)). Qed.

Lemma kept_again row older : kept_build (row :: row :: older) = kept_build (row :: older).
Proof. simpl. by destruct (built (value row)). Qed.

Lemma last_good_outcome row older : last_good (outcome row (kept_build older)) = kept_build (row :: older).
Proof.
  unfold last_good, build_outcome. simpl. destruct (built (value row)) as [s|e]; [done|].
  destruct (kept_build older) as [[g r]|]; simpl; done.
Qed.

Lemma slot_again row older : slot_for (row :: row :: older) = slot_for (row :: older).
Proof. unfold slot_for. by rewrite outcome_again. Qed.

Lemma slot_kept versions : (slot_for versions ≫= fun s => last_good (slot_outcome s)) = kept_build versions.
Proof. destruct versions as [|row older]; [done|]. cbn [slot_for mbind option_bind slot_outcome]. apply last_good_outcome. Qed.

(** Reusing the instance of an unchanged row changes nothing. *)
Lemma instance_spec entry memo reuse h :
  memo_ok memo h ->
  exists memo' reuse', instance build_one_inner ptr_eq entry memo reuse
      = (outcome entry (kept_build (h (entry_id entry))), memo', reuse') /\
    (forall id, memo' !! id = if bool_decide (id = entry_id entry) then slot_for (entry :: h id) else slot_for (h id)).
Proof.
  intros Hm. unfold instance. rewrite Hm. set (id0 := entry_id entry).
  assert (forall id, <[id0 := mkSlot entry (outcome entry (kept_build (h id0)))]> memo !! id
    = if bool_decide (id = id0) then slot_for (entry :: h id) else slot_for (h id)) as Hins.
  { intros id. case_bool_decide as Hid; [by rewrite Hid, lookup_insert_eq|]. rewrite lookup_insert_ne by done. apply Hm. }
  destruct (slot_for (h id0)) as [s|] eqn:Es.
  - assert (last_good (slot_outcome s) = kept_build (h id0)) as Hk by (rewrite <- slot_kept, Es; done).
    destruct (ptr_eq (slot_row s) entry) eqn:Ep.
    + apply ptr_eq_same in Ep. destruct (h id0) as [|row older] eqn:Eh; [done|]. injection Es as <-. simpl in Ep. subst row.
      rewrite outcome_again. eexists _, _. split; [done|]. intros id. case_bool_decide as Hid; [|apply Hm].
      subst id. rewrite Hm, Eh. symmetry. apply slot_again.
    + cbn [mbind option_bind]. rewrite Hk. eexists _, _. split; [done|]. apply Hins.
  - assert (kept_build (h id0) = None) as Hk by (rewrite <- slot_kept, Es; done).
    cbn [mbind option_bind]. rewrite <- Hk. eexists _, _. split; [done|]. apply Hins.
Qed.

(** ** A build *)

Definition names_row (id : string) (a : ResourceEntry GuardrailAttachment) : bool :=
  a_enabled (value a) && bool_decide (a_guardrail_id (value a) = id).

Definition visited (t : ResourceTable DomainGuardrail) (atts : list (ResourceEntry GuardrailAttachment)) (h : History)
    : History :=
  fun id =>
    match get_by_id id t with
    | Some row => if g_enabled (value row) && existsb (names_row id) atts then row :: h id else h id
    | None => h id
    end.

(** What a row's history is after a build on the snapshot. *)
Definition versions_after (s : GuardSnapshot) (h : History) : History :=
  fun id =>
    match get_by_id id (guardrails s) with
    | None => []
    | Some _ => visited (guardrails s) (entries (guardrail_attachments s)) h id
    end.

(** The entry of an attachment: its row as last built. *)
Definition spec_entry (t : ResourceTable DomainGuardrail) (h : History) (a : ResourceEntry GuardrailAttachment)
    : option IndexEntry :=
  let gid := a_guardrail_id (value a) in
  match get_by_id gid t with
  | Some row =>
      if a_enabled (value a) && g_enabled (value row) then
        let o := outcome row (kept_build (h gid)) in
        (fun g => push_index_entry gid (value a) g (value (bo_serving_row o))) <$> bo_serving o
      else None
  | None => None
  end.

Definition spec_index (s : GuardSnapshot) (h : History) : GuardrailIndex :=
  guard_index_new (omap (spec_entry (guardrails s) h) (stable_sort attachment_order (entries (guardrail_attachments s)))).

Lemma visited_outcome t atts h id row :
  get_by_id id t = Some row -> outcome row (kept_build (visited t atts h id)) = outcome row (kept_build (h id)).
Proof. intros Hr. unfold visited. rewrite Hr. destruct (_ && _); [apply outcome_again|done]. Qed.

Lemma visited_slot t atts h id row :
  get_by_id id t = Some row -> slot_for (row :: visited t atts h id) = slot_for (row :: h id).
Proof. intros Hr. unfold slot_for. by rewrite (visited_outcome t atts h id row Hr). Qed.

Lemma visited_snoc t atts a h id :
  visited t (atts ++ [a]) h id =
    match get_by_id id t with
    | Some row => if g_enabled (value row) && (existsb (names_row id) atts || names_row id a) then row :: h id else h id
    | None => h id
    end.
Proof. unfold visited. rewrite existsb_app. simpl. by rewrite orb_false_r. Qed.

Lemma build_loop t atts memo h reuse :
  (forall id row, get_by_id id t = Some row -> entry_id row = id) -> memo_ok memo h ->
  let b := fold_left (build_attachment build_one_inner ptr_eq t) atts (mkBuilding memo [] ∅ reuse) in
  b_entries b = omap (spec_entry t h) atts /\ memo_ok (b_instances b) (visited t atts h).
Proof.
  intros Hids Hm. induction atts as [|a atts IH] using rev_ind.
  { split; [done|]. intros id. simpl. rewrite Hm. unfold visited. simpl. destruct (get_by_id id t); [by rewrite andb_false_r|done]. }
  cbv zeta in *. rewrite fold_left_app, omap_app. cbn [fold_left omap list_omap].
  destruct (fold_left _ atts _) as [memo1 es1 rej1 re1]. cbn [b_entries b_instances] in IH. destruct IH as [-> Hm1].
  unfold build_attachment, spec_entry. cbn [b_entries b_instances b_rejected b_reuse].
  set (gid := a_guardrail_id (value a)).
  assert (forall id, get_by_id id t = None \/ names_row id a = false \/
      (exists row, get_by_id id t = Some row /\ g_enabled (value row) = false) ->
      visited t (atts ++ [a]) h id = visited t atts h id) as Hskip.
  { intros id Hc. rewrite visited_snoc. unfold visited. destruct (get_by_id id t) as [row|]; [|done].
    destruct Hc as [?|[->|(r & [= <-] & ->)]]; [done|by rewrite orb_false_r|done]. }
  destruct (a_enabled (value a)) eqn:Ea; cbn [negb andb].
  2: { assert (forall id, names_row id a = false) as Hn by (intros; unfold names_row; by rewrite Ea).
       split; [by destruct (get_by_id gid t); rewrite app_nil_r|]. intros id. rewrite Hskip by auto. apply Hm1. }
  destruct (get_by_id gid t) as [row|] eqn:Er.
  2: { split; [by rewrite app_nil_r|]. intros id. rewrite Hskip; [apply Hm1|]. unfold names_row. fold gid.
       case_bool_decide; [left; congruence|right; left; by rewrite andb_false_r]. }
  destruct (g_enabled (value row)) eqn:Ee; cbn [negb].
  2: { split; [by rewrite app_nil_r|]. intros id. rewrite Hskip; [apply Hm1|]. unfold names_row. fold gid.
       case_bool_decide; [right; right; subst; eauto|right; left; by rewrite andb_false_r]. }
  destruct (instance_spec row memo1 re1 _ Hm1) as (memo' & reuse' & -> & Hm').
  rewrite (Hids _ _ Er) in *. rewrite (visited_outcome t atts h gid row Er).
  split; [by destruct (bo_serving _); rewrite ?app_nil_r|]. cbn [b_instances]. intros id. rewrite Hm'.
  case_bool_decide as Hid.
  - rewrite Hid, (visited_slot t atts h gid row Er), visited_snoc, Er, Ee. unfold names_row at 2. fold gid.
    rewrite Ea, bool_decide_true by done. by rewrite orb_true_r.
  - rewrite Hskip; [done|]. right. left. unfold names_row. fold gid. by rewrite bool_decide_false, andb_false_r.
Qed.

Lemma visited_perm t atts atts' h id : atts ≡ₚ atts' -> visited t atts h id = visited t atts' h id.
Proof.
  intros Hp. unfold visited. destruct (get_by_id id t) as [row|]; [|done]. destruct (g_enabled (value row)); [|done]. simpl.
  assert (existsb (names_row id) atts = existsb (names_row id) atts') as ->; [|done].
  apply eq_true_iff_eq. rewrite !existsb_exists. setoid_rewrite <- list_elem_of_In. by setoid_rewrite Hp.
Qed.

Definition snap_wf (s : GuardSnapshot) : Prop :=
  table_wf guard_key (guardrails s) /\ table_wf attachment_key (guardrail_attachments s).

Lemma build_reported s memo h :
  snap_wf s -> memo_ok memo h ->
  let '(index, _, _, memo') := build_index_from_snapshot_reported build_one_inner ptr_eq s memo in
  index = spec_index s h /\ memo_ok memo' (versions_after s h).
Proof.
  intros [Hg Ha] Hm. unfold build_index_from_snapshot_reported.
  destruct (build_loop (guardrails s) (stable_sort attachment_order (entries (guardrail_attachments s))) memo h
    (mkReuse 0 0) (wf_ids _ _ Hg) Hm) as [He Hi].
  split; [unfold spec_index; by rewrite He|]. intros id. unfold retain_present, versions_after.
  destruct (get_by_id id (guardrails s)) as [row|] eqn:E.
  - rewrite <- (visited_perm _ _ _ _ _ (stable_sort_perm attachment_order _)), <- Hi.
    apply option_eq. intros x. rewrite map_lookup_filter_Some. simpl. rewrite E. naive_solver.
  - apply map_lookup_filter_None. right. intros x _. simpl. rewrite E. by intros [? ?].
Qed.

(** ** The live index *)

Definition same_snap (s s' : GuardSnapshot) : Prop :=
  same_rows (guardrails s) (guardrails s') /\ same_rows (guardrail_attachments s) (guardrail_attachments s').

Lemma same_entries s s' :
  snap_wf s -> snap_wf s' -> same_snap s s' -> entries (guardrail_attachments s) = entries (guardrail_attachments s').
Proof.
  intros [_ W] [_ W'] [_ (E & _)]. unfold entries, table_is_empty, table_len.
  by rewrite (wf_count _ _ W), (wf_count _ _ W'), E.
Qed.

Lemma same_visited s s' h id :
  snap_wf s -> snap_wf s' -> same_snap s s' -> versions_after s h id = versions_after s' h id.
Proof.
  intros W W' Hs. unfold versions_after, visited, get_by_id. rewrite (same_entries _ _ W W' Hs).
  destruct Hs as [(E & _) _]. by rewrite E.
Qed.

Lemma versions_again s h id : slot_for (versions_after s (versions_after s h) id) = slot_for (versions_after s h id).
Proof.
  unfold versions_after, visited. destruct (get_by_id id (guardrails s)) as [row|]; [|done].
  destruct (_ && _); [apply slot_again|done].
Qed.

Lemma outcome_after s h id row :
  get_by_id id (guardrails s) = Some row ->
  outcome row (kept_build (versions_after s h id)) = outcome row (kept_build (h id)).
Proof. intros Hr. unfold versions_after. rewrite Hr. by apply visited_outcome. Qed.

Lemma spec_index_same s s' h :
  snap_wf s -> snap_wf s' -> same_snap s s' -> spec_index s' (versions_after s h) = spec_index s h.
Proof.
  intros W W' Hs. unfold spec_index. rewrite (same_entries _ _ W W' Hs). f_equal. apply omap_ext_elem.
  intros a _. unfold spec_entry. assert (get_by_id (a_guardrail_id (value a)) (guardrails s')
    = get_by_id (a_guardrail_id (value a)) (guardrails s)) as ->.
  { unfold get_by_id. by destruct Hs as [(-> & _) _]. }
  destruct (get_by_id _ (guardrails s)) as [row|] eqn:E; [|done]. by rewrite (outcome_after s h _ row E).
Qed.

Definition live_ok (l : LiveGuardrailIndex) (s : GuardSnapshot) (h : History) : Prop :=
  live_key l = guard_index_key s /\ live_index l = spec_index s h /\ memo_ok (live_instances l) (versions_after s h).

Definition live_after (s0 : GuardSnapshot) (ss : list GuardSnapshot) : LiveGuardrailIndex :=
  fold_left (fun l s => (live_current build_one_inner ptr_eq s s l).2) ss (live_new build_one_inner ptr_eq s0).
Definition history_of (ss : list GuardSnapshot) : History := fold_left (fun h s => versions_after s h) ss (fun _ => []).

Lemma live_new_ok s : snap_wf s -> live_ok (live_new build_one_inner ptr_eq s) s (fun _ => []).
Proof.
  intros W. unfold live_new. pose proof (build_reported s ∅ (fun _ => []) W (fun id => lookup_empty id)) as H.
  destruct (build_index_from_snapshot_reported _ _ _ _) as [[[index rej] re] memo]. by destruct H.
Qed.

Lemma live_current_ok l s h s' :
  snap_wf s -> snap_wf s' -> (guard_index_key s = guard_index_key s' -> same_snap s s') -> live_ok l s h ->
  (live_current build_one_inner ptr_eq s' s' l).1 = spec_index s' (versions_after s h) /\
  live_ok (live_current build_one_inner ptr_eq s' s' l).2 s' (versions_after s h).
Proof.
  intros W W' Hkey (Hk & Hi & Hm). unfold live_current. case_bool_decide as Hd.
  - assert (same_snap s s') as Hs by (apply Hkey; congruence). simpl. rewrite (spec_index_same s s' h W W' Hs).
    split; [done|]. split; [done|]. split; [by rewrite spec_index_same|].
    intros id. rewrite Hm, <- (same_visited s s' _ id W W' Hs). symmetry. apply versions_again.
  - pose proof (build_reported s' (live_instances l) (versions_after s h) W' Hm) as H.
    destruct (build_index_from_snapshot_reported _ _ _ _) as [[[index rej] re] memo]. simpl. by destruct H as [-> ?].
Qed.

Lemma live_run_ok s0 ss s :
  (forall x, x ∈ s0 :: ss ++ [s] -> snap_wf x) ->
  (forall x y, x ∈ s0 :: ss ++ [s] -> y ∈ s0 :: ss ++ [s] -> guard_index_key x = guard_index_key y -> same_snap x y) ->
  (live_current build_one_inner ptr_eq s s (live_after s0 ss)).1 = spec_index s (history_of (s0 :: ss)).
Proof.
  intros W Hkey. assert (exists x h, x ∈ s0 :: ss /\ live_ok (live_after s0 ss) x h /\ versions_after x h = history_of (s0 :: ss))
    as (x & h & Hx & Hok & Hh).
  { clear -W Hkey ptr_eq_same. revert W Hkey. generalize [s]. intros rest. revert rest.
    induction ss as [|y ss IH] using rev_ind; intros rest W Hkey.
    - exists s0, (fun _ => []). split; [by left|]. split; [|done]. apply live_new_ok, W. by left.
    - rewrite <- app_assoc in W, Hkey. destruct (IH ([y] ++ rest) W Hkey) as (x & h & Hx & Hok & Hh).
      exists y, (versions_after x h). split; [set_solver|]. unfold live_after, history_of in *.
      rewrite app_comm_cons, !fold_left_app, <- Hh. split; [|done]. cbn [fold_left]. eapply live_current_ok; [apply W; set_solver|apply W; set_solver|apply Hkey; set_solver|done]. }
  rewrite <- Hh. eapply live_current_ok; [apply W; set_solver|apply W; set_solver|apply Hkey; set_solver|done].
Qed.

Lemma kept_build_bad bad good older g :
  (forall r, r ∈ bad -> exists e, built (value r) = RErr e) -> built (value good) = ROk (Some g) ->
  kept_build (bad ++ good :: older) = Some (g, good).
Proof.
  intros Hb Hg. induction bad as [|r bad IH]; simpl; [by rewrite Hg|].
  destruct (Hb r) as [e ->]; [by left|]. apply IH. set_solver.
Qed.

Lemma spec_index_elem s h a e :
  a ∈ entries (guardrail_attachments s) -> spec_entry (guardrails s) h a = Some e -> e ∈ spec_index s h.
Proof.
  intros Ha He. unfold spec_index, guard_index_new. rewrite stable_sort_perm. apply list_elem_of_omap.
  exists a. split; [by rewrite stable_sort_perm|done].
Qed.

(** C7. The index requests are resolved against.  Whatever snapshots the process
    published and requests read before, with or without rebuilding, the index for
    the snapshot a request reads is the one its rows and attachments call for, given
    what each row last built; reusing instances and skipping rebuilds are never
    visible.  In particular an enabled attachment of an enabled row binds in each of
    these cases: the row's configuration builds a guardrail, which then binds; its
    latest edits do not build but a version before them built one, which binds under
    that version's name and window; or it never built and there is a stand-in for a
    check of its kind, which binds and answers as a check that could not run.  (A row
    that builds to nothing, or that never built and has no stand-in, is in none of
    these cases.) *)
Theorem live_index_serves_last_good p q s0 ss s :
  rtc (process_step guard_key) (mkProcess [] 1) p -> rtc (process_step attachment_key) (mkProcess [] 1) q ->
  (forall x, x ∈ s0 :: ss ++ [s] -> guardrails x ∈ tables p /\ guardrail_attachments x ∈ tables q) ->
  let h := history_of (s0 :: ss) in
  let index := (live_current build_one_inner ptr_eq s s (live_after s0 ss)).1 in
  index = spec_index s h /\
  (forall a row, a ∈ entries (guardrail_attachments s) -> a_enabled (value a) = true ->
     let gid := a_guardrail_id (value a) in
     get_by_id gid (guardrails s) = Some row -> g_enabled (value row) = true ->
     (forall g, built (value row) = ROk (Some g) -> push_index_entry gid (value a) g (value row) ∈ index) /\
     (forall bad good older g, h gid = bad ++ good :: older ->
        (forall r, r ∈ row :: bad -> exists e, built (value r) = RErr e) -> built (value good) = ROk (Some g) ->
        push_index_entry gid (value a) g (value good) ∈ index) /\
     (forall e g, (forall r, r ∈ h gid -> exists e', built (value r) = RErr e') -> built (value row) = RErr e ->
        unbuilt_row (value row) e = Some g -> push_index_entry gid (value a) g (value row) ∈ index)).
Proof.
  intros Rp Rq Hin. cbv zeta.
  assert (forall x, x ∈ s0 :: ss ++ [s] -> snap_wf x) as W.
  { intros x Hx. destruct (Hin x Hx). split; by eapply process_tables_wf. }
  rewrite live_run_ok; [|done|].
  2: { intros x y Hx Hy Hk. destruct (Hin x Hx), (Hin y Hy). unfold guard_index_key in Hk. simplify_eq.
       split; [apply (pok_same p (process_runs_ok guard_key p Rp))|apply (pok_same q (process_runs_ok attachment_key q Rq))]; done. }
  split; [done|]. intros a row Ha Hae Hrow Hen.
  assert (forall o, outcome row (kept_build (history_of (s0 :: ss) (a_guardrail_id (value a)))) = o ->
    forall g, bo_serving o = Some g ->
    push_index_entry (a_guardrail_id (value a)) (value a) g (value (bo_serving_row o)) ∈ spec_index s (history_of (s0 :: ss))) as Hpush.
  { intros o Ho g Hg. apply (spec_index_elem _ _ a); [done|]. unfold spec_entry. by rewrite Hrow, Hae, Hen, Ho, Hg. }
  split; [|split].
  - intros g Hg. apply (Hpush (mkBuilt (Some g) row None)); [|done]. unfold build_outcome. by rewrite Hg.
  - intros bad good older g Hh Hbad Hgood. destruct (Hbad row) as [e He]; [by left|].
    eapply (Hpush (mkBuilt (Some g) good _)); [|done]. unfold build_outcome. rewrite He, Hh, (kept_build_bad bad good older g); [done| |done].
    intros r Hr. apply Hbad. by right.
  - intros e g Hnone He Hg.
    assert (kept_build (history_of (s0 :: ss) (a_guardrail_id (value a))) = None) as Hk.
    { revert Hnone. generalize (history_of (s0 :: ss) (a_guardrail_id (value a))). intros l Hl.
      induction l as [|r l IH]; [done|]. simpl. destruct (Hl r) as [e' ->]; [by left|]. apply IH. set_solver. }
    eapply (Hpush (mkBuilt (Some g) row _)); [|done]. unfold build_outcome. by rewrite He, Hk, Hg.
Qed.
End memo.

(** ** A rule edited into one that does not build *)

Definition demo_rule (cfg : string) : DomainGuardrail :=
  mkDomain "rule" true HookBoth AllMessages false (Keyword cfg) "block" None.
Definition demo_build (row : DomainGuardrail) : result (option Guardrail) BuildError :=
  if bool_decide (g_config row = Keyword "bad") then RErr (InvalidRegex "patterns")
  else ROk (Some (demo_word "stop" "secret" (BufferFull 9 false))).
Definition demo_attachment : GuardrailAttachment := mkAttachment "g" ScopeEnv None 0 true.
Definition demo_rules : ResourceTable DomainGuardrail :=
  fst (insert_arc guard_key (mkEntry "g" (demo_rule "stop") 1) table_default 1).
Definition demo_rules' : ResourceTable DomainGuardrail :=
  fst (insert_arc guard_key (mkEntry "g" (demo_rule "bad") 2) (table_clone demo_rules) 2).
Definition demo_attachments : ResourceTable GuardrailAttachment :=
  fst (insert_arc attachment_key (mkEntry "a" demo_attachment 1) table_default 1).
Definition demo_before : GuardSnapshot := mkGuardSnapshot demo_rules demo_attachments.
Definition demo_after : GuardSnapshot := mkGuardSnapshot demo_rules' demo_attachments.
Definition demo_same (a b : GuardRow) : bool := bool_decide (a = b).

Lemma live_index_serves_last_good_witness :
  push_index_entry "g" demo_attachment (demo_word "stop" "secret" (BufferFull 9 false)) (demo_rule "stop")
    ∈ (live_current demo_build demo_same demo_after demo_after (live_after demo_build demo_same demo_before [])).1.
Proof.
  destruct (live_index_serves_last_good demo_build demo_same
    (fun a b H => bool_decide_eq_true_1 _ H) (mkProcess [demo_rules'; demo_rules] 3) (mkProcess [demo_attachments] 2)
    demo_before [] demo_after) as (_ & H).
  - eapply rtc_l; [apply ps_new|]. eapply rtc_l.
    { apply (ps_write guard_key [] table_default [] 1 (OpInsert (mkEntry "g" (demo_rule "stop") 1))). reflexivity. }
    eapply rtc_l; [apply (ps_clone guard_key _ _ demo_rules); by left|].
    eapply rtc_l; [|apply rtc_refl].
    apply (ps_write guard_key [] (table_clone demo_rules) [demo_rules] 2 (OpInsert (mkEntry "g" (demo_rule "bad") 2))). reflexivity.
  - eapply rtc_l; [apply ps_new|]. eapply rtc_l; [|apply rtc_refl].
    apply (ps_write attachment_key [] table_default [] 1 (OpInsert (mkEntry "a" demo_attachment 1))). reflexivity.
  - intros x [->|[->|Hx]%elem_of_cons]%elem_of_cons; [| |by apply elem_of_nil in Hx]; simpl; split; set_solver.
  - destruct (H (mkEntry "a" demo_attachment 1) (mkEntry "g" (demo_rule "bad") 2)) as (_ & Hlast & _);
      [by left|done|done|done|].
    apply (Hlast [] (mkEntry "g" (demo_rule "stop") 1) []); [vm_compute; reflexivity| |reflexivity].
    intros r [->|Hr]%elem_of_cons; [|by apply elem_of_nil in Hr]. by eexists.
Defined.

Definition demo_binding (gid : string) (k : ScopeKind) (sid : option string) (priority : Z) : IndexEntry :=
  mkIndexEntry gid gid k sid priority (demo_word "stop" "x" EndOfStreamCheck) AllMessages (mkApplied "keyword" HookBoth).

Lemma resolution_exact_witness :
  let es := [demo_binding "g" ScopeEnv None 5; demo_binding "h" ScopeModel (Some "m") 9; demo_binding "g" ScopeApiKey (Some "k") 5] in
  m_name <$> members (resolve_chain (guard_index_new es) (mkContext "m" "" "" "k" None)) = ["h"; "g"] /\
  exists e, e ∈ resolve_walk (mkContext "m" "" "" "k" None) (guard_index_new es) ∅ /\ ie_guardrail_id e = "h".
Proof.
  split; [vm_compute; reflexivity|].
  destruct (resolution_exact [demo_binding "g" ScopeEnv None 5; demo_binding "h" ScopeModel (Some "m") 9;
      demo_binding "g" ScopeApiKey (Some "k") 5] (mkContext "m" "" "" "k" None)) as (_ & _ & _ & _ & H).
  apply (H (demo_binding "h" ScopeModel (Some "m") 9)); [set_solver|reflexivity].
Defined.
