(* ===== verification/Splice.v ===== *)
(** * Rewriting the strings of a JSON document in place

    [crates/aisix-proxy/src/json_splice.rs]: the scanner that offers selected
    string values to a rewriter and splices the replacements into the bytes,
    and the collectors built on it.

    The scanner reads the bytes that are left; the position of the source is the
    length of what was read.  The two closures are functions of a state they
    thread.  [serde_json], which decodes a scanned string token and encodes a
    replacement, is an argument. *)

From S2P Require Import Prelude Utf8.
From Stdlib Require Import ZifyBool ZifyN.
Local Open Scope N_scope.

Inductive PathSeg := Key (k : text) | Index (i : N).
#[export] Instance PathSeg_eq_dec : EqDecision PathSeg.
Proof. solve_decision. Defined.
Definition is_key (name : text) (p : PathSeg) : bool :=
  match p with Key k => bool_decide (k = name) | Index _ => false end.

Inductive SpliceErrorKind := Invalid | DepthExceeded | Unevaluable.
#[export] Instance SpliceErrorKind_eq_dec : EqDecision SpliceErrorKind.
Proof. solve_decision. Defined.
Record SpliceError := mkSpliceError { splice_at : nat; splice_kind : SpliceErrorKind }.

Definition is_depth_exceeded (e : SpliceError) : bool := bool_decide (splice_kind e = DepthExceeded).
Definition is_unevaluable (e : SpliceError) : bool :=
  match splice_kind e with DepthExceeded | Unevaluable => true | Invalid => false end.
Definition depth_exceeded : SpliceError := mkSpliceError 0 DepthExceeded.
Definition unevaluable : SpliceError := mkSpliceError 0 Unevaluable.

Definition MAX_JSON_DEPTH : nat := 4096.
Definition MAX_JSON_SCAN_VALUES : nat := 1024.
Definition MAX_JSON_SCAN_TEXT_BYTES : N := 262144.

(** ** Bytes *)

Definition is_ws (b : N) : bool := (b =? 32) || (b =? 9) || (b =? 10) || (b =? 13).
Definition digit_byte (b : N) : bool := between 48 57 b.
Definition is_hex (b : N) : bool := digit_byte b || between 65 70 b || between 97 102 b.
Definition is_escape (b : N) : bool :=
  (b =? 34) || (b =? 92) || (b =? 47) || (b =? 98) || (b =? 102) || (b =? 110) || (b =? 114) || (b =? 116).
Definition is_token (b : N) : bool :=
  (b =? 45) || (b =? 43) || (b =? 46) || digit_byte b || between 97 122 b || between 65 90 b.
Definition starts_token (b : N) : bool := (b =? 45) || digit_byte b || (b =? 116) || (b =? 102) || (b =? 110).

Fixpoint skip_while (p : N -> bool) (l : bytes) : bytes :=
  match l with
  | [] => []
  | b :: l' => if p b then skip_while p l' else l
  end.
Fixpoint take_while (p : N -> bool) (l : bytes) : bytes :=
  match l with
  | [] => []
  | b :: l' => if p b then b :: take_while p l' else []
  end.
Definition skip_ws : bytes -> bytes := skip_while is_ws.

(** At least one digit, or nothing. *)
Definition skip_digits1 (l : bytes) : option bytes :=
  match l with
  | b :: _ => if digit_byte b then Some (skip_while digit_byte l) else None
  | [] => None
  end.

Definition skip_sign (l : bytes) : bytes :=
  match l with
  | b :: l' => if b =? 45 then l' else l
  | [] => l
  end.
Definition scan_int (l : bytes) : option bytes :=
  match l with
  | b :: l' => if b =? 48 then Some l' else if between 49 57 b then Some (skip_while digit_byte l') else None
  | [] => None
  end.
Definition scan_fraction (l : bytes) : option bytes :=
  match l with
  | b :: l' => if b =? 46 then skip_digits1 l' else Some l
  | [] => Some l
  end.
Definition scan_exponent (l : bytes) : option bytes :=
  match l with
  | b :: l' =>
      if (b =? 101) || (b =? 69) then
        skip_digits1 match l' with s :: l'' => if (s =? 43) || (s =? 45) then l'' else l' | [] => l' end
      else Some l
  | [] => Some l
  end.

Definition is_json_number (token : bytes) : bool :=
  match (l ← scan_int (skip_sign token); l ← scan_fraction l; scan_exponent l) with
  | Some [] => true
  | _ => false
  end.

Definition is_atom (token : bytes) : bool :=
  bool_decide (token = lit "true") || bool_decide (token = lit "false") || bool_decide (token = lit "null")
  || is_json_number token.

(** [scan_string] past the opening quote at [start]: the end of the token. *)
Fixpoint scan_body (start : nat) (l : bytes) (i : nat) : result nat nat :=
  match l with
  | [] => RErr start
  | b :: l1 =>
      if b =? 92 then
        match l1 with
        | e :: l2 =>
            if is_escape e then scan_body start l2 (i + 2)
            else if e =? 117 then
              match l2 with
              | h1 :: h2 :: h3 :: h4 :: l3 =>
                  if is_hex h1 && is_hex h2 && is_hex h3 && is_hex h4 then scan_body start l3 (i + 6) else RErr i
              | _ => RErr i
              end
            else RErr i
        | [] => RErr i
        end
      else if b =? 34 then ROk (i + 1)%nat
      else if b <=? 31 then RErr i
      else scan_body start l1 (i + 1)
  end.

(** [valid_up_to] *)
Fixpoint valid_up_to (skip : nat) (l : bytes) (i : nat) : nat :=
  match l with
  | [] => i
  | b :: r =>
      match skip with
      | S k => valid_up_to k r i
      | O =>
          let '(c, n) := decode_step b r in
          match c with Some _ => valid_up_to (Nat.pred n) r (i + n) | None => i end
      end
  end.

(** ** The scanner *)

Inductive Frame := FObject | FArray.
#[export] Instance Frame_eq_dec : EqDecision Frame.
Proof. solve_decision. Defined.

Section rewrite.
Context {S : Type}.
Context (should_rewrite : list PathSeg -> S -> bool * S).
Context (rewrite : text -> S -> option text * S).
Context (decode_str : bytes -> option text) (encode_str : text -> bytes).
Context (input : bytes).

(** What the loop carries: the bytes left, the open containers (innermost
    first), the path to the value (outermost first), the splices recorded, and
    the closures' state. *)
Record Scan := mkScan {
  rest : bytes;
  frames : list Frame;
  path : list PathSeg;
  splices : list (nat * nat * bytes);
  closure : S;
}.

Definition pos_of (l : bytes) : nat := length input - length l.
Definition err_at (at_ : nat) : SpliceError := mkSpliceError at_ Invalid.
Definition err_here (l : bytes) : SpliceError := err_at (pos_of l).

(** The string token at the head: its bytes, and what follows. *)
Definition scan_string (l : bytes) : result (bytes * bytes) SpliceError :=
  match scan_body (pos_of l) (tail l) (pos_of l + 1) with
  | ROk stop => ROk (take (stop - pos_of l) l, drop (stop - pos_of l) l)
  | RErr i => RErr (err_at i)
  end.

Definition decode_at (l token : bytes) : result text SpliceError :=
  match decode_str token with Some t => ROk t | None => RErr (err_here l) end.

(** A key, its colon, and the path it opens. *)
Definition scan_key (l : bytes) : result (text * bytes) SpliceError :=
  match scan_string l with
  | RErr e => RErr e
  | ROk (token, l') =>
      match decode_at l token with
      | RErr e => RErr e
      | ROk k =>
          let l' := skip_ws l' in
          match l' with
          | b :: l'' => if b =? 58 then ROk (k, l'') else RErr (err_here l')
          | [] => RErr (err_here l')
          end
      end
  end.

Inductive Next :=
  | ToValue (s : Scan)
  | ToAfter (s : Scan)
  | Finished (s : Scan)
  | Failed (e : SpliceError).

Definition with_rest (l : bytes) (s : Scan) : Scan := mkScan l (frames s) (path s) (splices s) (closure s).

(** The string value at the head of [l]. *)
Definition value_string (l : bytes) (s : Scan) : Next :=
  match scan_string l with
  | RErr e => Failed e
  | ROk (token, l') =>
      let '(wanted, st) := should_rewrite (path s) (closure s) in
      if wanted then
        match decode_at l token with
        | RErr e => Failed e
        | ROk t =>
            let '(replacement, st) := rewrite t st in
            let spliced :=
              match replacement with
              | Some new => splices s ++ [(pos_of l, pos_of l', encode_str new)]
              | None => splices s
              end in
            ToAfter (mkScan l' (frames s) (path s) spliced st)
        end
      else ToAfter (mkScan l' (frames s) (path s) (splices s) st)
  end.

(** One turn of the outer loop, at a value. *)
Definition value_step (s : Scan) : Next :=
  let l := skip_ws (rest s) in
  match l with
  | [] => Failed (err_here l)
  | b :: l1 =>
      if b =? 123 then
        let fs := FObject :: frames s in
        if (MAX_JSON_DEPTH <? length fs)%nat then Failed (mkSpliceError (pos_of l) DepthExceeded)
        else
          let l2 := skip_ws l1 in
          match l2 with
          | c :: l3 =>
              if c =? 125 then ToAfter (mkScan l3 (frames s) (path s) (splices s) (closure s))
              else if c =? 34 then
                match scan_key l2 with
                | RErr e => Failed e
                | ROk (k, l4) => ToValue (mkScan l4 fs (path s ++ [Key k]) (splices s) (closure s))
                end
              else Failed (err_here l2)
          | [] => Failed (err_here l2)
          end
      else if b =? 91 then
        let fs := FArray :: frames s in
        if (MAX_JSON_DEPTH <? length fs)%nat then Failed (mkSpliceError (pos_of l) DepthExceeded)
        else
          let l2 := skip_ws l1 in
          match l2 with
          | c :: l3 =>
              if c =? 93 then ToAfter (mkScan l3 (frames s) (path s) (splices s) (closure s))
              else ToValue (mkScan l2 fs (path s ++ [Index 0]) (splices s) (closure s))
          | [] => ToValue (mkScan l2 fs (path s ++ [Index 0]) (splices s) (closure s))
          end
      else if b =? 34 then value_string l s
      else if starts_token b then
        if is_atom (take_while is_token l) then ToAfter (with_rest (skip_while is_token l) s)
        else Failed (err_here l)
      else Failed (err_here l)
  end.

(** The last segment of the path, one element on. *)
Definition next_index (p : list PathSeg) : option (list PathSeg) :=
  match last p with
  | Some (Index i) => Some (removelast p ++ [Index (i + 1)])
  | _ => None
  end.

(** One turn of the inner loop, after a value. *)
Definition after_step (s : Scan) : Next :=
  let l := skip_ws (rest s) in
  match frames s with
  | [] => match l with [] => Finished (with_rest l s) | _ => Failed (err_here l) end
  | f :: fs =>
      match l with
      | [] => Failed (err_here l)
      | b :: l1 =>
          match f with
          | FObject =>
              if b =? 44 then
                let l2 := skip_ws l1 in
                match l2 with
                | c :: _ =>
                    if c =? 34 then
                      match scan_key l2 with
                      | RErr e => Failed e
                      | ROk (k, l4) => ToValue (mkScan l4 (frames s) (removelast (path s) ++ [Key k]) (splices s) (closure s))
                      end
                    else Failed (err_here l2)
                | [] => Failed (err_here l2)
                end
              else if b =? 125 then ToAfter (mkScan l1 fs (removelast (path s)) (splices s) (closure s))
              else Failed (err_here l)
          | FArray =>
              if b =? 44 then
                match next_index (path s) with
                | Some p => ToValue (mkScan l1 (frames s) p (splices s) (closure s))
                | None => Failed (err_here l1)
                end
              else if b =? 93 then ToAfter (mkScan l1 fs (removelast (path s)) (splices s) (closure s))
              else Failed (err_here l)
          end
      end
  end.

Fixpoint splice_loop (fuel : nat) (at_value : bool) (s : Scan) : option (result Scan SpliceError) :=
  match fuel with
  | O => None
  | Datatypes.S fuel =>
      match (if at_value then value_step s else after_step s) with
      | ToValue s => splice_loop fuel true s
      | ToAfter s => splice_loop fuel false s
      | Finished s => Some (ROk s)
      | Failed e => Some (RErr e)
      end
  end.

(** The copy of the input with the recorded ranges replaced. *)
Fixpoint apply_splices (l : list (nat * nat * bytes)) (copied : nat) : bytes :=
  match l with
  | [] => drop copied input
  | (start, stop, replacement) :: l =>
      take (start - copied) (drop copied input) ++ replacement ++ apply_splices l stop
  end.

(** [None]: out of fuel, which does not happen. *)
Definition rewrite_string_values (st : S) : option (result (option bytes * S) SpliceError) :=
  match from_utf8 input with
  | None => Some (RErr (err_at (valid_up_to 0 input 0)))
  | Some _ =>
      match splice_loop (Datatypes.S (length input)) true (mkScan input [] [] [] st) with
      | None => None
      | Some (RErr e) => Some (RErr e)
      | Some (ROk s) => Some (ROk (match splices s with [] => None | l => Some (apply_splices l 0) end, closure s))
      end
  end.
End rewrite.

(** ** The collectors *)

(** [rewrite_string_values] with closures that keep every string; a failed
    [try_reserve] is not modelled. *)
Definition validate_json (decode_str : bytes -> option text) (encode_str : text -> bytes) (input : bytes)
  : option (result unit SpliceError) :=
  match rewrite_string_values (fun _ s => (false, s)) (fun _ s => (None, s)) decode_str encode_str input tt with
  | Some (ROk _) => Some (ROk tt)
  | Some (RErr e) => Some (RErr e)
  | None => None
  end.

Definition byte_len (t : text) : N := N.of_nat (length (encode t)).
Definition NEWLINE_CHAR : N := 10.

Section collect.
Context {A : Type}.
Context (include : list PathSeg -> A -> bool * A).
Context (decode_str : bytes -> option text) (encode_str : text -> bytes).

(** The predicate of the caller, beside what the collector keeps. *)
Definition asking {B} (p : list PathSeg) (s : A * B) : bool * (A * B) :=
  let '(b, a) := include p s.1 in (b, (a, s.2)).
Definition keeping {B} (f : text -> B -> B) (value : text) (s : A * B) : option text * (A * B) := (None, (s.1, f value s.2)).

Definition collect_value (value : text) (s : text * option SpliceError) : text * option SpliceError :=
  let '(out, collect_error) := s in
  match collect_error with
  | Some _ => s
  | None =>
      let separator := match out with [] => 0 | _ => 1 end in
      if MAX_JSON_SCAN_TEXT_BYTES <? byte_len out + separator + byte_len value then (out, Some unevaluable)
      else (out ++ (if separator =? 0 then [] else [NEWLINE_CHAR]) ++ value, None)
  end.

Definition collect_string_values_where (input : bytes) (a : A) : option (result text SpliceError) :=
  match rewrite_string_values asking (keeping collect_value) decode_str encode_str input (a, ([], None)) with
  | Some (ROk (_, (_, (out, None)))) => Some (ROk out)
  | Some (ROk (_, (_, (_, Some e)))) => Some (RErr e)
  | Some (RErr e) => Some (RErr e)
  | None => None
  end.

Definition collect_value_vec (value : text) (s : list text * N * option SpliceError) : list text * N * option SpliceError :=
  let '(out, source_bytes, collect_error) := s in
  match collect_error with
  | Some _ => s
  | None =>
      let next_bytes := source_bytes + byte_len value in
      if (MAX_JSON_SCAN_VALUES <=? length out)%nat || (MAX_JSON_SCAN_TEXT_BYTES <? next_bytes)
      then (out, source_bytes, Some unevaluable)
      else (out ++ [value], next_bytes, None)
  end.

Definition collect_string_values_where_vec (input : bytes) (a : A) : option (result (list text) SpliceError) :=
  match rewrite_string_values asking (keeping collect_value_vec) decode_str encode_str input (a, ([], 0, None)) with
  | Some (ROk (_, (_, (out, _, None)))) => Some (ROk out)
  | Some (ROk (_, (_, (_, _, Some e)))) => Some (RErr e)
  | Some (RErr e) => Some (RErr e)
  | None => None
  end.
End collect.

Definition collect_string_values (decode_str : bytes -> option text) (encode_str : text -> bytes) (input : bytes)
  : option (result text SpliceError) :=
  collect_string_values_where (fun _ a => (true, a)) decode_str encode_str input tt.

(** ** What the closures see

    The grammar of the documents, over the pieces a document is cut into: what is
    kept, and the string tokens replaced.  [d] is the nesting left. *)

Inductive piece := Kept (b : bytes) | Replaced (token new : bytes).
Definition old_of (x : piece) : bytes := match x with Kept b => b | Replaced token _ => token end.
Definition new_of (x : piece) : bytes := match x with Kept b => b | Replaced _ new => new end.
Definition olds (v : list piece) : bytes := v ≫= old_of.
Definition news (v : list piece) : bytes := v ≫= new_of.
Definition is_replaced (x : piece) : bool := match x with Kept _ => false | Replaced _ _ => true end.
Definition changed (v : list piece) : bool := existsb is_replaced v.

Definition all_ws (w : bytes) : Prop := forall b, b ∈ w -> is_ws b = true.

(** The characters of a string token between its quotes. *)
Inductive string_body : bytes -> Prop :=
  | sb_nil : string_body []
  | sb_plain b l : b <> 92 -> b <> 34 -> 32 <= b -> string_body l -> string_body (b :: l)
  | sb_escape e l : is_escape e = true -> string_body l -> string_body (92 :: e :: l)
  | sb_unicode h1 h2 h3 h4 l :
      is_hex h1 = true -> is_hex h2 = true -> is_hex h3 = true -> is_hex h4 = true ->
      string_body l -> string_body (92 :: 117 :: h1 :: h2 :: h3 :: h4 :: l).
Definition string_token (token : bytes) : Prop := exists body, string_body body /\ token = 34 :: body ++ [34].

Section grammar.
Context {S : Type}.
Context (should_rewrite : list PathSeg -> S -> bool * S).
Context (rewrite : text -> S -> option text * S).
Context (decode_str : bytes -> option text) (encode_str : text -> bytes).

Inductive jvalue : nat -> list PathSeg -> list piece -> S -> S -> Prop :=
  | jv_unselected d p token s s' :
      string_token token -> should_rewrite p s = (false, s') -> jvalue d p [Kept token] s s'
  | jv_unchanged d p token t s s1 s' :
      string_token token -> should_rewrite p s = (true, s1) -> decode_str token = Some t ->
      rewrite t s1 = (None, s') -> jvalue d p [Kept token] s s'
  | jv_replaced d p token t new s s1 s' :
      string_token token -> should_rewrite p s = (true, s1) -> decode_str token = Some t ->
      rewrite t s1 = (Some new, s') -> jvalue d p [Replaced token (encode_str new)] s s'
  | jv_atom d p token s : is_atom token = true -> jvalue d p [Kept token] s s
  | jv_no_members d p w s : all_ws w -> jvalue (Datatypes.S d) p [Kept (123 :: w ++ [125])] s s
  | jv_object d p w ms s s' :
      all_ws w -> jmembers d p ms s s' -> jvalue (Datatypes.S d) p (Kept (123 :: w) :: ms ++ [Kept [125]]) s s'
  | jv_no_elements d p w s : all_ws w -> jvalue (Datatypes.S d) p [Kept (91 :: w ++ [93])] s s
  | jv_array d p w es s s' :
      all_ws w -> jelements d p 0 es s s' -> jvalue (Datatypes.S d) p (Kept (91 :: w) :: es ++ [Kept [93]]) s s'
with jmembers : nat -> list PathSeg -> list piece -> S -> S -> Prop :=
  | jm_last d p token k w1 w2 v w3 s s' :
      string_token token -> decode_str token = Some k -> all_ws w1 -> all_ws w2 -> all_ws w3 ->
      jvalue d (p ++ [Key k]) v s s' ->
      jmembers d p (Kept (token ++ w1 ++ [58]) :: Kept w2 :: v ++ [Kept w3]) s s'
  | jm_more d p token k w1 w2 v w3 w4 ms s s1 s' :
      string_token token -> decode_str token = Some k -> all_ws w1 -> all_ws w2 -> all_ws w3 -> all_ws w4 ->
      jvalue d (p ++ [Key k]) v s s1 -> jmembers d p ms s1 s' ->
      jmembers d p ((Kept (token ++ w1 ++ [58]) :: Kept w2 :: v ++ [Kept (w3 ++ 44 :: w4)]) ++ ms) s s'
with jelements : nat -> list PathSeg -> N -> list piece -> S -> S -> Prop :=
  | je_last d p i w1 v w2 s s' :
      all_ws w1 -> all_ws w2 -> jvalue d (p ++ [Index i]) v s s' -> jelements d p i (Kept w1 :: v ++ [Kept w2]) s s'
  | je_more d p i w1 v w2 es s s1 s' :
      all_ws w1 -> all_ws w2 -> jvalue d (p ++ [Index i]) v s s1 -> jelements d p (i + 1) es s1 s' ->
      jelements d p i ((Kept w1 :: v ++ [Kept (w2 ++ [44])]) ++ es) s s'.
End grammar.

Scheme jvalue_mind := Minimality for jvalue Sort Prop
  with jmembers_mind := Minimality for jmembers Sort Prop
  with jelements_mind := Minimality for jelements Sort Prop.
Combined Scheme json_mind from jvalue_mind, jmembers_mind, jelements_mind.

(** ** Tokens *)

Lemma skip_ws_split l : exists w, l = w ++ skip_ws l /\ all_ws w.
Proof.
  unfold skip_ws. induction l as [|b l (w & Hl & Hw)]; simpl; [by exists []; split; [|intros ? ?%elem_of_nil]|].
  destruct (is_ws b) eqn:E.
  - exists (b :: w). split; [simpl; by f_equal|]. intros x [->|Hx]%elem_of_cons; [done|by apply Hw].
  - exists []. split; [done|]. by intros ? ?%elem_of_nil.
Qed.

Lemma skip_ws_app w l : all_ws w -> skip_ws (w ++ l) = skip_ws l.
Proof.
  unfold skip_ws. induction w as [|b w IH]; intros Hw; [done|]. simpl. rewrite Hw by (by left). apply IH.
  intros x Hx. apply Hw. by right.
Qed.

Lemma skip_ws_stop b l : is_ws b = false -> skip_ws (b :: l) = b :: l.
Proof. unfold skip_ws. simpl. by intros ->. Qed.

Lemma skip_ws_nil w : all_ws w -> skip_ws w = [].
Proof. intros Hw. by rewrite <- (app_nil_r w), skip_ws_app. Qed.

Lemma all_ws_app w w' : all_ws w -> all_ws w' -> all_ws (w ++ w').
Proof. intros H H' x [Hx|Hx]%elem_of_app; auto. Qed.

Lemma scan_body_complete start body k : forall i,
  string_body body -> scan_body start (body ++ 34 :: k) i = ROk (i + length body + 1)%nat.
Proof.
  intros i H. revert i. induction H as [|b l H1 H2 H3 Hl IH|e l He Hl IH|h1 h2 h3 h4 l H1 H2 H3 H4 Hl IH]; intros i; simpl.
  - f_equal. lia.
  - rewrite (proj2 (N.eqb_neq b 92)), (proj2 (N.eqb_neq b 34)), (proj2 (N.leb_gt b 31)) by (done || lia).
    rewrite IH. f_equal. lia.
  - rewrite He, IH. f_equal. lia.
  - rewrite H1, H2, H3, H4. simpl. rewrite IH. f_equal. lia.
Qed.

Lemma scan_body_sound start : forall l i stop,
  scan_body start l i = ROk stop ->
  exists body k, string_body body /\ l = body ++ 34 :: k /\ stop = (i + length body + 1)%nat.
Proof.
  intros l. remember (length l) as n eqn:Hn. revert l Hn. induction n as [n IH] using lt_wf_ind. intros l Hn i stop.
  destruct l as [|b l]; [done|]. cbn [scan_body]. destruct (N.eqb_spec b 92) as [->|H92].
  - destruct l as [|e l]; [done|]. destruct (is_escape e) eqn:He.
    + intros H. destruct (IH (length l) ltac:(simpl in *; lia) l eq_refl _ _ H) as (body & k & Hb & -> & ->).
      exists (92 :: e :: body), k. split; [by apply sb_escape|]. split; [done|]. simpl. lia.
    + destruct (N.eqb_spec e 117) as [->|]; [|done]. destruct l as [|h1 [|h2 [|h3 [|h4 l]]]]; try done.
      destruct (is_hex h1 && is_hex h2 && is_hex h3 && is_hex h4) eqn:Hh; [|done]. rewrite !andb_true_iff in Hh.
      intros H. destruct (IH (length l) ltac:(simpl in *; lia) l eq_refl _ _ H) as (body & k & Hb & -> & ->).
      exists (92 :: 117 :: h1 :: h2 :: h3 :: h4 :: body), k. split; [by apply sb_unicode; tauto|]. split; [done|]. simpl. lia.
  - destruct (N.eqb_spec b 34) as [->|H34].
    + intros [= <-]. exists [], l. split; [constructor|]. split; [done|]. simpl. lia.
    + destruct (N.leb_spec b 31); [done|]. intros H'.
      destruct (IH (length l) ltac:(simpl in *; lia) l eq_refl _ _ H') as (body & k & Hb & -> & ->).
      exists (b :: body), k. split; [apply sb_plain; (done || lia)|]. split; [done|]. simpl. lia.
Qed.

Lemma scan_string_complete input token k :
  string_token token -> scan_string input (token ++ k) = ROk (token, k).
Proof.
  intros (body & Hb & ->). unfold scan_string. simpl. rewrite <- app_assoc. simpl.
  rewrite (scan_body_complete _ body k) by done.
  replace (pos_of _ _ + 1 + length body + 1 - pos_of _ _)%nat with (length (34 :: body ++ [34]))
    by (simpl; rewrite length_app; simpl; lia).
  change (34 :: body ++ 34 :: k) with ((34 :: body) ++ 34 :: k).
  replace ((34 :: body) ++ 34 :: k) with ((34 :: body ++ [34]) ++ k) by (simpl; by rewrite <- app_assoc).
  by rewrite take_app_length, drop_app_length.
Qed.

Lemma scan_string_sound input l token k :
  scan_string input (34 :: l) = ROk (token, k) -> string_token token /\ 34 :: l = token ++ k.
Proof.
  unfold scan_string. simpl tail. destruct (scan_body _ _ _) as [stop|] eqn:E; [|done].
  destruct (scan_body_sound _ _ _ _ E) as (body & k' & Hb & -> & ->).
  replace (pos_of _ _ + 1 + length body + 1 - pos_of _ _)%nat with (length (34 :: body ++ [34]))
    by (simpl; rewrite length_app; simpl; lia).
  replace (34 :: body ++ 34 :: k') with ((34 :: body ++ [34]) ++ k') by (simpl; by rewrite <- app_assoc).
  rewrite take_app_length, drop_app_length. intros [= <- <-]. split; [by exists body|done].
Qed.

(** ** Numbers *)

Definition all_digits (l : bytes) : Prop := forall b, b ∈ l -> digit_byte b = true.

(** The numbers of JSON: an optional sign, digits without a leading zero, an
    optional fraction and an optional exponent. *)
Inductive json_number : bytes -> Prop :=
  | number_intro sign int fraction exponent :
      (sign = [] \/ sign = [45]) ->
      (int = [48] \/ exists b ds, int = b :: ds /\ between 49 57 b = true /\ all_digits ds) ->
      (fraction = [] \/ exists ds, fraction = 46 :: ds /\ ds <> [] /\ all_digits ds) ->
      (exponent = [] \/ exists e s ds, exponent = e :: s ++ ds /\ (e = 101 \/ e = 69) /\
         (s = [] \/ s = [43] \/ s = [45]) /\ ds <> [] /\ all_digits ds) ->
      json_number (sign ++ int ++ fraction ++ exponent).

Lemma skip_digits_app ds l :
  all_digits ds -> (forall b l', l = b :: l' -> digit_byte b = false) -> skip_while digit_byte (ds ++ l) = l.
Proof.
  intros Hd Hl. induction ds as [|d ds IH]; simpl.
  - destruct l as [|b l]; [done|]. simpl. by rewrite (Hl b l).
  - rewrite Hd by (by left). apply IH. intros b Hb. apply Hd. by right.
Qed.

Lemma skip_digits_split l : exists ds, l = ds ++ skip_while digit_byte l /\ all_digits ds.
Proof.
  induction l as [|b l (ds & Hl & Hd)]; [exists []; split; [done|by intros ? ?%elem_of_nil]|]. simpl. destruct (digit_byte b) eqn:E.
  - exists (b :: ds). split; [simpl; by f_equal|]. intros x [->|Hx]%elem_of_cons; [done|by apply Hd].
  - exists []. split; [done|by intros ? ?%elem_of_nil].
Qed.

Lemma skip_digits1_split l l' :
  skip_digits1 l = Some l' -> exists ds, l = ds ++ l' /\ ds <> [] /\ all_digits ds.
Proof.
  unfold skip_digits1. destruct l as [|b l]; [done|]. destruct (digit_byte b) eqn:E; [|done]. intros [= <-].
  destruct (skip_digits_split l) as (ds & Hl & Hd). simpl. rewrite E. exists (b :: ds). split; [simpl; by f_equal|]. split; [done|].
  intros x [->|Hx]%elem_of_cons; [done|by apply Hd].
Qed.

Lemma skip_digits1_app ds l :
  ds <> [] -> all_digits ds -> (forall b l', l = b :: l' -> digit_byte b = false) -> skip_digits1 (ds ++ l) = Some l.
Proof.
  intros Hn Hd Hl. destruct ds as [|d ds]; [done|]. unfold skip_digits1. cbn [app].
  rewrite Hd by (by left). f_equal. apply (skip_digits_app (d :: ds) l Hd Hl).
Qed.

Definition ends_number (l : bytes) : Prop := forall b l', l = b :: l' -> digit_byte b = false.

Lemma digits_token ds : all_digits ds -> forall b, b ∈ ds -> is_token b = true.
Proof. intros Hd b Hb. specialize (Hd b Hb). unfold is_token. rewrite Hd. by rewrite !orb_true_r. Qed.

Definition sign_part (l : bytes) : Prop := l = [] \/ l = [45].
Definition int_part (l : bytes) : Prop :=
  l = [48] \/ exists b ds, l = b :: ds /\ between 49 57 b = true /\ all_digits ds.
Definition fraction_part (l : bytes) : Prop := l = [] \/ exists ds, l = 46 :: ds /\ ds <> [] /\ all_digits ds.
Definition exponent_part (l : bytes) : Prop :=
  l = [] \/ exists e s ds, l = e :: s ++ ds /\ (e = 101 \/ e = 69) /\
    (s = [] \/ s = [43] \/ s = [45]) /\ ds <> [] /\ all_digits ds.

Lemma skip_sign_split l : exists sign, l = sign ++ skip_sign l /\ sign_part sign.
Proof.
  unfold skip_sign, sign_part. destruct l as [|b l]; [by exists []; auto|].
  destruct (N.eqb_spec b 45) as [->|]; [exists [45]|exists []]; auto.
Qed.

Lemma scan_int_split l l' : scan_int l = Some l' -> exists int, l = int ++ l' /\ int_part int.
Proof.
  unfold scan_int, int_part. destruct l as [|b l]; [done|].
  destruct (N.eqb_spec b 48) as [->|]; [intros [= <-]; by exists [48]; auto|].
  destruct (between 49 57 b) eqn:Eb; [|done]. intros [= <-]. destruct (skip_digits_split l) as (ds & Hl & Hd).
  exists (b :: ds). split; [simpl; by f_equal|]. right. by exists b, ds.
Qed.

Lemma scan_fraction_split l l' : scan_fraction l = Some l' -> exists fraction, l = fraction ++ l' /\ fraction_part fraction.
Proof.
  unfold scan_fraction, fraction_part. destruct l as [|b l]; [intros [= <-]; by exists []; auto|].
  destruct (N.eqb_spec b 46) as [->|]; [|intros [= <-]; by exists []; auto].
  intros (ds & -> & Hn & Hd)%skip_digits1_split. exists (46 :: ds). split; [done|]. right. by exists ds.
Qed.

Lemma scan_exponent_split l : scan_exponent l = Some [] -> exponent_part l.
Proof.
  unfold scan_exponent, exponent_part. destruct l as [|e l]; [by left|].
  destruct ((e =? 101) || (e =? 69)) eqn:Eb; [|done]. rewrite orb_true_iff, !N.eqb_eq in Eb.
  intros (ds & Hds & Hn & Hd)%skip_digits1_split. rewrite app_nil_r in Hds. right.
  destruct l as [|c l]; [by subst|]. destruct ((c =? 43) || (c =? 45)) eqn:Es.
  - rewrite orb_true_iff, !N.eqb_eq in Es. exists e, [c], ds. subst l. split_and!; try done. destruct Es as [-> | ->]; auto.
  - exists e, [], ds. subst ds. split_and!; try done. by left.
Qed.

Lemma skip_sign_app sign l : sign_part sign -> (forall b l', l = b :: l' -> b <> 45) -> skip_sign (sign ++ l) = l.
Proof.
  intros [-> | ->] Hl; [|done]. unfold skip_sign. simpl. destruct l as [|b l]; [done|].
  destruct (N.eqb_spec b 45) as [->|]; [|done]. by destruct (Hl 45 l eq_refl).
Qed.

Lemma scan_int_app int l : int_part int -> ends_number l -> scan_int (int ++ l) = Some l.
Proof.
  intros [->|(b & ds & -> & Hb & Hd)] Hl; [done|]. unfold scan_int. simpl. rewrite Hb.
  destruct (N.eqb_spec b 48) as [->|]; [done|]. f_equal. by apply skip_digits_app.
Qed.

Lemma scan_fraction_app fraction l :
  fraction_part fraction -> ends_number l -> (forall b l', l = b :: l' -> b <> 46) ->
  scan_fraction (fraction ++ l) = Some l.
Proof.
  intros [->|(ds & -> & Hn & Hd)] Hl H46; unfold scan_fraction; simpl; [|by apply skip_digits1_app].
  destruct l as [|b l]; [done|]. destruct (N.eqb_spec b 46) as [->|]; [|done]. by destruct (H46 46 l eq_refl).
Qed.

Lemma scan_exponent_all l : exponent_part l -> scan_exponent l = Some [].
Proof.
  intros [->|(e & s & ds & -> & Hb & Hs & Hn & Hd)]; [done|]. unfold scan_exponent.
  assert ((e =? 101) || (e =? 69) = true) as -> by (rewrite orb_true_iff, !N.eqb_eq; done).
  assert (skip_digits1 ds = Some []) as Hsk by (rewrite <- (app_nil_r ds); by apply skip_digits1_app).
  destruct Hs as [->|[-> | ->]]; simpl; [|by rewrite Hsk..].
  destruct ds as [|d ds]; [done|]. assert (digit_byte d = true) as Hdd by (apply Hd; by left).
  destruct ((d =? 43) || (d =? 45)) eqn:Ed; [|by rewrite Hsk].
  exfalso. rewrite orb_true_iff, !N.eqb_eq in Ed. destruct Ed as [-> | ->]; by vm_compute in Hdd.
Qed.

(** The scan of a token is the grammar of numbers. *)
Lemma is_json_number_spec token : is_json_number token = true <-> json_number token.
Proof.
  unfold is_json_number. split.
  - destruct (skip_sign_split token) as (sign & Htok & Hs). revert Htok. generalize (skip_sign token). intros l ->.
    destruct (scan_int l) as [l1|] eqn:E1; [|done]. cbn [mbind option_bind].
    destruct (scan_fraction l1) as [l2|] eqn:E2; [|done]. cbn [mbind option_bind].
    destruct (scan_exponent l2) as [[|]|] eqn:E3; try done. intros _.
    apply scan_int_split in E1 as (int & -> & Hi). apply scan_fraction_split in E2 as (fr & -> & Hf).
    apply scan_exponent_split in E3. by apply number_intro.
  - intros [sign int fraction exponent Hs Hi Hf He].
    assert (forall b l', exponent = b :: l' -> digit_byte b = false /\ b <> 46) as Hx.
    { intros b l' ->. destruct He as [?|(e & s & ds & [= -> ->] & He & _)]; [done|]. destruct He as [-> | ->]; by vm_compute. }
    assert (ends_number exponent) as Hend by (intros b l' Hb; by destruct (Hx b l' Hb)).
    rewrite skip_sign_app, scan_int_app; [|done| |done|].
    + cbn [mbind option_bind]. rewrite scan_fraction_app; [|done|done|intros b l' Hb; by destruct (Hx b l' Hb)].
      cbn [mbind option_bind]. by rewrite scan_exponent_all.
    + destruct Hf as [->|(ds & -> & _)]; [done|]. by intros b l' [= <- _].
    + intros b l' Hb ->. destruct Hi as [->|(b0 & ds & -> & Hb0 & _)]; [done|]. injection Hb as ->. by vm_compute in Hb0.
Qed.

Lemma starts_token_spec b :
  starts_token b = true ->
  is_ws b = false /\ (b =? 123) = false /\ (b =? 91) = false /\ (b =? 34) = false /\ (b =? 93) = false /\ is_token b = true.
Proof. unfold starts_token, is_ws, is_token, digit_byte, between. lia. Qed.

Lemma json_number_token t : json_number t -> forall b, b ∈ t -> is_token b = true.
Proof.
  intros [sign int fraction exponent Hs Hi Hf He] b. rewrite !elem_of_app. intros [Hb|[Hb|[Hb|Hb]]].
  - destruct Hs as [-> | ->]; set_unfold; [done|]. destruct Hb as [->|[]]. done.
  - destruct Hi as [->|(c & ds & -> & Hc & Hd)]; set_unfold; [destruct Hb as [->|[]]; done|].
    destruct Hb as [->|Hb]; [unfold is_token, digit_byte, between in *; lia|by apply (digits_token ds)].
  - destruct Hf as [->|(ds & -> & _ & Hd)]; set_unfold; [done|]. destruct Hb as [->|Hb]; [done|by apply (digits_token ds)].
  - destruct He as [->|(e & s & ds & -> & He & Hs' & _ & Hd)]; set_unfold; [done|].
    destruct Hb as [->|[Hb|Hb]]; [by destruct He as [-> | ->]| |by apply (digits_token ds)].
    destruct Hs' as [->|[-> | ->]]; set_unfold; [done|destruct Hb as [->|[]]; done..].
Qed.

Lemma json_number_head t : json_number t -> exists b l, t = b :: l /\ starts_token b = true.
Proof.
  intros [sign int fraction exponent Hs Hi Hf He]. destruct Hs as [-> | ->]; [|by eexists 45, _].
  destruct Hi as [->|(c & ds & -> & Hc & Hd)]; [by eexists 48, _|]. exists c, (ds ++ fraction ++ exponent). split; [done|].
  unfold starts_token, digit_byte, between in *. lia.
Qed.

Lemma is_atom_spec t :
  is_atom t = true -> (forall b, b ∈ t -> is_token b = true) /\ exists b l, t = b :: l /\ starts_token b = true.
Proof.
  unfold is_atom. rewrite !orb_true_iff, !bool_decide_eq_true, is_json_number_spec.
  intros [[[->| ->]| ->]|Hn]; [| | |split; [by apply json_number_token|by apply json_number_head]];
    (split; [|by eexists _, _]); intros b Hb; vm_compute in Hb;
    repeat (apply elem_of_cons in Hb as [->|Hb]; [by vm_compute|]); by apply elem_of_nil in Hb.
Qed.

Lemma take_while_app (p : N -> bool) t k :
  (forall b, b ∈ t -> p b = true) -> (forall b l, k = b :: l -> p b = false) ->
  take_while p (t ++ k) = t /\ skip_while p (t ++ k) = k.
Proof.
  intros Ht Hk. induction t as [|b t IH]; simpl.
  - destruct k as [|b k]; [done|]. simpl. by rewrite (Hk b k).
  - rewrite Ht by (by left). destruct IH as [-> ->]; [|done]. intros x Hx. apply Ht. by right.
Qed.

Lemma take_skip_while (p : N -> bool) l : l = take_while p l ++ skip_while p l.
Proof. induction l as [|b l IH]; simpl; [done|]. destruct (p b); [simpl; by f_equal|done]. Qed.

(** ** Pieces *)

Lemma olds_app a b : olds (a ++ b) = olds a ++ olds b.
Proof. apply bind_app. Qed.
Lemma news_app a b : news (a ++ b) = news a ++ news b.
Proof. apply bind_app. Qed.
Lemma olds_cons x v : olds (x :: v) = old_of x ++ olds v.
Proof. done. Qed.
Lemma news_cons x v : news (x :: v) = new_of x ++ news v.
Proof. done. Qed.

Section splices.
Context (input : bytes).

(** The splices of the pieces, with [after] bytes left behind them. *)
Fixpoint splices_of (after : nat) (v : list piece) : list (nat * nat * bytes) :=
  match v with
  | [] => []
  | Kept _ :: v => splices_of after v
  | Replaced token new :: v =>
      ((length input - (length token + length (olds v) + after))%nat, (length input - (length (olds v) + after))%nat, new)
        :: splices_of after v
  end.

Lemma splices_of_app after a b :
  splices_of after (a ++ b) = splices_of (length (olds b) + after) a ++ splices_of after b.
Proof.
  induction a as [|[k|t n] a IH]; simpl; [done|apply IH|]. rewrite IH, olds_app, length_app.
  simpl. by rewrite !Nat.add_assoc.
Qed.

Lemma splices_of_nil after v : splices_of after v = [] <-> changed v = false.
Proof. unfold changed. induction v as [|[k|t n] v IH]; simpl; done. Qed.

(** Applying the splices of the pieces replaces each. *)
Lemma apply_splices_of v : forall q c,
  input = q ++ olds v -> (c <= length q)%nat -> apply_splices input (splices_of 0 v) c = drop c q ++ news v.
Proof.
  induction v as [|[k|t n] v IH]; intros q c Hi Hc; cbn [splices_of apply_splices].
  - unfold news, olds in *. simpl in *. rewrite app_nil_r in *. by subst.
  - rewrite (IH (q ++ k)); [|by rewrite Hi, olds_cons, app_assoc|rewrite length_app; lia].
    rewrite news_cons. simpl. by rewrite drop_app_le, <- app_assoc by lia.
  - rewrite (IH (q ++ t) _); [|by rewrite Hi, olds_cons, app_assoc|].
    2: { rewrite Hi, olds_cons, !length_app. simpl. lia. }
    rewrite news_cons. simpl. f_equal.
    + assert (length input - (length t + length (olds v) + 0) = length q)%nat as ->
        by (rewrite Hi, olds_cons, !length_app; simpl; lia).
      rewrite Hi, drop_app_le by lia. rewrite take_app_le by (rewrite length_drop; lia).
      by rewrite take_ge by (rewrite length_drop; lia).
    + f_equal. rewrite drop_ge; [done|]. rewrite Hi, olds_cons, !length_app. simpl. lia.
Qed.
End splices.

(** ** A document is accepted *)

Lemma string_token_head token : string_token token -> exists t, token = 34 :: t.
Proof. intros (body & _ & ->). by eexists. Qed.

Lemma skip_ws_idem l : skip_ws (skip_ws l) = skip_ws l.
Proof.
  unfold skip_ws. induction l as [|b l IH]; [done|]. simpl. destruct (is_ws b) eqn:E; [done|]. simpl. by rewrite E.
Qed.

Section accept.
Context {S : Type}.
Context (should_rewrite : list PathSeg -> S -> bool * S).
Context (rewrite : text -> S -> option text * S).
Context (decode_str : bytes -> option text) (encode_str : text -> bytes).
Context (input : bytes).

Abbreviation at_value := (value_step should_rewrite rewrite decode_str encode_str input).
Abbreviation after_value := (after_step decode_str input).
Abbreviation value_of := (jvalue should_rewrite rewrite decode_str encode_str).
Abbreviation members_of := (jmembers should_rewrite rewrite decode_str encode_str).
Abbreviation elements_of := (jelements should_rewrite rewrite decode_str encode_str).

Definition step (c c' : bool * Scan (S := S)) : Prop :=
  (if c.1 then at_value c.2 else after_value c.2) = if c'.1 then ToValue c'.2 else ToAfter c'.2.
Abbreviation reaches := (rtc step).

Definition stops (k : bytes) : Prop := forall b l, k = b :: l -> is_token b = false.

Lemma stops_ws w k : all_ws w -> stops k -> stops (w ++ k).
Proof.
  intros Hw Hk b l. destruct w as [|c w]; [apply Hk|]. intros [= -> _]. specialize (Hw b ltac:(by left)).
  unfold is_ws, is_token, digit_byte, between in *. lia.
Qed.

Lemma value_head d p v s s' : value_of d p v s s' -> exists b t, olds v = b :: t /\ is_ws b = false /\ (b =? 93) = false.
Proof.
  destruct 1 as [? ? token ? ? Ht|? ? token ? ? ? ? Ht|? ? token ? ? ? ? ? Ht|? ? token ? Ha| | | |];
    rewrite ?olds_cons; simpl;
    try (destruct (string_token_head _ Ht) as [tl ->]; by eexists 34, _);
    try by eexists _, _.
  destruct (is_atom_spec _ Ha) as [_ (b & t & -> & Hb)]. apply starts_token_spec in Hb as (? & ? & ? & ? & ? & ?).
  by eexists b, _.
Qed.

Lemma scan_key_complete token k0 w1 l :
  string_token token -> decode_str token = Some k0 -> all_ws w1 ->
  scan_key decode_str input (token ++ w1 ++ 58 :: l) = ROk (k0, l).
Proof.
  intros Ht Hd Hw. unfold scan_key. rewrite scan_string_complete by done. unfold decode_at. rewrite Hd.
  by rewrite skip_ws_app by done.
Qed.

Lemma string_step token l k fs p spl s :
  string_token token -> skip_ws l = token ++ k ->
  at_value (mkScan l fs p spl s) =
    let '(wanted, st) := should_rewrite p s in
    if wanted then
      match decode_at decode_str input (token ++ k) token with
      | RErr e => Failed e
      | ROk t =>
          let '(replacement, st) := rewrite t st in
          ToAfter (mkScan k fs p
            match replacement with
            | Some new => spl ++ splices_of input (length k) [Replaced token (encode_str new)]
            | None => spl
            end st)
      end
    else ToAfter (mkScan k fs p spl st).
Proof.
  intros Ht Hl. pose proof (scan_string_complete input token k Ht) as Hs. destruct (string_token_head _ Ht) as [tl ->].
  transitivity (value_string should_rewrite rewrite decode_str encode_str input ((34 :: tl) ++ k) (mkScan l fs p spl s));
    [unfold value_step; cbn [rest]; by rewrite Hl|]. unfold value_string. rewrite Hs.
  cbn [path frames splices closure]. destruct (should_rewrite p s) as [[] st]; [|done].
  destruct (decode_at _ _ _ _) as [x|]; [|done]. destruct (rewrite x st) as [[new|] st']; [|done].
  unfold pos_of. simpl. rewrite length_app, Nat.add_0_r. done.
Qed.

Definition accepts_value (d : nat) (p : list PathSeg) (v : list piece) (s s' : S) : Prop :=
  forall l k fs spl, skip_ws l = olds v ++ k -> stops k -> (length fs + d = MAX_JSON_DEPTH)%nat ->
    reaches (true, mkScan l fs p spl s) (false, mkScan k fs p (spl ++ splices_of input (length k) v) s').

Definition accepts_members (d : nat) (p : list PathSeg) (ms : list piece) (s s' : S) : Prop :=
  forall k fs spl, (length (FObject :: fs) + d = MAX_JSON_DEPTH)%nat ->
    exists t k0 l, olds ms ++ 125 :: k = 34 :: t /\
      scan_key decode_str input (olds ms ++ 125 :: k) = ROk (k0, l) /\
      exists k1 w, all_ws w /\
        reaches (true, mkScan l (FObject :: fs) (p ++ [Key k0]) spl s)
          (false, mkScan (w ++ 125 :: k) (FObject :: fs) (p ++ [Key k1])
             (spl ++ splices_of input (length (125 :: k)) ms) s').

Definition accepts_elements (d : nat) (p : list PathSeg) (i : N) (es : list piece) (s s' : S) : Prop :=
  forall l k fs spl, skip_ws l = skip_ws (olds es ++ 93 :: k) -> (length (FArray :: fs) + d = MAX_JSON_DEPTH)%nat ->
    exists j w, all_ws w /\
      reaches (true, mkScan l (FArray :: fs) (p ++ [Index i]) spl s)
        (false, mkScan (w ++ 93 :: k) (FArray :: fs) (p ++ [Index j])
           (spl ++ splices_of input (length (93 :: k)) es) s').

Lemma accepts_member d p token k w1 w2 v s s' :
  string_token token -> decode_str token = Some k -> all_ws w1 -> all_ws w2 ->
  value_of d (p ++ [Key k]) v s s' -> accepts_value d (p ++ [Key k]) v s s' ->
  forall l fs spl, stops l -> (length (FObject :: fs) + d = MAX_JSON_DEPTH)%nat ->
    scan_key decode_str input (olds (Kept (token ++ w1 ++ [58]) :: Kept w2 :: v) ++ l) = ROk (k, w2 ++ olds v ++ l) /\
    reaches (true, mkScan (w2 ++ olds v ++ l) (FObject :: fs) (p ++ [Key k]) spl s)
      (false, mkScan l (FObject :: fs) (p ++ [Key k]) (spl ++ splices_of input (length l) v) s').
Proof.
  intros Ht Hk Hw1 Hw2 Hv Hacc l fs spl Hl Hd. split.
  - rewrite !olds_cons. cbn [old_of]. rewrite <- !app_assoc. cbn [app]. rewrite <- ?app_assoc. by apply scan_key_complete.
  - apply Hacc; [|done|done]. destruct (value_head _ _ _ _ _ Hv) as (b & t & Hb & Hws & _). rewrite Hb.
    rewrite skip_ws_app by done. by apply skip_ws_stop.
Qed.

Lemma after_ws w l fs p spl (s : S) :
  all_ws w -> after_value (mkScan (w ++ l) fs p spl s) = after_value (mkScan l fs p spl s).
Proof. intros Hw. unfold after_step. cbn [rest frames path splices closure]. rewrite skip_ws_app by done. done. Qed.

Lemma stops_punct b l : is_token b = false -> stops (b :: l).
Proof. by intros Hb ? ? [= <- _]. Qed.

Lemma accepts_object d p w ms s s' :
  all_ws w -> accepts_members d p ms s s' -> accepts_value (Datatypes.S d) p (Kept (123 :: w) :: ms ++ [Kept [125]]) s s'.
Proof.
  intros Hw Hms l k fs spl Hl Hk Hd.
  destruct (Hms k fs spl ltac:(simpl in *; lia)) as (t & k0 & l4 & Ht & Hkey & k1 & w3 & Hw3 & Hr).
  rewrite olds_cons, olds_app in Hl. cbn [old_of app] in Hl. rewrite <- !app_assoc in Hl. cbn [olds mbind list_bind old_of app] in Hl.
  assert (skip_ws (w ++ olds ms ++ 125 :: k) = 34 :: t) as Hs by (rewrite skip_ws_app, Ht by done; done).
  eapply rtc_l with (true, mkScan l4 (FObject :: fs) (p ++ [Key k0]) spl s).
  { unfold step. cbn [fst snd]. unfold value_step. cbn [rest frames path splices closure]. rewrite Hl.
    change (123 =? 123) with true. cbn iota. rewrite (proj2 (Nat.ltb_ge _ _)) by (simpl in *; lia).
    change (skip_ws (w ++ olds ms ++ [125] ++ k)) with (skip_ws (w ++ olds ms ++ 125 :: k)). rewrite Hs.
    change (34 =? 125) with false. change (34 =? 34) with true. cbn iota. by rewrite <- Ht, Hkey. }
  etrans; [exact Hr|]. apply rtc_once. unfold step. cbn [fst snd]. rewrite after_ws by done.
  unfold after_step. cbn [rest frames path splices closure]. change (skip_ws (125 :: k)) with (125 :: k).
  change (125 =? 44) with false. change (125 =? 125) with true. cbn iota. rewrite removelast_last.
  cbn [splices_of]. by rewrite splices_of_app, app_nil_r.
Qed.

Lemma accepts_array d p w es s s' :
  all_ws w -> elements_of d p 0 es s s' -> accepts_elements d p 0 es s s' ->
  accepts_value (Datatypes.S d) p (Kept (91 :: w) :: es ++ [Kept [93]]) s s'.
Proof.
  intros Hw He Hes l k fs spl Hl Hk Hd.
  rewrite olds_cons, olds_app in Hl. cbn [old_of app] in Hl. rewrite <- !app_assoc in Hl. cbn [olds mbind list_bind old_of app] in Hl.
  assert (exists b t, skip_ws (w ++ olds es ++ 93 :: k) = b :: t /\ (b =? 93) = false) as (b & t & Hs & Hb).
  { rewrite skip_ws_app by done. inversion He as [? ? ? w1 v w2 ? ? Hw1 _ Hv|? ? ? w1 v w2 es' ? ? ? Hw1 _ Hv]; subst;
      destruct (value_head _ _ _ _ _ Hv) as (b & t & Hv0 & Hws & H93);
      rewrite ?olds_app, olds_cons, olds_app, Hv0; cbn [old_of]; rewrite <- !app_assoc, skip_ws_app by done;
      cbn [app]; rewrite skip_ws_stop by done; by eexists b, _. }
  destruct (Hes (b :: t) k fs spl) as (j & w2 & Hw2 & Hr).
  { by rewrite <- Hs, skip_ws_idem, skip_ws_app by done. } { simpl in *; lia. }
  eapply rtc_l with (true, mkScan (b :: t) (FArray :: fs) (p ++ [Index 0]) spl s).
  { unfold step. cbn [fst snd]. unfold value_step. cbn [rest frames path splices closure]. rewrite Hl.
    change (91 =? 123) with false. change (91 =? 91) with true. cbn iota. rewrite (proj2 (Nat.ltb_ge _ _)) by (simpl in *; lia).
    change (skip_ws (w ++ olds es ++ [93] ++ k)) with (skip_ws (w ++ olds es ++ 93 :: k)). by rewrite Hs, Hb. }
  etrans; [exact Hr|]. apply rtc_once. unfold step. cbn [fst snd]. rewrite after_ws by done.
  unfold after_step. cbn [rest frames path splices closure]. change (skip_ws (93 :: k)) with (93 :: k).
  change (93 =? 44) with false. change (93 =? 93) with true. cbn iota. rewrite removelast_last.
  cbn [splices_of]. by rewrite splices_of_app, app_nil_r.
Qed.

Lemma accepts_empty d p w s (o c : N) :
  all_ws w -> (o = 123 /\ c = 125) \/ (o = 91 /\ c = 93) ->
  accepts_value (Datatypes.S d) p [Kept (o :: w ++ [c])] s s.
Proof.
  intros Hw Hoc l k fs spl Hl _ Hd. cbn [splices_of]. rewrite app_nil_r. apply rtc_once. unfold step. cbn [fst snd].
  unfold value_step. cbn [rest frames path splices closure]. rewrite Hl. rewrite olds_cons. cbn [old_of olds mbind list_bind].
  rewrite app_nil_r. cbn [app]. rewrite <- app_assoc.
  assert ((MAX_JSON_DEPTH <? length fs + 1)%nat = false) as Hdepth by (apply Nat.ltb_ge; lia).
  destruct Hoc as [[-> ->]|[-> ->]]; cbn [app]; rewrite skip_ws_app, skip_ws_stop by done; simpl N.eqb; cbn iota;
    (rewrite (proj2 (Nat.ltb_ge _ _)) by (simpl; lia)); done.
Qed.

Lemma accepts_string d p token v s s' :
  string_token token ->
  (forall l k fs spl, skip_ws l = token ++ k ->
     at_value (mkScan l fs p spl s) = ToAfter (mkScan k fs p (spl ++ splices_of input (length k) v) s')) ->
  olds v = token -> accepts_value d p v s s'.
Proof. intros Ht H Ho l k fs spl Hl _ _. apply rtc_once. unfold step. cbn [fst snd]. apply H. by rewrite Hl, Ho. Qed.

Lemma olds_member token w1 w2 v w3 :
  olds (Kept (token ++ w1 ++ [58]) :: Kept w2 :: v ++ [Kept w3]) = olds (Kept (token ++ w1 ++ [58]) :: Kept w2 :: v) ++ w3.
Proof.
  change (Kept (token ++ w1 ++ [58]) :: Kept w2 :: v ++ [Kept w3])
    with ((Kept (token ++ w1 ++ [58]) :: Kept w2 :: v) ++ [Kept w3]).
  rewrite olds_app. f_equal. rewrite olds_cons. cbn [old_of olds mbind list_bind]. by rewrite app_nil_r.
Qed.

Lemma member_head token x l : string_token token -> exists t, olds (Kept (token ++ x) :: l) = 34 :: t.
Proof. intros Ht. destruct (string_token_head _ Ht) as [t ->]. by eexists. Qed.

Lemma accepts_all :
  (forall d p v s s', value_of d p v s s' -> accepts_value d p v s s') /\
  (forall d p ms s s', members_of d p ms s s' -> accepts_members d p ms s s') /\
  (forall d p i es s s', elements_of d p i es s s' -> accepts_elements d p i es s s').
Proof.
  apply (json_mind S should_rewrite rewrite decode_str encode_str accepts_value accepts_members accepts_elements).
  - intros d p token s s' Ht Hsel. apply (accepts_string d p token); [done| |by rewrite olds_cons, app_nil_r].
    intros l k fs spl Hl. rewrite (string_step token l k) by done. rewrite Hsel. by rewrite app_nil_r.
  - intros d p token t s s1 s' Ht Hsel Hdec Hrw. apply (accepts_string d p token); [done| |by rewrite olds_cons, app_nil_r].
    intros l k fs spl Hl. rewrite (string_step token l k) by done. unfold decode_at. rewrite Hsel, Hdec, Hrw. by rewrite app_nil_r.
  - intros d p token t new s s1 s' Ht Hsel Hdec Hrw. apply (accepts_string d p token); [done| |by rewrite olds_cons, app_nil_r].
    intros l k fs spl Hl. rewrite (string_step token l k) by done. unfold decode_at. by rewrite Hsel, Hdec, Hrw.
  - intros d p token s Ha l k fs spl Hl Hk _. apply rtc_once. unfold step. cbn [fst snd]. unfold value_step.
    cbn [rest frames path splices closure]. rewrite Hl, olds_cons. cbn [old_of olds mbind list_bind]. rewrite app_nil_r.
    destruct (is_atom_spec _ Ha) as [Htok (b & t & Hbt & Hb)]. apply starts_token_spec in Hb as H. destruct H as (_ & H1 & H2 & H3 & _).
    destruct (take_while_app is_token token k Htok Hk) as [Htw Hsw]. rewrite Htw, Hsw, Ha. rewrite Hbt. cbn [app].
    rewrite H1, H2, H3, Hb. cbn [splices_of]. by rewrite app_nil_r.
  - intros. apply (accepts_empty _ _ _ _ 123 125); auto.
  - intros. by apply accepts_object.
  - intros. apply (accepts_empty _ _ _ _ 91 93); auto.
  - intros. by apply accepts_array.
  - intros d p token k0 w1 w2 v w3 s s' Ht Hk Hw1 Hw2 Hw3 Hv IH k fs spl Hd.
    destruct (accepts_member d p token k0 w1 w2 v s s' Ht Hk Hw1 Hw2 Hv IH (w3 ++ 125 :: k) fs spl) as [Hkey Hr];
      [by apply stops_ws, stops_punct|done|].
    rewrite olds_member, <- app_assoc. destruct (member_head token (w1 ++ [58]) (Kept w2 :: v) Ht) as [t Htl].
    exists (t ++ w3 ++ 125 :: k), k0, (w2 ++ olds v ++ w3 ++ 125 :: k). split; [by rewrite Htl|]. split; [done|].
    exists k0, w3. split; [done|]. cbn [splices_of]. rewrite splices_of_app. cbn [splices_of]. rewrite app_nil_r.
    rewrite olds_cons. cbn [old_of olds mbind list_bind]. by rewrite app_nil_r, <- length_app.
  - intros d p token k0 w1 w2 v w3 w4 ms s s1 s' Ht Hk Hw1 Hw2 Hw3 Hw4 Hv IHv Hms IHms k fs spl Hd.
    destruct (IHms k fs (spl ++ splices_of input (length (w3 ++ 44 :: w4 ++ olds ms ++ 125 :: k)) v) Hd)
      as (t' & k1 & l & Ht' & Hkey' & k2 & w & Hw & Hr').
    destruct (accepts_member d p token k0 w1 w2 v s s1 Ht Hk Hw1 Hw2 Hv IHv (w3 ++ 44 :: w4 ++ olds ms ++ 125 :: k) fs spl)
      as [Hkey Hr]; [by apply stops_ws, stops_punct|done|].
    assert (olds ((Kept (token ++ w1 ++ [58]) :: Kept w2 :: v ++ [Kept (w3 ++ 44 :: w4)]) ++ ms) ++ 125 :: k
      = olds (Kept (token ++ w1 ++ [58]) :: Kept w2 :: v) ++ w3 ++ 44 :: w4 ++ olds ms ++ 125 :: k) as ->
      by (rewrite olds_app, olds_member, <- !app_assoc; cbn [app]; by rewrite <- ?app_assoc).
    destruct (member_head token (w1 ++ [58]) (Kept w2 :: v) Ht) as [t Htl].
    exists (t ++ w3 ++ 44 :: w4 ++ olds ms ++ 125 :: k), k0, (w2 ++ olds v ++ w3 ++ 44 :: w4 ++ olds ms ++ 125 :: k).
    split; [by rewrite Htl|]. split; [done|]. exists k2, w. split; [done|].
    etrans; [exact Hr|]. eapply rtc_l with (true, mkScan l (FObject :: fs) (p ++ [Key k1])
      (spl ++ splices_of input (length (w3 ++ 44 :: w4 ++ olds ms ++ 125 :: k)) v) s1).
    { unfold step. cbn [fst snd]. rewrite after_ws by done. unfold after_step. cbn [rest frames path splices closure].
      rewrite (skip_ws_stop 44) by done. change (44 =? 44) with true. cbn iota. rewrite skip_ws_app, Ht' by done.
      rewrite skip_ws_stop by done. change (34 =? 34) with true. cbn iota. rewrite <- Ht', Hkey'. by rewrite removelast_last. }
    rewrite splices_of_app. cbn [splices_of]. rewrite splices_of_app. cbn [splices_of]. rewrite app_nil_r, (app_assoc spl).
    rewrite olds_cons. cbn [old_of olds mbind list_bind]. rewrite app_nil_r.
    replace (length (w3 ++ 44%N :: w4) + (length (olds ms) + length (125%N :: k)))%nat
      with (length (w3 ++ 44 :: w4 ++ olds ms ++ 125 :: k)); [done|].
    rewrite !length_app. simpl. rewrite !length_app. simpl. lia.
  - intros d p i w1 v w2 s s' Hw1 Hw2 Hv IH l k fs spl Hl Hd. exists i, w2. split; [done|].
    destruct (value_head _ _ _ _ _ Hv) as (b & t & Hb & Hws & _).
    cbn [splices_of]. rewrite splices_of_app. cbn [splices_of]. rewrite app_nil_r.
    rewrite olds_cons. cbn [old_of olds mbind list_bind]. rewrite app_nil_r, <- length_app.
    apply IH; [|by apply stops_ws, stops_punct|done]. rewrite Hl, olds_cons, olds_app, olds_cons. cbn [old_of olds mbind list_bind].
    rewrite app_nil_r, <- !app_assoc, skip_ws_app by done. rewrite Hb. by apply skip_ws_stop.
  - intros d p i w1 v w2 es s s1 s' Hw1 Hw2 Hv IHv Hes IHes l k fs spl Hl Hd.
    destruct (value_head _ _ _ _ _ Hv) as (b & t & Hb & Hws & _).
    destruct (IHes (olds es ++ 93 :: k) k fs (spl ++ splices_of input (length (w2 ++ 44 :: olds es ++ 93 :: k)) v) eq_refl Hd)
      as (j & w & Hw & Hr).
    exists j, w. split; [done|]. etrans.
    { apply (IHv l (w2 ++ 44 :: olds es ++ 93 :: k)); [|by apply stops_ws, stops_punct|done].
      rewrite Hl, olds_app, olds_cons, olds_app, olds_cons. cbn [old_of olds mbind list_bind].
      rewrite app_nil_r, <- !app_assoc, skip_ws_app by done. rewrite Hb. cbn [app]. rewrite <- ?app_assoc. by apply skip_ws_stop. }
    eapply rtc_l with (true, mkScan (olds es ++ 93 :: k) (FArray :: fs) (p ++ [Index (i + 1)])
      (spl ++ splices_of input (length (w2 ++ 44 :: olds es ++ 93 :: k)) v) s1).
    { unfold step. cbn [fst snd]. rewrite after_ws by done. unfold after_step. cbn [rest frames path splices closure].
      rewrite (skip_ws_stop 44) by done. change (44 =? 44) with true. cbn iota. unfold next_index.
      by rewrite last_snoc, removelast_last. }
    rewrite splices_of_app. cbn [splices_of]. rewrite splices_of_app. cbn [splices_of]. rewrite app_nil_r, (app_assoc spl).
    rewrite olds_cons. cbn [old_of olds mbind list_bind]. rewrite app_nil_r.
    replace (length (w2 ++ [44%N]) + (length (olds es) + length (93%N :: k)))%nat
      with (length (w2 ++ 44 :: olds es ++ 93 :: k)); [done|].
    rewrite !length_app. simpl. rewrite !length_app. simpl. lia.
Qed.

(** ** What is accepted is a document

    The part of the document read so far: the containers still open with what they
    hold, up to the value to read. *)

Inductive members_open (d : nat) (p : list PathSeg) : list piece -> S -> S -> Prop :=
  | mo_nil s : members_open d p [] s s
  | mo_snoc ms token k w1 w2 v w3 w4 s s1 s' :
      members_open d p ms s s1 -> string_token token -> decode_str token = Some k ->
      all_ws w1 -> all_ws w2 -> all_ws w3 -> all_ws w4 -> value_of d (p ++ [Key k]) v s1 s' ->
      members_open d p (ms ++ Kept (token ++ w1 ++ [58]) :: Kept w2 :: v ++ [Kept (w3 ++ 44 :: w4)]) s s'.

Inductive elements_open (d : nat) (p : list PathSeg) : N -> list piece -> S -> S -> Prop :=
  | eo_nil s : elements_open d p 0 [] s s
  | eo_snoc i es w1 v w2 s s1 s' :
      elements_open d p i es s s1 -> all_ws w1 -> all_ws w2 -> value_of d (p ++ [Index i]) v s1 s' ->
      elements_open d p (i + 1) (es ++ Kept w1 :: v ++ [Kept (w2 ++ [44])]) s s'.

Lemma members_close d p ms last s s1 s' :
  members_open d p ms s s1 -> members_of d p last s1 s' -> members_of d p (ms ++ last) s s'.
Proof.
  intros H. revert last s'. induction H as [s|ms token k w1 w2 v w3 w4 s s1 s2 H IH ? ? ? ? ? ? Hv]; intros l s' Hl; [done|].
  rewrite <- app_assoc. apply IH. by eapply jm_more.
Qed.

Lemma elements_close d p i es last s s1 s' :
  elements_open d p i es s s1 -> elements_of d p i last s1 s' -> elements_of d p 0 (es ++ last) s s'.
Proof.
  intros H. revert last s'. induction H as [s|i es w1 v w2 s s1 s2 H IH ? ? Hv]; intros l s' Hl; [done|].
  rewrite <- app_assoc. apply IH. by eapply je_more.
Qed.

Inductive ready (s0 : S) : list Frame -> list PathSeg -> list piece -> S -> Prop :=
  | ready_root : ready s0 [] [] [] s0
  | ready_member d fs p read s w w0 ms s1 token k w1 :
      ready s0 fs p read s -> all_ws w -> all_ws w0 -> (length fs + Datatypes.S d = MAX_JSON_DEPTH)%nat ->
      members_open d p ms s s1 -> string_token token -> decode_str token = Some k -> all_ws w1 ->
      ready s0 (FObject :: fs) (p ++ [Key k]) (read ++ Kept w :: Kept (123 :: w0) :: ms ++ [Kept (token ++ w1 ++ [58])]) s1
  | ready_element d fs p read s w w0 i es s1 :
      ready s0 fs p read s -> all_ws w -> all_ws w0 -> (length fs + Datatypes.S d = MAX_JSON_DEPTH)%nat ->
      elements_open d p i es s s1 ->
      ready s0 (FArray :: fs) (p ++ [Index i]) (read ++ Kept w :: Kept (91 :: w0) :: es) s1.

Definition valued (s0 : S) (fs : list Frame) (p : list PathSeg) (read : list piece) (s' : S) : Prop :=
  exists before s w v d, ready s0 fs p before s /\ all_ws w /\ (length fs + d = MAX_JSON_DEPTH)%nat /\
    value_of d p v s s' /\ read = before ++ Kept w :: v.

Lemma ready_depth s0 fs p read s : ready s0 fs p read s -> (length fs <= MAX_JSON_DEPTH)%nat.
Proof. destruct 1; simpl; lia. Qed.

Definition scan_ok (s0 : S) (c : bool * Scan (S := S)) : Prop :=
  exists read, input = olds read ++ rest c.2 /\ splices c.2 = splices_of input (length (rest c.2)) read /\
    (if c.1 then ready else valued) s0 (frames c.2) (path c.2) read (closure c.2).

Lemma read_more read x l l' spl :
  input = olds read ++ l -> l = olds x ++ l' -> spl = splices_of input (length l) read ->
  input = olds (read ++ x) ++ l' /\ spl ++ splices_of input (length l') x = splices_of input (length l') (read ++ x).
Proof.
  intros Hi Hl ->. split; [by rewrite olds_app, <- app_assoc, <- Hl|]. by rewrite splices_of_app, <- length_app, <- Hl.
Qed.

Lemma scan_key_sound l k l' :
  scan_key decode_str input (34 :: l) = ROk (k, l') ->
  exists token w1, string_token token /\ decode_str token = Some k /\ all_ws w1 /\ 34 :: l = token ++ w1 ++ 58 :: l'.
Proof.
  unfold scan_key. destruct (scan_string input (34 :: l)) as [[token l1]|] eqn:E; [|done].
  apply scan_string_sound in E as [Ht ->]. unfold decode_at. destruct (decode_str token) as [k0|] eqn:Ed; [|done].
  destruct (skip_ws_split l1) as (w1 & Hl1 & Hw1). destruct (skip_ws l1) as [|b l2] eqn:Es; [done|].
  destruct (N.eqb_spec b 58) as [->|]; [|done]. intros [= <- <-]. exists token, w1. by rewrite Hl1.
Qed.

Lemma scan_ok_value s0 l fs p spl s w v l' s' d :
  scan_ok s0 (true, mkScan l fs p spl s) -> l = w ++ olds v ++ l' -> all_ws w ->
  (length fs + d = MAX_JSON_DEPTH)%nat -> value_of d p v s s' ->
  scan_ok s0 (false, mkScan l' fs p (spl ++ splices_of input (length l') v) s').
Proof.
  intros (read & Hi & Hs & Hr) Hl Hw Hd Hv. cbn [fst snd rest frames path splices closure] in *.
  destruct (read_more read (Kept w :: v) l l' spl Hi) as [Hi' Hs']; [by rewrite olds_cons, <- app_assoc|done|].
  exists (read ++ Kept w :: v). split; [done|]. split; [done|]. by exists read, s, w, v, d.
Qed.

(** What is read on without replacing anything leaves the splices. *)
Lemma scan_ok_on s0 (c : bool) read x l l' fs p spl s :
  input = olds read ++ l -> spl = splices_of input (length l) read -> l = olds x ++ l' -> changed x = false ->
  (if c then ready else valued) s0 fs p (read ++ x) s -> scan_ok s0 (c, mkScan l' fs p spl s).
Proof.
  intros Hi Hs Hl Hx Hr. destruct (read_more read x l l' spl Hi Hl Hs) as [Hi' Hs'].
  rewrite (proj2 (splices_of_nil _ _ _) Hx), app_nil_r in Hs'. by exists (read ++ x).
Qed.

Lemma open_object_ok s0 fs p spl s l w w0 t k l' :
  scan_ok s0 (true, mkScan l fs p spl s) -> l = w ++ 123 :: w0 ++ 34 :: t -> all_ws w -> all_ws w0 ->
  (length (FObject :: fs) <= MAX_JSON_DEPTH)%nat -> scan_key decode_str input (34 :: t) = ROk (k, l') ->
  scan_ok s0 (true, mkScan l' (FObject :: fs) (p ++ [Key k]) spl s).
Proof.
  intros (read & Hi & Hs & Hr) Hl Hw Hw0 Hd (token & w1 & Ht & Hk & Hw1 & Htl)%scan_key_sound.
  cbn [fst snd rest frames path splices closure] in *.
  eapply (scan_ok_on _ _ read (Kept w :: Kept (123 :: w0) :: [] ++ [Kept (token ++ w1 ++ [58])])); [done|done| |done|].
  - rewrite Hl, Htl, !olds_cons. cbn [old_of olds mbind list_bind app]. rewrite ?app_nil_r, <- !app_assoc. cbn [app]. by rewrite <- !app_assoc.
  - eapply (ready_member _ (MAX_JSON_DEPTH - Datatypes.S (length fs))); eauto using members_open. simpl in Hd. lia.
Qed.

Lemma open_array_ok s0 fs p spl s l w w0 l' :
  scan_ok s0 (true, mkScan l fs p spl s) -> l = w ++ 91 :: w0 ++ l' -> all_ws w -> all_ws w0 ->
  (length (FArray :: fs) <= MAX_JSON_DEPTH)%nat ->
  scan_ok s0 (true, mkScan l' (FArray :: fs) (p ++ [Index 0]) spl s).
Proof.
  intros (read & Hi & Hs & Hr) Hl Hw Hw0 Hd. cbn [fst snd rest frames path splices closure] in *.
  eapply (scan_ok_on _ _ read (Kept w :: Kept (91 :: w0) :: [])); [done|done| |done|].
  - rewrite Hl, !olds_cons. cbn [old_of olds mbind list_bind app]. by rewrite app_nil_r, <- app_assoc.
  - eapply (ready_element _ (MAX_JSON_DEPTH - Datatypes.S (length fs))); eauto using elements_open. simpl in Hd. lia.
Qed.

(** A completed value of an open object, and of an open array. *)
Lemma valued_object s0 fs p read s' :
  valued s0 (FObject :: fs) p read s' ->
  exists d p0 before s w w0 ms s1 token k w1 w2 v,
    p = p0 ++ [Key k] /\ ready s0 fs p0 before s /\ all_ws w /\ all_ws w0 /\
    (length fs + Datatypes.S d = MAX_JSON_DEPTH)%nat /\ members_open d p0 ms s s1 /\ string_token token /\
    decode_str token = Some k /\ all_ws w1 /\ all_ws w2 /\ value_of d (p0 ++ [Key k]) v s1 s' /\
    read = before ++ Kept w :: Kept (123 :: w0) :: ms ++ Kept (token ++ w1 ++ [58]) :: Kept w2 :: v.
Proof.
  intros (before & s & w2 & v & d & Hr & Hw2 & Hd & Hv & ->). inversion Hr; subst.
  assert (d = d0) as -> by (simpl in *; lia). exists d0, p0, read, s1, w, w0, ms, s, token, k, w1, w2, v. split_and!; try done.
  repeat (rewrite <- app_assoc; cbn [app]). done.
Qed.

Lemma valued_array s0 fs p read s' :
  valued s0 (FArray :: fs) p read s' ->
  exists d p0 before s w w0 i es s1 w1 v,
    p = p0 ++ [Index i] /\ ready s0 fs p0 before s /\ all_ws w /\ all_ws w0 /\
    (length fs + Datatypes.S d = MAX_JSON_DEPTH)%nat /\ elements_open d p0 i es s s1 /\
    all_ws w1 /\ value_of d (p0 ++ [Index i]) v s1 s' /\
    read = before ++ Kept w :: Kept (91 :: w0) :: es ++ Kept w1 :: v.
Proof.
  intros (before & s & w2 & v & d & Hr & Hw2 & Hd & Hv & ->). inversion Hr; subst.
  assert (d = d0) as -> by (simpl in *; lia). exists d0, p0, read, s1, w, w0, i, es, s, w2, v. split_and!; try done.
  repeat (rewrite <- app_assoc; cbn [app]). done.
Qed.

Ltac flatten := rewrite ?olds_cons, ?olds_app; cbn [old_of olds mbind list_bind app];
  repeat (rewrite <- app_assoc; cbn [app]); rewrite ?app_nil_r.

Lemma next_member_ok s0 fs p spl s l w3 w4 t k l' :
  scan_ok s0 (false, mkScan l (FObject :: fs) p spl s) -> l = w3 ++ 44 :: w4 ++ 34 :: t -> all_ws w3 -> all_ws w4 ->
  scan_key decode_str input (34 :: t) = ROk (k, l') ->
  scan_ok s0 (true, mkScan l' (FObject :: fs) (removelast p ++ [Key k]) spl s).
Proof.
  intros (read & Hi & Hs & Hr) Hl Hw3 Hw4 (token & w1 & Ht & Hk & Hw1 & Htl)%scan_key_sound.
  cbn [fst snd rest frames path splices closure] in *.
  destruct (valued_object _ _ _ _ _ Hr) as (d & p0 & before & s1 & w & w0 & ms & s2 & token0 & k0 & w1' & w2 & v & -> & ? & ? & ? & ? & ? & ? & ? & ? & ? & ? & ->).
  rewrite removelast_last. eapply (scan_ok_on _ _ _ [Kept (w3 ++ 44 :: w4); Kept (token ++ w1 ++ [58])]); [done|done| |done|].
  - rewrite Hl, Htl. by flatten.
  - cbn iota. replace (_ ++ [Kept (w3 ++ 44 :: w4); _])
      with (before ++ Kept w :: Kept (123 :: w0) ::
        (ms ++ Kept (token0 ++ w1' ++ [58]) :: Kept w2 :: v ++ [Kept (w3 ++ 44 :: w4)]) ++ [Kept (token ++ w1 ++ [58])])
      by (repeat (rewrite <- app_assoc; cbn [app]); done).
    eapply ready_member; eauto. by eapply mo_snoc.
Qed.

Lemma close_object_ok s0 fs p spl s l w3 l' :
  scan_ok s0 (false, mkScan l (FObject :: fs) p spl s) -> l = w3 ++ 125 :: l' -> all_ws w3 ->
  scan_ok s0 (false, mkScan l' fs (removelast p) spl s).
Proof.
  intros (read & Hi & Hs & Hr) Hl Hw3. cbn [fst snd rest frames path splices closure] in *.
  destruct (valued_object _ _ _ _ _ Hr) as (d & p0 & before & s1 & w & w0 & ms & s2 & token0 & k0 & w1' & w2 & v & -> & ? & ? & ? & ? & ? & ? & ? & ? & ? & ? & ->).
  rewrite removelast_last. eapply (scan_ok_on _ _ _ [Kept w3; Kept [125]]); [done|done| |done|].
  - rewrite Hl. by flatten.
  - exists before, s1, w, (Kept (123 :: w0) :: (ms ++ Kept (token0 ++ w1' ++ [58]) :: Kept w2 :: v ++ [Kept w3]) ++ [Kept [125]]), (Datatypes.S d).
    split_and!; try done; [|by flatten]. apply jv_object; [done|]. eapply members_close; [done|]. by eapply jm_last.
Qed.

Lemma next_element_ok s0 fs p q spl s l w2 l' :
  scan_ok s0 (false, mkScan l (FArray :: fs) p spl s) -> l = w2 ++ 44 :: l' -> all_ws w2 -> next_index p = Some q ->
  scan_ok s0 (true, mkScan l' (FArray :: fs) q spl s).
Proof.
  intros (read & Hi & Hs & Hr) Hl Hw2. cbn [fst snd rest frames path splices closure] in *.
  destruct (valued_array _ _ _ _ _ Hr) as (d & p0 & before & s1 & w & w0 & i & es & s2 & w1 & v & -> & ? & ? & ? & ? & ? & ? & ? & ->).
  unfold next_index. rewrite last_snoc, removelast_last. intros [= <-].
  eapply (scan_ok_on _ _ _ [Kept (w2 ++ [44])]); [done|done| |done|].
  - rewrite Hl. by flatten.
  - cbn iota. replace (_ ++ [Kept (w2 ++ [44])])
      with (before ++ Kept w :: Kept (91 :: w0) :: (es ++ Kept w1 :: v ++ [Kept (w2 ++ [44])])) by by flatten.
    eapply ready_element; eauto. by eapply eo_snoc.
Qed.

Lemma close_array_ok s0 fs p spl s l w2 l' :
  scan_ok s0 (false, mkScan l (FArray :: fs) p spl s) -> l = w2 ++ 93 :: l' -> all_ws w2 ->
  scan_ok s0 (false, mkScan l' fs (removelast p) spl s).
Proof.
  intros (read & Hi & Hs & Hr) Hl Hw2. cbn [fst snd rest frames path splices closure] in *.
  destruct (valued_array _ _ _ _ _ Hr) as (d & p0 & before & s1 & w & w0 & i & es & s2 & w1 & v & -> & ? & ? & ? & ? & ? & ? & ? & ->).
  rewrite removelast_last. eapply (scan_ok_on _ _ _ [Kept w2; Kept [93]]); [done|done| |done|].
  - rewrite Hl. by flatten.
  - exists before, s1, w, (Kept (91 :: w0) :: (es ++ Kept w1 :: v ++ [Kept w2]) ++ [Kept [93]]), (Datatypes.S d).
    split_and!; try done; [|by flatten]. apply jv_array; [done|]. eapply elements_close; [done|]. by eapply je_last.
Qed.

Lemma string_value_ok s0 fs p spl s l w t next :
  scan_ok s0 (true, mkScan l fs p spl s) -> l = w ++ 34 :: t -> all_ws w ->
  value_string should_rewrite rewrite decode_str encode_str input (34 :: t) (mkScan l fs p spl s) = ToAfter next ->
  scan_ok s0 (false, next).
Proof.
  intros Hok Hl Hw. assert (length fs <= MAX_JSON_DEPTH)%nat as Hd by (destruct Hok as (? & _ & _ & Hr); by eapply ready_depth).
  unfold value_string. destruct (scan_string input (34 :: t)) as [[token k]|] eqn:E; [|done].
  apply scan_string_sound in E as [Ht Htk]. rewrite Htk in *. cbn [path frames splices closure].
  assert (forall v s', value_of (MAX_JSON_DEPTH - length fs) p v s s' -> olds v = token ->
    scan_ok s0 (false, mkScan k fs p (spl ++ splices_of input (length k) v) s')) as Hgo.
  { intros v s' Hv Ho. eapply scan_ok_value; [done| |done| |done]; [by rewrite Ho|lia]. }
  assert (forall s', value_of (MAX_JSON_DEPTH - length fs) p [Kept token] s s' -> scan_ok s0 (false, mkScan k fs p spl s')) as Hkeep.
  { intros s' Hv. rewrite <- (app_nil_r spl). apply (Hgo [Kept token]); [done|]. by rewrite olds_cons, app_nil_r. }
  destruct (should_rewrite p s) as [[] s1] eqn:Esel; [|intros [= <-]; apply Hkeep; by apply jv_unselected].
  unfold decode_at. destruct (decode_str token) as [x|] eqn:Edec; [|done].
  destruct (rewrite x s1) as [[new|] s2] eqn:Erw; intros [= <-]; [|by apply Hkeep; eapply jv_unchanged].
  replace (pos_of input (token ++ k), pos_of input k, encode_str new) with
    (length input - (length token + length (olds []) + length k), length input - (length (olds []) + length k), encode_str new)%nat
    by (unfold pos_of; rewrite length_app; simpl; by rewrite Nat.add_0_r).
  apply (Hgo [Replaced token (encode_str new)]); [by eapply jv_replaced|]. by rewrite olds_cons, app_nil_r.
Qed.

Definition next_ok (s0 : S) (n : Next (S := S)) : Prop :=
  match n with
  | ToValue s => scan_ok s0 (true, s)
  | ToAfter s => scan_ok s0 (false, s)
  | Finished _ | Failed _ => True
  end.

Lemma keep_value_ok s0 l fs p spl s w token l' :
  scan_ok s0 (true, mkScan l fs p spl s) -> l = w ++ token ++ l' -> all_ws w ->
  value_of (MAX_JSON_DEPTH - length fs) p [Kept token] s s -> scan_ok s0 (false, mkScan l' fs p spl s).
Proof.
  intros Hok Hl Hw Hv. assert (length fs <= MAX_JSON_DEPTH)%nat as Hd by (destruct Hok as (? & _ & _ & Hr); by eapply ready_depth).
  rewrite <- (app_nil_r spl). eapply (scan_ok_value _ _ _ _ _ _ _ [Kept token]); [done| |done| |done]; [|lia].
  by rewrite olds_cons, app_nil_r.
Qed.

Lemma value_step_ok s0 s : scan_ok s0 (true, s) -> next_ok s0 (at_value s).
Proof.
  destruct s as [l fs p spl s]. intros Hok. unfold value_step. cbn [rest frames path splices closure].
  destruct (skip_ws_split l) as (w & Hl & Hw). destruct (skip_ws l) as [|b l1] eqn:El; [done|].
  destruct (N.eqb_spec b 123) as [->|]; [|destruct (N.eqb_spec b 91) as [->|]; [|destruct (N.eqb_spec b 34) as [->|]]].
  - destruct (Nat.ltb_spec MAX_JSON_DEPTH (length (FObject :: fs))) as [|Hd]; [done|].
    destruct (skip_ws_split l1) as (w0 & Hl1 & Hw0). destruct (skip_ws l1) as [|c l2]; [done|].
    destruct (N.eqb_spec c 125) as [->|]; [|destruct (N.eqb_spec c 34) as [->|]; [|done]].
    + eapply (keep_value_ok _ _ _ _ _ _ w (123 :: w0 ++ [125])); [done| |done|]; [by rewrite Hl, Hl1; flatten|].
      simpl in Hd. replace (MAX_JSON_DEPTH - length fs)%nat with (Datatypes.S (MAX_JSON_DEPTH - length fs - 1)) by lia. by apply jv_no_members.
    + destruct (scan_key _ _ _) as [[k l4]|] eqn:Ek; [|done]. eapply (open_object_ok _ _ _ _ _ l w w0); [done| |done..]; by rewrite Hl, Hl1.
  - destruct (Nat.ltb_spec MAX_JSON_DEPTH (length (FArray :: fs))) as [|Hd]; [done|].
    destruct (skip_ws_split l1) as (w0 & Hl1 & Hw0).
    assert (scan_ok s0 (true, mkScan (skip_ws l1) (FArray :: fs) (p ++ [Index 0]) spl s)) as Hopen
      by (eapply (open_array_ok _ _ _ _ _ l w w0); [done| |done..]; by rewrite Hl; rewrite Hl1 at 1).
    destruct (skip_ws l1) as [|c l2]; [done|]. destruct (N.eqb_spec c 93) as [->|]; [|done].
    eapply (keep_value_ok _ _ _ _ _ _ w (91 :: w0 ++ [93])); [done| |done|]; [by rewrite Hl, Hl1; flatten|].
    simpl in Hd. replace (MAX_JSON_DEPTH - length fs)%nat with (Datatypes.S (MAX_JSON_DEPTH - length fs - 1)) by lia. by apply jv_no_elements.
  - destruct (value_string _ _ _ _ _ _ _) as [s1|s1|s1|e] eqn:E; try done.
    + exfalso. revert E. unfold value_string. repeat case_match; naive_solver.
    + by eapply string_value_ok.
  - destruct (starts_token b) eqn:Eb; [|done]. destruct (is_atom _) eqn:Ea; [|done].
    eapply (keep_value_ok _ _ _ _ _ _ w (take_while is_token (b :: l1))); [done| |done|by apply jv_atom].
    by rewrite Hl, <- take_skip_while.
Qed.

Lemma after_step_ok s0 s : scan_ok s0 (false, s) -> next_ok s0 (after_value s).
Proof.
  destruct s as [l fs p spl s]. intros Hok. unfold after_step. cbn [rest frames path splices closure].
  destruct (skip_ws_split l) as (w & Hl & Hw). destruct fs as [|f fs]; [by destruct (skip_ws l)|].
  destruct (skip_ws l) as [|b l1]; [done|]. destruct f, (N.eqb_spec b 44) as [->|].
  - destruct (skip_ws_split l1) as (w4 & Hl1 & Hw4). destruct (skip_ws l1) as [|c l2]; [done|].
    destruct (N.eqb_spec c 34) as [->|]; [|done]. destruct (scan_key _ _ _) as [[k l4]|] eqn:Ek; [|done].
    eapply (next_member_ok _ _ _ _ _ l w w4); [done| |done..]; by rewrite Hl, Hl1.
  - destruct (N.eqb_spec b 125) as [->|]; [|done]. by eapply close_object_ok.
  - destruct (next_index p) as [q|] eqn:Eq; [|done]. by eapply next_element_ok.
  - destruct (N.eqb_spec b 93) as [->|]; [|done]. by eapply close_array_ok.
Qed.

Lemma ready_root_inv s0 p read s : ready s0 [] p read s -> p = [] /\ read = [] /\ s = s0.
Proof. by inversion 1. Qed.

(** The document the scanner has read when it stops. *)
Lemma finished_ok s0 s s' :
  scan_ok s0 (false, s) -> after_value s = Finished s' ->
  exists w v w', all_ws w /\ all_ws w' /\ value_of MAX_JSON_DEPTH [] v s0 (closure s') /\
    input = w ++ olds v ++ w' /\ splices s' = splices_of input 0 (Kept w :: v ++ [Kept w']).
Proof.
  destruct s as [l fs p spl s]. intros (read & Hi & Hs & Hr). cbn [fst snd rest frames path splices closure] in *.
  unfold after_step. cbn [rest frames path splices closure]. destruct (skip_ws_split l) as (w' & Hl & Hw').
  destruct fs as [|f fs]; [|by repeat case_match].
  destruct (skip_ws l); [|done]. intros [= <-]. rewrite app_nil_r in Hl. subst w'. cbn [closure splices with_rest].
  destruct Hr as (before & s1 & w & v & d & Hr & Hw & Hd & Hv & ->). apply ready_root_inv in Hr as (-> & -> & ->). simpl in Hd. subst d.
  exists w, v, l. split_and!; try done.
  - by rewrite Hi at 1; flatten.
  - rewrite Hs. cbn [app splices_of]. rewrite splices_of_app, olds_cons. cbn [splices_of old_of olds mbind list_bind].
    by rewrite !app_nil_r, Nat.add_0_r.
Qed.

(** ** Every turn reads on *)

Lemma skip_ws_length l : (length (skip_ws l) <= length l)%nat.
Proof. destruct (skip_ws_split l) as (w & Hl & _). rewrite Hl at 2. rewrite length_app. lia. Qed.

Lemma string_token_length token : string_token token -> (0 < length token)%nat.
Proof. intros (body & _ & ->). simpl. lia. Qed.

Lemma scan_key_length l k l' : scan_key decode_str input (34 :: l) = ROk (k, l') -> (length l' < length (34%N :: l))%nat.
Proof.
  intros (token & w1 & Ht & _ & _ & ->)%scan_key_sound. rewrite !length_app. simpl. lia.
Qed.

Lemma step_shorter c c' : step c c' -> (length (rest c'.2) < length (rest c.2))%nat.
Proof.
  destruct c as [[] [l fs p spl s]], c' as [c' n]; unfold step; cbn [fst snd].
  - unfold value_step. cbn [rest frames path splices closure]. pose proof (skip_ws_length l) as Hlen.
    destruct (skip_ws l) as [|b l1]; [by destruct c'|]. pose proof (skip_ws_length l1) as Hlen1.
    destruct (b =? 123); [|destruct (b =? 91); [|destruct (N.eqb_spec b 34) as [->|]]].
    + destruct (_ <? _)%nat; [by destruct c'|]. destruct (skip_ws l1) as [|x l2]; [by destruct c'|].
      destruct (x =? 125); [destruct c'; intros [= <-]; simpl in *; lia|].
      destruct (N.eqb_spec x 34) as [->|]; [|by destruct c'].
      destruct (scan_key _ _ _) as [[k l4]|] eqn:Ek; [|by destruct c']. apply scan_key_length in Ek.
      destruct c'; intros [= <-]; simpl in *; lia.
    + destruct (_ <? _)%nat; [by destruct c'|]. destruct (skip_ws l1) as [|x l2]; [destruct c'; intros [= <-]; simpl in *; lia|].
      destruct (x =? 93); destruct c'; intros [= <-]; simpl in *; lia.
    + unfold value_string. destruct (scan_string input (34 :: l1)) as [[token k]|] eqn:E; [|by destruct c'].
      apply scan_string_sound in E as [Ht Htk]. apply string_token_length in Ht.
      assert (length k < length (34%N :: l1))%nat by (rewrite Htk, length_app; lia).
      repeat case_match; try done; intros [= <-]; simpl in *; lia.
    + destruct (starts_token b) eqn:Eb; [|by destruct c']. apply starts_token_spec in Eb as (_ & _ & _ & _ & _ & Eb).
      destruct (is_atom _); destruct c'; try done. intros [= <-]. unfold with_rest. cbn [rest skip_while] in *. rewrite Eb.
      pose proof (f_equal length (take_skip_while is_token l1)) as Hl1. rewrite length_app in Hl1. simpl in *. lia.
  - unfold after_step. cbn [rest frames path splices closure]. pose proof (skip_ws_length l) as Hlen.
    destruct fs as [|[] fs]; (destruct (skip_ws l) as [|b l1]; [by destruct c'|]); [by destruct c'| |].
    + pose proof (skip_ws_length l1) as Hlen1. destruct (b =? 44).
      * destruct (skip_ws l1) as [|x l2]; [by destruct c'|]. destruct (N.eqb_spec x 34) as [->|]; [|by destruct c'].
        destruct (scan_key _ _ _) as [[k l4]|] eqn:Ek; [|by destruct c']. apply scan_key_length in Ek.
        destruct c'; intros [= <-]; simpl in *; lia.
      * destruct (b =? 125); destruct c'; try done. intros [= <-]. simpl in *. lia.
    + destruct (b =? 44).
      * destruct (next_index p); destruct c'; try done. intros [= <-]. simpl in *. lia.
      * destruct (b =? 93); destruct c'; try done. intros [= <-]. simpl in *. lia.
Qed.

Abbreviation loop := (splice_loop should_rewrite rewrite decode_str encode_str input).

Lemma value_step_unfinished s s' : at_value s <> Finished s'.
Proof. unfold value_step, value_string. repeat case_match; done. Qed.

(** With fuel for the bytes left the loop gives an answer, and when it is not an
    error it is the state a run finishes in. *)
Lemma loop_runs : forall fuel c s, (length (rest s) < fuel)%nat ->
  (exists e, loop fuel c s = Some (RErr e)) \/
  (exists s1 s', reaches (c, s) (false, s1) /\ after_value s1 = Finished s' /\ loop fuel c s = Some (ROk s')).
Proof.
  induction fuel as [|fuel IH]; intros c s Hlen; [lia|]. cbn [splice_loop].
  assert (forall c' n, step (c, s) (c', n) ->
    (exists e, loop fuel c' n = Some (RErr e)) \/
    (exists s1 s', reaches (c, s) (false, s1) /\ after_value s1 = Finished s' /\ loop fuel c' n = Some (ROk s'))) as Hgo.
  { intros c' n Hstep. pose proof (step_shorter _ _ Hstep) as Hsh. simpl in Hsh.
    destruct (IH c' n ltac:(lia)) as [?|(s1 & s' & Hr & ? & ?)]; [by left|]. right. exists s1, s'. split_and!; try done. by eapply rtc_l. }
  destruct (if c then at_value s else after_value s) as [n|n|s'|e] eqn:E; [by apply (Hgo true)|by apply (Hgo false)| |left; by exists e].
  right. exists s, s'. split_and!; try done; destruct c; [by apply value_step_unfinished in E|done|by apply value_step_unfinished in E|done].
Qed.

Lemma loop_finds c s s1 s' : forall fuel, (length (rest s) < fuel)%nat ->
  reaches (c, s) (false, s1) -> after_value s1 = Finished s' -> loop fuel c s = Some (ROk s').
Proof.
  intros fuel Hlen Hr Hf. remember (c, s) as x eqn:Hx. remember (false, s1) as y eqn:Hy. revert fuel c s Hx Hlen.
  induction Hr as [x|x z y Hstep Hr IH]; intros fuel c s ->; (destruct fuel as [|fuel]; intros Hlen; [lia|]).
  - injection Hy as -> ->. cbn [splice_loop]. by rewrite Hf.
  - pose proof (step_shorter _ _ Hstep) as Hsh. destruct z as [cz sz]. simpl in Hsh. specialize (IH Hy fuel cz sz eq_refl ltac:(lia)).
    unfold step in Hstep. cbn [fst snd] in Hstep. cbn [splice_loop]. rewrite Hstep. by destruct cz.
Qed.

(** [out] and [s'] are the rewriting of the document [input]. *)
Definition rewriting (s : S) (out : option bytes) (s' : S) : Prop :=
  exists w v w', all_ws w /\ all_ws w' /\ value_of MAX_JSON_DEPTH [] v s s' /\ input = w ++ olds v ++ w' /\
    out = if changed v then Some (w ++ news v ++ w') else None.

Lemma changed_snoc w v w' : changed (Kept w :: v ++ [Kept w']) = changed v.
Proof. unfold changed. simpl. rewrite existsb_app. simpl. by rewrite orb_false_r. Qed.

Lemma spliced w v w' :
  input = w ++ olds v ++ w' ->
  match splices_of input 0 (Kept w :: v ++ [Kept w']) with [] => None | l => Some (apply_splices input l 0) end
  = if changed v then Some (w ++ news v ++ w') else None.
Proof.
  intros Hi. rewrite <- (changed_snoc w v w'). destruct (splices_of _ _ _) as [|x l] eqn:E.
  - by rewrite (proj1 (splices_of_nil _ _ _) E).
  - destruct (changed _) eqn:Ec; [|by rewrite (proj2 (splices_of_nil _ _ _) Ec) in E]. f_equal. rewrite <- E.
    rewrite (apply_splices_of input _ [] 0); [| |done].
    + rewrite drop_nil, news_cons, news_app, news_cons. simpl. by rewrite app_nil_r.
    + rewrite Hi, olds_cons, olds_app, olds_cons. simpl. by rewrite app_nil_r.
Qed.

Lemma rewriting_runs s out s' :
  rewriting s out s' ->
  exists s1 s2, reaches (true, mkScan input [] [] [] s) (false, s1) /\ after_value s1 = Finished s2 /\ closure s2 = s' /\
    match splices s2 with [] => None | l => Some (apply_splices input l 0) end = out.
Proof.
  intros (w & v & w' & Hw & Hw' & Hv & Hi & ->). destruct (value_head _ _ _ _ _ Hv) as (b & t & Hb & Hws & _).
  exists (mkScan w' [] [] ([] ++ splices_of input (length w') v) s'), (mkScan [] [] [] (splices_of input (length w') v) s').
  split_and!.
  - apply (proj1 accepts_all _ _ _ _ _ Hv); [|intros c l Hc; by eapply (stops_ws w' []); [..|by rewrite app_nil_r]|done].
    rewrite Hi, skip_ws_app, Hb by done. by apply skip_ws_stop.
  - unfold after_step. cbn [rest frames]. by rewrite skip_ws_nil.
  - done.
  - rewrite <- spliced by done. cbn [splices splices_of]. rewrite splices_of_app. cbn [splices_of].
    rewrite app_nil_r, olds_cons. cbn [old_of olds mbind list_bind]. by rewrite app_nil_r, Nat.add_0_r.
Qed.

Lemma steps_ok s0 c c' : reaches c c' -> scan_ok s0 c -> scan_ok s0 c'.
Proof.
  induction 1 as [|[c s] [c' s'] y Hstep _ IH]; [done|]. intros Hok. apply IH. unfold step in Hstep. cbn [fst snd] in Hstep.
  destruct c; [pose proof (value_step_ok s0 s Hok) as H|pose proof (after_step_ok s0 s Hok) as H]; rewrite Hstep in H; by destruct c'.
Qed.

Lemma runs_rewriting s s1 s2 :
  reaches (true, mkScan input [] [] [] s) (false, s1) -> after_value s1 = Finished s2 ->
  rewriting s (match splices s2 with [] => None | l => Some (apply_splices input l 0) end) (closure s2).
Proof.
  intros Hr Hf. assert (scan_ok s (false, s1)) as Hok.
  { eapply steps_ok; [exact Hr|]. exists []. split_and!; [done..|constructor]. }
  destruct (finished_ok _ _ _ Hok Hf) as (w & v & w' & Hw & Hw' & Hv & Hi & ->). exists w, v, w'. split_and!; try done.
  by apply spliced.
Qed.

Abbreviation rewriter := (rewrite_string_values should_rewrite rewrite decode_str encode_str input).

Lemma rewriter_spec s :
  (exists r, rewriter s = Some r) /\
  forall out s', rewriter s = Some (ROk (out, s')) <-> is_Some (from_utf8 input) /\ rewriting s out s'.
Proof.
  unfold rewrite_string_values. destruct (from_utf8 input) as [x|].
  2: { split; [by eexists|]. intros out s'. split; [done|]. by intros [[] _]. }
  set (s0 := mkScan input [] [] [] s).
  destruct (loop_runs (Datatypes.S (length input)) true s0 ltac:(simpl; lia)) as [[e He]|(s1 & s2 & Hr & Hf & Hl)]; [rewrite He|rewrite Hl];
    (split; [by eexists|]); intros out s'; (split; [intros H|intros [_ H]]).
  - done.
  - destruct (rewriting_runs _ _ _ H) as (s1 & s2 & Hr & Hf & _). by rewrite (loop_finds true s0 s1 s2) in He by (done || simpl; lia).
  - injection H as <- <-. split; [by eexists|]. by eapply runs_rewriting.
  - destruct (rewriting_runs _ _ _ H) as (s3 & s4 & Hr' & Hf' & <- & <-).
    rewrite (loop_finds true s0 s3 s4) in Hl by (done || simpl; lia). by injection Hl as ->.
Qed.
End accept.

(** ** What the collectors keep *)

(** Closures that see the same through a map of their states find the same
    documents. *)
Section map.
Context {S1 S2 : Type} (g : S1 -> S2).
Context (select1 : list PathSeg -> S1 -> bool * S1) (rewrite1 : text -> S1 -> option text * S1).
Context (select2 : list PathSeg -> S2 -> bool * S2) (rewrite2 : text -> S2 -> option text * S2).
Context (decode_str : bytes -> option text) (encode_str : text -> bytes).
Context (Hselect : forall p s, select2 p (g s) = prod_map id g (select1 p s)).
Context (Hrewrite : forall t s, rewrite2 t (g s) = prod_map id g (rewrite1 t s)).

Lemma json_map :
  (forall d p v s s', jvalue select1 rewrite1 decode_str encode_str d p v s s' ->
     jvalue select2 rewrite2 decode_str encode_str d p v (g s) (g s')) /\
  (forall d p v s s', jmembers select1 rewrite1 decode_str encode_str d p v s s' ->
     jmembers select2 rewrite2 decode_str encode_str d p v (g s) (g s')) /\
  (forall d p i v s s', jelements select1 rewrite1 decode_str encode_str d p i v s s' ->
     jelements select2 rewrite2 decode_str encode_str d p i v (g s) (g s')).
Proof.
  apply json_mind; eauto using jvalue, jmembers, jelements.
  - intros d p token s s' Ht Hs. apply jv_unselected; [done|]. by rewrite Hselect, Hs.
  - intros d p token t s s1 s' Ht Hs Hd Hr. apply (jv_unchanged _ _ _ _ d p token t _ (g s1)); [done| |done|]; [by rewrite Hselect, Hs|by rewrite Hrewrite, Hr].
  - intros d p token t new s s1 s' Ht Hs Hd Hr. apply (jv_replaced _ _ _ _ d p token t new _ (g s1)); [done| |done|]; [by rewrite Hselect, Hs|by rewrite Hrewrite, Hr].
Qed.

Lemma json_lift :
  (forall d p v z z', jvalue select2 rewrite2 decode_str encode_str d p v z z' -> forall s, z = g s ->
     exists s', z' = g s' /\ jvalue select1 rewrite1 decode_str encode_str d p v s s') /\
  (forall d p v z z', jmembers select2 rewrite2 decode_str encode_str d p v z z' -> forall s, z = g s ->
     exists s', z' = g s' /\ jmembers select1 rewrite1 decode_str encode_str d p v s s') /\
  (forall d p i v z z', jelements select2 rewrite2 decode_str encode_str d p i v z z' -> forall s, z = g s ->
     exists s', z' = g s' /\ jelements select1 rewrite1 decode_str encode_str d p i v s s').
Proof.
  apply json_mind.
  - intros d p token z z' Ht Hs s ->. rewrite Hselect in Hs. destruct (select1 p s) as [b s1] eqn:E. injection Hs as -> <-.
    exists s1. eauto using jvalue.
  - intros d p token t z z1 z' Ht Hs Hd Hr s ->. rewrite Hselect in Hs. destruct (select1 p s) as [b s1] eqn:E. injection Hs as -> <-.
    rewrite Hrewrite in Hr. destruct (rewrite1 t s1) as [r s2] eqn:E2. injection Hr as -> <-. exists s2. eauto using jvalue.
  - intros d p token t new z z1 z' Ht Hs Hd Hr s ->. rewrite Hselect in Hs. destruct (select1 p s) as [b s1] eqn:E. injection Hs as -> <-.
    rewrite Hrewrite in Hr. destruct (rewrite1 t s1) as [r s2] eqn:E2. injection Hr as -> <-. exists s2. eauto using jvalue.
  - intros. subst. eauto using jvalue.
  - intros. subst. eauto using jvalue.
  - intros d p w ms z z' Hw _ IH s Hs. destruct (IH s Hs) as (s' & -> & ?). eauto using jvalue.
  - intros. subst. eauto using jvalue.
  - intros d p w ms z z' Hw _ IH s Hs. destruct (IH s Hs) as (s' & -> & ?). eauto using jvalue.
  - intros d p token k w1 w2 v w3 z z' ? ? ? ? ? _ IH s Hs. destruct (IH s Hs) as (s' & -> & ?). eauto using jmembers.
  - intros d p token k w1 w2 v w3 w4 ms z z1 z' ? ? ? ? ? ? _ IH _ IH' s Hs. destruct (IH s Hs) as (s1 & -> & ?).
    destruct (IH' s1 eq_refl) as (s' & -> & ?). eauto using jmembers.
  - intros d p i w1 v w2 z z' ? ? _ IH s Hs. destruct (IH s Hs) as (s' & -> & ?). eauto using jelements.
  - intros d p i w1 v w2 es z z1 z' ? ? _ IH _ IH' s Hs. destruct (IH s Hs) as (s1 & -> & ?).
    destruct (IH' s1 eq_refl) as (s' & -> & ?). eauto using jelements.
Qed.

Lemma rewriting_map input s out z :
  rewriting select2 rewrite2 decode_str encode_str input (g s) out z <->
  exists s', z = g s' /\ rewriting select1 rewrite1 decode_str encode_str input s out s'.
Proof.
  split.
  - intros (w & v & w' & ? & ? & Hv & ? & ?). destruct (proj1 json_lift _ _ _ _ _ Hv s eq_refl) as (s' & -> & ?).
    exists s'. split; [done|]. by exists w, v, w'.
  - intros (s' & -> & w & v & w' & ? & ? & Hv & ? & ?). exists w, v, w'. split_and!; try done. by apply json_map.
Qed.
End map.

(** [ts] are the strings of the document the predicate selects, in order. *)
Definition offers {A} (include : list PathSeg -> A -> bool * A) (decode_str : bytes -> option text) (encode_str : text -> bytes)
    (input : bytes) (a : A) (ts : list text) : Prop :=
  is_Some (from_utf8 input) /\ exists out a',
    rewriting (asking include) (keeping (fun t ts => ts ++ [t])) decode_str encode_str input (a, []) out (a', ts).

Section keep.
Context {A B : Type}.
Context (include : list PathSeg -> A -> bool * A).
Context (decode_str : bytes -> option text) (encode_str : text -> bytes) (input : bytes).
Context (f : text -> B -> B) (b0 : B).

(** A collector folds over the strings offered. *)
Lemma collector_folds a b :
  (exists out a', rewrite_string_values (asking include) (keeping f) decode_str encode_str input (a, b0) = Some (ROk (out, (a', b))))
  <-> exists ts, offers include decode_str encode_str input a ts /\ b = foldl (fun b t => f t b) b0 ts.
Proof.
  pose (g := fun s : A * list text => (s.1, foldl (fun b t => f t b) b0 s.2)).
  assert (forall p s, asking include p (g s) = prod_map id g (asking include p s)) as Hsel
    by (intros p [a1 ts]; unfold asking; simpl; by destruct (include p a1)).
  assert (forall t s, keeping f t (g s) = prod_map id g (keeping (fun t ts => ts ++ [t]) t s)) as Hkeep
    by (intros t [a1 ts]; unfold keeping, g; simpl; by rewrite foldl_snoc).
  destruct (rewriter_spec (asking include) (keeping f) decode_str encode_str input (a, b0)) as [_ Hspec]. split.
  - intros (out & a' & H). apply Hspec in H as [Hu H].
    apply (rewriting_map g _ _ _ _ _ _ Hsel Hkeep input (a, [])) in H as ([a1 ts] & [= -> ->] & H).
    exists ts. split; [|done]. split; [done|]. by exists out, a1.
  - intros (ts & [Hu (out & a' & H)] & ->). exists out, a'. apply Hspec. split; [done|].
    apply (rewriting_map g _ _ _ _ _ _ Hsel Hkeep input (a, [])). by exists (a', ts).
Qed.
End keep.

Lemma byte_len_app t u : byte_len (t ++ u) = byte_len t + byte_len u.
Proof. unfold byte_len, encode. rewrite bind_app, length_app. lia. Qed.

(** The strings on lines of their own; nothing in front of the first that is not
    empty. *)
Definition join_line (out t : text) : text := out ++ match out with [] => [] | _ => [NEWLINE_CHAR] end ++ t.
Definition joined (ts : list text) : text := foldl join_line [] ts.
Definition total_len (ts : list text) : N := foldr (fun t n => byte_len t + n) 0 ts.

Lemma join_line_len out t : byte_len (join_line out t) = byte_len out + match out with [] => 0 | _ => 1 end + byte_len t.
Proof. unfold join_line. rewrite !byte_len_app. destruct out; simpl; unfold byte_len at 2; simpl; lia. Qed.

Lemma join_lines_grow ts : forall out, byte_len out <= byte_len (foldl join_line out ts).
Proof.
  induction ts as [|t ts IH]; intros out; simpl; [lia|]. specialize (IH (join_line out t)). rewrite join_line_len in IH. lia.
Qed.

Lemma collect_stops ts : forall out e, foldl (fun b t => collect_value t b) (out, Some e) ts = (out, Some e).
Proof. by induction ts. Qed.

Lemma collect_folds ts : forall out, byte_len out <= MAX_JSON_SCAN_TEXT_BYTES ->
  let all := foldl join_line out ts in
  if byte_len all <=? MAX_JSON_SCAN_TEXT_BYTES
  then foldl (fun b t => collect_value t b) (out, None) ts = (all, None)
  else exists out', foldl (fun b t => collect_value t b) (out, None) ts = (out', Some unevaluable).
Proof.
  induction ts as [|t ts IH]; intros out Hout; cbn [foldl]; [by rewrite (proj2 (N.leb_le _ _) Hout)|].
  unfold collect_value at 2 4. rewrite <- join_line_len. destruct (N.ltb_spec MAX_JSON_SCAN_TEXT_BYTES (byte_len (join_line out t))) as [Hbig|Hfits].
  - pose proof (join_lines_grow ts (join_line out t)). rewrite (proj2 (N.leb_gt _ _)) by lia. exists out. apply collect_stops.
  - replace (out ++ (if match out with [] => 0 | _ => 1 end =? 0 then [] else [NEWLINE_CHAR]) ++ t) with (join_line out t)
      by (unfold join_line; by destruct out).
    by apply IH.
Qed.

Lemma collect_vec_stops ts : forall out n e, foldl (fun b t => collect_value_vec t b) (out, n, Some e) ts = (out, n, Some e).
Proof. by induction ts. Qed.

Lemma collect_vec_folds ts : forall out n, (length out <= MAX_JSON_SCAN_VALUES)%nat -> n <= MAX_JSON_SCAN_TEXT_BYTES ->
  if (length out + length ts <=? MAX_JSON_SCAN_VALUES)%nat && (n + total_len ts <=? MAX_JSON_SCAN_TEXT_BYTES)
  then foldl (fun b t => collect_value_vec t b) (out, n, None) ts = (out ++ ts, n + total_len ts, None)
  else exists out' n', foldl (fun b t => collect_value_vec t b) (out, n, None) ts = (out', n', Some unevaluable).
Proof.
  induction ts as [|t ts IH]; intros out n Hout Hn; cbn [foldl length total_len foldr].
  { rewrite (proj2 (Nat.leb_le _ _)), (proj2 (N.leb_le _ _)) by lia. simpl. by rewrite app_nil_r, N.add_0_r. }
  unfold collect_value_vec at 2 4. fold (total_len ts).
  destruct (Nat.leb_spec MAX_JSON_SCAN_VALUES (length out)) as [Hfull|Hroom]; [|destruct (N.ltb_spec MAX_JSON_SCAN_TEXT_BYTES (n + byte_len t)) as [Hbig|Hfits]].
  - rewrite (proj2 (Nat.leb_gt _ _)) by lia. simpl. exists out, n. apply collect_vec_stops.
  - rewrite (proj2 (N.leb_gt _ _)), andb_false_r by lia. simpl. exists out, n. apply collect_vec_stops.
  - simpl orb. cbn iota. specialize (IH (out ++ [t]) (n + byte_len t)). rewrite length_app, <- Nat.add_assoc, <- N.add_assoc in IH.
    cbn [length] in IH. rewrite <- app_assoc in IH. apply IH; lia.
Qed.

(** ** Properties *)

(** C9. [rewrite_string_values] always answers, and succeeds exactly on the UTF-8
    documents of the JSON grammar nested at most [MAX_JSON_DEPTH] deep: the
    predicate is asked at the path of every string value and of nothing else, in
    source order, the rewriter is given the decoded text of those it selects, and
    the result is the input with the tokens replaced and every other byte kept;
    [None] when nothing was replaced. *)
Theorem rewrite_exact {S} should_rewrite rewrite decode_str encode_str input (s : S) :
  let run := rewrite_string_values should_rewrite rewrite decode_str encode_str input s in
  (exists r, run = Some r) /\
  forall out s', run = Some (ROk (out, s')) <->
    is_Some (from_utf8 input) /\
    exists w v w', all_ws w /\ all_ws w' /\ input = w ++ olds v ++ w' /\
      jvalue should_rewrite rewrite decode_str encode_str MAX_JSON_DEPTH [] v s s' /\
      out = if changed v then Some (w ++ news v ++ w') else None.
Proof.
  destruct (rewriter_spec should_rewrite rewrite decode_str encode_str input s) as [Htotal Hspec]. split; [done|].
  intros out s'. rewrite Hspec. split; intros [? (w & v & w' & ? & ? & ? & ? & ?)]; (split; [done|]); by exists w, v, w'.
Qed.

(** C34. The collectors always answer.  When the document offers the strings [ts] to
    the predicate they return them, joined with newlines or as a list, if they
    fit the limits, and refuse the document as unevaluable if not; what they
    return is never anything else. *)
Theorem collectors_exact {A} (include : list PathSeg -> A -> bool * A) decode_str encode_str input a :
  let run := collect_string_values_where include decode_str encode_str input a in
  let run_vec := collect_string_values_where_vec include decode_str encode_str input a in
  let offered := offers include decode_str encode_str input a in
  (exists r, run = Some r) /\ (exists r, run_vec = Some r) /\
  (forall ts, offered ts ->
     run = Some (if byte_len (joined ts) <=? MAX_JSON_SCAN_TEXT_BYTES then ROk (joined ts) else RErr unevaluable) /\
     run_vec = Some (if (length ts <=? MAX_JSON_SCAN_VALUES)%nat && (total_len ts <=? MAX_JSON_SCAN_TEXT_BYTES)
                     then ROk ts else RErr unevaluable)) /\
  (forall out, run = Some (ROk out) -> exists ts, offered ts /\ out = joined ts) /\
  (forall ts, run_vec = Some (ROk ts) -> offered ts).
Proof.
  intros run run_vec offered. unfold run, run_vec, collect_string_values_where, collect_string_values_where_vec.
  pose proof (collector_folds include decode_str encode_str input collect_value ([], None) a) as H1.
  pose proof (collector_folds include decode_str encode_str input collect_value_vec ([], 0, None) a) as H2.
  pose proof (rewriter_spec (asking include) (keeping collect_value) decode_str encode_str input (a, ([], None))) as [[r1 E1] _].
  pose proof (rewriter_spec (asking include) (keeping collect_value_vec) decode_str encode_str input (a, ([], 0, None))) as [[r2 E2] _].
  split_and!.
  - rewrite E1. destruct r1 as [[? [? [? [?|]]]]|?]; by eexists.
  - rewrite E2. destruct r2 as [[? [? [[? ?] [?|]]]]|?]; by eexists.
  - intros ts Hts. split.
    + pose proof (collect_folds ts [] (N.le_0_l _)) as Hf. fold (joined ts) in Hf. cbn zeta in Hf.
      destruct (proj2 (H1 _) (ex_intro _ ts (conj Hts eq_refl))) as (out & a' & ->). destruct (_ <=? _); [by rewrite Hf|].
      by destruct Hf as [out' ->].
    + pose proof (collect_vec_folds ts [] 0 (Nat.le_0_l _) (N.le_0_l _)) as Hf. cbn [length app] in Hf.
      rewrite Nat.add_0_l, N.add_0_l in Hf.
      destruct (proj2 (H2 _) (ex_intro _ ts (conj Hts eq_refl))) as (out & a' & ->). destruct (_ && _); [by rewrite Hf|].
      by destruct Hf as (out' & n' & ->).
  - intros out. destruct (rewrite_string_values _ _ _ _ _ _) as [[[o [a' [x [e|]]]]|]|] eqn:E; try done. intros [= ->].
    destruct (proj1 (H1 _) (ex_intro _ o (ex_intro _ a' eq_refl))) as (ts & Hts & Hx). exists ts. split; [done|].
    pose proof (collect_folds ts [] (N.le_0_l _)) as Hf. cbn zeta in Hf. rewrite <- Hx in Hf.
    destruct (_ <=? _); [by injection Hf|by destruct Hf].
  - intros ts. destruct (rewrite_string_values (asking include) (keeping collect_value_vec) decode_str encode_str input _) as [[[o [a' [[x n] [e|]]]]|]|] eqn:E; try done. intros [= ->].
    destruct (proj1 (H2 _) (ex_intro _ o (ex_intro _ a' eq_refl))) as (ts' & Hts & Hx).
    pose proof (collect_vec_folds ts' [] 0 (Nat.le_0_l _) (N.le_0_l _)) as Hf. cbn [app] in Hf. rewrite <- Hx in Hf.
    destruct (_ && _); [by injection Hf as -> _|by destruct Hf as (? & ? & ?)].
Qed.

(** ** Witnesses

    [{"a": ["x", 1e3], "b":"yy"}], its strings without escapes, and what masks the
    strings of ["b"]. *)
Definition Q : bytes := [34].
Definition demo_doc (b : bytes) : bytes :=
  lit "{" ++ Q ++ lit "a" ++ Q ++ lit ": [" ++ Q ++ lit "x" ++ Q ++ lit ", 1e3], " ++ Q ++ lit "b" ++ Q ++ lit ":" ++ Q ++ b ++ Q ++ lit "} ".
Definition demo_decode (token : bytes) : option text := from_utf8 (removelast (tail token)).
Definition demo_encode (t : text) : bytes := Q ++ encode t ++ Q.
Definition demo_select (p : list PathSeg) (asked : list (list PathSeg)) : bool * list (list PathSeg) :=
  (existsb (is_key (lit "b")) p, asked ++ [p]).
Definition demo_mask (t : text) (asked : list (list PathSeg)) : option text * list (list PathSeg) :=
  (Some (replicate (length t) 42), asked).

Lemma demo_rewrite :
  rewrite_string_values demo_select demo_mask demo_decode demo_encode (demo_doc (lit "yy")) []
  = Some (ROk (Some (demo_doc (lit "**")), [[Key (lit "a"); Index 0]; [Key (lit "b")]])).
Proof. by vm_compute. Qed.

Lemma rewrite_exact_witness :
  exists w v w', demo_doc (lit "yy") = w ++ olds v ++ w' /\ changed v = true /\ demo_doc (lit "**") = w ++ news v ++ w'.
Proof.
  destruct (proj1 (proj2 (rewrite_exact demo_select demo_mask demo_decode demo_encode (demo_doc (lit "yy")) []) _ _) demo_rewrite)
    as (_ & w & v & w' & _ & _ & Hi & _ & Ho).
  exists w, v, w'. split; [exact Hi|]. destruct (changed v); [|discriminate Ho]. split; [reflexivity|]. by injection Ho.
Defined.

Definition demo_all (p : list PathSeg) (a : unit) : bool * unit := (true, a).
Lemma demo_offers : offers demo_all demo_decode demo_encode (demo_doc (lit "yy")) tt [lit "x"; lit "yy"].
Proof. split; [by eexists|]. exists None, tt. apply rewriter_spec. by vm_compute. Qed.

Lemma collectors_exact_witness :
  collect_string_values_where demo_all demo_decode demo_encode (demo_doc (lit "yy")) tt
    = Some (ROk (lit "x" ++ [10] ++ lit "yy")) /\
  collect_string_values_where_vec demo_all demo_decode demo_encode (demo_doc (lit "yy")) tt = Some (ROk [lit "x"; lit "yy"]).
Proof. exact (proj1 (proj2 (proj2 (collectors_exact demo_all demo_decode demo_encode _ tt))) _ demo_offers). Defined.

(** A document cut short is refused, and one nested too deep. *)
Example demo_refused :
  validate_json demo_decode demo_encode (lit "[1,") = Some (RErr (mkSpliceError 3 Invalid)) /\
  validate_json demo_decode demo_encode (lit "[01]") = Some (RErr (mkSpliceError 1 Invalid)).
Proof. by vm_compute. Qed.
