(* ===== verification/HeldContent.v ===== *)
(** * What held-back output is measured by

    [aisix-proxy/src/held_content.rs]: the two bounds of a hold-back buffer, the
    bytes held back by the process, the ledger that counts the content of a
    Responses stream once however often it is shown, and the split of a stream
    event into what guardrails read and what they do not; [LiveScanBudget] of
    [guardrail_stream.rs].

    A Rust [String] is a [string] of its bytes.  The state of a SHA-256 hasher is the
    text it has absorbed; SHA-256, JSON parsing and printing are arguments. *)

From S2P Require Import Prelude Sort Utf8 Json Sse Guardrail.
From stdpp Require Import pretty.
Local Open Scope N_scope.

Definition str_len (s : string) : N := N.of_nat (String.length s).
Definition len_of (s : option string) : N := from_option str_len 0 s.

(** ** The bounds of a buffer *)

Definition RAW_HOLD_FACTOR : N := 128.
Definition DEFAULT_RAW_HOLD_BYTES : N := DEFAULT_STREAM_OUTPUT_BUFFER_BYTES * RAW_HOLD_FACTOR.

Record HeldBuffer := mkHeld { held_content : N; held_raw : N }.
Definition held_new : HeldBuffer := mkHeld 0 0.
Definition hold (content raw : N) (b : HeldBuffer) : HeldBuffer :=
  mkHeld (sat_add (held_content b) content) (sat_add (held_raw b) raw).
Definition would_exceed_after (content raw max_buffer_bytes : N) (b : HeldBuffer) : bool :=
  (max_buffer_bytes <? sat_add (held_content b) content)
  || (sat_mul max_buffer_bytes RAW_HOLD_FACTOR <? sat_add (held_raw b) raw).
Definition exceeds (max_buffer_bytes : N) (b : HeldBuffer) : bool :=
  (max_buffer_bytes <? held_content b) || (sat_mul max_buffer_bytes RAW_HOLD_FACTOR <? held_raw b).

(** ** Bytes held back by the process

    [HOLDBACK_BYTES] and the shares that make it up, by the buffer that owns each.
    A [usize] wraps. *)
Record Holdback := mkHoldback { HOLDBACK_BYTES : N; shares : gmap nat N }.

Definition share (i : nat) (h : Holdback) : N := default 0 (shares h !! i).
Definition held_bytes_add (i : nat) (n : N) (h : Holdback) : Holdback :=
  mkHoldback (wrap64 (HOLDBACK_BYTES h + n)) (<[i := wrap64 (share i h + n)]> (shares h)).
Definition held_bytes_set (i : nat) (n : N) (h : Holdback) : Holdback :=
  mkHoldback
    (if share i h <=? n then wrap64 (HOLDBACK_BYTES h + (n - share i h))
     else wrap64 (HOLDBACK_BYTES h + (18446744073709551616 - (share i h - n))))
    (<[i := n]> (shares h)).
Definition held_bytes_clear (i : nat) (h : Holdback) : Holdback := held_bytes_set i 0 h.
Definition held_bytes_drop (i : nat) (h : Holdback) : Holdback :=
  let h := held_bytes_clear i h in mkHoldback (HOLDBACK_BYTES h) (delete i (shares h)).

(** ** Values that fit *)

Section values.
Context (json_to_string : json -> string).

Definition json_len (v : json) : N := str_len (json_to_string v).

Record BoundedValues := mkBounded { kept_values : list json; kept_bytes : N; full : bool }.
Definition bounded_new : BoundedValues := mkBounded [] 0 false.
Definition bounded_push (v : json) (cap : N) (b : BoundedValues) : BoundedValues :=
  if full b then b
  else let len := json_len v in
       if cap <? sat_add (kept_bytes b) len then mkBounded (kept_values b) (kept_bytes b) true
       else mkBounded (kept_values b ++ [v]) (kept_bytes b + len) false.
Definition bounded_take (b : BoundedValues) : option (list json) * BoundedValues :=
  (match kept_values b with [] => None | l => Some l end, mkBounded [] 0 (full b)).

(** ** A chat delta *)

Record ChatDelta := mkDelta {
  delta_content : option string;
  delta_tool_calls : option (list json);
  delta_function_call : option json;
  delta_reasoning_content : option string;
  delta_audio : option json;
  delta_extra : list (string * json);
}.

Definition tool_call_args (tc : json) : N :=
  len_of (json_get "function" tc ≫= str_field "arguments") + len_of (json_get "custom" tc ≫= str_field "input").
Definition sum_N (l : list N) : N := foldr N.add 0 l.
Definition chat_delta (d : ChatDelta) : N :=
  len_of (delta_content d) + len_of (delta_reasoning_content d)
  + sum_N (tool_call_args <$> default [] (delta_tool_calls d))
  + len_of (or_else (delta_function_call d) (json_get "function_call" (JObject (delta_extra d))) ≫= str_field "arguments")
  + len_of (delta_audio d ≫= str_field "transcript").

Definition chat_chunk_images_raw (d : ChatDelta) : N :=
  from_option json_len 0 (json_get "images" (JObject (delta_extra d))).
End values.

(** ** The parts of a stream event *)

Record Parts := mkParts { parts_scan : string; parts_reasoning : N }.
Definition parts_new : Parts := mkParts "" 0.
Definition parts_held (p : Parts) : N := str_len (parts_scan p) + parts_reasoning p.
Definition scan_str (v : option json) (p : Parts) : Parts :=
  match v ≫= as_str with Some s => mkParts (parts_scan p +:+ s) (parts_reasoning p) | None => p end.
Definition reasoning_str (v : option json) (p : Parts) : Parts :=
  mkParts (parts_scan p) (parts_reasoning p + len_of (v ≫= as_str)).

Definition one_of (ty : option string) (names : list string) : bool :=
  match ty with Some ty => existsb (String.eqb ty) names | None => false end.

Definition responses_part_parts (part : json) (reasoning : bool) (p : Parts) : Parts :=
  let ty := str_field "type" part in
  if one_of ty ["reasoning_text"; "summary_text"] then reasoning_str (json_get "text" part) p
  else
    let read := if reasoning then reasoning_str else scan_str in
    if one_of ty ["output_text"; "text"; "input_text"] then read (json_get "text" part) p
    else if one_of ty ["refusal"] then read (json_get "refusal" part) p
    else p.

Definition parts_each (f : json -> Parts -> Parts) (l : option (list json)) (p : Parts) : Parts :=
  foldl (fun p v => f v p) p (default [] l).

Definition responses_item_parts (item : json) (p : Parts) : Parts :=
  let ty := str_field "type" item in
  if one_of ty ["reasoning"] then
    parts_each (fun part => responses_part_parts part true) (array_field "summary" item)
      (parts_each (fun part => responses_part_parts part true) (array_field "content" item) p)
  else if one_of ty ["message"] then parts_each (fun part => responses_part_parts part false) (array_field "content" item) p
  else if one_of ty ["function_call"; "mcp_call"] then scan_str (json_get "arguments" item) (scan_str (json_get "name" item) p)
  else if one_of ty ["custom_tool_call"] then scan_str (json_get "input" item) (scan_str (json_get "name" item) p)
  else p.

Definition response_output (event : json) : option (list json) := json_get "response" event ≫= array_field "output".

Definition responses_event_parts (v : json) : Parts :=
  let p := parts_new in
  let ty := str_field "type" v in
  if one_of ty ["response.output_text.delta"; "response.refusal.delta"; "response.function_call_arguments.delta";
                "response.mcp_call_arguments.delta"; "response.custom_tool_call_input.delta"]
  then scan_str (json_get "delta" v) p
  else if one_of ty ["response.output_text.done"] then scan_str (json_get "text" v) p
  else if one_of ty ["response.refusal.done"] then scan_str (json_get "refusal" v) p
  else if one_of ty ["response.function_call_arguments.done"; "response.mcp_call_arguments.done"]
  then scan_str (json_get "arguments" v) (scan_str (json_get "name" v) p)
  else if one_of ty ["response.custom_tool_call_input.done"]
  then scan_str (json_get "input" v) (scan_str (json_get "name" v) p)
  else if one_of ty ["response.content_part.added"; "response.content_part.done"]
  then from_option (fun part => responses_part_parts part false p) p (json_get "part" v)
  else if one_of ty ["response.output_item.added"; "response.output_item.done"]
  then from_option (fun item => responses_item_parts item p) p (json_get "item" v)
  else if one_of ty ["response.completed"; "response.incomplete"; "response.failed"]
  then parts_each responses_item_parts (response_output v) p
  else if one_of ty ["response.reasoning_text.delta"; "response.reasoning_summary_text.delta"]
  then reasoning_str (json_get "delta" v) p
  else if one_of ty ["response.reasoning_text.done"; "response.reasoning_summary_text.done"]
  then reasoning_str (json_get "text" v) p
  else if one_of ty ["response.reasoning_summary_part.added"; "response.reasoning_summary_part.done"]
  then from_option (fun part => responses_part_parts part true p) p (json_get "part" v)
  else p.

Section printed.
Context (json_to_string : json -> string).

Definition carries_input (i : json) : bool :=
  match i with JNull | JObject [] => false | _ => true end.
Definition anthropic_event_parts (v : json) : Parts :=
  let ty := str_field "type" v in
  if one_of ty ["content_block_delta"] then
    let d := json_get "delta" v in
    reasoning_str (d ≫= json_get "thinking") (scan_str (d ≫= json_get "partial_json") (scan_str (d ≫= json_get "text") parts_new))
  else if one_of ty ["content_block_start"] then
    let cb := json_get "content_block" v in
    let p := scan_str (cb ≫= json_get "text") parts_new in
    let p := match cb ≫= json_get "input" with
             | Some input => if carries_input input then mkParts (parts_scan p +:+ json_to_string input) (parts_reasoning p) else p
             | None => p
             end in
    reasoning_str (cb ≫= json_get "thinking") p
  else parts_new.
End printed.

Definition delta_text_parts (delta : json) (p : Parts) : Parts :=
  match json_get "content" delta with
  | Some (JString s) => mkParts (parts_scan p +:+ s) (parts_reasoning p)
  | Some (JArray parts) =>
      foldl (fun p part =>
        let p := scan_str (json_get "text" part) p in
        if one_of (str_field "type" part) ["refusal"] then scan_str (json_get "refusal" part) p else p) p parts
  | _ => p
  end.
Definition delta_parts (delta : json) (p : Parts) : Parts :=
  let p := scan_str (json_get "refusal" delta) (delta_text_parts delta p) in
  let p := parts_each (fun tc p => scan_str (json_get "custom" tc ≫= json_get "input")
                                     (scan_str (json_get "function" tc ≫= json_get "arguments") p))
             (array_field "tool_calls" delta) p in
  let p := scan_str (json_get "function_call" delta ≫= json_get "arguments") p in
  reasoning_str (json_get "reasoning" delta) (reasoning_str (json_get "reasoning_content" delta) p).
Definition chat_chunk_parts (v : json) : Parts :=
  parts_each delta_parts (Some (omap (json_get "delta") (default [] (array_field "choices" v)))) parts_new.
Definition completions_chunk_parts (v : json) : Parts :=
  parts_each (fun c => scan_str (json_get "text" c)) (array_field "choices" v) parts_new.

Definition anthropic_event (json_to_string : json -> string) (v : json) : N := parts_held (anthropic_event_parts json_to_string v).
Definition responses_event (v : json) : N := parts_held (responses_event_parts v).

(** ** The ledger of a Responses stream *)

Inductive ResponsesCarrierMode := Delta | Snapshot.
Definition MAX_RESPONSES_HELD_CARRIERS : nat := 1024.
Definition MAX_RESPONSES_HELD_ID_BYTES : N := 512.

Record ResponsesHeldCarrier := mkCarrier { carrier_bytes : N; absorbed : string }.
Record ResponsesHeldContent := mkLedger { carriers : gmap string ResponsesHeldCarrier; saturated : bool }.
Definition ledger_new : ResponsesHeldContent := mkLedger ∅ false.

(** [str::is_char_boundary] and [str::get] of a range from or to [n]. *)
Definition is_char_boundary (s : string) (n : nat) : bool :=
  match n with
  | O => true
  | _ => if (n =? String.length s)%nat then true else match lit s !! n with Some b => negb (is_cont b) | None => false end
  end.
Fixpoint str_take (n : nat) (s : string) : string :=
  match n, s with S n, String a s => String a (str_take n s) | _, _ => "" end.
Fixpoint str_drop (n : nat) (s : string) : string :=
  match n, s with S n, String _ s => str_drop n s | _, _ => s end.
Definition str_get_to (n : N) (s : string) : option string :=
  if (n <=? str_len s) && is_char_boundary s (N.to_nat n) then Some (str_take (N.to_nat n) s) else None.

Definition response_base (item_id : option string) (output_index : option N) : option string :=
  id ← item_id;
  index ← output_index;
  if negb (String.eqb id "") && (str_len id <=? MAX_RESPONSES_HELD_ID_BYTES)
  then Some (pretty (str_len id) +:+ ":" +:+ id +:+ ":" +:+ pretty index)
  else None.
Definition response_event_base (event : json) : option string :=
  response_base (str_field "item_id" event) (u64_field "output_index" event).
Definition response_item_base (event item : json) : option string :=
  item_id ← str_field "id" item;
  if from_option (fun top => negb (String.eqb top item_id)) false (str_field "item_id" event) then None
  else response_base (Some item_id) (u64_field "output_index" event).
Definition response_item_base_at (item : json) (output_index : nat) : option string :=
  response_base (str_field "id" item) (Some (N.of_nat output_index)).

Definition responses_part_text (part : json) : option (string * string) :=
  let ty := str_field "type" part in
  if one_of ty ["output_text"; "text"; "input_text"] then pair "text" <$> str_field "text" part
  else if one_of ty ["refusal"] then pair "refusal" <$> str_field "refusal" part
  else None.

Section ledger.
Context (sha256 : bytes -> bytes).

Definition digest (s : string) : bytes := sha256 (lit s).
Definition set_carrier (key : string) (c : ResponsesHeldCarrier) (l : ResponsesHeldContent) : ResponsesHeldContent :=
  mkLedger (<[key := c]> (carriers l)) (saturated l).

Definition first_carrier (key text : string) (l : ResponsesHeldContent) : N * ResponsesHeldContent :=
  if (MAX_RESPONSES_HELD_CARRIERS <=? size (carriers l))%nat
  then (str_len text, mkLedger (carriers l) true)
  else (str_len text, set_carrier key (mkCarrier (str_len text) text) l).

Definition snapshot_carrier (key text : string) (previous : ResponsesHeldCarrier) (l : ResponsesHeldContent)
    : N * ResponsesHeldContent :=
  if (str_len text =? carrier_bytes previous) && bool_decide (digest text = digest (absorbed previous)) then (0, l)
  else
    match str_get_to (carrier_bytes previous) text with
    | Some prefix =>
        if bool_decide (digest prefix = digest (absorbed previous)) then
          let suffix := str_drop (N.to_nat (carrier_bytes previous)) text in
          (str_len suffix, set_carrier key (mkCarrier (str_len text) (absorbed previous +:+ suffix)) l)
        else (str_len text, set_carrier key (mkCarrier (str_len text) text) l)
    | None => (str_len text, set_carrier key (mkCarrier (str_len text) text) l)
    end.

Definition observe_text (key text : option string) (mode : ResponsesCarrierMode) (l : ResponsesHeldContent)
    : N * ResponsesHeldContent :=
  match text with
  | None | Some EmptyString => (0, l)
  | Some text =>
      match key with
      | None => (str_len text, l)
      | Some key =>
          match carriers l !! key, mode with
          | None, _ => first_carrier key text l
          | Some c, Delta =>
              (str_len text, set_carrier key (mkCarrier (sat_add (carrier_bytes c) (str_len text)) (absorbed c +:+ text)) l)
          | Some c, Snapshot => snapshot_carrier key text c l
          end
      end
  end.

Abbreviation Charge := (ResponsesHeldContent -> N * ResponsesHeldContent).
Definition no_charge : Charge := fun l => (0, l).
Definition and_then (f g : Charge) : Charge := fun l => let '(a, l) := f l in let '(b, l) := g l in (a + b, l).
Definition charge_each (l : list Charge) : Charge := foldr and_then no_charge l.

Definition at_ (base : option string) (suffix : string) : option string := (fun b => b +:+ suffix) <$> base.

Definition observe_event_content (event : json) (field : string) (text : option string) (mode : ResponsesCarrierMode) : Charge :=
  observe_text (base ← response_event_base event;
                index ← u64_field "content_index" event;
                Some (base +:+ "/content/" +:+ pretty index +:+ "/" +:+ field)) text mode.
Definition observe_event_tool (event : json) (tool_type field : string) (text : option string) (mode : ResponsesCarrierMode) : Charge :=
  observe_text (at_ (response_event_base event) ("/tool/" +:+ tool_type +:+ "/" +:+ field)) text mode.
Definition observe_event_reasoning (event : json) (group : string) (index : option N) (text : option string)
    (mode : ResponsesCarrierMode) : Charge :=
  observe_text (base ← response_event_base event; index ← index;
                Some (base +:+ "/reasoning/" +:+ group +:+ "/" +:+ pretty index)) text mode.
Definition observe_event_part (event part : json) (mode : ResponsesCarrierMode) : Charge :=
  let ty := str_field "type" part in
  if one_of ty ["reasoning_text"] then
    observe_event_reasoning event "content" (u64_field "content_index" event) (str_field "text" part) mode
  else if one_of ty ["summary_text"] then
    observe_event_reasoning event "summary" (u64_field "summary_index" event) (str_field "text" part) mode
  else match responses_part_text part with
       | None => no_charge
       | Some (field, text) => observe_event_content event field (Some text) mode
       end.

Definition observe_message_part (base : option string) (mode : ResponsesCarrierMode) (index : nat) (part : json) : Charge :=
  match responses_part_text part with
  | None => no_charge
  | Some (field, text) => observe_text (at_ base ("/content/" +:+ pretty (N.of_nat index) +:+ "/" +:+ field)) (Some text) mode
  end.
Definition observe_reasoning_part (base : option string) (mode : ResponsesCarrierMode) (group : string) (index : nat) (part : json)
    : Charge :=
  observe_text (at_ base ("/reasoning/" +:+ group +:+ "/" +:+ pretty (N.of_nat index))) (str_field "text" part) mode.

Definition observe_item (item : json) (base : option string) (mode : ResponsesCarrierMode) : Charge :=
  let ty := str_field "type" item in
  if one_of ty ["message"] then
    charge_each (imap (observe_message_part base mode) (default [] (array_field "content" item)))
  else if one_of ty ["reasoning"] then
    and_then (charge_each (imap (observe_reasoning_part base mode "content") (default [] (array_field "content" item))))
         (charge_each (imap (observe_reasoning_part base mode "summary") (default [] (array_field "summary" item))))
  else if one_of ty ["function_call"; "mcp_call"] then
    let tool_type := default "" ty in
    and_then (observe_text (at_ base ("/tool/" +:+ tool_type +:+ "/name")) (str_field "name" item) mode)
         (observe_text (at_ base ("/tool/" +:+ tool_type +:+ "/arguments")) (str_field "arguments" item) mode)
  else if one_of ty ["custom_tool_call"] then
    and_then (observe_text (at_ base "/tool/custom_tool_call/name") (str_field "name" item) mode)
         (observe_text (at_ base "/tool/custom_tool_call/input") (str_field "input" item) mode)
  else no_charge.

Definition observe_event_inner (event : json) : Charge :=
  let ty := str_field "type" event in
  let delta := str_field "delta" event in
  if one_of ty ["response.output_text.delta"] then observe_event_content event "text" delta Delta
  else if one_of ty ["response.refusal.delta"] then observe_event_content event "refusal" delta Delta
  else if one_of ty ["response.output_text.done"] then observe_event_content event "text" (str_field "text" event) Snapshot
  else if one_of ty ["response.refusal.done"] then observe_event_content event "refusal" (str_field "refusal" event) Snapshot
  else if one_of ty ["response.function_call_arguments.delta"] then observe_event_tool event "function_call" "arguments" delta Delta
  else if one_of ty ["response.mcp_call_arguments.delta"] then observe_event_tool event "mcp_call" "arguments" delta Delta
  else if one_of ty ["response.custom_tool_call_input.delta"] then observe_event_tool event "custom_tool_call" "input" delta Delta
  else if one_of ty ["response.function_call_arguments.done"] then
    and_then (observe_event_tool event "function_call" "name" (str_field "name" event) Snapshot)
         (observe_event_tool event "function_call" "arguments" (str_field "arguments" event) Snapshot)
  else if one_of ty ["response.mcp_call_arguments.done"] then
    and_then (observe_event_tool event "mcp_call" "name" (str_field "name" event) Snapshot)
         (observe_event_tool event "mcp_call" "arguments" (str_field "arguments" event) Snapshot)
  else if one_of ty ["response.custom_tool_call_input.done"] then
    and_then (observe_event_tool event "custom_tool_call" "name" (str_field "name" event) Snapshot)
         (observe_event_tool event "custom_tool_call" "input" (str_field "input" event) Snapshot)
  else if one_of ty ["response.content_part.added"; "response.content_part.done"] then
    from_option (fun part => observe_event_part event part Snapshot) no_charge (json_get "part" event)
  else if one_of ty ["response.output_item.added"; "response.output_item.done"] then
    from_option (fun item => observe_item item (response_item_base event item) Snapshot) no_charge (json_get "item" event)
  else if one_of ty ["response.completed"; "response.incomplete"; "response.failed"] then
    charge_each (imap (fun index item => observe_item item (response_item_base_at item index) Snapshot)
                   (default [] (response_output event)))
  else if one_of ty ["response.reasoning_text.delta"] then
    observe_event_reasoning event "content" (u64_field "content_index" event) delta Delta
  else if one_of ty ["response.reasoning_summary_text.delta"] then
    observe_event_reasoning event "summary" (u64_field "summary_index" event) delta Delta
  else if one_of ty ["response.reasoning_text.done"] then
    observe_event_reasoning event "content" (u64_field "content_index" event) (str_field "text" event) Snapshot
  else if one_of ty ["response.reasoning_summary_text.done"] then
    observe_event_reasoning event "summary" (u64_field "summary_index" event) (str_field "text" event) Snapshot
  else if one_of ty ["response.reasoning_summary_part.added"; "response.reasoning_summary_part.done"] then
    match json_get "part" event ≫= str_field "text" with
    | Some text => observe_event_reasoning event "summary" (u64_field "summary_index" event) (Some text) Snapshot
    | None => no_charge
    end
  else no_charge.

(** [None]: the caller counts the event with [responses_event]. *)
Definition observe_event (event : json) (l : ResponsesHeldContent) : option N * ResponsesHeldContent :=
  if saturated l then (None, l)
  else let '(held, l) := observe_event_inner event l in (if saturated l then None else Some held, l).

(** ** Frames *)

Context (from_str : text -> option json).

(** [redact::frame_payload] *)
Definition frame_payload (frame : bytes) : option text :=
  match (fun r => from_utf8_lossy (take (r.2 - r.1) (drop r.1 frame))) <$> data_ranges frame with
  | [] => None
  | first :: rest => Some (first ++ (rest ≫= fun p => 10 :: p))
  end.

(** [redact::sse_frame_payloads], with the length of the input as fuel. *)
Fixpoint sse_frame_payloads_from (fuel : nat) (rest : bytes) : list text :=
  match fuel, split_frame_end rest with
  | S fuel, Some (content_end, frame_end) =>
      option_list (frame_payload (take content_end rest)) ++ sse_frame_payloads_from fuel (drop frame_end rest)
  | _, _ => option_list (frame_payload rest)
  end.
Definition sse_frame_payloads (raw : bytes) : list text := sse_frame_payloads_from (length raw) raw.

Definition is_done (payload : text) : bool := bool_decide (payload = []) || bool_decide (payload = lit "[DONE]").

Definition sse_frames (frames : bytes) (per_event : json -> N) : N :=
  sum_N ((fun payload =>
    let p := trim payload in
    if is_done p then 0
    else match from_str p with
         | Some v => per_event v
         | None => N.of_nat (length (encode p))
         end) <$> sse_frame_payloads frames).

Definition held_payload (payload : text) (l : ResponsesHeldContent) : N * ResponsesHeldContent :=
  let p := trim payload in
  if is_done p then (0, l)
  else match from_str p with
       | Some event => let '(held, l) := observe_event event l in (default (responses_event event) held, l)
       | None => (N.of_nat (length (encode p)), l)
       end.
Definition responses_sse_held_frames (frames : bytes) : Charge := charge_each (held_payload <$> sse_frame_payloads frames).

Definition observe_sse_frame (frame : bytes) (l : ResponsesHeldContent) : option N * ResponsesHeldContent :=
  if saturated l then (None, l)
  else match frame_payload frame with
       | None => (None, l)
       | Some payload =>
           let p := trim payload in
           if is_done p then (Some 0, l)
           else match from_str p with Some event => observe_event event l | None => (None, l) end
       end.
End ledger.

(** ** What a live stream keeps for its scan *)

Definition live_scan_cap (chain : Guardrail) : N := sat_mul (output_buffer_bytes chain) RAW_HOLD_FACTOR.

(** [bypasses] are the calls of [record_output_bypass], in order. *)
Record LiveScanBudget := mkBudget { budget_chain : Guardrail; remaining : N; outgrown : bool; bypasses : list string }.
Definition TAG_OUTPUT_BUFFER_EXCEEDED : string := "output_buffer_exceeded".
Definition budget_new (chain : Guardrail) : LiveScanBudget := mkBudget chain (live_scan_cap chain) false [].
Definition budget_cap (b : LiveScanBudget) : N := live_scan_cap (budget_chain b).
Definition note_outgrown (b : LiveScanBudget) : LiveScanBudget :=
  if outgrown b then b
  else mkBudget (budget_chain b) (remaining b) true (bypasses b ++ [TAG_OUTPUT_BUFFER_EXCEEDED]).
Fixpoint floor_boundary (s : string) (cut : nat) : nat :=
  if is_char_boundary s cut then cut else match cut with O => O | S cut => floor_boundary s cut end.
Definition admit_text (s : string) (b : LiveScanBudget) : string * LiveScanBudget :=
  if str_len s <=? remaining b
  then (s, mkBudget (budget_chain b) (remaining b - str_len s) (outgrown b) (bypasses b))
  else (str_take (floor_boundary s (N.to_nat (remaining b))) s,
        note_outgrown (mkBudget (budget_chain b) 0 (outgrown b) (bypasses b))).
Definition admit_whole (len : N) (b : LiveScanBudget) : bool * LiveScanBudget :=
  if len <=? remaining b
  then (true, mkBudget (budget_chain b) (remaining b - len) (outgrown b) (bypasses b))
  else (false, note_outgrown (mkBudget (budget_chain b) 0 (outgrown b) (bypasses b))).

(** ** The process counter *)

Inductive held_op := HAdd (i : nat) (n : N) | HSet (i : nat) (n : N) | HClear (i : nat) | HDrop (i : nat).
Definition held_exec (h : Holdback) (op : held_op) : Holdback :=
  match op with
  | HAdd i n => held_bytes_add i n h
  | HSet i n => held_bytes_set i n h
  | HClear i => held_bytes_clear i h
  | HDrop i => held_bytes_drop i h
  end.
Definition holdback_new : Holdback := mkHoldback 0 ∅.

(** The counter is the sum of the shares, up to a wrap. *)
Definition accounted (h : Holdback) : Prop :=
  HOLDBACK_BYTES h = wrap64 (map_sum id (shares h)) /\ map_Forall (fun _ n => n < 18446744073709551616) (shares h).

Lemma share_sum i n h : map_sum id (<[i := n]> (shares h)) + share i h = n + map_sum id (shares h).
Proof.
  pose proof (map_sum_update id i n (shares h)) as Hu. change (id n) with n in Hu. rewrite <- Hu. unfold share.
  by destruct (shares h !! i).
Qed.

Lemma wrap64_eq a b : (exists q q', a + q * 18446744073709551616 = b + q' * 18446744073709551616) -> wrap64 a = wrap64 b.
Proof.
  intros (q & q' & Heq). unfold wrap64.
  rewrite <- (N.Div0.mod_add a q), <- (N.Div0.mod_add b q'). by f_equal.
Qed.

Lemma set_share_accounted i n h :
  accounted h -> n < 18446744073709551616 -> accounted (held_bytes_set i n h).
Proof.
  intros [Hc Hs] Hn. split; [|by apply map_Forall_insert_2].
  pose proof (share_sum i n h) as Hsum. assert (share i h < 18446744073709551616) as Hi.
  { unfold share. destruct (shares h !! i) eqn:E; [by apply (Hs i)|done]. }
  cbn [HOLDBACK_BYTES held_bytes_set shares]. rewrite Hc. unfold wrap64 at 2 4.
  pose proof (N.div_mod (map_sum id (shares h)) 18446744073709551616 ltac:(lia)) as Hd.
  destruct (N.leb_spec (share i h) n); apply wrap64_eq.
  - exists (map_sum id (shares h) / 18446744073709551616), 0. lia.
  - exists (map_sum id (shares h) / 18446744073709551616), 1. lia.
Qed.

Lemma held_exec_accounted h op : accounted h -> (forall i n, op = HSet i n -> n < 18446744073709551616) -> accounted (held_exec h op).
Proof.
  intros [Hc Hs] Hop. destruct op as [i n|i n|i|i]; cbn [held_exec].
  - split; [|apply map_Forall_insert_2; [apply N.mod_lt; lia|done]].
    cbn [HOLDBACK_BYTES held_bytes_add shares]. rewrite Hc. pose proof (share_sum i (wrap64 (share i h + n)) h) as Hsum.
    unfold wrap64 in *. pose proof (N.div_mod (share i h + n) 18446744073709551616 ltac:(lia)).
    pose proof (N.div_mod (map_sum id (shares h)) 18446744073709551616 ltac:(lia)). apply wrap64_eq.
    exists (map_sum id (shares h) / 18446744073709551616), ((share i h + n) / 18446744073709551616). lia.
  - apply set_share_accounted; [done|by eapply Hop].
  - by apply set_share_accounted.
  - destruct (set_share_accounted i 0 h) as [Hc' Hs']; [done|lia|]. split; [|by apply map_Forall_delete].
    cbn [HOLDBACK_BYTES held_bytes_drop shares]. unfold held_bytes_clear. rewrite Hc'. f_equal.
    cbn [shares held_bytes_set]. rewrite (map_sum_delete id i). by rewrite lookup_insert_eq.
Qed.


(** ** The ledger, by the texts it stands for *)

Lemma str_len_app s t : str_len (s +:+ t) = str_len s + str_len t.
Proof. unfold str_len. induction s as [|a s IH]; [done|].
  change (String a s +:+ t) with (String a (s +:+ t)). cbn [String.length]. lia.
Qed.
Lemma str_len_pos s : s <> "" -> 0 < str_len s.
Proof. destruct s; [done|]. unfold str_len. cbn. lia. Qed.
Lemma str_take_drop n s : str_take n s +:+ str_drop n s = s.
Proof. revert s. induction n as [|n IH]; intros [|a s]; try done. apply (f_equal (String a)), IH. Qed.
Lemma str_take_all s : str_take (String.length s) s = s.
Proof. induction s as [|a s IH]; [done|]. apply (f_equal (String a)), IH. Qed.
Lemma str_take_len n s : (n <= String.length s)%nat -> String.length (str_take n s) = n.
Proof. revert s. induction n as [|n IH]; intros [|a s] Hle; cbn in *; [done..|lia|]. f_equal. apply IH. lia. Qed.
Lemma str_get_to_some n s p : str_get_to n s = Some p -> str_len p = n /\ s = p +:+ str_drop (N.to_nat n) s.
Proof.
  unfold str_get_to. destruct (N.leb_spec n (str_len s)) as [Hle|]; [|done]. destruct (is_char_boundary _ _); [|done].
  intros [= <-]. split; [|by rewrite str_take_drop]. unfold str_len in *. rewrite str_take_len; lia.
Qed.

Definition carrier : Type := option string * option string * ResponsesCarrierMode.

(** What the stream has shown: the text of every identified carrier, the bytes a
    snapshot took the place of, and the bytes no carrier identifies. *)
Record Shown := mkShown { texts : gmap string string; replaced : N; anonymous : N }.
Definition shown_new : Shown := mkShown ∅ 0 0.
Definition shown_total (s : Shown) : N := map_sum str_len (texts s) + replaced s + anonymous s.
Definition extends (t seen : string) : bool := bool_decide (str_get_to (str_len seen) t = Some seen).

Definition show (c : carrier) (s : Shown) : Shown :=
  let '(key, text, mode) := c in
  match text with
  | None | Some EmptyString => s
  | Some t =>
      match key with
      | None => mkShown (texts s) (replaced s) (anonymous s + str_len t)
      | Some k =>
          match texts s !! k, mode with
          | None, _ => mkShown (<[k := t]> (texts s)) (replaced s) (anonymous s)
          | Some seen, Delta => mkShown (<[k := seen +:+ t]> (texts s)) (replaced s) (anonymous s)
          | Some seen, Snapshot =>
              mkShown (<[k := t]> (texts s)) (if extends t seen then replaced s else replaced s + str_len seen) (anonymous s)
          end
      end
  end.
Definition show_all (cs : list carrier) (s : Shown) : Shown := foldl (fun s c => show c s) s cs.

Section shown.
Context (sha256 : bytes -> bytes).
Implicit Types (l : ResponsesHeldContent) (s : Shown) (c : carrier).

(** A text fits the counter, and a snapshot does not collide with what it repeats. *)
Definition clean (c : carrier) (s : Shown) : Prop :=
  match c with
  | (Some k, Some t, mode) =>
      match texts s !! k, mode with
      | Some seen, Delta => str_len seen + str_len t <= u64_max
      | Some seen, Snapshot =>
          (digest sha256 t = digest sha256 seen -> t = seen) /\
          (forall p, str_get_to (str_len seen) t = Some p -> digest sha256 p = digest sha256 seen -> p = seen)
      | None, _ => True
      end
  | _ => True
  end.
Fixpoint clean_all (cs : list carrier) (s : Shown) : Prop :=
  match cs with [] => True | c :: cs => clean c s /\ clean_all cs (show c s) end.

Definition carrier_of (t : string) : ResponsesHeldCarrier := mkCarrier (str_len t) t.
Definition stands_for l s : Prop := carriers l = carrier_of <$> texts s.

Lemma stands_for_lookup l s k : stands_for l s -> carriers l !! k = carrier_of <$> texts s !! k.
Proof. intros ->. apply lookup_fmap. Qed.
Lemma stands_for_set l s k t r a : stands_for l s -> stands_for (set_carrier k (carrier_of t) l) (mkShown (<[k := t]> (texts s)) r a).
Proof. unfold stands_for. intros H. cbn. by rewrite H, fmap_insert. Qed.
Lemma set_total s k t r a :
  shown_total (mkShown (<[k := t]> (texts s)) r a) + len_of (texts s !! k) + replaced s + anonymous s
  = shown_total s + str_len t + r + a.
Proof. unfold shown_total, len_of. cbn. pose proof (map_sum_update str_len k t (texts s)). destruct (texts s !! k); cbn in *; lia. Qed.

Lemma snapshot_carrier_shows k t seen l s :
  stands_for l s -> texts s !! k = Some seen -> clean (Some k, Some t, Snapshot) s ->
  let '(n, l') := snapshot_carrier sha256 k t (carrier_of seen) l in
  let s' := mkShown (<[k := t]> (texts s)) (if extends t seen then replaced s else replaced s + str_len seen) (anonymous s) in
  stands_for l' s' /\ saturated l' = saturated l /\ shown_total s' = shown_total s + n.
Proof.
  intros Hl Hk Hclean. unfold clean in Hclean. rewrite Hk in Hclean. destruct Hclean as [Hsame Hpre].
  pose proof (set_total s k t (replaced s) (anonymous s)) as Htot1.
  pose proof (set_total s k t (replaced s + str_len seen) (anonymous s)) as Htot2.
  rewrite Hk in Htot1, Htot2. cbn [len_of from_option] in Htot1, Htot2.
  unfold snapshot_carrier. cbn [carrier_bytes absorbed carrier_of].
  destruct ((str_len t =? str_len seen) && bool_decide (digest sha256 t = digest sha256 seen)) eqn:E.
  { apply andb_true_iff in E as [_ E%bool_decide_eq_true]. apply Hsame in E as ->.
    unfold extends. rewrite bool_decide_true.
    - rewrite (insert_id _ _ _ Hk) in *. split; [exact Hl|]. split; [done|]. cbn. lia.
    - unfold str_get_to. rewrite N.leb_refl. unfold str_len. rewrite Nat2N.id. unfold is_char_boundary.
      rewrite str_take_all.
      destruct (String.length seen) eqn:El; [done|]. by rewrite Nat.eqb_refl. }
  clear E. unfold extends. destruct (str_get_to (str_len seen) t) as [p|] eqn:Ep.
  - destruct (str_get_to_some _ _ _ Ep) as [Hlen Heq]. case_bool_decide as Ed.
    + apply Hpre in Ed as ->; [|done]. rewrite bool_decide_true by done. pose proof (str_len_app seen (str_drop (N.to_nat (str_len seen)) t)).
      rewrite <- Heq in *. split; [by apply stands_for_set|]. split; [done|]. lia.
    + rewrite bool_decide_false by (intros [= ->]; by destruct Ed). split; [by apply stands_for_set|]. split; [done|]. lia.
  - rewrite bool_decide_false by done. split; [by apply stands_for_set|]. split; [done|]. lia.
Qed.

Lemma observe_text_shows k t mode l s :
  stands_for l s -> clean (k, t, mode) s ->
  let '(n, l') := observe_text sha256 k t mode l in
  saturated l' = false ->
  stands_for l' (show (k, t, mode) s) /\ saturated l = false /\ shown_total (show (k, t, mode) s) = shown_total s + n.
Proof.
  intros Hl Hclean. unfold observe_text, show. destruct t as [[|a t]|]; [intros ?; split_and!; [done..|lia]| |intros ?; split_and!; [done..|lia]].
  set (t' := String a t) in *. destruct k as [k|]; [|intros ?; split_and!; [done..|unfold shown_total; cbn; lia]].
  rewrite (stands_for_lookup l s k Hl). destruct (texts s !! k) as [seen|] eqn:Hk; cbn [fmap option_fmap option_map].
  - destruct mode.
    + intros Hs. unfold clean in Hclean. rewrite Hk in Hclean. cbn [carrier_bytes absorbed carrier_of].
      replace (sat_add (str_len seen) (str_len t')) with (str_len (seen +:+ t')) by (rewrite str_len_app; unfold sat_add; lia).
      split; [by apply (stands_for_set l s k (seen +:+ t'))|]. split; [done|].
      pose proof (set_total s k (seen +:+ t') (replaced s) (anonymous s)) as H. rewrite Hk in H. cbn in H. rewrite str_len_app in *. lia.
    + pose proof (snapshot_carrier_shows k t' seen l s Hl Hk Hclean) as H. destruct (snapshot_carrier sha256 k t' (carrier_of seen) l) as [n l'].
      destruct H as (? & <- & ?). done.
  - unfold first_carrier. destruct (_ <=? _)%nat; [done|]. intros Hs. split; [by apply stands_for_set|]. split; [done|].
    pose proof (set_total s k t' (replaced s) (anonymous s)) as H. rewrite Hk in H. cbn in H. lia.
Qed.

(** *** The carriers of an event *)

Definition content_carrier (event : json) (field : string) (text : option string) (mode : ResponsesCarrierMode) : carrier :=
  (base ← response_event_base event; index ← u64_field "content_index" event;
   Some (base +:+ "/content/" +:+ pretty index +:+ "/" +:+ field), text, mode).
Definition tool_carrier (event : json) (tool_type field : string) (text : option string) (mode : ResponsesCarrierMode) : carrier :=
  (at_ (response_event_base event) ("/tool/" +:+ tool_type +:+ "/" +:+ field), text, mode).
Definition reasoning_carrier (event : json) (group : string) (index : option N) (text : option string) (mode : ResponsesCarrierMode)
    : carrier :=
  (base ← response_event_base event; index ← index; Some (base +:+ "/reasoning/" +:+ group +:+ "/" +:+ pretty index), text, mode).
Definition part_carriers (event part : json) (mode : ResponsesCarrierMode) : list carrier :=
  let ty := str_field "type" part in
  if one_of ty ["reasoning_text"] then
    [reasoning_carrier event "content" (u64_field "content_index" event) (str_field "text" part) mode]
  else if one_of ty ["summary_text"] then
    [reasoning_carrier event "summary" (u64_field "summary_index" event) (str_field "text" part) mode]
  else option_list ((fun ft : string * string => content_carrier event ft.1 (Some ft.2) mode) <$> responses_part_text part).

Definition message_carriers (base : option string) (mode : ResponsesCarrierMode) (index : nat) (part : json) : list carrier :=
  option_list ((fun ft : string * string =>
    (at_ base ("/content/" +:+ pretty (N.of_nat index) +:+ "/" +:+ ft.1), Some ft.2, mode)) <$> responses_part_text part).
Definition item_carriers (item : json) (base : option string) (mode : ResponsesCarrierMode) : list carrier :=
  let ty := str_field "type" item in
  let parts key := default [] (array_field key item) in
  let thought group := imap (fun index part =>
    (at_ base ("/reasoning/" +:+ group +:+ "/" +:+ pretty (N.of_nat index)), str_field "text" part, mode)) (parts group) in
  let tool name field := (at_ base ("/tool/" +:+ name +:+ "/" +:+ field), str_field field item, mode) in
  if one_of ty ["message"] then concat (imap (message_carriers base mode) (parts "content"))
  else if one_of ty ["reasoning"] then thought "content" ++ thought "summary"
  else if one_of ty ["function_call"; "mcp_call"] then [tool (default "" ty) "name"; tool (default "" ty) "arguments"]
  else if one_of ty ["custom_tool_call"] then [tool "custom_tool_call" "name"; tool "custom_tool_call" "input"]
  else [].

(** The texts an event of the Responses stream shows, and where. *)
Definition event_carriers (event : json) : list carrier :=
  let of_type names := one_of (str_field "type" event) names in
  let field name := str_field name event in
  let content_index := u64_field "content_index" event in
  let summary_index := u64_field "summary_index" event in
  let tool_done name f := [tool_carrier event name "name" (field "name") Snapshot; tool_carrier event name f (field f) Snapshot] in
  if of_type ["response.output_text.delta"] then [content_carrier event "text" (field "delta") Delta]
  else if of_type ["response.refusal.delta"] then [content_carrier event "refusal" (field "delta") Delta]
  else if of_type ["response.output_text.done"] then [content_carrier event "text" (field "text") Snapshot]
  else if of_type ["response.refusal.done"] then [content_carrier event "refusal" (field "refusal") Snapshot]
  else if of_type ["response.function_call_arguments.delta"] then [tool_carrier event "function_call" "arguments" (field "delta") Delta]
  else if of_type ["response.mcp_call_arguments.delta"] then [tool_carrier event "mcp_call" "arguments" (field "delta") Delta]
  else if of_type ["response.custom_tool_call_input.delta"] then [tool_carrier event "custom_tool_call" "input" (field "delta") Delta]
  else if of_type ["response.function_call_arguments.done"] then tool_done "function_call" "arguments"
  else if of_type ["response.mcp_call_arguments.done"] then tool_done "mcp_call" "arguments"
  else if of_type ["response.custom_tool_call_input.done"] then tool_done "custom_tool_call" "input"
  else if of_type ["response.content_part.added"; "response.content_part.done"] then
    from_option (fun part => part_carriers event part Snapshot) [] (json_get "part" event)
  else if of_type ["response.output_item.added"; "response.output_item.done"] then
    from_option (fun item => item_carriers item (response_item_base event item) Snapshot) [] (json_get "item" event)
  else if of_type ["response.completed"; "response.incomplete"; "response.failed"] then
    concat (imap (fun index item => item_carriers item (response_item_base_at item index) Snapshot)
      (default [] (response_output event)))
  else if of_type ["response.reasoning_text.delta"] then [reasoning_carrier event "content" content_index (field "delta") Delta]
  else if of_type ["response.reasoning_summary_text.delta"] then [reasoning_carrier event "summary" summary_index (field "delta") Delta]
  else if of_type ["response.reasoning_text.done"] then [reasoning_carrier event "content" content_index (field "text") Snapshot]
  else if of_type ["response.reasoning_summary_text.done"] then [reasoning_carrier event "summary" summary_index (field "text") Snapshot]
  else if of_type ["response.reasoning_summary_part.added"; "response.reasoning_summary_part.done"] then
    option_list ((fun t => reasoning_carrier event "summary" summary_index (Some t) Snapshot)
      <$> (json_get "part" event ≫= str_field "text"))
  else [].

Definition observe_carrier (c : carrier) : ResponsesHeldContent -> N * ResponsesHeldContent :=
  observe_text sha256 c.1.1 c.1.2 c.2.
Definition observe_all (cs : list carrier) : ResponsesHeldContent -> N * ResponsesHeldContent := charge_each (observe_carrier <$> cs).

(** A charge is the charge of a list of carriers. *)
Definition charges (f : ResponsesHeldContent -> N * ResponsesHeldContent) (cs : list carrier) : Prop := forall l, f l = observe_all cs l.

Lemma charge_each_app fs gs l : charge_each (fs ++ gs) l = and_then (charge_each fs) (charge_each gs) l.
Proof.
  unfold charge_each. revert l. induction fs as [|f fs IH]; intros l; cbn [app foldr].
  - unfold and_then at 2. cbv beta delta [no_charge] iota. by destruct (foldr _ _ gs l).
  - unfold and_then at 1 3 4. destruct (f l) as [a l']. rewrite IH. unfold and_then at 1.
    destruct (foldr and_then no_charge fs l') as [b l'']. destruct (foldr and_then no_charge gs l'') as [d l3].
    by rewrite N.add_assoc.
Qed.

Lemma charges_none : charges no_charge [].
Proof. done. Qed.
Lemma charges_one c : charges (observe_carrier c) [c].
Proof. intros l. unfold observe_all, charge_each, and_then, no_charge. cbn. destruct (observe_carrier c l). by rewrite N.add_0_r. Qed.
Lemma charges_then f g cs ds : charges f cs -> charges g ds -> charges (and_then f g) (cs ++ ds).
Proof.
  intros Hf Hg l. unfold observe_all. rewrite fmap_app, charge_each_app. unfold and_then. rewrite Hf. unfold observe_all.
  destruct (charge_each (observe_carrier <$> cs) l) as [a l']. by rewrite Hg.
Qed.
Lemma charges_each {A} (F : nat -> A -> ResponsesHeldContent -> N * ResponsesHeldContent) (G : nat -> A -> list carrier) xs :
  (forall i x, charges (F i x) (G i x)) -> charges (charge_each (imap F xs)) (concat (imap G xs)).
Proof.
  intros H. revert F G H. induction xs as [|x xs IH]; intros F G H; [apply charges_none|].
  cbn [imap concat]. apply (charges_then (F 0%nat x)); [done|]. apply (IH (fun i => F (S i)) (fun i => G (S i))). intros. apply H.
Qed.
Lemma charges_imap {A} (F : nat -> A -> ResponsesHeldContent -> N * ResponsesHeldContent) (G : nat -> A -> carrier) xs :
  (forall i x, charges (F i x) [G i x]) -> charges (charge_each (imap F xs)) (imap G xs).
Proof.
  intros H. revert F G H. induction xs as [|x xs IH]; intros F G H; [apply charges_none|].
  cbn [imap]. apply (charges_then (F 0%nat x) _ [_]); [done|]. apply (IH (fun i => F (S i)) (fun i => G (S i))). intros. apply H.
Qed.
Lemma charges_option {A} (o : option A) (F : A -> ResponsesHeldContent -> N * ResponsesHeldContent) (G : A -> carrier) :
  (forall x, charges (F x) [G x]) -> charges (match o with Some x => F x | None => no_charge end) (option_list (G <$> o)).
Proof. intros H. destruct o as [x|]; [apply H|apply charges_none]. Qed.

Lemma message_charges base mode index part :
  charges (observe_message_part sha256 base mode index part) (message_carriers base mode index part).
Proof.
  unfold observe_message_part, message_carriers. destruct (responses_part_text part) as [[field text]|]; [|apply charges_none].
  apply (charges_one (_, Some text, mode)).
Qed.
Lemma part_charges event part mode : charges (observe_event_part sha256 event part mode) (part_carriers event part mode).
Proof.
  unfold observe_event_part, part_carriers. destruct (one_of _ _); [apply (charges_one (reasoning_carrier _ _ _ _ _))|].
  destruct (one_of _ _); [apply (charges_one (reasoning_carrier _ _ _ _ _))|].
  destruct (responses_part_text part) as [[field text]|]; [|apply charges_none]. apply (charges_one (content_carrier _ _ _ _)).
Qed.
Lemma item_charges item base mode : charges (observe_item sha256 item base mode) (item_carriers item base mode).
Proof.
  unfold observe_item, item_carriers. destruct (one_of _ _); [apply charges_each; intros; apply message_charges|].
  destruct (one_of _ _); [apply charges_then; apply charges_imap; intros; apply (charges_one (_, _, mode))|].
  destruct (one_of _ _); [apply (charges_then _ _ [_] [_]); apply (charges_one (_, _, mode))|].
  destruct (one_of _ _); [apply (charges_then _ _ [_] [_]); apply (charges_one (_, _, mode))|apply charges_none].
Qed.

(** An event is charged for the carriers it shows, in their order. *)
Lemma event_charges event : charges (observe_event_inner sha256 event) (event_carriers event).
Proof.
  unfold observe_event_inner, event_carriers.
  repeat (destruct (one_of (str_field "type" event) _);
    [first [ apply (charges_one (content_carrier _ _ _ _)) | apply (charges_one (tool_carrier _ _ _ _ _))
           | apply (charges_one (reasoning_carrier _ _ _ _ _))
           | apply (charges_then _ _ [_] [_]); apply (charges_one (tool_carrier _ _ _ _ _))
           | destruct (json_get "part" event); [apply part_charges|apply charges_none]
           | destruct (json_get "item" event); [apply item_charges|apply charges_none]
           | apply charges_each; intros; apply item_charges
           | destruct (json_get "part" event ≫= str_field "text");
             [apply (charges_one (reasoning_carrier _ _ _ _ _))|apply charges_none] ]|]).
  apply charges_none.
Qed.

Lemma observe_carrier_saturated c l : saturated l = true -> saturated (observe_carrier c l).2 = true.
Proof.
  intros Hl. destruct c as [[k t] mode]. unfold observe_carrier, observe_text. cbn [fst snd].
  destruct t as [[|a t]|]; [done| |done]. destruct k as [k|]; [|done].
  unfold first_carrier, snapshot_carrier. by repeat case_match.
Qed.
Lemma observe_all_saturated cs l : saturated l = true -> saturated (observe_all cs l).2 = true.
Proof.
  revert l. induction cs as [|c cs IH]; intros l Hl; [done|]. unfold observe_all. cbn [fmap list_fmap charge_each foldr].
  unfold and_then at 1. pose proof (observe_carrier_saturated c l Hl) as Hc. destruct (observe_carrier c l) as [n l1].
  specialize (IH l1 Hc). unfold observe_all, charge_each in IH. by destruct (foldr _ _ _ l1).
Qed.

Lemma observe_all_shows cs l s :
  stands_for l s -> clean_all cs s ->
  let '(n, l') := observe_all cs l in
  saturated l' = false -> stands_for l' (show_all cs s) /\ saturated l = false /\ shown_total (show_all cs s) = shown_total s + n.
Proof.
  revert l s. induction cs as [|[[k t] mode] cs IH]; intros l s Hl Hc; [intros ?; split_and!; [done..|cbn; lia]|].
  destruct Hc as [Hc Hcs]. unfold observe_all. cbn [fmap list_fmap charge_each foldr]. unfold and_then at 1.
  pose proof (observe_text_shows k t mode l s Hl Hc) as Hone. unfold observe_carrier at 1. cbn [fst snd].
  destruct (observe_text sha256 k t mode l) as [n l1]. pose proof (observe_all_saturated cs l1) as Hsat.
  specialize (IH l1 (show (k, t, mode) s)). unfold observe_all, charge_each in IH, Hsat.
  destruct (foldr and_then no_charge (observe_carrier <$> cs) l1) as [m l2]. cbn [snd] in Hsat. intros Hs.
  destruct Hone as (Hl1 & Hsl & Htot); [destruct (saturated l1); [|done]; by rewrite Hsat in Hs|].
  destruct (IH Hl1 Hcs Hs) as (Hl2 & _ & Htot2). split_and!; [done..|]. cbn [show_all foldl]. unfold show_all in Htot2. lia.
Qed.

(** The events of a stream, as long as the ledger counts them. *)
Fixpoint observe_events (events : list json) (l : ResponsesHeldContent) : option N * ResponsesHeldContent :=
  match events with
  | [] => (Some 0, l)
  | e :: events =>
      match observe_event sha256 e l with
      | (None, l) => (None, l)
      | (Some n, l) => let '(m, l) := observe_events events l in (N.add n <$> m, l)
      end
  end.

Lemma clean_all_app cs ds s : clean_all (cs ++ ds) s -> clean_all cs s /\ clean_all ds (show_all cs s).
Proof.
  revert s. induction cs as [|c cs IH]; intros s; [done|]. cbn [app clean_all]. intros [Hc [H1 H2]%IH]. by split_and!.
Qed.

Lemma observe_events_shows events l s total l' :
  stands_for l s -> saturated l = false -> clean_all (events ≫= event_carriers) s -> observe_events events l = (Some total, l') ->
  stands_for l' (show_all (events ≫= event_carriers) s) /\ saturated l' = false /\
  shown_total (show_all (events ≫= event_carriers) s) = shown_total s + total.
Proof.
  revert l s total. induction events as [|e events IH]; intros l s total Hl Hs Hc; cbn [observe_events].
  { intros [= <- <-]. split_and!; [done..|]. cbn. lia. }
  cbn [mbind list_bind] in *. apply clean_all_app in Hc as [He Hes]. unfold observe_event. rewrite Hs.
  rewrite event_charges. pose proof (observe_all_shows (event_carriers e) l s Hl He) as Hone.
  destruct (observe_all (event_carriers e) l) as [n l1]. destruct (saturated l1) eqn:Hs1; [done|].
  destruct (Hone eq_refl) as (Hl1 & _ & Htot). destruct (observe_events events l1) as [[m|] l2] eqn:E; [|done].
  cbn [fmap option_fmap option_map]. intros [= <- <-]. destruct (IH l1 _ m Hl1 Hs1 Hes E) as (? & ? & Htot2).
  unfold show_all in *. rewrite foldl_app. split_and!; [done..|]. lia.
Qed.

(** A carrier shown again as it stands. *)
Definition repeats (s : Shown) (c : carrier) : Prop :=
  exists k t, c = (Some k, Some t, Snapshot) /\ texts s !! k = Some t.

Lemma observe_repeats cs l s : stands_for l s -> Forall (repeats s) cs -> observe_all cs l = (0, l).
Proof.
  intros Hl. induction 1 as [|c cs (k & t & -> & Hk) _ IH]; [done|].
  unfold observe_all in *. cbn [fmap list_fmap charge_each foldr]. unfold and_then at 1, observe_carrier at 1, observe_text. cbn [fst snd].
  unfold charge_each in IH. destruct t as [|a t]; [by rewrite IH|]. rewrite (stands_for_lookup l s k Hl), Hk. cbn [fmap option_fmap option_map].
  unfold snapshot_carrier, carrier_of. cbn [carrier_bytes absorbed]. rewrite N.eqb_refl, bool_decide_true by done. cbn [andb]. by rewrite IH.
Qed.

(** The ledger never grows past its bound. *)
Definition bounded_ledger l : Prop := (size (carriers l) <= MAX_RESPONSES_HELD_CARRIERS)%nat.

Lemma set_carrier_bounded k r l (old : ResponsesHeldCarrier) : carriers l !! k = Some old -> bounded_ledger l -> bounded_ledger (set_carrier k r l).
Proof. unfold bounded_ledger. cbn [carriers set_carrier]. intros Hk. by rewrite map_size_insert_Some by (rewrite Hk; eauto). Qed.

Lemma observe_carrier_bounded c l : bounded_ledger l -> bounded_ledger (observe_carrier c l).2.
Proof.
  intros Hl. destruct c as [[k t] mode]. unfold observe_carrier, observe_text. cbn [fst snd].
  destruct t as [[|a t]|]; [done| |done]. destruct k as [k|]; [|done]. destruct (carriers l !! k) as [old|] eqn:Hk.
  - assert (forall r, bounded_ledger (set_carrier k r l)) as Hset by (intros; by eapply set_carrier_bounded).
    destruct mode; [apply Hset|]. unfold snapshot_carrier. repeat case_match; done || apply Hset.
  - assert (bounded_ledger (first_carrier k (String a t) l).2) as H; [|by destruct mode].
    unfold first_carrier, bounded_ledger in *. destruct (Nat.leb_spec MAX_RESPONSES_HELD_CARRIERS (size (carriers l))); [done|].
    cbn [snd set_carrier carriers]. rewrite map_size_insert_None by done. lia.
Qed.
Lemma observe_all_bounded cs l : bounded_ledger l -> bounded_ledger (observe_all cs l).2.
Proof.
  revert l. induction cs as [|c cs IH]; intros l Hl; [done|]. unfold observe_all. cbn [fmap list_fmap charge_each foldr].
  unfold and_then at 1. pose proof (observe_carrier_bounded c l Hl) as Hc. destruct (observe_carrier c l) as [n l1].
  specialize (IH l1 Hc). unfold observe_all, charge_each in IH. by destruct (foldr _ _ _ l1).
Qed.
Lemma observe_event_bounded e l : bounded_ledger l -> bounded_ledger (observe_event sha256 e l).2.
Proof.
  intros Hl. unfold observe_event. destruct (saturated l); [done|]. rewrite event_charges.
  pose proof (observe_all_bounded (event_carriers e) l Hl). by destruct (observe_all _ l).
Qed.
Lemma observe_events_bounded events l : bounded_ledger l -> bounded_ledger (observe_events events l).2.
Proof.
  revert l. induction events as [|e events IH]; intros l Hl; [done|]. cbn [observe_events].
  pose proof (observe_event_bounded e l Hl) as He. destruct (observe_event sha256 e l) as [[n|] l1]; [|done].
  specialize (IH l1 He). by destruct (observe_events events l1).
Qed.

(** C10. Over any stream of Responses events the ledger can follow, without a SHA-256
    collision, the content charged is exactly the length of every identified text as
    it last stood, plus what a contradicting snapshot replaced, plus the texts no
    carrier identifies: deltas and the snapshots that repeat or extend them are
    counted once.  An event that only repeats what stands is free, and the ledger
    never keeps more than its bound of carriers. *)
Theorem ledger_counts_once events total l :
  clean_all (events ≫= event_carriers) shown_new ->
  observe_events events ledger_new = (Some total, l) ->
  let s := show_all (events ≫= event_carriers) shown_new in
  total = map_sum str_len (texts s) + replaced s + anonymous s /\
  (forall e, Forall (repeats s) (event_carriers e) -> observe_event sha256 e l = (Some 0, l)) /\
  (size (carriers l) <= MAX_RESPONSES_HELD_CARRIERS)%nat.
Proof.
  intros Hc Hrun. destruct (observe_events_shows events ledger_new shown_new total l) as (Hl & Hs & Htot); [done..|].
  split; [by cbn in Htot|]. split.
  - intros e He. unfold observe_event. rewrite Hs, event_charges, (observe_repeats _ _ _ Hl He). by rewrite Hs.
  - pose proof (observe_events_bounded events ledger_new) as H. rewrite Hrun in H. apply H. unfold bounded_ledger. cbn [carriers ledger_new]. rewrite map_size_empty. apply Nat.le_0_l.
Qed.
End shown.

(** C33. However hold-back buffers grow, shrink, are cleared and dropped, the process
    counter is the sum of the bytes its live buffers hold, up to the wrap of a
    [usize]; it is that sum while the sum fits, and zero once every buffer is gone. *)
Theorem holdback_accounted ops :
  Forall (fun op => forall i n, op = HSet i n -> n <= u64_max) ops ->
  let h := foldl held_exec holdback_new ops in
  HOLDBACK_BYTES h = wrap64 (map_sum id (shares h)) /\
  (map_sum id (shares h) <= u64_max -> HOLDBACK_BYTES h = map_sum id (shares h)) /\
  (shares h = ∅ -> HOLDBACK_BYTES h = 0).
Proof.
  intros Hops h. assert (accounted h) as [Hh _].
  { unfold h. clear h. assert (accounted holdback_new) as H0 by (split; [done|apply map_Forall_empty]). revert H0.
    generalize holdback_new. induction Hops as [|op ops Hop _ IH]; intros h Hh; [done|]. cbn [foldl]. apply IH.
    apply held_exec_accounted; [done|]. intros i n Heq. specialize (Hop i n Heq). unfold u64_max in Hop. lia. }
  split; [done|]. rewrite Hh. split.
  - unfold wrap64, u64_max. intros ?. apply N.mod_small. lia.
  - intros ->. by rewrite map_sum_empty.
Qed.

(** ** The budget of a live scan *)

Inductive scan_op := ScanText (s : string) | ScanWhole (len : N).
Definition scan_size (op : scan_op) : N := match op with ScanText s => str_len s | ScanWhole len => len end.
Definition scan_exec (op : scan_op) (b : LiveScanBudget) : N * LiveScanBudget :=
  match op with
  | ScanText s => let '(kept, b) := admit_text s b in (str_len kept, b)
  | ScanWhole len => let '(kept, b) := admit_whole len b in (if kept then len else 0, b)
  end.
Fixpoint scan_run (ops : list scan_op) (b : LiveScanBudget) : N * LiveScanBudget :=
  match ops with
  | [] => (0, b)
  | op :: ops => let '(n, b) := scan_exec op b in let '(m, b) := scan_run ops b in (n + m, b)
  end.

Lemma floor_boundary_spec s n : (floor_boundary s n <= n)%nat /\ is_char_boundary s (floor_boundary s n) = true.
Proof.
  induction n as [|n [IH1 IH2]]; [done|]. cbn [floor_boundary]. destruct (is_char_boundary s (S n)) eqn:E; [by split|]. split; [lia|done].
Qed.

(** What a piece leaves behind, and of what it keeps. *)
Definition spent (seen : N) (b : LiveScanBudget) : Prop :=
  let cap := live_scan_cap (budget_chain b) in
  (outgrown b = false /\ seen + remaining b = cap /\ bypasses b = []) \/
  (outgrown b = true /\ cap < seen /\ remaining b = 0 /\ bypasses b = [TAG_OUTPUT_BUFFER_EXCEEDED]).

Lemma scan_exec_spent op seen b :
  spent seen b ->
  let '(kept, b') := scan_exec op b in
  spent (seen + scan_size op) b' /\ budget_chain b' = budget_chain b /\
  kept + remaining b' <= remaining b /\ (outgrown b' = false -> kept = scan_size op).
Proof.
  intros Hb. destruct op as [s|len]; cbn [scan_exec scan_size].
  - unfold admit_text. destruct (N.leb_spec (str_len s) (remaining b)) as [Hle|Hgt].
    + split; [|cbn; split_and!; [done|lia|done]]. destruct Hb as [(Ho & Hr & Hby)|(Ho & Hc & Hr & Hby)]; [left|right];
        cbn; rewrite Ho; split_and!; try done; cbn in *; lia.
    + assert (str_len (str_take (floor_boundary s (N.to_nat (remaining b))) s) <= remaining b) as Hk.
      { destruct (floor_boundary_spec s (N.to_nat (remaining b))) as [Hf _]. unfold str_len in *. rewrite str_take_len by lia. lia. }
      unfold note_outgrown. cbn [outgrown]. destruct Hb as [(Ho & Hr & Hby)|(Ho & Hc & Hr & Hby)]; rewrite Ho.
      * split; [right; cbn; rewrite Hby; split_and!; try done; cbn in *; lia|]. cbn. split_and!; [done|lia|done].
      * split; [right; cbn; split_and!; try done; cbn in *; lia|]. cbn. rewrite ?Ho. split_and!; [done|lia|congruence].
  - unfold admit_whole. destruct (N.leb_spec len (remaining b)) as [Hle|Hgt].
    + split; [|cbn; split_and!; [done|lia|done]]. destruct Hb as [(Ho & Hr & Hby)|(Ho & Hc & Hr & Hby)]; [left|right];
        cbn; rewrite Ho; split_and!; try done; cbn in *; lia.
    + unfold note_outgrown. cbn [outgrown]. destruct Hb as [(Ho & Hr & Hby)|(Ho & Hc & Hr & Hby)]; rewrite Ho.
      * split; [right; cbn; rewrite Hby; split_and!; try done; cbn in *; lia|]. cbn. split_and!; [done|lia|done].
      * split; [right; cbn; split_and!; try done; cbn in *; lia|]. cbn. rewrite ?Ho. split_and!; [done|lia|congruence].
Qed.

Lemma scan_run_spent ops seen b :
  spent seen b ->
  let '(kept, b') := scan_run ops b in
  spent (seen + sum_N (scan_size <$> ops)) b' /\ budget_chain b' = budget_chain b /\
  kept + remaining b' <= remaining b /\ (outgrown b' = false -> kept = sum_N (scan_size <$> ops)).
Proof.
  revert seen b. induction ops as [|op ops IH]; intros seen b Hb; cbn [scan_run fmap list_fmap sum_N foldr].
  { rewrite N.add_0_r. split_and!; [done..|lia|done]. }
  pose proof (scan_exec_spent op seen b Hb) as Hop. destruct (scan_exec op b) as [n b1]. destruct Hop as (Hb1 & Hc1 & Hn & Hw).
  specialize (IH _ _ Hb1). destruct (scan_run ops b1) as [m b2]. destruct IH as (Hb2 & Hc2 & Hm & Hw2).
  split; [by rewrite N.add_assoc|]. split; [congruence|]. split; [lia|]. intros Ho. rewrite (Hw2 Ho), Hw; [done|].
  destruct Hb1 as [[]|(Ho1 & Hlt & _)]; [done|]. destruct Hb2 as [(_ & Hr & _)|[]]; [|congruence].
  rewrite <- Hc2 in Hlt. lia.
Qed.

(** C32. Whatever pieces a live stream offers, what is kept never exceeds the cap;
    nothing is cut until the pieces outgrow it, and then the bypass is recorded
    exactly once; every text kept is a prefix of its piece, cut between characters. *)
Theorem live_scan_bounded chain ops :
  let cap := live_scan_cap chain in
  let offered := sum_N (scan_size <$> ops) in
  let '(kept, b) := scan_run ops (budget_new chain) in
  kept <= cap /\ outgrown b = (cap <? offered) /\
  bypasses b = (if cap <? offered then [TAG_OUTPUT_BUFFER_EXCEEDED] else []) /\
  (offered <= cap -> kept = offered) /\
  forall s, exists n, (admit_text s b).1 = str_take n s /\ is_char_boundary s n = true.
Proof.
  intros cap offered. pose proof (scan_run_spent ops 0 (budget_new chain)) as H.
  destruct (scan_run ops (budget_new chain)) as [kept b].
  destruct H as (Hb & Hc & Hk & Hw); [left; by cbn|]. cbn [budget_chain remaining budget_new] in Hc, Hk.
  fold cap in Hk. rewrite N.add_0_l in Hb. fold offered in Hb, Hw. split; [lia|]. unfold spent in Hb. rewrite Hc in Hb. fold cap in Hb.
  assert (outgrown b = (cap <? offered) /\ bypasses b = (if cap <? offered then [TAG_OUTPUT_BUFFER_EXCEEDED] else [])) as [Ho Hby].
  { destruct Hb as [(-> & Hr & ->)|(-> & Hlt & _ & ->)]; destruct (N.ltb_spec cap offered); (done || lia). }
  split_and!; [done|done| |].
  - intros Hle. apply Hw. rewrite Ho. apply N.ltb_ge. lia.
  - intros s. unfold admit_text. destruct (_ <=? _).
    + exists (String.length s). split.
      * cbn [fst]. symmetry. apply str_take_all.
      * unfold is_char_boundary. destruct (String.length s); [done|]. by rewrite Nat.eqb_refl.
    + eexists. split; [done|]. apply floor_boundary_spec.
Qed.

(** ** Buffers and values *)

(** A buffer trips exactly when what it was given does. *)
Lemma hold_trips m pieces :
  m < u64_max -> m * RAW_HOLD_FACTOR < u64_max ->
  exceeds m (foldl (fun b p => hold p.1 p.2 b) held_new pieces)
  = (m <? sum_N (fst <$> pieces)) || (m * RAW_HOLD_FACTOR <? sum_N (snd <$> pieces)).
Proof.
  intros Hm Hr. assert (forall b, exceeds m (foldl (fun b p => hold p.1 p.2 b) b pieces)
    = (m <? held_content b + sum_N (fst <$> pieces)) || (m * RAW_HOLD_FACTOR <? held_raw b + sum_N (snd <$> pieces))) as Hgen; [|apply Hgen].
  induction pieces as [|[c r] pieces IH]; intros b; cbn [foldl fmap list_fmap sum_N foldr fst snd].
  - unfold exceeds, sat_mul. rewrite !N.add_0_r. by replace (N.min (m * RAW_HOLD_FACTOR) u64_max) with (m * RAW_HOLD_FACTOR) by lia.
  - rewrite IH. cbn [hold held_content held_raw]. unfold sat_add. fold (sum_N (fst <$> pieces)) (sum_N (snd <$> pieces)). f_equal.
    + destruct (N.ltb_spec m (N.min (held_content b + c) u64_max + sum_N (fst <$> pieces)));
        destruct (N.ltb_spec m (held_content b + (c + sum_N (fst <$> pieces)))); lia.
    + destruct (N.ltb_spec (m * RAW_HOLD_FACTOR) (N.min (held_raw b + r) u64_max + sum_N (snd <$> pieces)));
        destruct (N.ltb_spec (m * RAW_HOLD_FACTOR) (held_raw b + (r + sum_N (snd <$> pieces)))); lia.
Qed.
Lemma would_exceed_predicts content raw m b : would_exceed_after content raw m b = exceeds m (hold content raw b).
Proof. done. Qed.

Lemma sum_N_app a b : sum_N (a ++ b) = sum_N a + sum_N b.
Proof. unfold sum_N. induction a as [|x a IH]; [done|]. cbn [app foldr]. rewrite IH. apply N.add_assoc. Qed.

(** The values kept are a prefix of the stream, all of it unless one did not fit. *)
Lemma bounded_keeps_prefix json_to_string cap vs :
  cap < u64_max ->
  let b := foldl (fun b v => bounded_push json_to_string v cap b) bounded_new vs in
  sum_N (json_len json_to_string <$> kept_values b) = kept_bytes b /\ kept_bytes b <= cap /\
  kept_values b `prefix_of` vs /\ (full b = false -> kept_values b = vs).
Proof.
  intros Hcap. induction vs as [|v vs IH] using rev_ind; [cbn; split_and!; [done|lia|done|done]|].
  rewrite foldl_app. cbn [foldl]. set (b := foldl _ _ vs) in *. destruct IH as (Hs & Hb & [rest Hp] & Hf).
  unfold bounded_push. destruct (full b) eqn:Ef; [rewrite Ef; split_and!; try done; exists (rest ++ [v]); by rewrite Hp, app_assoc|].
  destruct (N.ltb_spec cap (sat_add (kept_bytes b) (json_len json_to_string v))); cbn [kept_values kept_bytes full].
  - split_and!; try done. exists (rest ++ [v]). by rewrite Hp at 1; rewrite app_assoc.
  - unfold sat_add in *. rewrite (Hf eq_refl). split_and!; [|lia|done|done]. rewrite <- Hs, (Hf eq_refl), fmap_app, sum_N_app.
    cbn [fmap list_fmap sum_N foldr]. lia.
Qed.

(** The fuel of the frame loop is enough: a frame has a terminator. *)
Lemma scan_loop_end fuel buf i start a e : scan_loop fuel buf i start = Some (a, e) -> (0 < e)%nat.
Proof.
  revert i start. induction fuel as [|fuel IH]; intros i start; [done|]. cbn [scan_loop].
  destruct (position is_eol (drop i buf)) as [off|]; [|done]. cbv zeta.
  destruct (if (0 <? off)%nat then false else start); [|apply IH].
  intros [= <- <-]. unfold eol_len. case_match; lia.
Qed.
Lemma payloads_fuel fuel fuel' rest :
  (length rest <= fuel)%nat -> (length rest <= fuel')%nat ->
  sse_frame_payloads_from fuel rest = sse_frame_payloads_from fuel' rest.
Proof.
  revert fuel' rest. induction fuel as [|fuel IH]; intros fuel' rest Hf Hf'.
  { destruct rest; [by destruct fuel'|cbn in Hf; lia]. }
  destruct fuel' as [|fuel']; [by destruct rest; [|cbn in Hf'; lia]|]. cbn [sse_frame_payloads_from].
  destruct (split_frame_end rest) as [[c e]|] eqn:E; [|done]. f_equal.
  assert (0 < e)%nat as He.
  { unfold split_frame_end in E. destruct (scan rest 0) as [[blank e']|] eqn:Es; [|done]. cbn in E. injection E as _ <-.
    unfold scan in Es. by eapply scan_loop_end. }
  destruct rest as [|x rest]; [by vm_compute in E|]. apply IH; rewrite length_drop; cbn [length] in *; lia.
Qed.

(** ** Witnesses

    An answer shown as deltas, as its finished text, as its item and in the terminal
    response; the identity in place of SHA-256. *)
Definition fits (c : carrier) (s : Shown) : bool :=
  match c with
  | (Some k, Some t, Delta) => match texts s !! k with Some seen => str_len seen + str_len t <=? u64_max | None => true end
  | _ => true
  end.
Fixpoint fits_all (cs : list carrier) (s : Shown) : bool :=
  match cs with [] => true | c :: cs => fits c s && fits_all cs (show c s) end.

Lemma fits_clean cs s : fits_all cs s = true -> clean_all (fun x => x) cs s.
Proof.
  revert s. induction cs as [|[[k t] mode] cs IH]; intros s; [done|]. cbn [fits_all clean_all].
  intros [Hc Hcs]%andb_true_iff. split; [|by apply IH]. destruct k as [k|]; [|done]. destruct t as [t|]; [|by destruct mode].
  unfold clean, fits, digest in *. destruct (texts s !! k); [|done]. destruct mode; [by apply N.leb_le|].
  split; [intros H; by apply (inj lit)|intros p _ H; by apply (inj lit)].
Qed.

Definition demo_part (t : string) : json := JObject [("type", JString "output_text"); ("text", JString t)].
Definition demo_item (t : string) : json :=
  JObject [("type", JString "message"); ("id", JString "msg_1"); ("content", JArray [demo_part t])].
Definition demo_event (ty key : string) (v : json) : json :=
  JObject [("type", JString ty); ("item_id", JString "msg_1"); ("output_index", JNumber "0");
           ("content_index", JNumber "0"); (key, v)].
Definition demo_stream : list json :=
  [demo_event "response.output_item.added" "item" (demo_item "");
   demo_event "response.output_text.delta" "delta" (JString "Hel");
   demo_event "response.output_text.delta" "delta" (JString "lo");
   demo_event "response.output_text.done" "text" (JString "Hello")].
Definition demo_terminal : json :=
  JObject [("type", JString "response.completed"); ("response", JObject [("output", JArray [demo_item "Hello"])])].

Lemma demo_counted : (observe_events (fun x => x) demo_stream ledger_new).1 = Some 5.
Proof. by vm_compute. Qed.
Lemma demo_clean : clean_all (fun x => x) (demo_stream ≫= event_carriers) shown_new.
Proof. apply fits_clean. by vm_compute. Qed.
Lemma demo_repeats : Forall (repeats (show_all (demo_stream ≫= event_carriers) shown_new)) (event_carriers demo_terminal).
Proof.
  apply Forall_cons. split; [|by apply Forall_nil]. exists "5:msg_1:0/content/0/text", "Hello". split; by vm_compute.
Qed.

Lemma ledger_counts_once_witness :
  exists l, observe_events (fun x => x) demo_stream ledger_new = (Some 5, l) /\
    observe_event (fun x => x) demo_terminal l = (Some 0, l).
Proof.
  destruct (observe_events (fun x => x) demo_stream ledger_new) as [total l] eqn:E.
  pose proof demo_counted as H. rewrite E in H. cbn [fst] in H. subst total. exists l. split; [reflexivity|].
  destruct (ledger_counts_once (fun x => x) demo_stream 5 l demo_clean E) as (_ & Hfree & _).
  apply Hfree. exact demo_repeats.
Defined.

Lemma holdback_accounted_witness :
  HOLDBACK_BYTES (foldl held_exec holdback_new [HAdd 0 10; HAdd 1 7; HSet 0 4; HDrop 1]) = 4 /\
  HOLDBACK_BYTES (foldl held_exec holdback_new [HAdd 0 10; HAdd 1 7; HDrop 1; HDrop 0]) = 0.
Proof.
  split.
  - assert (map_sum id (shares (foldl held_exec holdback_new [HAdd 0 10; HAdd 1 7; HSet 0 4; HDrop 1])) = 4) as Hs by reflexivity.
    rewrite (proj1 (proj2 (holdback_accounted [HAdd 0 10; HAdd 1 7; HSet 0 4; HDrop 1]
      ltac:(repeat (apply Forall_cons; split; [intros i n Hop; (discriminate Hop || (injection Hop as _ <-; apply N.leb_le; reflexivity))|]); apply Forall_nil; exact I)))).
    + exact Hs.
    + rewrite Hs. apply N.leb_le. reflexivity.
  - apply (proj2 (proj2 (holdback_accounted [HAdd 0 10; HAdd 1 7; HDrop 1; HDrop 0]
      ltac:(repeat (apply Forall_cons; split; [intros i n Hop; discriminate Hop|]); apply Forall_nil; exact I)))).
    reflexivity.
Defined.
