(* ===== verification/CacheKey.v ===== *)
(** * What identifies a cacheable request

    [crates/aisix-cache/src/key.rs]: the fields that make a chat request the same
    request, the bytes they are hashed as, the fingerprints of the two matching
    layers and of the endpoints whose bodies are relayed, and the text the
    semantic layer embeds.

    SHA-256 and the printing of JSON are arguments. *)

From S2P Require Import Prelude Sort Utf8 Json F64 Guardrail.
From Stdlib Require Import SpecFloat.
Local Open Scope nat_scope.

(** ** Canonical documents *)

(** Members are converted before they are sorted: the order is the keys'. *)
Fixpoint canonicalise (v : json) : json :=
  match v with
  | JObject members =>
      JObject (stable_sort key_leb
        ((fix go (l : list (string * json)) : list (string * json) :=
            match l with [] => [] | (k, x) :: l => (k, canonicalise x) :: go l end) members))
  | JArray items => JArray ((fix go (l : list json) : list json :=
            match l with [] => [] | x :: l => canonicalise x :: go l end) items)
  | other => other
  end.

(** ** The request *)

Definition blocks_text (blocks : list json) : string :=
  foldr String.append ""
    (omap (str_field "text") (List.filter (fun b => bool_decide (str_field "type" b = Some "text")) blocks)).

Record RequestMessage := mkReqMessage {
  role : Role;
  content : option string;
  content_blocks : option (list json);
  message_name : option string;
  tool_call_id : option string;
  message_extra : list (string * json);
}.
Record ChatRequest := mkChatRequest {
  req_model : string;
  req_messages : list RequestMessage;
  temperature : option f64;
  top_p : option f64;
  max_tokens : option N;
  req_extra : list (string * json);
}.

Definition message_text (m : RequestMessage) : option string := or_else (content m) (blocks_text <$> content_blocks m).
Definition content_str (m : RequestMessage) : string := default "" (message_text m).

Definition role_str (r : Role) : string :=
  match r with
  | System => "system"
  | Developer => "developer"
  | User => "user"
  | Assistant => "assistant"
  | Tool => "tool"
  | FunctionRole => "function"
  end.

Definition u32_max : N := 4294967295.
(** [x as u32], which saturates. *)
Definition f64_as_u32 (x : f64) : N :=
  match x with
  | S754_finite false m (Zneg e) => N.min u32_max (N.shiftr (Npos m) (Npos e))
  | S754_finite false m e => N.min u32_max (N.shiftl (Npos m) (Z.to_N e))
  | S754_infinity false => u32_max
  | _ => 0%N
  end.
Definition quantise_milli (v : f64) : N :=
  if match v with S754_nan => true | _ => f64_sign v end then 0%N
  else
    let scaled := f64_mul v (f64_of_N 1000) in
    if SFltb (f64_of_N u32_max) scaled then u32_max else f64_as_u32 scaled.

Record CacheKey := mkCacheKey {
  model : string;
  messages : list (string * string);
  temperature_milli : option N;
  top_p_milli : option N;
  key_max_tokens : option N;
  extras : list (string * string);
  policy_id : string;
  purge_generation : N;
  scope_value : option string;
}.

Section key.
Context (json_to_string : json -> string).

Definition canonical_json_string (v : json) : string := json_to_string (canonicalise v).

Definition canonical_extras (extra : list (string * json)) : list (string * string) :=
  stable_sort key_leb ((fun '(k, v) => (k, canonical_json_string v)) <$> extra).

Definition undecorated (m : RequestMessage) : bool :=
  match message_name m, tool_call_id m, message_extra m with
  | None, None, [] => true
  | _, _, _ => false
  end.

Definition message_pair (m : RequestMessage) : string * string :=
  let content_repr :=
    match content_blocks m with
    | Some blocks => json_to_string (JArray (canonicalise <$> blocks))
    | None => content_str m
    end in
  if undecorated m then
    let prefix := match content_blocks m with Some _ => "b:" | None => "t:" end in
    (role_str (role m), prefix +:+ content_repr)
  else
    let decorated := json_object
      [("content", JString content_repr); ("name", of_string_option (message_name m));
       ("tool_call_id", of_string_option (tool_call_id m)); ("extra", canonicalise (JObject (message_extra m)))] in
    (role_str (role m), "j:" +:+ json_to_string decorated).

Definition from_request (req : ChatRequest) : CacheKey :=
  mkCacheKey (req_model req) (message_pair <$> req_messages req) (quantise_milli <$> temperature req)
    (quantise_milli <$> top_p req) (max_tokens req) (canonical_extras (req_extra req)) "" 0 None.
End key.

Definition with_scope (policy : string) (generation : N) (scope : option string) (k : CacheKey) : CacheKey :=
  mkCacheKey (model k) (messages k) (temperature_milli k) (top_p_milli k) (key_max_tokens k) (extras k)
    policy generation scope.

(** ["\0routing_tags"] *)
Definition ROUTING_TAGS : string := String (Ascii.ascii_of_nat 0) "routing_tags".
Definition with_routing_tags (tags : option string) (k : CacheKey) : CacheKey :=
  match tags with
  | None => k
  | Some tags =>
      mkCacheKey (model k) (messages k) (temperature_milli k) (top_p_milli k) (key_max_tokens k)
        (extras k ++ [(ROUTING_TAGS, tags)]) (policy_id k) (purge_generation k) (scope_value k)
  end.

(** The key of a chat request under the policy that matched. *)
Definition chat_key (json_to_string : json -> string) (req : ChatRequest) (policy : string) (generation : N)
    (scope tags : option string) : CacheKey :=
  with_routing_tags tags (with_scope policy generation scope (from_request json_to_string req)).

(** ** The bytes that are hashed

    What the calls of a [Hash] implementation write: a string ends in 255, an
    integer is little-endian, an option is led by its discriminant. *)

Definition hash_str (s : string) : bytes := lit s ++ [255%N].
Definition hash_u32 : N -> bytes := le_bytes 4.
Definition hash_u64 : N -> bytes := le_bytes 8.
Definition hash_option {A} (f : A -> bytes) (o : option A) : bytes :=
  match o with
  | None => hash_u64 0
  | Some a => hash_u64 1 ++ f a
  end.
Definition hash_pairs (l : list (string * string)) : bytes := l ≫= fun '(k, v) => hash_str k ++ hash_str v.

Definition hash_scope (k : CacheKey) : bytes :=
  hash_str (model k) ++ hash_option hash_u32 (temperature_milli k) ++ hash_option hash_u32 (top_p_milli k)
  ++ hash_option hash_u32 (key_max_tokens k) ++ hash_pairs (extras k) ++ hash_str (policy_id k)
  ++ hash_u32 (purge_generation k) ++ hash_option hash_str (scope_value k).
Definition hash_key (k : CacheKey) : bytes := hash_scope k ++ hash_pairs (messages k).

Definition hash_part (part : string) : bytes := hash_u64 (N.of_nat (length (lit part))) ++ hash_str part.
Definition hash_parts (parts : list string) : bytes := parts ≫= hash_part.

(** ["{b:02x}"] *)
Definition hex_digit (d : N) : Ascii.ascii := Ascii.ascii_of_N (if d <? 10 then 48 + d else 87 + d)%N.
Definition hex_byte (b : N) (s : string) : string := String (hex_digit (b / 16)%N) (String (hex_digit (b mod 16)%N) s).
Definition hex (l : bytes) : string := foldr hex_byte "" l.

Section fingerprint.
Context (sha256 : bytes -> bytes).

Definition finalize_hex (written : bytes) : string := hex (take 16 (sha256 written)).
Definition fingerprint (k : CacheKey) : string := finalize_hex (hash_key k).
Definition scope_fingerprint (k : CacheKey) : string := finalize_hex (hash_scope k).
Definition body_fingerprint (parts : list string) : string := finalize_hex (hash_parts parts).
Definition tag_token (value : string) : string := finalize_hex (hash_part value).
End fingerprint.

(** ** The text the semantic layer embeds *)

Definition BACKSLASH : Ascii.ascii := Ascii.ascii_of_nat 92.
Definition NEWLINE : Ascii.ascii := Ascii.ascii_of_nat 10.
Definition escape_text (s : string) : string :=
  replace_char NEWLINE (String BACKSLASH "n") (replace_char BACKSLASH (String BACKSLASH (String BACKSLASH "")) s).

(** The text of the blocks, unless one is not text. *)
Fixpoint text_blocks (blocks : list json) (t : string) : option string :=
  match blocks with
  | [] => Some t
  | b :: blocks =>
      match b with
      | JObject _ =>
          if bool_decide (str_field "type" b = Some "text")
          then text_blocks blocks (t +:+ default "" (str_field "text" b))
          else None
      | _ => None
      end
  end.

Definition embeddable_text (m : RequestMessage) : option string :=
  if undecorated m then
    match content_blocks m with
    | Some blocks => text_blocks blocks ""
    | None => Some (content_str m)
    end
  else None.

Definition is_blank (s : string) : bool := match trim (from_utf8_lossy (lit s)) with [] => true | _ => false end.

Fixpoint prompt_loop (l : list RequestMessage) (out : string) (has_text : bool) : option string :=
  match l with
  | [] => if has_text then Some out else None
  | m :: l =>
      match embeddable_text m with
      | None => None
      | Some text =>
          prompt_loop l (out +:+ role_str (role m) +:+ ": " +:+ escape_text text +:+ String NEWLINE "")
            (has_text || negb (is_blank text))
      end
  end.
Definition semantic_prompt_text (req : ChatRequest) : option string := prompt_loop (req_messages req) "" false.

(** ** Reading the bytes back *)

Lemma split_unique {A} (c : A) x y a b : c ∉ x -> c ∉ y -> x ++ c :: a = y ++ c :: b -> x = y /\ a = b.
Proof.
  revert y. induction x as [|d x IH]; intros [|e y] Hx Hy H; simplify_eq/=; [done|set_solver|set_solver|].
  destruct (IH y) as [-> ->]; [set_solver|set_solver|done|done].
Qed.

Lemma le_bytes_length n x : length (le_bytes n x) = n.
Proof. revert x. induction n as [|n IH]; intros x; [done|]. simpl. by rewrite IH. Qed.

Lemma le_bytes_inj n : forall x y, (x < 256 ^ N.of_nat n)%N -> (y < 256 ^ N.of_nat n)%N -> le_bytes n x = le_bytes n y -> x = y.
Proof.
  induction n as [|n IH]; intros x y Hx Hy.
  - simpl in *. lia.
  - rewrite Nat2N.inj_succ, N.pow_succ_r' in Hx, Hy. cbn [le_bytes]. intros [= Hmod Hdiv].
    apply IH in Hdiv; [|apply N.Div0.div_lt_upper_bound; lia..].
    rewrite (N.div_mod x 256), (N.div_mod y 256) by lia. congruence.
Qed.

Lemma hash_u64_01 : hash_u64 0 = [0; 0; 0; 0; 0; 0; 0; 0]%N /\ hash_u64 1 = [1; 0; 0; 0; 0; 0; 0; 0]%N.
Proof. by vm_compute. Qed.

(** What every [str] is: UTF-8, where no byte is 255. *)
Definition is_str (s : string) : Prop := (255 ∉ lit s)%N.
Definition no_nul (s : string) : Prop := (0 ∉ lit s)%N.

Lemma hash_str_inj s t a b : is_str s -> is_str t -> hash_str s ++ a = hash_str t ++ b -> s = t /\ a = b.
Proof.
  unfold hash_str. rewrite <- !app_assoc. intros Hs Ht H. apply split_unique in H as [H ->]; [|done..].
  by apply (inj lit) in H.
Qed.

Lemma hash_u32_inj x y a b :
  (x <= u32_max)%N -> (y <= u32_max)%N -> hash_u32 x ++ a = hash_u32 y ++ b -> x = y /\ a = b.
Proof.
  unfold u32_max. intros Hx Hy H. apply app_inj_1 in H as [H ->]; [|by unfold hash_u32; rewrite !le_bytes_length].
  apply le_bytes_inj in H; [done|change (256 ^ N.of_nat 4)%N with 4294967296%N; lia..].
Qed.

Lemma hash_option_inj {A} (f : A -> bytes) (P : A -> Prop) o p a b :
  (forall x y a b, P x -> P y -> f x ++ a = f y ++ b -> x = y /\ a = b) ->
  from_option P True o -> from_option P True p -> hash_option f o ++ a = hash_option f p ++ b -> o = p /\ a = b.
Proof.
  intros Hf Ho Hp. unfold hash_option. destruct hash_u64_01 as [-> ->].
  destruct o as [x|], p as [y|]; simpl in *; rewrite <- ?app_assoc; intros [=]; [|done].
  by edestruct Hf as [-> ->].
Qed.

(** Strings one after another. *)
Definition hash_strs (l : list string) : bytes := l ≫= hash_str.

Lemma hash_strs_cons s l : hash_strs (s :: l) = lit s ++ 255%N :: hash_strs l.
Proof. unfold hash_strs, hash_str. cbn [mbind list_bind]. by rewrite <- app_assoc. Qed.

Lemma hash_strs_nil : hash_strs [] = [].
Proof. done. Qed.

Lemma hash_strs_app l l' : hash_strs (l ++ l') = hash_strs l ++ hash_strs l'.
Proof. apply bind_app. Qed.

Definition flat (l : list (string * string)) : list string := l ≫= fun '(k, v) => [k; v].

Lemma hash_pairs_strs l : hash_pairs l = hash_strs (flat l).
Proof.
  induction l as [|[k v] l IH]; [done|]. change (flat ((k, v) :: l)) with ([k; v] ++ flat l).
  change (hash_pairs ((k, v) :: l)) with ((hash_str k ++ hash_str v) ++ hash_pairs l).
  rewrite hash_strs_app, IH. unfold hash_strs at 2. cbn [mbind list_bind]. by rewrite app_nil_r.
Qed.

Lemma flat_inj l l' : flat l = flat l' -> l = l'.
Proof.
  revert l'. induction l as [|[k v] l IH]; intros [|[k' v'] l'] H; simplify_eq/=; [done|]. f_equal. by apply IH.
Qed.

Lemma hash_strs_prefix W : forall L X, Forall is_str W -> Forall is_str L ->
  hash_strs L = hash_strs W ++ X -> exists L', L = W ++ L'.
Proof.
  induction W as [|w W IH]; intros L X HW HL H; [by exists L|]. apply Forall_cons in HW as [Hw HW]. unfold is_str in Hw.
  rewrite hash_strs_cons in H. destruct L as [|l L]; [rewrite <- app_assoc in H; by destruct (lit w)|].
  apply Forall_cons in HL as [Hl HL]. unfold is_str in Hl. rewrite hash_strs_cons, <- app_assoc in H. cbn [app] in H.
  apply split_unique in H as [Heq H]; [|done..]. apply (inj lit) in Heq as ->.
  destruct (IH _ _ HW HL H) as [L' ->]. by exists L'.
Qed.

Lemma hash_strs_inj L L' : Forall is_str L -> Forall is_str L' -> hash_strs L = hash_strs L' -> L = L'.
Proof.
  intros HL HL' H. destruct (hash_strs_prefix L' L []) as [M ->]; [done..|by rewrite app_nil_r|].
  rewrite hash_strs_app in H. destruct M as [|m M]; [by rewrite app_nil_r|]. exfalso.
  apply (f_equal length) in H. rewrite hash_strs_cons, !length_app in H. simpl in H. lia.
Qed.

(** Strings read from a run [G] of bytes, a discriminant and strings: they lie in
    [G], or the last holds a zero, or it is one of the strings after the first. *)
Lemma strings_over_raw W : forall last G D L X,
  Forall is_str (W ++ [last]) -> Forall is_str L -> (255 ∉ D)%N -> (0 ∈ D)%N ->
  G ++ D ++ hash_strs L = hash_strs (W ++ [last]) ++ X ->
  (exists rest, G = hash_strs (W ++ [last]) ++ rest /\ X = rest ++ D ++ hash_strs L) \/ ~ no_nul last \/ last ∈ tail L.
Proof.
  induction W as [|w W IH]; intros last G D L X HW HL HD H0 H.
  - cbn [app] in *. rewrite hash_strs_cons, hash_strs_nil in *. apply Forall_cons in HW as [HW _]. unfold is_str in HW.
    rewrite <- app_assoc in H. cbn [app] in H. destruct (decide (255 ∈ G)%N) as [HG|HG].
    + left. apply list_elem_of_split_l in HG as (g1 & g2 & -> & Hg1). rewrite <- app_assoc in H. cbn [app] in H.
      apply split_unique in H as [<- <-]; [|done..]. exists g2. by rewrite <- app_assoc.
    + right. left. intros Hn. destruct L as [|l L].
      * rewrite hash_strs_nil, app_nil_r in H. assert (255 ∈ G ++ D)%N as [?|?]%elem_of_app by (rewrite H; set_solver); done.
      * rewrite hash_strs_cons, !app_assoc, <- (app_assoc G) in H. apply Forall_cons in HL as [Hl HL]. unfold is_str in Hl.
        apply split_unique in H as [Heq _]; [|set_solver|done]. apply Hn. rewrite <- Heq. set_solver.
  - cbn [app] in *. rewrite hash_strs_cons in *. apply Forall_cons in HW as [Hw HW]. unfold is_str in Hw.
    rewrite <- app_assoc in H. cbn [app] in H. destruct (decide (255 ∈ G)%N) as [HG|HG].
    + apply list_elem_of_split_l in HG as (g1 & g2 & -> & Hg1). rewrite <- app_assoc in H. cbn [app] in H.
      apply split_unique in H as [<- H]; [|done..]. destruct (IH _ _ _ _ _ HW HL HD H0 H) as [(rest & -> & ->)|?]; [left|by right].
      exists rest. by rewrite <- app_assoc.
    + right. right. destruct L as [|l L].
      * rewrite hash_strs_nil, app_nil_r in H. assert (255 ∈ G ++ D)%N as [?|?]%elem_of_app by (rewrite H; set_solver); done.
      * rewrite hash_strs_cons, !app_assoc, <- (app_assoc G) in H. apply Forall_cons in HL as [Hl HL]. unfold is_str in Hl.
        apply split_unique in H as [_ H]; [|set_solver|done]. destruct (hash_strs_prefix _ _ _ HW HL H) as [L' ->]. set_solver.
Qed.

(** What follows the extra fields: the policy, the generation, the scope, and the
    strings of the messages. *)
Definition hash_tail (P : string) (g : N) (So : option string) (M : list string) : bytes :=
  hash_str P ++ hash_u32 g ++ hash_option hash_str So ++ hash_strs M.

Definition head_not_nul (s : string) : Prop := head (lit s) <> Some 0%N.

Record tail_ok (P : string) (g : N) (So : option string) (M : list string) : Prop := {
  tail_policy : is_str P /\ no_nul P;
  tail_generation : (g <= u32_max)%N;
  tail_scope : from_option (fun s => is_str s /\ no_nul s) True So;
  tail_messages : Forall (fun s => is_str s /\ head_not_nul s) M;
}.

Lemma hash_tail_inj P P' g g' So So' M M' :
  tail_ok P g So M -> tail_ok P' g' So' M' -> hash_tail P g So M = hash_tail P' g' So' M' ->
  P = P' /\ g = g' /\ So = So' /\ M = M'.
Proof.
  intros [[HP _] Hg HS HM] [[HP' _] Hg' HS' HM'] H. unfold hash_tail in H.
  apply hash_str_inj in H as [-> H]; [|done..]. apply hash_u32_inj in H as [-> H]; [|done..].
  apply (hash_option_inj hash_str is_str) in H as [-> H];
    [|intros; by apply hash_str_inj|by destruct So; simpl in *; tauto|by destruct So'; simpl in *; tauto].
  apply hash_strs_inj in H; [by rewrite H|eapply Forall_impl; [done|by intros ? []]..].
Qed.

(** The strings that follow a scope value: the scope value first. *)
Lemma scope_strings So M : exists d L, hash_option hash_str So ++ hash_strs M = hash_u64 d ++ hash_strs L /\
  (d = 0 \/ d = 1)%N /\ L = option_list So ++ M.
Proof.
  destruct So as [s|]; [exists 1%N, (s :: M)|exists 0%N, M]; (split; [|auto]); cbn [hash_option].
  - by rewrite <- app_assoc.
  - done.
Qed.

Lemma discriminant_bytes d : (d = 0 \/ d = 1)%N -> hash_u64 d = d :: repeat 0%N 7.
Proof. destruct hash_u64_01. by intros [-> | ->]. Qed.

(** A policy cannot be read where the other request has messages. *)
Lemma tail_misaligned P P' g g' So So' M M' W :
  tail_ok P g So M -> tail_ok P' g' So' M' -> P' ∉ M -> Forall is_str W ->
  hash_tail P g So M = hash_strs (P :: W) ++ hash_tail P' g' So' M' -> False.
Proof.
  intros [[HP _] Hg HS HM] [[HP' Hn'] Hg' HS' HM'] HPM HW H. unfold hash_tail in H.
  change (hash_strs (P :: W)) with (hash_str P ++ hash_strs W) in H. rewrite <- app_assoc in H.
  apply hash_str_inj in H as [_ H]; [|done..].
  destruct (scope_strings So M) as (d & L & HL & Hd & ->). destruct (scope_strings So' M') as (d' & L' & HL' & Hd' & _).
  rewrite HL, HL', !discriminant_bytes in H by done.
  replace (hash_strs W ++ hash_str P' ++ hash_u32 g' ++ _)
    with (hash_strs (W ++ [P']) ++ hash_u32 g' ++ (d' :: repeat 0%N 7) ++ hash_strs L') in H.
  2: { rewrite hash_strs_app, <- app_assoc. do 2 f_equal. change (hash_strs [P']) with (hash_str P' ++ []). by rewrite app_nil_r. }
  assert (Forall (fun s => is_str s /\ head_not_nul s) (option_list So ++ M)) as Hall.
  { apply Forall_app. split; [|done]. destruct So as [s|]; [|constructor]. simpl in *. constructor; [|constructor].
    split; [tauto|]. unfold head_not_nul. destruct HS as [_ HS]. unfold no_nul in HS. destruct (lit s); [done|]. intros [= ->]. apply HS. by left. }
  apply strings_over_raw in H as [(rest & HG & HX)|[Hnul|HPt]].
  - assert (length rest <= 3)%nat as Hr.
    { apply (f_equal length) in HG. rewrite length_app, hash_strs_app, length_app, hash_strs_cons, length_app in HG.
      unfold hash_u32 in HG. rewrite le_bytes_length in HG. simpl in HG. lia. }
    assert ((hash_u32 g' ++ (d' :: repeat 0%N 7) ++ hash_strs L') !! (length rest + 8)%nat = Some 0%N) as H0.
    { rewrite lookup_app_r by (unfold hash_u32; rewrite le_bytes_length; lia). unfold hash_u32. rewrite le_bytes_length.
      rewrite lookup_app_l by (simpl; lia). replace (length rest + 8 - 4)%nat with (Datatypes.S (length rest + 3)) by lia.
      simpl. destruct rest as [|? [|? [|? [|]]]]; simpl in *; (done || lia). }
    rewrite HX, lookup_app_r in H0 by lia. replace (length rest + 8 - length rest)%nat with 8%nat in H0 by lia.
    change (hash_strs (option_list So ++ M) !! 0 = Some 0%N) in H0.
    destruct (option_list So ++ M) as [|s L]; [done|]. apply Forall_cons in Hall as [[Hs Hh] _]. rewrite hash_strs_cons in H0.
    unfold head_not_nul in Hh. destruct (lit s); simpl in *; congruence.
  - by apply Hnul.
  - apply HPM. destruct So as [s|]; simpl in HPt; [done|]. destruct M; [done|]. simpl in HPt. by right.
  - apply Forall_app. split; [done|]. by constructor.
  - eapply Forall_impl; [exact Hall|by intros ? []].
  - destruct Hd as [-> | ->]; set_solver by lia.
  - destruct Hd as [-> | ->]; set_solver.
Qed.

Lemma extras_tail_inj P P' g g' So So' M M' E : forall E',
  tail_ok P g So M -> tail_ok P' g' So' M' -> P' ∉ M -> P ∉ M' -> Forall is_str E -> Forall is_str E' ->
  hash_strs E ++ hash_tail P g So M = hash_strs E' ++ hash_tail P' g' So' M' ->
  E = E' /\ P = P' /\ g = g' /\ So = So' /\ M = M'.
Proof.
  induction E as [|e E IH]; intros [|e' E'] Hok Hok' HP HP' HE HE' H; [| | |].
  - split; [done|]. by apply hash_tail_inj.
  - exfalso. cbn [app] in H. rewrite hash_strs_nil in H. apply Forall_cons in HE' as [He' HE'].
    assert (e' = P) as ->.
    { revert H. change (hash_strs (e' :: E')) with (hash_str e' ++ hash_strs E'). unfold hash_tail at 1. rewrite <- app_assoc.
      cbn [app]. intros H. apply hash_str_inj in H as [<- _]; [done|by destruct Hok as [[]]|done]. }
    by eapply (tail_misaligned P P' g g' So So' M M' E').
  - exfalso. rewrite hash_strs_nil in H. apply Forall_cons in HE as [He HE]. symmetry in H.
    assert (e = P') as ->.
    { revert H. change (hash_strs (e :: E)) with (hash_str e ++ hash_strs E). unfold hash_tail at 1. rewrite <- app_assoc.
      cbn [app]. intros H. apply hash_str_inj in H as [<- _]; [done|by destruct Hok' as [[]]|done]. }
    by eapply (tail_misaligned P' P g' g So' So M' M E).
  - apply Forall_cons in HE as [He HE]. apply Forall_cons in HE' as [He' HE'].
    change (hash_strs (e :: E)) with (hash_str e ++ hash_strs E) in H.
    change (hash_strs (e' :: E')) with (hash_str e' ++ hash_strs E') in H.
    rewrite <- !app_assoc in H. apply hash_str_inj in H as [-> H]; [|done..].
    apply IH in H as (-> & ?); [|done..]. done.
Qed.

(** The fields of a key as the gateway fills them: strings are UTF-8, the names of
    the policy and the scope hold no NUL. *)
Record key_ok (k : CacheKey) : Prop := {
  key_model : is_str (model k);
  key_temperature : from_option (fun x => x <= u32_max)%N True (temperature_milli k);
  key_top_p : from_option (fun x => x <= u32_max)%N True (top_p_milli k);
  key_tokens : from_option (fun x => x <= u32_max)%N True (key_max_tokens k);
  key_extras : Forall is_str (flat (extras k));
  key_tail : tail_ok (policy_id k) (purge_generation k) (scope_value k) (flat (messages k));
}.

Definition without_messages (k : CacheKey) : CacheKey :=
  mkCacheKey (model k) [] (temperature_milli k) (top_p_milli k) (key_max_tokens k) (extras k)
    (policy_id k) (purge_generation k) (scope_value k).

Lemma hash_key_fields k : hash_key k =
  hash_str (model k) ++ hash_option hash_u32 (temperature_milli k) ++ hash_option hash_u32 (top_p_milli k)
  ++ hash_option hash_u32 (key_max_tokens k) ++ hash_strs (flat (extras k))
  ++ hash_tail (policy_id k) (purge_generation k) (scope_value k) (flat (messages k)).
Proof. unfold hash_key, hash_scope, hash_tail. by rewrite !hash_pairs_strs, <- !app_assoc. Qed.

Lemma hash_key_inj a b :
  key_ok a -> key_ok b -> policy_id b ∉ flat (messages a) -> policy_id a ∉ flat (messages b) ->
  hash_key a = hash_key b -> a = b.
Proof.
  intros [Ha1 Ha2 Ha3 Ha4 Ha5 Ha6] [Hb1 Hb2 Hb3 Hb4 Hb5 Hb6] Hab Hba H. rewrite !hash_key_fields in H.
  apply hash_str_inj in H as [Hm H]; [|done..].
  apply (hash_option_inj hash_u32 (fun x => x <= u32_max)%N) in H as [Ht H]; [|apply hash_u32_inj|done..].
  apply (hash_option_inj hash_u32 (fun x => x <= u32_max)%N) in H as [Hp H]; [|apply hash_u32_inj|done..].
  apply (hash_option_inj hash_u32 (fun x => x <= u32_max)%N) in H as [Hk H]; [|apply hash_u32_inj|done..].
  apply extras_tail_inj in H as (He & HP & Hg & HS & HM); [|done..].
  apply flat_inj in He, HM. destruct a, b; simpl in *. congruence.
Qed.

Lemma hash_scope_inj a b :
  key_ok a -> key_ok b -> hash_scope a = hash_scope b -> without_messages a = without_messages b.
Proof.
  intros Ha Hb H. assert (forall k, key_ok k -> key_ok (without_messages k)) as Hok.
  { intros k [? ? ? ? ? []]. constructor; try done; by constructor. }
  apply hash_key_inj; [by apply Hok|by apply Hok|by apply not_elem_of_nil|by apply not_elem_of_nil|].
  unfold hash_key. rewrite !app_nil_r. exact H.
Qed.

Lemma hash_parts_inj l : forall l',
  Forall is_str l -> Forall is_str l' -> Forall (fun s => N.of_nat (length (lit s)) <= u64_max)%N (l ++ l') ->
  hash_parts l = hash_parts l' -> l = l'.
Proof.
  assert (forall s x, hash_parts (s :: x) = hash_u64 (N.of_nat (length (lit s))) ++ hash_str s ++ hash_parts x) as Hcons
    by (intros s x; unfold hash_parts; cbn [mbind list_bind]; unfold hash_part; by rewrite <- app_assoc).
  induction l as [|s l IH]; intros [|t l'] Hl Hl' Hlen H; [done|by rewrite Hcons in H..|].
  rewrite !Hcons in H. apply Forall_cons in Hl as [Hs Hl], Hl' as [Ht Hl'].
  apply app_inj_1 in H as [_ H]; [|by unfold hash_u64; rewrite !le_bytes_length].
  apply hash_str_inj in H as [-> H]; [|done..]. f_equal. apply IH; [done..| |done].
  revert Hlen. rewrite !Forall_app, !Forall_cons. tauto.
Qed.

(** ** Fingerprints *)

Lemma hex_digit_inj a b : (a < 16)%N -> (b < 16)%N -> hex_digit a = hex_digit b -> a = b.
Proof.
  intros Ha Hb H. apply (f_equal Ascii.N_of_ascii) in H. unfold hex_digit in H.
  rewrite (Ascii.N_ascii_embedding (if (a <? 10)%N then _ else _)) in H by (destruct (N.ltb_spec a 10); lia).
  rewrite (Ascii.N_ascii_embedding (if (b <? 10)%N then _ else _)) in H by (destruct (N.ltb_spec b 10); lia).
  revert H. destruct (N.ltb_spec a 10), (N.ltb_spec b 10); lia.
Qed.

Definition is_byte (b : N) : Prop := (b < 256)%N.

Lemma hex_inj l : forall l', Forall is_byte l -> Forall is_byte l' -> hex l = hex l' -> l = l'.
Proof.
  induction l as [|b l IH]; intros [|c l'] Hl Hl' H; try done. apply Forall_cons in Hl as [Hb Hl], Hl' as [Hc Hl'].
  unfold is_byte in *. cbn [hex foldr] in H. injection H as Hhi Hlo H. apply hex_digit_inj in Hhi; [|apply N.Div0.div_lt_upper_bound; lia..].
  apply hex_digit_inj in Hlo; [|apply N.mod_lt; lia..]. f_equal; [|by apply IH].
  rewrite (N.div_mod b 16), (N.div_mod c 16) by lia. congruence.
Qed.

(** SHA-256 as the fingerprints rely on it: bytes, and no collision between the two
    inputs in the half that is kept. *)
Definition bytes_of (sha256 : bytes -> bytes) : Prop := forall x, Forall is_byte (sha256 x).
Definition no_collision (sha256 : bytes -> bytes) (x y : bytes) : Prop :=
  take 16 (sha256 x) = take 16 (sha256 y) -> x = y.

Lemma finalize_hex_inj sha256 x y :
  bytes_of sha256 -> no_collision sha256 x y -> finalize_hex sha256 x = finalize_hex sha256 y <-> x = y.
Proof.
  intros Hb Hc. split; [|by intros ->]. intros H. apply Hc. apply hex_inj in H; [done|by apply Forall_take..].
Qed.

Lemma quantise_milli_le v : (quantise_milli v <= u32_max)%N.
Proof.
  unfold quantise_milli, f64_as_u32, u32_max. destruct (match v with S754_nan => true | _ => f64_sign v end); [lia|].
  destruct (SFltb _ _); [lia|]. destruct (f64_mul _ _) as [|[]| |[] ? []]; lia.
Qed.

(** Strings as the gateway receives them, and a policy named like no message. *)
Record request_ok (json_to_string : json -> string) (req : ChatRequest) : Prop := {
  request_model : is_str (req_model req);
  request_json : forall v, is_str (json_to_string v);
  request_texts : Forall (fun m => is_str (content_str m)) (req_messages req);
  request_extra : Forall (fun m => is_str m.1) (req_extra req);
  request_tokens : from_option (fun x => x <= u32_max)%N True (max_tokens req);
}.
Definition plain_name (policy : string) : Prop :=
  is_str policy /\ no_nul policy /\ (forall r, policy <> role_str r) /\
  (forall s, policy <> "t:" +:+ s) /\ (forall s, policy <> "b:" +:+ s) /\ (forall s, policy <> "j:" +:+ s).

Lemma lit_app s t : lit (s +:+ t) = lit s ++ lit t.
Proof. induction s as [|a s IH]; [done|]. simpl. by f_equal. Qed.

Lemma is_str_app s t : is_str s -> is_str t -> is_str (s +:+ t).
Proof. unfold is_str. rewrite lit_app. set_solver. Qed.

Ltac no_byte := unfold is_str, no_nul; cbn [lit]; intros Hin; vm_compute in Hin;
  repeat (apply elem_of_cons in Hin as [Hin|Hin]; [discriminate Hin|]); by apply elem_of_nil in Hin.

Lemma role_is_str r : is_str (role_str r).
Proof. destruct r; no_byte. Qed.

Lemma message_pair_ok json_to_string policy m :
  (forall v, is_str (json_to_string v)) -> is_str (content_str m) -> plain_name policy ->
  let '(r, c) := message_pair json_to_string m in
  (is_str r /\ head_not_nul r /\ policy <> r) /\ (is_str c /\ head_not_nul c /\ policy <> c).
Proof.
  intros Hj Hc (_ & _ & Hr & Ht & Hb & Hd). assert (is_str (role_str (role m)) /\ head_not_nul (role_str (role m)) /\ policy <> role_str (role m)) as Hrole
    by (split_and!; [apply role_is_str|by destruct (role m)|apply Hr]).
  unfold message_pair. destruct (undecorated m); [destruct (content_blocks m)|]; (split; [done|]);
    (split_and!; [apply is_str_app; [no_byte|auto]|done|auto]).
Qed.

Lemma flat_elem l s : s ∈ flat l <-> exists p, p ∈ l /\ (s = p.1 \/ s = p.2).
Proof.
  unfold flat. rewrite list_elem_of_bind. split.
  - intros ([k v] & Hs & Hp). exists (k, v). set_solver.
  - intros ([k v] & Hp & Hs). exists (k, v). set_solver.
Qed.

Lemma canonical_extras_elem json_to_string extra p :
  p ∈ canonical_extras json_to_string extra <->
  exists k v, (k, v) ∈ extra /\ p = (k, canonical_json_string json_to_string v).
Proof.
  unfold canonical_extras. rewrite stable_sort_perm, list_elem_of_fmap. split.
  - intros ([k v] & -> & Hin). by exists k, v.
  - intros (k & v & Hin & ->). by exists (k, v).
Qed.

(** Where no field has the reserved name, the fields and the routing tags can be
    told apart. *)
Lemma chat_key_tags json_to_string req req' policy policy' generation generation' scope scope' tags tags' :
  ROUTING_TAGS ∉ (req_extra req).*1 -> ROUTING_TAGS ∉ (req_extra req').*1 ->
  extras (chat_key json_to_string req policy generation scope tags)
    = extras (chat_key json_to_string req' policy' generation' scope' tags') ->
  canonical_extras json_to_string (req_extra req) = canonical_extras json_to_string (req_extra req') /\ tags = tags'.
Proof.
  assert (forall extra x l, ROUTING_TAGS ∉ extra.*1 -> canonical_extras json_to_string extra <> l ++ [(ROUTING_TAGS, x)]) as Hno.
  { intros extra x l Hn Hl. assert ((ROUTING_TAGS, x) ∈ canonical_extras json_to_string extra) as H by (rewrite Hl; apply elem_of_app; right; by left).
    apply canonical_extras_elem in H as (k & v & Hin & Heq). apply (f_equal fst) in Heq. cbn [fst] in Heq. subst k.
    apply Hn, list_elem_of_fmap. by exists (ROUTING_TAGS, v). }
  intros Hr Hr'. destruct tags as [t|], tags' as [t'|]; cbn; intros H;
    [|by destruct (Hno _ t _ Hr' (eq_sym H))|by destruct (Hno _ t' _ Hr H)|done].
  apply app_inj_tail in H as [-> [= ->]]. done.
Qed.

Definition scope_ok (o : option string) : Prop := from_option (fun s => is_str s /\ no_nul s) True o.

Lemma chat_key_ok json_to_string req policy generation scope tags other :
  request_ok json_to_string req -> plain_name policy -> plain_name other -> (generation <= u32_max)%N ->
  scope_ok scope -> from_option is_str True tags ->
  let k := chat_key json_to_string req policy generation scope tags in
  key_ok k /\ other ∉ flat (messages k).
Proof.
  intros [Hm Hj Ht He Hn] Hp Ho Hg Hs Htags k.
  assert (messages k = message_pair json_to_string <$> req_messages req) as Hmsgs by (unfold k, chat_key; by destruct tags).
  assert (forall q s, plain_name q -> s ∈ flat (messages k) -> is_str s /\ head_not_nul s /\ q <> s) as Hall.
  { rewrite Hmsgs. intros q s Hq (p & (m & -> & Hin)%list_elem_of_fmap & Hsp)%flat_elem.
    pose proof (message_pair_ok json_to_string q m Hj (proj1 (Forall_forall _ _) Ht m Hin) Hq) as H.
    destruct (message_pair json_to_string m) as [r c]. simpl in Hsp. destruct Hsp as [-> | ->]; tauto. }
  split; [|intros Hin; by destruct (Hall other other Ho Hin) as (_ & _ & ?)].
  assert (tail_ok policy generation scope (flat (messages k))) as Htail.
  { constructor; [by destruct Hp as (? & ? & _)|done|done|]. apply Forall_forall. intros s Hin. by destruct (Hall policy s Hp Hin) as (? & ? & _). }
  assert (Forall is_str (flat (canonical_extras json_to_string (req_extra req)))) as Hextras.
  { apply Forall_forall. intros s (p & (k0 & v & Hin & ->)%canonical_extras_elem & [-> | ->])%flat_elem; simpl; [|apply Hj].
    by apply (proj1 (Forall_forall _ _) He (k0, v)). }
  assert (forall o, from_option (fun x => x <= u32_max)%N True (quantise_milli <$> o)) as Hq by (intros [v|]; [apply quantise_milli_le|done]).
  unfold k, chat_key in *. destruct tags as [t|]; (constructor; [done|apply Hq..|done| |done]); simpl; [|done].
  unfold flat in *. rewrite bind_app. apply Forall_app. split; [done|]. cbn [mbind list_bind]. constructor; [no_byte|]. by constructor.
Qed.

(** ** The same request in another key order *)

Inductive json_equiv : json -> json -> Prop :=
  | equiv_refl v : json_equiv v v
  | equiv_array l l' : Forall2 json_equiv l l' -> json_equiv (JArray l) (JArray l')
  | equiv_object l l' l'' :
      NoDup l.*1 -> Forall2 (fun a b => a.1 = b.1 /\ json_equiv a.2 b.2) l l' -> l' ≡ₚ l'' ->
      json_equiv (JObject l) (JObject l'').

Lemma canonicalise_array l : canonicalise (JArray l) = JArray (canonicalise <$> l).
Proof. done. Qed.

Lemma canonicalise_object l : canonicalise (JObject l) = JObject (stable_sort key_leb (prod_map id canonicalise <$> l)).
Proof.
  cbn [canonicalise]. do 2 f_equal. induction l as [|[k x] l IH]; [done|]. rewrite fmap_cons. by f_equal.
Qed.

Lemma fst_unique {A B} (l : list (A * B)) k v v' : NoDup l.*1 -> (k, v) ∈ l -> (k, v') ∈ l -> v = v'.
Proof.
  induction l as [|[k0 v0] l IH]; [by intros _ ?%elem_of_nil|]. rewrite fmap_cons. intros [Hk Hn]%NoDup_cons.
  rewrite !elem_of_cons. intros [H|H] [H'|H']; simplify_eq; [done| | |by apply IH];
    exfalso; apply Hk; apply list_elem_of_fmap; (eexists; split; [|eassumption]); done.
Qed.

Lemma same_keys_eq {A B} (l : list (A * B)) : forall l', NoDup l.*1 -> l.*1 = l'.*1 -> (forall p, p ∈ l' -> p ∈ l) -> l = l'.
Proof.
  induction l as [|[k v] l IH]; intros [|[k' v'] l'] Hn Hk Hin; try done. rewrite !fmap_cons in Hk. injection Hk as <- Hk.
  assert (v = v') as <- by (eapply (fst_unique _ k); [exact Hn|by left|apply Hin; by left]). f_equal.
  rewrite fmap_cons in Hn. apply NoDup_cons in Hn as [Hkn Hn]. apply IH; [done|done|]. intros [k0 v0] Hp.
  assert ((k0, v0) ∈ (k, v) :: l) as [?|?]%elem_of_cons by (apply Hin; by right); [|done].
  simplify_eq. exfalso. apply Hkn. rewrite Hk. apply list_elem_of_fmap. eexists; split; [|eassumption]; done.
Qed.

(** Sorting by distinct keys forgets the order. *)
Lemma sort_by_key_perm {A} (l l' : list (string * A)) :
  NoDup l.*1 -> l ≡ₚ l' -> stable_sort key_leb l = stable_sort key_leb l'.
Proof.
  intros Hn Hp.
  assert (forall m : list (string * A), (stable_sort key_leb m).*1 = stable_sort string_leb m.*1) as Hfst
    by (intros m; symmetry; by apply stable_sort_fmap).
  apply same_keys_eq.
  - by rewrite stable_sort_perm.
  - rewrite !Hfst. apply (sorted_unique string_leb); [apply string_leb_total|exact string_leb_antisym|..].
    1-2: apply stable_sort_sorted; [apply string_leb_total|exact string_leb_trans].
    rewrite !stable_sort_perm. by rewrite Hp.
  - intros p. by rewrite !stable_sort_perm, Hp.
Qed.

Lemma canonicalise_equiv v w : json_equiv v w -> canonicalise v = canonicalise w.
Proof.
  revert v w. fix IH 3. intros v w [u|l l' Hl|l l' l'' Hn Hl Hp]; [done| |].
  - rewrite !canonicalise_array. f_equal. induction Hl as [|x y l l' Hxy Hl IHl]; [done|]. rewrite !fmap_cons.
    f_equal; [by apply IH|exact IHl].
  - rewrite !canonicalise_object. f_equal. transitivity (stable_sort key_leb (prod_map id canonicalise <$> l')).
    + f_equal. clear Hn Hp. induction Hl as [|[k x] [k' y] l l' [Hk Hxy] Hl IHl]; [done|]. rewrite !fmap_cons. simpl in Hk.
      f_equal; [|exact IHl]. unfold prod_map. simpl. rewrite Hk. f_equal. by apply IH.
    + apply sort_by_key_perm; [|by rewrite Hp].
      replace ((prod_map id canonicalise <$> l').*1) with (l.*1); [done|]. clear Hn Hp.
      induction Hl as [|[k x] [k' y] l l' [Hk Hxy] Hl IHl]; [done|]. rewrite !fmap_cons. simpl in *. by f_equal.
Qed.

Record message_equiv (m n : RequestMessage) : Prop := {
  same_role : role m = role n;
  same_content : content m = content n;
  same_blocks : option_Forall2 (Forall2 json_equiv) (content_blocks m) (content_blocks n);
  same_block_text : blocks_text <$> content_blocks m = blocks_text <$> content_blocks n;
  same_name : message_name m = message_name n;
  same_tool_call : tool_call_id m = tool_call_id n;
  same_message_extra : json_equiv (JObject (message_extra m)) (JObject (message_extra n));
}.

Lemma canonicalise_equivs l l' : Forall2 json_equiv l l' -> canonicalise <$> l = canonicalise <$> l'.
Proof. induction 1 as [|v w l l' H _ IH]; [done|]. rewrite !fmap_cons. f_equal; [by apply canonicalise_equiv|done]. Qed.

Lemma equiv_empty l : json_equiv (JObject []) (JObject l) -> l = [].
Proof.
  inversion 1 as [| |? l1 l2 Hn Hl Hp Heq]; [done|]. inversion Hl; subst. by apply Permutation_nil_l in Hp.
Qed.

Lemma equiv_empty_r l : json_equiv (JObject l) (JObject []) -> l = [].
Proof.
  inversion 1 as [| |l0 l1 l2 Hn Hl Hp Heq]; [done|]. subst. apply Permutation_nil_r in Hp. subst. by inversion Hl.
Qed.

Lemma undecorated_equiv m n : message_equiv m n -> undecorated m = undecorated n.
Proof.
  intros [_ _ _ _ Hn Ht He]. unfold undecorated. rewrite Hn, Ht. destruct (message_name n), (tool_call_id n); try done.
  destruct (message_extra m) eqn:E1; [by apply equiv_empty in He as ->|]. destruct (message_extra n) eqn:E2; [|done].
  by apply equiv_empty_r in He.
Qed.

Lemma message_pair_equiv json_to_string m n :
  message_equiv m n -> message_pair json_to_string m = message_pair json_to_string n.
Proof.
  intros H. pose proof (undecorated_equiv m n H) as Hu. destruct H as [Hr Hc Hb Hbt Hn Ht He].
  unfold message_pair, content_str, message_text. rewrite Hu, Hr, Hc, Hn, Ht, Hbt, (canonicalise_equiv _ _ He).
  destruct Hb as [l l' Hl|]; [|done]. by rewrite (canonicalise_equivs _ _ Hl).
Qed.

Lemma canonical_extras_equiv json_to_string l l'' :
  json_equiv (JObject l) (JObject l'') -> canonical_extras json_to_string l = canonical_extras json_to_string l''.
Proof.
  inversion 1 as [| |l0 l1 l2 Hn Hl Hp]; subst; [done|]. unfold canonical_extras.
  assert ((fun '(k, v) => (k, canonical_json_string json_to_string v)) <$> l
          = (fun '(k, v) => (k, canonical_json_string json_to_string v)) <$> l1) as Heq.
  { clear Hn Hp H. induction Hl as [|[k x] [k' y] l l1 [Hk Hxy] Hl IHl]; [done|]. rewrite !fmap_cons. simpl in Hk. subst k'.
    f_equal; [|done]. unfold canonical_json_string. by rewrite (canonicalise_equiv x y). }
  rewrite Heq. apply sort_by_key_perm; [|by rewrite Hp].
  rewrite <- Heq, <- list_fmap_compose. rewrite (list_fmap_ext _ fst l); [done|]. by intros i [k v].
Qed.

(** ** The semantic text *)

Lemma lit_replace c w s :
  lit (replace_char c w s) = lit s ≫= fun b => if (b =? Ascii.N_of_ascii c)%N then lit w else [b].
Proof.
  induction s as [|a s IH]; [done|]. cbn [replace_char lit]. rewrite lit_app, IH. cbn [mbind list_bind]. f_equal.
  destruct (Ascii.eqb_spec a c) as [Ha|Ha]; [by rewrite Ha, N.eqb_refl|]. destruct (N.eqb_spec (Ascii.N_of_ascii a) (Ascii.N_of_ascii c)) as [E|]; [|done].
  exfalso. apply Ha. by rewrite <- (Ascii.ascii_N_embedding a), E, Ascii.ascii_N_embedding.
Qed.

(** A byte as the two replacements leave it. *)
Definition escaped_byte (b : N) : bytes := if (b =? 92)%N then [92; 92]%N else if (b =? 10)%N then [92; 110]%N else [b].

Lemma lit_escape s : lit (escape_text s) = lit s ≫= escaped_byte.
Proof.
  unfold escape_text. rewrite !lit_replace. induction (lit s) as [|b l IH]; [done|].
  cbn [mbind list_bind]. rewrite bind_app, IH. f_equal. unfold escaped_byte.
  change (Ascii.N_of_ascii BACKSLASH) with 92%N. change (Ascii.N_of_ascii NEWLINE) with 10%N.
  destruct (N.eqb_spec b 92); [done|]. cbn [mbind list_bind]. by destruct (b =? 10)%N.
Qed.

Lemma escaped_byte_no_lf l : (10 ∉ l ≫= escaped_byte)%N.
Proof.
  rewrite list_elem_of_bind. intros (b & Hb & _). unfold escaped_byte in Hb.
  destruct (N.eqb_spec b 92); [set_solver|]. destruct (N.eqb_spec b 10); set_solver.
Qed.

Lemma escaped_byte_inj l : forall l', l ≫= escaped_byte = l' ≫= escaped_byte -> l = l'.
Proof.
  induction l as [|b l IH]; intros [|c l'] H; cbn [mbind list_bind] in H; [done| | |].
  1,2: exfalso; revert H; unfold escaped_byte; repeat case_match; done.
  assert (b = c /\ l ≫= escaped_byte = l' ≫= escaped_byte) as [-> ?]; [|f_equal; by apply IH].
  revert H. unfold escaped_byte. destruct (N.eqb_spec b 92), (N.eqb_spec c 92); [| |destruct (N.eqb_spec b 10)|];
    try destruct (N.eqb_spec c 10); try destruct (N.eqb_spec b 10); cbn [app]; intros H; simplify_eq; done.
Qed.

Definition role_line (p : Role * string) : bytes := lit (role_str p.1) ++ [58; 32]%N ++ (lit p.2 ≫= escaped_byte) ++ [10%N].

Lemma role_line_inj p q a b : role_line p ++ a = role_line q ++ b -> p = q /\ a = b.
Proof.
  destruct p as [r s], q as [r' s']. unfold role_line. cbn [fst snd]. rewrite <- !app_assoc. cbn [app]. intros H.
  assert (forall r, (58 ∉ lit (role_str r))%N) as Hcolon by (intros []; vm_compute; set_solver).
  apply split_unique in H as [Hr H]; [|apply Hcolon..]. injection H as H. rewrite <- ?app_assoc in H.
  apply split_unique in H as [Hs ->]; [|apply escaped_byte_no_lf..].
  apply escaped_byte_inj, (inj lit) in Hs as ->. assert (r = r') as -> by (by destruct r, r'). done.
Qed.

(** What the text is read off, message by message. *)
Definition prompt_parts (l : list RequestMessage) : option (list (Role * string)) :=
  mapM (fun m => pair (role m) <$> embeddable_text m) l.

Lemma prompt_loop_spec l : forall out has t, prompt_loop l out has = Some t ->
  exists parts, prompt_parts l = Some parts /\ lit t = lit out ++ (parts ≫= role_line).
Proof.
  induction l as [|m l IH]; intros out has t; cbn [prompt_loop].
  - destruct has; [|done]. intros [= ->]. exists []. split; [done|]. by rewrite app_nil_r.
  - destruct (embeddable_text m) as [s|] eqn:E; [|done]. intros H. destruct (IH _ _ _ H) as (parts & Hp & Ht).
    exists ((role m, s) :: parts). split; [unfold prompt_parts in *; cbn [mapM]; by rewrite E; simpl; rewrite Hp|].
    rewrite Ht, !lit_app, lit_escape. cbn [mbind list_bind]. unfold role_line. cbn [fst snd lit]. by rewrite <- !app_assoc.
Qed.

Lemma role_lines_inj l : forall l', l ≫= role_line = l' ≫= role_line -> l = l'.
Proof.
  induction l as [|p l IH]; intros [|q l'] H; cbn [mbind list_bind] in H; [done| | |].
  1,2: exfalso; revert H; unfold role_line; destruct (role_str _) eqn:E; simpl; done.
  apply role_line_inj in H as [-> H]. f_equal. by apply IH.
Qed.

Lemma fingerprints_inj sha256 json_to_string a b policy_a policy_b gen_a gen_b scope_a scope_b tags_a tags_b :
  request_ok json_to_string a -> request_ok json_to_string b -> plain_name policy_a -> plain_name policy_b ->
  (gen_a <= u32_max)%N -> (gen_b <= u32_max)%N -> scope_ok scope_a -> scope_ok scope_b ->
  from_option is_str True tags_a -> from_option is_str True tags_b ->
  let ka := chat_key json_to_string a policy_a gen_a scope_a tags_a in
  let kb := chat_key json_to_string b policy_b gen_b scope_b tags_b in
  bytes_of sha256 -> no_collision sha256 (hash_key ka) (hash_key kb) -> no_collision sha256 (hash_scope ka) (hash_scope kb) ->
  (fingerprint sha256 ka = fingerprint sha256 kb <-> ka = kb) /\
  (scope_fingerprint sha256 ka = scope_fingerprint sha256 kb <-> without_messages ka = without_messages kb) /\
  (ka = kb -> policy_a = policy_b /\ gen_a = gen_b /\ scope_a = scope_b).
Proof.
  intros Ha Hb Hpa Hpb Hga Hgb Hsa Hsb Hta Htb ka kb Hbytes Hc1 Hc2.
  destruct (chat_key_ok json_to_string a policy_a gen_a scope_a tags_a policy_b) as [Hka Hba]; [done..|].
  destruct (chat_key_ok json_to_string b policy_b gen_b scope_b tags_b policy_a) as [Hkb Hab]; [done..|].
  assert (forall req p g s t, policy_id (chat_key json_to_string req p g s t) = p /\
    purge_generation (chat_key json_to_string req p g s t) = g /\ scope_value (chat_key json_to_string req p g s t) = s) as Hf
    by (intros ? ? ? ? []; done).
  unfold fingerprint, scope_fingerprint. rewrite !finalize_hex_inj by done. split_and!.
  - split; [|by intros ->]. apply hash_key_inj; [done..| |]; unfold ka, kb in *; by rewrite (proj1 (Hf _ _ _ _ _)).
  - split; [by apply hash_scope_inj|]. intros H. unfold hash_scope. by injection H as -> -> -> -> -> -> -> ->.
  - intros H. pose proof (f_equal policy_id H) as H1. pose proof (f_equal purge_generation H) as H2.
    pose proof (f_equal scope_value H) as H3. unfold ka, kb in H1, H2, H3. by destruct tags_a, tags_b.
Qed.

(** ** Properties *)

(** C15. Where SHA-256 does not collide, two chat requests share an exact entry exactly
    when their keys agree in every field: the messages, the sampling, the extra
    fields and the routing tags, the policy and its purge generation, and who may
    share the entry; and a semantic partition exactly when they agree in all of
    that but the messages.  Policies are not named like a message. *)
Theorem fingerprints_exact sha256 json_to_string a b policy_a policy_b gen_a gen_b scope_a scope_b tags_a tags_b :
  request_ok json_to_string a -> request_ok json_to_string b -> plain_name policy_a -> plain_name policy_b ->
  (gen_a <= u32_max)%N -> (gen_b <= u32_max)%N -> scope_ok scope_a -> scope_ok scope_b ->
  from_option is_str True tags_a -> from_option is_str True tags_b ->
  let ka := chat_key json_to_string a policy_a gen_a scope_a tags_a in
  let kb := chat_key json_to_string b policy_b gen_b scope_b tags_b in
  bytes_of sha256 -> no_collision sha256 (hash_key ka) (hash_key kb) -> no_collision sha256 (hash_scope ka) (hash_scope kb) ->
  (fingerprint sha256 ka = fingerprint sha256 kb <-> ka = kb) /\
  (scope_fingerprint sha256 ka = scope_fingerprint sha256 kb <-> without_messages ka = without_messages kb) /\
  (ka = kb -> policy_a = policy_b /\ gen_a = gen_b /\ scope_a = scope_b).
Proof. intros. by apply fingerprints_inj. Qed.

(** Two requests that differ in the order of the keys of their JSON objects, at
    any depth, have the same key. *)
Theorem key_order_irrelevant json_to_string model_ messages_a messages_b temp top tokens extra_a extra_b :
  Forall2 message_equiv messages_a messages_b -> json_equiv (JObject extra_a) (JObject extra_b) ->
  from_request json_to_string (mkChatRequest model_ messages_a temp top tokens extra_a)
  = from_request json_to_string (mkChatRequest model_ messages_b temp top tokens extra_b).
Proof.
  intros Hm He. unfold from_request. cbn [req_model req_messages temperature top_p max_tokens req_extra].
  rewrite (canonical_extras_equiv _ _ _ He). f_equal.
  induction Hm as [|m n l l' Hmn _ IH]; [done|]. rewrite !fmap_cons. f_equal; [by apply message_pair_equiv|done].
Qed.

(** The semantic layer embeds a request exactly when every message is plain text
    and one is not blank, and the text determines the roles and the texts of the
    messages: no content forges a message boundary. *)
Theorem semantic_text_exact a b t :
  (is_Some (semantic_prompt_text a) <->
    Forall (fun m => is_Some (embeddable_text m)) (req_messages a) /\
    Exists (fun m => from_option is_blank true (embeddable_text m) = false) (req_messages a)) /\
  (semantic_prompt_text a = Some t -> semantic_prompt_text b = Some t ->
   prompt_parts (req_messages a) = prompt_parts (req_messages b)).
Proof.
  split.
  - unfold semantic_prompt_text. assert (forall l out has, is_Some (prompt_loop l out has) <->
      Forall (fun m => is_Some (embeddable_text m)) l /\
      (has = true \/ Exists (fun m => from_option is_blank true (embeddable_text m) = false) l)) as H.
    { induction l as [|m l IH]; intros out has; cbn [prompt_loop].
      - rewrite Exists_nil, Forall_nil. destruct has; split; [by eauto|by eexists|by intros []|by intros [_ [|]]].
      - rewrite Forall_cons, Exists_cons. destruct (embeddable_text m) as [s|] eqn:E.
        + rewrite IH, orb_true_iff, negb_true_iff. cbn [from_option]. assert (is_Some (Some s)) by by eexists. tauto.
        + split; [by intros []|by intros [[[] _] _]]. }
    rewrite H. intuition congruence.
  - unfold semantic_prompt_text. intros Ha Hb.
    apply prompt_loop_spec in Ha as (pa & -> & Hpa), Hb as (pb & -> & Hpb). f_equal. apply role_lines_inj. simpl in *. congruence.
Qed.

(** ** Witnesses *)

(** A checksum in place of SHA-256, and a printer of the values that occur. *)
Definition demo_digest (x : bytes) : bytes := le_bytes 16 (foldl (fun h b => h * 1099511628211 + b + 1)%N 7%N x).
Definition demo_json (v : json) : string := match v with JArray _ => "[]" | JNumber _ => "1" | _ => "{}" end.
Definition demo_message (s : string) : RequestMessage := mkReqMessage User (Some s) None None None [].
Definition demo_request (s : string) (extra : list (string * json)) : ChatRequest :=
  mkChatRequest "gpt" [demo_message s] None None (Some 10%N) extra.

Lemma demo_digest_bytes : bytes_of demo_digest.
Proof.
  intros x. unfold demo_digest. generalize (foldl (fun h b => h * 1099511628211 + b + 1)%N 7%N x). generalize 16.
  intros n. induction n as [|n IH]; intros h; simpl; constructor; [|done]. unfold is_byte. apply N.mod_lt. lia.
Qed.

Lemma demo_json_str v : is_str (demo_json v).
Proof. destruct v; no_byte. Qed.

Lemma demo_request_ok s extra :
  is_str s -> Forall (fun m : string * json => is_str m.1) extra -> request_ok demo_json (demo_request s extra).
Proof. intros Hs He. constructor; [no_byte|apply demo_json_str|by repeat constructor|done|done]. Qed.

Lemma no_collision_decided sha256 x y :
  bool_decide (take 16 (sha256 x) = take 16 (sha256 y)) = false -> no_collision sha256 x y.
Proof. intros H%bool_decide_eq_false Heq. by destruct H. Qed.

Lemma plain_uuid : plain_name "4f1c".
Proof. split_and!; [no_byte|no_byte|by intros []|by intros [|]..]. Qed.

(** The same question under two purge generations, and from two callers. *)
Lemma fingerprints_exact_witness :
  let key g scope := chat_key demo_json (demo_request "hi" [("seed", JNumber "1")]) "4f1c" g scope (Some "eu") in
  fingerprint demo_digest (key 255%N (Some "k1")) <> fingerprint demo_digest (key 256%N (Some "k1")) /\
  fingerprint demo_digest (key 0%N (Some "k1")) <> fingerprint demo_digest (key 0%N None).
Proof.
  intros key. assert (request_ok demo_json (demo_request "hi" [("seed", JNumber "1")])) as Hr
    by (apply demo_request_ok; [no_byte|repeat constructor; no_byte]).
  assert (scope_ok (Some "k1")) as Hs by (split; no_byte).
  split; intros H.
  - refine (_ (proj1 (proj1 (fingerprints_exact demo_digest demo_json _ _ "4f1c" "4f1c" 255%N 256%N (Some "k1") (Some "k1") (Some "eu") (Some "eu")
      Hr Hr plain_uuid plain_uuid _ _ Hs Hs _ _ demo_digest_bytes _ _)) H)).
    + intros Hk. by apply (f_equal purge_generation) in Hk.
    + by vm_compute.
    + by vm_compute.
    + no_byte.
    + no_byte.
    + apply no_collision_decided. by vm_compute.
    + apply no_collision_decided. by vm_compute.
  - refine (_ (proj1 (proj1 (fingerprints_exact demo_digest demo_json _ _ "4f1c" "4f1c" 0%N 0%N (Some "k1") None (Some "eu") (Some "eu")
      Hr Hr plain_uuid plain_uuid _ _ Hs I _ _ demo_digest_bytes _ _)) H)).
    + intros Hk. by apply (f_equal scope_value) in Hk.
    + by vm_compute.
    + by vm_compute.
    + no_byte.
    + no_byte.
    + apply no_collision_decided. by vm_compute.
    + apply no_collision_decided. by vm_compute.
Defined.

Lemma key_order_irrelevant_witness :
  from_request demo_json (mkChatRequest "gpt" [demo_message "hi"] None None None
    [("tools", JObject [("b", JNumber "1"); ("a", JNull)]); ("seed", JNumber "1")])
  = from_request demo_json (mkChatRequest "gpt" [demo_message "hi"] None None None
    [("seed", JNumber "1"); ("tools", JObject [("a", JNull); ("b", JNumber "1")])]).
Proof.
  apply key_order_irrelevant.
  - constructor; [|constructor]. constructor; try reflexivity; [constructor|apply equiv_refl].
  - eapply equiv_object with [("tools", JObject [("a", JNull); ("b", JNumber "1")]); ("seed", JNumber "1")];
      [apply (bool_decide_unpack _); by vm_compute| |apply perm_swap].
    constructor; [|constructor; [|constructor]; (split; [reflexivity|apply equiv_refl])]. split; [reflexivity|].
    eapply equiv_object with [("b", JNumber "1"); ("a", JNull)];
      [apply (bool_decide_unpack _); by vm_compute| |apply perm_swap].
    repeat constructor.
Defined.

(** A request that plays an answer inside its own text. *)
Lemma semantic_text_exact_witness :
  semantic_prompt_text (demo_request (String NEWLINE "assistant: no") []) <>
  semantic_prompt_text (mkChatRequest "gpt" [demo_message ""; mkReqMessage Assistant (Some "no") None None None []] None None None []).
Proof.
  intros H. destruct (semantic_prompt_text (demo_request (String NEWLINE "assistant: no") [])) as [t|] eqn:E; [|by vm_compute in E].
  pose proof (proj2 (semantic_text_exact _ _ t) E (eq_sym H)) as Hp. by vm_compute in Hp.
Defined.

(** The name the routing tags ride under is one a request field can have. *)
Lemma routing_tags_name_taken :
  chat_key demo_json (demo_request "hi" [(ROUTING_TAGS, JNumber "1")]) "4f1c" 0 None None
  = chat_key demo_json (demo_request "hi" []) "4f1c" 0 None (Some "1").
Proof. reflexivity. Qed.
