(* ===== verification/SemCache.v ===== *)
(** * The in-process semantic cache

    [crates/aisix-cache/src/semantic.rs]: stored answers found by the similarity
    of embeddings, partitioned by policy, purge generation and scope fingerprint.

    An [f32] is the standard library's [spec_float] at precision 24; an [Instant]
    is an [N].  A call runs as one step: it holds the shard of its policy. *)

From S2P Require Import Prelude.
From Stdlib Require Import SpecFloat.
Local Open Scope nat_scope.

(** ** Single-precision vectors *)

Abbreviation f32 := spec_float.
Definition f32_add : f32 -> f32 -> f32 := SFadd 24 128.
Definition f32_mul : f32 -> f32 -> f32 := SFmul 24 128.
Definition f32_div : f32 -> f32 -> f32 := SFdiv 24 128.
Definition f32_sqrt : f32 -> f32 := SFsqrt 24 128.
Definition f32_zero : f32 := S754_zero false.
Definition f32_finite (x : f32) : bool := match x with S754_zero _ | S754_finite _ _ _ => true | _ => false end.

(** [Iterator::sum] starts from the negative zero. *)
Definition f32_sum (l : list f32) : f32 := foldl f32_add (S754_zero true) l.

Definition unit_vector (v : list f32) : list f32 :=
  let norm := f32_sqrt (f32_sum ((fun x => f32_mul x x) <$> v)) in
  if SFeqb norm f32_zero || negb (f32_finite norm) then replicate (length v) f32_zero
  else (fun x => f32_div x norm) <$> v.

Definition unit_similarity (query stored : list f32) : f32 :=
  if negb (length query =? length stored) then f32_zero
  else f32_sum (zip_with f32_mul query stored).

(** [a > b] *)
Definition f32_gtb (a b : f32) : bool := SFltb b a.

(** ** The store *)

Section store.
Context {A : Type}.

(** A chat response: the field a cached copy loses, and the rest. *)
Record CachedResponse := mkResponse { service_tier : option string; answer : A }.
Definition without_tier (r : CachedResponse) : CachedResponse := mkResponse None (answer r).

Record SemanticHit := mkHit { hit_response : CachedResponse; similarity : f32; hit_expires_at : N }.

Record SemanticEntry := mkEntry {
  scope_fp : string;
  exact_key : string;
  embedding : list f32;
  response : CachedResponse;
  expires_at : N;
}.
Record PolicyEntries := mkPolicyEntries { generation : N; entries : list SemanticEntry }.
Abbreviation MemorySemanticCache := (gmap string PolicyEntries).

Definition semantic_new : MemorySemanticCache := ∅.

(** The entries at the front that have expired are popped. *)
Fixpoint pop_expired (now : N) (l : list SemanticEntry) : list SemanticEntry :=
  match l with
  | [] => []
  | e :: l' => if (expires_at e <=? now)%N then pop_expired now l' else l
  end.

Definition live_in (now : N) (scope : string) (e : SemanticEntry) : bool :=
  bool_decide (scope_fp e = scope) && (now <? expires_at e)%N.

Definition nearest_step (query : list f32) (best : option (SemanticEntry * f32)) (e : SemanticEntry)
    : option (SemanticEntry * f32) :=
  let s := unit_similarity query (embedding e) in
  match best with
  | None => Some (e, s)
  | Some (_, current) => if f32_gtb s current then Some (e, s) else best
  end.

Definition semantic_lookup (now : N) (policy_id : string) (gen : N) (scope : string) (emb : list f32) (threshold : f32)
    (c : MemorySemanticCache) : option SemanticHit :=
  policy ← c !! policy_id;
  if negb (generation policy =? gen)%N then None
  else
    let query := unit_vector emb in
    '(e, s) ← foldl (nearest_step query) None (List.filter (live_in now scope) (entries policy));
    if SFleb threshold s && f32_gtb s f32_zero then Some (mkHit (response e) s (expires_at e)) else None.

(** One call of [store]. *)
Record SemanticWrite := mkWrite {
  w_policy : string;
  w_generation : N;
  w_scope : string;
  w_key : string;
  w_embedding : list f32;
  w_response : CachedResponse;
  w_ttl : N;
  w_max_entries : N;
  w_now : N;
}.

(** The other policies' expired entries are reclaimed, and a bucket left empty. *)
Definition reclaim (w : SemanticWrite) (id : string) (p : PolicyEntries) : option PolicyEntries :=
  if bool_decide (id = w_policy w) then Some p
  else match pop_expired (w_now w) (entries p) with
       | [] => None
       | l => Some (mkPolicyEntries (generation p) l)
       end.

Definition supersedes (w : SemanticWrite) (e : SemanticEntry) : bool :=
  bool_decide (exact_key e = w_key w) && bool_decide (scope_fp e = w_scope w).
Definition written_entry (w : SemanticWrite) : SemanticEntry :=
  mkEntry (w_scope w) (w_key w) (unit_vector (w_embedding w)) (without_tier (w_response w)) (w_now w + w_ttl w).
Definition keep_newest (max_entries : N) (l : list SemanticEntry) : list SemanticEntry :=
  drop (length l - N.to_nat max_entries) l.

Definition semantic_store (w : SemanticWrite) (c : MemorySemanticCache) : MemorySemanticCache :=
  let c := map_imap (reclaim w) c in
  let policy := default (mkPolicyEntries (w_generation w) []) (c !! w_policy w) in
  if (w_generation w <? generation policy)%N then <[w_policy w := policy]> c
  else
    let current := if (generation policy <? w_generation w)%N then [] else entries policy in
    let kept := List.filter (fun e => negb (supersedes w e)) (pop_expired (w_now w) current) in
    <[w_policy w := mkPolicyEntries (w_generation w) (keep_newest (w_max_entries w) (kept ++ [written_entry w]))]> c.

Definition semantic_entry_count (c : MemorySemanticCache) : N :=
  map_fold (fun _ p n => (N.of_nat (length (entries p)) + n)%N) 0%N c.

(** ** The nearest entry *)

Lemma f32_lt_trans (x y z : f32) : SFltb x y = true -> SFltb y z = true -> SFltb x z = true.
Proof.
  unfold SFltb, SFcompare.
  destruct x as [sx|sx| |sx mx ex], y as [sy|sy| |sy my ey], z as [sz|sz| |sz mz ez]; try done;
    try (by destruct sx); try (by destruct sy); try (by destruct sz); try (by destruct sx, sy); try (by destruct sx, sz);
    try (by destruct sy, sz); try (by destruct sx, sy, sz).
  destruct sx, sy, sz; try done; change (Pos.compare_cont Eq) with Pos.compare;
    destruct (Z.compare_spec ex ey), (Z.compare_spec ey ez), (Z.compare_spec ex ez); try done; try lia; subst; unfold CompOpp;
    destruct (Pos.compare_spec mx my), (Pos.compare_spec my mz), (Pos.compare_spec mx mz); try done; lia.
Qed.

Lemma f32_lt_irrefl (x : f32) : SFltb x x = false.
Proof.
  unfold SFltb, SFcompare. destruct x as [[]|[]| |[] m e]; try done; rewrite Z.compare_refl;
    change (Pos.compare_cont Eq) with Pos.compare; by rewrite Pos.compare_refl.
Qed.

Lemma f32_not_below (s x : f32) : x = s \/ f32_gtb s x = true -> f32_gtb x s = false.
Proof.
  unfold f32_gtb. intros [-> |H]; [apply f32_lt_irrefl|]. destruct (SFltb s x) eqn:E; [|done].
  by rewrite <- (f32_lt_trans _ _ _ H E), f32_lt_irrefl.
Qed.

Lemma nearest_fold query l : forall best,
  match foldl (nearest_step query) best l with
  | None => best = None /\ l = []
  | Some (e, s) =>
      (best = Some (e, s) \/ e ∈ l /\ s = unit_similarity query (embedding e)) /\
      (forall e', e' ∈ l -> f32_gtb (unit_similarity query (embedding e')) s = false) /\
      (forall e' s', best = Some (e', s') -> s' = s \/ f32_gtb s s' = true)
  end.
Proof.
  induction l as [|x l IH]; intros best; cbn [foldl].
  - destruct best as [[e s]|]; [|done]. split; [by left|]. split; [by intros ? ?%elem_of_nil|]. intros ? ? [= -> ->]. by left.
  - specialize (IH (nearest_step query best x)). destruct (foldl _ _ l) as [[e s]|].
    2: { destruct IH as [IH _]. unfold nearest_step in IH. by repeat case_match. }
    destruct IH as (Hin & Hmax & Hprev). unfold nearest_step in *.
    set (sx := unit_similarity query (embedding x)) in *. split_and!.
    + destruct Hin as [Hin|[? ?]]; [|right; split; [by right|done]]. destruct best as [[b c]|]; [destruct (f32_gtb sx c)|]; simplify_eq;
        [right; split; [by left|done]|by left|right; split; [by left|done]].
    + intros e' [-> |He']%elem_of_cons; [|by apply Hmax]. fold sx.
      destruct best as [[b c]|]; [destruct (f32_gtb sx c) eqn:E|].
      * by apply (f32_not_below s sx), (Hprev x).
      * destruct (Hprev b c eq_refl) as [-> |H]; [done|]. unfold f32_gtb in *.
        destruct (SFltb s sx) eqn:Ess; [|done]. by rewrite (f32_lt_trans _ _ _ H Ess) in E.
      * by apply (f32_not_below s sx), (Hprev x).
    + intros e' s' ->. destruct (f32_gtb sx s') eqn:E; [|by apply (Hprev e' s')]. right.
      destruct (Hprev x sx eq_refl) as [-> |H]; [done|]. unfold f32_gtb in *. by eapply f32_lt_trans.
Qed.

Ltac f32_cases :=
  unfold SFltb, SFleb, SFcompare;
  repeat match goal with x : f32 |- _ => destruct x as [[]|[]| |[] ? ?] end; try done;
  change (Pos.compare_cont Eq) with Pos.compare;
  repeat match goal with |- context [Z.compare ?a ?b] => destruct (Z.compare_spec a b) end; try done; try lia; subst; unfold CompOpp;
  repeat match goal with |- context [Pos.compare ?a ?b] => destruct (Pos.compare_spec a b) end; try done; lia.

Lemma f32_le_trans (x y z : f32) : SFleb x y = true -> SFleb y z = true -> SFleb x z = true.
Proof. f32_cases. Qed.

Lemma f32_lt_le_trans (x y z : f32) : SFltb x y = true -> SFleb y z = true -> SFltb x z = true.
Proof. f32_cases. Qed.

Lemma f32_not_lt (x y : f32) : x <> S754_nan -> y <> S754_nan -> SFltb x y = false -> SFleb y x = true.
Proof. f32_cases. Qed.

(** The entries a lookup compares against. *)
Definition live_candidates (now : N) (policy_id : string) (gen : N) (scope : string) (c : MemorySemanticCache) : list SemanticEntry :=
  match c !! policy_id with
  | Some p => if (generation p =? gen)%N then List.filter (live_in now scope) (entries p) else []
  | None => []
  end.

Lemma lookup_candidates now p g scope emb threshold c :
  semantic_lookup now p g scope emb threshold c =
    ('(e, s) ← foldl (nearest_step (unit_vector emb)) None (live_candidates now p g scope c);
     if SFleb threshold s && f32_gtb s f32_zero then Some (mkHit (response e) s (expires_at e)) else None).
Proof.
  unfold semantic_lookup, live_candidates. destruct (c !! p) as [pe|]; [|done]. cbn [mbind option_bind].
  by destruct (generation pe =? g)%N.
Qed.

(** ** What the store holds *)

Lemma pop_expired_suffix now l : exists popped, l = popped ++ pop_expired now l.
Proof.
  induction l as [|e l [popped Hp]]; [by exists []|]. simpl. destruct (_ <=? _)%N; [|by exists []].
  exists (e :: popped). simpl. by f_equal.
Qed.

Lemma pop_expired_elem now l e : e ∈ pop_expired now l -> e ∈ l.
Proof. destruct (pop_expired_suffix now l) as [popped Hp]. intros H. rewrite Hp. set_solver. Qed.

(** What is popped had expired. *)
Lemma pop_expired_live now l e : e ∈ l -> (now < expires_at e)%N -> e ∈ pop_expired now l.
Proof.
  induction l as [|x l IH]; [done|]. simpl. intros [-> |He]%elem_of_cons Hn.
  - destruct (N.leb_spec (expires_at x) now); [lia|by left].
  - destruct (_ <=? _)%N; [by apply IH|by right].
Qed.

Definition slot (e : SemanticEntry) : string * string := (scope_fp e, exact_key e).
Definition w_slot (w : SemanticWrite) : string * string := (w_scope w, w_key w).

Lemma supersedes_slot w e : supersedes w e = true <-> slot e = w_slot w.
Proof.
  unfold supersedes, slot, w_slot. rewrite andb_true_iff, !bool_decide_eq_true. split; [by intros [-> ->]|by intros [= -> ->]].
Qed.

(** A write and the entry it leaves; a later write of the same slot. *)
Definition wrote (p : string) (g : N) (w : SemanticWrite) (e : SemanticEntry) : Prop :=
  w_policy w = p /\ w_generation w = g /\ e = written_entry w.
Definition same_slot (w w' : SemanticWrite) : Prop :=
  w_policy w' = w_policy w /\ w_generation w' = w_generation w /\ w_slot w' = w_slot w.

Definition latest_in (history : list SemanticWrite) (p : string) (g : N) (e : SemanticEntry) : Prop :=
  exists before w after, history = before ++ w :: after /\ wrote p g w e /\ Forall (fun w' => ~ same_slot w w') after.

Definition bucket_ok (history : list SemanticWrite) (p : string) (pe : PolicyEntries) : Prop :=
  Forall (latest_in history p (generation pe)) (entries pe) /\ NoDup (slot <$> entries pe) /\
  forall bound, Forall (fun w => w_policy w = p -> (w_max_entries w <= bound)%N) history -> (N.of_nat (length (entries pe)) <= bound)%N.

Definition store_ok (history : list SemanticWrite) (c : MemorySemanticCache) : Prop :=
  map_Forall (bucket_ok history) c.

Lemma latest_snoc history p g e w :
  latest_in history p g e -> (w_policy w = p -> w_generation w = g -> slot e <> w_slot w) -> latest_in (history ++ [w]) p g e.
Proof.
  intros (before & w0 & after & -> & (Hp & Hg & ->) & Ha) Hw. exists before, w0, (after ++ [w]). split; [by rewrite <- app_assoc|].
  split; [done|]. apply Forall_app. split; [done|]. constructor; [|done]. intros (H1 & H2 & H3).
  apply Hw; [congruence..|]. by rewrite H3.
Qed.

Lemma pop_expired_sublist now l : pop_expired now l `sublist_of` l.
Proof. destruct (pop_expired_suffix now l) as [popped Hp]. rewrite Hp at 2. by apply sublist_inserts_l. Qed.

(** Part of a bucket, none of it superseded by the next write. *)
Lemma sublist_ok history p g w l l' :
  bucket_ok history p (mkPolicyEntries g l) -> l' `sublist_of` l ->
  (forall e, e ∈ l' -> w_policy w = p -> w_generation w = g -> slot e <> w_slot w) ->
  bucket_ok (history ++ [w]) p (mkPolicyEntries g l').
Proof.
  intros (Hl & Hn & Hb) Hsub Hw. cbn [generation entries] in *. split_and!; cbn [generation entries].
  - apply Forall_forall. intros e He. apply latest_snoc; [|by apply Hw]. apply (proj1 (Forall_forall _ _) Hl). by eapply elem_of_sublist.
  - eapply sublist_NoDup; [done|by apply fmap_sublist].
  - intros bound [Hh _]%Forall_app. specialize (Hb bound Hh). apply sublist_length in Hsub. lia.
Qed.

Lemma empty_ok history p g : bucket_ok history p (mkPolicyEntries g []).
Proof. split_and!; [constructor|constructor|]. intros. simpl. lia. Qed.

Lemma keep_newest_length m l : (N.of_nat (length (keep_newest m l)) <= m)%N.
Proof. unfold keep_newest. rewrite length_drop. lia. Qed.

Lemma accepted_ok history w current :
  bucket_ok history (w_policy w) (mkPolicyEntries (w_generation w) current) ->
  bucket_ok (history ++ [w]) (w_policy w) (mkPolicyEntries (w_generation w)
    (keep_newest (w_max_entries w) (List.filter (fun e => negb (supersedes w e)) (pop_expired (w_now w) current) ++ [written_entry w]))).
Proof.
  intros Hok. set (kept := List.filter _ _).
  assert (forall e, e ∈ kept -> slot e <> w_slot w) as Hslot.
  { unfold kept. intros e He Hs%supersedes_slot. apply list_elem_of_In, filter_In in He as [_ He]. by rewrite Hs in He. }
  destruct (sublist_ok history (w_policy w) (w_generation w) w current kept Hok) as (Hl & Hn & _).
  { etrans; [apply list_filter_sublist|apply pop_expired_sublist]. } { auto. }
  cbn [generation entries] in *. split_and!; cbn [generation entries].
  - unfold keep_newest. apply Forall_drop, Forall_app. split; [done|]. constructor; [|constructor].
    exists history, w, []. done.
  - eapply sublist_NoDup; [|apply fmap_sublist, sublist_drop]. rewrite fmap_app. apply NoDup_app. split; [done|].
    split; [|apply NoDup_singleton]. intros x (e & -> & He)%list_elem_of_fmap Hx. apply list_elem_of_singleton in Hx. by apply (Hslot e).
  - intros bound [_ Hw]%Forall_app. apply Forall_cons in Hw as [Hw _]. etrans; [apply keep_newest_length|by apply Hw].
Qed.

Lemma semantic_store_ok history w c : store_ok history c -> store_ok (history ++ [w]) (semantic_store w c).
Proof.
  intros Hok p pe. unfold semantic_store.
  assert (bucket_ok history (w_policy w) (default (mkPolicyEntries (w_generation w) []) (map_imap (reclaim w) c !! w_policy w))) as Hcur.
  { rewrite map_lookup_imap. destruct (c !! w_policy w) as [q|] eqn:E; [|apply empty_ok]. cbn [mbind option_bind]. unfold reclaim.
    rewrite bool_decide_true by done. by apply (Hok _ _ E). }
  set (policy := default _ _) in *. destruct policy as [g l]. cbn [generation entries].
  destruct (decide (p = w_policy w)) as [->|Hne].
  - destruct (N.ltb_spec (w_generation w) g) as [Hlt|Hge]; rewrite lookup_insert_eq; intros [= <-].
    + eapply sublist_ok; [done|done|]. intros e _ _ Hg. lia.
    + apply accepted_ok. destruct (N.ltb_spec g (w_generation w)); [apply empty_ok|].
      by replace (w_generation w) with g by lia.
  - intros Hp. assert (map_imap (reclaim w) c !! p = Some pe) as Hpe
      by (destruct (w_generation w <? g)%N; by rewrite lookup_insert_ne in Hp).
    rewrite map_lookup_imap in Hpe. destruct (c !! p) as [q|] eqn:E; [|done]. cbn [mbind option_bind] in Hpe.
    unfold reclaim in Hpe. rewrite bool_decide_false in Hpe by done.
    assert (pe = mkPolicyEntries (generation q) (pop_expired (w_now w) (entries q))) as ->
      by (revert Hpe; destruct (pop_expired (w_now w) (entries q)); [done|by intros [= <-]]).
    eapply sublist_ok; [|apply pop_expired_sublist|].
    + pose proof (Hok p q E) as Hq. by destruct q.
    + intros e _ Hp'. by destruct Hne.
Qed.

(** The store after a history of writes. *)
Definition semantic_run (history : list SemanticWrite) : MemorySemanticCache :=
  foldl (fun c w => semantic_store w c) semantic_new history.

Lemma semantic_run_ok history : store_ok history (semantic_run history).
Proof.
  unfold semantic_run. induction history as [|w history IH] using rev_ind; [apply map_Forall_empty|].
  rewrite foldl_app. simpl. by apply semantic_store_ok.
Qed.

Lemma semantic_lookup_spec now p g scope emb threshold c :
  let live := live_candidates now p g scope c in
  let sim e := unit_similarity (unit_vector emb) (embedding e) in
  let clears e := SFleb threshold (sim e) && f32_gtb (sim e) f32_zero in
  match semantic_lookup now p g scope emb threshold c with
  | Some hit => exists e, e ∈ live /\ hit = mkHit (response e) (sim e) (expires_at e) /\ clears e = true /\
      forall e', e' ∈ live -> f32_gtb (sim e') (sim e) = false
  | None => (forall e, e ∈ live -> sim e <> S754_nan) -> forall e, e ∈ live -> clears e = false
  end.
Proof.
  intros live sim clears. rewrite lookup_candidates. fold live.
  pose proof (nearest_fold (unit_vector emb) live None) as H.
  destruct (foldl (nearest_step (unit_vector emb)) None live) as [[e s]|]; cbn [mbind option_bind].
  - destruct H as ([|[He ->]] & Hmax & _); [done|]. fold (sim e) in *. fold (clears e).
    destruct (clears e) eqn:Ec; [by exists e|]. intros Hnan e' He'. specialize (Hmax e' He'). fold (sim e') in Hmax.
    unfold clears in *. destruct (SFleb threshold (sim e')) eqn:E1; [|done]. destruct (f32_gtb (sim e') f32_zero) eqn:E2; [|done].
    exfalso. assert (SFleb (sim e') (sim e) = true) as Hle by (apply f32_not_lt; auto).
    unfold f32_gtb in *. by rewrite (f32_le_trans _ _ _ E1 Hle), (f32_lt_le_trans _ _ _ E2 Hle) in Ec.
  - destruct H as [_ ->]. by intros _ e ?%elem_of_nil.
Qed.

(** ** Properties *)

(** A lookup answers with the nearest live entry of its partition, the first
    among equals, when that clears the threshold and is not a degenerate zero; when
    it answers nothing and no similarity is a NaN, no live entry clears them. *)
Theorem lookup_nearest now p g scope emb threshold c :
  let live := live_candidates now p g scope c in
  let sim e := unit_similarity (unit_vector emb) (embedding e) in
  let clears e := SFleb threshold (sim e) && f32_gtb (sim e) f32_zero in
  match semantic_lookup now p g scope emb threshold c with
  | Some hit => exists e, e ∈ live /\ hit = mkHit (response e) (sim e) (expires_at e) /\ clears e = true /\
      forall e', e' ∈ live -> f32_gtb (sim e') (sim e) = false
  | None => (forall e, e ∈ live -> sim e <> S754_nan) -> forall e, e ∈ live -> clears e = false
  end.
Proof. exact (semantic_lookup_spec now p g scope emb threshold c). Qed.

(** C26. After any history of writes, whatever a lookup answers is the latest write of
    its slot - policy, purge generation, scope and exact key - in the very
    partition asked about, not expired and without the service tier; and a policy
    never holds more entries than its limit. *)
Theorem semantic_hit_is_latest history now p g scope emb threshold hit :
  semantic_lookup now p g scope emb threshold (semantic_run history) = Some hit ->
  exists before w after, history = before ++ w :: after /\
    w_policy w = p /\ w_generation w = g /\ w_scope w = scope /\ (now < w_now w + w_ttl w)%N /\
    hit_response hit = without_tier (w_response w) /\ hit_expires_at hit = (w_now w + w_ttl w)%N /\
    similarity hit = unit_similarity (unit_vector emb) (unit_vector (w_embedding w)) /\
    Forall (fun w' => ~ same_slot w w') after /\
    forall bound, Forall (fun w => w_policy w = p -> (w_max_entries w <= bound)%N) history ->
      from_option (fun q => N.of_nat (length (entries q)) <= bound)%N True (semantic_run history !! p).
Proof.
  rewrite lookup_candidates. pose proof (nearest_fold (unit_vector emb) (live_candidates now p g scope (semantic_run history)) None) as H.
  destruct (foldl _ _ _) as [[e s]|]; [|done]. cbn [mbind option_bind]. destruct H as ([|[He ->]] & _); [done|].
  destruct (_ && _); [|done]. intros [= <-]. unfold live_candidates in He. pose proof (semantic_run_ok history) as Hok.
  destruct (semantic_run history !! p) as [q|] eqn:E; [|by apply elem_of_nil in He].
  destruct (N.eqb_spec (generation q) g) as [<-|]; [|by apply elem_of_nil in He].
  apply list_elem_of_In, filter_In in He as [He Hlive]. apply list_elem_of_In in He.
  destruct (Hok p q E) as (Hl & _ & Hb). apply (proj1 (Forall_forall _ _) Hl) in He as (before & w & after & -> & (Hp & Hg & ->) & Ha).
  unfold live_in in Hlive. apply andb_true_iff in Hlive as [Hs%bool_decide_eq_true Hn%N.ltb_lt].
  exists before, w, after. split_and!; try done.
Qed.
End store.

(** ** Witnesses

    Two wordings of a question in one partition; the first is asked again after a
    refresh, and a purge follows. *)
Definition f32_of_Z (n : Z) : f32 := binary_normalize 24 128 n 0 false.
Definition demo_write (g : N) (key : string) (emb : list Z) (r : string) (now : N) : SemanticWrite :=
  mkWrite "policy" g "scope" key (f32_of_Z <$> emb) (mkResponse (Some "flex") r) 60 2 now.
Definition demo_history : list SemanticWrite :=
  [demo_write 1 "a" [3; 4]%Z "first" 0; demo_write 1 "b" [4; 3]%Z "other" 1; demo_write 1 "a" [3; 4]%Z "second" 2].
Definition demo_lookup (g : N) (c : gmap string (PolicyEntries (A := string))) : option SemanticHit :=
  semantic_lookup 10 "policy" g "scope" (f32_of_Z <$> [6; 8]%Z) (f32_div (f32_of_Z 9) (f32_of_Z 10)) c.

Lemma demo_hits : exists h, demo_lookup 1 (semantic_run demo_history) = Some h /\
  answer (hit_response h) = "second" /\ similarity h = f32_of_Z 1.
Proof.
  assert ((fun h => (answer (hit_response h), similarity h)) <$> demo_lookup 1 (semantic_run demo_history) = Some ("second", f32_of_Z 1))
    as H by by vm_compute.
  destruct (demo_lookup _ _) as [h|]; [|done]. exists h. cbn [fmap option_fmap option_map] in H. by injection H as -> ->.
Qed.

Lemma demo_misses : demo_lookup 2 (semantic_run demo_history) = None /\
  demo_lookup 1 (semantic_run (demo_history ++ [demo_write 2 "a" [3; 4]%Z "third" 3])) = None.
Proof. split; vm_compute; reflexivity. Qed.

Lemma lookup_nearest_witness :
  exists e, e ∈ live_candidates 10 "policy" 1 "scope" (semantic_run demo_history) /\
    demo_lookup 1 (semantic_run demo_history) = Some (mkHit (response e) (f32_of_Z 1) (expires_at e)) /\
    answer (response e) = "second".
Proof.
  pose proof (lookup_nearest 10 "policy" 1 "scope" (f32_of_Z <$> [6; 8]%Z) (f32_div (f32_of_Z 9) (f32_of_Z 10)) (semantic_run demo_history)) as H.
  destruct demo_hits as (h & Hl & Hr & Hs).
  cbn zeta in H. unfold demo_lookup in *. rewrite Hl in H. destruct H as (e & He & -> & _). exists e. split; [exact He|].
  cbn [hit_response similarity] in Hr, Hs. rewrite Hl, Hs. by split.
Defined.

Lemma semantic_hit_is_latest_witness :
  exists before w after, demo_history = before ++ w :: after /\ answer (w_response w) = "second" /\
    Forall (fun w' => ~ same_slot w w') after /\ demo_lookup 2 (semantic_run demo_history) = None /\
    demo_lookup 1 (semantic_run (demo_history ++ [demo_write 2 "a" [3; 4]%Z "third" 3])) = None.
Proof.
  destruct demo_hits as (h & Hl & Hr & _).
  destruct (semantic_hit_is_latest demo_history 10 "policy" 1 "scope" _ _ h Hl)
    as (before & w & after & Hh & _ & _ & _ & _ & Hw & _ & _ & Ha & _).
  exists before, w, after. rewrite Hw in Hr. split; [exact Hh|]. split; [exact Hr|]. split; [exact Ha|exact demo_misses].
Defined.
