(* ===== verification/Budget.v ===== *)
(** * Budgets

    [crates/aisix-core/src/models/budget.rs] and
    [crates/aisix-proxy/src/budget.rs]: which budget documents apply to a key,
    when an exhausted mark is in force, and the verdict a request gets.

    An instant is a number of nanoseconds of UTC; a day its number.  The
    calendar (the weekday, the first day of a month and of the next), the parser
    of RFC 3339, and the printing of instants and amounts are arguments. *)

From S2P Require Import Prelude Sort Snapshot RateStore Models Failure Errors.
Local Open Scope Z_scope.

Inductive BudgetPeriod := PeriodDay | PeriodWeek | PeriodMonth.

Definition period_as_str (p : BudgetPeriod) : string :=
  match p with PeriodDay => "day" | PeriodWeek => "week" | PeriodMonth => "month" end.

Record BudgetTag := mkBudgetTag { tag_key : string; tag_value : string }.

(** The reason a document carries ([models::BudgetReason]), less the fields the
    gateway ignores. *)
Record DocReason := mkDocReason {
  doc_message : option string;
  doc_scope : option string;
  doc_scope_ref : option string;
  doc_limit_usd : option string;
  doc_spent_usd : option string;
  doc_remaining_usd : option string;
}.

Record BudgetExhausted := mkExhausted { ex_period_start : option string; ex_reason : DocReason }.
Record BudgetMemberExhausted := mkMemberExhausted { mx_period_start : string; mx_reason : DocReason }.

Record Budget := mkBudget {
  bud_scope : BudgetScope;
  bud_scope_ref : option string;
  bud_tag : option BudgetTag;
  bud_period : BudgetPeriod;
  exhausted : option BudgetExhausted;
  exhausted_members : gmap string BudgetMemberExhausted;
}.

Inductive BudgetFailMode := FailSticky | FailClosed.
Record BudgetPolicy := mkBudgetPolicy { fail_mode : BudgetFailMode; closed_grace_seconds : N }.

Abbreviation BudgetEntry := (ResourceEntry Budget).

(** ** The index *)

Record BudgetIndex := mkBudgetIndex {
  bi_generation : N;
  everyone : list BudgetEntry;
  bi_api_key : gmap string (list BudgetEntry);
  bi_member : gmap string (list BudgetEntry);
  bi_team : gmap string (list BudgetEntry);
  bi_team_member : gmap string (list BudgetEntry);
  bi_tag : gmap string (list BudgetEntry);
  bi_provider_key : gmap string (list BudgetEntry);
}.

(** [entry(k).or_default().push(e)] *)
Definition push_entry (k : string) (e : BudgetEntry) (m : gmap string (list BudgetEntry)) :=
  <[k := default [] (m !! k) ++ [e]]> m.

Definition push_ref (e : BudgetEntry) (m : gmap string (list BudgetEntry)) :=
  match bud_scope_ref (value e) with Some r => push_entry r e m | None => m end.

Definition index_budget (ix : BudgetIndex) (e : BudgetEntry) : BudgetIndex :=
  let '(mkBudgetIndex g ev ak me te tm tg pk) := ix in
  match bud_scope (value e) with
  | BsOrg | BsEnvironment => mkBudgetIndex g (ev ++ [e]) ak me te tm tg pk
  | BsTag =>
      mkBudgetIndex g ev ak me te tm
        (match bud_tag (value e) with Some t => push_entry (tag_key t) e tg | None => tg end) pk
  | BsApiKey => mkBudgetIndex g ev (push_ref e ak) me te tm tg pk
  | BsMember => mkBudgetIndex g ev ak (push_ref e me) te tm tg pk
  | BsTeam => mkBudgetIndex g ev ak me (push_ref e te) tm tg pk
  | BsTeamMember => mkBudgetIndex g ev ak me te (push_ref e tm) tg pk
  | BsProviderKey => mkBudgetIndex g ev ak me te tm tg (push_ref e pk)
  end.

Definition budget_index_build (table : ResourceTable Budget) : BudgetIndex :=
  fold_left index_budget
    (stable_sort (fun a b => string_leb (entry_id a) (entry_id b)) (entries table))
    (mkBudgetIndex (generation table) [] ∅ ∅ ∅ ∅ ∅ ∅).

Definition budgets_of (m : gmap string (list BudgetEntry)) (id : option string) : list BudgetEntry :=
  match id with Some id => default [] (m !! id) | None => [] end.

(** A [BTreeMap] is iterated by key. *)
Definition tags_in_order (auth : AuthenticatedKey) : list (string * string) :=
  stable_sort (fun a b => string_leb a.1 b.1) (map_to_list (auth_tags auth)).

Definition applicable (ix : BudgetIndex) (auth : AuthenticatedKey) : list BudgetEntry :=
  let key := auth_key auth in
  let team_member := match team_id key, user_id key with Some team, Some _ => Some team | _, _ => None end in
  let tags :=
    tags_in_order auth ≫= fun '(k, v) =>
      List.filter
        (fun e => match bud_tag (value e) with Some t => bool_decide (tag_value t = v) | None => false end)
        (default [] (bi_tag ix !! k)) in
  everyone ix
  ++ budgets_of (bi_api_key ix) (Some (entry_id (auth_entry auth)))
  ++ budgets_of (bi_member ix) (user_id key)
  ++ budgets_of (bi_team ix) (team_id key)
  ++ budgets_of (bi_team_member ix) team_member
  ++ tags.

(** [LiveBudgetIndex::for_table] *)
Definition budgets_for_table (cached : option BudgetIndex) (table : ResourceTable Budget)
    : BudgetIndex * option BudgetIndex :=
  match cached with
  | Some ix =>
      if (bi_generation ix =? generation table)%N then (ix, cached)
      else let ix := budget_index_build table in (ix, Some ix)
  | None => let ix := budget_index_build table in (ix, Some ix)
  end.

Definition scope_rank (s : BudgetScope) : N :=
  match s with
  | BsApiKey => 7
  | BsMember | BsTeamMember => 6
  | BsTeam => 5
  | BsTag => 4
  | BsProviderKey => 3
  | BsEnvironment => 2
  | BsOrg => 1
  end.

(** ** Verdicts *)

Inductive Verdict := Allow | Exceeded (r : BudgetReason) | Unverified.

Definition into_result (v : Verdict) : result unit ProxyError :=
  match v with
  | Allow => ROk tt
  | Exceeded reason => RErr (PeBudgetExceeded reason)
  | Unverified => RErr PeBudgetUnverified
  end.

Definition NANOS : Z := 1000000000.
Definition DAY_NANOS : Z := 86400 * NANOS.

(** What chrono and the number printer answer. *)
Record Calendar := mkCalendar {
  days_from_monday : Z -> Z;
  month_first : Z -> Z;
  next_month_first : Z -> Z;
  parse_rfc3339 : string -> option Z;
  format_utc : Z -> string;
  restate_amount : string -> option string;
}.

Definition period_start (cal : Calendar) (now : Z) (p : BudgetPeriod) : Z :=
  let day := now / DAY_NANOS in
  let first :=
    match p with
    | PeriodDay => day
    | PeriodWeek => day - days_from_monday cal day
    | PeriodMonth => month_first cal day
    end in
  first * DAY_NANOS.

Definition next_period_start (cal : Calendar) (start : Z) (p : BudgetPeriod) : Z :=
  match p with
  | PeriodDay => start + DAY_NANOS
  | PeriodWeek => start + 7 * DAY_NANOS
  | PeriodMonth => next_month_first cal (start / DAY_NANOS) * DAY_NANOS
  end.

Record BudgetGate := mkGate {
  gate_index : BudgetIndex;
  gate_now : Z;
  unverified : bool;
}.

Definition in_force (cal : Calendar) (current : Z) (start : option string) : bool :=
  match start with
  | None => true
  | Some s => match parse_rfc3339 cal s with Some t => t =? current | None => false end
  end.

Definition in_force_reason (cal : Calendar) (g : BudgetGate) (b : Budget) (user : option string)
    : option DocReason :=
  let current := period_start cal (gate_now g) (bud_period b) in
  let of_member :=
    if bool_decide (bud_scope b = BsTeamMember) then
      u ← user;
      m ← exhausted_members b !! u;
      if in_force cal current (Some (mx_period_start m)) then Some (mx_reason m) else None
    else None in
  match exhausted b with
  | Some ex => if in_force cal current (ex_period_start ex) then Some (ex_reason ex) else of_member
  | None => of_member
  end.

(** [scope.replace('_', " ")] *)
Fixpoint spaced (s : string) : string :=
  match s with
  | EmptyString => EmptyString
  | String a s =>
      String (if (Ascii.N_of_ascii a =? 95)%N then Ascii.ascii_of_N 32 else a) (spaced s)
  end.

Definition gate_reason (cal : Calendar) (g : BudgetGate) (b : Budget) (doc : DocReason)
    : BudgetReason :=
  let resets_at :=
    next_period_start cal (period_start cal (gate_now g) (bud_period b)) (bud_period b) in
  let amount v := v ≫= restate_amount cal in
  let scope := default (budget_scope_as_str (bud_scope b)) (doc_scope doc) in
  mkReason
    (match doc_message doc with
     | Some m => if bool_decide (m = "") then spaced scope +:+ " budget exceeded" else m
     | None => spaced scope +:+ " budget exceeded"
     end)
    (Some scope) (Some (bud_scope b)) None
    (or_else (doc_scope_ref doc) (bud_scope_ref b))
    (amount (doc_limit_usd doc)) (amount (doc_spent_usd doc)) (amount (doc_remaining_usd doc))
    (Some (period_as_str (bud_period b))) (Some (format_utc cal resets_at))
    (Some (Z.to_N (Z.max (Z.quot (resets_at - gate_now g) NANOS) 0))).

(** The loop of [key_verdict]: whether any budget applies, and the denial so
    far. *)
Definition verdict_step (cal : Calendar) (g : BudgetGate) (user : option string)
    (acc : bool * option (BudgetEntry * DocReason)) (e : BudgetEntry)
    : bool * option (BudgetEntry * DocReason) :=
  let '(_, denied) := acc in
  match in_force_reason cal g (value e) user with
  | None => (true, denied)
  | Some reason =>
      let rank := scope_rank (bud_scope (value e)) in
      let better :=
        match denied with
        | None => true
        | Some (d, _) =>
            let r := scope_rank (bud_scope (value d)) in
            (r <? rank)%N
            || ((rank =? r)%N
                && negb (string_leb (budget_scope_as_str (bud_scope (value d)))
                           (budget_scope_as_str (bud_scope (value e)))))
        end in
      (true, if better then Some (e, reason) else denied)
  end.

Definition key_verdict (cal : Calendar) (g : BudgetGate) (auth : AuthenticatedKey) : Verdict :=
  match fold_left (verdict_step cal g (user_id (auth_key auth))) (applicable (gate_index g) auth)
          (false, None) with
  | (_, Some (e, reason)) => Exceeded (gate_reason cal g (value e) reason)
  | (applies, None) => if applies && unverified g then Unverified else Allow
  end.

Fixpoint first_exhausted (cal : Calendar) (g : BudgetGate) (budgets : list BudgetEntry)
    : option Verdict :=
  match budgets with
  | [] => None
  | e :: budgets =>
      match in_force_reason cal g (value e) None with
      | Some reason => Some (Exceeded (gate_reason cal g (value e) reason))
      | None => first_exhausted cal g budgets
      end
  end.

Definition provider_key_verdict (cal : Calendar) (g : BudgetGate) (id : string) : Verdict :=
  match bi_provider_key (gate_index g) !! id with
  | None => Allow
  | Some budgets =>
      default (if unverified g then Unverified else Allow) (first_exhausted cal g budgets)
  end.

(** The smallest grace period of the policies that fail closed, in seconds. *)
Definition strict_grace (policies : list BudgetPolicy) : option N :=
  match (fun p => closed_grace_seconds p) <$>
          List.filter (fun p => match fail_mode p with FailClosed => true | FailSticky => false end) policies with
  | [] => None
  | s :: rest => Some (fold_left N.min rest s)
  end.

(** [unhealthy_for]: how long usage delivery has failed, in nanoseconds. *)
Definition gate (ix : BudgetIndex) (policies : list BudgetPolicy) (now : Z) (unhealthy_for : N)
    : BudgetGate :=
  mkGate ix now
    (match strict_grace policies with
     | Some grace => (from_secs grace <=? unhealthy_for)%N
     | None => false
     end).

Definition check_provider_key (cal : Calendar) (g : BudgetGate) (id : string) : result unit ProxyError :=
  into_result (provider_key_verdict cal g id).

(** [check_model] over the gate's verdicts on provider keys. *)
Definition check_model (provider_verdict : string -> Verdict) (m : Model) : result unit ProxyError :=
  match provider_key_id m with
  | Some id => into_result (provider_verdict id)
  | None => ROk tt
  end.

(** The decision of [enforce_key]; the gauges it sets are not modelled. *)
Definition enforce_key (cal : Calendar) (g : BudgetGate) (auth : AuthenticatedKey)
    : result unit ProxyError :=
  into_result (key_verdict cal g auth).

(** ** Which budgets apply *)

Definition budget_applies (auth : AuthenticatedKey) (b : Budget) : Prop :=
  let key := auth_key auth in
  match bud_scope b with
  | BsOrg | BsEnvironment => True
  | BsApiKey => bud_scope_ref b = Some (entry_id (auth_entry auth))
  | BsMember => is_Some (user_id key) /\ bud_scope_ref b = user_id key
  | BsTeam => is_Some (team_id key) /\ bud_scope_ref b = team_id key
  | BsTeamMember => is_Some (team_id key) /\ is_Some (user_id key) /\ bud_scope_ref b = team_id key
  | BsTag => exists t, bud_tag b = Some t /\ auth_tags auth !! tag_key t = Some (tag_value t)
  | BsProviderKey => False
  end.

Lemma push_entry_elem k e m k' e' :
  e' ∈ default [] (push_entry k e m !! k') <-> e' ∈ default [] (m !! k') \/ (k' = k /\ e' = e).
Proof.
  unfold push_entry. destruct (decide (k' = k)) as [-> | ?].
  - rewrite lookup_insert_eq. simpl. rewrite elem_of_app, list_elem_of_singleton. naive_solver.
  - rewrite lookup_insert_ne by done. naive_solver.
Qed.

Lemma push_ref_elem e m k e' :
  e' ∈ default [] (push_ref e m !! k) <->
  e' ∈ default [] (m !! k) \/ (bud_scope_ref (value e) = Some k /\ e' = e).
Proof. unfold push_ref. destruct (bud_scope_ref (value e)); [rewrite push_entry_elem|]; naive_solver. Qed.

Lemma budgets_of_elem m id e : e ∈ budgets_of m id <-> exists k, id = Some k /\ e ∈ default [] (m !! k).
Proof. destruct id; simpl; [naive_solver|]. rewrite elem_of_nil. naive_solver. Qed.

Lemma tagged_elem auth (m : gmap string (list BudgetEntry)) e :
  (e ∈ tags_in_order auth ≫= fun '(k, v) =>
      List.filter
        (fun e => match bud_tag (value e) with Some t => bool_decide (tag_value t = v) | None => false end)
        (default [] (m !! k))) <->
  exists k t, auth_tags auth !! k = Some (tag_value t) /\ bud_tag (value e) = Some t /\
    e ∈ default [] (m !! k).
Proof.
  rewrite list_elem_of_bind. unfold tags_in_order. setoid_rewrite stable_sort_perm. split.
  - intros ([k v] & He & Hkv). apply elem_of_map_to_list in Hkv.
    rewrite list_elem_of_In, filter_In, <- list_elem_of_In in He. destruct He as [He Ht].
    destruct (bud_tag (value e)) as [t|]; [|done]. apply bool_decide_eq_true in Ht as <-. by exists k, t.
  - intros (k & t & Hk & Ht & He). exists (k, tag_value t). split; [|by apply elem_of_map_to_list].
    rewrite list_elem_of_In, filter_In, <- list_elem_of_In, Ht. split; [done|]. by apply bool_decide_eq_true.
Qed.

(** Every bucket of the index holds budgets filed under their own key. *)
Definition index_filed (ix : BudgetIndex) : Prop :=
  forall k e, e ∈ default [] (bi_tag ix !! k) -> exists t, bud_tag (value e) = Some t /\ tag_key t = k.

(** Where the lookup of a key's budgets finds one. *)
Definition filed (ix : BudgetIndex) (auth : AuthenticatedKey) (e : BudgetEntry) : Prop :=
  let key := auth_key auth in
  e ∈ everyone ix \/ e ∈ default [] (bi_api_key ix !! entry_id (auth_entry auth)) \/
  e ∈ budgets_of (bi_member ix) (user_id key) \/ e ∈ budgets_of (bi_team ix) (team_id key) \/
  (is_Some (user_id key) /\ e ∈ budgets_of (bi_team_member ix) (team_id key)) \/
  exists k t, auth_tags auth !! k = Some (tag_value t) /\ bud_tag (value e) = Some t /\
    e ∈ default [] (bi_tag ix !! k).

Lemma is_Some_Some {A} (x : A) : is_Some (Some x) <-> True.
Proof. split; [done|eauto]. Qed.
Lemma is_Some_None {A} : is_Some (@None A) <-> False.
Proof. split; [by intros [? ?]|done]. Qed.

Lemma applicable_filed ix auth e : e ∈ applicable ix auth <-> filed ix auth e.
Proof.
  unfold applicable, filed. rewrite !elem_of_app, tagged_elem.
  destruct (user_id (auth_key auth)), (team_id (auth_key auth)); simpl;
    rewrite ?is_Some_Some, ?is_Some_None, ?elem_of_nil; tauto.
Qed.

Lemma budgets_of_push e m id e' :
  e' ∈ budgets_of (push_ref e m) id <->
  e' ∈ budgets_of m id \/ (is_Some id /\ bud_scope_ref (value e) = id /\ e' = e).
Proof.
  destruct id; simpl; rewrite ?push_ref_elem, ?is_Some_Some, ?is_Some_None, ?elem_of_nil; tauto.
Qed.

Lemma index_budget_filed ix e auth e' :
  index_filed ix ->
  index_filed (index_budget ix e) /\
  (filed (index_budget ix e) auth e' <-> filed ix auth e' \/ (e' = e /\ budget_applies auth (value e))).
Proof.
  intros Hf. unfold filed, budget_applies, index_budget, index_filed in *. destruct ix as [g ev ak me te tm tg pk].
  simpl in Hf.
  destruct (bud_scope (value e)) eqn:Es; simpl; (split; [try exact Hf|]);
    rewrite ?elem_of_app, ?list_elem_of_singleton, ?push_ref_elem, ?budgets_of_push; try tauto.
  - destruct (bud_tag (value e)) as [t|] eqn:Et; [|exact Hf]. intros k e0.
    rewrite push_entry_elem. intros [H | [-> ->]]; [by apply Hf|eauto].
  - destruct (bud_tag (value e)) as [t|] eqn:Et.
    2: { split; [tauto|]. intros [H | (_ & t & ? & _)]; [exact H|done]. }
    split.
    + intros [H | [H | [H | [H | [H | (k & t' & Hk & Ht & He)]]]]]; try tauto.
      apply push_entry_elem in He as [He | [-> ->]]; [left; do 5 right; eauto|].
      right. rewrite Et in Ht. injection Ht as <-. eauto.
    + intros [[H | [H | [H | [H | [H | (k & t' & Hk & Ht & He)]]]]] | (-> & t' & Ht & Hk)]; try tauto.
      * do 5 right. exists k, t'. rewrite push_entry_elem. tauto.
      * injection Ht as <-. do 5 right. exists (tag_key t), t. rewrite push_entry_elem. tauto.
Qed.

Lemma applicable_elem table auth e :
  e ∈ applicable (budget_index_build table) auth <-> e ∈ entries table /\ budget_applies auth (value e).
Proof.
  unfold budget_index_build.
  rewrite <- (stable_sort_perm (fun a b => string_leb (entry_id a) (entry_id b)) (entries table)) at 2.
  set (es := stable_sort _ (entries table)). clearbody es.
  rewrite applicable_filed.
  assert (forall ix, index_filed ix ->
    (filed (fold_left index_budget es ix) auth e <->
     filed ix auth e \/ (e ∈ es /\ budget_applies auth (value e)))) as Hgen.
  { induction es as [|e0 es IH]; intros ix Hf; simpl; [rewrite elem_of_nil; tauto|].
    destruct (index_budget_filed ix e0 auth e Hf) as [Hf' He]. rewrite (IH _ Hf'), He, elem_of_cons.
    split; [|by intros [H | [[-> | H] Ha]]; tauto]. intros [[H | [-> H]] | H]; tauto. }
  rewrite Hgen.
  - split; [|by right]. intros [H | H]; [exfalso|done]. unfold filed in H. simpl in H.
    destruct H as [H | [H | [H | [H | [[_ H] | (k & t & _ & _ & H)]]]]];
      [|rewrite lookup_empty in H|..|rewrite lookup_empty in H];
      try (by apply elem_of_nil in H);
      apply budgets_of_elem in H as (k & _ & H); rewrite lookup_empty in H; by apply elem_of_nil in H.
  - intros k e0. simpl. rewrite lookup_empty. simpl. by rewrite elem_of_nil.
Qed.

(** ** The verdict on a key *)

(** The precedence of the control plane: the more specific scope, then the
    scope that sorts first. *)
Definition outranks (d e : Budget) : Prop :=
  (scope_rank (bud_scope e) < scope_rank (bud_scope d))%N \/
  (scope_rank (bud_scope e) = scope_rank (bud_scope d) /\
   string_leb (budget_scope_as_str (bud_scope d)) (budget_scope_as_str (bud_scope e)) = true).

Lemma outranks_refl d : outranks d d.
Proof. right. split; [done|]. destruct (string_leb_total (budget_scope_as_str (bud_scope d)) (budget_scope_as_str (bud_scope d))); done. Qed.

Lemma outranks_trans a b c : outranks a b -> outranks b c -> outranks a c.
Proof.
  intros [? | [? H1]] [? | [? H2]]; unfold outranks; try (left; lia).
  right. split; [lia|]. by eapply string_leb_trans.
Qed.

#[local] Hint Resolve outranks_refl : core.

(** What the loop has found among the budgets [es]. *)
Definition verdict_so_far (cal : Calendar) (g : BudgetGate) (user : option string) (es : list BudgetEntry)
    (acc : bool * option (BudgetEntry * DocReason)) : Prop :=
  (acc.1 = true <-> es <> []) /\
  match acc.2 with
  | None => forall e, e ∈ es -> in_force_reason cal g (value e) user = None
  | Some (d, r) =>
      d ∈ es /\ in_force_reason cal g (value d) user = Some r /\
      forall e, e ∈ es -> is_Some (in_force_reason cal g (value e) user) -> outranks (value d) (value e)
  end.

Lemma better_outranks d e :
  (scope_rank (bud_scope d) <? scope_rank (bud_scope e))%N
  || ((scope_rank (bud_scope e) =? scope_rank (bud_scope d))%N
      && negb (string_leb (budget_scope_as_str (bud_scope d)) (budget_scope_as_str (bud_scope e)))) = true ->
  outranks e d.
Proof.
  unfold outranks. intros [Eb | [Eb Ec]%andb_true_iff]%orb_true_iff; [left; by apply N.ltb_lt|right].
  apply N.eqb_eq in Eb. apply negb_true_iff in Ec. split; [by rewrite Eb|].
  match type of Ec with string_leb ?x ?y = _ => destruct (string_leb_total x y); congruence end.
Qed.

Lemma not_better_outranks d e :
  (scope_rank (bud_scope d) <? scope_rank (bud_scope e))%N
  || ((scope_rank (bud_scope e) =? scope_rank (bud_scope d))%N
      && negb (string_leb (budget_scope_as_str (bud_scope d)) (budget_scope_as_str (bud_scope e)))) = false ->
  outranks d e.
Proof.
  unfold outranks. intros [Eb%N.ltb_ge Ec]%orb_false_iff. apply andb_false_iff in Ec.
  destruct (N.eqb_spec (scope_rank (bud_scope e)) (scope_rank (bud_scope d))) as [Eq | Ne]; [|left; lia].
  right. split; [done|]. destruct Ec as [? | Ec]; [done|]. by apply negb_false_iff in Ec.
Qed.

Lemma verdict_step_so_far cal g user es acc e :
  verdict_so_far cal g user es acc ->
  verdict_so_far cal g user (es ++ [e]) (verdict_step cal g user acc e).
Proof.
  destruct acc as [a denied]. unfold verdict_so_far, verdict_step. simpl. intros [_ Hd].
  destruct (in_force_reason cal g (value e) user) as [re|] eqn:Er.
  - destruct denied as [[d r]|]; simpl.
    + destruct Hd as (Hin & Hr & Hmax). match goal with |- context [if ?b then Some (e, re) else _] => destruct b eqn:Eb end; simpl; (split; [by destruct es|]).
      * apply better_outranks in Eb. rewrite elem_of_app, list_elem_of_singleton.
        split; [by right|]. split; [done|]. intros e' [H | ->%list_elem_of_singleton]%elem_of_app Hs; [|auto].
        eapply outranks_trans; [exact Eb|auto].
      * apply not_better_outranks in Eb. rewrite elem_of_app. split; [by left|]. split; [done|].
        intros e' [H | ->%list_elem_of_singleton]%elem_of_app Hs; auto.
    + split; [by destruct es|]. rewrite elem_of_app, list_elem_of_singleton. split; [by right|].
      split; [done|]. intros e' [H | ->%list_elem_of_singleton]%elem_of_app Hs; [|auto].
      rewrite (Hd _ H) in Hs. by destruct Hs.
  - split; [by destruct es|]. destruct denied as [[d r]|]; simpl.
    + destruct Hd as (Hin & Hr & Hmax). rewrite elem_of_app. split; [by left|]. split; [done|].
      intros e' [H | ->%list_elem_of_singleton]%elem_of_app Hs; [auto|]. rewrite Er in Hs. by destruct Hs.
    + intros e' [H | ->%list_elem_of_singleton]%elem_of_app; auto.
Qed.

Lemma verdict_fold cal g user es :
  verdict_so_far cal g user es (fold_left (verdict_step cal g user) es (false, None)).
Proof.
  induction es as [|e es IH] using rev_ind; [split; [done|]; intros e H; by apply elem_of_nil in H|].
  rewrite fold_left_app. by apply verdict_step_so_far.
Qed.

(** C29. The verdict on a key, against the documents themselves: with [blocks]
    the budgets of the table that apply to the key and whose exhausted mark is in
    force, the request is refused exactly when there is one, and the refusal
    reports one that outranks all of them; without one, the verdict is that the
    budgets cannot be verified exactly when the gate is unverified and some
    budget applies. *)
Theorem key_verdict_spec cal table now strict auth :
  let g := mkGate (budget_index_build table) now strict in
  let user := user_id (auth_key auth) in
  let applies e := e ∈ entries table /\ budget_applies auth (value e) in
  let blocks e := applies e /\ is_Some (in_force_reason cal g (value e) user) in
  match key_verdict cal g auth with
  | Exceeded r =>
      exists e doc, blocks e /\ in_force_reason cal g (value e) user = Some doc /\
        r = gate_reason cal g (value e) doc /\
        forall e', blocks e' -> outranks (value e) (value e')
  | Unverified => strict = true /\ (exists e, applies e) /\ forall e, ~ blocks e
  | Allow => (strict = false \/ forall e, ~ applies e) /\ forall e, ~ blocks e
  end.
Proof.
  intros g user applies blocks. unfold key_verdict.
  pose proof (verdict_fold cal g user (applicable (gate_index g) auth)) as [Ha Hd].
  assert (forall e, e ∈ applicable (gate_index g) auth <-> applies e) as Hin by (intros e; apply applicable_elem).
  change (user_id (auth_key auth)) with user. set (es := applicable _ _) in *. clearbody es.
  destruct (fold_left _ _ _) as [a [[d r]|]]; simpl in Ha, Hd.
  - destruct Hd as (Hd & Hr & Hmax). exists d, r. split; [split; [by apply Hin|by eexists]|].
    split; [done|]. split; [done|]. intros e [He Hs]. apply Hmax; [by apply Hin|done].
  - assert (forall e, ~ blocks e) as Hno
      by (intros e [He [x Hx]]; rewrite Hd in Hx by (by apply Hin); done).
    assert (a = true <-> exists e, applies e) as Hap.
    { rewrite Ha. split.
      - destruct es as [|e l]; [done|]. intros _. exists e.
        apply (proj1 (Hin e)). by apply list_elem_of_here.
      - intros [e He%Hin] E. rewrite E in He. by apply elem_of_nil in He. }
    change (unverified g) with strict. destruct a; simpl.
    + destruct strict; simpl; [|by split; [left|]].
      split; [done|]. split; [by apply Hap|done].
    + split; [|done]. right. intros e He. destruct Hap as [_ Hap].
      by specialize (Hap (ex_intro _ e He)).
Qed.
