(* ===== verification/Quota.v ===== *)
(** * Admission

    [crates/aisix-proxy/src/quota.rs]: the layers one request reserves before it
    is dispatched (the key's limits, the model's, the MCP server's, and every
    rate-limit policy that matches), the layers a routing target reserves per
    attempt, and the refusal each layer reports.

    A gate runs over [GateState]: the limiter, the cached policy index, the
    vector of reservations the gate is filling, the buckets a semantic
    classifier recorded, and the rejections counted.  The vector is dropped when
    the gate throws, which releases what it held.  A throw of [None] is a panic.
    The refresh of the remaining-quota gauges is not modelled, nor the counter of
    unpriced requests. *)

From stdpp Require Import pretty.
From S2P Require Import Prelude Sort Snapshot F64 RateStore LocalStore Limiter Policy Models Failure Errors Budget.
Local Open Scope N_scope.

(** ** Identities *)

Record ModelRateLimit := mkModelRL {
  mrl_name : string;
  bucket_name : string;
  mrl_entry_id : string;
  mrl_limits : option RateLimit;
  mrl_provider : option string;
  mrl_routing_parent : bool;
}.

Definition is_virtual_parent (m : Model) : bool := is_routing m || is_ensemble m || is_semantic m.

Definition from_model (name entry_id : string) (m : Model) : ModelRateLimit :=
  mkModelRL name (display_name m) entry_id
    (match rate_limit m with
     | Some rl => if is_unrestricted rl then None else Some rl
     | None => None
     end)
    (provider m) (is_routing m || is_ensemble m || is_semantic m).

Record RoutingParent := mkParent { parent_name : string; parent_entry_id : string }.

(** [CountRecord]'s vector is [counted] of the gate's state. *)
Inductive ParentCounted := CountOff | CountRecord | CountSkip (keys : list string).

Definition condition_input (auth : AuthenticatedKey) (mrl : option ModelRateLimit)
    (parent : option RoutingParent) : ConditionInput :=
  mkInput (team_id (auth_key auth)) (user_id (auth_key auth)) (Some (entry_id (auth_entry auth)))
    (mrl_entry_id <$> mrl) (mrl_name <$> mrl) (mrl ≫= mrl_provider)
    (parent_entry_id <$> parent) (parent_name <$> parent) (Some (auth_tags auth)).

Inductive PolicyPhase :=
  | PhaseRequest (defer_model_properties : bool)
  | PhaseModelTarget.

Record SpendLayer := mkSpendLayer { spend_bucket : string; spend_limits : RateLimit }.
Record PolicyLayer := mkLayer {
  layer_bucket : string;
  layer_limits : RateLimit;
  layer_spend : option SpendLayer;
}.

(** ** Limits of a layer *)

Definition without_request_counts (l : RateLimit) : RateLimit :=
  mkRateLimit (tpm l) (tph l) (tpd l) None None None None (concurrency l) (granted_micro_usd l).

(** A token or spend ceiling on a [second] window is ignored; the warning about
    it is not modelled. *)
Definition classic_rate_limit (p : RateLimitPolicy) : option RateLimit :=
  match pol_window p with
  | None => None
  | Some WinSecond =>
      Some (mkRateLimit None None None (max_requests p) None None None None None)
  | Some WinMinute =>
      Some (mkRateLimit (max_tokens p) None None None (max_requests p) None None None None)
  | Some WinHour =>
      Some (mkRateLimit None (max_tokens p) None None None (max_requests p) None None None)
  | Some WinDay =>
      Some (mkRateLimit None None (max_tokens p) None None None (max_requests p) None None)
  end.

Definition spend_limits_for (w : PolicyWindow) (max : N) : RateLimit :=
  match w with
  | WinSecond => no_limits
  | WinMinute => mkRateLimit (Some max) None None None None None None None None
  | WinHour => mkRateLimit None (Some max) None None None None None None None
  | WinDay => mkRateLimit None None (Some max) None None None None None None
  end.

Definition apply_granted (l : RateLimit) (granted : option N) : RateLimit :=
  match granted with
  | Some g =>
      mkRateLimit (tpm l) (tph l) (tpd l) (rps l) (rpm l) (rph l) (rpd l) (concurrency l) (Some g)
  | None => l
  end.

Definition spend_bucket_key (scope scope_ref policy_id : string) : string :=
  "spend:" +:+ scope +:+ ":" +:+ scope_ref +:+ ":" +:+ policy_id.

(** ** Bucket segments *)

Fixpoint contains_char (c : Ascii.ascii) (s : string) : bool :=
  match s with
  | EmptyString => false
  | String a s => Ascii.eqb a c || contains_char c s
  end.

Definition percent : Ascii.ascii := Ascii.ascii_of_N 37.
Definition equals_sign : Ascii.ascii := Ascii.ascii_of_N 61.

Definition escape_bucket_segment (v : string) : string :=
  if contains_char colon v || contains_char equals_sign v || contains_char percent v then
    replace_char equals_sign "%3D" (replace_char colon "%3A" (replace_char percent "%25" v))
  else v.

(** ** Matching a policy *)

Section matching.
Context (regex : bool -> string -> option (string -> bool)) (parse_f64 : string -> option f64).

(** The [for] over the sorted [group_by]: [None] where the request lacks a
    dimension. *)
Fixpoint append_segments (i : ConditionInput) (dims : list GroupByDimension) (key : string)
    : option string :=
  match dims with
  | [] => Some key
  | d :: dims =>
      v ← get_group_by i d;
      append_segments i dims (key +:+ ":" +:+ group_by_name d +:+ "=" +:+ escape_bucket_segment v)
  end.

(** The derived order of [(u8, &str)]. *)
Definition rank_leb (a b : N * string) : bool :=
  (a.1 <? b.1) || ((a.1 =? b.1) && string_leb a.2 b.2).

Definition sorted_group_by (p : RateLimitPolicy) : list GroupByDimension :=
  stable_sort (fun a b => rank_leb (canonical_rank a) (canonical_rank b)) (default [] (group_by p)).

Definition match_conditional_layer (p : RateLimitPolicy) (policy_id : string) (i : ConditionInput)
    (phase : PolicyPhase) : option PolicyLayer :=
  let follows_model := references_model_property p in
  let due_here :=
    match phase with
    | PhaseRequest defer_model_properties => negb (follows_model && defer_model_properties)
    | PhaseModelTarget => follows_model
    end in
  if negb due_here then None
  else if negb (eval_condition_nodes regex parse_f64 (default [] (conditions p)) i) then None
  else
    bucket_key ← append_segments i (sorted_group_by p) ("policy:v2:" +:+ policy_id);
    limits ← pol_limits p;
    if is_unrestricted limits then None else Some (mkLayer bucket_key limits None).

Definition scope_applies (scope : PolicyScope) (scope_ref : string) (i : ConditionInput) : bool :=
  match scope with
  | PsApiKey => bool_decide (in_api_key i = Some scope_ref)
  | PsModel => bool_decide (in_model i = Some scope_ref)
  | PsTeam => bool_decide (in_team i = Some scope_ref)
  | PsMember => bool_decide (in_member i = Some scope_ref)
  | PsTeamMember => bool_decide (in_team i = Some scope_ref) && negb (is_none (in_member i))
  end.

Definition spend_of (p : RateLimitPolicy) (scope : PolicyScope) (r policy_id suffix : string)
    : option SpendLayer :=
  let limits :=
    apply_granted
      (match max_spend_micro_usd p, pol_window p with
       | Some max_spend, Some w => spend_limits_for w max_spend
       | _, _ => no_limits
       end)
      (pol_granted p) in
  if is_unrestricted limits then None
  else Some (mkSpendLayer (spend_bucket_key (scope_as_str scope) r policy_id +:+ suffix) limits).

Definition match_policy_layer (p : RateLimitPolicy) (policy_id : string) (i : ConditionInput)
    (phase : PolicyPhase) : option PolicyLayer :=
  if is_conditional p then match_conditional_layer p policy_id i phase
  else
    match pol_scope p, scope_ref p with
    | Some scope, Some r =>
        if match phase with
           | PhaseModelTarget => negb (bool_decide (scope = PsModel))
           | PhaseRequest _ => false
           end then None
        else if negb (scope_applies scope r i) then None
        else
          let limits := default no_limits (classic_rate_limit p) in
          let suffix :=
            match scope, in_member i with
            | PsTeamMember, Some m => ":" +:+ m
            | _, _ => ""
            end in
          let key := "policy:" +:+ scope_as_str scope +:+ ":" +:+ r +:+ ":" +:+ policy_id +:+ suffix in
          let spend := spend_of p scope r policy_id suffix in
          if is_unrestricted limits && is_none spend then None
          else Some (mkLayer key limits spend)
    | _, _ => None
    end.

Definition matched_only_through_parent (p : RateLimitPolicy) (policy_id : string)
    (i : ConditionInput) (phase : PolicyPhase) : bool :=
  if is_none (in_parent_model i) && is_none (in_parent_model_name i) then false
  else
    let without_parent :=
      mkInput (in_team i) (in_member i) (in_api_key i) (in_model i) (in_model_name i)
        (in_provider i) None None (in_tags i) in
    is_none (match_policy_layer p policy_id without_parent phase).
End matching.

(** ** Refusals *)

(** [record_ratelimit_rejection(scope, layer, policy)] *)
Record Rejection := mkRejection {
  rej_scope : string;
  rej_layer : string;
  rej_policy : option (string * string);
}.

(** [Display] of [RateLimitScope] *)
Definition limit_scope_str (s : RateLimitScope) : string :=
  match s with ScopeRequests => "requests" | ScopeTokens => "tokens" end.

Definition reject (e : RateLimitError) (layer : string) (policy : option (string * string))
    (callers_bucket : bool) : Rejection * ProxyError :=
  (mkRejection (limit_scope_str (scope e)) layer policy,
   match policy with
   | Some (id, name) => PePolicyRateLimit e id name callers_bucket
   | None => if bool_decide (layer = "model") then PeModelRateLimit e else PeRateLimit e
   end).

Definition policy_bucket_is_callers (p : RateLimitPolicy) : bool :=
  if is_conditional p then
    match group_by p with
    | Some dims =>
        existsb (fun d => match d with ByApiKey | ByMember | ByTeam => true | _ => false end) dims
    | None => false
    end
  else match pol_scope p with Some s => negb (bool_decide (s = PsModel)) | None => false end.

Definition is_allowance (e : RateLimitError) : bool :=
  match e with AllowanceExhausted => true | _ => false end.

Definition spend_scope_label (w : option PolicyWindow) (e : RateLimitError) : string :=
  if is_allowance e then "spend_allowance"
  else
    match w with
    | Some WinMinute => "spend_minute"
    | Some WinHour => "spend_hour"
    | Some WinDay => "spend_day"
    | Some WinSecond | None => "spend_unknown"
    end.

(** [usd] prints an amount of micro-USD. *)
Definition reject_spend (usd : N -> string) (e : RateLimitError) (policy_id : string)
    (p : RateLimitPolicy) (member : option string) : Rejection * ProxyError :=
  let scope_ref :=
    match pol_scope p, member with
    | Some PsTeamMember, Some m => (fun team => team +:+ ":" +:+ m) <$> scope_ref p
    | _, _ => scope_ref p
    end in
  let scope_kind :=
    match pol_scope p with
    | Some PsApiKey => Some BsApiKey
    | Some PsTeam => Some BsTeam
    | Some PsMember => Some BsMember
    | Some PsTeamMember => Some BsTeamMember
    | Some PsModel | None => None
    end in
  (mkRejection (spend_scope_label (pol_window p) e) "policy_spend" (Some (policy_id, pol_name p)),
   PeBudgetExceeded (mkReason
     (if is_allowance e then
        "spend allowance exhausted for policy " +:+ pol_name p +:+ " — top up to continue"
      else "spend ceiling reached for policy " +:+ pol_name p)
     (scope_as_str <$> pol_scope p)
     scope_kind
     (Some (if is_allowance e then "Spend allowance exhausted. Top up to continue."
            else "Spend ceiling reached."))
     scope_ref
     (Some (usd (if is_allowance e then default 0 (pol_granted p)
                 else default 0 (max_spend_micro_usd p))))
     None None (window_as_str <$> pol_window p) None (retry_after_secs e))).

(** ** The gates *)

Record GateState (St : Type) := mkGateState {
  gate_limiter : Limiter St;
  policy_cache : option PolicyIndex;
  reservations : list Reservation;
  counted : list string;
  rejections : list Rejection;
}.
Arguments mkGateState {St}.
Arguments gate_limiter {St}.
Arguments policy_cache {St}.
Arguments reservations {St}.
Arguments counted {St}.
Arguments rejections {St}.

Definition set_limiter {St} (lim : Limiter St) (g : GateState St) : GateState St :=
  mkGateState lim (policy_cache g) (reservations g) (counted g) (rejections g).
Definition set_reservations {St} (rs : list Reservation) (g : GateState St) : GateState St :=
  mkGateState (gate_limiter g) (policy_cache g) rs (counted g) (rejections g).
Definition push_reservation {St} (r : Reservation) (g : GateState St) : GateState St :=
  set_reservations (reservations g ++ [r]) g.
Definition record_counted {St} (key : string) (g : GateState St) : GateState St :=
  mkGateState (gate_limiter g) (policy_cache g) (reservations g) (counted g ++ [key]) (rejections g).
Definition record_rejection {St} (r : Rejection) (g : GateState St) : GateState St :=
  mkGateState (gate_limiter g) (policy_cache g) (reservations g) (counted g) (rejections g ++ [r]).
Definition set_policy_cache {St} (c : option PolicyIndex) (g : GateState St) : GateState St :=
  mkGateState (gate_limiter g) c (reservations g) (counted g) (rejections g).

Section gates.
Context {St : Type} `{RateStore St} (in_runtime : bool).
Context {Instant : Type} (parse_tz : string -> option (Instant -> Z * N)).
Context (weekday : Z -> ScheduleWeekday) (parse_date : string -> option Z).
Context (regex : bool -> string -> option (string -> bool)) (parse_f64 : string -> option f64).
Context (usd : N -> string).

Abbreviation gate_m := (stm (GateState St) (option ProxyError)).

(** One [pre_commit(..).await.map_err(..)?] and the [push] of its reservation. *)
Definition reserve (key : string) (l : RateLimit) (u : CounterUnit)
    (refuse : RateLimitError -> Rejection * ProxyError) : gate_m unit := fun g =>
  match pre_commit_with_unit in_runtime key l u (gate_limiter g) with
  | (ROk r, lim) => (ROk tt, push_reservation r (set_limiter lim g))
  | (RErr e, lim) =>
      let '(rejection, err) := refuse e in
      (RErr (Some err), record_rejection rejection (set_limiter lim g))
  end.

Definition reserve_if_restricted (key : string) (l : RateLimit)
    (refuse : RateLimitError -> Rejection * ProxyError) : gate_m unit :=
  if is_unrestricted l then stm_ret tt else reserve key l UnitTokens refuse.

Definition counted_limits (pc : ParentCounted) (layer : PolicyLayer) : RateLimit :=
  match pc with
  | CountSkip keys =>
      if bool_decide (layer_bucket layer ∈ keys) then without_request_counts (layer_limits layer)
      else layer_limits layer
  | _ => layer_limits layer
  end.

Definition reserve_token_layer (i : ConditionInput) (phase : PolicyPhase) (pc : ParentCounted)
    (e : PolicyEntry) (layer : PolicyLayer) : gate_m unit :=
  let p := value e in
  let limits := counted_limits pc layer in
  if is_unrestricted limits then stm_ret tt
  else
    reserve (layer_bucket layer) limits UnitTokens
      (fun err => reject err "policy" (Some (entry_id e, pol_name p)) (policy_bucket_is_callers p)) ;;!
    match pc with
    | CountRecord =>
        if matched_only_through_parent regex parse_f64 p (entry_id e) i phase then
          stm_modify (record_counted (layer_bucket layer))
        else stm_ret tt
    | _ => stm_ret tt
    end.

Definition reserve_spend_layer (i : ConditionInput) (e : PolicyEntry) (layer : PolicyLayer)
    : gate_m unit :=
  match layer_spend layer with
  | Some spend =>
      reserve (spend_bucket spend) (spend_limits spend) UnitMicroUsd
        (fun err => reject_spend usd err (entry_id e) (value e) (in_member i))
  | None => stm_ret tt
  end.

(** The body of the loop of [reserve_policy_layers]. *)
Definition reserve_policy (i : ConditionInput) (phase : PolicyPhase) (pc : ParentCounted)
    (now : Instant) (e : PolicyEntry) : gate_m unit :=
  if suspended_at parse_tz weekday parse_date (value e) now then stm_ret tt
  else
    match match_policy_layer regex parse_f64 (value e) (entry_id e) i phase with
    | None => stm_ret tt
    | Some layer =>
        reserve_token_layer i phase pc e layer ;;! reserve_spend_layer i e layer
    end.

Fixpoint reserve_policies (i : ConditionInput) (phase : PolicyPhase) (pc : ParentCounted)
    (now : Instant) (es : list PolicyEntry) : gate_m unit :=
  match es with
  | [] => stm_ret tt
  | e :: es => reserve_policy i phase pc now e ;;! reserve_policies i phase pc now es
  end.

(** [state.policy_index.for_table(..).candidates(..)] *)
Definition policy_candidates (table : ResourceTable RateLimitPolicy) (i : ConditionInput)
    : gate_m (list PolicyEntry) := fun g =>
  let '(ix, cache) := for_table (policy_cache g) table in
  (match candidates ix i with Some es => ROk es | None => RErr None end, set_policy_cache cache g).

Definition reserve_policy_layers (snap : AisixSnapshot) (i : ConditionInput) (phase : PolicyPhase)
    (pc : ParentCounted) (now : Instant) : gate_m unit :=
  if table_is_empty (rate_limit_policies snap) then stm_ret tt
  else
    let! es := policy_candidates (rate_limit_policies snap) i in
    reserve_policies i phase pc now es.

(** A function that fills a vector of its own: returned when the body
    returns, dropped when it throws. *)
Definition with_reservations (m : gate_m unit) : gate_m MultiReservation := fun g =>
  match m (set_reservations [] g) with
  | (ROk _, g) => (ROk (reservations g), set_reservations [] g)
  | (RErr e, g) =>
      (RErr e, set_reservations [] (set_limiter (multi_drop (reservations g) (gate_limiter g)) g))
  end.

Definition reserve_inline_model (mrl : ModelRateLimit) : gate_m unit :=
  match mrl_limits mrl with
  | Some limits =>
      reserve ("model:" +:+ bucket_name mrl) limits UnitTokens
        (fun err => reject err "model" None false)
  | None => stm_ret tt
  end.

Definition reserve_mcp (servers : gmap string string) (auth : AuthenticatedKey) (server : string)
    : gate_m unit :=
  match mcp_rate_limit (auth_key auth) servers server with
  | Some limit =>
      reserve_if_restricted ("mcp:" +:+ entry_id (auth_entry auth) +:+ ":" +:+ mcp_bucket limit)
        (from_mcp (mcp_limits limit)) (fun err => reject err "mcp" None true)
  | None => stm_ret tt
  end.

(** [servers] is the registered-server index of the snapshot; [now] the clock. *)
Definition reserve_layers (snap : AisixSnapshot) (servers : gmap string string)
    (auth : AuthenticatedKey) (mrl : option ModelRateLimit) (mcp_server : option string)
    (now : Instant) : gate_m MultiReservation :=
  with_reservations
    (reserve_if_restricted (entry_id (auth_entry auth))
       (default no_limits (key_rate_limit (auth_key auth)))
       (fun err => reject err "api_key" None true) ;;!
     match mrl with Some mrl => reserve_inline_model mrl | None => stm_ret tt end ;;!
     match mcp_server with Some server => reserve_mcp servers auth server | None => stm_ret tt end ;;!
     reserve_policy_layers snap (condition_input auth mrl None)
       (PhaseRequest match mrl with Some m => mrl_routing_parent m | None => false end)
       CountOff now).

(** The bucket keys a later bill of the key on the model goes to. *)
Definition spend_bucket_keys (snap : AisixSnapshot) (auth : AuthenticatedKey) (mrl : ModelRateLimit)
    (now : Instant) : gate_m (list string) :=
  if table_is_empty (rate_limit_policies snap) then stm_ret []
  else
    let i := condition_input auth (Some mrl) None in
    let! es := policy_candidates (rate_limit_policies snap) i in
    stm_ret
      (omap (fun layer => spend_bucket <$> layer_spend layer)
         (omap (fun e => match_policy_layer regex parse_f64 (value e) (entry_id e) i (PhaseRequest false))
            (List.filter (fun e => negb (suspended_at parse_tz weekday parse_date (value e) now)) es))).

Definition budget_check (cal : Calendar) (bg : BudgetGate) (auth : AuthenticatedKey) : gate_m unit :=
  match enforce_key cal bg auth with
  | ROk _ => stm_ret tt
  | RErr e => stm_throw (Some e)
  end.

Definition enforce (cal : Calendar) (bg : BudgetGate) (snap : AisixSnapshot)
    (servers : gmap string string) (auth : AuthenticatedKey) (mrl : option ModelRateLimit)
    (now : Instant) : gate_m MultiReservation :=
  budget_check cal bg auth ;;! reserve_layers snap servers auth mrl None now.

Definition enforce_mcp (cal : Calendar) (bg : BudgetGate) (snap : AisixSnapshot)
    (servers : gmap string string) (auth : AuthenticatedKey) (mcp_server : string) (now : Instant)
    : gate_m MultiReservation :=
  budget_check cal bg auth ;;! reserve_layers snap servers auth None (Some mcp_server) now.

Definition enforce_rate_limit (snap : AisixSnapshot) (servers : gmap string string)
    (auth : AuthenticatedKey) (mrl : option ModelRateLimit) (now : Instant)
    : gate_m MultiReservation :=
  reserve_layers snap servers auth mrl None now.

Definition reserve_before_costly_check (checks_input_remotely : bool)
    (reserve : gate_m MultiReservation) : gate_m (option MultiReservation) :=
  if negb checks_input_remotely then stm_ret None
  else let! ms := reserve in stm_ret (Some ms).

Definition reserve_model_layers (snap : AisixSnapshot) (auth : AuthenticatedKey)
    (name id : string) (m : Model) (parent : option RoutingParent) (pc : ParentCounted)
    (now : Instant) : gate_m MultiReservation :=
  let mrl := from_model name id m in
  with_reservations
    (reserve_inline_model mrl ;;!
     reserve_policy_layers snap (condition_input auth (Some mrl) parent) PhaseModelTarget pc now).

Definition reserve_model_only (snap : AisixSnapshot) (auth : AuthenticatedKey)
    (name id : string) (m : Model) (parent : option RoutingParent) (now : Instant) :=
  reserve_model_layers snap auth name id m parent CountOff now.

Definition reserve_semantic_classifier (snap : AisixSnapshot) (auth : AuthenticatedKey)
    (name id : string) (m : Model) (router : RoutingParent) (now : Instant) :=
  reserve_model_layers snap auth name id m (Some router) CountRecord now.

Definition reserve_routing_target_counted (snap : AisixSnapshot) (auth : AuthenticatedKey)
    (parent : option RoutingParent) (name id : string) (m : Model) (counted : list string)
    (now : Instant) : gate_m (option MultiReservation) :=
  match parent with
  | None => stm_ret None
  | Some parent =>
      let! ms := reserve_model_layers snap auth name id m (Some parent) (CountSkip counted) now in
      stm_ret (Some ms)
  end.

Definition reserve_routing_target (snap : AisixSnapshot) (auth : AuthenticatedKey)
    (parent : option RoutingParent) (name id : string) (m : Model) (now : Instant) :=
  reserve_routing_target_counted snap auth parent name id m [] now.
End gates.

(** ** What the index may leave out *)

Lemma scope_applies_selecting s r i : scope_applies s r i = true -> r ∈ selecting i (scope_dimension s).
Proof.
  rewrite selecting_elem. destruct s; simpl;
    rewrite ?andb_true_iff, ?bool_decide_eq_true; tauto.
Qed.

Section selected.
Context (regex : bool -> string -> option (string -> bool)) (parse_f64 : string -> option f64).

(** A well-formed policy is of one form only. *)
Lemma validated_form p :
  validate_semantics regex p = ROk tt ->
  if is_conditional p then pol_scope p = None else conditions p = None.
Proof.
  unfold validate_semantics, is_conditional.
  destruct (has_classic_field p && has_conditional_field p) eqn:Em; [done|].
  apply andb_false_iff in Em. unfold has_classic_field, has_conditional_field in *.
  destruct (pol_limits p), (pol_scope p), (conditions p); simpl in *; try done;
    intros Hv; try (destruct Em as [? | Em]; [done|]);
    rewrite ?orb_true_r in *; by simplify_eq/=.
Qed.

Lemma matched_selected p id i ph :
  validate_semantics regex p = ROk tt ->
  match_policy_layer regex parse_f64 p id i ph <> None -> selected i p.
Proof.
  intros Hv%validated_form. unfold match_policy_layer, selected, selector.
  destruct (is_conditional p).
  - unfold match_conditional_layer. rewrite Hv. case_match; [done|].
    destruct (conditions p) as [nodes|] eqn:Ec; [|done]. simpl.
    destruct (eval_condition_nodes _ _ _ _) eqn:Ee; [|done]. intros _.
    destruct (required_match nodes) as [[d vs]|] eqn:Er; [|done].
    by eapply required_match_sound.
  - rewrite Hv. destruct (pol_scope p) as [s|]; [|done]. destruct (scope_ref p) as [r|]; [|done].
    simpl. case_match; [done|]. destruct (scope_applies s r i) eqn:Ea; [|done]. intros _.
    exists r. split; [by apply scope_applies_selecting|by left].
Qed.
End selected.

(** The cached index is the one of the table's present generation, or another
    generation's.  ([Snapshot.generation_identifies_rows] is why a running
    gateway's is.) *)
Definition cache_sound (cache : option PolicyIndex) (table : ResourceTable RateLimitPolicy) : Prop :=
  forall ix, cache = Some ix -> ix_generation ix = generation table -> ix = index_build table.

Lemma for_table_sound cache table :
  cache_sound cache table ->
  exists cache', for_table cache table = (index_build table, cache') /\ cache_sound cache' table.
Proof.
  intros Hc. unfold for_table.
  assert (cache_sound (Some (index_build table)) table) as Hb by (by intros ix [= <-]).
  destruct cache as [ix|]; [|by eexists].
  destruct (N.eqb_spec (ix_generation ix) (generation table)) as [E|]; [|by eexists].
  rewrite (Hc ix eq_refl E) in *. by eexists.
Qed.

Definition policies_valid (regex : bool -> string -> option (string -> bool)) (snap : AisixSnapshot) : Prop :=
  Forall (fun e => validate_semantics regex (value e) = ROk tt) (entries (rate_limit_policies snap)).

(** A policy in force that matches at a phase. *)
Definition in_effect {Instant : Type} (parse_tz : string -> option (Instant -> Z * N))
    (weekday : Z -> ScheduleWeekday) (parse_date : string -> option Z)
    (regex : bool -> string -> option (string -> bool)) (parse_f64 : string -> option f64)
    (i : ConditionInput) (phase : PolicyPhase) (now : Instant) (e : PolicyEntry)
    : option (PolicyEntry * PolicyLayer) :=
  if suspended_at parse_tz weekday parse_date (value e) now then None
  else pair e <$> match_policy_layer regex parse_f64 (value e) (entry_id e) i phase.

(** The candidates of the index contain every policy in effect, in the table's
    order. *)
Lemma matched_candidates {Instant : Type} parse_tz weekday parse_date regex parse_f64 snap i phase
    (now : Instant) :
  policies_valid regex snap ->
  exists es, candidates (index_build (rate_limit_policies snap)) i = Some es /\
    omap (in_effect parse_tz weekday parse_date regex parse_f64 i phase now) es =
    omap (in_effect parse_tz weekday parse_date regex parse_f64 i phase now)
      (entries (rate_limit_policies snap)).
Proof.
  intros Hv. apply candidates_complete. intros e Hin. unfold policies_valid in Hv.
  rewrite Forall_forall in Hv. specialize (Hv e Hin). unfold in_effect. case_match; [done|].
  destruct (match_policy_layer _ _ _ _ _ _) eqn:Em; [|done]. intros _.
  apply (matched_selected regex parse_f64 _ (entry_id e) i phase Hv). by rewrite Em.
Qed.

(** ** Admission, abstractly

    The layers a request must pass, in order, read off the table row by row; and
    the all-or-nothing reservation of a list of layers. *)

Record Layer := mkAdmLayer {
  adm_key : string;
  adm_limits : RateLimit;
  adm_unit : CounterUnit;
  adm_refuse : RateLimitError -> Rejection * ProxyError;
}.

Definition restricted (L : Layer) : list Layer := if is_unrestricted (adm_limits L) then [] else [L].

Section admission.
Context {St : Type} `{RateStore St} (in_runtime : bool).
Context {Instant : Type} (parse_tz : string -> option (Instant -> Z * N)).
Context (weekday : Z -> ScheduleWeekday) (parse_date : string -> option Z).
Context (regex : bool -> string -> option (string -> bool)) (parse_f64 : string -> option f64).
Context (usd : N -> string).

(** The layers of one matched policy: its tokens, then its spend. *)
Definition layers_of (i : ConditionInput) (pc : ParentCounted) (e : PolicyEntry) (layer : PolicyLayer)
    : list Layer :=
  restricted (mkAdmLayer (layer_bucket layer) (counted_limits pc layer) UnitTokens
    (fun err => reject err "policy" (Some (entry_id e, pol_name (value e)))
                  (policy_bucket_is_callers (value e))))
  ++ match layer_spend layer with
     | Some s => [mkAdmLayer (spend_bucket s) (spend_limits s) UnitMicroUsd
                    (fun err => reject_spend usd err (entry_id e) (value e) (in_member i))]
     | None => []
     end.

Definition policy_layers (snap : AisixSnapshot) (i : ConditionInput) (phase : PolicyPhase)
    (pc : ParentCounted) (now : Instant) : list Layer :=
  omap (in_effect parse_tz weekday parse_date regex parse_f64 i phase now) (entries (rate_limit_policies snap)) ≫= fun '(e, layer) =>
    layers_of i pc e layer.

Definition inline_layers (mrl : ModelRateLimit) : list Layer :=
  match mrl_limits mrl with
  | Some l => [mkAdmLayer ("model:" +:+ bucket_name mrl) l UnitTokens (fun err => reject err "model" None false)]
  | None => []
  end.

Definition request_layers (snap : AisixSnapshot) (servers : gmap string string)
    (auth : AuthenticatedKey) (mrl : option ModelRateLimit) (mcp_server : option string)
    (now : Instant) : list Layer :=
  restricted (mkAdmLayer (entry_id (auth_entry auth)) (default no_limits (key_rate_limit (auth_key auth)))
    UnitTokens (fun err => reject err "api_key" None true))
  ++ match mrl with Some m => inline_layers m | None => [] end
  ++ match mcp_server ≫= mcp_rate_limit (auth_key auth) servers with
     | Some limit => restricted (mkAdmLayer ("mcp:" +:+ entry_id (auth_entry auth) +:+ ":" +:+ mcp_bucket limit)
         (from_mcp (mcp_limits limit)) UnitTokens (fun err => reject err "mcp" None true))
     | None => []
     end
  ++ policy_layers snap (condition_input auth mrl None)
       (PhaseRequest match mrl with Some m => mrl_routing_parent m | None => false end) CountOff now.

Definition target_layers (snap : AisixSnapshot) (auth : AuthenticatedKey) (name id : string) (m : Model)
    (parent : option RoutingParent) (pc : ParentCounted) (now : Instant) : list Layer :=
  inline_layers (from_model name id m)
  ++ policy_layers snap (condition_input auth (Some (from_model name id m)) parent) PhaseModelTarget pc now.

(** Reserve the layers in order, up to the first refusal. *)
Fixpoint take_layers (layers : list Layer) (lim : Limiter St) (taken : list Reservation)
    : option (Rejection * ProxyError) * list Reservation * Limiter St :=
  match layers with
  | [] => (None, taken, lim)
  | L :: layers =>
      match pre_commit_with_unit in_runtime (adm_key L) (adm_limits L) (adm_unit L) lim with
      | (ROk r, lim) => take_layers layers lim (taken ++ [r])
      | (RErr e, lim) => (Some (adm_refuse L e), taken, lim)
      end
  end.

Definition admission_of (layers : list Layer) (lim : Limiter St)
    : result MultiReservation (Rejection * ProxyError) * Limiter St :=
  match take_layers layers lim [] with
  | (None, taken, lim) => (ROk taken, lim)
  | (Some refusal, taken, lim) => (RErr refusal, multi_drop taken lim)
  end.

Lemma take_layers_app l1 l2 lim taken :
  take_layers (l1 ++ l2) lim taken =
  match take_layers l1 lim taken with
  | (None, taken, lim) => take_layers l2 lim taken
  | refused => refused
  end.
Proof.
  revert lim taken. induction l1 as [|L l1 IH]; intros lim taken; [done|]. simpl.
  destruct (pre_commit_with_unit _ _ _ _ _) as [[r|e] lim']; [apply IH|done].
Qed.

(** [m] reserves exactly the layers [layers]. *)
Definition takes (table : ResourceTable RateLimitPolicy)
    (m : stm (GateState St) (option ProxyError) unit) (layers : list Layer) : Prop :=
  forall g, cache_sound (policy_cache g) table ->
  exists cache keys, cache_sound cache table /\
    let '(refusal, taken, lim) := take_layers layers (gate_limiter g) (reservations g) in
    m g = (match refusal with None => ROk tt | Some (_, e) => RErr (Some e) end,
           mkGateState lim cache taken keys
             (rejections g ++ match refusal with Some (rej, _) => [rej] | None => [] end)).

Lemma takes_ret table : takes table (stm_ret tt) [].
Proof.
  intros [lim c rs cs rj] Hc. exists c, cs. split; [done|]. simpl. by rewrite app_nil_r.
Qed.

Lemma takes_bind table m1 m2 l1 l2 :
  takes table m1 l1 -> takes table m2 l2 -> takes table (m1 ;;! m2) (l1 ++ l2).
Proof.
  intros H1 H2 g Hg. destruct (H1 g Hg) as (c & k & Hc & Hm). rewrite take_layers_app. unfold stm_bind.
  destruct (take_layers l1 _ _) as [[[[rej e]|] taken] lim]; rewrite Hm; [by exists c, k|].
  rewrite app_nil_r. destruct (H2 (mkGateState lim c taken k (rejections g)) Hc) as (c' & k' & Hc' & Hm').
  exists c', k'. split; [done|]. simpl in Hm'. by destruct (take_layers l2 lim taken) as [[[[]|]]].
Qed.

Lemma takes_reserve table key l u refuse :
  takes table (reserve in_runtime key l u refuse) [mkAdmLayer key l u refuse].
Proof.
  intros g Hg. exists (policy_cache g), (counted g). split; [done|]. unfold reserve. simpl.
  destruct (pre_commit_with_unit _ _ _ _ _) as [[r|e] lim]; simpl.
  - by rewrite app_nil_r.
  - by destruct (refuse e).
Qed.

Lemma takes_restricted table key l refuse :
  takes table (reserve_if_restricted in_runtime key l refuse)
    (restricted (mkAdmLayer key l UnitTokens refuse)).
Proof.
  unfold reserve_if_restricted, restricted. simpl.
  destruct (is_unrestricted l); [apply takes_ret|apply takes_reserve].
Qed.

(** A step that only records a bucket. *)
Lemma takes_recording table m (b : bool) key layers :
  takes table m layers ->
  takes table (m ;;! (if b then stm_modify (record_counted key) else stm_ret tt)) layers.
Proof.
  intros Hm. rewrite <- (app_nil_r layers). apply takes_bind; [done|].
  destruct b; [|apply takes_ret]. intros g Hg. exists (policy_cache g), (counted g ++ [key]).
  split; [done|]. simpl. by rewrite app_nil_r.
Qed.

Lemma takes_policy table i phase pc now e :
  takes table (reserve_policy in_runtime parse_tz weekday parse_date regex parse_f64 usd i phase pc now e)
    (match in_effect parse_tz weekday parse_date regex parse_f64 i phase now e with Some (e, layer) => layers_of i pc e layer | None => [] end).
Proof.
  unfold reserve_policy, in_effect. destruct (suspended_at _ _ _ _ _); [apply takes_ret|].
  destruct (match_policy_layer _ _ _ _ _ _) as [layer|]; [|apply takes_ret]. simpl.
  apply takes_bind.
  - unfold reserve_token_layer, restricted. simpl. destruct (is_unrestricted _); [apply takes_ret|].
    destruct pc.
    + rewrite <- (app_nil_r [_]). apply takes_bind; [apply takes_reserve|apply takes_ret].
    + apply takes_recording, takes_reserve.
    + rewrite <- (app_nil_r [_]). apply takes_bind; [apply takes_reserve|apply takes_ret].
  - unfold reserve_spend_layer. destruct (layer_spend layer); [apply takes_reserve|apply takes_ret].
Qed.

Lemma takes_policies table i phase pc now es :
  takes table
    (reserve_policies in_runtime parse_tz weekday parse_date regex parse_f64 usd i phase pc now es)
    (omap (in_effect parse_tz weekday parse_date regex parse_f64 i phase now) es ≫= fun '(e, layer) => layers_of i pc e layer).
Proof.
  induction es as [|e es IH]; [apply takes_ret|]. simpl.
  pose proof (takes_policy table i phase pc now e) as He.
  destruct (in_effect parse_tz weekday parse_date regex parse_f64 i phase now e) as [[e' layer]|].
  - rewrite bind_cons. by apply takes_bind.
  - rewrite <- (app_nil_l (_ ≫= _)). by apply takes_bind.
Qed.

(** The scan through the index reserves the layers of the whole table. *)
Lemma takes_policy_layers snap i phase pc now :
  policies_valid regex snap ->
  takes (rate_limit_policies snap)
    (reserve_policy_layers in_runtime parse_tz weekday parse_date regex parse_f64 usd snap i phase pc now)
    (policy_layers snap i phase pc now).
Proof.
  intros Hv. unfold reserve_policy_layers, policy_layers.
  destruct (table_is_empty (rate_limit_policies snap)) eqn:Ee.
  { unfold entries. rewrite Ee. apply takes_ret. }
  intros g Hg. destruct (for_table_sound _ _ Hg) as (c & Hft & Hc).
  destruct (matched_candidates parse_tz weekday parse_date regex parse_f64 snap i phase now Hv) as (es & Hes & Hom).
  unfold stm_bind, policy_candidates. rewrite Hft, Hes.
  destruct (takes_policies (rate_limit_policies snap) i phase pc now es (set_policy_cache c g) Hc)
    as (c' & k & Hc' & Hm).
  exists c', k. split; [done|]. by rewrite <- Hom.
Qed.

Lemma takes_inline table mrl : takes table (reserve_inline_model in_runtime mrl) (inline_layers mrl).
Proof.
  unfold reserve_inline_model, inline_layers.
  destruct (mrl_limits mrl); [apply takes_reserve|apply takes_ret].
Qed.

(** A gate whose body reserves [layers] admits [layers]. *)
Definition admits (table : ResourceTable RateLimitPolicy)
    (m : stm (GateState St) (option ProxyError) MultiReservation) (layers : list Layer) : Prop :=
  forall g, cache_sound (policy_cache g) table ->
  exists cache keys, cache_sound cache table /\
    let '(r, lim) := admission_of layers (gate_limiter g) in
    m g = (match r with ROk ms => ROk ms | RErr (_, e) => RErr (Some e) end,
           mkGateState lim cache [] keys
             (rejections g ++ match r with RErr (rej, _) => [rej] | ROk _ => [] end)).

Lemma with_reservations_admits table m layers :
  takes table m layers -> admits table (with_reservations m) layers.
Proof.
  intros Hm g Hg. destruct (Hm (set_reservations [] g) Hg) as (c & k & Hc & E).
  exists c, k. split; [done|]. unfold with_reservations, admission_of. simpl in E.
  destruct (take_layers layers (gate_limiter g) []) as [[[[rej e]|] taken] lim]; by rewrite E.
Qed.

Lemma reserve_layers_admits snap servers auth mrl mcp_server now :
  policies_valid regex snap ->
  admits (rate_limit_policies snap)
    (reserve_layers in_runtime parse_tz weekday parse_date regex parse_f64 usd snap servers auth mrl
       mcp_server now)
    (request_layers snap servers auth mrl mcp_server now).
Proof.
  intros Hv. apply with_reservations_admits. unfold request_layers.
  apply takes_bind; [apply takes_restricted|].
  apply takes_bind; [destruct mrl; [apply takes_inline|apply takes_ret]|].
  apply takes_bind; [|by apply takes_policy_layers].
  destruct mcp_server as [server|]; [|apply takes_ret]. simpl. unfold reserve_mcp.
  destruct (mcp_rate_limit _ _ _); [apply takes_restricted|apply takes_ret].
Qed.

Lemma reserve_model_layers_admits snap auth name id m parent pc now :
  policies_valid regex snap ->
  admits (rate_limit_policies snap)
    (reserve_model_layers in_runtime parse_tz weekday parse_date regex parse_f64 usd snap auth name id m
       parent pc now)
    (target_layers snap auth name id m parent pc now).
Proof.
  intros Hv. apply with_reservations_admits. apply takes_bind; [apply takes_inline|].
  by apply takes_policy_layers.
Qed.

(** C2. The request gate implements its specification: over well-formed
    policies and a sound cached index, [reserve_layers] reserves, in order, the
    layers of [request_layers] (the key's, the model's, the MCP server's, then
    every policy of the table in force that matches, its tokens before its
    spend); it returns them all, or releases what it had taken and reports the
    first layer refused, under that layer's error.  It never panics, and the
    index it caches is sound again. *)
Theorem reserve_layers_refines snap servers auth mrl mcp_server now g :
  policies_valid regex snap -> cache_sound (policy_cache g) (rate_limit_policies snap) ->
  exists cache keys, cache_sound cache (rate_limit_policies snap) /\
    reserve_layers in_runtime parse_tz weekday parse_date regex parse_f64 usd snap servers auth mrl
      mcp_server now g =
    match admission_of (request_layers snap servers auth mrl mcp_server now) (gate_limiter g) with
    | (ROk ms, lim) => (ROk ms, mkGateState lim cache [] keys (rejections g))
    | (RErr (rej, e), lim) => (RErr (Some e), mkGateState lim cache [] keys (rejections g ++ [rej]))
    end.
Proof.
  intros Hv Hg. destruct (reserve_layers_admits snap servers auth mrl mcp_server now Hv g Hg)
    as (c & k & Hc & E).
  exists c, k. split; [done|].
  destruct (admission_of _ _) as [[ms|[rej e]] lim]; rewrite E; [by rewrite app_nil_r|done].
Qed.
End admission.

(** ** What a request holds *)

Section holding.
Context {St : Type} `{RateStoreLaws St} (in_runtime : bool).

(** Every slot of the store belongs to [h] or to the list [sl]. *)
Definition holds_over (h : string -> gset string) (sl : list (string * string)) (lim : Limiter St) : Prop :=
  forall k m, m ∈ holders (store lim) k <-> m ∈ h k \/ (k, m) ∈ sl.

(** The members the limiter will hand out hold no slot yet. *)
Definition fresh_members (lim : Limiter St) : Prop :=
  forall k j, seq lim <= j -> member_prefix lim +:+ pretty j ∉ holders (store lim) k.

(** The reservations [rs] were taken since the limiter was [lim0]. *)
Record taken_since (lim0 : Limiter St) (rs : list Reservation) (lim : Limiter St) : Prop := {
  ts_holds : holds_over (holders (store lim0)) (slot_of <$> rs) lim;
  ts_nodup : NoDup (member <$> rs);
  ts_member r : r ∈ rs -> exists j, member r = member_prefix lim0 +:+ pretty j /\ seq lim0 <= j < seq lim;
  ts_open : Forall (fun r => committed r = false) rs;
  ts_prefix : member_prefix lim = member_prefix lim0;
  ts_seq : seq lim0 <= seq lim;
}.

Lemma taken_since_refl lim : taken_since lim [] lim.
Proof.
  split; [|constructor| |constructor|done|lia].
  - intros k m. rewrite elem_of_nil. tauto.
  - intros r Hr. by apply elem_of_nil in Hr.
Qed.

Lemma taken_since_pre_commit lim0 rs lim key l u res lim' :
  seq lim + 1 < 2 ^ 64 ->
  pre_commit_with_unit in_runtime key l u lim = (res, lim') ->
  taken_since lim0 rs lim ->
  seq lim' = seq lim + 1 /\
  match res with
  | ROk r => taken_since lim0 (rs ++ [r]) lim' /\ res_key r = key /\ counter_unit r = u
  | RErr _ => taken_since lim0 rs lim'
  end.
Proof.
  intros Hseq Hpre [Hh Hn Hm Ho Hp Hs]. unfold pre_commit_with_unit, next_member in Hpre.
  cbn [store] in Hpre. set (m := member_prefix lim +:+ pretty (seq lim)) in *.
  assert (wrap64 (seq lim + 1) = seq lim + 1) as Hw by (unfold wrap64; by apply N.mod_small).
  assert (forall r, r ∈ rs -> member r <> m) as Hnew.
  { intros r (j & -> & ?)%Hm E. unfold m in E. rewrite Hp in E.
    apply (inj (String.append _)), (inj pretty) in E. lia. }
  assert (forall r, r ∈ rs -> exists j, member r = member_prefix lim0 +:+ pretty j /\
    seq lim0 <= j < seq lim + 1) as Hm'.
  { intros r (j & E & ?)%Hm. exists j. split; [done|lia]. }
  pose proof (acquire_holders key l m (store lim)) as Ha.
  destruct (acquire key l m (store lim)) as [[[]|e] s]; simplify_eq/=; (split; [done|]).
  - split; [|done]. split; simpl.
    + intros k m'. rewrite Ha, fmap_app, elem_of_app. cbn [fmap list_fmap].
      rewrite list_elem_of_singleton. unfold slot_of at 2. simpl. specialize (Hh k m').
      destruct (decide (k = key)); [rewrite decide_True by done|rewrite decide_False by naive_solver];
        rewrite ?elem_of_union, ?elem_of_singleton, Hh; naive_solver.
    + rewrite fmap_app, NoDup_app. split; [done|]. split; [|apply NoDup_singleton].
      intros x (r & -> & Hr)%list_elem_of_fmap E%list_elem_of_singleton. by apply (Hnew r).
    + rewrite Hw. intros r [Hr | ->%list_elem_of_singleton]%elem_of_app; [by apply Hm'|].
      exists (seq lim). split; [by rewrite <- Hp|lia].
    + apply Forall_app. split; [done|]. by constructor.
    + done.
    + rewrite Hw. lia.
  - split; simpl; rewrite ?Hw; try done; [|lia]. intros k m'. rewrite Ha.
    apply Hh.
Qed.

Lemma take_layers_since lim0 layers lim rs :
  seq lim + N.of_nat (length layers) < 2 ^ 64 -> taken_since lim0 rs lim ->
  let '(refusal, taken, lim') := take_layers in_runtime layers lim rs in
  seq lim' <= seq lim + N.of_nat (length layers) /\ taken_since lim0 taken lim' /\
  (refusal = None ->
   (fun r => (res_key r, counter_unit r)) <$> taken =
   ((fun r => (res_key r, counter_unit r)) <$> rs) ++ ((fun L => (adm_key L, adm_unit L)) <$> layers)).
Proof.
  revert lim rs. induction layers as [|L layers IH]; intros lim rs Hseq Hts; simpl.
  { split; [lia|]. split; [done|]. by rewrite app_nil_r. }
  cbn [length] in Hseq.
  destruct (pre_commit_with_unit _ _ _ _ _) as [res lim'] eqn:Ep.
  assert (seq lim + 1 < 2 ^ 64) as Hseq1 by lia.
  destruct (taken_since_pre_commit _ _ _ _ _ _ _ _ Hseq1 Ep Hts) as [Hs Hres].
  destruct res as [r|e]; [|split; [lia|by split]].
  destruct Hres as (Hts' & Hk & Hu). specialize (IH lim' (rs ++ [r]) ltac:(lia) Hts').
  destruct (take_layers _ _ _ _) as [[refusal taken] lim'']. destruct IH as (? & ? & Hl).
  split; [lia|]. split; [done|].
  intros Hr. rewrite (Hl Hr), fmap_app, <- app_assoc. simpl. by rewrite Hk, Hu.
Qed.

(** Dropping a reservation that is held over [h] gives its slot back. *)
Lemma holds_over_drop h r rs lim :
  member r ∉ h (res_key r) -> member r ∉ member <$> rs -> committed r = false ->
  holds_over h (slot_of <$> r :: rs) lim -> holds_over h (slot_of <$> rs) (reservation_drop r lim).
Proof.
  intros Hh Hrs Hc Ho k m. unfold reservation_drop. simpl. rewrite Hc. simpl. rewrite release_holders.
  specialize (Ho k m). rewrite fmap_cons, elem_of_cons in Ho. unfold slot_of at 1 in Ho.
  assert ((k, m) ∈ slot_of <$> rs -> m <> member r) as Hne.
  { intros (r' & [= -> ->] & Hr')%list_elem_of_fmap E. apply Hrs. rewrite <- E. by apply list_elem_of_fmap_2. }
  destruct (decide (k = res_key r)); [rewrite elem_of_difference, elem_of_singleton|]; naive_solver.
Qed.

Lemma multi_drop_holds h rs lim :
  (forall r, r ∈ rs -> forall k, member r ∉ h k) -> NoDup (member <$> rs) ->
  Forall (fun r => committed r = false) rs -> holds_over h (slot_of <$> rs) lim ->
  forall k, holders (store (multi_drop rs lim)) k = h k.
Proof.
  revert lim. induction rs as [|r rs IH]; intros lim Hf Hn Ho Hh k.
  - apply set_eq. intros m. specialize (Hh k m). rewrite fmap_nil, elem_of_nil in Hh. simpl. tauto.
  - rewrite fmap_cons in Hn. apply NoDup_cons in Hn as [Hr Hn]. apply Forall_cons in Ho as [Hc Ho].
    apply IH; [|done..|].
    + intros r' Hr'. apply Hf. by right.
    + apply holds_over_drop; [apply Hf; by left|done..].
Qed.

(** [lim'] holds what [lim] holds, at most [n] members later. *)
Record balanced (n : N) (lim lim' : Limiter St) : Prop := {
  bal_holds k : holders (store lim') k = holders (store lim) k;
  bal_prefix : member_prefix lim' = member_prefix lim;
  bal_seq : seq lim <= seq lim' <= seq lim + n;
}.

Lemma balanced_refl lim : balanced 0 lim lim.
Proof. split; [done..|lia]. Qed.

Lemma balanced_trans n n' lim lim1 lim2 :
  balanced n lim lim1 -> balanced n' lim1 lim2 -> balanced (n + n') lim lim2.
Proof.
  intros [H1 P1 S1] [H2 P2 S2]. split; [intros k; by rewrite H2, H1|congruence|lia].
Qed.

Lemma balanced_le n n' lim lim' : n <= n' -> balanced n lim lim' -> balanced n' lim lim'.
Proof. intros Hn [H1 P1 S1]. split; [done..|lia]. Qed.

Lemma balanced_fresh n lim lim' : balanced n lim lim' -> fresh_members lim -> fresh_members lim'.
Proof. intros [H1 P1 S1] Hf k j Hj. rewrite P1, H1. apply Hf. lia. Qed.

Lemma multi_drop_meta rs lim :
  member_prefix (multi_drop rs lim) = member_prefix lim /\ seq (multi_drop rs lim) = seq lim.
Proof.
  revert lim. induction rs as [|r rs IH]; intros lim; [done|]. simpl. destruct (IH (reservation_drop r lim)) as [-> ->].
  unfold reservation_drop. by destruct (committed _).
Qed.

(** What was taken is given back by a drop. *)
Lemma taken_since_dropped lim rs lim' :
  fresh_members lim -> taken_since lim rs lim' ->
  balanced (seq lim' - seq lim) lim (multi_drop rs lim').
Proof.
  intros Hf [Hh Hn Hm Ho Hp Hs]. destruct (multi_drop_meta rs lim') as [Ep Es]. split.
  - apply multi_drop_holds; [|done..]. intros r (j & -> & ? & _)%Hm k0. by apply Hf.
  - congruence.
  - lia.
Qed.

(** What a gate that admits [layers] leaves behind. *)
Lemma admits_holds table m layers g :
  admits in_runtime table m layers -> cache_sound (policy_cache g) table ->
  fresh_members (gate_limiter g) ->
  seq (gate_limiter g) + N.of_nat (length layers) < 2 ^ 64 ->
  let '(r, g') := m g in
  cache_sound (policy_cache g') table /\ seq (gate_limiter g') <= seq (gate_limiter g) + N.of_nat (length layers) /\
  match r with
  | ROk ms =>
      taken_since (gate_limiter g) ms (gate_limiter g') /\
      (fun r => (res_key r, counter_unit r)) <$> ms = (fun L => (adm_key L, adm_unit L)) <$> layers
  | RErr e => e <> None /\ balanced (N.of_nat (length layers)) (gate_limiter g) (gate_limiter g')
  end.
Proof.
  intros Ha Hg Hf Hseq. destruct (Ha g Hg) as (c & k & Hc & E). unfold admission_of in E.
  pose proof (take_layers_since (gate_limiter g) layers (gate_limiter g) [] Hseq (taken_since_refl _)) as Ht.
  destruct (take_layers _ layers _ []) as [[[[rej e]|] taken] lim]; rewrite E; simpl;
    (split; [done|]); destruct Ht as (Hs & Hts & Hl).
  - pose proof (taken_since_dropped _ _ _ Hf Hts) as Hb. destruct (multi_drop_meta taken lim) as [_ Es].
    split; [rewrite Es; lia|]. split; [done|]. eapply balanced_le; [|exact Hb].
    destruct Hts. lia.
  - split; [done|]. split; [done|by apply Hl].
Qed.

(** C25. A request holds what it was admitted for and nothing else.  Where the
    gate admits, the reservation returned has one entry per layer, in order and
    under the layer's bucket and unit, and the store's holders have grown by
    exactly its slots; where it refuses, every holder is as it was before the
    request. *)
Theorem admission_all_or_nothing {Instant : Type} parse_tz weekday parse_date regex parse_f64 usd
    snap servers auth mrl mcp_server (now : Instant) g :
  policies_valid regex snap -> cache_sound (policy_cache g) (rate_limit_policies snap) ->
  fresh_members (gate_limiter g) ->
  let layers := request_layers parse_tz weekday parse_date regex parse_f64 usd snap servers auth mrl
                  mcp_server now in
  seq (gate_limiter g) + N.of_nat (length layers) < 2 ^ 64 ->
  let h := holders (store (gate_limiter g)) in
  match reserve_layers in_runtime parse_tz weekday parse_date regex parse_f64 usd snap servers auth mrl
          mcp_server now g with
  | (ROk ms, g') =>
      (fun r => (res_key r, counter_unit r)) <$> ms = (fun L => (adm_key L, adm_unit L)) <$> layers /\
      forall k m, m ∈ holders (store (gate_limiter g')) k <-> m ∈ h k \/ (k, m) ∈ slot_of <$> ms
  | (RErr _, g') => forall k, holders (store (gate_limiter g')) k = h k
  end.
Proof.
  intros Hv Hg Hf layers Hseq h.
  pose proof (reserve_layers_admits in_runtime parse_tz weekday parse_date regex parse_f64 usd snap servers
    auth mrl mcp_server now Hv) as Ha. fold layers in Ha.
  pose proof (admits_holds _ _ _ g Ha Hg Hf Hseq) as Hh.
  destruct (reserve_layers _ _ _ _ _ _ _ _ _ _ _ _ _ g) as [[ms|e] g']; destruct Hh as (_ & _ & Hh).
  - split; [apply Hh|]. apply Hh.
  - apply Hh.
Qed.
End holding.

(** ** Bucket identity *)

Definition escape_char (a : Ascii.ascii) : string :=
  if Ascii.eqb a percent then "%25"
  else if Ascii.eqb a colon then "%3A"
  else if Ascii.eqb a equals_sign then "%3D"
  else String a "".

Fixpoint escaped (s : string) : string :=
  match s with
  | EmptyString => EmptyString
  | String a s => escape_char a +:+ escaped s
  end.

Lemma replace_char_app c r s t : replace_char c r (s +:+ t) = replace_char c r s +:+ replace_char c r t.
Proof. induction s as [|a s IH]; [done|]. simpl. rewrite IH. apply (assoc_L String.append). Qed.

(** The three replacements, one after another, are one pass. *)
Lemma replaced_escaped v :
  replace_char equals_sign "%3D" (replace_char colon "%3A" (replace_char percent "%25" v)) = escaped v.
Proof.
  induction v as [|a v IH]; [done|]. simpl. rewrite !replace_char_app, IH. f_equal. unfold escape_char.
  destruct (Ascii.eqb_spec a percent) as [->|Hp]; [done|]. simpl.
  destruct (Ascii.eqb_spec a colon) as [->|Hc]; [done|]. simpl.
  by destruct (Ascii.eqb_spec a equals_sign).
Qed.

Lemma escape_escaped v : escape_bucket_segment v = escaped v.
Proof.
  unfold escape_bucket_segment. case_match eqn:Hc; [apply replaced_escaped|].
  induction v as [|a v IH]; [done|]. simpl in Hc. rewrite !orb_false_iff in Hc.
  destruct Hc as [[[Ha1 Hv1] [Ha2 Hv2]] [Ha3 Hv3]]. simpl. unfold escape_char.
  rewrite Ha1, Ha2, Ha3, <- IH; [done|]. by rewrite Hv1, Hv2, Hv3.
Qed.

Lemma escape_char_inj a b s t : escape_char a +:+ s = escape_char b +:+ t -> a = b /\ s = t.
Proof.
  unfold escape_char.
  destruct (Ascii.eqb_spec a percent), (Ascii.eqb_spec b percent), (Ascii.eqb_spec a colon),
    (Ascii.eqb_spec b colon), (Ascii.eqb_spec a equals_sign), (Ascii.eqb_spec b equals_sign);
    subst; intros E; unfold percent, colon, equals_sign in *; by simplify_eq/=.
Qed.

Lemma escape_char_no_colon a : contains_char colon (escape_char a) = false.
Proof.
  unfold escape_char. destruct (Ascii.eqb a percent); [done|].
  destruct (Ascii.eqb a colon) eqn:E; [done|]. destruct (Ascii.eqb a equals_sign); [done|].
  simpl. by rewrite E.
Qed.

Lemma contains_char_app c s t : contains_char c (s +:+ t) = contains_char c s || contains_char c t.
Proof. induction s as [|a s IH]; [done|]. simpl. by rewrite IH, orb_assoc. Qed.

Lemma escaped_no_colon s : contains_char colon (escaped s) = false.
Proof. induction s as [|a s IH]; [done|]. simpl. by rewrite contains_char_app, escape_char_no_colon, IH. Qed.

(** What may follow a segment: nothing, or the next segment. *)
Definition segment_end (s : string) : Prop := s = "" \/ exists s', s = String colon s'.

Lemma segment_end_eq s t : segment_end s -> contains_char colon (s +:+ t) = false -> s = "".
Proof. by intros [-> | [s' ->]]. Qed.

Lemma escape_char_not_end a s t : segment_end t -> escape_char a +:+ s = t -> False.
Proof.
  intros Ht E. assert (exists b r, escape_char a = String b r /\ b <> colon) as (b & r & Ha & Hb).
  { unfold escape_char. destruct (Ascii.eqb a percent); [by eexists _, _|].
    destruct (Ascii.eqb_spec a colon); [by eexists _, _|].
    destruct (Ascii.eqb a equals_sign); by eexists _, _. }
  rewrite Ha in E. destruct Ht as [-> | [t' ->]]; [done|]. by injection E as ->.
Qed.

Lemma escaped_split v w s t :
  segment_end s -> segment_end t -> escaped v +:+ s = escaped w +:+ t -> v = w /\ s = t.
Proof.
  intros Hs Ht. revert w. induction v as [|a v IH]; intros [|b w]; simpl.
  - done.
  - rewrite <- (assoc_L String.append). intros E. symmetry in E. by apply escape_char_not_end in E.
  - rewrite <- (assoc_L String.append). intros E. by apply escape_char_not_end in E.
  - rewrite <- !(assoc_L String.append). intros [-> E]%escape_char_inj. apply IH in E as [-> ->]. done.
Qed.

(** The segments after the policy's own part of the key. *)
Fixpoint segments (i : ConditionInput) (dims : list GroupByDimension) : option string :=
  match dims with
  | [] => Some ""
  | d :: dims =>
      v ← get_group_by i d;
      rest ← segments i dims;
      Some (":" +:+ group_by_name d +:+ "=" +:+ escaped v +:+ rest)
  end.

Lemma append_segments_eq i dims key : append_segments i dims key = (String.append key) <$> segments i dims.
Proof.
  revert key. induction dims as [|d dims IH]; intros key; simpl.
  { f_equal. by rewrite (right_id_L "" String.append). }
  destruct (get_group_by i d) as [v|]; [|done]. simpl. rewrite IH, escape_escaped.
  destruct (segments i dims) as [rest|]; [|done]. simpl. f_equal.
  by rewrite <- !(assoc_L String.append).
Qed.

Lemma segments_end i dims s : segments i dims = Some s -> segment_end s.
Proof.
  destruct dims as [|d dims]; simpl; [intros [= <-]; by left|].
  destruct (get_group_by i d); [|done]. simpl. destruct (segments i dims); [|done].
  intros [= <-]. right. by eexists.
Qed.

Lemma segments_inj i i' dims s :
  segments i dims = Some s -> segments i' dims = Some s ->
  forall d, d ∈ dims -> get_group_by i d = get_group_by i' d.
Proof.
  revert s. induction dims as [|d dims IH]; intros s; simpl; [intros _ _ d Hd; by apply elem_of_nil in Hd|].
  destruct (get_group_by i d) as [v|] eqn:Ev; [|done]. destruct (get_group_by i' d) as [w|] eqn:Ew; [|done].
  simpl. destruct (segments i dims) as [r|] eqn:Er; [|done].
  destruct (segments i' dims) as [r'|] eqn:Er'; [|done]. simpl. intros [= <-] [= E].
  do 3 apply (inj (String.append _)) in E. symmetry in E.
  apply escaped_split in E as [-> ->]; [|by eapply segments_end..].
  intros d' [-> | Hd]%elem_of_cons; [congruence|]. by apply (IH r').
Qed.

Lemma segments_ext i i' dims :
  (forall d, d ∈ dims -> get_group_by i d = get_group_by i' d) -> segments i dims = segments i' dims.
Proof.
  induction dims as [|d dims IH]; intros Hd; [done|]. simpl.
  rewrite (Hd d) by by left. rewrite IH; [done|]. intros d' ?. apply Hd. by right.
Qed.

Lemma rank_leb_total a b : rank_leb a b = true \/ rank_leb b a = true.
Proof.
  unfold rank_leb. destruct a as [m s], b as [n t]. simpl.
  destruct (N.lt_trichotomy m n) as [? | [-> | ?]]; [left|..|right]; [apply orb_true_iff; left; lia| |
    apply orb_true_iff; left; lia].
  rewrite N.eqb_refl. destruct (string_leb_total s t) as [-> | ->]; [left|right]; apply orb_true_r.
Qed.

Lemma rank_leb_spec a b :
  rank_leb a b = true <-> a.1 < b.1 \/ (a.1 = b.1 /\ string_leb a.2 b.2 = true).
Proof. unfold rank_leb. rewrite orb_true_iff, andb_true_iff, N.ltb_lt, N.eqb_eq. done. Qed.

Lemma rank_leb_trans a b c : rank_leb a b = true -> rank_leb b c = true -> rank_leb a c = true.
Proof.
  rewrite !rank_leb_spec. intros [? | [? H1]] [? | [? H2]]; try (left; lia).
  right. split; [lia|]. by eapply string_leb_trans.
Qed.

Lemma rank_leb_antisym a b : rank_leb a b = true -> rank_leb b a = true -> a = b.
Proof.
  destruct a, b. rewrite !rank_leb_spec. simpl. intros [? | [-> H1]] [? | [? H2]]; try lia.
  f_equal. by apply string_leb_antisym.
Qed.

Lemma canonical_rank_inj : Inj (=) (=) canonical_rank.
Proof. intros [] [] E; simpl in E; by simplify_eq. Qed.

Lemma sorted_group_by_perm p p' :
  default [] (group_by p) ≡ₚ default [] (group_by p') -> sorted_group_by p = sorted_group_by p'.
Proof.
  intros Hp. unfold sorted_group_by. set (leb := fun _ _ => _).
  assert (forall x y, leb x y = true \/ leb y x = true) as Ht by (intros *; apply rank_leb_total).
  assert (forall x y z, leb x y = true -> leb y z = true -> leb x z = true) as Htr
    by (intros *; apply rank_leb_trans).
  apply (sorted_unique leb Ht).
  - intros x y H1 H2. by apply canonical_rank_inj, rank_leb_antisym.
  - by apply stable_sort_sorted.
  - by apply stable_sort_sorted.
  - by rewrite !stable_sort_perm.
Qed.

Section identity.
Context (regex : bool -> string -> option (string -> bool)) (parse_f64 : string -> option f64).

(** A conditional match, taken apart. *)
Lemma match_conditional_layer_Some p id i ph L :
  match_conditional_layer regex parse_f64 p id i ph = Some L ->
  exists s, segments i (sorted_group_by p) = Some s /\
    layer_bucket L = ("policy:v2:" +:+ id) +:+ s /\ pol_limits p = Some (layer_limits L) /\
    layer_spend L = None.
Proof.
  unfold match_conditional_layer.
  match goal with |- (if ?b then _ else _) = _ -> _ => destruct b; [done|] end.
  destruct (negb (eval_condition_nodes _ _ _ _)); [done|].
  rewrite append_segments_eq. destruct (segments _ _) as [s|]; [|done]. simpl.
  destruct (pol_limits p) as [l|]; [|done]. simpl. destruct (is_unrestricted l); [done|].
  intros [= <-]. by exists s.
Qed.

(** A conditional policy keeps one counter per tuple of [group_by] values.
    Two requests it matches fall in the same bucket exactly when they agree on
    every dimension it splits by, whatever characters the values contain; and
    the order the dimensions are declared in never changes a layer. *)
Theorem bucket_identity p id i i' ph ph' L L' :
  is_conditional p = true ->
  match_policy_layer regex parse_f64 p id i ph = Some L ->
  match_policy_layer regex parse_f64 p id i' ph' = Some L' ->
  (layer_bucket L = layer_bucket L' <->
   forall d, d ∈ default [] (group_by p) -> get_group_by i d = get_group_by i' d) /\
  forall dims, dims ≡ₚ default [] (group_by p) ->
    match_policy_layer regex parse_f64
      (mkPolicy (pol_name p) (pol_scope p) (scope_ref p) (pol_window p) (max_requests p) (max_tokens p)
         (max_spend_micro_usd p) (pol_granted p) (conditions p) (Some dims) (pol_limits p) (action p)
         (schedules p)) id i ph = Some L.
Proof.
  intros Hc Hm Hm'. split.
  - unfold match_policy_layer in *. rewrite Hc in *.
    apply match_conditional_layer_Some in Hm as (s & Hs & -> & _).
    apply match_conditional_layer_Some in Hm' as (s' & Hs' & -> & _).
    assert (forall d, d ∈ default [] (group_by p) <-> d ∈ sorted_group_by p) as Hin
      by (intros d; unfold sorted_group_by; by rewrite stable_sort_perm).
    split.
    + intros ->%(inj (String.append _)) d Hd%Hin. by eapply segments_inj.
    + intros Hd. f_equal. rewrite (segments_ext i i') in Hs by (intros d Hd'; by apply Hd, Hin). congruence.
  - intros dims Hp. rewrite <- Hm. unfold match_policy_layer, is_conditional. simpl.
    unfold is_conditional in Hc. rewrite Hc. unfold match_conditional_layer. simpl.
    rewrite (sorted_group_by_perm _ p) by done.
    assert (existsb is_model_split dims =
      match group_by p with Some dims => existsb is_model_split dims | None => false end) as Hr.
    { destruct (group_by p) as [ds|]; simpl in Hp; [|by apply Permutation_nil_r in Hp as ->].
      apply eq_true_iff_eq. rewrite !existsb_exists. split; intros (x & Hx & ?); exists x; split; try done;
        apply list_elem_of_In; apply list_elem_of_In in Hx; [by rewrite <- Hp|by rewrite Hp]. }
    unfold references_model_property. simpl. by rewrite Hr.
Qed.

Lemma or_else_None {A} (a : option A) : or_else a None = a.
Proof. by destruct a. Qed.

(** Every policy reserves at exactly one gate of an attempt.  What a policy
    asks of a request resolved to one model is what the request gate of a routed
    request asks, or else what the target gate asks; and the two gates, whatever
    their inputs, both ask only of a policy scoped to one model that is the
    routing parent and the target at once. *)
Theorem phases_partition p id i :
  let at_ := match_policy_layer regex parse_f64 p id in
  at_ i (PhaseRequest false) = or_else (at_ i (PhaseRequest true)) (at_ i PhaseModelTarget) /\
  forall i', at_ i (PhaseRequest true) <> None -> at_ i' PhaseModelTarget <> None ->
    is_conditional p = false /\ pol_scope p = Some PsModel /\ is_Some (in_model i) /\ in_model i = in_model i'.
Proof.
  unfold match_policy_layer, match_conditional_layer. destruct (is_conditional p).
  - destruct (references_model_property p); simpl.
    + split; [done|]. by intros i' [].
    + split; [by rewrite or_else_None|]. by intros i' _ [].
  - destruct (pol_scope p) as [s|]; [|by split]. destruct (scope_ref p) as [r|]; [|by split].
    destruct (decide (s = PsModel)) as [-> | Hs].
    + rewrite bool_decide_true by done. simpl. split; [by destruct (if negb _ then _ else _)|].
      intros i'. repeat case_bool_decide; try done. intros _ _. repeat split; [by eexists|congruence].
    + rewrite bool_decide_false by done. simpl. split; [by rewrite or_else_None|]. by intros i' _ [].
Qed.

(** The spend buckets among a list of layers. *)
Definition spend_buckets (layers : list Layer) : list string :=
  adm_key <$> filter (fun L => adm_unit L = UnitMicroUsd) layers.

Lemma spend_buckets_app l l' : spend_buckets (l ++ l') = spend_buckets l ++ spend_buckets l'.
Proof. unfold spend_buckets. by rewrite filter_app, fmap_app. Qed.

Lemma spend_buckets_restricted key l refuse :
  spend_buckets (restricted (mkAdmLayer key l UnitTokens refuse)) = [].
Proof. unfold restricted. simpl. by destruct (is_unrestricted l). Qed.

Lemma spend_buckets_matched usd i pc (l : list (PolicyEntry * PolicyLayer)) :
  spend_buckets (l ≫= fun '(e, layer) => layers_of usd i pc e layer) =
  omap (fun layer => spend_bucket <$> layer_spend layer) (snd <$> l).
Proof.
  induction l as [|[e L] l IH]; [done|]. rewrite bind_cons, spend_buckets_app, IH. unfold layers_of.
  rewrite spend_buckets_app, spend_buckets_restricted. simpl. by destruct (layer_spend L).
Qed.

Lemma in_effect_layers {Instant} parse_tz weekday parse_date i ph (now : Instant) es :
  omap (fun e => match_policy_layer regex parse_f64 (value e) (entry_id e) i ph)
    (List.filter (fun e => negb (suspended_at parse_tz weekday parse_date (value e) now)) es) =
  snd <$> omap (in_effect parse_tz weekday parse_date regex parse_f64 i ph now) es.
Proof.
  induction es as [|e es IH]; [done|]. simpl. unfold in_effect at 1.
  destruct (suspended_at _ _ _ _ _); [exact IH|]. simpl.
  destruct (match_policy_layer _ _ _ _ _ _); simpl; [f_equal|]; exact IH.
Qed.

(** A bill presented later goes to the buckets the request was reserved
    under: over well-formed policies and a sound cached index, and for a model
    that is no routing parent, [spend_bucket_keys] lists exactly the spend
    buckets among the layers [reserve_layers] would take at the same instant. *)
Theorem late_bill_same_buckets {St Instant : Type} `{RateStore St} parse_tz weekday parse_date usd snap
    servers auth mrl mcp_server (now : Instant) (g : GateState St) :
  policies_valid regex snap -> cache_sound (policy_cache g) (rate_limit_policies snap) ->
  mrl_routing_parent mrl = false ->
  fst (spend_bucket_keys parse_tz weekday parse_date regex parse_f64 snap auth mrl now g) =
  ROk (spend_buckets
         (request_layers parse_tz weekday parse_date regex parse_f64 usd snap servers auth (Some mrl)
            mcp_server now)).
Proof.
  intros Hv Hg Hd.
  assert (spend_buckets (request_layers parse_tz weekday parse_date regex parse_f64 usd snap servers auth
            (Some mrl) mcp_server now) =
    omap (fun layer => spend_bucket <$> layer_spend layer)
      (snd <$> omap (in_effect parse_tz weekday parse_date regex parse_f64 (condition_input auth (Some mrl) None)
                (PhaseRequest false) now) (entries (rate_limit_policies snap)))) as ->.
  { unfold request_layers. rewrite !spend_buckets_app, spend_buckets_restricted. cbn [app].
    unfold policy_layers. rewrite spend_buckets_matched, Hd. unfold inline_layers.
    destruct (mrl_limits mrl), (mcp_server ≫= _); rewrite ?spend_buckets_restricted; done. }
  unfold spend_bucket_keys. destruct (table_is_empty (rate_limit_policies snap)) eqn:Ee.
  { unfold entries. by rewrite Ee. }
  destruct (for_table_sound _ _ Hg) as (c & Hft & _).
  destruct (matched_candidates parse_tz weekday parse_date regex parse_f64 snap (condition_input auth (Some mrl) None)
    (PhaseRequest false) now Hv) as (es & Hes & Hom).
  unfold stm_bind, policy_candidates. rewrite Hft, Hes. simpl. by rewrite in_effect_layers, Hom.
Qed.
End identity.

(** ** Witnesses: a team ceiling in requests and money, and a conditional policy
    that admits nobody. *)

Definition demo_team : RateLimitPolicy :=
  mkPolicy "team" (Some PsTeam) (Some "t1") (Some WinMinute) (Some 10) None (Some 500) None None None None
    None [].
Definition demo_conditional (max : N) (dims : list GroupByDimension) : RateLimitPolicy :=
  mkPolicy "openai" None None None None None None None
    (Some [Leaf (mkCondition DimProvider OpEq false (One "openai"))]) (Some dims)
    (Some (mkRateLimit None None None None None None None (Some max) None)) None [].

Definition demo_policies : ResourceTable RateLimitPolicy :=
  fst (insert_arc resource_name (mkEntry "p2" (demo_conditional 0 [ByTag "env"; ByTeam]) 2)
    (fst (insert_arc resource_name (mkEntry "p1" demo_team 1) table_default 1)) 2).
Definition demo_snap : AisixSnapshot := 
  mkSnapshot table_default table_default demo_policies table_default table_default table_default
    table_default table_default.

Definition demo_auth (team env : string) : AuthenticatedKey :=
  mkAuth
    (mkEntry "k1"
       (mkApiKey "hash" (Some team) (Some "u1") (Some demo_limit) None None [] ["*"] None None None None false None None ∅) 1)
    {[ "env" := env ]} (mkOwner None None) false.
Definition demo_mrl : ModelRateLimit := mkModelRL "gpt" "gpt" "m1" None (Some "openai") false.
Definition demo_gate : GateState LocalStore :=
  mkGateState (with_store (with_clock 100) "u") None [] [] [].

Definition no_tz (_ : string) : option (unit -> Z * N) := None.
Definition no_regex (_ : bool) (_ : string) : option (string -> bool) := None.
Definition no_f64 (_ : string) : option f64 := None.
Definition demo_reserve_layers :=
  reserve_layers false no_tz (fun _ => Mon) (fun _ => None) no_regex no_f64 (fun _ => "") demo_snap ∅
    (demo_auth "t1" "dev") (Some demo_mrl) None tt demo_gate.
Definition demo_layers :=
  request_layers no_tz (fun _ => Mon) (fun _ => None) no_regex no_f64 (fun _ => "") demo_snap ∅
    (demo_auth "t1" "dev") (Some demo_mrl) None tt.

Lemma demo_policies_valid : policies_valid no_regex demo_snap.
Proof. repeat constructor. Qed.

Lemma no_cache_sound table : cache_sound None table.
Proof. by intros ix. Qed.

Lemma reserve_layers_refines_witness :
  (fun L => (adm_key L, adm_unit L)) <$> demo_layers =
    [("k1", UnitTokens); ("policy:team:t1:p1", UnitTokens); ("spend:team:t1:p1", UnitMicroUsd);
     ("policy:v2:p2:team=t1:tag:env=dev", UnitTokens)] /\
  exists cache keys, cache_sound cache demo_policies /\
    demo_reserve_layers =
    match admission_of false demo_layers (gate_limiter demo_gate) with
    | (ROk ms, lim) => (ROk ms, mkGateState lim cache [] keys [])
    | (RErr (rej, e), lim) => (RErr (Some e), mkGateState lim cache [] keys ([] ++ [rej]))
    end.
Proof.
  split; [vm_compute; reflexivity|].
  apply (reserve_layers_refines false no_tz (fun _ => Mon) (fun _ => None) no_regex no_f64 (fun _ => "")
    demo_snap ∅ (demo_auth "t1" "dev") (Some demo_mrl) None tt demo_gate demo_policies_valid).
  apply no_cache_sound.
Defined.

Lemma admission_all_or_nothing_witness :
  rej_policy <$> rejections (snd demo_reserve_layers) = [Some ("p2", "openai")] /\
  match demo_reserve_layers with
  | (ROk ms, g') =>
      (fun r => (res_key r, counter_unit r)) <$> ms = (fun L => (adm_key L, adm_unit L)) <$> demo_layers /\
      forall k m, m ∈ holders (store (gate_limiter g')) k <->
        m ∈ holders (store (gate_limiter demo_gate)) k \/ (k, m) ∈ slot_of <$> ms
  | (RErr _, g') =>
      forall k, holders (store (gate_limiter g')) k = holders (store (gate_limiter demo_gate)) k
  end.
Proof.
  split; [vm_compute; reflexivity|].
  apply (admission_all_or_nothing false no_tz (fun _ => Mon) (fun _ => None) no_regex no_f64 (fun _ => "")
    demo_snap ∅ (demo_auth "t1" "dev") (Some demo_mrl) None tt demo_gate demo_policies_valid).
  - apply no_cache_sound.
  - intros k j _ H. apply elem_of_empty in H. exact H.
  - vm_compute. reflexivity.
Defined.

Definition demo_input (team env : string) : ConditionInput :=
  condition_input (demo_auth team env) (Some demo_mrl) None.

Lemma bucket_identity_witness :
  let p := demo_conditional 5 [ByTag "env"; ByTeam] in
  let L := mkLayer "policy:v2:p:team=t%3A1:tag:env=x" (default no_limits (pol_limits p)) None in
  let L' := mkLayer "policy:v2:p:team=t:tag:env=1" (default no_limits (pol_limits p)) None in
  let i := demo_input "t:1" "x" in
  let i' := demo_input "t" "1" in
  (layer_bucket L = layer_bucket L' <->
   forall d, d ∈ [ByTag "env"; ByTeam] -> get_group_by i d = get_group_by i' d) /\
  forall dims, dims ≡ₚ [ByTag "env"; ByTeam] ->
    match_policy_layer no_regex no_f64 (demo_conditional 5 dims) "p" i (PhaseRequest false) = Some L.
Proof.
  intros p L L' i i'.
  apply (bucket_identity no_regex no_f64 p "p" i i' (PhaseRequest false) PhaseModelTarget L L');
    vm_compute; reflexivity.
Defined.

Lemma phases_partition_witness :
  let p := mkPolicy "m" (Some PsModel) (Some "m1") (Some WinDay) (Some 5) None None None None None None None [] in
  let i := demo_input "t1" "x" in
  is_conditional p = false /\ pol_scope p = Some PsModel /\ is_Some (in_model i) /\ in_model i = in_model i.
Proof.
  intros p i. apply (proj2 (phases_partition no_regex no_f64 p "p" i) i); vm_compute; discriminate.
Defined.

Lemma late_bill_same_buckets_witness :
  fst (spend_bucket_keys no_tz (fun _ => Mon) (fun _ => None) no_regex no_f64 demo_snap (demo_auth "t1" "dev")
         demo_mrl tt demo_gate) = ROk ["spend:team:t1:p1"] /\
  fst (spend_bucket_keys no_tz (fun _ => Mon) (fun _ => None) no_regex no_f64 demo_snap (demo_auth "t1" "dev")
         demo_mrl tt demo_gate) = ROk (spend_buckets demo_layers).
Proof.
  split; [vm_compute; reflexivity|].
  apply (late_bill_same_buckets no_regex no_f64 no_tz (fun _ => Mon) (fun _ => None) (fun _ => "") demo_snap ∅
    (demo_auth "t1" "dev") demo_mrl None tt demo_gate demo_policies_valid);
    [apply no_cache_sound|reflexivity].
Defined.
