(* ===== verification/Health.v ===== *)
(** * Probes, failure streaks and bookkeeping flags

    The first half of [crates/aisix-proxy/src/health.rs]: the liveness and
    readiness answers, the per-model failure counter behind the health level,
    and the cached predicate that decides which write path the trackers take.
    A relaxed atomic is its value; one method call is one step. *)

From S2P Require Import Prelude Snapshot Models.
From Stdlib Require Import ZifyBool ZifyN.
Local Open Scope N_scope.

(** ** Liveness and readiness *)

Record LivezState := mkLivez { shutting_down : bool; livez_in_flight : N; connections : N }.

Definition livez_new : LivezState := mkLivez false 0 0.
Definition mark_shutting_down (l : LivezState) : LivezState :=
  mkLivez true (livez_in_flight l) (connections l).
Definition enter (l : LivezState) : LivezState :=
  mkLivez (shutting_down l) (wrap64 (livez_in_flight l + 1)) (connections l).
Definition leave (l : LivezState) : LivezState :=
  mkLivez (shutting_down l) (livez_in_flight l - 1) (connections l).
Definition connection_opened (l : LivezState) : LivezState :=
  mkLivez (shutting_down l) (livez_in_flight l) (wrap64 (connections l + 1)).
Definition connection_closed (l : LivezState) : LivezState :=
  mkLivez (shutting_down l) (livez_in_flight l) (connections l - 1).

Definition shutdown_check (l : LivezState) : result unit string :=
  if shutting_down l then RErr "process is shutting down" else ROk tt.

Definition config_readiness_block (last_apply_age : option Duration) : option string :=
  match last_apply_age with
  | None => Some "config not yet applied"
  | Some _ => None
  end.

Definition nl : string := String (Ascii.ascii_of_nat 10) EmptyString.

(** A response is its status and its body. *)
Definition livez_response (verbose : bool) : N * string :=
  if negb verbose then (200, "ok") else (200, "[+]ping ok" +:+ nl +:+ "livez check passed" +:+ nl).

Definition readyz_response (livez : LivezState) (config_block : option string) (verbose : bool)
    : N * string :=
  let '(body, failed) :=
    match shutdown_check livez with
    | ROk _ => ("[+]shutdown ok" +:+ nl, false)
    | RErr _ => ("[-]shutdown failed: draining" +:+ nl, true)
    end in
  let '(body, failed) :=
    match config_block with
    | None => (body +:+ "[+]config ok" +:+ nl, failed)
    | Some _ => (body +:+ "[-]config failed: not ready" +:+ nl, true)
    end in
  if failed then (503, body +:+ "readyz check failed")
  else if negb verbose then (200, "ok")
  else (200, body +:+ "readyz check passed" +:+ nl).

Lemma readyz_iff l age verbose :
  fst (readyz_response l (config_readiness_block age) verbose) = 200 <->
  shutting_down l = false /\ is_Some age.
Proof.
  unfold readyz_response, shutdown_check, config_readiness_block.
  destruct (shutting_down l), age, verbose; simpl; split; try done; intros [? ?]; try done;
    by destruct H0.
Qed.

(** ** Failure streaks *)

Inductive HealthLevel := LevelHealthy | LevelDegraded | LevelDown.

Definition level_code (h : HealthLevel) : N :=
  match h with LevelHealthy => 0 | LevelDegraded => 1 | LevelDown => 2 end.

Definition DEGRADED_THRESHOLD : N := 4.
Definition DOWN_THRESHOLD : N := 8.

(** An [Entry] is its counter, a [u32]. *)
Definition entry_level (consecutive_failures : N) : HealthLevel :=
  if DOWN_THRESHOLD <=? consecutive_failures then LevelDown
  else if DEGRADED_THRESHOLD <=? consecutive_failures then LevelDegraded
  else LevelHealthy.

Definition on_success (consecutive_failures : N) : N := 0.

Definition on_failure (consecutive_failures : N) : N :=
  let prev := consecutive_failures in
  let stored := (prev + 1) mod u32_mod in
  if DOWN_THRESHOLD <? prev then DOWN_THRESHOLD + 1 else stored.

Abbreviation HealthTracker := (gmap string N).

Definition health_retain_configured (is_configured : string -> bool) (t : HealthTracker)
    : HealthTracker :=
  filter (fun '(name, _) => is_configured name = true) t.

(** [active] is what [bookkeeping_active] answered. *)
Definition record_success (active : bool) (model : string) (t : HealthTracker) : HealthTracker :=
  if active then <[model := on_success (default 0 (t !! model))]> t
  else
    match t !! model with
    | Some n => if negb (n =? 0) then <[model := 0]> t else t
    | None => t
    end.

Definition record_failure (model : string) (t : HealthTracker) : HealthTracker :=
  <[model := on_failure (default 0 (t !! model))]> t.

Definition health_level (model : string) (t : HealthTracker) : HealthLevel :=
  default LevelHealthy (entry_level <$> t !! model).

Definition all_levels (t : HealthTracker) : list (string * HealthLevel) :=
  (fun '(name, n) => (name, entry_level n)) <$> map_to_list t.

(** ** Bookkeeping flags *)

Definition FLAG_LEAST_BUSY : N := 1.
Definition FLAG_LEAST_LATENCY : N := N.shiftl 1 1.
Definition FLAG_HEALTH_CHECKS : N := N.shiftl 1 2.
Definition FLAG_BITS : N := 7.
Definition UNCOMPUTED : N := u64_max.

Record BookkeepingFlags := mkFlags { packed : N; packed_by_generation : N; scans : N }.

Definition flags_new : BookkeepingFlags := mkFlags UNCOMPUTED UNCOMPUTED 0.

Definition flags_of_model (m : Model) : N :=
  N.lor
    (match routing m with
     | Some r =>
         match strategy r with
         | LeastBusy => FLAG_LEAST_BUSY
         | LeastLatency => FLAG_LEAST_LATENCY
         | _ => 0
         end
     | None => 0
     end)
    (match background_model_check m with
     | Some c => if check_enabled c then FLAG_HEALTH_CHECKS else 0
     | None => 0
     end).

(** The walk over the model table. *)
Definition scan_models (t : ResourceTable Model) : N :=
  fold_left (fun bits e => N.lor bits (flags_of_model (value e))) (entries t) 0.

(** [(key << 3) | bits] in a [u64]: the shift drops the top bits. *)
Definition pack (key bits : N) : N := N.lor (wrap64 (N.shiftl key 3)) bits.

Definition flags_bits (version : N) (snapshot : AisixSnapshot) (f : BookkeepingFlags)
    : N * BookkeepingFlags :=
  let packed := packed f in
  if negb (packed =? UNCOMPUTED) && (N.shiftr packed 3 =? version) then (N.land packed FLAG_BITS, f)
  else
    let generation := generation (models snapshot) in
    let by_generation := packed_by_generation f in
    if negb (by_generation =? UNCOMPUTED) && (N.shiftr by_generation 3 =? generation) then
      let bits := N.land by_generation FLAG_BITS in
      (bits, mkFlags (pack version bits) by_generation (scans f))
    else
      let bits := scan_models (models snapshot) in
      (bits, mkFlags (pack version bits) (pack generation bits) (scans f + 1)).

Definition any_active (version : N) (snapshot : AisixSnapshot) (f : BookkeepingFlags)
    : bool * BookkeepingFlags :=
  let '(bits, f') := flags_bits version snapshot f in (negb (bits =? 0), f').

(** [bookkeeping_active]: a tracker without flags assumes a consumer. *)
Definition bookkeeping_active (flags : option BookkeepingFlags) (version : N)
    (snapshot : AisixSnapshot) : bool * option BookkeepingFlags :=
  match flags with
  | None => (true, None)
  | Some f => let '(b, f') := any_active version snapshot f in (b, Some f')
  end.

(** ** The counter is the length of the current failure streak *)

Inductive health_op :=
  | HSuccess (active : bool) (model : string)
  | HFailure (model : string)
  | HRetain (is_configured : string -> bool).

Definition health_exec (t : HealthTracker) (op : health_op) : HealthTracker :=
  match op with
  | HSuccess active model => record_success active model t
  | HFailure model => record_failure model t
  | HRetain f => health_retain_configured f t
  end.

(** Failures of [m] since its last success, or since it was last dropped. *)
Definition streak_step (m : string) (n : nat) (op : health_op) : nat :=
  match op with
  | HSuccess _ m' => if decide (m' = m) then 0%nat else n
  | HFailure m' => if decide (m' = m) then S n else n
  | HRetain f => if f m then n else 0%nat
  end.
Definition streak (m : string) (ops : list health_op) : nat := fold_left (streak_step m) ops 0%nat.

Lemma on_failure_streak k : on_failure (N.min (N.of_nat k) 9) = N.min (N.of_nat (S k)) 9.
Proof.
  unfold on_failure, DOWN_THRESHOLD, u32_mod. destruct (8 <? N.min (N.of_nat k) 9) eqn:E; [lia|].
  rewrite N.mod_small; lia.
Qed.

Lemma health_exec_streak m k t op :
  default 0 (t !! m) = N.min (N.of_nat k) 9 ->
  default 0 (health_exec t op !! m) = N.min (N.of_nat (streak_step m k op)) 9.
Proof.
  intros H. destruct op as [active m'|m'|f]; simpl.
  - unfold record_success, on_success. destruct (decide (m' = m)) as [-> | Hne].
    + destruct active; [by rewrite lookup_insert_eq|].
      destruct (t !! m) as [n|] eqn:E; [|by rewrite E].
      destruct (n =? 0) eqn:En; simpl; [nbool; subst; by rewrite E|by rewrite lookup_insert_eq].
    + destruct active; [by rewrite lookup_insert_ne|].
      destruct (t !! m') as [n|]; [|done]. destruct (negb (n =? 0)); [|done].
      by rewrite lookup_insert_ne.
  - unfold record_failure. destruct (decide (m' = m)) as [-> | Hne].
    + rewrite lookup_insert_eq. simpl. by rewrite H, on_failure_streak.
    + by rewrite lookup_insert_ne.
  - unfold health_retain_configured. rewrite map_lookup_filter. destruct (t !! m) as [n|]; simpl in *.
    + destruct (f m) eqn:Ef; [by rewrite option_guard_True|by rewrite option_guard_False].
    + destruct (f m); [done|]. lia.
Qed.

(** The health level is a function of the current failure streak alone.
    Whatever calls arrive in whatever order, whichever of the two write paths
    each success took, and however often the tracker was pruned, a model is
    Down after eight failures in a row, Degraded after four, Healthy otherwise;
    one success or a pruning of the model starts a new streak, and the counter
    behind the level never passes nine, so it never wraps. *)
Theorem health_level_is_streak m ops :
  let t := fold_left health_exec ops ∅ in
  health_level m t
  = (if decide (8 <= streak m ops)%nat then LevelDown
     else if decide (4 <= streak m ops)%nat then LevelDegraded else LevelHealthy) /\
  default 0 (t !! m) = N.min (N.of_nat (streak m ops)) 9.
Proof.
  intros t. assert (default 0 (t !! m) = N.min (N.of_nat (streak m ops)) 9) as H.
  { unfold t, streak. induction ops as [|op ops IH] using rev_ind; [done|].
    rewrite !fold_left_app. by apply health_exec_streak. }
  split; [|done]. unfold health_level, entry_level, DOWN_THRESHOLD, DEGRADED_THRESHOLD.
  destruct (t !! m) as [n|]; simpl in *; repeat case_decide; repeat case_match; try done; lia.
Qed.

(** ** The cached flags are the scan *)

Lemma pack_key key bits : key < 2 ^ 61 -> bits <= FLAG_BITS ->
  N.shiftr (pack key bits) 3 = key /\ N.land (pack key bits) FLAG_BITS = bits.
Proof.
  intros Hk Hb. unfold pack, wrap64, FLAG_BITS in *.
  assert (N.shiftl key 3 = key * 8) as E by by rewrite N.shiftl_mul_pow2.
  change (2 ^ 61) with 2305843009213693952 in Hk.
  rewrite E, N.mod_small by lia. rewrite <- E.
  change 7 with (N.ones 3) in *. split.
  - rewrite N.shiftr_lor, N.shiftr_shiftl_l by done. rewrite N.shiftl_0_r.
    assert (N.shiftr bits 3 = 0) as ->.
    { rewrite N.shiftr_div_pow2. apply N.div_small. change (2 ^ 3) with 8. change (N.ones 3) with 7 in Hb. lia. }
    apply N.lor_0_r.
  - rewrite N.land_lor_distr_l, !N.land_ones. rewrite E. change (2 ^ 3) with 8.
    rewrite N.Div0.mod_mul, N.lor_0_l. apply N.mod_small. change (N.ones 3) with 7 in Hb. lia.
Qed.

Lemma lor_bits a b : a <= FLAG_BITS -> b <= FLAG_BITS -> N.lor a b <= FLAG_BITS.
Proof.
  unfold FLAG_BITS. intros Ha Hb.
  assert (N.lor a b < 2 ^ 3) as H; [|change (2 ^ 3) with 8 in H; lia].
  assert (forall c, c <= 7 -> N.land c (N.ones 3) = c) as Hl.
  { intros c Hc. rewrite N.land_ones. apply N.mod_small. change (2 ^ 3) with 8. lia. }
  rewrite <- (Hl a Ha), <- (Hl b Hb), <- N.land_lor_distr_l, N.land_ones.
  by apply N.mod_lt.
Qed.

Lemma flags_of_model_le m : flags_of_model m <= FLAG_BITS.
Proof.
  unfold flags_of_model. apply lor_bits;
    repeat case_match; unfold FLAG_BITS, FLAG_LEAST_BUSY, FLAG_LEAST_LATENCY, FLAG_HEALTH_CHECKS; done.
Qed.

Lemma scan_models_le t : scan_models t <= FLAG_BITS.
Proof.
  unfold scan_models. generalize (entries t) as l. intros l.
  assert (0 <= FLAG_BITS) as H0 by done. revert H0. generalize 0 as b.
  induction l as [|e l IH]; intros b Hb; simpl; [done|].
  apply IH, lor_bits; [done|apply flags_of_model_le].
Qed.

Section flags.
(** The snapshot published under each version; a generation identifies the
    rows it stamps ([Snapshot.generation_identifies_rows]), hence the walk. *)
Context (published : N -> AisixSnapshot).
Context (same_generation : forall v v',
  generation (models (published v)) = generation (models (published v')) ->
  by_id (models (published v)) = by_id (models (published v')) /\
  table_count (models (published v)) = table_count (models (published v'))).
Context (bounded : forall v, generation (models (published v)) < 2 ^ 61).

Definition bits_at (v : N) : N := scan_models (models (published v)).

Lemma bits_at_generation v v' :
  generation (models (published v)) = generation (models (published v')) -> bits_at v = bits_at v'.
Proof.
  intros [E1 E2]%same_generation. unfold bits_at, scan_models, entries, table_is_empty, table_len.
  by rewrite E1, E2.
Qed.

Record flags_ok (f : BookkeepingFlags) : Prop := {
  fok_packed : packed f = UNCOMPUTED \/ exists v, v < 2 ^ 61 /\ packed f = pack v (bits_at v);
  fok_generation : packed_by_generation f = UNCOMPUTED \/
    exists v, packed_by_generation f = pack (generation (models (published v))) (bits_at v);
}.

Lemma flags_new_ok : flags_ok flags_new.
Proof. split; by left. Qed.

Lemma flags_bits_ok v f : v < 2 ^ 61 -> flags_ok f ->
  fst (flags_bits v (published v) f) = bits_at v /\ flags_ok (snd (flags_bits v (published v) f)).
Proof.
  intros Hv [Hp Hg]. unfold flags_bits. cbv zeta.
  destruct (negb (packed f =? UNCOMPUTED) && (N.shiftr (packed f) 3 =? v)) eqn:E1.
  { apply andb_prop in E1 as [E1 E2]. rewrite negb_true_iff in E1. nbool.
    destruct Hp as [?|(w & Hw & Hpw)]; [done|]. simpl. split; [|by split; [right; exists w|]].
    destruct (pack_key w (bits_at w) Hw (scan_models_le _)) as [K1 K2].
    rewrite Hpw in E2. rewrite Hpw. congruence. }
  clear E1. destruct (_ && _) eqn:E2; simpl.
  - apply andb_prop in E2 as [E3 E4]. rewrite negb_true_iff in E3. nbool.
    destruct Hg as [?|(w & Hw)]; [done|].
    destruct (pack_key _ (bits_at w) (bounded w) (scan_models_le _)) as [K1 K2].
    assert (bits_at w = bits_at v) as Eb by (apply bits_at_generation; rewrite Hw in E4; congruence).
    rewrite Hw, K2. split; [done|]. split; simpl; [right; exists v; by rewrite Eb|by right; exists w].
  - split; [done|]. split; simpl; right; exists v; [done|done].
Qed.

(** The two-tier cache of the bookkeeping predicate never changes the
    answer. Whatever sequence of snapshot versions the calls were made under,
    each call answers what a walk of that snapshot's model table would: a
    model routes by least-busy, by least-latency, or is checked in the
    background. *)
Theorem flags_cache_transparent vs :
  Forall (fun v => v < 2 ^ 61) vs ->
  let step := fun '(out, f) v =>
    let '(b, f') := any_active v (published v) f in (out ++ [b], f') in
  fst (fold_left step vs ([], flags_new))
  = (fun v => existsb (fun e => negb (flags_of_model (value e) =? 0)) (entries (models (published v)))) <$> vs.
Proof.
  intros Hvs step.
  assert (flags_ok (snd (fold_left step vs ([], flags_new))) /\
    fst (fold_left step vs ([], flags_new)) = (fun v => negb (bits_at v =? 0)) <$> vs) as [_ ->].
  { induction vs as [|v vs IH] using rev_ind; [split; [apply flags_new_ok|done]|].
    apply Forall_app in Hvs as [Hvs Hv]. apply Forall_cons in Hv as [Hv _].
    rewrite fold_left_app. simpl. destruct (IH Hvs) as [Hok Hout].
    destruct (fold_left step vs ([], flags_new)) as [out f]. simpl in *.
    unfold any_active. destruct (flags_bits_ok v f Hv Hok) as [Hb Hok'].
    destruct (flags_bits v (published v) f) as [b f']. simpl in *. split; [done|].
    by rewrite fmap_app, Hout, Hb. }
  apply list_fmap_ext. intros _ v _. unfold bits_at, scan_models.
  generalize (entries (models (published v))) as l. intros l.
  assert (forall b, negb (fold_left (fun bits e => N.lor bits (flags_of_model (value e))) l b =? 0)
    = negb (b =? 0) || existsb (fun e => negb (flags_of_model (value e) =? 0)) l) as ->; [|done].
  induction l as [|e l IH]; intros b; simpl; [by rewrite orb_false_r|].
  rewrite IH. rewrite orb_assoc. f_equal.
  destruct (N.eqb_spec (N.lor b (flags_of_model (value e))) 0) as [E|E].
  - apply N.lor_eq_0_iff in E as [-> ->]. done.
  - destruct (N.eqb_spec b 0) as [-> |]; [|done]. simpl. rewrite N.lor_0_l in E.
    by destruct (N.eqb_spec (flags_of_model (value e)) 0).
Qed.
End flags.

(** A deployment whose third publication adds a least-busy Model Group. *)
Definition demo_busy : Model :=
  mkModel "group" None None None None None
    (Some (mkRouting LeastBusy [] None None None None None None)) false false None None None None None None None.
Definition demo_table : ResourceTable Model :=
  fst (insert_arc display_name (mkEntry "g" demo_busy 1) table_default 1).
Definition demo_published (v : N) : AisixSnapshot :=
  mkSnapshot (if v <? 2 then table_default else demo_table) table_default table_default table_default table_default table_default
    table_default table_default.

Lemma flags_cache_transparent_witness :
  let step := fun '(out, f) v =>
    let '(b, f') := any_active v (demo_published v) f in (out ++ [b], f') in
  fst (fold_left step [0; 1; 5; 5; 6] ([], flags_new)) = [false; false; true; true; true] /\
  fst (fold_left step [0; 1; 5; 5; 6] ([], flags_new))
  = (fun v => existsb (fun e => negb (flags_of_model (value e) =? 0))
                (entries (models (demo_published v)))) <$> [0; 1; 5; 5; 6].
Proof.
  split; [vm_compute; reflexivity|].
  apply (flags_cache_transparent demo_published).
  - intros v v'. unfold demo_published. simpl. destruct (v <? 2), (v' <? 2); simpl; done.
  - intros v. unfold demo_published. simpl. by destruct (v <? 2).
  - repeat constructor.
Defined.
