(* ===== verification/Runtime.v ===== *)
(** * Runtime status of dispatch targets

    The second half of [crates/aisix-proxy/src/health.rs] — [RuntimeEntry] and
    [ModelRuntimeStatusTracker] — and [note_failure] of [cooldown.rs].

    The wall clock ([SystemTime]) and the monotonic clock ([Instant]) are
    nanosecond counts a call is given ([Clocks]).  A concurrent map is a [gmap];
    the in-flight counters are shared by the map and the guards, so they live in
    a heap of their own ([counters]) and both hold an address.  What is sent to
    the metrics sink is a list of events named by model id. *)

From S2P Require Import Prelude Models Failure F64.
From Stdlib Require Import ZifyBool ZifyN SpecFloat.
Local Open Scope N_scope.

Record Clocks := mkClocks { wall : N; mono : N }.

(** The largest [SystemTime] of a platform with 64-bit seconds. *)
Definition SYSTEM_TIME_MAX : N := 9223372036854775807 * 1000000000 + 999999999.
Definition checked_add_time (t : N) (d : Duration) : option N :=
  if t + d <=? SYSTEM_TIME_MAX then Some (t + d) else None.

(** ** Entries *)

Inductive DeploymentState := DsHealthy | DsPartialFailure | DsDown.
#[export] Instance DeploymentState_eq_dec : EqDecision DeploymentState.
Proof. solve_decision. Defined.

Inductive RuntimeStatus := StHealthy | StUnhealthy | StCooldown | StNotApplicable.
#[export] Instance RuntimeStatus_eq_dec : EqDecision RuntimeStatus.
Proof. solve_decision. Defined.

Record RuntimeStatusSnapshot := mkStatus {
  status : RuntimeStatus;
  snap_cooldown_until : option N;
  snap_last_checked_at : option N;
  snap_last_check_status : option N;
  snap_status_reason : option string;
}.

Definition status_default : RuntimeStatusSnapshot := mkStatus StHealthy None None None None.

Record RuntimeEntry := mkRuntime {
  unhealthy : bool;
  cooldown_until : option N;
  cooldown_marked_at : option N;
  last_checked_at : option N;
  last_check_status : option N;
  status_reason : option string;
  emitted_state : option DeploymentState;
}.

Definition runtime_default : RuntimeEntry := mkRuntime false None None None None None None.

(** [cooldown_until.is_some_and(|until| until > now)] *)
Definition cooling (e : RuntimeEntry) (now : N) : bool :=
  match cooldown_until e with Some until => now <? until | None => false end.

Definition deployment_state (e : RuntimeEntry) (now : N) : DeploymentState :=
  if unhealthy e || cooling e now then DsDown else DsHealthy.

Definition cooldown_outlives (e : RuntimeEntry) (attempt_started now : N) : bool :=
  match cooldown_marked_at e with Some marked => attempt_started <? marked | None => false end
  && cooling e now.

Definition is_stale (e : RuntimeEntry) (now : N) (stale_after : option Duration) : bool :=
  match stale_after with
  | None => false
  | Some stale_after =>
      match last_checked_at e with
      | None => false
      | Some last => if last <=? now then stale_after <? now - last else false
      end
  end.

Definition runtime_snapshot (e : RuntimeEntry) (now : N) (stale_after : option Duration)
    : RuntimeStatusSnapshot :=
  let cooldown_until := if cooling e now then cooldown_until e else None in
  let unhealthy := unhealthy e && negb (is_stale e now stale_after) in
  let status :=
    match cooldown_until with
    | Some _ => StCooldown
    | None => if unhealthy then StUnhealthy else StHealthy
    end in
  mkStatus status cooldown_until (last_checked_at e) (last_check_status e) (status_reason e).

(** ** The tracker *)

Inductive metric_event :=
  | EvState (model_id : string) (state : DeploymentState)
  | EvCooledDown (model_id : string).

Record ModelRuntimeStatusTracker := mkTracker {
  rt_entries : gmap string RuntimeEntry;
  metrics : bool;
  emitted : list metric_event;
  exclusion_log : gmap (string * string * string) N;
  rt_in_flight : gmap string nat;
  counters : gmap nat N;
  next_counter : nat;
  latency_ewma : gmap string f64;
  latency_penalty_until : gmap string N;
}.

Definition tracker_new (metrics : bool) : ModelRuntimeStatusTracker :=
  mkTracker ∅ metrics [] ∅ ∅ ∅ 0 ∅ ∅.

Definition set_entries (f : gmap string RuntimeEntry -> gmap string RuntimeEntry)
    (t : ModelRuntimeStatusTracker) : ModelRuntimeStatusTracker :=
  mkTracker (f (rt_entries t)) (metrics t) (emitted t) (exclusion_log t) (rt_in_flight t)
    (counters t) (next_counter t) (latency_ewma t) (latency_penalty_until t).

(** [with_deployment_labels]: nothing without a sink. *)
Definition emit (ev : metric_event) (t : ModelRuntimeStatusTracker) : ModelRuntimeStatusTracker :=
  if metrics t then
    mkTracker (rt_entries t) (metrics t) (emitted t ++ [ev]) (exclusion_log t) (rt_in_flight t)
      (counters t) (next_counter t) (latency_ewma t) (latency_penalty_until t)
  else t.

Definition set_exclusion_log (m : gmap (string * string * string) N)
    (t : ModelRuntimeStatusTracker) : ModelRuntimeStatusTracker :=
  mkTracker (rt_entries t) (metrics t) (emitted t) m (rt_in_flight t)
    (counters t) (next_counter t) (latency_ewma t) (latency_penalty_until t).

Definition set_counters (inf : gmap string nat) (cs : gmap nat N) (next : nat)
    (t : ModelRuntimeStatusTracker) : ModelRuntimeStatusTracker :=
  mkTracker (rt_entries t) (metrics t) (emitted t) (exclusion_log t) inf cs next
    (latency_ewma t) (latency_penalty_until t).

Definition set_latency (ewma : gmap string f64) (penalty : gmap string N)
    (t : ModelRuntimeStatusTracker) : ModelRuntimeStatusTracker :=
  mkTracker (rt_entries t) (metrics t) (emitted t) (exclusion_log t) (rt_in_flight t)
    (counters t) (next_counter t) ewma penalty.

(** [load] of a counter the map or a guard points at. *)
Definition load_counter (t : ModelRuntimeStatusTracker) (c : nat) : N := default 0 (counters t !! c).

Definition retain_configured (is_configured : string -> bool) (t : ModelRuntimeStatusTracker)
    : ModelRuntimeStatusTracker :=
  let keep {A} (m : gmap string A) := filter (fun '(id, _) => is_configured id = true) m in
  let t1 := set_entries keep t in
  let in_flight :=
    filter (fun '(id, c) => (0 <? load_counter t c) || is_configured id = true) (rt_in_flight t1) in
  set_latency (keep (latency_ewma t)) (keep (latency_penalty_until t))
    (set_counters in_flight (counters t1) (next_counter t1) t1).

(** ** Exclusion log *)

Definition EXCLUSION_LOG_INTERVAL : Duration := from_secs 60.

Definition should_log_exclusion (now : Clocks) (virtual_name model_id reason : string)
    (t : ModelRuntimeStatusTracker) : bool * ModelRuntimeStatusTracker :=
  let key := (virtual_name, model_id, reason) in
  match exclusion_log t !! key with
  | Some last =>
      if mono now - last <? EXCLUSION_LOG_INTERVAL then (false, t)
      else (true, set_exclusion_log (<[key := mono now]> (exclusion_log t)) t)
  | None => (true, set_exclusion_log (<[key := mono now]> (exclusion_log t)) t)
  end.

(** ** Status writes

    An entry is mutated under its guard; what the mutation leaves is inserted
    back before the state is published. *)

Definition sync_deployment_state (model_id : string) (entry : RuntimeEntry) (now : N)
    (t : ModelRuntimeStatusTracker) : ModelRuntimeStatusTracker :=
  let state := deployment_state entry now in
  if bool_decide (emitted_state entry = Some state)
  then set_entries <[model_id := entry]> t
  else
    let entry := mkRuntime (unhealthy entry) (cooldown_until entry) (cooldown_marked_at entry)
      (last_checked_at entry) (last_check_status entry) (status_reason entry) (Some state) in
    emit (EvState model_id state) (set_entries <[model_id := entry]> t).

Definition COOLDOWN_UNTIL_CEILING : Duration := from_secs (100 * 365 * 24 * 60 * 60).

Definition mark_cooldown (now : Clocks) (model_id : string) (ttl : Duration) (reason : string)
    (t : ModelRuntimeStatusTracker) : ModelRuntimeStatusTracker :=
  let until := default (wall now + COOLDOWN_UNTIL_CEILING) (checked_add_time (wall now) ttl) in
  let entry := default runtime_default (rt_entries t !! model_id) in
  let entered_cooldown := negb (cooling entry (wall now)) in
  let entry := mkRuntime (unhealthy entry) (Some until) (Some (mono now)) (last_checked_at entry)
    (last_check_status entry) (Some reason) (emitted_state entry) in
  let t := if entered_cooldown then emit (EvCooledDown model_id) t else t in
  sync_deployment_state model_id entry (wall now) t.

(** What [mark_healthy] writes to an entry it does not leave alone. *)
Definition recovered (e : RuntimeEntry) : RuntimeEntry :=
  mkRuntime false None None (last_checked_at e) (last_check_status e) None (emitted_state e).

Definition mark_healthy_write (now : Clocks) (model_id : string) (attempt_started : N)
    (t : ModelRuntimeStatusTracker) : ModelRuntimeStatusTracker :=
  match rt_entries t !! model_id with
  | Some entry =>
      if cooldown_outlives entry attempt_started (wall now) then t
      else sync_deployment_state model_id (recovered entry) (wall now) t
  | None => t
  end.

Definition needs_write (model_id : string) (t : ModelRuntimeStatusTracker) : bool :=
  match rt_entries t !! model_id with
  | Some e =>
      unhealthy e || bool_decide (is_Some (cooldown_until e))
      || bool_decide (is_Some (status_reason e))
      || negb (bool_decide (emitted_state e = Some DsHealthy))
  | None => false
  end.

Definition mark_healthy (active : bool) (now : Clocks) (model_id : string) (attempt_started : N)
    (t : ModelRuntimeStatusTracker) : ModelRuntimeStatusTracker :=
  if active then mark_healthy_write now model_id attempt_started t
  else if negb (needs_write model_id t) then t
  else mark_healthy_write now model_id attempt_started t.

Definition clear_unhealthy (now : Clocks) (model_id : string) (t : ModelRuntimeStatusTracker)
    : ModelRuntimeStatusTracker :=
  match rt_entries t !! model_id with
  | Some e =>
      let reason :=
        if bool_decide (status_reason e = Some "background_check_failed"%string) then None
        else status_reason e in
      sync_deployment_state model_id
        (mkRuntime false (cooldown_until e) (cooldown_marked_at e) (Some (wall now)) (Some 200)
           reason (emitted_state e)) (wall now) t
  | None => t
  end.

Definition mark_unhealthy (now : Clocks) (model_id : string) (check_status : option N)
    (reason : string) (t : ModelRuntimeStatusTracker) : ModelRuntimeStatusTracker :=
  let e := default runtime_default (rt_entries t !! model_id) in
  sync_deployment_state model_id
    (mkRuntime true (cooldown_until e) (cooldown_marked_at e) (Some (wall now)) check_status
       (Some reason) (emitted_state e)) (wall now) t.

Definition record_ignored_check (now : Clocks) (model_id : string) (check_status : N)
    (reason : string) (t : ModelRuntimeStatusTracker) : ModelRuntimeStatusTracker :=
  let e := default runtime_default (rt_entries t !! model_id) in
  set_entries
    <[model_id := mkRuntime (unhealthy e) (cooldown_until e) (cooldown_marked_at e)
        (Some (wall now)) (Some check_status) (Some reason) (emitted_state e)]> t.

(** ** Latency *)

(** The double nearest 0.3. *)
Definition LATENCY_EWMA_ALPHA : f64 := S754_finite false 5404319552844595 (-54).
Definition LATENCY_FAILURE_PENALTY : Duration := from_secs 30.

Definition record_latency (active : bool) (model_id : string) (latency_ms : N)
    (t : ModelRuntimeStatusTracker) : ModelRuntimeStatusTracker :=
  if negb active then t
  else
    let sample := f64_of_N latency_ms in
    let folded :=
      match latency_ewma t !! model_id with
      | Some prev =>
          f64_add (f64_mul LATENCY_EWMA_ALPHA sample)
            (f64_mul (f64_sub (f64_of_N 1) LATENCY_EWMA_ALPHA) prev)
      | None => sample
      end in
    set_latency (<[model_id := folded]> (latency_ewma t)) (latency_penalty_until t) t.

Definition penalize_latency_for (active : bool) (now : Clocks) (model_id : string)
    (penalty : Duration) (t : ModelRuntimeStatusTracker) : ModelRuntimeStatusTracker :=
  if negb active then t
  else set_latency (latency_ewma t) (<[model_id := mono now + penalty]> (latency_penalty_until t)) t.

Definition penalize_latency (active : bool) (now : Clocks) (model_id : string)
    (t : ModelRuntimeStatusTracker) : ModelRuntimeStatusTracker :=
  penalize_latency_for active now model_id LATENCY_FAILURE_PENALTY t.

Definition latency_penalized (now : Clocks) (model_id : string) (t : ModelRuntimeStatusTracker)
    : bool :=
  match latency_penalty_until t !! model_id with Some until => mono now <? until | None => false end.

Definition latency_ewma_ms (model_id : string) (t : ModelRuntimeStatusTracker) : option f64 :=
  latency_ewma t !! model_id.

(** ** In-flight counts *)

(** The address of the counter a guard lowers; [None] is the no-op guard. *)
Abbreviation InFlightGuard := (option nat).

Definition count_in_flight (active : bool) (model_id : string) (t : ModelRuntimeStatusTracker)
    : InFlightGuard * ModelRuntimeStatusTracker :=
  if negb active then (None, t)
  else
    let '(c, t) :=
      match rt_in_flight t !! model_id with
      | Some c => (c, t)
      | None =>
          let c := next_counter t in
          (c, set_counters (<[model_id := c]> (rt_in_flight t)) (<[c := 0]> (counters t)) (S c) t)
      end in
    (Some c, set_counters (rt_in_flight t) (<[c := wrap64 (load_counter t c + 1)]> (counters t))
               (next_counter t) t).

Definition begin_in_flight (active : bool) (model_id : string) (t : ModelRuntimeStatusTracker)
    : InFlightGuard * ModelRuntimeStatusTracker :=
  let t :=
    match rt_entries t !! model_id with
    | None => set_entries <[model_id := runtime_default]> t
    | Some _ => t
    end in
  count_in_flight active model_id t.

(** [Drop for InFlightGuard]: [fetch_sub] wraps. *)
Definition in_flight_drop (g : InFlightGuard) (t : ModelRuntimeStatusTracker)
    : ModelRuntimeStatusTracker :=
  match g with
  | Some c =>
      set_counters (rt_in_flight t) (<[c := wrap64 (load_counter t c + u64_max)]> (counters t))
        (next_counter t) t
  | None => t
  end.

Definition in_flight_of (model_id : string) (t : ModelRuntimeStatusTracker) : N :=
  match rt_in_flight t !! model_id with Some c => load_counter t c | None => 0 end.

(** ** Reading *)

Definition status_with_stale (now : Clocks) (model_id : string) (stale_after : option Duration)
    (t : ModelRuntimeStatusTracker) : RuntimeStatusSnapshot :=
  default status_default
    ((fun e => runtime_snapshot e (wall now) stale_after) <$> rt_entries t !! model_id).

Definition tracker_status (now : Clocks) (model_id : string) (t : ModelRuntimeStatusTracker)
    : RuntimeStatusSnapshot := status_with_stale now model_id None t.

Definition should_skip_for_routing (now : Clocks) (model_id : string)
    (stale_after : option Duration) (t : ModelRuntimeStatusTracker) : RuntimeStatus :=
  status (status_with_stale now model_id stale_after t).

(** [note_failure] of [cooldown.rs]. *)
Definition note_failure (now : Clocks) (model_id : string) (cfg : option CooldownConfig)
    (err : BridgeError) (t : ModelRuntimeStatusTracker) : BridgeError * ModelRuntimeStatusTracker :=
  match decide_cooldown err cfg with
  | Some (ttl, reason) => (err, mark_cooldown now model_id ttl reason t)
  | None => (err, t)
  end.

(** ** The published gauge *)

Inductive tracker_op :=
  | OpCooldown (model_id : string) (ttl : Duration) (reason : string)
  | OpHealthy (model_id : string) (attempt_started : N)
  | OpClearUnhealthy (model_id : string)
  | OpUnhealthy (model_id : string) (check_status : option N) (reason : string)
  | OpIgnoredCheck (model_id : string) (check_status : N) (reason : string)
  | OpBegin (model_id : string)
  | OpFailure (model_id : string) (cfg : option CooldownConfig) (err : BridgeError)
  | OpRetainConfigured (is_configured : string -> bool).

(** One call: the clocks it reads and whether bookkeeping was active. *)
Record call := mkCall { at_time : Clocks; call_active : bool; call_op : tracker_op }.

Definition tracker_exec (t : ModelRuntimeStatusTracker) (c : call) : ModelRuntimeStatusTracker :=
  let now := at_time c in
  match call_op c with
  | OpCooldown id ttl reason => mark_cooldown now id ttl reason t
  | OpHealthy id started => mark_healthy (call_active c) now id started t
  | OpClearUnhealthy id => clear_unhealthy now id t
  | OpUnhealthy id st reason => mark_unhealthy now id st reason t
  | OpIgnoredCheck id st reason => record_ignored_check now id st reason t
  | OpBegin id => snd (begin_in_flight (call_active c) id t)
  | OpFailure id cfg err => snd (note_failure now id cfg err t)
  | OpRetainConfigured f => retain_configured f t
  end.

(** The value the gauge of [id] shows: the last state sent for it. *)
Definition gauge_step (id : string) (g : option DeploymentState) (ev : metric_event)
    : option DeploymentState :=
  match ev with
  | EvState id' st => if decide (id' = id) then Some st else g
  | EvCooledDown _ => g
  end.
Definition gauge (id : string) (evs : list metric_event) : option DeploymentState :=
  fold_left (gauge_step id) evs None.

(** What holds of an entry at every time from [w] on. *)
Record entry_ok (w : N) (e : RuntimeEntry) : Prop := {
  eok_marked : cooldown_until e = None -> cooldown_marked_at e = None;
  eok_none : emitted_state e = None -> unhealthy e = false /\ cooldown_until e = None;
  eok_healthy : emitted_state e = Some DsHealthy -> deployment_state e w = DsHealthy;
  eok_down : emitted_state e = Some DsDown -> unhealthy e = true \/ is_Some (cooldown_until e);
  eok_partial : emitted_state e <> Some DsPartialFailure;
}.

Record tracker_ok (w : N) (t : ModelRuntimeStatusTracker) : Prop := {
  tok_entry id e : rt_entries t !! id = Some e -> entry_ok w e;
  tok_gauge id e st : metrics t = true -> rt_entries t !! id = Some e ->
    emitted_state e = Some st -> gauge id (emitted t) = Some st;
}.

Lemma cooling_mono e w w' : w <= w' -> cooling e w = false -> cooling e w' = false.
Proof. unfold cooling. destruct (cooldown_until e); lia. Qed.

Lemma deployment_healthy e w :
  deployment_state e w = DsHealthy <-> unhealthy e = false /\ cooling e w = false.
Proof. unfold deployment_state. by destruct (unhealthy e), (cooling e w); simpl; intuition. Qed.

Lemma tracker_ok_mono w w' t : w <= w' -> tracker_ok w t -> tracker_ok w' t.
Proof.
  intros Hw [He Hg]. split; [|done]. intros id e Hl. destruct (He id e Hl) as [M N0 H D P].
  split; [done..| |done|done]. intros Hh. specialize (H Hh).
  rewrite deployment_healthy in *. destruct H. eauto using cooling_mono.
Qed.

Lemma gauge_app id evs ev : gauge id (evs ++ [ev]) = gauge_step id (gauge id evs) ev.
Proof. unfold gauge. by rewrite fold_left_app. Qed.

(** Publishing makes the entry and the gauge agree. *)
Lemma sync_ok w id e t :
  tracker_ok w t ->
  (cooldown_until e = None -> cooldown_marked_at e = None) ->
  (forall st, emitted_state e = Some st -> st <> DsPartialFailure /\
     (metrics t = true -> gauge id (emitted t) = Some st)) ->
  tracker_ok w (sync_deployment_state id e w t).
Proof.
  intros [He Hg] Hm Hst.
  assert (forall e', (exists st, deployment_state e w = st /\ emitted_state e' = Some st) ->
      deployment_state e' w = deployment_state e w ->
      cooldown_until e' = cooldown_until e -> cooldown_marked_at e' = cooldown_marked_at e ->
      unhealthy e' = unhealthy e -> entry_ok w e') as Hnew.
  { intros e' (st & Hd & Hs) Hds Hc Hma Hu. rewrite <- Hd in Hs. split; rewrite ?Hs, ?Hc, ?Hma, ?Hu; try done.
    - intros [= Hd']. by rewrite Hds.
    - intros [= Hd']. unfold deployment_state, cooling in Hd'.
      destruct (unhealthy e); [by left|]. destruct (cooldown_until e); [by right|done].
    - unfold deployment_state. by destruct (_ || _). }
  unfold sync_deployment_state. case_bool_decide as Hb.
  - split.
    + intros id' e' Hl. unfold set_entries in Hl. simpl in Hl.
      apply lookup_insert_Some in Hl as [[<- <-]|[_ Hl]]; [|by apply (He id')].
      apply Hnew; eauto.
    + intros id' e' st Hmet Hl Hs. simpl in *.
      apply lookup_insert_Some in Hl as [[<- <-]|[_ Hl]]; [|by apply (Hg id' e' st)].
      by apply Hst.
  - set (e1 := mkRuntime _ _ _ _ _ _ _).
    assert (entry_ok w e1) as He1 by (apply Hnew; [by eexists|done..]).
    unfold emit. cbn [metrics set_entries]. destruct (metrics t) eqn:Emet; split; simpl.
    + intros id' e' Hl. apply lookup_insert_Some in Hl as [[<- <-]|[_ Hl]]; [done|by apply (He id')].
    + intros id' e' st _ Hl Hs. rewrite gauge_app. simpl.
      apply lookup_insert_Some in Hl as [[<- <-]|[Hne Hl]].
      * rewrite decide_True by done. done.
      * rewrite decide_False by done. by apply (Hg id' e' st).
    + intros id' e' Hl. apply lookup_insert_Some in Hl as [[<- <-]|[_ Hl]]; [done|by apply (He id')].
    + intros id' e' st Hmet. congruence.
Qed.

Lemma emitted_of_ok w t id :
  tracker_ok w t ->
  forall st, emitted_state (default runtime_default (rt_entries t !! id)) = Some st ->
    st <> DsPartialFailure /\ (metrics t = true -> gauge id (emitted t) = Some st).
Proof.
  intros [He Hg] st. destruct (rt_entries t !! id) as [e|] eqn:E; simpl; [|done].
  intros Hs. split; [|intros Hm; by apply (Hg id e)].
  pose proof (eok_partial _ _ (He id e E)). congruence.
Qed.

Lemma emit_cooled_ok w id t : tracker_ok w t -> tracker_ok w (emit (EvCooledDown id) t).
Proof.
  intros Hok. unfold emit. destruct (metrics t) eqn:Em; [|done]. destruct Hok as [He Hg].
  split; [exact He|].
  intros id' e st _ Hl Hs. simpl. rewrite gauge_app. simpl. by apply (Hg id' e st).
Qed.

Lemma mark_cooldown_ok now id ttl reason t :
  tracker_ok (wall now) t -> tracker_ok (wall now) (mark_cooldown now id ttl reason t).
Proof.
  intros Hok. unfold mark_cooldown. cbv zeta.
  set (t1 := if negb (cooling (default runtime_default (rt_entries t !! id)) (wall now))
             then emit (EvCooledDown id) t else t).
  assert (tracker_ok (wall now) t1 /\ rt_entries t1 = rt_entries t) as [Hok1 Hent].
  { unfold t1. case_match; [|done]. split; [by apply emit_cooled_ok|].
    unfold emit. by destruct (metrics t). }
  apply sync_ok; [done|done|]. simpl. rewrite <- Hent. by apply emitted_of_ok with (w := wall now).
Qed.

Lemma mark_healthy_write_ok now id started t :
  tracker_ok (wall now) t -> tracker_ok (wall now) (mark_healthy_write now id started t).
Proof.
  intros Hok. unfold mark_healthy_write. destruct (rt_entries t !! id) as [e|] eqn:E; [|done].
  case_match; [done|]. apply sync_ok; [done..|]. simpl.
  pose proof (emitted_of_ok _ _ id Hok) as H'. by rewrite E in H'.
Qed.

Lemma insert_quiet_ok w id e t :
  tracker_ok w t -> entry_ok w e ->
  emitted_state e = emitted_state (default runtime_default (rt_entries t !! id)) ->
  tracker_ok w (set_entries <[id := e]> t).
Proof.
  intros Hok He Hem. split; simpl.
  - intros id' e' Hl. apply lookup_insert_Some in Hl as [[<- <-]|[_ Hl]]; [done|].
    by apply (tok_entry _ _ Hok id').
  - intros id' e' st Hm Hl Hs. apply lookup_insert_Some in Hl as [[<- <-]|[_ Hl]].
    + rewrite Hem in Hs. by apply (emitted_of_ok _ _ id Hok).
    + by apply (tok_gauge _ _ Hok id' e').
Qed.

Lemma default_entry_ok w t id : tracker_ok w t ->
  entry_ok w (default runtime_default (rt_entries t !! id)).
Proof.
  intros Hok. destruct (rt_entries t !! id) eqn:E; simpl; [by apply (tok_entry _ _ Hok id)|].
  by split.
Qed.

(** Counting touches neither entries nor events. *)
Lemma count_in_flight_frame active id t :
  rt_entries (snd (count_in_flight active id t)) = rt_entries t /\
  emitted (snd (count_in_flight active id t)) = emitted t /\
  metrics (snd (count_in_flight active id t)) = metrics t.
Proof. unfold count_in_flight. destruct active; [|done]. simpl. by destruct (rt_in_flight t !! id). Qed.

Lemma tracker_ok_frame w t t' :
  rt_entries t' = rt_entries t -> emitted t' = emitted t -> metrics t' = metrics t ->
  tracker_ok w t -> tracker_ok w t'.
Proof. intros E1 E2 E3 [He Hg]. split; rewrite ?E1, ?E2, ?E3; done. Qed.

Lemma tracker_exec_ok w t c :
  w <= wall (at_time c) -> tracker_ok w t -> tracker_ok (wall (at_time c)) (tracker_exec t c).
Proof.
  intros Hw Hok%(tracker_ok_mono _ (wall (at_time c))); [|done]. destruct c as [now active op].
  simpl in *. destruct op as [id ttl reason|id started|id|id st reason|id st reason|id|id cfg err|f];
    unfold tracker_exec; cbn [call_op at_time call_active].
  - by apply mark_cooldown_ok.
  - unfold mark_healthy. destruct active; [by apply mark_healthy_write_ok|].
    destruct (needs_write id t); [by apply mark_healthy_write_ok|done].
  - unfold clear_unhealthy. destruct (rt_entries t !! id) as [e|] eqn:E; [|done].
    pose proof (default_entry_ok _ _ id Hok) as He. pose proof (emitted_of_ok _ _ id Hok) as Hs.
    rewrite E in He, Hs. apply sync_ok; [done|apply He|done].
  - unfold mark_unhealthy. pose proof (default_entry_ok _ _ id Hok) as He.
    apply sync_ok; [done|apply He|by apply emitted_of_ok with (w := wall now)].
  - unfold record_ignored_check. apply insert_quiet_ok; [done| |done].
    destruct (default_entry_ok _ _ id Hok) as [M N0 H D P]. by split.
  - unfold begin_in_flight. set (t1 := match rt_entries t !! id with Some _ => t | None => _ end).
    destruct (count_in_flight_frame active id t1) as (E1 & E2 & E3).
    apply (tracker_ok_frame _ t1); [done..|]. unfold t1.
    destruct (rt_entries t !! id) as [e|] eqn:E; [done|].
    apply insert_quiet_ok; [done|by split|by rewrite E].
  - unfold note_failure. destruct (decide_cooldown err cfg) as [[ttl reason]|]; [|done].
    by apply mark_cooldown_ok.
  - destruct Hok as [He Hg]. split; simpl.
    + intros id e Hl. apply map_lookup_filter_Some in Hl as [Hl _]. by apply (He id).
    + intros id e st Hm Hl. apply map_lookup_filter_Some in Hl as [Hl _]. by apply (Hg id).
Qed.

(** Wall-clock readings that never go back, from [w] on. *)
Fixpoint on_clock (w : N) (cs : list call) : Prop :=
  match cs with
  | [] => True
  | c :: cs => w <= wall (at_time c) /\ on_clock (wall (at_time c)) cs
  end.
Definition last_time (w : N) (cs : list call) : N :=
  fold_left (fun _ c => wall (at_time c)) cs w.

Lemma run_ok w t cs : on_clock w cs -> tracker_ok w t ->
  tracker_ok (last_time w cs) (fold_left tracker_exec cs t).
Proof.
  revert w t. induction cs as [|c cs IH]; intros w t; [done|]. intros [Hc Hcs] Hok. simpl.
  apply IH; [done|]. by apply (tracker_exec_ok w).
Qed.

Lemma tracker_new_ok w b : tracker_ok w (tracker_new b).
Proof. by split. Qed.

Lemma emit_metrics ev t : metrics (emit ev t) = metrics t.
Proof. unfold emit. by destruct (metrics t) eqn:E. Qed.

Lemma sync_metrics id e w t : metrics (sync_deployment_state id e w t) = metrics t.
Proof. unfold sync_deployment_state. case_bool_decide; [done|]. by rewrite emit_metrics. Qed.

Lemma mark_cooldown_metrics now id ttl reason t :
  metrics (mark_cooldown now id ttl reason t) = metrics t.
Proof. unfold mark_cooldown. rewrite sync_metrics. destruct (negb _); [apply emit_metrics|done]. Qed.

Lemma mark_healthy_write_metrics now id started t :
  metrics (mark_healthy_write now id started t) = metrics t.
Proof.
  unfold mark_healthy_write. destruct (rt_entries t !! id); [|done].
  destruct (cooldown_outlives _ _ _); [done|apply sync_metrics].
Qed.

Lemma tracker_exec_metrics t c : metrics (tracker_exec t c) = metrics t.
Proof.
  destruct c as [now active [id ttl reason|id started|id|id st reason|id st reason|id|id cfg err|f]];
    unfold tracker_exec; cbn [call_op at_time call_active].
  - apply mark_cooldown_metrics.
  - unfold mark_healthy. destruct active; [apply mark_healthy_write_metrics|].
    destruct (needs_write id t); [apply mark_healthy_write_metrics|done].
  - unfold clear_unhealthy. destruct (rt_entries t !! id); [apply sync_metrics|done].
  - apply sync_metrics.
  - done.
  - unfold begin_in_flight. rewrite (proj2 (proj2 (count_in_flight_frame _ _ _))).
    by destruct (rt_entries t !! id).
  - unfold note_failure. destruct (decide_cooldown err cfg) as [[]|]; [apply mark_cooldown_metrics|done].
  - done.
Qed.

Lemma run_metrics cs b : metrics (fold_left tracker_exec cs (tracker_new b)) = b.
Proof.
  induction cs as [|c cs IH] using rev_ind; [done|].
  rewrite fold_left_app. simpl. rewrite tracker_exec_metrics. exact IH.
Qed.

(** The deployment-state gauge never advertises a target that is out of
    rotation. After any calls on a clock that does not go back: a tracked target
    whose gauge shows Healthy is in service now, one whose gauge was never set
    is in service, and one whose gauge shows Down either is out of rotation or
    is past a cooldown that lapsed with no call since to observe it. The state
    an entry remembers publishing is what the sink was last sent for it. *)
Theorem gauge_agrees w cs now id e :
  on_clock w cs -> last_time w cs <= now ->
  let t := fold_left tracker_exec cs (tracker_new true) in
  rt_entries t !! id = Some e ->
  match emitted_state e with
  | None => deployment_state e now = DsHealthy
  | Some st =>
      gauge id (emitted t) = Some st /\
      match st with
      | DsHealthy => deployment_state e now = DsHealthy
      | DsDown => deployment_state e now = DsDown \/
          exists until, cooldown_until e = Some until /\ until <= now
      | DsPartialFailure => False
      end
  end.
Proof.
  intros Hc Hn t Hl.
  assert (tracker_ok now t) as Hok.
  { eapply tracker_ok_mono; [exact Hn|]. apply run_ok; [done|apply tracker_new_ok]. }
  assert (metrics t = true) as Hmet by (unfold t; apply run_metrics).
  destruct (tok_entry _ _ Hok id e Hl) as [M Hnone Hh Hd Hp].
  destruct (emitted_state e) as [st|] eqn:Es.
  - split; [apply (tok_gauge _ _ Hok id e); [done..]|].
    destruct st; [by apply Hh|done|]. destruct (Hd eq_refl) as [Hu|[u Hu]].
    + left. unfold deployment_state. by rewrite Hu.
    + unfold deployment_state, cooling. rewrite Hu. destruct (N.ltb_spec now u); [|eauto].
      left. by rewrite orb_true_r.
  - destruct (Hnone eq_refl) as [Hu Hc']. rewrite deployment_healthy. unfold cooling. by rewrite Hu, Hc'.
Qed.

Lemma gauge_agrees_witness :
  let cs := [mkCall (mkClocks 100 5) true (OpCooldown "m" 50 "upstream_rate_limited");
             mkCall (mkClocks 120 25) false (OpHealthy "m" 3);
             mkCall (mkClocks 160 65) false (OpHealthy "m" 3)] in
  let t := fold_left tracker_exec cs (tracker_new true) in
  let e := default runtime_default (rt_entries t !! "m") in
  gauge "m" (emitted t) = Some DsHealthy /\ deployment_state e 200 = DsHealthy /\
  match emitted_state e with
  | None => deployment_state e 200 = DsHealthy
  | Some st =>
      gauge "m" (emitted t) = Some st /\
      match st with
      | DsHealthy => deployment_state e 200 = DsHealthy
      | DsDown => deployment_state e 200 = DsDown \/
          exists until, cooldown_until e = Some until /\ until <= 200
      | DsPartialFailure => False
      end
  end.
Proof.
  intros cs t e. split; [reflexivity|]. split; [reflexivity|].
  apply (gauge_agrees 0 cs 200 "m" e); [|discriminate|reflexivity].
  simpl. repeat split; discriminate.
Defined.

(** Skipping a success's write is invisible. In every tracker that calls
    on a clock that does not go back can build, the read-first path taken while
    no consumer is configured leaves exactly the tracker, gauge history
    included, that the historical write path leaves. *)
Theorem mark_healthy_paths_agree w cs b now id started :
  on_clock w cs ->
  let t := fold_left tracker_exec cs (tracker_new b) in
  mark_healthy false now id started t = mark_healthy true now id started t.
Proof.
  intros Hc t. assert (tracker_ok (last_time w cs) t) as Hok by (apply run_ok; [done|apply tracker_new_ok]).
  unfold mark_healthy. destruct (needs_write id t) eqn:E; [done|]. cbn [negb].
  unfold mark_healthy_write. unfold needs_write in E.
  destruct (rt_entries t !! id) as [e|] eqn:El; [|done].
  apply orb_false_iff in E as [E Hem]. apply orb_false_iff in E as [E Hr].
  apply orb_false_iff in E as [Hu Hcd].
  rewrite negb_false_iff, bool_decide_eq_true in Hem.
  rewrite bool_decide_eq_false in Hcd, Hr.
  apply eq_None_not_Some in Hcd. apply eq_None_not_Some in Hr.
  assert (cooldown_outlives e started (wall now) = false) as ->.
  { unfold cooldown_outlives, cooling. rewrite Hcd. apply andb_false_r. }
  pose proof (eok_marked _ _ (tok_entry _ _ Hok id e El) Hcd) as Hm.
  assert (recovered e = e) as -> by (unfold recovered; destruct e; simpl in *; congruence).
  assert (deployment_state e (wall now) = DsHealthy) as Hd.
  { apply deployment_healthy. split; [done|]. unfold cooling. by rewrite Hcd. }
  unfold sync_deployment_state. cbv zeta. rewrite Hd, bool_decide_true by done. unfold set_entries. rewrite insert_id by done. by destruct t.
Qed.

Lemma mark_healthy_paths_agree_witness :
  let cs := [mkCall (mkClocks 100 5) true (OpBegin "m");
             mkCall (mkClocks 120 25) true (OpHealthy "m" 5)] in
  let t := fold_left tracker_exec cs (tracker_new true) in
  needs_write "m" t = false /\
  mark_healthy false (mkClocks 130 35) "m" 30 t = mark_healthy true (mkClocks 130 35) "m" 30 t.
Proof.
  intros cs t. split; [reflexivity|]. apply (mark_healthy_paths_agree 0 cs true).
  simpl. repeat split; discriminate.
Defined.

(** ** The life of a cooldown *)

Lemma sync_entry id e w t :
  exists st, rt_entries (sync_deployment_state id e w t) !! id
  = Some (mkRuntime (unhealthy e) (cooldown_until e) (cooldown_marked_at e) (last_checked_at e)
            (last_check_status e) (status_reason e) st).
Proof.
  unfold sync_deployment_state. case_bool_decide.
  - exists (emitted_state e). simpl. rewrite lookup_insert_eq. by destruct e.
  - eexists. unfold emit. destruct (metrics _); simpl; by rewrite lookup_insert_eq.
Qed.

Lemma mark_cooldown_entry now id ttl reason t :
  exists st, rt_entries (mark_cooldown now id ttl reason t) !! id
  = Some (let old := default runtime_default (rt_entries t !! id) in
          mkRuntime (unhealthy old)
            (Some (default (wall now + COOLDOWN_UNTIL_CEILING) (checked_add_time (wall now) ttl)))
            (Some (mono now)) (last_checked_at old) (last_check_status old) (Some reason) st).
Proof. unfold mark_cooldown. eapply sync_entry. Qed.

(** The life of a cooldown. A target marked at some moment for [ttl] is
    reported cooling, with that deadline, until [ttl] has passed, then not,
    with nothing having to call back. In between, an attempt that began before
    the mark changes nothing by succeeding, while one that began after ends the
    cooldown and any unhealthy mark at once. A deadline past the clock's range
    becomes a hundred years. *)
Theorem cooldown_lifecycle now id ttl reason t :
  let until := default (wall now + COOLDOWN_UNTIL_CEILING) (checked_add_time (wall now) ttl) in
  let t' := mark_cooldown now id ttl reason t in
  (forall later stale, wall later < until ->
     status (status_with_stale later id stale t') = StCooldown /\
     snap_cooldown_until (status_with_stale later id stale t') = Some until /\
     snap_status_reason (status_with_stale later id stale t') = Some reason) /\
  (forall later stale, until <= wall later ->
     status (status_with_stale later id stale t') <> StCooldown) /\
  (forall active later started, wall later < until -> started < mono now ->
     mark_healthy active later id started t' = t') /\
  (forall active later started stale later', mono now <= started ->
     status (status_with_stale later' id stale (mark_healthy active later id started t')) = StHealthy).
Proof.
  intros until t'. destruct (mark_cooldown_entry now id ttl reason t) as [st He].
  fold t' until in He. cbv zeta in He.
  split_and!.
  - intros later stale Hl. unfold status_with_stale. rewrite He. simpl.
    unfold runtime_snapshot, cooling. simpl. by rewrite (proj2 (N.ltb_lt _ _) Hl).
  - intros later stale Hl. unfold status_with_stale. rewrite He. simpl.
    unfold runtime_snapshot, cooling. simpl. rewrite (proj2 (N.ltb_ge _ _) Hl). by destruct (_ && _).
  - intros active later started Hl Hs.
    assert (mark_healthy_write later id started t' = t') as Hw.
    { unfold mark_healthy_write. rewrite He. unfold cooldown_outlives, cooling. simpl.
      by rewrite (proj2 (N.ltb_lt _ _) Hl), (proj2 (N.ltb_lt _ _) Hs). }
    unfold mark_healthy. rewrite Hw. by destruct active, (needs_write id t').
  - intros active later started stale later' Hs.
    assert (mark_healthy active later id started t' = mark_healthy_write later id started t') as ->.
    { unfold mark_healthy, needs_write. rewrite He. simpl. destruct active; [done|].
      by rewrite orb_true_r. }
    unfold mark_healthy_write. rewrite He. unfold cooldown_outlives. simpl.
    rewrite (proj2 (N.ltb_ge _ _) Hs). simpl. unfold status_with_stale.
    destruct (sync_entry id (recovered (mkRuntime (unhealthy (default runtime_default (rt_entries t !! id)))
      (Some until) (Some (mono now)) (last_checked_at (default runtime_default (rt_entries t !! id)))
      (last_check_status (default runtime_default (rt_entries t !! id))) (Some reason) st)) (wall later) t')
      as [st' ->]. done.
Qed.

Lemma cooldown_lifecycle_witness :
  let t' := mark_cooldown (mkClocks 100 5) "m" 50 "upstream_rate_limited" (tracker_new true) in
  status (status_with_stale (mkClocks 149 54) "m" None t') = StCooldown /\
  status (status_with_stale (mkClocks 150 55) "m" None t') <> StCooldown /\
  mark_healthy true (mkClocks 120 25) "m" 4 t' = t' /\
  status (status_with_stale (mkClocks 121 26) "m" None
            (mark_healthy false (mkClocks 120 25) "m" 6 t')) = StHealthy.
Proof.
  intros t'.
  destruct (cooldown_lifecycle (mkClocks 100 5) "m" 50 "upstream_rate_limited" (tracker_new true))
    as (H1 & H2 & H3 & H4).
  split; [apply H1; reflexivity|]. split; [apply H2; discriminate|].
  split; [apply H3; reflexivity|apply H4; discriminate].
Defined.

(** ** In-flight counts *)

(** The tracker and the guards handed out and not yet dropped, with the target
    each was taken for. *)
Record flights := mkFlights { f_tracker : ModelRuntimeStatusTracker; guards : list (string * InFlightGuard) }.

(** The guards are live values of the process, so there are fewer than [2^64]. *)
Inductive flights_step : flights -> flights -> Prop :=
  | fs_begin active id t gs g t' :
      begin_in_flight active id t = (g, t') -> N.of_nat (length gs) < u64_max ->
      flights_step (mkFlights t gs) (mkFlights t' ((id, g) :: gs))
  | fs_count active id t gs g t' :
      count_in_flight active id t = (g, t') -> N.of_nat (length gs) < u64_max ->
      flights_step (mkFlights t gs) (mkFlights t' ((id, g) :: gs))
  | fs_drop t gs1 id g gs2 :
      flights_step (mkFlights t (gs1 ++ (id, g) :: gs2)) (mkFlights (in_flight_drop g t) (gs1 ++ gs2))
  | fs_retain f t gs : flights_step (mkFlights t gs) (mkFlights (retain_configured f t) gs)
  | fs_other t t' gs :
      rt_in_flight t' = rt_in_flight t -> counters t' = counters t ->
      next_counter t' = next_counter t ->
      flights_step (mkFlights t gs) (mkFlights t' gs).

(** Guards on counter [c]. *)
Definition on_counter (c : nat) (gs : list (string * InFlightGuard)) : N :=
  N.of_nat (length (filter (fun g => g.2 = Some c) gs)).

Definition armed (id : string) (gs : list (string * InFlightGuard)) : N :=
  N.of_nat (length (filter (fun g => g.1 = id /\ is_Some g.2) gs)).

Record flights_ok (w : flights) : Prop := {
  fok_count c : load_counter (f_tracker w) c = on_counter c (guards w);
  fok_mapped id c : (id, Some c) ∈ guards w -> rt_in_flight (f_tracker w) !! id = Some c;
  fok_inj id id' c : rt_in_flight (f_tracker w) !! id = Some c ->
    rt_in_flight (f_tracker w) !! id' = Some c -> id = id';
  fok_next id c : rt_in_flight (f_tracker w) !! id = Some c -> (c < next_counter (f_tracker w))%nat;
  fok_heap c : (next_counter (f_tracker w) <= c)%nat -> counters (f_tracker w) !! c = None;
}.

Lemma on_counter_cons c g gs :
  on_counter c (g :: gs) = (if decide (g.2 = Some c) then 1 else 0) + on_counter c gs.
Proof. unfold on_counter. rewrite filter_cons. case_decide; simpl; lia. Qed.

Lemma on_counter_app c gs gs' : on_counter c (gs ++ gs') = on_counter c gs + on_counter c gs'.
Proof. unfold on_counter. rewrite filter_app, length_app. lia. Qed.

Lemma on_counter_le c gs : on_counter c gs <= N.of_nat (length gs).
Proof. unfold on_counter. pose proof (length_filter (fun g : string * InFlightGuard => g.2 = Some c) gs). lia. Qed.

Lemma count_ok active id t gs g t' :
  count_in_flight active id t = (g, t') -> N.of_nat (length gs) < u64_max ->
  flights_ok (mkFlights t gs) -> flights_ok (mkFlights t' ((id, g) :: gs)).
Proof.
  intros E Hb [Hc Hm Hi Hn Hh]. simpl in *. unfold count_in_flight in E.
  destruct active; cbn [negb] in E.
  2:{ injection E as <- <-. split; simpl; [|intros id' c [?|?]%elem_of_cons; [done|by apply Hm]|done..].
      intros c. rewrite on_counter_cons, decide_False by done. apply Hc. }
  (* the counter exists, or is allocated at zero *)
  assert (exists c t1, g = Some c /\ rt_in_flight t1 !! id = Some c /\
    flights_ok (mkFlights t1 gs) /\
    t' = set_counters (rt_in_flight t1) (<[c := wrap64 (load_counter t1 c + 1)]> (counters t1)) (next_counter t1) t1)
    as (c & t1 & -> & Hl & Hok1 & ->).
  { destruct (rt_in_flight t !! id) as [c|] eqn:El; injection E as <- <-.
    - exists c, t. by repeat split.
    - eexists _, (set_counters (<[id := next_counter t]> (rt_in_flight t))
        (<[next_counter t := 0]> (counters t)) (S (next_counter t)) t).
      split; [done|]. split; [simpl; by rewrite lookup_insert_eq|]. split; [|done].
      assert (forall id', rt_in_flight t !! id' <> Some (next_counter t)) as Hfresh.
      { intros id' H. specialize (Hn _ _ H). lia. }
      split; simpl.
      + intros c. specialize (Hc c). unfold load_counter in *. simpl.
        destruct (decide (next_counter t = c)) as [<-|Hne].
        * rewrite lookup_insert_eq. simpl. rewrite <- Hc. by rewrite Hh.
        * by rewrite lookup_insert_ne.
      + intros id' c Hin. specialize (Hm _ _ Hin). rewrite lookup_insert_ne; [done|]. congruence.
      + intros i1 i2 c. rewrite !lookup_insert_Some.
        intros [[<- <-]|[_ H1]] [[<- E2]|[_ H2]]; try done; try (by eapply Hi).
        * by destruct (Hfresh i2).
        * subst c. by destruct (Hfresh i1).
      + intros id' c. rewrite lookup_insert_Some. intros [[_ <-]|[_ H]]; [lia|]. specialize (Hn _ _ H). lia.
      + intros c Hle. rewrite lookup_insert_ne by lia. apply Hh. lia. }
  clear E Hc Hm Hi Hn Hh. destruct Hok1 as [Hc Hm Hi Hn Hh]. simpl in *.
  pose proof (on_counter_le c gs). split; simpl; try done.
  - intros c'. rewrite on_counter_cons, <- Hc. simpl. unfold load_counter at 1. simpl.
    destruct (decide (c = c')) as [<-|Hne].
    + rewrite lookup_insert_eq, decide_True by done. simpl. rewrite Hc. unfold wrap64.
      rewrite N.mod_small; unfold u64_max in *; lia.
    + rewrite lookup_insert_ne, decide_False by congruence. done.
  - intros id' c' [[= -> ->]|Hin]%elem_of_cons; [done|by apply Hm].
  - intros c' Hle. rewrite lookup_insert_ne; [by apply Hh|]. specialize (Hn _ _ Hl). lia.
Qed.

Lemma flights_ok_frame t t' gs :
  rt_in_flight t' = rt_in_flight t -> counters t' = counters t -> next_counter t' = next_counter t ->
  flights_ok (mkFlights t gs) -> flights_ok (mkFlights t' gs).
Proof.
  intros E1 E2 E3 [Hc Hm Hi Hn Hh]. unfold load_counter in *.
  split; unfold load_counter; simpl in *; rewrite ?E1, ?E2, ?E3; done.
Qed.

Lemma drop_ok t gs1 id g gs2 :
  flights_ok (mkFlights t (gs1 ++ (id, g) :: gs2)) ->
  N.of_nat (length (gs1 ++ (id, g) :: gs2)) <= u64_max ->
  flights_ok (mkFlights (in_flight_drop g t) (gs1 ++ gs2)).
Proof.
  intros [Hc Hm Hi Hn Hh] Hb. simpl in *.
  assert (forall i c, (i, Some c) ∈ gs1 ++ gs2 -> rt_in_flight t !! i = Some c) as Hm'.
  { intros i c Hin. apply Hm. rewrite elem_of_app in *. rewrite elem_of_cons. tauto. }
  assert (forall c, on_counter c (gs1 ++ (id, g) :: gs2)
    = (if decide (g = Some c) then 1 else 0) + on_counter c (gs1 ++ gs2)) as Hon.
  { intros c. rewrite !on_counter_app, on_counter_cons. simpl. lia. }
  destruct g as [c0|]; simpl; [|split; simpl; try done; intros c; by rewrite Hc, Hon].
  assert (rt_in_flight t !! id = Some c0) as Hl by (apply Hm; rewrite elem_of_app, elem_of_cons; tauto).
  split; simpl; try done.
  - intros c. specialize (Hc c). unfold load_counter in *. simpl. rewrite Hon in Hc.
    pose proof (on_counter_le c (gs1 ++ (id, Some c0) :: gs2)) as Hle. rewrite Hon in Hle.
    destruct (decide (c0 = c)) as [<-|Hne].
    + rewrite lookup_insert_eq. simpl. rewrite Hc, decide_True by done.
      rewrite decide_True in Hle by done. unfold wrap64, u64_max in *.
      replace (1 + on_counter c0 (gs1 ++ gs2) + 18446744073709551615)
        with (on_counter c0 (gs1 ++ gs2) + 1 * 18446744073709551616) by lia.
      rewrite N.Div0.mod_add. apply N.mod_small. lia.
    + rewrite lookup_insert_ne by done. rewrite decide_False in Hc by congruence. exact Hc.
  - intros c Hle. rewrite lookup_insert_ne; [by apply Hh|]. specialize (Hn _ _ Hl). lia.
Qed.

Lemma retain_ok f t gs :
  flights_ok (mkFlights t gs) -> flights_ok (mkFlights (retain_configured f t) gs).
Proof.
  intros [Hc Hm Hi Hn Hh].
  assert (forall id c, rt_in_flight (retain_configured f t) !! id = Some c -> rt_in_flight t !! id = Some c) as Hsub.
  { intros id c H. by apply map_lookup_filter_Some in H as [H _]. }
  split; simpl in *; try done.
  - intros id c Hin. apply map_lookup_filter_Some. split; [by apply Hm|].
    apply orb_true_iff. left. apply N.ltb_lt. unfold load_counter in *. simpl. rewrite Hc.
    apply list_elem_of_split in Hin as (g1 & g2 & ->).
    rewrite on_counter_app, on_counter_cons, decide_True by done. lia.
  - intros id id' c H H'. eapply Hi; by apply Hsub.
  - intros id c H. eapply Hn. by apply Hsub.
Qed.

Lemma flights_step_ok w w' :
  flights_step w w' -> N.of_nat (length (guards w)) <= u64_max -> flights_ok w ->
  flights_ok w' /\ N.of_nat (length (guards w')) <= u64_max.
Proof.
  intros Hs Hb Hok. destruct Hs as [active id t gs g t' E Hl|active id t gs g t' E Hl|t gs1 id g gs2|f t gs|t t' gs E1 E2 E3];
    simpl in *.
  - split; [|unfold u64_max in *; lia]. eapply count_ok; [exact E|done|].
    eapply flights_ok_frame; [..|exact Hok]; by destruct (rt_entries t !! id).
  - split; [|unfold u64_max in *; lia]. by eapply count_ok.
  - split; [by apply (drop_ok t gs1 id)|]. rewrite length_app in *. simpl in *. lia.
  - split; [by apply retain_ok|done].
  - split; [by apply (flights_ok_frame t)|done].
Qed.

(** The least-busy strategy reads an exact number. Through any
    interleaving of requests starting, streams and handlers ending, pruning of
    deleted targets and every other use of the tracker, switched between the two
    bookkeeping modes at will, the count read for a target is the number of
    its guards still alive that were taken while counting was on: it never goes
    negative, never leaks, and no live guard is on a counter the map has
    forgotten. *)
Theorem in_flight_exact b w id :
  rtc flights_step (mkFlights (tracker_new b) []) w ->
  in_flight_of id (f_tracker w) = armed id (guards w).
Proof.
  intros R. assert (flights_ok w /\ N.of_nat (length (guards w)) <= u64_max) as [[Hc Hm Hi _ _] _].
  { assert (flights_ok (mkFlights (tracker_new b) [])) as H0 by (split; simpl; try done; set_solver).
    assert (N.of_nat (length (guards (mkFlights (tracker_new b) []))) <= u64_max) as H1 by done.
    revert H0 H1. induction R; [done|]. intros. edestruct flights_step_ok; eauto. }
  unfold in_flight_of, armed. destruct (rt_in_flight (f_tracker w) !! id) as [c|] eqn:El.
  - rewrite Hc. unfold on_counter. do 2 f_equal. apply filter_ext_elem.
    intros [id' [c'|]] Hin; simpl; [|split; [done|by intros [_ []]]].
    specialize (Hm _ _ Hin). split.
    + intros [= ->]. split; [by eapply Hi|done].
    + intros [-> _]. congruence.
  - rewrite filter_none; [done|]. intros [id' [c'|]] Hin; simpl; intros [-> Hs].
    + specialize (Hm _ _ Hin). congruence.
    + by destruct Hs.
Qed.

Lemma in_flight_exact_witness :
  exists w, rtc flights_step (mkFlights (tracker_new true) []) w /\
    in_flight_of "m" (f_tracker w) = 1 /\ in_flight_of "m" (f_tracker w) = armed "m" (guards w).
Proof.
  set (r1 := begin_in_flight true "m" (tracker_new true)).
  set (r2 := count_in_flight true "m" (snd r1)).
  set (r3 := count_in_flight false "m" (snd r2)).
  exists (mkFlights (retain_configured (fun _ => false) (in_flight_drop (fst r1) (snd r3)))
           ([("m", fst r3); ("m", fst r2)] ++ [])).
  assert (rtc flights_step (mkFlights (tracker_new true) [])
    (mkFlights (retain_configured (fun _ => false) (in_flight_drop (fst r1) (snd r3)))
           ([("m", fst r3); ("m", fst r2)] ++ []))) as R.
  { eapply rtc_l; [by apply (fs_begin true "m" _ [] (fst r1) (snd r1))|].
    eapply rtc_l; [by apply (fs_count true "m" _ _ (fst r2) (snd r2))|].
    eapply rtc_l; [by apply (fs_count false "m" _ _ (fst r3) (snd r3))|].
    eapply rtc_l; [by apply (fs_drop _ [("m", fst r3); ("m", fst r2)] "m" (fst r1) [])|].
    eapply rtc_l; [by apply (fs_retain (fun _ => false))|]. apply rtc_refl. }
  split; [exact R|]. split; [reflexivity|]. apply (in_flight_exact true _ "m" R).
Defined.
