(* ===== verification/Balance.v ===== *)
(** * Balancing within a Model Group

    The rotation and ring half of [crates/aisix-proxy/src/routing.rs]: priority
    tiers, smooth weighted round-robin, the consistent-hash ring, and
    [RoutingRegistry::pick_targets], which puts them together.

    Counters are [i64] values well inside their range (a theorem below), written
    as [Z].  Indexing past the end of a vector is the [None] of an operation
    that would panic. *)

From S2P Require Import Prelude Sort F64 Snapshot Models.
From Stdlib Require Import ZifyBool ZifyN ZArith.
Local Open Scope N_scope.

(** ** Hashing *)

Definition FNV_OFFSET_BASIS : N := 0xcbf29ce484222325.
Definition FNV_PRIME : N := 0x00000100000001b3.

Definition wrapping_mul (a b : N) : N := wrap64 (a * b).

Definition fnv1a_extend (h : N) (bytes : list N) : N :=
  fold_left (fun h b => wrapping_mul (N.lxor h b) FNV_PRIME) bytes h.

Definition mix64 (x : N) : N :=
  let x := N.lxor x (N.shiftr x 30) in
  let x := wrapping_mul x 0xbf58476d1ce4e5b9 in
  let x := N.lxor x (N.shiftr x 27) in
  let x := wrapping_mul x 0x94d049bb133111eb in
  N.lxor x (N.shiftr x 31).

(** [str::as_bytes] *)
Definition as_bytes (s : string) : list N := Ascii.N_of_ascii <$> String.list_ascii_of_string s.

Definition stable_hash (s : string) : N := mix64 (fnv1a_extend FNV_OFFSET_BASIS (as_bytes s)).

Definition tier_fingerprint (tier : list RoutingTarget) : N :=
  fold_left
    (fun h t =>
       let h := fnv1a_extend h (as_bytes (target_model t)) in
       let h := fnv1a_extend h [0] in
       let h := fnv1a_extend h (as_bytes (default ""%string (target_model_id t))) in
       let h := fnv1a_extend h [0] in
       let h := fnv1a_extend h (le_bytes 4 (weight_or_default t)) in
       fnv1a_extend h [1])
    tier FNV_OFFSET_BASIS.

(** ** Priority tiers *)

Definition partition_by_priority (targets : list RoutingTarget) : list (list RoutingTarget) :=
  let priorities := dedup (stable_sort (fun a b => (b <=? a)%Z) (priority_or_default <$> targets)) in
  (fun p => List.filter (fun t => (priority_or_default t =? p)%Z) targets) <$> priorities.

(** ** Smooth weighted round-robin *)

Record WrrState := mkWrr { wrr_fingerprint : N; rotations : gmap N (list Z) }.

(** The loop over the weights from index [i]. *)
Fixpoint wrr_scan (weights : list Z) (i best : nat) (current : list Z) : option (nat * list Z) :=
  match weights with
  | [] => Some (best, current)
  | w :: weights =>
      match current !! i with
      | None => None
      | Some c =>
          let current := <[i := (c + w)%Z]> current in
          match current !! i, current !! best with
          | Some ci, Some cb => wrr_scan weights (S i) (if (cb <? ci)%Z then i else best) current
          | _, _ => None
          end
      end
  end.

Definition wrr_weights (tier : list RoutingTarget) : list Z :=
  (fun t => Z.of_N (N.max (weight_or_default t) 1)) <$> tier.

Definition sum_z (l : list Z) : Z := fold_right Z.add 0%Z l.

(** One pick over a rotation's counters. *)
Definition wrr_round (weights : list Z) (current : list Z) : option (nat * list Z) :=
  match wrr_scan weights 0 0 current with
  | None => None
  | Some (best, current) =>
      match current !! best with
      | None => None
      | Some c => Some (best, <[best := (c - sum_z weights)%Z]> current)
      end
  end.

(** ** The consistent-hash ring *)

Definition RING_POINTS_PER_UNIT : nat := 160.
Definition RING_MAX_UNITS : N := 64.

Record RingScale := mkScale { scale_gcd : N; scale_sum : N }.

(** The loop of [gcd]: the second argument halves in two iterations, so twice
    its length in bits is enough fuel ([gcd_exact]). *)
Fixpoint gcd_loop (fuel : nat) (a b : N) : N :=
  match fuel with
  | O => a
  | S fuel => if b =? 0 then a else gcd_loop fuel b (a mod b)
  end.
Definition gcd (a b : N) : N := gcd_loop (S (2 * N.to_nat (N.size b))) a b.

Definition ring_scale_of (configured_tier : list RoutingTarget) : RingScale :=
  let weights := (fun t => N.max (weight_or_default t) 1) <$> configured_tier in
  let g := N.max (fold_left gcd weights 0) 1 in
  mkScale g (fold_right N.add 0 ((fun w => w / g) <$> weights)).

Definition units (s : RingScale) (w : N) : N :=
  let units := N.max (N.max w 1 / scale_gcd s) 1 in
  if RING_MAX_UNITS <? scale_sum s then N.max (units * RING_MAX_UNITS / scale_sum s) 1 else units.

(** A point of the ring: its hash and the index of its target in the tier. *)
Record HashRing := mkRing { ring_fingerprint : N; points : list (N * nat) }.

Definition point_leb (p q : N * nat) : bool :=
  (p.1 <? q.1) || ((p.1 =? q.1) && (p.2 <=? q.2)%nat).

Definition ring_point (model : string) (i : nat) : N :=
  let h := fnv1a_extend FNV_OFFSET_BASIS (as_bytes model) in
  let h := fnv1a_extend h [0] in
  let h := fnv1a_extend h (le_bytes 4 (N.of_nat i)) in
  mix64 h.

Definition target_points (scale : RingScale) (t : RoutingTarget) : list N :=
  ring_point (target_model t)
    <$> List.seq 0 (N.to_nat (units scale (weight_or_default t)) * RING_POINTS_PER_UNIT).

Definition ring_build (fingerprint : N) (targets : list RoutingTarget) (scale : RingScale)
    : HashRing :=
  mkRing fingerprint
    (stable_sort point_leb
       (concat (imap (fun idx t => (fun h => (h, idx)) <$> target_points scale t) targets))).

(** [partition_point]: the length of the prefix on which the predicate holds. *)
Fixpoint partition_point {A} (p : A -> bool) (l : list A) : nat :=
  match l with
  | [] => 0
  | x :: l => if p x then S (partition_point p l) else 0
  end.

(** The loop over the offsets, from [off] with [todo] to go; [inr] is the early
    return. *)
Fixpoint ring_walk (pts : list (N * nat)) (start n_targets todo off : nat)
    (seen : list bool) (order : list nat) : option (list bool * list nat + list nat) :=
  match todo with
  | O => Some (inl (seen, order))
  | S todo =>
      match pts !! ((start + off) mod length pts)%nat with
      | None => None
      | Some (_, idx) =>
          match seen !! idx with
          | None => None
          | Some false =>
              let order := order ++ [idx] in
              if (length order =? n_targets)%nat then Some (inr order)
              else ring_walk pts start n_targets todo (S off) (<[idx := true]> seen) order
          | Some true => ring_walk pts start n_targets todo (S off) seen order
          end
      end
  end.

Definition preference_order (ring : HashRing) (key_hash : N) (n_targets : nat)
    : option (list nat) :=
  let seen := replicate n_targets false in
  let rest '(seen, order) :=
    order ++ ((fun '(i, _) => i) <$> List.filter (fun '(_, present) => negb present) (imap pair seen)) in
  match points ring with
  | [] => Some (rest (seen, []))
  | pts =>
      let start := partition_point (fun '(p, _) => p <? key_hash) pts in
      match ring_walk pts start n_targets (length pts) 0 seen [] with
      | None => None
      | Some (inl so) => Some (rest so)
      | Some (inr order) => Some order
      end
  end.

(** ** The registry *)

Abbreviation TierKey := (string * Z)%type.

Record RoutingRegistry := mkRegistry {
  wrr : gmap TierKey WrrState;
  rings : gmap TierKey HashRing;
}.

Definition registry_new : RoutingRegistry := mkRegistry ∅ ∅.

Definition wrr_pick (virtual_name : string) (priority : Z) (config_fingerprint : N)
    (tier : list RoutingTarget) (r : RoutingRegistry) : option (nat * RoutingRegistry) :=
  let weights := wrr_weights tier in
  let key := (virtual_name, priority) in
  let state := default (mkWrr config_fingerprint ∅) (wrr r !! key) in
  let state :=
    if wrr_fingerprint state =? config_fingerprint then state
    else mkWrr config_fingerprint ∅ in
  let current :=
    default (replicate (length weights) 0%Z) (rotations state !! tier_fingerprint tier) in
  match wrr_round weights current with
  | None => None
  | Some (best, current) =>
      Some (best,
        mkRegistry
          (<[key := mkWrr (wrr_fingerprint state)
                      (<[tier_fingerprint tier := current]> (rotations state))]> (wrr r))
          (rings r))
  end.

Definition ring_fingerprint_of (tier : list RoutingTarget) (scale : RingScale) : N :=
  fnv1a_extend (fnv1a_extend (tier_fingerprint tier) (le_bytes 8 (scale_gcd scale)))
    (le_bytes 8 (scale_sum scale)).

Definition ring_for (virtual_name : string) (priority : Z) (tier : list RoutingTarget)
    (scale : RingScale) (r : RoutingRegistry) : HashRing * RoutingRegistry :=
  let fingerprint := ring_fingerprint_of tier scale in
  let key := (virtual_name, priority) in
  let build :=
    let ring := ring_build fingerprint tier scale in
    (ring, mkRegistry (wrr r) (<[key := ring]> (rings r))) in
  match rings r !! key with
  | Some ring => if ring_fingerprint ring =? fingerprint then (ring, r) else build
  | None => build
  end.

Definition attempt_order (targets : list RoutingTarget) (start_idx limit : nat)
    : option (list string) :=
  mapM (fun i => target_model <$> targets !! ((start_idx + i) mod length targets)%nat)
    (List.seq 0 limit).

(** One tier of the loop in [pick_targets]. *)
Definition pick_tier (virtual_name : string) (routing : Routing) (hash_key : string)
    (tier : list RoutingTarget) (r : RoutingRegistry) : option (list string * RoutingRegistry) :=
  first ← head tier;
  let priority := priority_or_default first in
  match strategy routing with
  | Failover => Some (target_model <$> tier, r)
  | RoundRobin =>
      '(start, r) ← wrr_pick virtual_name priority (tier_fingerprint (targets routing)) tier r;
      order ← attempt_order tier start (length tier);
      Some (order, r)
  | ConsistentHash =>
      let scale :=
        ring_scale_of
          (List.filter (fun t => (priority_or_default t =? priority)%Z) (targets routing)) in
      let '(ring, r) := ring_for virtual_name priority tier scale r in
      idxs ← preference_order ring (stable_hash hash_key) (length tier);
      order ← mapM (fun idx => target_model <$> tier !! idx) idxs;
      Some (order, r)
  | LeastCost | LeastLatency | LeastBusy => None
  end.

Fixpoint pick_tiers (virtual_name : string) (routing : Routing) (hash_key : string)
    (tiers : list (list RoutingTarget)) (r : RoutingRegistry)
    : option (list string * RoutingRegistry) :=
  match tiers with
  | [] => Some ([], r)
  | tier :: tiers =>
      '(order, r) ← pick_tier virtual_name routing hash_key tier r;
      '(rest, r) ← pick_tiers virtual_name routing hash_key tiers r;
      Some (order ++ rest, r)
  end.

Definition pick_targets (virtual_name : string) (routing : Routing)
    (candidates : list RoutingTarget) (hash_key : string) (r : RoutingRegistry)
    : option (list string * RoutingRegistry) :=
  match candidates with
  | [] => Some ([], r)
  | _ =>
      if is_metric_based (strategy routing) then Some (target_model <$> candidates, r)
      else
        '(order, r) ← pick_tiers virtual_name routing hash_key (partition_by_priority candidates) r;
        Some (take (max_fallbacks_or_default routing + 1) order, r)
  end.

Definition PARTIAL_ROUTE_ROTATION : string := String Ascii.zero "partial".

(** [name.strip_suffix(PARTIAL_ROUTE_ROTATION).unwrap_or(name)] *)
Fixpoint strip_partial (name : string) : string :=
  if bool_decide (name = PARTIAL_ROUTE_ROTATION) then EmptyString
  else match name with
       | EmptyString => EmptyString
       | String a rest => String a (strip_partial rest)
       end.

Definition registry_retain_configured (is_configured : string -> bool) (r : RoutingRegistry)
    : RoutingRegistry :=
  let configured (key : TierKey) := is_configured (strip_partial key.1) in
  mkRegistry (filter (fun '(key, _) => configured key = true) (wrr r))
    (filter (fun '(key, _) => configured key = true) (rings r)).

(** ** [gcd] *)

Lemma gcd_step a b : N.gcd a b = N.gcd b (a mod b).
Proof. by rewrite (N.gcd_comm b), N.Lcm0.gcd_mod, N.gcd_comm. Qed.

Lemma gcd_loop_S fuel a b :
  gcd_loop (S fuel) a b = if b =? 0 then a else gcd_loop fuel b (a mod b).
Proof. done. Qed.

Lemma gcd_loop_exact k a b : b < 2 ^ N.of_nat k -> gcd_loop (S (2 * k)) a b = N.gcd a b.
Proof.
  revert a b. induction k as [|k IH]; intros a b Hb.
  - assert (b = 0) as -> by (change (2 ^ N.of_nat 0) with 1 in Hb; lia). simpl. by rewrite N.gcd_0_r.
  - rewrite Nat2N.inj_succ, N.pow_succ_r' in Hb.
    replace (2 * S k)%nat with (S (S (2 * k))) by lia. rewrite gcd_loop_S.
    destruct (N.eqb_spec b 0) as [-> | Hb0]; [by rewrite N.gcd_0_r|].
    rewrite gcd_loop_S, (gcd_step a b). pose proof (N.mod_lt a b Hb0) as Hr.
    destruct (N.eqb_spec (a mod b) 0) as [-> | Hr0]; [by rewrite N.gcd_0_r|].
    rewrite (gcd_step b). apply IH.
    pose proof (N.mod_lt b (a mod b) Hr0) as Hrr.
    destruct (N.le_gt_cases (a mod b) (2 ^ N.of_nat k)) as [Hle|Hgt]; [lia|].
    set (r := a mod b) in *. replace b with (b - r + 1 * r) by lia. rewrite N.Div0.mod_add.
    rewrite N.mod_small by lia. lia.
Qed.

Lemma gcd_exact a b : gcd a b = N.gcd a b.
Proof. apply gcd_loop_exact. rewrite N2Nat.id. apply N.size_gt. Qed.

(** ** Tiers *)

(** Strictly descending priorities. *)
Fixpoint descending (l : list Z) : Prop :=
  match l with [] => True | x :: l => (forall y, y ∈ l -> (y < x)%Z) /\ descending l end.

Lemma dedup_descending l : sorted (fun a b => (b <=? a)%Z) l -> descending (dedup l).
Proof.
  induction 1 as [|x l Hx Hs IH]; [done|]. destruct l as [|y l]; [simpl; split; [set_solver|done]|].
  rewrite dedup_cons. case_bool_decide; [done|]. split; [|done]. intros z Hz. apply (proj1 (dedup_elem _ _)) in Hz.
  pose proof (Hx y (list_elem_of_here y l)). inversion Hs as [|? ? Hy _]; subst.
  apply elem_of_cons in Hz as [-> | Hz]; [lia|]. specialize (Hy z Hz). lia.
Qed.

Definition priorities_of (targets : list RoutingTarget) : list Z :=
  dedup (stable_sort (fun a b => (b <=? a)%Z) (priority_or_default <$> targets)).

Definition tier_of (targets : list RoutingTarget) (p : Z) : list RoutingTarget :=
  List.filter (fun t => (priority_or_default t =? p)%Z) targets.

Lemma partition_tiers targets :
  partition_by_priority targets = tier_of targets <$> priorities_of targets.
Proof. done. Qed.

Lemma priorities_descending targets : descending (priorities_of targets).
Proof.
  apply dedup_descending, stable_sort_sorted; [intros x y|intros x y z]; lia.
Qed.

Lemma priorities_elem targets p :
  p ∈ priorities_of targets <-> exists t, t ∈ targets /\ priority_or_default t = p.
Proof.
  unfold priorities_of. rewrite dedup_elem, stable_sort_perm, list_elem_of_fmap. naive_solver.
Qed.

Lemma tier_of_elem targets p t : t ∈ tier_of targets p <-> t ∈ targets /\ priority_or_default t = p.
Proof.
  unfold tier_of. rewrite !list_elem_of_In, filter_In. rewrite Z.eqb_eq. done.
Qed.

(** Keeping only some priorities keeps the targets at them. *)
Lemma concat_tiers ps targets :
  NoDup ps ->
  concat (tier_of targets <$> ps) ≡ₚ filter (fun t => priority_or_default t ∈ ps) targets.
Proof.
  induction ps as [|p ps IH]; intros Hn; simpl.
  { symmetry. rewrite filter_none; [done|]. intros. set_solver. }
  apply NoDup_cons in Hn as [Hp Hn]. rewrite IH by done. clear IH Hn.
  induction targets as [|t ts IH]; [done|]. unfold tier_of in *. simpl. rewrite !filter_cons.
  destruct (Z.eqb_spec (priority_or_default t) p) as [<-|Hne].
  - rewrite decide_False by done. rewrite decide_True by (left). simpl. by rewrite IH.
  - destruct (decide (priority_or_default t ∈ ps)).
    + rewrite decide_True by (by right). rewrite <- Permutation_middle. by rewrite IH.
    + rewrite decide_False by (rewrite elem_of_cons; tauto). done.
Qed.

Lemma descending_NoDup l : descending l -> NoDup l.
Proof.
  induction l as [|x l IH]; simpl; [constructor|]. intros [Hx Hd]. constructor; [|auto].
  intros H%Hx. lia.
Qed.

Lemma partition_perm targets : concat (partition_by_priority targets) ≡ₚ targets.
Proof.
  rewrite partition_tiers, concat_tiers; [|apply descending_NoDup, priorities_descending].
  rewrite filter_all; [done|]. intros t Ht. apply priorities_elem. eauto.
Qed.

(** ** Smooth weighted round-robin *)

Lemma wrr_scan_spec weights xs cs best :
  length cs = length weights ->
  (match xs with [] => best = 0%nat | _ => exists v, xs !! best = Some v /\ forall x, x ∈ xs -> (x <= v)%Z end) ->
  (xs ++ cs <> []) ->
  exists b v, wrr_scan weights (length xs) best (xs ++ cs) = Some (b, xs ++ zip_with Z.add cs weights) /\
    (xs ++ zip_with Z.add cs weights) !! b = Some v /\
    forall x, x ∈ xs ++ zip_with Z.add cs weights -> (x <= v)%Z.
Proof.
  revert xs cs best. induction weights as [|w weights IH]; intros xs cs best Hlen Hbest Hne.
  - destruct cs; [|done]. rewrite app_nil_r in *. destruct xs as [|x xs]; [done|].
    destruct Hbest as (v & Hv & Hmax). exists best, v. simpl. rewrite app_nil_r. done.
  - destruct cs as [|c cs]; [done|]. cbn [wrr_scan]. rewrite list_lookup_middle by done.
    replace (<[length xs := (c + w)%Z]> (xs ++ c :: cs)) with ((xs ++ [(c + w)%Z]) ++ cs).
    2:{ rewrite insert_app_r_alt, Nat.sub_diag by lia. simpl. by rewrite <- app_assoc. }
    assert (((xs ++ [(c + w)%Z]) ++ cs) !! length xs = Some (c + w)%Z) as ->.
    { rewrite <- app_assoc. by apply list_lookup_middle. }
    assert (exists cb, ((xs ++ [(c + w)%Z]) ++ cs) !! best = Some cb /\
      forall x, x ∈ xs -> (x <= cb)%Z) as (cb & Hcb & Hmax).
    { destruct xs as [|x xs]; [rewrite Hbest; eexists; split; [done|set_solver]|].
      destruct Hbest as (v & Hv & Hm). exists v. split; [|done].
      rewrite <- app_assoc. by apply lookup_app_l_Some. }
    rewrite Hcb.
    assert (length xs + 1 = S (length xs))%nat as Hl by lia.
    destruct (IH (xs ++ [(c + w)%Z]) cs (if (cb <? c + w)%Z then length xs else best)) as (b & v & E & Hv & Hm).
    + by injection Hlen.
    + assert (exists v, (xs ++ [(c + w)%Z]) !! (if (cb <? c + w)%Z then length xs else best) = Some v /\
        forall x, x ∈ xs ++ [(c + w)%Z] -> (x <= v)%Z) as (v & Hv & Hm).
      { destruct (Z.ltb_spec cb (c + w)).
        - exists (c + w)%Z. split; [by apply list_lookup_middle|].
          intros x [Hx | ->%list_elem_of_singleton]%elem_of_app; [specialize (Hmax x Hx); lia|lia].
        - exists cb. split.
          + assert (best < length (xs ++ [(c + w)%Z]))%nat as Hb.
            { destruct xs as [|x xs]; [subst; simpl; lia|]. destruct Hbest as (v & Hv & _).
              apply lookup_lt_Some in Hv. rewrite length_app. lia. }
            by rewrite lookup_app_l in Hcb.
          + intros x [Hx | ->%list_elem_of_singleton]%elem_of_app; [by apply Hmax|lia]. }
      destruct (xs ++ [(c + w)%Z]) eqn:Ex; [by destruct xs|]. eauto.
    + by destruct xs.
    + exists b, v. rewrite length_app in E. simpl in E. rewrite Hl in E. rewrite E. simpl.
      rewrite <- app_assoc in *. done.
Qed.

Lemma zip_add_sum cs weights : length cs = length weights ->
  sum_z (zip_with Z.add cs weights) = (sum_z cs + sum_z weights)%Z.
Proof.
  revert weights. induction cs as [|c cs IH]; intros [|w weights] H; try done. simpl.
  rewrite IH by (by injection H). lia.
Qed.

Lemma sum_z_insert i c c' l : l !! i = Some c -> sum_z (<[i := c']> l) = (sum_z l - c + c')%Z.
Proof.
  revert i. induction l as [|x l IH]; intros [|i] H; simpl in *; try done.
  - injection H as ->. lia.
  - rewrite (IH i) by done. lia.
Qed.

Lemma sum_z_le_max l v : (forall x, x ∈ l -> (x <= v)%Z) -> (sum_z l <= Z.of_nat (length l) * v)%Z.
Proof.
  induction l as [|x l IH]; intros H; [done|]. pose proof (H x (list_elem_of_here x l)).
  assert (sum_z l <= Z.of_nat (length l) * v)%Z by (apply IH; intros; apply H; by right).
  rewrite length_cons, Nat2Z.inj_succ. simpl in *. lia.
Qed.

Lemma sum_z_replicate n : sum_z (replicate n 0%Z) = 0%Z.
Proof. induction n; simpl; lia. Qed.

Lemma sum_z_pos l : (forall w, w ∈ l -> (0 < w)%Z) -> l <> [] -> (0 < sum_z l)%Z.
Proof.
  induction l as [|w l IH]; [done|]. intros Hp _. simpl.
  assert (0 < w)%Z by (apply Hp; by left). destruct l as [|w' l]; [simpl; lia|].
  assert (0 < sum_z (w' :: l))%Z; [|lia]. apply IH; [|done]. intros; apply Hp; by right.
Qed.

Lemma sum_z_nonneg l : (forall j x, l !! j = Some x -> (0 <= x)%Z) -> (0 <= sum_z l)%Z.
Proof.
  induction l as [|z l IH]; intros H; simpl; [lia|]. pose proof (H 0%nat z eq_refl).
  assert (0 <= sum_z l)%Z; [|lia]. apply IH. intros j x. apply (H (S j)).
Qed.

Lemma sum_z_zero l : (forall j x, l !! j = Some x -> (0 <= x)%Z) -> sum_z l = 0%Z ->
  forall j x, l !! j = Some x -> x = 0%Z.
Proof.
  induction l as [|y l IH]; intros Hn Hs j x Hj; [done|]. simpl in Hs.
  pose proof (sum_z_nonneg l (fun j x => Hn (S j) x)). pose proof (Hn 0%nat y eq_refl).
  destruct j as [|j]; simpl in Hj; [injection Hj as ->; lia|].
  apply (IH (fun j x => Hn (S j) x)) with (j := j); [lia|done].
Qed.

Lemma turns_nonneg total m w l : (0 < total -> - total < m * total * w - total * l ->
  0 <= m * total * w - total * l)%Z.
Proof.
  replace (m * total * w - total * l)%Z with (total * (m * w - l))%Z by ring.
  generalize (m * w - l)%Z as k. intros k Ht H. destruct (Z.le_gt_cases 0 k); nia.
Qed.

Section wrr_cycle.
Context (weights : list Z) (Hpos : forall w, w ∈ weights -> (0 < w)%Z) (Hne : weights <> []).

Lemma weights_sum_pos : (0 < sum_z weights)%Z.
Proof. by apply sum_z_pos. Qed.

(** What holds of the counters between picks. *)
Record wrr_ok (current : list Z) : Prop := {
  wok_length : length current = length weights;
  wok_sum : sum_z current = 0%Z;
  wok_above c : c ∈ current -> (- sum_z weights < c)%Z;
}.

Lemma wrr_zero_ok : wrr_ok (replicate (length weights) 0%Z).
Proof.
  split; [by rewrite length_replicate|apply sum_z_replicate|].
  intros c [-> _]%elem_of_replicate. pose proof weights_sum_pos. lia.
Qed.

(** A pick adds every weight and takes the total from the winner. *)
Lemma wrr_round_spec current :
  wrr_ok current ->
  exists b current', wrr_round weights current = Some (b, current') /\ (b < length weights)%nat /\
    wrr_ok current' /\
    forall i c w, current !! i = Some c -> weights !! i = Some w ->
      current' !! i = Some (c + w - (if decide (i = b) then sum_z weights else 0))%Z.
Proof.
  intros [Hl Hs Ha].
  destruct (wrr_scan_spec weights [] current 0 Hl eq_refl) as (b & v & E & Hv & Hm).
  { simpl. intros ->. by destruct weights. }
  simpl in *. unfold wrr_round. rewrite E, Hv.
  set (xs := zip_with Z.add current weights) in *.
  assert (b < length weights)%nat as Hb.
  { apply lookup_lt_Some in Hv. unfold xs in Hv. rewrite length_zip_with in Hv. lia. }
  assert (sum_z xs = sum_z weights) as Hsum by (unfold xs; rewrite zip_add_sum, Hs by done; lia).
  pose proof weights_sum_pos as Htot.
  assert (0 < v)%Z as Hvpos.
  { pose proof (sum_z_le_max xs v Hm). destruct (Z.le_gt_cases v 0); [|done].
    assert (Z.of_nat (length xs) * v <= 0)%Z by nia. lia. }
  exists b, (<[b := (v - sum_z weights)%Z]> xs). split; [done|]. split; [done|]. split.
  - split.
    + rewrite length_insert. unfold xs. rewrite length_zip_with. lia.
    + rewrite (sum_z_insert _ v) by done. lia.
    + intros c Hc. apply list_elem_of_lookup in Hc as [i Hi].
      apply list_lookup_insert_Some in Hi as [(<- & <- & _)|(Hne' & Hi)]; [lia|].
      unfold xs in Hi. apply lookup_zip_with_Some in Hi as (c0 & w & -> & Hc0 & Hw).
      pose proof (Ha c0 (list_elem_of_lookup_2 _ _ _ Hc0)).
      pose proof (Hpos w (list_elem_of_lookup_2 _ _ _ Hw)). lia.
  - intros i c w Hc Hw.
    assert (xs !! i = Some (c + w)%Z) as Hx by (apply lookup_zip_with_Some; eauto).
    destruct (decide (i = b)) as [-> | Hne'].
    + rewrite list_lookup_insert_eq by (by eapply lookup_lt_Some). f_equal. congruence || (simplify_eq; lia).
    + rewrite list_lookup_insert_ne by done. rewrite Hx. f_equal. lia.
Qed.
End wrr_cycle.

(** ** Rotations of a registry

    A sequence of picks: the group, the tier's priority, the fingerprint of the
    group's configuration, and the subset of the tier the request can use. *)

Record pick_call := mkPick {
  pc_key : TierKey;
  pc_config : N;
  pc_tier : list RoutingTarget;
}.

Definition pick_exec (c : pick_call) (r : RoutingRegistry) : option (nat * RoutingRegistry) :=
  wrr_pick (pc_key c).1 (pc_key c).2 (pc_config c) (pc_tier c) r.

(** What the registry goes through: picks, and the sweeps that drop what the
    snapshot no longer configures. *)
Inductive registry_call := Pick (c : pick_call) | Sweep (is_configured : string -> bool).
Inductive registry_event := Picked (c : pick_call) (landed : nat) | Swept (is_configured : string -> bool).

Definition call_of (e : registry_event) : registry_call :=
  match e with Picked c _ => Pick c | Swept f => Sweep f end.

Definition registry_exec (call : registry_call) (r : RoutingRegistry) : option (registry_event * RoutingRegistry) :=
  match call with
  | Pick c => '(b, r) ← pick_exec c r; Some (Picked c b, r)
  | Sweep f => Some (Swept f, registry_retain_configured f r)
  end.

Fixpoint registry_run (calls : list registry_call) (r : RoutingRegistry)
    : option (list registry_event * RoutingRegistry) :=
  match calls with
  | [] => Some ([], r)
  | c :: calls =>
      '(e, r) ← registry_exec c r;
      '(trace, r) ← registry_run calls r;
      Some (e :: trace, r)
  end.

(** Two picks share a rotation. *)
Definition same_rotation (c c' : pick_call) : Prop :=
  pc_key c = pc_key c' /\ pc_config c = pc_config c' /\
  tier_fingerprint (pc_tier c) = tier_fingerprint (pc_tier c').
#[export] Instance same_rotation_dec c c' : Decision (same_rotation c c').
Proof. unfold same_rotation. apply _. Defined.

(** A pick of the same group and tier under another configuration, which starts
    [c]'s rotation afresh. *)
Definition reconfigures (c c' : pick_call) : Prop := pc_key c = pc_key c' /\ pc_config c <> pc_config c'.
#[export] Instance reconfigures_dec c c' : Decision (reconfigures c c').
Proof. unfold reconfigures. apply _. Defined.

(** The targets [c]'s rotation went to, since the configuration last changed and
    the group was last swept away. *)
Definition turn (c : pick_call) (turns : list nat) (e : registry_event) : list nat :=
  match e with
  | Picked c' b =>
      if decide (same_rotation c c') then turns ++ [b]
      else if decide (reconfigures c c') then [] else turns
  | Swept f => if f (strip_partial (pc_key c).1) then turns else []
  end.
Definition turns (c : pick_call) (trace : list registry_event) : list nat := foldl (turn c) [] trace.
Definition landed_on (i : nat) (turns : list nat) : nat := length (filter (fun b => b = i) turns).

Definition rotation_start (c : pick_call) : list Z := replicate (length (wrr_weights (pc_tier c))) 0%Z.
Definition rotation_of (c : pick_call) (r : RoutingRegistry) : list Z :=
  match wrr r !! pc_key c with
  | Some st =>
      if wrr_fingerprint st =? pc_config c
      then default (rotation_start c) (rotations st !! tier_fingerprint (pc_tier c)) else rotation_start c
  | None => rotation_start c
  end.

Lemma wrr_weights_pos tier w : w ∈ wrr_weights tier -> (0 < w)%Z.
Proof. unfold wrr_weights. rewrite list_elem_of_fmap. intros (t & -> & _). lia. Qed.

Lemma wrr_weights_nil tier : tier <> [] -> wrr_weights tier <> [].
Proof. by destruct tier. Qed.

(** A pick moves its own rotation on, starts afresh those of its tier's other
    configurations, and leaves every other one alone. *)
Lemma pick_exec_spec c r b cur :
  wrr_round (wrr_weights (pc_tier c)) (rotation_of c r) = Some (b, cur) ->
  exists r', pick_exec c r = Some (b, r') /\
    forall c', rotation_of c' r' =
      if decide (same_rotation c' c) then cur
      else if decide (reconfigures c' c) then rotation_start c' else rotation_of c' r.
Proof.
  intros Hround. unfold pick_exec, wrr_pick. cbv zeta. destruct c as [[vn prio] cfg tier]. simpl in *.
  set (c := mkPick (vn, prio) cfg tier) in *.
  set (st := if wrr_fingerprint (default (mkWrr cfg ∅) (wrr r !! (vn, prio))) =? cfg
             then default (mkWrr cfg ∅) (wrr r !! (vn, prio)) else mkWrr cfg ∅).
  assert (wrr_fingerprint st = cfg) as Hfp by (unfold st; destruct (N.eqb_spec (wrr_fingerprint (default (mkWrr cfg ∅) (wrr r !! (vn, prio)))) cfg); done).
  assert (forall c', pc_key c' = (vn, prio) -> pc_config c' = cfg ->
    rotation_of c' r = default (rotation_start c') (rotations st !! tier_fingerprint (pc_tier c'))) as Hrot.
  { intros c' Hk Hc. unfold rotation_of. rewrite Hk, Hc. unfold st.
    destruct (wrr r !! (vn, prio)) as [s|]; simpl; [by destruct (_ =? _)|].
    by rewrite N.eqb_refl. }
  pose proof (Hrot c eq_refl eq_refl) as Hrc. unfold rotation_start in Hrc. unfold c in Hrc at 2 3. simpl in Hrc.
  rewrite <- Hrc, Hround. eexists. split; [done|].
  intros c'. unfold rotation_of at 1. simpl.
  destruct (decide (pc_key c' = (vn, prio))) as [Hk|Hk].
  - rewrite Hk, lookup_insert_eq. simpl. rewrite Hfp. unfold same_rotation, reconfigures, c. simpl.
    destruct (N.eqb_spec cfg (pc_config c')) as [Hc|Hc].
    + rewrite (decide_False (P := _ /\ pc_config c' <> cfg)) by naive_solver.
      case_decide as Hs; [by destruct Hs as (_ & _ & ->); rewrite lookup_insert_eq|].
      rewrite lookup_insert_ne by (intros E; by apply Hs). symmetry. by apply Hrot.
    + rewrite decide_False by naive_solver. by rewrite decide_True by naive_solver.
  - rewrite lookup_insert_ne by done. unfold same_rotation, reconfigures, c. simpl.
    by rewrite !decide_False by naive_solver.
Qed.

Lemma sweep_rotation f c r :
  rotation_of c (registry_retain_configured f r) =
  if f (strip_partial (pc_key c).1) then rotation_of c r else rotation_start c.
Proof.
  unfold rotation_of, registry_retain_configured. cbn [wrr].
  destruct (f (strip_partial (pc_key c).1)) eqn:E.
  - destruct (wrr r !! pc_key c) as [st|] eqn:El.
    + by rewrite (map_lookup_filter_Some_2 _ _ _ st).
    + by rewrite (map_lookup_filter_None_2) by (by left).
  - rewrite map_lookup_filter_None_2; [done|]. right. intros st _. by rewrite E.
Qed.

Section rotations.
(** The calls of a process, whose tiers are not empty, and in which tiers of
    different weights do not collide on their 64-bit fingerprints. *)
Context (calls : list registry_call).
Context (nonempty : forall c, Pick c ∈ calls -> pc_tier c <> []).
Context (no_collision : forall c c', Pick c ∈ calls -> Pick c' ∈ calls -> same_rotation c c' ->
  wrr_weights (pc_tier c) = wrr_weights (pc_tier c')).

(** A rotation between picks: its counters tell where its turns went. *)
Record rotation_ok (c : pick_call) (went : list nat) (current : list Z) : Prop := {
  rok_ok : wrr_ok (wrr_weights (pc_tier c)) current;
  rok_exact i w : wrr_weights (pc_tier c) !! i = Some w ->
    current !! i = Some (Z.of_nat (length went) * w
                         - sum_z (wrr_weights (pc_tier c)) * Z.of_nat (landed_on i went))%Z;
}.

Definition rotations_ok (trace : list registry_event) (r : RoutingRegistry) : Prop :=
  forall c, Pick c ∈ calls -> rotation_ok c (turns c trace) (rotation_of c r).

Lemma rotation_start_ok c : Pick c ∈ calls -> rotation_ok c [] (rotation_start c).
Proof.
  intros Hc. split.
  - apply wrr_zero_ok; [apply wrr_weights_pos|by apply wrr_weights_nil, nonempty].
  - intros i w Hw. unfold rotation_start. rewrite lookup_replicate_2 by (by eapply lookup_lt_Some).
    unfold landed_on. simpl. f_equal. lia.
Qed.

Lemma rotations_new_ok : rotations_ok [] registry_new.
Proof. intros c Hc. unfold rotation_of. simpl. rewrite lookup_empty. by apply rotation_start_ok. Qed.

(** One more turn. *)
Lemma rotation_round_ok c went current :
  Pick c ∈ calls -> rotation_ok c went current ->
  exists b current', wrr_round (wrr_weights (pc_tier c)) current = Some (b, current') /\
    rotation_ok c (went ++ [b]) current'.
Proof.
  intros Hc [Hok Hex].
  destruct (wrr_round_spec _ (wrr_weights_pos (pc_tier c)) (wrr_weights_nil _ (nonempty _ Hc)) _ Hok)
    as (b & cur & Hr & _ & Hcur & Hstep).
  exists b, cur. split; [done|]. split; [done|]. intros i w Hw. rewrite (Hstep _ _ _ (Hex i w Hw) Hw). f_equal.
  unfold landed_on. rewrite filter_app, !length_app, filter_cons, filter_nil.
  destruct (decide (i = b)) as [-> | Hne].
  - rewrite decide_True by done. simpl. lia.
  - rewrite decide_False by congruence. simpl. lia.
Qed.

Lemma rotation_ok_shared c c' went current :
  Pick c ∈ calls -> Pick c' ∈ calls -> same_rotation c c' -> rotation_ok c went current -> rotation_ok c' went current.
Proof. intros Hc Hc' Hs [H1 H2]. rewrite (no_collision c c') in H1, H2 by done. by split. Qed.

Lemma same_rotation_of c c' r :
  Pick c ∈ calls -> Pick c' ∈ calls -> same_rotation c c' -> rotation_of c r = rotation_of c' r.
Proof.
  intros Hc Hc' Hs. unfold rotation_of, rotation_start. rewrite (no_collision c c') by done.
  destruct Hs as (Hk & Hg & Hf). by rewrite Hk, Hg, Hf.
Qed.

Lemma same_rotation_turns c c' trace : same_rotation c c' -> turns c trace = turns c' trace.
Proof.
  intros (Hk & Hg & Hf). unfold turns. generalize (@nil nat). induction trace as [|e trace IH]; intros acc; [done|].
  simpl. rewrite IH. f_equal. unfold turn. destruct e as [d b|f]; [|by rewrite Hk].
  assert (same_rotation c d <-> same_rotation c' d) as Hs by (unfold same_rotation; by rewrite Hk, Hg, Hf).
  assert (reconfigures c d <-> reconfigures c' d) as Hr by (unfold reconfigures; by rewrite Hk, Hg).
  rewrite (decide_ext _ _ _ _ Hs). by rewrite (decide_ext _ _ _ _ Hr).
Qed.

Lemma registry_exec_ok call trace r :
  call ∈ calls -> rotations_ok trace r ->
  exists e r', registry_exec call r = Some (e, r') /\ call_of e = call /\ rotations_ok (trace ++ [e]) r'.
Proof.
  intros Hin Hok. destruct call as [c|f].
  - destruct (rotation_round_ok c _ _ Hin (Hok c Hin)) as (b & cur & Hr & Hcur).
    destruct (pick_exec_spec c r b cur Hr) as (r' & E & Hrot).
    exists (Picked c b), r'. simpl. rewrite E. split_and!; [done..|]. intros c' Hc'.
    unfold turns. rewrite foldl_snoc. fold (turns c' trace). rewrite Hrot. cbn [turn].
    case_decide as Hs; [|case_decide; [by apply rotation_start_ok|by apply Hok]].
    rewrite (same_rotation_turns c' c) by done. eapply (rotation_ok_shared c c'); [done..| |done].
    unfold same_rotation in *. naive_solver.
  - exists (Swept f), (registry_retain_configured f r). split_and!; [done..|]. intros c' Hc'.
    unfold turns. rewrite foldl_snoc, sweep_rotation. cbn [turn].
    case_match; [by apply Hok|by apply rotation_start_ok].
Qed.

Lemma registry_run_ok todo trace r :
  (forall call, call ∈ todo -> call ∈ calls) -> rotations_ok trace r ->
  exists out r', registry_run todo r = Some (out, r') /\ call_of <$> out = todo /\ rotations_ok (trace ++ out) r'.
Proof.
  revert trace r. induction todo as [|call todo IH]; intros trace r Hin Hok.
  { exists [], r. by rewrite app_nil_r. }
  destruct (registry_exec_ok call trace r) as (e & r1 & E & He & Hok1); [apply Hin; by left|done|].
  destruct (IH (trace ++ [e]) r1) as (out & r' & E' & Hout & Hok'); [intros; apply Hin; by right|done|].
  exists (e :: out), r'. cbn [registry_run]. rewrite E. cbn. rewrite E'. split; [done|].
  split; [by rewrite He, Hout|]. by rewrite <- app_assoc in Hok'.
Qed.

(** C39. Weighted round-robin is exactly proportional, per caller subset and
    across reloads. In any interleaving of requests over groups, tiers and
    request-filtered subsets of a tier, of configuration changes and of the sweeps
    that drop unconfigured groups, no pick panics, and for each subset, counting
    from when its group's configuration last changed or the group was last swept
    away: after a multiple of the total weight of picks every target was picked
    exactly its weight that many times, and at no point has a target been picked a
    whole turn more than its share. This is for tiers that are not empty, which the
    caller sees to, and as long as no two tiers of one group, priority and
    configuration with different weights have the same 64-bit fingerprint. *)
Theorem wrr_proportional :
  exists trace r', registry_run calls registry_new = Some (trace, r') /\ call_of <$> trace = calls /\
    forall c i w, Pick c ∈ calls -> wrr_weights (pc_tier c) !! i = Some w ->
      let total := sum_z (wrr_weights (pc_tier c)) in
      let n := Z.of_nat (length (turns c trace)) in
      let landed := Z.of_nat (landed_on i (turns c trace)) in
      (total * landed < n * w + total)%Z /\
      forall m, n = (m * total)%Z -> landed = (m * w)%Z.
Proof.
  destruct (registry_run_ok calls [] registry_new) as (trace & r' & E & Hfst & Hok); [done|apply rotations_new_ok|].
  exists trace, r'. split; [done|]. split; [done|]. intros c i w Hc Hw total n landed.
  destruct (Hok c Hc) as [Hwrr Hex]. pose proof (Hex i w Hw) as Hi. simpl in Hi. fold total n landed in Hi.
  assert (0 < total)%Z as Htot
    by (apply sum_z_pos; [apply wrr_weights_pos|by apply wrr_weights_nil, nonempty]).
  split.
  - pose proof (wok_above _ _ Hwrr _ (list_elem_of_lookup_2 _ _ _ Hi)). fold total in H. lia.
  - intros m Hm. assert (forall j x, rotation_of c r' !! j = Some x -> (0 <= x)%Z) as Hnn.
    { intros j x Hj. assert (exists wj, wrr_weights (pc_tier c) !! j = Some wj) as [wj Hwj].
      { apply lookup_lt_is_Some_2. rewrite <- (wok_length _ _ Hwrr). by eapply lookup_lt_Some. }
      pose proof (Hex j wj Hwj) as Hj'. simpl in Hj'. fold total n in Hj'. rewrite Hj in Hj'. injection Hj' as ->.
      pose proof (wok_above _ _ Hwrr _ (list_elem_of_lookup_2 _ _ _ Hj)) as Ha. fold total in Ha.
      rewrite Hm in Ha |- *. apply (turns_nonneg _ _ _ _ Htot Ha). }
    pose proof (wok_sum _ _ Hwrr) as Hsum.
    pose proof (sum_z_zero _ Hnn Hsum i _ Hi) as H0. rewrite Hm in H0. nia.
Qed.
End rotations.

(** ** The consistent-hash ring *)

Lemma point_leb_total p q : point_leb p q = true \/ point_leb q p = true.
Proof. unfold point_leb. destruct p, q; simpl. lia. Qed.
Lemma point_leb_trans p q r : point_leb p q = true -> point_leb q r = true -> point_leb p r = true.
Proof. unfold point_leb. destruct p, q, r; simpl. lia. Qed.
Lemma point_leb_anti p q : point_leb p q = true -> point_leb q p = true -> p = q.
Proof. unfold point_leb. destruct p, q; simpl. intros. f_equal; lia. Qed.

(** The circle read from the key's point on. *)
Definition rotated (key : N) (pts : list (N * nat)) : list (N * nat) :=
  filter (fun p => key <= p.1) pts ++ filter (fun p => p.1 < key) pts.

Lemma partition_split key pts :
  sorted point_leb pts ->
  let start := partition_point (fun '(p, _) => p <? key) pts in
  take start pts = filter (fun p => p.1 < key) pts /\ drop start pts = filter (fun p => key <= p.1) pts.
Proof.
  induction 1 as [|[p i] pts Hx Hs IH]; [done|]. simpl. destruct (N.ltb_spec p key) as [Hlt|Hge].
  - rewrite filter_cons_True, filter_cons_False by (simpl; lia). simpl. destruct IH as [-> ->]. done.
  - assert (forall q, q ∈ (p, i) :: pts -> key <= q.1) as Hall.
    { intros q [-> | Hq]%elem_of_cons; [done|]. specialize (Hx q Hq). unfold point_leb in Hx. simpl in Hx. lia. }
    simpl. rewrite filter_none, filter_all; [done|exact Hall|].
    intros q Hq. specialize (Hall q Hq). lia.
Qed.

(** The order in which the indices of [l] first appear, after those of [acc]. *)
Fixpoint firsts (l acc : list nat) : list nat :=
  match l with
  | [] => acc
  | x :: l => if decide (x ∈ acc) then firsts l acc else firsts l (acc ++ [x])
  end.

Lemma firsts_elem l acc x : x ∈ firsts l acc <-> x ∈ acc \/ x ∈ l.
Proof.
  revert acc. induction l as [|y l IH]; intros acc; simpl; [set_solver|].
  case_decide; rewrite IH; set_solver.
Qed.

Lemma firsts_NoDup l acc : NoDup acc -> NoDup (firsts l acc).
Proof.
  revert acc. induction l as [|y l IH]; intros acc H; simpl; [done|].
  case_decide; apply IH; [done|]. apply NoDup_app. split; [done|]. split; [set_solver|apply NoDup_singleton].
Qed.

Lemma firsts_done l acc : (forall x, x ∈ l -> x ∈ acc) -> firsts l acc = acc.
Proof.
  induction l as [|y l IH]; intros H; simpl; [done|]. rewrite decide_True by (apply H; by left).
  apply IH. intros; apply H; by right.
Qed.

Lemma firsts_filter (P : nat -> Prop) `{!forall x, Decision (P x)} l acc :
  firsts (filter P l) (filter P acc) = filter P (firsts l acc).
Proof.
  revert acc. induction l as [|y l IH]; intros acc; simpl; [done|]. rewrite filter_cons.
  destruct (decide (P y)) as [Hy|Hy]; simpl.
  - destruct (decide (y ∈ acc)) as [Hin|Hin].
    + rewrite decide_True; [apply IH|]. by apply list_elem_of_filter.
    + rewrite decide_False by (rewrite list_elem_of_filter; tauto). rewrite <- IH, filter_app.
      by rewrite filter_cons_True.
  - case_decide; [apply IH|]. rewrite <- IH, filter_app, filter_cons_False by done. by rewrite app_nil_r.
Qed.

Lemma firsts_fmap (f : nat -> nat) l acc :
  (forall x y, x ∈ l ++ acc -> y ∈ l ++ acc -> f x = f y -> x = y) ->
  firsts (f <$> l) (f <$> acc) = f <$> firsts l acc.
Proof.
  revert acc. induction l as [|x l IH]; intros acc H; [done|]. rewrite fmap_cons. cbn [firsts].
  assert (f x ∈ f <$> acc <-> x ∈ acc) as Hiff.
  { rewrite list_elem_of_fmap. split; [|eauto]. intros (y & Hy & Hin).
    rewrite (H x y); [done|set_solver..|done]. }
  destruct (decide (x ∈ acc)) as [Hin|Hin].
  - rewrite decide_True by tauto. apply IH. intros; apply H; set_solver.
  - rewrite decide_False by tauto. rewrite <- IH; [by rewrite fmap_app|].
    intros y z Hy Hz. apply H; set_solver.
Qed.

(** [n] distinct indices below [n] are all of them. *)
Lemma all_indices n o :
  NoDup o -> (forall i, i ∈ o -> (i < n)%nat) -> length o = n -> o ≡ₚ List.seq 0 n.
Proof.
  intros Hnd Hlt Hlen. apply submseteq_length_Permutation; [|rewrite length_seq; lia].
  apply NoDup_submseteq; [done|]. intros i Hi. apply list_elem_of_In, in_seq. specialize (Hlt i Hi). lia.
Qed.

Lemma ring_reads (pts : list (N * nat)) start n todo off :
  (forall p, p ∈ pts -> (p.2 < n)%nat) -> (0 < length pts)%nat ->
  exists l, mapM (fun o => snd <$> pts !! ((start + o) mod length pts)%nat) (List.seq off todo) = Some l /\
    forall x, x ∈ l -> (x < n)%nat.
Proof.
  intros Hpts Hne. revert off. induction todo as [|todo IH]; intros off; [exists []; set_solver|].
  assert (exists p, pts !! ((start + off) mod length pts)%nat = Some p) as [p Hp].
  { apply lookup_lt_is_Some_2. apply Nat.mod_upper_bound. lia. }
  destruct (IH (S off)) as (l & Hl & Hall). exists (p.2 :: l). cbn [List.seq mapM]. rewrite Hp. cbn.
  rewrite Hl. split; [done|]. pose proof (Hpts _ (list_elem_of_lookup_2 _ _ _ Hp)). set_solver.
Qed.

(** The walk of the ring visits the indices in the order they first appear. *)
Lemma ring_walk_spec pts start n todo off seen order :
  (forall p, p ∈ pts -> (p.2 < n)%nat) -> length seen = n -> NoDup order ->
  (forall i, i ∈ order -> (i < n)%nat) -> (0 < length pts)%nat -> (length order < n)%nat \/ n = 0%nat ->
  (forall i b, seen !! i = Some b -> (b = true <-> i ∈ order)) ->
  exists l, mapM (fun o => snd <$> pts !! ((start + o) mod length pts)%nat) (List.seq off todo) = Some l /\
  exists r, ring_walk pts start n todo off seen order = Some r /\
    match r with
    | inr o => o = firsts l order /\ length o = n
    | inl (seen', o) => o = firsts l order /\ length seen' = n /\
        forall i b, seen' !! i = Some b -> (b = true <-> i ∈ o)
    end.
Proof.
  intros Hpts. revert off seen order.
  induction todo as [|todo IH]; intros off seen order Hlen Hnd Hlt Hne Hsz Hseen.
  { exists []. split; [done|]. eexists. split; [done|]. done. }
  assert (exists p, pts !! ((start + off) mod length pts)%nat = Some p) as [[h idx] Hp].
  { apply lookup_lt_is_Some_2. apply Nat.mod_upper_bound. lia. }
  pose proof (Hpts _ (list_elem_of_lookup_2 _ _ _ Hp)) as Hidx. simpl in Hidx.
  assert (exists b, seen !! idx = Some b) as [b Hb] by (apply lookup_lt_is_Some_2; lia).
  cbn [List.seq mapM ring_walk]. rewrite Hp, Hb. cbn.
  assert (forall l, firsts (idx :: l) order = if b then firsts l order else firsts l (order ++ [idx])) as Hf.
  { intros l. simpl. destruct (Hseen _ _ Hb) as [H1 H2]. destruct b.
    - by rewrite decide_True by auto.
    - rewrite decide_False; [done|]. intros Hin. by specialize (H2 Hin). }
  destruct b.
  - destruct (IH (S off) seen order) as (l & Hl & r & Hr & Hres); [done..|].
    exists (idx :: l). rewrite Hl. split; [done|]. exists r. split; [done|]. by rewrite Hf.
  - assert (idx ∉ order) as Hnin by (intros Hin; by apply (Hseen _ _ Hb) in Hin).
    assert (NoDup (order ++ [idx])) as Hnd'.
    { apply NoDup_app. split; [done|]. split; [set_solver|apply NoDup_singleton]. }
    assert (forall i, i ∈ order ++ [idx] -> (i < n)%nat) as Hlt' by set_solver.
    assert (length order < n)%nat as Hsz' by lia.
    destruct (Nat.eqb_spec (length (order ++ [idx])) n) as [Hfull|Hmore].
    + destruct (ring_reads pts start n todo (S off) Hpts Hne) as (l & Hl & Hall).
      exists (idx :: l). rewrite Hl. split; [done|]. eexists. split; [done|]. rewrite Hf. split; [|done].
      symmetry. apply firsts_done. intros x Hx. specialize (Hall x Hx).
      rewrite (all_indices n) by done. apply list_elem_of_In, in_seq. lia.
    + destruct (IH (S off) (<[idx := true]> seen) (order ++ [idx])) as (l & Hl & r & Hr & Hres).
      * by rewrite length_insert.
      * done.
      * done.
      * done.
      * left. rewrite length_app in *. simpl in *. lia.
      * intros i b Hi. apply list_lookup_insert_Some in Hi as [(<- & <- & _)|(Hne' & Hi)]; [set_solver|].
        rewrite (Hseen _ _ Hi). set_solver.
      * exists (idx :: l). rewrite Hl. split; [done|]. exists r. split; [done|]. by rewrite Hf.
Qed.

(** The key's preference order, as a list expression. *)
Definition preference (pts : list (N * nat)) (key : N) (n : nat) : list nat :=
  let walked := firsts (snd <$> rotated key pts) [] in
  walked ++ filter (fun i => i ∉ walked) (List.seq 0 n).

Lemma mapM_pointwise {A B} (f : A -> option B) (k : list A) (l : list B) :
  length l = length k -> (forall i x, k !! i = Some x -> f x = l !! i) -> mapM f k = Some l.
Proof.
  revert l. induction k as [|x k IH]; intros [|y l] Hlen H; try done. cbn [mapM].
  rewrite (H 0%nat x) by done. cbn. rewrite (IH l); [done|by injection Hlen|].
  intros i z Hz. by apply (H (S i)).
Qed.

(** Reading a vector once around from [start]. *)
Lemma read_around {A B} (f : A -> B) (pts : list A) start :
  (start <= length pts)%nat ->
  mapM (fun o => f <$> pts !! ((start + o) mod length pts)%nat) (List.seq 0 (length pts))
  = Some (f <$> (drop start pts ++ take start pts)).
Proof.
  intros Hs. apply mapM_pointwise.
  - rewrite length_fmap, length_app, length_drop, length_take, length_seq. lia.
  - intros i x Hx. apply lookup_seq in Hx as [-> Hi]. rewrite list_lookup_fmap. f_equal. simpl.
    destruct (decide (start + i < length pts)%nat) as [Hlt|Hge].
    + rewrite lookup_app_l by (rewrite length_drop; lia). rewrite lookup_drop.
      by rewrite Nat.mod_small by lia.
    + rewrite lookup_app_r by (rewrite length_drop; lia).
      rewrite lookup_take_lt by (rewrite length_drop; lia). rewrite length_drop.
      f_equal. replace (start + i)%nat with ((start + i - length pts) + 1 * length pts)%nat by lia.
      rewrite Nat.Div0.mod_add, Nat.mod_small by lia. lia.
Qed.

Lemma filter_imap_pair (seen : list bool) (o : list nat) off :
  (forall i b, seen !! i = Some b -> (b = true <-> (off + i)%nat ∈ o)) ->
  (fun '(i, _) => i)
    <$> List.filter (fun '(_, present) => negb present) (imap (fun i b => ((off + i)%nat, b)) seen)
  = filter (fun i => i ∉ o) (List.seq off (length seen)).
Proof.
  revert off. induction seen as [|b seen IH]; intros off H; [done|].
  rewrite imap_cons, Nat.add_0_r. cbn [List.filter length List.seq]. rewrite filter_cons.
  assert (imap ((fun i b => ((off + i)%nat, b)) ∘ S) seen = imap (fun i b => ((S off + i)%nat, b)) seen) as ->.
  { apply imap_ext. intros i x _. simpl. f_equal. lia. }
  assert ((fun '(i, _) => i) <$> List.filter (fun '(_, present) => negb present)
      (imap (fun i b => ((S off + i)%nat, b)) seen) = filter (fun i => i ∉ o) (List.seq (S off) (length seen))) as IH'.
  { apply IH. intros i x Hi. rewrite (H (S i) x Hi). by rewrite Nat.add_succ_r. }
  specialize (H 0%nat b eq_refl). rewrite Nat.add_0_r in H. destruct b; cbn [negb].
  - rewrite decide_False by tauto. exact IH'.
  - rewrite decide_True by (intros Hin; by apply H in Hin). rewrite fmap_cons. by rewrite IH'.
Qed.

Lemma preference_order_spec fp pts key n :
  sorted point_leb pts -> (forall p, p ∈ pts -> (p.2 < n)%nat) ->
  preference_order (mkRing fp pts) key n = Some (preference pts key n).
Proof.
  intros Hs Hlt. unfold preference_order. cbn [points].
  assert (forall (o : list nat) (seen : list bool), (forall i b, seen !! i = Some b -> (b = true <-> i ∈ o)) ->
    (fun '(i, _) => i) <$> List.filter (fun '(_, present) => negb present) (imap pair seen)
    = filter (fun i => i ∉ o) (List.seq 0 (length seen))) as Hrest.
  { intros o seen H. rewrite <- filter_imap_pair by done. done. }
  assert (forall i b, replicate n false !! i = Some b -> (b = true <-> i ∈ [])) as H0.
  { intros i b [-> _]%lookup_replicate. set_solver. }
  destruct pts as [|p0 rest]; [unfold preference, rotated; rewrite !filter_nil; simpl; f_equal;
    by rewrite (Hrest []), length_replicate|].
  set (pts := p0 :: rest) in *. cbv zeta. set (start := partition_point _ pts).
  assert (start <= length pts)%nat as Hstart.
  { unfold start. clear. induction pts as [|[p i] pts IH]; simpl; [done|]. destruct (p <? key); lia. }
  destruct (partition_split key pts Hs) as [Ht Hd]. fold start in Ht, Hd.
  pose proof (read_around snd pts start Hstart) as Hl. rewrite Ht, Hd in Hl.
  destruct (ring_walk_spec pts start n (length pts) 0 (replicate n false) [])
    as (l & Hl' & r & Hr & Hres); [done|by rewrite length_replicate|constructor|set_solver|simpl; lia| |done|].
  { left. specialize (Hlt p0 (list_elem_of_here p0 rest)). simpl. lia. }
  rewrite Hl in Hl'. injection Hl' as <-. rewrite Hr. unfold preference. fold (rotated key pts) in *.
  destruct r as [[seen o]|o].
  - destruct Hres as (-> & Hlen & Hiff). f_equal. rewrite (Hrest _ _ Hiff), Hlen. done.
  - destruct Hres as [-> Hlen]. f_equal. rewrite filter_none; [by rewrite app_nil_r|].
    intros i Hi Hnin. apply Hnin. rewrite (all_indices n); [done| | |done].
    + apply firsts_NoDup. constructor.
    + intros j Hj. apply firsts_elem in Hj as [Hj|Hj]; [set_solver|].
      apply list_elem_of_fmap in Hj as (q & -> & Hq). apply Hlt. unfold rotated in Hq.
      apply elem_of_app in Hq as [Hq|Hq]; by apply list_elem_of_filter in Hq as [_ Hq].
Qed.

(** ** Removing targets from a ring *)

(** The points of targets under arbitrary labels. *)
Definition raw_points (scale : RingScale) (l : list (nat * RoutingTarget)) : list (N * nat) :=
  concat ((fun '(idx, t) => (fun h => (h, idx)) <$> target_points scale t) <$> l).

Definition labelled_points (scale : RingScale) (l : list (nat * RoutingTarget)) : list (N * nat) :=
  stable_sort point_leb (raw_points scale l).

Lemma ring_build_points fp T scale : points (ring_build fp T scale) = labelled_points scale (imap pair T).
Proof. unfold ring_build, labelled_points, raw_points. simpl. by rewrite fmap_imap. Qed.

Lemma labelled_sorted scale l : sorted point_leb (labelled_points scale l).
Proof. apply stable_sort_sorted; [apply point_leb_total|apply point_leb_trans]. Qed.

Lemma labelled_elem scale l p :
  p ∈ labelled_points scale l -> exists t, (p.2, t) ∈ l.
Proof.
  unfold labelled_points. rewrite stable_sort_perm. unfold raw_points.
  induction l as [|[i t] l IH]; simpl; [set_solver|].
  intros [Hp|Hp]%elem_of_app; [|destruct (IH Hp) as [t' Ht]; exists t'; by right].
  apply list_elem_of_fmap in Hp as (h & -> & _). exists t. by left.
Qed.

Lemma target_points_nonempty scale t : exists h, h ∈ target_points scale t.
Proof.
  unfold target_points. eexists. apply list_elem_of_fmap. exists 0%nat. split; [done|].
  apply list_elem_of_In, in_seq. assert (1 <= units scale (weight_or_default t)) by
    (unfold units; destruct (_ <? _); lia). unfold RING_POINTS_PER_UNIT. lia.
Qed.

Lemma labelled_has scale l i t : (i, t) ∈ l -> exists h, (h, i) ∈ labelled_points scale l.
Proof.
  intros Hin. destruct (target_points_nonempty scale t) as [h Hh]. exists h.
  unfold labelled_points. rewrite stable_sort_perm. unfold raw_points.
  induction l as [|[j u] l IH]; [set_solver|]. simpl. apply elem_of_app.
  apply elem_of_cons in Hin as [[= <- <-]|Hin]; [left|right; by apply IH].
  apply list_elem_of_fmap. eauto.
Qed.

(** Dropping labels drops their points and leaves the circle as it was. *)
Lemma labelled_filter scale (P : nat -> Prop) (Q : RoutingTarget -> Prop)
    `{!forall x, Decision (P x), !forall x, Decision (Q x)} l :
  (forall i t, (i, t) ∈ l -> P i <-> Q t) ->
  labelled_points scale (filter (fun it => Q it.2) l) = filter (fun p => P p.2) (labelled_points scale l).
Proof.
  intros Hiff. unfold labelled_points. apply (sorted_unique point_leb point_leb_total).
  - apply point_leb_anti.
  - apply stable_sort_sorted; [apply point_leb_total|apply point_leb_trans].
  - apply sorted_filter, stable_sort_sorted; [apply point_leb_total|apply point_leb_trans].
  - rewrite !stable_sort_perm. unfold raw_points. induction l as [|[i t] l IH]; [done|].
    rewrite fmap_cons. cbn [concat]. rewrite filter_app, filter_cons. cbn [snd].
    rewrite <- IH by (intros; apply Hiff; by right).
    specialize (Hiff i t (list_elem_of_here _ _)). destruct (decide (Q t)) as [Hq|Hq].
    + rewrite fmap_cons. cbn [concat]. rewrite (filter_all (fun p => P p.2)); [done|].
      intros p (h & -> & _)%list_elem_of_fmap. simpl. tauto.
    + rewrite (filter_none (fun p => P p.2)); [done|].
      intros p (h & -> & _)%list_elem_of_fmap. simpl. tauto.
Qed.

(** Renaming labels in order renames the points' labels. *)
Lemma labelled_rename scale (f : nat -> nat) l :
  (forall i j t u, (i, t) ∈ l -> (j, u) ∈ l -> (f i <= f j <-> i <= j)%nat) ->
  labelled_points scale ((fun it => (f it.1, it.2)) <$> l)
  = (fun p => (p.1, f p.2)) <$> labelled_points scale l.
Proof.
  intros H. unfold labelled_points.
  assert (raw_points scale ((fun it => (f it.1, it.2)) <$> l)
    = (fun p => (p.1, f p.2)) <$> raw_points scale l) as ->.
  { clear H. unfold raw_points. induction l as [|[i t] l IH]; [done|]. rewrite !fmap_cons. cbn [concat].
    rewrite IH, fmap_app. f_equal. cbn [fst snd]. by rewrite <- list_fmap_compose. }
  apply stable_sort_fmap. intros [h i] [h' j] Hi Hj. unfold point_leb. cbn [fst snd].
  rewrite <- stable_sort_perm in Hi, Hj.
  apply (labelled_elem scale) in Hi as [t Ht], Hj as [u Hu]. specialize (H i j t u Ht Hu). simpl in *.
  f_equal. f_equal. destruct (Nat.leb_spec i j), (Nat.leb_spec (f i) (f j)); try done; lia.
Qed.

(** The targets of a ring in a key's order. *)
Definition ring_order (fp : N) (tier : list RoutingTarget) (scale : RingScale) (key : N)
    : option (list RoutingTarget) :=
  idxs ← preference_order (ring_build fp tier scale) key (length tier);
  mapM (fun idx => tier !! idx) idxs.

(** Every target has a point, so the walk alone is the order. *)
Definition label_order (scale : RingScale) (l : list (nat * RoutingTarget)) (key : N) : list nat :=
  firsts (snd <$> rotated key (labelled_points scale l)) [].

Lemma label_order_elem scale l key i :
  i ∈ label_order scale l key <-> exists t, (i, t) ∈ l.
Proof.
  unfold label_order. rewrite firsts_elem. split.
  - intros [Hi|Hi]; [set_solver|]. apply list_elem_of_fmap in Hi as (p & -> & Hp).
    unfold rotated in Hp. apply (labelled_elem scale).
    apply elem_of_app in Hp as [Hp|Hp]; by apply list_elem_of_filter in Hp as [_ Hp].
  - intros [t Ht]. right. apply (labelled_has scale) in Ht as [h Hh].
    apply list_elem_of_fmap. exists (h, i). split; [done|]. unfold rotated. apply elem_of_app.
    destruct (N.le_gt_cases key h); [left|right]; by apply list_elem_of_filter.
Qed.

Lemma imap_pair_elem (T : list RoutingTarget) i t : (i, t) ∈ imap pair T <-> T !! i = Some t.
Proof.
  rewrite list_elem_of_lookup. setoid_rewrite list_lookup_imap. split.
  - intros (j & Hj). destruct (T !! j) as [u|] eqn:E; [|done]. simpl in Hj. injection Hj as -> ->. done.
  - intros H. exists i. by rewrite H.
Qed.

Lemma ring_order_labels fp T scale key :
  ring_order fp T scale key = mapM (fun idx => T !! idx) (label_order scale (imap pair T) key) /\
  label_order scale (imap pair T) key ≡ₚ List.seq 0 (length T).
Proof.
  assert (label_order scale (imap pair T) key ≡ₚ List.seq 0 (length T)) as Hp.
  { apply NoDup_Permutation; [apply firsts_NoDup; constructor|apply NoDup_seq|]. intros i.
    rewrite label_order_elem. setoid_rewrite imap_pair_elem. rewrite list_elem_of_In, in_seq.
    split; [intros [t Ht]; apply lookup_lt_Some in Ht; lia|intros; apply lookup_lt_is_Some_2; lia]. }
  split; [|done]. unfold ring_order.
  destruct (ring_build fp T scale) as [fp' pts] eqn:E.
  assert (pts = labelled_points scale (imap pair T)) as -> by
    (rewrite <- (ring_build_points fp); by rewrite E).
  rewrite preference_order_spec; [|apply labelled_sorted|].
  - cbn. unfold preference. fold (label_order scale (imap pair T) key).
    rewrite filter_none; [by rewrite app_nil_r|]. intros i Hi Hn. apply Hn. by rewrite Hp.
  - intros p Hpt. apply (labelled_elem scale) in Hpt as [t Ht]. apply imap_pair_elem in Ht.
    by eapply lookup_lt_Some.
Qed.

(** Strictly increasing labels. *)
Definition increasing (K : list nat) : Prop :=
  forall a b x y, K !! a = Some x -> K !! b = Some y -> (x <= y <-> a <= b)%nat.

Lemma filter_seq_increasing (P : nat -> Prop) `{!forall x, Decision (P x)} o n :
  increasing (filter P (List.seq o n)).
Proof.
  assert (forall a b x y, filter P (List.seq o n) !! a = Some x -> filter P (List.seq o n) !! b = Some y ->
    (a < b)%nat -> (x < y)%nat) as Hlt.
  { revert o. induction n as [|n IH]; intros o a b x y Ha Hb Hab; [done|].
    cbn [List.seq] in Ha, Hb. rewrite filter_cons in Ha, Hb. case_decide; [|by eapply IH].
    destruct b as [|b]; [lia|]. destruct a as [|a]; simpl in Ha, Hb.
    - injection Ha as <-. apply list_elem_of_lookup_2 in Hb. apply list_elem_of_filter in Hb as [_ Hb].
      apply list_elem_of_In, in_seq in Hb. lia.
    - eapply (IH (S o) a b); [done|done|lia]. }
  intros a b x y Ha Hb. split; intros Hle; destruct (Nat.lt_trichotomy a b) as [?|[->|?]].
  - lia.
  - lia.
  - specialize (Hlt b a y x Hb Ha). lia.
  - specialize (Hlt a b x y Ha Hb). lia.
  - simplify_eq. lia.
  - lia.
Qed.

Lemma rotated_fmap key (f : nat -> nat) pts :
  rotated key ((fun p => (p.1, f p.2)) <$> pts) = (fun p => (p.1, f p.2)) <$> rotated key pts.
Proof.
  unfold rotated. rewrite fmap_app, !filter_fmap. done.
Qed.

Lemma rotated_filter key (P : nat -> Prop) `{!forall x, Decision (P x)} pts :
  rotated key (filter (fun p => P p.2) pts) = filter (fun p => P p.2) (rotated key pts).
Proof.
  unfold rotated. rewrite filter_app, !list_filter_filter.
  f_equal; apply list_filter_iff; tauto.
Qed.

Lemma label_order_filter scale (P : nat -> Prop) (Q : RoutingTarget -> Prop)
    `{!forall x, Decision (P x), !forall x, Decision (Q x)} l key :
  (forall i t, (i, t) ∈ l -> P i <-> Q t) ->
  label_order scale (filter (fun it => Q it.2) l) key = filter P (label_order scale l key).
Proof.
  intros Hiff. unfold label_order. rewrite (labelled_filter scale P Q) by done.
  rewrite rotated_filter. rewrite <- firsts_filter. f_equal. by rewrite filter_fmap.
Qed.

Lemma label_order_rename scale (f : nat -> nat) l key :
  (forall i j t u, (i, t) ∈ l -> (j, u) ∈ l -> (f i <= f j <-> i <= j)%nat) ->
  label_order scale ((fun it => (f it.1, it.2)) <$> l) key = f <$> label_order scale l key.
Proof.
  intros Hf. unfold label_order. rewrite labelled_rename by done. rewrite rotated_fmap.
  rewrite <- list_fmap_compose. change (@nil nat) with (f <$> @nil nat) at 1.
  rewrite <- firsts_fmap.
  - f_equal. by rewrite <- !list_fmap_compose.
  - rewrite app_nil_r. intros x y Hx Hy E.
    assert (forall z, z ∈ snd <$> rotated key (labelled_points scale l) -> exists t, (z, t) ∈ l) as Hz.
    { intros z Hz. apply (label_order_elem scale l key). apply firsts_elem. by right. }
    destruct (Hz x Hx) as [t Ht], (Hz y Hy) as [u Hu].
    pose proof (Hf x y t u Ht Hu). pose proof (Hf y x u t Hu Ht). lia.
Qed.

Lemma imap_offset_cons (t : RoutingTarget) T o :
  imap (fun i t => ((o + i)%nat, t)) (t :: T) = (o, t) :: imap (fun i t => ((S o + i)%nat, t)) T.
Proof. rewrite imap_cons, Nat.add_0_r. f_equal. apply imap_ext. intros. simpl. f_equal. lia. Qed.

Lemma imap_pair_labels (T : list RoutingTarget) o :
  imap (fun i t => ((o + i)%nat, t)) T = zip (List.seq o (length T)) T.
Proof.
  revert o. induction T as [|t T IH]; intros o; [done|]. rewrite imap_offset_cons, IH. done.
Qed.

(** The labels a filter keeps, in order. *)
Definition kept (Q : RoutingTarget -> Prop) `{!forall x, Decision (Q x)} (T : list RoutingTarget)
    : list nat := (filter (fun it => Q it.2) (imap pair T)).*1.

(** Whether the target at a label is kept. *)
Definition label_kept (Q : RoutingTarget -> Prop) `{!forall x, Decision (Q x)} (T : list RoutingTarget)
    (i : nat) : Prop := default false ((fun t => bool_decide (Q t)) <$> T !! i) = true.
#[export] Instance label_kept_dec Q `{!forall x, Decision (Q x)} T i : Decision (label_kept Q T i).
Proof. unfold label_kept. apply _. Defined.

Lemma label_kept_iff (Q : RoutingTarget -> Prop) `{!forall x, Decision (Q x)} T i t :
  T !! i = Some t -> label_kept Q T i <-> Q t.
Proof. intros E. unfold label_kept. rewrite E. simpl. apply bool_decide_eq_true. Qed.

Section removal.
Context (Q : RoutingTarget -> Prop) `{!forall x, Decision (Q x)} (T : list RoutingTarget).

Lemma kept_snd : (filter (fun it => Q it.2) (imap pair T)).*2 = filter Q T.
Proof.
  assert (forall o, (filter (fun it => Q it.2) (imap (fun i t => ((o + i)%nat, t)) T)).*2 = filter Q T) as Ho.
  { induction T as [|t T' IH]; intros o; [done|]. rewrite imap_offset_cons, !filter_cons.
    cbn [snd]. case_decide; [|by apply IH]. rewrite fmap_cons. by rewrite IH. }
  apply (Ho 0%nat).
Qed.

Lemma kept_zip : filter (fun it => Q it.2) (imap pair T) = zip (kept Q T) (filter Q T).
Proof. unfold kept. rewrite <- kept_snd. by rewrite zip_fst_snd. Qed.

Lemma kept_length : length (kept Q T) = length (filter Q T).
Proof. unfold kept. by rewrite <- kept_snd, !length_fmap. Qed.

Lemma kept_lookup j i : kept Q T !! j = Some i ->
  exists t, filter Q T !! j = Some t /\ T !! i = Some t /\ Q t.
Proof.
  intros Hj. unfold kept in Hj. rewrite list_lookup_fmap in Hj.
  destruct (filter (fun it => Q it.2) (imap pair T) !! j) as [[i' t]|] eqn:E; [|done].
  injection Hj as <-. exists t. split.
  - rewrite <- kept_snd, list_lookup_fmap. by rewrite E.
  - apply list_elem_of_lookup_2, list_elem_of_filter in E as [HQ HE].
    split; [by apply imap_pair_elem|done].
Qed.

Lemma kept_increasing : increasing (kept Q T).
Proof.
  assert (kept Q T = filter (label_kept Q T) (List.seq 0 (length T))) as ->;
    [|apply filter_seq_increasing].
  unfold kept.
  assert ((imap pair T).*1 = List.seq 0 (length T)) as <-.
  { change (imap pair T) with (imap (fun i t => ((0 + i)%nat, t)) T).
    rewrite (imap_pair_labels T 0), fst_zip; [done|]. by rewrite length_seq. }
  rewrite filter_fmap. f_equal. apply filter_ext_elem. intros [i t] Hin%imap_pair_elem. simpl.
  symmetry. by apply label_kept_iff.
Qed.

Lemma kept_relabel : zip (kept Q T) (filter Q T)
  = (fun it => (kept Q T !!! it.1, it.2)) <$> imap pair (filter Q T).
Proof.
  rewrite fmap_imap. apply list_eq. intros j. rewrite list_lookup_imap.
  destruct (filter Q T !! j) as [t|] eqn:E.
  - assert (exists i, kept Q T !! j = Some i) as [i Hi].
    { apply lookup_lt_is_Some_2. rewrite kept_length. by eapply lookup_lt_Some. }
    simpl. apply lookup_zip_Some. split; [|done]. by rewrite (list_lookup_total_correct _ _ _ Hi).
  - simpl. apply lookup_ge_None. rewrite length_zip. apply lookup_ge_None in E.
    rewrite kept_length. lia.
Qed.
End removal.

Lemma mapM_targets (T : list RoutingTarget) (l : list nat) :
  (forall i, i ∈ l -> (i < length T)%nat) -> exists ts, mapM (fun i => T !! i) l = Some ts.
Proof.
  intros H. apply mapM_is_Some_2. apply Forall_forall. intros i Hi. by apply lookup_lt_is_Some_2, H.
Qed.

Lemma mapM_filter (Q : RoutingTarget -> Prop) `{!forall x, Decision (Q x)} (T : list RoutingTarget)
    (P : nat -> Prop) `{!forall x, Decision (P x)} (l : list nat) ts :
  (forall i t, T !! i = Some t -> P i <-> Q t) ->
  mapM (fun i => T !! i) l = Some ts -> mapM (fun i => T !! i) (filter P l) = Some (filter Q ts).
Proof.
  intros Hiff. revert ts. induction l as [|i l IH]; intros ts E; simpl in E.
  - by injection E as <-.
  - destruct (T !! i) as [t|] eqn:Ei; [|done]. simpl in E.
    destruct (mapM (fun i => T !! i) l) as [ts'|] eqn:E'; [|done]. injection E as <-.
    specialize (IH _ eq_refl). rewrite !filter_cons. specialize (Hiff i t Ei).
    destruct (decide (P i)), (decide (Q t)); try tauto. simpl. by rewrite Ei, IH.
Qed.

Lemma mapM_perm {A B} (f : A -> option B) l l' ts ts' :
  l ≡ₚ l' -> mapM f l = Some ts -> mapM f l' = Some ts' -> ts ≡ₚ ts'.
Proof.
  assert (forall k us, mapM f k = Some us -> omap f k = us) as Ho.
  { induction k as [|x k IH]; intros us H; simpl in H; [by injection H|]. simpl.
    destruct (f x); [|done]. simpl in H. destruct (mapM f k) as [us'|]; [|done].
    injection H as <-. f_equal. by apply IH. }
  intros Hp H H'. rewrite <- (Ho _ _ H), <- (Ho _ _ H'). by rewrite Hp.
Qed.

Lemma mapM_through {A B C} (f : A -> option C) (g : B -> option C) (h : A -> B) l :
  (forall x, x ∈ l -> f x = g (h x)) -> mapM f l = mapM g (h <$> l).
Proof.
  induction l as [|x l IH]; intros H; [done|]. rewrite fmap_cons. simpl.
  rewrite (H x) by by left. rewrite IH by (intros; apply H; by right). done.
Qed.

Lemma ring_order_total fp tier scale key :
  exists order, ring_order fp tier scale key = Some order /\ order ≡ₚ tier.
Proof.
  destruct (ring_order_labels fp tier scale key) as [-> Hperm].
  destruct (mapM_targets tier (label_order scale (imap pair tier) key)) as [ts Hts].
  { intros i. rewrite Hperm, list_elem_of_In, in_seq. lia. }
  exists ts. split; [done|]. apply (mapM_perm (fun i => tier !! i) _ _ _ _ Hperm Hts).
  apply mapM_pointwise; [by rewrite length_seq|]. intros i x [-> _]%lookup_seq. done.
Qed.

(** Taking targets off a consistent-hash ring moves only their own keys.
    For any tier, scale and key, the ring answers an order in which every
    target of the tier appears once, and the order over any subset of the
    tier's targets, under the same configured scale, is the whole order with
    the missing targets struck out: a key whose first choice survives keeps it,
    and every other key goes to the next survivor of its own order. *)
Theorem ring_removal fp fp' tier scale key (Q : RoutingTarget -> Prop)
    `{!forall t, Decision (Q t)} :
  exists order, ring_order fp tier scale key = Some order /\ order ≡ₚ tier /\
    ring_order fp' (filter Q tier) scale key = Some (filter Q order).
Proof.
  destruct (ring_order_total fp tier scale key) as (ts & Hts & Hp). exists ts.
  split; [done|]. split; [done|].
  rewrite (proj1 (ring_order_labels fp tier scale key)) in Hts.
  destruct (ring_order_labels fp' (filter Q tier) scale key) as [-> Hperm'].
  rewrite <- (mapM_filter Q tier (label_kept Q tier) _ ts (fun i t => label_kept_iff Q tier i t) Hts).
  rewrite <- (label_order_filter scale (label_kept Q tier) Q)
    by (intros i t Ht%imap_pair_elem; by apply label_kept_iff).
  rewrite kept_zip, kept_relabel, (label_order_rename scale (fun j => kept Q tier !!! j)).
  - apply mapM_through. intros j Hj. rewrite Hperm', list_elem_of_In, in_seq in Hj.
    assert (exists i, kept Q tier !! j = Some i) as [i Hi]
      by (apply lookup_lt_is_Some_2; rewrite kept_length; lia).
    rewrite (list_lookup_total_correct _ _ _ Hi).
    destruct (kept_lookup Q tier j i Hi) as (t & Ht & HT & _). congruence.
  - intros i j t u Hi%imap_pair_elem Hj%imap_pair_elem.
    assert (forall k v, filter Q tier !! k = Some v -> kept Q tier !! k = Some (kept Q tier !!! k)) as Hk.
    { intros k v Hv. apply list_lookup_lookup_total_lt. rewrite kept_length. by eapply lookup_lt_Some. }
    apply (kept_increasing Q tier i j); eauto.
Qed.

(** ** Picking targets *)

(** The order a strategy gives the targets of one tier. *)
Definition tier_ordered (routing : Routing) (hash_key : string) (tier order : list RoutingTarget)
    : Prop :=
  match strategy routing with
  | Failover => order = tier
  | RoundRobin => exists start, (start < length tier)%nat /\ order = drop start tier ++ take start tier
  | ConsistentHash =>
      exists p, (forall t, t ∈ tier -> priority_or_default t = p) /\
      ring_order 0 tier (ring_scale_of (tier_of (targets routing) p)) (stable_hash hash_key) = Some order
  | _ => False
  end.

(** What the registry caches for a tier is that tier's: its rotation is between
    picks, its ring is the one a rebuild would give. *)
Definition tier_cached (vn : string) (routing : Routing) (p : Z) (tier : list RoutingTarget)
    (r : RoutingRegistry) : Prop :=
  wrr_ok (wrr_weights tier)
    (rotation_of (mkPick (vn, p) (tier_fingerprint (targets routing)) tier) r) /\
  forall ring, rings r !! (vn, p) = Some ring ->
    let scale := ring_scale_of (tier_of (targets routing) p) in
    ring_fingerprint ring = ring_fingerprint_of tier scale ->
    points ring = points (ring_build (ring_fingerprint ring) tier scale).

Lemma registry_new_cached vn routing p tier : tier <> [] -> tier_cached vn routing p tier registry_new.
Proof.
  intros Hne. split; [|done]. unfold rotation_of. simpl. rewrite lookup_empty.
  apply wrr_zero_ok; [apply wrr_weights_pos|by apply wrr_weights_nil].
Qed.

Lemma ring_order_fingerprint fp fp' tier scale key :
  ring_order fp tier scale key = ring_order fp' tier scale key.
Proof. by rewrite (proj1 (ring_order_labels fp tier scale key)), (proj1 (ring_order_labels fp' tier scale key)). Qed.

Lemma wrr_pick_frame vn p cfg tier r b r' :
  wrr_pick vn p cfg tier r = Some (b, r') ->
  rings r' = rings r /\ forall p', p' <> p -> wrr r' !! (vn, p') = wrr r !! (vn, p').
Proof.
  unfold wrr_pick. destruct (wrr_round _ _) as [[b' cur]|]; [|done]. intros [= <- <-]. simpl.
  split; [done|]. intros p' Hp. rewrite lookup_insert_ne; congruence.
Qed.

Lemma mapM_fmap_out {A B C} (f : B -> C) (g : A -> option B) l :
  mapM (fun x => f <$> g x) l = fmap f <$> mapM g l.
Proof.
  induction l as [|x l IH]; [done|]. simpl. destruct (g x); [|done]. simpl. rewrite IH.
  by destruct (mapM g l).
Qed.

Lemma preference_order_points ring ring' key n :
  points ring = points ring' -> preference_order ring key n = preference_order ring' key n.
Proof. unfold preference_order. by intros ->. Qed.

(** A tier's ring answers its ring order, cached or rebuilt. *)
Lemma ring_for_spec vn p tier scale r :
  (forall ring, rings r !! (vn, p) = Some ring ->
     ring_fingerprint ring = ring_fingerprint_of tier scale ->
     points ring = points (ring_build (ring_fingerprint ring) tier scale)) ->
  exists ring r', ring_for vn p tier scale r = (ring, r') /\ wrr r' = wrr r /\
    (forall p', p' <> p -> rings r' !! (vn, p') = rings r !! (vn, p')) /\
    points ring = points (ring_build 0 tier scale).
Proof.
  intros H. unfold ring_for. cbv zeta.
  assert (forall p', p' <> p -> forall ring, <[(vn, p) := ring]> (rings r) !! (vn, p') = rings r !! (vn, p')) as Hfr
    by (intros; rewrite lookup_insert_ne; congruence).
  destruct (rings r !! (vn, p)) as [ring|] eqn:E; [destruct (N.eqb_spec (ring_fingerprint ring) (ring_fingerprint_of tier scale)) as [Hf|Hf]|];
    eexists _, _; (split; [reflexivity|]); simpl; (split; [done|]); (split; [by eauto|]); try done.
  by rewrite (H ring).
Qed.

(** Picking a tier touches only the tier's own key. *)
Lemma pick_tier_spec vn routing key p tier r :
  is_metric_based (strategy routing) = false ->
  tier <> [] -> (forall t, t ∈ tier -> priority_or_default t = p) -> tier_cached vn routing p tier r ->
  exists order r', pick_tier vn routing key tier r = Some (target_model <$> order, r') /\
    tier_ordered routing key tier order /\
    forall p', p' <> p -> wrr r' !! (vn, p') = wrr r !! (vn, p') /\ rings r' !! (vn, p') = rings r !! (vn, p').
Proof.
  intros Hm Hne Hp [Hrot Hring]. unfold pick_tier, tier_ordered.
  destruct tier as [|t0 rest]; [done|]. cbn [head]. cbn [mbind option_bind].
  rewrite (Hp t0) by by left. set (tier := t0 :: rest) in *.
  destruct (strategy routing) eqn:Es; try done.
  - destruct (wrr_round_spec _ (wrr_weights_pos tier) (wrr_weights_nil tier Hne) _ Hrot)
      as (b & cur & Hr & Hb & _ & _).
    set (c := mkPick (vn, p) (tier_fingerprint (targets routing)) tier) in *.
    destruct (pick_exec_spec c r b cur Hr) as (r' & E & _).
    unfold pick_exec in E. simpl in E. rewrite E. cbn. unfold attempt_order.
    unfold wrr_weights in Hb. rewrite length_fmap in Hb.
    pose proof (read_around target_model tier b (Nat.lt_le_incl _ _ Hb)) as Hread. simpl in Hread.
    rewrite Hread. cbn. destruct (wrr_pick_frame _ _ _ _ _ _ _ E) as [Hri Hwr].
    eexists _, r'. split; [reflexivity|]. split; [by exists b|]. intros p' Hne'. by rewrite Hri, Hwr.
  - destruct (ring_for_spec vn p tier (ring_scale_of (tier_of (targets routing) p)) r) as (ring & r' & E & Hw & Hri & Hpts).
    { intros ring Hl Hf. by apply Hring. }
    unfold tier_of in E. rewrite E.
    destruct (ring_order_total 0 tier (ring_scale_of (tier_of (targets routing) p)) (stable_hash key))
      as (order & Hord & _).
    rewrite (preference_order_points _ _ _ _ Hpts).
    pose proof Hord as Hord'. unfold ring_order in Hord'.
    destruct (preference_order _ _ _) as [idxs|]; [|done]. cbn in Hord' |- *.
    rewrite mapM_fmap_out, Hord'. cbn. eexists _, r'. split; [reflexivity|]. split; [by exists p|].
    intros p' Hne'. rewrite Hw. by rewrite Hri.
  - eexists _, r. split; [reflexivity|]. done.
Qed.

Lemma tier_cached_frame vn routing p tier r r' :
  wrr r' !! (vn, p) = wrr r !! (vn, p) -> rings r' !! (vn, p) = rings r !! (vn, p) ->
  tier_cached vn routing p tier r -> tier_cached vn routing p tier r'.
Proof.
  unfold tier_cached, rotation_of. cbn [pc_key pc_tier pc_config]. by intros -> ->.
Qed.

Lemma tier_ordered_perm routing key tier order : tier_ordered routing key tier order -> order ≡ₚ tier.
Proof.
  unfold tier_ordered. destruct (strategy routing); try done.
  - intros (start & _ & ->). rewrite Permutation_app_comm. by rewrite take_drop.
  - intros (p & _ & H). destruct (ring_order_total 0 tier (ring_scale_of (tier_of (targets routing) p))
      (stable_hash key)) as (order' & H' & Hp). congruence.
  - by intros ->.
Qed.

Lemma pick_tiers_spec vn routing key cands ps r :
  is_metric_based (strategy routing) = false -> NoDup ps ->
  (forall p, p ∈ ps -> tier_of cands p <> [] /\ tier_cached vn routing p (tier_of cands p) r) ->
  exists orders r', pick_tiers vn routing key (tier_of cands <$> ps) r
    = Some (target_model <$> concat orders, r') /\
    Forall2 (tier_ordered routing key) (tier_of cands <$> ps) orders.
Proof.
  intros Hm. revert r. induction ps as [|p ps IH]; intros r Hnd Hall.
  { exists [], r. by split; [|constructor]. }
  apply NoDup_cons in Hnd as [Hp Hnd]. destruct (Hall p (list_elem_of_here _ _)) as [Hne Hc].
  destruct (pick_tier_spec vn routing key p (tier_of cands p) r) as (order & r1 & E & Hord & Hfr); [done..| |done|].
  { intros t Ht. by apply tier_of_elem in Ht as [_ Ht]. }
  destruct (IH r1 Hnd) as (orders & r' & E' & Hall').
  { intros p' Hp'. destruct (Hall p') as [Hne' Hc']; [by right|]. split; [done|].
    assert (p' <> p) as Hpp by congruence. destruct (Hfr p' Hpp). by eapply tier_cached_frame. }
  exists (order :: orders), r'. rewrite fmap_cons. cbn [pick_tiers]. rewrite E. cbn. rewrite E'. cbn.
  split; [by rewrite fmap_app|]. by constructor.
Qed.

(** Priorities never rise along the list. *)
Definition by_priority (l : list RoutingTarget) : Prop :=
  forall i j t u, l !! i = Some t -> l !! j = Some u -> (i <= j)%nat ->
    (priority_or_default u <= priority_or_default t)%Z.

Lemma concat_by_priority cands ps orders :
  descending ps -> Forall2 (fun p order => order ≡ₚ tier_of cands p) ps orders ->
  by_priority (concat orders).
Proof.
  intros Hd H. revert Hd. induction H as [|p order ps orders Ho H IH]; [intros _ i j t u Hi; done|].
  simpl. intros [Hp Hd]. specialize (IH Hd).
  assert (forall t, t ∈ order -> priority_or_default t = p) as Hin.
  { intros t Ht. rewrite Ho in Ht. by apply tier_of_elem in Ht as [_ Ht]. }
  assert (forall t, t ∈ concat orders -> (priority_or_default t < p)%Z) as Hrest.
  { intros t Ht. clear -Hp H Ht. induction H as [|q o ps orders Hoq H IH]; [set_solver|]. simpl in Ht.
    apply elem_of_app in Ht as [Ht|Ht].
    - rewrite Hoq in Ht. apply tier_of_elem in Ht as [_ <-]. apply Hp. by left.
    - apply IH; [|done]. intros y Hy. apply Hp. by right. }
  intros i j t u Hi Hj Hij. rewrite lookup_app in Hi, Hj.
  destruct (order !! i) as [t'|] eqn:Ei; [injection Hi as ->|].
  - pose proof (Hin t (list_elem_of_lookup_2 _ _ _ Ei)) as ->.
    destruct (order !! j) as [u'|] eqn:Ej; [injection Hj as ->|].
    + by rewrite (Hin u (list_elem_of_lookup_2 _ _ _ Ej)).
    + pose proof (Hrest u (list_elem_of_lookup_2 _ _ _ Hj)). lia.
  - apply lookup_ge_None in Ei. assert (order !! j = None) as Ej by (apply lookup_ge_None; lia).
    rewrite Ej in Hj. eapply (IH (i - length order) (j - length order))%nat; [done|done|lia].
Qed.

Lemma pick_targets_tiers vn routing cands key r :
  is_metric_based (strategy routing) = false ->
  (forall p, p ∈ priorities_of cands -> tier_cached vn routing p (tier_of cands p) r) ->
  exists orders r',
    pick_targets vn routing cands key r
    = Some (take (max_fallbacks_or_default routing + 1) (target_model <$> concat orders), r') /\
    Forall2 (tier_ordered routing key) (tier_of cands <$> priorities_of cands) orders /\
    concat orders ≡ₚ cands.
Proof.
  intros Hm Hc.
  destruct (pick_tiers_spec vn routing key cands (priorities_of cands) r) as (orders & r' & E & Hall); [done| | |].
  { apply descending_NoDup, priorities_descending. }
  { intros p Hp. split; [|by apply Hc]. apply priorities_elem in Hp as (t & Ht & Hpt).
    intros Hnil. assert (t ∈ tier_of cands p) as Hin by (by apply tier_of_elem). rewrite Hnil in Hin. set_solver. }
  assert (concat orders ≡ₚ cands) as Hperm.
  { rewrite <- (partition_perm cands), partition_tiers. revert Hall. clear.
    generalize (tier_of cands <$> priorities_of cands) as tiers. intros tiers Hall.
    induction Hall as [|tier order ts os Ho Hos IH]; [done|]. simpl. by rewrite IH, (tier_ordered_perm _ _ _ _ Ho). }
  destruct cands as [|t cands].
  - exists orders, r. split; [|done]. apply Permutation_nil_r in Hperm as ->. simpl. by rewrite take_nil.
  - exists orders, r'. split; [|done]. unfold pick_targets. rewrite Hm, partition_tiers, E. done.
Qed.

(** The order requests try a group's candidates in. Whatever the caches
    hold of other subsets, a positional strategy answers the models of a
    permutation of the candidates, cut at the configured number of fallbacks
    and never cut to nothing: priorities never rise along it, and within one
    priority the order is the configured one (failover), a rotation of it
    (round-robin) or the key's ring order (consistent hash). *)
Theorem pick_targets_order vn routing cands key r :
  is_metric_based (strategy routing) = false ->
  (forall p, p ∈ priorities_of cands -> tier_cached vn routing p (tier_of cands p) r) ->
  exists orders r',
    pick_targets vn routing cands key r
    = Some (take (max_fallbacks_or_default routing + 1) (target_model <$> concat orders), r') /\
    Forall2 (tier_ordered routing key) (tier_of cands <$> priorities_of cands) orders /\
    concat orders ≡ₚ cands /\ by_priority (concat orders).
Proof.
  intros Hm Hc. destruct (pick_targets_tiers vn routing cands key r Hm Hc) as (orders & r' & E & Hall & Hperm).
  exists orders, r'. do 3 (split; [done|]).
  apply (concat_by_priority cands (priorities_of cands)); [apply priorities_descending|].
  eapply Forall2_impl; [exact (proj1 (Forall2_fmap_l (tier_of cands) _ _ _) Hall)|].
  intros p o Ho. by eapply tier_ordered_perm.
Qed.

Definition demo_target (model : string) (w : N) (p : Z) : RoutingTarget :=
  mkTarget model None (Some w) (Some p) None.
Definition demo_ab : list RoutingTarget := [demo_target "a" 2 0; demo_target "b" 1 0].
Definition demo_b : list RoutingTarget := [demo_target "b" 1 0].
(** Two callers, one of whom may only use [b], take turns on one group. *)
(** Two subsets of one tier in turn, a change of configuration, and a sweep by a
    snapshot without the group. *)
Definition demo_calls : list registry_call :=
  let pick config tier := Pick (mkPick ("g"%string, 0%Z) config tier) in
  [pick 7 demo_ab; pick 7 demo_b; pick 7 demo_ab; pick 7 demo_b; pick 7 demo_ab;
   pick 8 demo_b; pick 8 demo_b; Sweep (fun name => bool_decide (name <> "g"%string)); pick 8 demo_b].

Lemma wrr_proportional_witness :
  exists trace r', registry_run demo_calls registry_new = Some (trace, r') /\ call_of <$> trace = demo_calls /\
    forall c i w, Pick c ∈ demo_calls -> wrr_weights (pc_tier c) !! i = Some w ->
      let total := sum_z (wrr_weights (pc_tier c)) in
      let n := Z.of_nat (length (turns c trace)) in
      let landed := Z.of_nat (landed_on i (turns c trace)) in
      (total * landed < n * w + total)%Z /\
      forall m, n = (m * total)%Z -> landed = (m * w)%Z.
Proof.
  assert (forall c, Pick c ∈ demo_calls -> pc_key c = ("g"%string, 0%Z) /\ (pc_tier c = demo_ab \/ pc_tier c = demo_b))
    as Hin.
  { intros c Hc. unfold demo_calls in Hc. cbv zeta in Hc.
    repeat (apply elem_of_cons in Hc as [Hc | Hc]; [(injection Hc as ->; auto) || discriminate Hc|]).
    by apply elem_of_nil in Hc. }
  apply (wrr_proportional demo_calls).
  - by intros c [_ [-> | ->]]%Hin.
  - intros c c' (_ & Hc)%Hin (_ & Hc')%Hin (_ & _ & Hf). revert Hf.
    destruct Hc as [-> | ->], Hc' as [-> | ->]; [reflexivity| | |reflexivity];
      intros Hf; exfalso; apply N.eqb_eq in Hf; vm_compute in Hf; discriminate Hf.
Defined.

Definition demo_routing : Routing :=
  mkRouting RoundRobin [demo_target "c" 1 (-1); demo_target "a" 2 0; demo_target "b" 1 0]
    None (Some 1) None None None None.

Lemma pick_targets_order_witness :
  fst <$> pick_targets "g" demo_routing (targets demo_routing) "" registry_new = Some ["a"; "b"]%string /\
  exists orders r',
    pick_targets "g" demo_routing (targets demo_routing) "" registry_new
    = Some (take (max_fallbacks_or_default demo_routing + 1) (target_model <$> concat orders), r') /\
    Forall2 (tier_ordered demo_routing "") (tier_of (targets demo_routing) <$> priorities_of (targets demo_routing)) orders /\
    concat orders ≡ₚ targets demo_routing /\ by_priority (concat orders).
Proof.
  split; [vm_compute; reflexivity|]. apply (pick_targets_order "g" demo_routing).
  - reflexivity.
  - intros p Hp. apply registry_new_cached. apply priorities_elem in Hp as (t & Ht & Hpt).
    intros Hnil. assert (t ∈ tier_of (targets demo_routing) p) as Hin by (by apply tier_of_elem).
    rewrite Hnil in Hin. by apply elem_of_nil in Hin.
Defined.
