(* ===== verification/Routing.v ===== *)
(** * Resolving a Model Group

    The selection half of [crates/aisix-proxy/src/routing.rs]: routing tags, the
    consistent-hash key, the provider-group, client-IP and budget constraints,
    the availability filter, metric ranking, and [resolve_attempt_models], which
    composes them; [Boundary] of [responses_affinity.rs]
    and [refuse_ensemble_to_grouped_key] of [model_resolve.rs].

    The registry and the tracker are passed through; one clock reading serves a
    call.  A provider key's budget verdict ([budget.rs]) is an argument.  What a
    call would panic on is [None]. *)

From S2P Require Import Prelude Sort Utf8 F64 Snapshot Models Pricing RateStore Failure Errors Budget Runtime Balance.
From Stdlib Require Import ZifyBool ZifyN SpecFloat.
Local Open Scope N_scope.

(** The verdicts of [BudgetGate] on provider keys. *)
Abbreviation GateVerdicts := (string -> Verdict).

(** ** Requests *)

(** Header names are lower case, as [HeaderMap] keeps them. *)
Record RoutingRequest := mkRequest {
  req_tags : list string;
  req_headers : option (list (string * string));
  api_key_id : string;
  source_ip : string;
  context_origin : option string;
  req_budget : option GateVerdicts;
  serves : option (Model -> bool);
  allowed_groups : list string;
}.

(** ** Tags *)

Definition eligible_targets (targets : list RoutingTarget) (request_tags : list string)
    : list RoutingTarget :=
  if negb (existsb has_tags targets) then targets
  else
    let defaults := List.filter is_default_target targets in
    match request_tags with
    | [] => match defaults with [] => targets | _ => defaults end
    | _ =>
        let matched := List.filter (fun t => matches_request_tags t request_tags) targets in
        match matched with [] => defaults | _ => matched end
    end.

Fixpoint join (sep : string) (l : list string) : string :=
  match l with
  | [] => ""
  | [x] => x
  | x :: l => x +:+ sep +:+ join sep l
  end.

Definition cache_vary_tags (m : Model) (tags : list string) : option string :=
  routing ← routing m;
  match tags with
  | [] => None
  | _ =>
      if negb (existsb has_tags (targets routing)) then None
      else Some (join "," (dedup (stable_sort string_leb tags)))
  end.

(** ** The consistent-hash key *)

Definition string_of_bytes (l : list N) : string :=
  String.string_of_list_ascii (Ascii.ascii_of_N <$> l).

(** [str::trim]; a [str] is valid UTF-8. *)
Definition trim_str (s : string) : string :=
  string_of_bytes (encode (trim (from_utf8_lossy (lit s)))).

Definition nonempty_str (s : string) : option string :=
  match s with EmptyString => None | _ => Some s end.

Definition ascii_lower (s : string) : string :=
  string_of_bytes ((fun b => if between 65 90 b then b + 32 else b) <$> lit s).

(** [HeaderValue::to_str]: visible ASCII and tab. *)
Definition to_str (v : string) : option string :=
  if forallb (fun b => (b =? 9) || between 32 126 b) (lit v) then Some v else None.

Definition header_get (headers : list (string * string)) (name : string) : option string :=
  snd <$> List.find (fun h => bool_decide (h.1 = ascii_lower name)) headers.

(** [split(sep)] on one byte. *)
Fixpoint split_on (sep : N) (l acc : list N) : list (list N) :=
  match l with
  | [] => [reverse acc]
  | b :: l => if b =? sep then reverse acc :: split_on sep l [] else split_on sep l (b :: acc)
  end.

(** The first pair of a [Cookie] header named [name] with a value. *)
Fixpoint cookie_in (name : string) (pairs : list (list N)) : option string :=
  match pairs with
  | [] => None
  | chunk :: pairs =>
      let '(key, value) :=
        match position (N.eqb 61) chunk with
        | Some i => (take i chunk, drop (S i) chunk)
        | None => (chunk, [])
        end in
      if bool_decide (trim_str (string_of_bytes key) = name)
      then match nonempty_str (trim_str (string_of_bytes value)) with
           | Some v => Some v
           | None => cookie_in name pairs
           end
      else cookie_in name pairs
  end.

Fixpoint cookie_value (headers : list (string * string)) (name : string) : option string :=
  match headers with
  | [] => None
  | (h, raw) :: headers =>
      if bool_decide (h = "cookie"%string) then
        match to_str raw with
        | None => cookie_value headers name
        | Some raw =>
            match cookie_in name (split_on 59 (lit raw) []) with
            | Some v => Some v
            | None => cookie_value headers name
            end
        end
      else cookie_value headers name
  end.

Definition hash_source_value (source : HashOnSource) (req : RoutingRequest) : option string :=
  match source_type source with
  | HashHeader =>
      name ← source_name source;
      headers ← req_headers req;
      v ← header_get headers name;
      v ← to_str v;
      nonempty_str (trim_str v)
  | HashCookie =>
      name ← source_name source;
      headers ← req_headers req;
      cookie_value headers name
  | HashApiKey => nonempty_str (trim_str (api_key_id req))
  | HashClientIp => nonempty_str (trim_str (source_ip req))
  end.

Fixpoint first_value (sources : list HashOnSource) (req : RoutingRequest) : string :=
  match sources with
  | [] => ""
  | source :: sources => default (first_value sources req) (hash_source_value source req)
  end.

Definition resolve_hash_key (routing : Routing) (req : RoutingRequest) : string :=
  first_value (hash_on_or_default routing) req.

(** ** Attempts and their ranking *)

Record AttemptModel := mkAttempt {
  at_id : string;
  at_model : Model;
  at_priority : Z;
  at_weight : N;
}.

Record ExcludedCandidate := mkExcluded {
  ex_id : string;
  ex_model : string;
  reason : string;
}.

Definition EXCLUDED_COOLING : string := "cooling".
Definition EXCLUDED_UNHEALTHY : string := "unhealthy".
Definition EXCLUDED_MISSING : string := "missing".

Definition cost_key (pricing : gmap string ModelCost) (m : Model) : f64 :=
  default f64_infinity
    ((fun c => f64_add (input_per_1k c) (output_per_1k c)) <$> pricing_resolve pricing m).

Definition latency_key (now : Clocks) (t : ModelRuntimeStatusTracker) (id : string) : f64 :=
  if latency_penalized now id t then f64_infinity
  else default f64_neg_infinity (latency_ewma_ms id t).

Definition busy_score (t : ModelRuntimeStatusTracker) (a : AttemptModel) : f64 :=
  f64_div (f64_add (f64_of_N (in_flight_of (at_id a) t)) (f64_of_N 1))
    (f64_of_N (N.max (at_weight a) 1)).

Definition sort_by_f64 (key : AttemptModel -> f64) (l : list AttemptModel) : list AttemptModel :=
  stable_sort (fun a b => total_leb (key a) (key b)) l.

Definition order_attempts_by_metric (s : RoutingStrategy) (attempts : list AttemptModel)
    (now : Clocks) (t : ModelRuntimeStatusTracker) (pricing : gmap string ModelCost)
    : list AttemptModel :=
  match s with
  | LeastCost => sort_by_f64 (fun a => cost_key pricing (at_model a)) attempts
  | LeastLatency => sort_by_f64 (fun a => latency_key now t (at_id a)) attempts
  | LeastBusy => sort_by_f64 (busy_score t) attempts
  | _ => attempts
  end.

(** ** Availability *)

Inductive FilterOutcome :=
  | Selected (attempts : list AttemptModel) (excluded : list ExcludedCandidate)
  | AllUnhealthy (retry_after_secs : option N) (excluded : list ExcludedCandidate).

Definition FALLBACK_ALL_UNHEALTHY_RETRY_AFTER_SECS : N := 30.

Definition excluded (attempts : list AttemptModel) (reason : string) : list ExcludedCandidate :=
  (fun a => mkExcluded (at_id a) (display_name (at_model a)) reason) <$> attempts.

(** The status the filter reads of a candidate. *)
Definition attempt_status (now : Clocks) (t : ModelRuntimeStatusTracker) (a : AttemptModel)
    : RuntimeStatus :=
  let stale_after :=
    (fun cfg => from_secs (stale_after_seconds cfg)) <$> background_model_check (at_model a) in
  status (status_with_stale now (at_id a) stale_after t).

(** The three vectors of the classification loop. *)
Definition classify (now : Clocks) (t : ModelRuntimeStatusTracker) (attempts : list AttemptModel)
    : list AttemptModel * list AttemptModel * list AttemptModel :=
  fold_left
    (fun '(healthy, cooldown_only, unhealthy) a =>
       match attempt_status now t a with
       | StUnhealthy => (healthy, cooldown_only, unhealthy ++ [a])
       | StCooldown => (healthy, cooldown_only ++ [a], unhealthy)
       | StHealthy | StNotApplicable => (healthy ++ [a], cooldown_only, unhealthy)
       end)
    attempts ([], [], []).

Definition filter_attempt_models (now : Clocks) (t : ModelRuntimeStatusTracker)
    (attempts : list AttemptModel) (policy : WhenAllUnavailablePolicy) : FilterOutcome :=
  let '(healthy, cooldown_only, unhealthy) := classify now t attempts in
  match healthy with
  | _ :: _ =>
      Selected healthy (excluded cooldown_only EXCLUDED_COOLING ++ excluded unhealthy EXCLUDED_UNHEALTHY)
  | [] =>
      match cooldown_only with
      | _ :: _ => Selected cooldown_only (excluded unhealthy EXCLUDED_UNHEALTHY)
      | [] =>
          match policy with
          | PolicyFail =>
              AllUnhealthy (Some FALLBACK_ALL_UNHEALTHY_RETRY_AFTER_SECS)
                (excluded unhealthy EXCLUDED_UNHEALTHY)
          | PolicyTryAnyway => Selected attempts []
          end
      end
  end.

(** ** Constraints *)

Definition refuse_ensemble_to_grouped_key (requested : string) (m : Model)
    (allowed_groups : list string) : result unit ProxyError :=
  match allowed_groups with
  | _ :: _ => if is_ensemble m then RErr (PeModelNotFound requested) else ROk tt
  | [] => ROk tt
  end.

Definition provider_key_in_groups (pk : ProviderKey) (allowed : list string) : bool :=
  match allowed with
  | [] => true
  | _ => existsb (fun g => bool_decide (g ∈ allowed)) (pk_groups pk)
  end.

Definition target_in_groups (snapshot : AisixSnapshot) (m : Model) (allowed : list string) : bool :=
  match allowed with
  | [] => true
  | _ =>
      match provider_key_id m ≫= fun id => get_by_id id (provider_keys snapshot) with
      | Some pk => provider_key_in_groups (value pk) allowed
      | None => false
      end
  end.

(** [snapshot.models.get_by_name] *)
Definition model_named (snapshot : AisixSnapshot) (name : string) : option (ResourceEntry Model) :=
  get_by_name name (models snapshot).

Definition targets_in_groups (snapshot : AisixSnapshot) (targets : list RoutingTarget)
    (allowed : list string) : list RoutingTarget :=
  match allowed with
  | [] => targets
  | _ =>
      List.filter
        (fun t => match model_named snapshot (model_ref snapshot t) with
                  | Some entry => target_in_groups snapshot (value entry) allowed
                  | None => false
                  end) targets
  end.

Definition no_target_in_groups : ProxyError := PeAllCandidatesUnavailable None.

Definition target_ip_allowed (snapshot : AisixSnapshot) (source_ip : string) (t : RoutingTarget)
    : bool :=
  match model_named snapshot (target_model t) with
  | Some entry => ip_allowed (value entry) source_ip
  | None => true
  end.

Definition targets_allowed_for_ip (snapshot : AisixSnapshot) (targets : list RoutingTarget)
    (source_ip : string) : list RoutingTarget :=
  if forallb (target_ip_allowed snapshot source_ip) targets then targets
  else List.filter (target_ip_allowed snapshot source_ip) targets.

Definition check_member_ip_access (snapshot : AisixSnapshot) (virtual_name : string) (m : Model)
    (tags : list string) (source_ip : string) : result unit ProxyError :=
  match routing m with
  | None => ROk tt
  | Some routing =>
      let live :=
        omap (fun t => model_named snapshot (model_ref snapshot t))
          (eligible_targets (targets routing) tags) in
      if match live with [] => true | _ => existsb (fun e => ip_allowed (value e) source_ip) live end
      then ROk tt else RErr (PeModelIpRestricted virtual_name)
  end.

Definition budget_verdict (snapshot : AisixSnapshot) (gate : GateVerdicts) (t : RoutingTarget)
    : result unit ProxyError :=
  match model_named snapshot (target_model t) with
  | Some entry => check_model gate (value entry)
  | None => ROk tt
  end.

(** The filter's loop: what it keeps, and the refusal it ends with. *)
Definition budget_loop (snapshot : AisixSnapshot) (gate : GateVerdicts) (targets : list RoutingTarget)
    : list RoutingTarget * option ProxyError :=
  fold_left
    (fun '(kept, refusal) t =>
       match budget_verdict snapshot gate t with
       | ROk _ => (kept ++ [t], refusal)
       | RErr err =>
           (kept, match refusal with Some (PeBudgetExceeded _) => refusal | _ => Some err end)
       end)
    targets ([], None).

Definition targets_within_budget (snapshot : AisixSnapshot) (gate : GateVerdicts)
    (targets : list RoutingTarget) : result (list RoutingTarget) ProxyError :=
  if forallb (fun t => is_ok (budget_verdict snapshot gate t)) targets then ROk targets
  else
    match budget_loop snapshot gate targets with
    | ([], Some err) => RErr err
    | (kept, _) => ROk kept
    end.

(** ** Resolution *)

(** The guard of the normalization step: every target already names its model,
    once. *)
Fixpoint already_normalized (targets : list RoutingTarget) (seen : list string) : bool :=
  match targets with
  | [] => true
  | t :: targets =>
      match target_model_id t with
      | Some _ => false
      | None =>
          if bool_decide (target_model t ∈ seen) then false
          else already_normalized targets (target_model t :: seen)
      end
  end.

Fixpoint normalize (snapshot : AisixSnapshot) (targets : list RoutingTarget) (seen : list string)
    : list RoutingTarget :=
  match targets with
  | [] => []
  | t :: targets =>
      let model := model_ref snapshot t in
      if bool_decide (model ∈ seen) then normalize snapshot targets seen
      else mkTarget model None (weight t) (priority t) (target_tags t)
             :: normalize snapshot targets (model :: seen)
  end.

Definition normalize_targets (snapshot : AisixSnapshot) (targets : list RoutingTarget)
    : list RoutingTarget :=
  if already_normalized targets [] then targets else normalize snapshot targets [].

Definition target_served (snapshot : AisixSnapshot) (serves : Model -> bool) (t : RoutingTarget)
    : bool :=
  match model_named snapshot (target_model t) with
  | Some entry => serves (value entry)
  | None => false
  end.

(** A target's attempt, when its name resolves. *)
Definition attempt_of (snapshot : AisixSnapshot) (t : RoutingTarget) : option AttemptModel :=
  (fun entry => mkAttempt (entry_id entry) (value entry) (priority_or_default t) (weight_or_default t))
    <$> model_named snapshot (target_model t).

Definition missing (snapshot : AisixSnapshot) (t : RoutingTarget) : option ExcludedCandidate :=
  match model_named snapshot (target_model t) with
  | Some _ => None
  | None => Some (mkExcluded (target_model t) (target_model t) EXCLUDED_MISSING)
  end.

(** The weight filter. *)
Definition weighted_candidates (s : RoutingStrategy) (candidates : list AttemptModel)
    : list AttemptModel :=
  let reads_weight := match s with RoundRobin | ConsistentHash | LeastBusy => true | _ => false end in
  if reads_weight && existsb (fun c => 0 <? at_weight c) candidates
  then List.filter (fun c => 0 <? at_weight c) candidates else candidates.

Record Boundary := mkBoundary { origin_id : string; boundary_key : option string }.

Definition boundary_of (snapshot : AisixSnapshot) (origin : string) : Boundary :=
  mkBoundary origin (get_by_id origin (models snapshot) ≫= fun m => provider_key_id (value m)).

Definition is_origin (b : Boundary) (target_id : string) : bool := bool_decide (origin_id b = target_id).

Definition boundary_contains (b : Boundary) (target_id : string) (pk : option string) : bool :=
  is_origin b target_id
  || (bool_decide (is_Some (boundary_key b)) && bool_decide (boundary_key b = pk)).

(** The targets brought back behind [candidates]. *)
Fixpoint bring_back (snapshot : AisixSnapshot) (targets : list RoutingTarget)
    (candidates : list AttemptModel) : list AttemptModel :=
  match targets with
  | [] => candidates
  | t :: targets =>
      match attempt_of snapshot t with
      | None => bring_back snapshot targets candidates
      | Some a =>
          if existsb (fun c => bool_decide (at_id c = at_id a)) candidates
          then bring_back snapshot targets candidates
          else bring_back snapshot targets (candidates ++ [a])
      end
  end.

Definition unavailable (now : Clocks) (t : ModelRuntimeStatusTracker) (a : AttemptModel) : bool :=
  match attempt_status now t a with StUnhealthy | StCooldown => true | _ => false end.

Definition pin_context_origin (now : Clocks) (t : ModelRuntimeStatusTracker)
    (snapshot : AisixSnapshot) (targets : list RoutingTarget) (resolved : list AttemptModel)
    (origin : string) : list AttemptModel :=
  let b := boundary_of snapshot origin in
  let candidates := bring_back snapshot targets resolved in
  let within a := boundary_contains b (at_id a) (provider_key_id (at_model a)) in
  let inside := List.filter within candidates in
  let outside := List.filter (fun a => negb (within a)) candidates in
  (* [sort_by_key] on a bool: [false] first *)
  let inside :=
    stable_sort (fun x y => implb (negb (is_origin b (at_id x))) (negb (is_origin b (at_id y)))) inside in
  List.filter (fun a => negb (unavailable now t a)) inside ++ outside
    ++ List.filter (unavailable now t) inside.

Fixpoint log_candidate_exclusions (now : Clocks) (virtual_name : string)
    (excluded : list ExcludedCandidate) (t : ModelRuntimeStatusTracker) : ModelRuntimeStatusTracker :=
  match excluded with
  | [] => t
  | ex :: excluded =>
      log_candidate_exclusions now virtual_name excluded
        (snd (should_log_exclusion now virtual_name (ex_id ex) (reason ex) t))
  end.

(** What the routing path reads and writes. *)
Record routing_state := mkRoutingState {
  registry : RoutingRegistry;
  tracker : ModelRuntimeStatusTracker;
}.

Definition served_targets (snapshot : AisixSnapshot) (req : RoutingRequest)
    (eligible : list RoutingTarget) : list RoutingTarget :=
  match serves req with
  | Some f => List.filter (target_served snapshot f) eligible
  | None => eligible
  end.

(** The client-IP and budget filters. *)
Definition admitted_targets (snapshot : AisixSnapshot) (virtual_name : string)
    (req : RoutingRequest) (kept : list RoutingTarget) : result (list RoutingTarget) ProxyError :=
  match targets_allowed_for_ip snapshot kept (source_ip req) with
  | [] => RErr (PeModelIpRestricted virtual_name)
  | eligible =>
      match req_budget req with
      | Some gate => targets_within_budget snapshot gate eligible
      | None => ROk eligible
      end
  end.

(** The steps up to the candidates a strategy may order: groups, tags,
    normalization, the route's own restriction, client IP, budget.  [ROk None]
    is the empty answer a route with its own restriction refuses itself.  The
    refusal for tags does not carry the list of tags the source prints. *)
Definition usable_targets (snapshot : AisixSnapshot) (virtual_name : string) (routing : Routing)
    (req : RoutingRequest) : result (option (list RoutingTarget)) ProxyError :=
  match targets_in_groups snapshot (targets routing) (allowed_groups req) with
  | [] => RErr no_target_in_groups
  | grouped =>
      match eligible_targets grouped (req_tags req) with
      | [] =>
          match allowed_groups req with
          | _ :: _ => RErr no_target_in_groups
          | [] => RErr (PeInvalidRequest "no routing target matches request tags")
          end
      | eligible =>
          let kept := served_targets snapshot req (normalize_targets snapshot eligible) in
          match serves req, kept with
          | Some _, [] => ROk None
          | _, _ =>
              match admitted_targets snapshot virtual_name req kept with
              | RErr err => RErr err
              | ROk eligible => ROk (Some eligible)
              end
          end
      end
  end.

(** The usable targets that are still candidates, as [pick_targets] gets them. *)
Definition available_targets (attempts : list AttemptModel) (eligible : list RoutingTarget)
    : list RoutingTarget :=
  if (length attempts =? length eligible)%nat then eligible
  else
    List.filter
      (fun t => existsb (fun a => bool_decide (display_name (at_model a) = target_model t)) attempts)
      eligible.

(** The picked names, back to attempts. *)
Definition found_attempts (attempts : list AttemptModel) (names : list string) : list AttemptModel :=
  omap (fun n => List.find (fun a => bool_decide (display_name (at_model a) = n)) attempts) names.

(** The metric strategies' ranking, tier by tier. *)
Definition ranked_attempts (now : Clocks) (t : ModelRuntimeStatusTracker)
    (pricing : gmap string ModelCost) (routing : Routing) (resolved : list AttemptModel)
    : list AttemptModel :=
  if is_metric_based (strategy routing) then
    stable_sort (fun a b => (at_priority b <=? at_priority a)%Z)
      (order_attempts_by_metric (strategy routing) resolved now t pricing)
  else resolved.

Definition pinned_attempts (now : Clocks) (t : ModelRuntimeStatusTracker) (snapshot : AisixSnapshot)
    (req : RoutingRequest) (available : list RoutingTarget) (resolved : list AttemptModel)
    : list AttemptModel :=
  match context_origin req with
  | Some origin => pin_context_origin now t snapshot available resolved origin
  | None => resolved
  end.

(** From the usable targets to the ordered attempts. *)
Definition order_usable (now : Clocks) (pricing : gmap string ModelCost) (snapshot : AisixSnapshot)
    (virtual_name : string) (routing : Routing) (req : RoutingRequest)
    (eligible : list RoutingTarget) (st : routing_state)
    : option (result (list AttemptModel) ProxyError * routing_state) :=
  let dropped := omap (missing snapshot) eligible in
  let logged dropped st :=
    mkRoutingState (registry st) (log_candidate_exclusions now virtual_name dropped (tracker st)) in
  match omap (attempt_of snapshot) eligible with
  | [] =>
      Some (RErr (PeInvalidRequest "routing model has no target that resolves to a Model"),
            logged dropped st)
  | candidates =>
      let candidates := weighted_candidates (strategy routing) candidates in
      match filter_attempt_models now (tracker st) candidates
              (when_all_unavailable_or_default routing) with
      | AllUnhealthy retry excl =>
          Some (RErr (PeAllCandidatesUnavailable retry), logged (dropped ++ excl) st)
      | Selected attempts excl =>
          let dropped := dropped ++ excl in
          let available := available_targets attempts eligible in
          let hash_key :=
            match strategy routing with ConsistentHash => resolve_hash_key routing req | _ => "" end in
          let rotation :=
            match serves req with
            | Some _ => virtual_name +:+ PARTIAL_ROUTE_ROTATION
            | None => virtual_name
            end in
          '(names, reg) ← pick_targets rotation routing available hash_key (registry st);
          let st := mkRoutingState reg (tracker st) in
          match names with
          | [] => Some (RErr (PeInvalidRequest "routing model has no targets"), st)
          | _ =>
              let resolved := found_attempts attempts names in
              let resolved := ranked_attempts now (tracker st) pricing routing resolved in
              let resolved := pinned_attempts now (tracker st) snapshot req available resolved in
              let resolved := take (max_fallbacks_or_default routing + 1) resolved in
              Some (ROk resolved, logged dropped st)
          end
      end
  end.

Definition resolve_attempt_models (now : Clocks) (pricing : gmap string ModelCost)
    (snapshot : AisixSnapshot) (virtual_name virtual_id : string) (virtual_model : Model)
    (req : RoutingRequest) (st : routing_state)
    : option (result (list AttemptModel) ProxyError * routing_state) :=
  match refuse_ensemble_to_grouped_key virtual_name virtual_model (allowed_groups req) with
  | RErr err => Some (RErr err, st)
  | ROk _ =>
      match routing virtual_model with
      | None =>
          if negb (is_semantic virtual_model)
             && negb (target_in_groups snapshot virtual_model (allowed_groups req))
          then Some (RErr no_target_in_groups, st)
          else
            match (match req_budget req with
                   | Some gate => check_model gate virtual_model
                   | None => ROk tt
                   end) with
            | RErr err => Some (RErr err, st)
            | ROk _ => Some (ROk [mkAttempt virtual_id virtual_model 0 1], st)
            end
      | Some routing =>
          match usable_targets snapshot virtual_name routing req with
          | RErr err => Some (RErr err, st)
          | ROk None => Some (ROk [], st)
          | ROk (Some eligible) =>
              order_usable now pricing snapshot virtual_name routing req eligible st
          end
      end
  end.

(** ** Availability *)

Definition status_is (now : Clocks) (t : ModelRuntimeStatusTracker) (s : RuntimeStatus)
    (a : AttemptModel) : Prop := attempt_status now t a = s.

Definition is_healthy (now : Clocks) (t : ModelRuntimeStatusTracker) (a : AttemptModel) : Prop :=
  ~ status_is now t StUnhealthy a /\ ~ status_is now t StCooldown a.

#[export] Instance status_is_dec now t s a : Decision (status_is now t s a).
Proof. unfold status_is. apply _. Defined.
#[export] Instance is_healthy_dec now t a : Decision (is_healthy now t a).
Proof. unfold is_healthy. apply _. Defined.

Lemma classified now t a :
  let h := is_healthy now t a in
  let c := status_is now t StCooldown a in
  let b := status_is now t StUnhealthy a in
  (h /\ ~ c /\ ~ b) \/ (~ h /\ c /\ ~ b) \/ (~ h /\ ~ c /\ b).
Proof.
  simpl. unfold is_healthy, status_is. destruct (attempt_status now t a);
    [left|right; right|right; left|left]; repeat split; try done; by intros [].
Qed.

Lemma classify_spec now t attempts :
  classify now t attempts
  = (filter (is_healthy now t) attempts, filter (status_is now t StCooldown) attempts,
     filter (status_is now t StUnhealthy) attempts).
Proof.
  unfold classify. induction attempts as [|a attempts IH] using rev_ind; [done|].
  rewrite fold_left_app, IH. simpl. rewrite !filter_app, !filter_cons, !filter_nil.
  pose proof (classified now t a) as Hc. simpl in Hc.
  destruct (attempt_status now t a) eqn:E; repeat case_decide; try tauto; rewrite ?app_nil_r; try done;
    unfold is_healthy, status_is in *; rewrite E in *; intuition done.
Qed.

(** The availability filter. A group with a healthy candidate is served
    by exactly its healthy candidates, in order; failing that by exactly its
    cooling ones; only when all are known bad does the policy decide, between a
    refusal and trying all of them. What a filtered answer left out is reported
    with its reason, nothing is reported twice, and the answer is never an
    empty selection of something. *)
Theorem filter_attempt_models_spec now t attempts policy :
  let healthy := filter (is_healthy now t) attempts in
  let cooling := filter (status_is now t StCooldown) attempts in
  let bad := filter (status_is now t StUnhealthy) attempts in
  match filter_attempt_models now t attempts policy with
  | Selected chosen left_out =>
      (attempts <> [] -> chosen <> []) /\
      chosen = (if decide (healthy <> []) then healthy
                else if decide (cooling <> []) then cooling else attempts) /\
      (healthy = [] -> cooling = [] -> policy = PolicyTryAnyway /\ left_out = []) /\
      (healthy <> [] \/ cooling <> [] ->
         (ex_id <$> left_out) ++ (at_id <$> chosen) ≡ₚ at_id <$> attempts)
  | AllUnhealthy retry left_out =>
      bad = attempts /\ policy = PolicyFail /\ left_out = excluded attempts EXCLUDED_UNHEALTHY /\
      is_Some retry
  end.
Proof.
  intros healthy cooling bad. unfold filter_attempt_models. rewrite classify_spec.
  fold healthy cooling bad.
  assert (healthy ++ cooling ++ bad ≡ₚ attempts) as Hall.
  { unfold healthy, cooling, bad. clear. induction attempts as [|a l IH]; [done|].
    rewrite !filter_cons. pose proof (classified now t a) as Hc. simpl in Hc.
    repeat case_decide; try tauto.
    - simpl. by rewrite IH.
    - simpl. rewrite <- Permutation_middle. by rewrite IH.
    - rewrite app_assoc, <- Permutation_middle, <- app_assoc. by rewrite IH. }
  assert (forall l r, ex_id <$> excluded l r = at_id <$> l) as Hex.
  { intros l r. unfold excluded. by rewrite <- list_fmap_compose. }
  destruct healthy as [|h hs] eqn:Eh; [destruct cooling as [|c cs] eqn:Ec|].
  - simpl in Hall. assert (bad = attempts) as Hbad.
    { unfold bad. apply filter_all. intros a Ha. rewrite <- Hall in Ha.
      unfold bad in Ha. by apply list_elem_of_filter in Ha as [? _]. }
    destruct policy; [by rewrite Hbad|]. split; [done|]. split; [by rewrite !decide_False by tauto|].
    split; [done|tauto].
  - split; [done|]. split; [by rewrite decide_False, decide_True by (done || tauto)|].
    split; [done|]. intros _. rewrite Hex, <- fmap_app, <- Hall. apply fmap_Permutation.
    rewrite Permutation_app_comm. done.
  - split; [done|]. split; [by rewrite decide_True|]. split; [done|]. intros _.
    rewrite fmap_app, !Hex, <- !fmap_app, <- Hall. apply fmap_Permutation.
    by rewrite Permutation_app_comm.
Qed.

(** ** Every attempt is within the constraints *)

Lemma eligible_targets_elem targets tags t : t ∈ eligible_targets targets tags -> t ∈ targets.
Proof.
  unfold eligible_targets. destruct (negb _); [done|].
  assert (forall p, t ∈ List.filter p targets -> t ∈ targets) as H.
  { intros p. rewrite !list_elem_of_In, filter_In. tauto. }
  destruct tags as [|tag tags].
  - destruct (List.filter is_default_target targets) eqn:E; [done|]. rewrite <- E. apply H.
  - destruct (List.filter (fun t => matches_request_tags t (tag :: tags)) targets) eqn:E; [apply H|].
    rewrite <- E. apply H.
Qed.

Lemma normalize_targets_elem snapshot ts t :
  t ∈ normalize_targets snapshot ts ->
  exists t0, t0 ∈ ts /\ target_model t = model_ref snapshot t0.
Proof.
  unfold normalize_targets. destruct (already_normalized ts []) eqn:E.
  - intros Ht. exists t. split; [done|]. revert E Ht. generalize (@nil string) as seen.
    induction ts as [|u ts IH]; intros seen E Ht; [by apply elem_of_nil in Ht|]. simpl in E.
    destruct (target_model_id u) eqn:Eu; [done|]. case_bool_decide; [done|].
    apply elem_of_cons in Ht as [-> | Ht]; [|by eapply IH]. unfold model_ref, resolve_model_ref. by rewrite Eu.
  - clear E. generalize (@nil string) as seen.
    induction ts as [|u ts IH]; intros seen Ht; [by apply elem_of_nil in Ht|]. simpl in Ht.
    case_bool_decide.
    + destruct (IH _ Ht) as (t0 & ? & ?). exists t0. split; [by right|done].
    + apply elem_of_cons in Ht as [-> | Ht]; [exists u; split; [by left|done]|].
      destruct (IH _ Ht) as (t0 & ? & ?). exists t0. split; [by right|done].
Qed.

Lemma budget_loop_kept snapshot gate ts :
  fst (budget_loop snapshot gate ts) = List.filter (fun t => is_ok (budget_verdict snapshot gate t)) ts.
Proof.
  unfold budget_loop. induction ts as [|t ts IH] using rev_ind; [done|].
  rewrite fold_left_app, List.filter_app, <- IH. simpl.
  destruct (fold_left _ ts _) as [kept refusal]. simpl.
  destruct (budget_verdict snapshot gate t); simpl; by rewrite ?app_nil_r.
Qed.

Lemma targets_within_budget_elem snapshot gate ts kept t :
  targets_within_budget snapshot gate ts = ROk kept -> t ∈ kept ->
  t ∈ ts /\ budget_verdict snapshot gate t = ROk tt.
Proof.
  assert (forall u, is_ok (budget_verdict snapshot gate u) = true -> budget_verdict snapshot gate u = ROk tt) as Hok.
  { intros u. by destruct (budget_verdict snapshot gate u) as [[]|]. }
  unfold targets_within_budget. destruct (forallb _ ts) eqn:E.
  - intros [= <-] Ht. split; [done|]. rewrite forallb_forall in E. by apply Hok, E, list_elem_of_In.
  - pose proof (budget_loop_kept snapshot gate ts) as Hk. destruct (budget_loop snapshot gate ts) as [k r].
    simpl in Hk. intros H Ht. assert (kept = k) as -> by (destruct k, r; congruence).
    rewrite Hk, list_elem_of_In, filter_In in Ht. rewrite list_elem_of_In. destruct Ht. eauto.
Qed.

Lemma targets_allowed_for_ip_elem snapshot ts ip t :
  t ∈ targets_allowed_for_ip snapshot ts ip -> t ∈ ts /\ target_ip_allowed snapshot ip t = true.
Proof.
  unfold targets_allowed_for_ip. destruct (forallb _ ts) eqn:E.
  - intros Ht. split; [done|]. rewrite forallb_forall in E. by apply E, list_elem_of_In.
  - rewrite !list_elem_of_In, filter_In. done.
Qed.

(** What a target of the usable list has passed. *)
Record usable (snapshot : AisixSnapshot) (routing : Routing) (req : RoutingRequest)
    (t : RoutingTarget) : Prop := {
  us_origin : exists t0,
    t0 ∈ eligible_targets (targets_in_groups snapshot (targets routing) (allowed_groups req)) (req_tags req) /\
    target_model t = model_ref snapshot t0;
  us_ip : target_ip_allowed snapshot (source_ip req) t = true;
  us_serves f : serves req = Some f -> target_served snapshot f t = true;
  us_budget gate : req_budget req = Some gate -> budget_verdict snapshot gate t = ROk tt;
}.

Lemma admitted_targets_elem snapshot vn req kept el t :
  admitted_targets snapshot vn req kept = ROk el -> t ∈ el ->
  t ∈ kept /\ target_ip_allowed snapshot (source_ip req) t = true /\
  forall gate, req_budget req = Some gate -> budget_verdict snapshot gate t = ROk tt.
Proof.
  unfold admitted_targets. pose proof (targets_allowed_for_ip_elem snapshot kept (source_ip req) t) as Hip.
  destruct (targets_allowed_for_ip snapshot kept (source_ip req)) as [|a al]; [done|]. intros E Ht.
  destruct (req_budget req) as [gate|].
  - destruct (targets_within_budget_elem _ _ _ _ _ E Ht) as [Hin Hb]. destruct (Hip Hin).
    split; [done|]. split; [done|]. by intros g [= <-].
  - injection E as <-. destruct (Hip Ht). done.
Qed.

Lemma served_targets_elem snapshot req ts t :
  t ∈ served_targets snapshot req ts ->
  t ∈ ts /\ forall f, serves req = Some f -> target_served snapshot f t = true.
Proof.
  unfold served_targets. destruct (serves req) as [f|]; [|done].
  rewrite !list_elem_of_In, filter_In. intros [? ?]. split; [done|]. by intros g [= <-].
Qed.

Lemma usable_targets_inv snapshot vn routing req el :
  usable_targets snapshot vn routing req = ROk (Some el) ->
  let eligible := eligible_targets (targets_in_groups snapshot (targets routing) (allowed_groups req))
                    (req_tags req) in
  admitted_targets snapshot vn req (served_targets snapshot req (normalize_targets snapshot eligible)) = ROk el.
Proof.
  unfold usable_targets.
  destruct (targets_in_groups snapshot (targets routing) (allowed_groups req)) as [|g gs]; [done|].
  destruct (eligible_targets (g :: gs) (req_tags req)) as [|e es]; [by destruct (allowed_groups req)|].
  cbv zeta. destruct (serves req); [destruct (served_targets _ _ _); [done|]|];
    (destruct (admitted_targets _ _ _ _); [by intros [= <-]|done]).
Qed.

Lemma usable_targets_sound snapshot vn routing req el t :
  usable_targets snapshot vn routing req = ROk (Some el) -> t ∈ el -> usable snapshot routing req t.
Proof.
  intros E%usable_targets_inv Ht. destruct (admitted_targets_elem _ _ _ _ _ _ E Ht) as (Hk & Hip & Hb).
  apply served_targets_elem in Hk as [Hn Hs]. split; [by apply normalize_targets_elem|done..].
Qed.

Lemma filter_attempts_elem now t l policy chosen ex a :
  filter_attempt_models now t l policy = Selected chosen ex -> a ∈ chosen -> a ∈ l.
Proof.
  unfold filter_attempt_models. rewrite classify_spec.
  assert (forall P `{!forall x, Decision (P x)}, a ∈ filter P l -> a ∈ l) as H
    by (intros P ? Ha; by apply list_elem_of_filter in Ha as [_ ?]).
  destruct (filter (is_healthy now t) l) as [|x xs] eqn:E.
  - destruct (filter (status_is now t StCooldown) l) as [|y ys] eqn:E'.
    + destruct policy; [done|]. by intros [= <- _].
    + intros [= <- _]. rewrite <- E'. apply H.
  - intros [= <- _]. rewrite <- E. apply H.
Qed.

Lemma weighted_candidates_elem s l a : a ∈ weighted_candidates s l -> a ∈ l.
Proof.
  unfold weighted_candidates. destruct (_ && _); [|done]. rewrite !list_elem_of_In, filter_In. tauto.
Qed.

Lemma bring_back_elem snapshot ts l a :
  a ∈ bring_back snapshot ts l -> a ∈ l \/ exists t, t ∈ ts /\ attempt_of snapshot t = Some a.
Proof.
  revert l. induction ts as [|t ts IH]; intros l; simpl; [by left|].
  destruct (attempt_of snapshot t) as [b|] eqn:Eb; [destruct (existsb _ l)|].
  all: intros [Ha|(u & Hu & E)]%IH; [|right; exists u; split; [by right|done]].
  all: try (by left).
  apply elem_of_app in Ha as [Ha | ->%list_elem_of_singleton]; [by left|].
  right. exists t. split; [by left|done].
Qed.

Lemma filter_split {A} (p : A -> bool) l :
  List.filter p l ++ List.filter (fun x => negb (p x)) l ≡ₚ l.
Proof.
  induction l as [|x l IH]; [done|]. simpl. destruct (p x); simpl; [by rewrite IH|].
  rewrite <- Permutation_middle. by rewrite IH.
Qed.

(** Pinning reorders the strategy's attempts and those brought back. *)
Lemma pin_context_origin_perm now t snapshot ts resolved origin :
  pin_context_origin now t snapshot ts resolved origin ≡ₚ bring_back snapshot ts resolved.
Proof.
  unfold pin_context_origin. set (l := bring_back snapshot ts resolved).
  set (within := fun a => boundary_contains _ _ _).
  set (inside := stable_sort _ _).
  transitivity (inside ++ List.filter (fun a => negb (within a)) l).
  - rewrite <- (filter_split (unavailable now t) inside) at 3. by solve_Permutation.
  - unfold inside. rewrite stable_sort_perm. apply filter_split.
Qed.

Lemma order_attempts_perm s l now t pricing : order_attempts_by_metric s l now t pricing ≡ₚ l.
Proof. unfold order_attempts_by_metric, sort_by_f64. destruct s; try done; apply stable_sort_perm. Qed.

Lemma available_targets_elem attempts ts t : t ∈ available_targets attempts ts -> t ∈ ts.
Proof. unfold available_targets. destruct (_ =? _)%nat; [done|]. rewrite !list_elem_of_In, filter_In. tauto. Qed.

Lemma found_attempts_elem attempts names a : a ∈ found_attempts attempts names -> a ∈ attempts.
Proof.
  intros Ha. apply list_elem_of_omap in Ha as (m & _ & Hm). apply find_some in Hm as [Hm _].
  by apply list_elem_of_In.
Qed.

Lemma ranked_attempts_perm now t pricing routing l : ranked_attempts now t pricing routing l ≡ₚ l.
Proof.
  unfold ranked_attempts. destruct (is_metric_based _); [|done]. by rewrite stable_sort_perm, order_attempts_perm.
Qed.

Lemma pinned_attempts_elem now t snapshot req ts l a :
  a ∈ pinned_attempts now t snapshot req ts l -> a ∈ l \/ exists u, u ∈ ts /\ attempt_of snapshot u = Some a.
Proof.
  unfold pinned_attempts. destruct (context_origin req); [|by left].
  rewrite pin_context_origin_perm. apply bring_back_elem.
Qed.

Lemma order_usable_sound now pricing snapshot vn routing req el st attempts st' :
  order_usable now pricing snapshot vn routing req el st = Some (ROk attempts, st') ->
  (length attempts <= max_fallbacks_or_default routing + 1)%nat /\
  forall a, a ∈ attempts -> exists t, t ∈ el /\ attempt_of snapshot t = Some a.
Proof.
  unfold order_usable. pose proof (fun a => proj1 (list_elem_of_omap (attempt_of snapshot) el a)) as Hc.
  destruct (omap (attempt_of snapshot) el) as [|c cs]; [done|]. set (candidates := c :: cs) in *.
  destruct (filter_attempt_models _ _ _ _) as [chosen ex|retry ex] eqn:Ef; [|done].
  assert (forall a, a ∈ chosen -> exists t, t ∈ el /\ attempt_of snapshot t = Some a) as Hch.
  { intros a Ha. eapply filter_attempts_elem in Ha; [|exact Ef]. by apply weighted_candidates_elem, Hc in Ha. }
  cbv zeta. destruct (pick_targets _ _ _ _ _) as [[names reg]|]; [|done]. cbn [mbind option_bind].
  destruct names as [|n names]; [done|].
  pose proof (found_attempts_elem chosen (n :: names)) as Hfound. revert Hfound.
  generalize (found_attempts chosen (n :: names)) as found. intros found Hfound H. injection H as <- _.
  split; [rewrite length_take; lia|].
  intros a Ha. apply elem_of_take in Ha as (i & Ha & _). apply list_elem_of_lookup_2 in Ha.
  apply pinned_attempts_elem in Ha as [Ha|(t & Ht & E)].
  - rewrite ranked_attempts_perm in Ha. by apply Hch, Hfound.
  - apply available_targets_elem in Ht. by exists t.
Qed.

Lemma targets_in_groups_elem snapshot ts allowed t :
  t ∈ targets_in_groups snapshot ts allowed ->
  t ∈ ts /\ (allowed <> [] -> forall e, model_named snapshot (model_ref snapshot t) = Some e ->
    target_in_groups snapshot (value e) allowed = true).
Proof.
  unfold targets_in_groups. destruct allowed as [|g gs]; [by intros Ht; split|].
  rewrite !list_elem_of_In, filter_In. intros [Ht Hg]. split; [done|]. intros _ e He. by rewrite He in Hg.
Qed.

(** C11. No path around the constraints. Whatever the strategy, the health of
    the targets, the [try_anyway] policy, the context pin and the state of the
    caches, every model a request is resolved to is within its provider key's
    budget, and within the key's provider groups, with the one exception the code
    makes: a semantic parent without routing of its own is handed back without being
    held against the groups, which is left to its callers ([semantic.rs] for chat,
    not modelled here; the other endpoints refuse such a parent).  When a Model Group was addressed, each of them is one of the group's own
    targets, picked by the request's tags from among the targets in the groups, its
    IP allowlist admits the caller, the route can be answered by it, and there are
    at most [max_fallbacks + 1]. *)
Theorem attempts_respect_constraints now pricing snapshot vn vid vm req st attempts st' a :
  resolve_attempt_models now pricing snapshot vn vid vm req st = Some (ROk attempts, st') ->
  a ∈ attempts ->
  (is_semantic vm = false \/ is_Some (routing vm) ->
     target_in_groups snapshot (at_model a) (allowed_groups req) = true) /\
  (forall gate, req_budget req = Some gate -> check_model gate (at_model a) = ROk tt) /\
  (forall r, routing vm = Some r ->
     (length attempts <= max_fallbacks_or_default r + 1)%nat /\
     ip_allowed (at_model a) (source_ip req) = true /\
     (forall f, serves req = Some f -> f (at_model a) = true) /\
     exists t0, t0 ∈ targets r /\
       t0 ∈ eligible_targets (targets_in_groups snapshot (targets r) (allowed_groups req)) (req_tags req) /\
       exists rev, model_named snapshot (model_ref snapshot t0) = Some (mkEntry (at_id a) (at_model a) rev)).
Proof.
  unfold resolve_attempt_models.
  destruct (refuse_ensemble_to_grouped_key _ _ _); [|done].
  destruct (routing vm) as [r|] eqn:Er.
  - destruct (usable_targets snapshot vn r req) as [[el|]|] eqn:Eu; [|by intros [= <- _] ?%elem_of_nil|done].
    intros E Ha. destruct (order_usable_sound _ _ _ _ _ _ _ _ _ _ E) as [Hlen Hall].
    destruct (Hall a Ha) as (t & Ht & Hat).
    destruct (usable_targets_sound _ _ _ _ _ _ Eu Ht) as [(t0 & Ht0 & Hname) Hip Hserv Hbud].
    unfold attempt_of in Hat. destruct (model_named snapshot (target_model t)) as [e|] eqn:Ee; [|done].
    injection Hat as <-. cbn [at_model at_id].
    unfold target_ip_allowed in Hip. unfold target_served in Hserv. unfold budget_verdict in Hbud.
    rewrite Ee in Hip, Hserv, Hbud. rewrite Hname in Ee.
    pose proof (eligible_targets_elem _ _ _ Ht0) as Hgr.
    apply targets_in_groups_elem in Hgr as [Hin Hgr].
    split; [intros _|split; [done|]].
    + destruct (allowed_groups req) as [|g gs]; [done|]. by apply Hgr.
    + intros r' [= <-]. split; [done|]. split; [done|]. split; [done|]. exists t0. split; [done|].
      split; [done|]. exists (revision e). rewrite Ee. by destruct e.
  - destruct (is_semantic vm) eqn:Es; simpl.
    + destruct (match req_budget req with Some gate => check_model gate vm | None => ROk tt end) as [[]|] eqn:Eb; [|done].
      intros [= <- _] ->%list_elem_of_singleton. split; [by intros [?|[? ?]]|].
      split; [|done]. intros gate Hg. by rewrite Hg in Eb.
    + destruct (target_in_groups snapshot vm (allowed_groups req)) eqn:Eg; simpl; [|done].
      destruct (match req_budget req with Some gate => check_model gate vm | None => ROk tt end) as [[]|] eqn:Eb; [|done].
      intros [= <- _] ->%list_elem_of_singleton. split; [done|].
      split; [|done]. intros gate Hg. by rewrite Hg in Eb.
Qed.

(** ** A resolved request has something to try *)

Lemma chosen_sublist now t l policy chosen ex :
  filter_attempt_models now t l policy = Selected chosen ex -> chosen `sublist_of` l /\ (l <> [] -> chosen <> []).
Proof.
  unfold filter_attempt_models. rewrite classify_spec.
  pose proof (sublist_filter (is_healthy now t) l) as Hh.
  pose proof (sublist_filter (status_is now t StCooldown) l) as Hc.
  destruct (filter (is_healthy now t) l).
  - destruct (filter (status_is now t StCooldown) l).
    + destruct policy; [done|]. by intros [= <- _].
    + by intros [= <- _].
  - by intros [= <- _].
Qed.

Lemma weighted_candidates_sublist s l :
  weighted_candidates s l `sublist_of` l /\ (l <> [] -> weighted_candidates s l <> []).
Proof.
  unfold weighted_candidates. destruct (_ && existsb _ l) eqn:E; [|done].
  split; [apply list_filter_sublist|]. intros _ Hnil. apply andb_prop in E as [_ E].
  apply existsb_exists in E as (a & Ha & Hw). assert (In a []) as []. rewrite <- Hnil. by apply filter_In.
Qed.

Lemma omap_full {A B} (f : A -> option B) l :
  (length (omap f l) <= length l)%nat /\
  (length (omap f l) = length l -> forall x, x ∈ l -> exists y, f x = Some y /\ y ∈ omap f l).
Proof.
  induction l as [|x l [IHl IHf]]; [split; [done|set_solver]|].
  assert (omap f (x :: l) = match f x with Some y => y :: omap f l | None => omap f l end) as -> by done.
  destruct (f x) as [y|] eqn:E; cbn [length].
  - split; [lia|]. intros [= Hl] z [-> | Hz]%elem_of_cons; [exists y; split; [done|by left]|].
    destruct (IHf Hl z Hz) as (w & ? & ?). exists w. split; [done|by right].
  - split; [lia|]. intros Hl. exfalso. lia.
Qed.

Lemma sublist_full {A} (l k : list A) : l `sublist_of` k -> (length k <= length l)%nat -> l = k.
Proof.
  induction 1 as [|x l k H IH|x l k H IH]; [done| |]; simpl; intros Hl; [by rewrite IH by lia|].
  apply sublist_length in H. lia.
Qed.

Section resolution.
Context (snapshot : AisixSnapshot) (wf : table_wf display_name (models snapshot)).

Lemma model_named_wf n e : model_named snapshot n = Some e -> display_name (value e) = n.
Proof.
  unfold model_named, get_by_name, get_by_id. destruct (by_name (models snapshot) !! n) as [id|] eqn:En; [|done].
  simpl. intros He. destruct (wf_names _ _ wf _ _ En) as (e' & He' & <-). congruence.
Qed.

Lemma attempt_of_name t a : attempt_of snapshot t = Some a -> display_name (at_model a) = target_model t.
Proof.
  unfold attempt_of. destruct (model_named snapshot (target_model t)) as [e|] eqn:E; [|done].
  intros [= <-]. by apply model_named_wf.
Qed.

(** Every target handed to the strategy has an attempt, and there is one. *)
Lemma available_covered chosen el :
  chosen `sublist_of` omap (attempt_of snapshot) el -> chosen <> [] ->
  available_targets chosen el <> [] /\
  forall t, t ∈ available_targets chosen el ->
    exists a, a ∈ chosen /\ display_name (at_model a) = target_model t.
Proof.
  intros Hs Hne. destruct (omap_full (attempt_of snapshot) el) as [Hle Hfull].
  pose proof (sublist_length _ _ Hs) as Hlen. unfold available_targets.
  destruct (Nat.eqb_spec (length chosen) (length el)) as [Heq|_].
  - assert (chosen = omap (attempt_of snapshot) el) as -> by (apply sublist_full; [done|lia]).
    split; [intros ->; by destruct Hne|]. intros t Ht.
    destruct (Hfull Heq t Ht) as (a & Ha & Hin). exists a. split; [done|]. by apply attempt_of_name.
  - split.
    + destruct chosen as [|a chosen]; [done|]. clear Hne.
      assert (a ∈ omap (attempt_of snapshot) el) as Ha by (eapply sublist_subseteq; [exact Hs|by left]).
      apply list_elem_of_omap in Ha as (t & Ht & Hat). intros Hnil.
      assert (In t []) as []. rewrite <- Hnil. apply filter_In. split; [by apply list_elem_of_In|].
      simpl. by rewrite bool_decide_true by by apply attempt_of_name.
    + intros t. rewrite list_elem_of_In, filter_In, existsb_exists. intros (_ & a & Ha & Hn).
      exists a. split; [by apply list_elem_of_In|by apply bool_decide_eq_true in Hn].
Qed.
End resolution.

Lemma admitted_targets_sublist snapshot vn req kept el :
  admitted_targets snapshot vn req kept = ROk el -> el `sublist_of` kept.
Proof.
  unfold admitted_targets, targets_allowed_for_ip.
  assert ((if forallb (target_ip_allowed snapshot (source_ip req)) kept then kept
           else List.filter (target_ip_allowed snapshot (source_ip req)) kept) `sublist_of` kept) as H
    by (destruct (forallb _ kept); [done|apply list_filter_sublist]).
  destruct (if forallb _ kept then kept else _) as [|a al]; [done|].
  destruct (req_budget req) as [gate|]; [|by intros [= <-]].
  unfold targets_within_budget. destruct (forallb _ (a :: al)); [by intros [= <-]|].
  pose proof (budget_loop_kept snapshot gate (a :: al)) as Hk.
  pose proof (list_filter_sublist (fun t => is_ok (budget_verdict snapshot gate t)) (a :: al)) as Hf.
  rewrite <- Hk in Hf. destruct (budget_loop snapshot gate (a :: al)) as [k r]. simpl in *.
  intros E. assert (el = k) as -> by (destruct k, r; congruence). by etrans.
Qed.

Lemma served_targets_sublist snapshot req ts : served_targets snapshot req ts `sublist_of` ts.
Proof. unfold served_targets. destruct (serves req); [apply list_filter_sublist|done]. Qed.

Lemma available_targets_sublist chosen el : available_targets chosen el `sublist_of` el.
Proof. unfold available_targets. destruct (_ =? _)%nat; [done|apply list_filter_sublist]. Qed.

(** The name a route's balancing state is kept under. *)
Definition rotation_name (virtual_name : string) (req : RoutingRequest) : string :=
  match serves req with Some _ => virtual_name +:+ PARTIAL_ROUTE_ROTATION | None => virtual_name end.

(** What picking answers: a name for something handed to it. *)
Lemma pick_targets_names vn routing cands key r :
  cands <> [] ->
  (forall p sub, sub <> [] -> sub `sublist_of` cands -> tier_cached vn routing p sub r) ->
  exists names r', pick_targets vn routing cands key r = Some (names, r') /\ names <> [] /\
    forall n, n ∈ names -> exists t, t ∈ cands /\ target_model t = n.
Proof.
  intros Hne Hc. destruct (is_metric_based (strategy routing)) eqn:Em.
  - exists (target_model <$> cands), r. unfold pick_targets. rewrite Em.
    split; [by destruct cands|]. split; [by destruct cands|].
    intros n (t & -> & Ht)%list_elem_of_fmap. eauto.
  - destruct (pick_targets_tiers vn routing cands key r Em) as (orders & r' & E & _ & Hp).
    { intros p Hpr. apply Hc; [|apply list_filter_sublist]. apply priorities_elem in Hpr as (t & Ht & Hpt).
      intros Hnil. assert (t ∈ tier_of cands p) as Hin by (by apply tier_of_elem).
      rewrite Hnil in Hin. by apply elem_of_nil in Hin. }
    eexists _, r'. split; [exact E|]. split.
    + destruct (concat orders) as [|t ts]; [by apply Permutation_nil_l in Hp|].
      rewrite Nat.add_1_r. by destruct (max_fallbacks_or_default routing).
    + intros n (i & Hn & _)%elem_of_take. apply list_elem_of_lookup_2, list_elem_of_fmap in Hn as (t & -> & Ht).
      exists t. split; [by rewrite <- Hp|done].
Qed.

Lemma bring_back_nil snapshot ts l : bring_back snapshot ts l = [] -> l = [].
Proof.
  revert l. induction ts as [|t ts IH]; intros l; [done|]. simpl.
  destruct (attempt_of snapshot t); [destruct (existsb _ l)|]; intros H%IH; [done| |done].
  by destruct l.
Qed.

Lemma pinned_attempts_nil now t snapshot req ts l : pinned_attempts now t snapshot req ts l = [] -> l = [].
Proof.
  unfold pinned_attempts. destruct (context_origin req) as [origin|]; [|done].
  intros H. apply (bring_back_nil snapshot ts). apply Permutation_nil_r.
  by rewrite <- (pin_context_origin_perm now t snapshot ts l origin), H.
Qed.

Lemma order_usable_total now pricing snapshot vn routing req el st :
  table_wf display_name (models snapshot) ->
  (forall p sub, sub <> [] -> sub `sublist_of` el ->
     tier_cached (rotation_name vn req) routing p sub (registry st)) ->
  exists res st', order_usable now pricing snapshot vn routing req el st = Some (res, st') /\ res <> ROk [].
Proof.
  intros wf Hc. unfold order_usable. pose proof (available_covered snapshot wf) as Hcov. specialize (Hcov).
  assert (forall chosen, chosen `sublist_of` omap (attempt_of snapshot) el -> chosen <> [] ->
    available_targets chosen el <> [] /\ forall t, t ∈ available_targets chosen el ->
      exists a, a ∈ chosen /\ display_name (at_model a) = target_model t) as Hcov'
    by (intros; by apply Hcov). clear Hcov.
  destruct (omap (attempt_of snapshot) el) as [|c cs]; [by eexists _, _|]. set (candidates := c :: cs) in *.
  destruct (weighted_candidates_sublist (strategy routing) candidates) as [Hws Hwn].
  destruct (filter_attempt_models _ _ _ _) as [chosen ex|retry ex] eqn:Ef; [|by eexists _, _].
  destruct (chosen_sublist _ _ _ _ _ _ Ef) as [Hcs Hcn].
  destruct (Hcov' chosen) as [Hav Hfind]; [by etrans|auto|].
  fold (rotation_name vn req).
  destruct (pick_targets_names (rotation_name vn req) routing (available_targets chosen el)
    (match strategy routing with ConsistentHash => resolve_hash_key routing req | _ => ""%string end)
    (registry st) Hav) as (names & reg & E & Hnames & Hin).
  { intros p sub Hsub Hsl. apply Hc; [done|]. etrans; [exact Hsl|apply available_targets_sublist]. }
  cbv zeta. rewrite E. cbn [mbind option_bind]. destruct names as [|n names]; [done|].
  assert (found_attempts chosen (n :: names) <> []) as Hfound.
  { destruct (Hin n (list_elem_of_here _ _)) as (t & Ht & <-). destruct (Hfind t Ht) as (a & Ha & Hn).
    unfold found_attempts. simpl. destruct (find _ chosen) eqn:Efind; [done|].
    apply list_elem_of_In in Ha. pose proof (find_none _ _ Efind a Ha) as Hb. simpl in Hb.
    by rewrite bool_decide_true in Hb. }
  revert Hfound. generalize (found_attempts chosen (n :: names)) as found. intros found Hfound.
  eexists _, _. split; [reflexivity|]. intros [= Hnil]. apply Hfound.
  apply Permutation_nil_r. rewrite <- (ranked_attempts_perm now (tracker st) pricing routing found).
  apply Permutation_nil_r. apply (pinned_attempts_nil now (tracker st) snapshot req (available_targets chosen el)).
  rewrite Nat.add_1_r in Hnil. by destruct (pinned_attempts _ _ _ _ _ _).
Qed.

(** Resolution never panics and never answers an empty list by accident.
    Over a table whose index is sound, with caches that fit the group's own
    targets, a request is either refused with an error or resolved to at least
    one model to attempt; the empty list is only the answer to a route that can
    be served by some of a group's targets and finds none of those. *)
Theorem resolve_never_empty now pricing snapshot vn vid vm req st :
  table_wf display_name (models snapshot) ->
  (forall r p sub, routing vm = Some r -> sub <> [] ->
     sub `sublist_of` normalize_targets snapshot
       (eligible_targets (targets_in_groups snapshot (targets r) (allowed_groups req)) (req_tags req)) ->
     tier_cached (rotation_name vn req) r p sub (registry st)) ->
  exists res st', resolve_attempt_models now pricing snapshot vn vid vm req st = Some (res, st') /\
    (res = ROk [] -> is_Some (serves req) /\ is_Some (routing vm)).
Proof.
  intros wf Hc. unfold resolve_attempt_models. destruct (refuse_ensemble_to_grouped_key _ _ _); [|by eexists _, _].
  destruct (routing vm) as [r|] eqn:Er.
  - destruct (usable_targets snapshot vn r req) as [[el|]|] eqn:Eu.
    + apply usable_targets_inv, admitted_targets_sublist in Eu.
      destruct (order_usable_total now pricing snapshot vn r req el st wf) as (res & st' & -> & Hne).
      { intros p sub Hne Hs. apply Hc; [done|done|]. etrans; [exact Hs|]. etrans; [exact Eu|].
        apply served_targets_sublist. }
      by exists res, st'.
    + eexists _, _. split; [reflexivity|]. intros _. split; [|done]. unfold usable_targets in Eu.
      destruct (targets_in_groups _ _ _); [done|].
      destruct (eligible_targets _ _); [by destruct (allowed_groups req)|].
      destruct (serves req); [done|]. by destruct (admitted_targets _ _ _ _).
    + by eexists _, _.
  - destruct (_ && _); [by eexists _, _|]. destruct (match req_budget req with Some _ => _ | None => _ end);
      by eexists _, _.
Qed.

(** ** Ranking and pinning *)

Definition metric_key (s : RoutingStrategy) (now : Clocks) (t : ModelRuntimeStatusTracker)
    (pricing : gmap string ModelCost) (a : AttemptModel) : f64 :=
  match s with
  | LeastCost => cost_key pricing (at_model a)
  | LeastLatency => latency_key now t (at_id a)
  | _ => busy_score t a
  end.

Lemma order_attempts_sort s l now t pricing : is_metric_based s = true ->
  order_attempts_by_metric s l now t pricing = sort_by_f64 (metric_key s now t pricing) l.
Proof. by destruct s. Qed.

(** The metric strategies. The attempts of least-cost, least-latency and
    least-busy are a permutation of the candidates in which priorities never
    rise; within a priority the metric never falls in the total order of
    doubles, so an unpriced or penalised target is last and an unsampled one
    first; and targets the metric cannot tell apart keep their configured
    order. *)
Theorem metric_ranking now t pricing routing l :
  is_metric_based (strategy routing) = true ->
  let key := metric_key (strategy routing) now t pricing in
  let ranked := ranked_attempts now t pricing routing l in
  ranked ≡ₚ l /\
  sorted (fun a b => (at_priority b <=? at_priority a)%Z) ranked /\
  (forall p, sorted (fun a b => total_leb (key a) (key b)) (filter (fun a => at_priority a = p) ranked)) /\
  (forall p k, filter (fun a => at_priority a = p /\ total_key (key a) = k) ranked
     = filter (fun a => at_priority a = p /\ total_key (key a) = k) l).
Proof.
  intros Hm key ranked. split; [apply ranked_attempts_perm|]. unfold ranked, ranked_attempts.
  rewrite Hm, order_attempts_sort by done. fold key. unfold sort_by_f64.
  set (by_key := stable_sort _ l).
  assert (sorted (fun a b => total_leb (key a) (key b)) by_key) as Hs.
  { apply stable_sort_sorted; [intros a b; apply total_leb_total|intros a b c; apply total_leb_trans]. }
  split; [apply stable_sort_sorted; [intros a b|intros a b c]; lia|]. split.
  - intros p. rewrite stable_sort_stable; [by apply sorted_filter|]. intros a b -> ->. lia.
  - intros p k. rewrite stable_sort_stable by (intros a b [-> _] [-> _]; lia).
    apply stable_sort_stable. intros a b [_ Ha] [_ Hb]. unfold total_leb. lia.
Qed.

Lemma list_filter_negb {A} (p : A -> bool) l :
  List.filter (fun x => negb (p x)) l = filter (fun x => p x = false) l.
Proof.
  induction l as [|x l IH]; [done|]. rewrite filter_cons. cbn [List.filter]. destruct (p x); cbn [negb].
  - rewrite decide_False by done. exact IH.
  - rewrite decide_True by done. f_equal. exact IH.
Qed.

(** A conversation goes back to where its context is. With an origin
    pinned, the attempts are the strategy's plus the usable targets its cut
    left out, reordered: first the available targets on the origin's provider
    key, the origin itself before its peers, then the targets elsewhere in the
    strategy's order, and last the members that are cooling or unhealthy. *)
Theorem pin_context_origin_order now t snapshot ts resolved origin :
  let b := boundary_of snapshot origin in
  let inside a := boundary_contains b (at_id a) (provider_key_id (at_model a)) = true in
  let candidates := bring_back snapshot ts resolved in
  exists first last,
    pin_context_origin now t snapshot ts resolved origin
    = first ++ filter (fun a => boundary_contains b (at_id a) (provider_key_id (at_model a)) = false) candidates
        ++ last /\
    pin_context_origin now t snapshot ts resolved origin ≡ₚ candidates /\
    (forall a, a ∈ first <-> a ∈ candidates /\ inside a /\ unavailable now t a = false) /\
    (forall a, a ∈ last <-> a ∈ candidates /\ inside a /\ unavailable now t a = true) /\
    (forall a, a ∈ first -> at_id a = origin -> exists o rest, first = o :: rest /\ at_id o = origin).
Proof.
  intros b inside candidates. unfold pin_context_origin. fold b candidates.
  set (within := fun a => boundary_contains b (at_id a) (provider_key_id (at_model a))).
  set (leb := fun x y => implb (negb (is_origin b (at_id x))) (negb (is_origin b (at_id y)))).
  set (ins := stable_sort leb (List.filter within candidates)).
  assert (forall a, a ∈ ins <-> a ∈ candidates /\ inside a) as Hins.
  { intros a. unfold ins. rewrite stable_sort_perm, !list_elem_of_In, filter_In. done. }
  assert (sorted leb ins) as Hsort.
  { apply stable_sort_sorted; unfold leb.
    - intros x y. by destruct (is_origin b (at_id x)), (is_origin b (at_id y)); auto.
    - intros x y z. by destruct (is_origin b (at_id x)), (is_origin b (at_id y)), (is_origin b (at_id z)). }
  exists (List.filter (fun a => negb (unavailable now t a)) ins), (List.filter (unavailable now t) ins).
  split.
  { do 2 f_equal. apply list_filter_negb. }
  split; [apply (pin_context_origin_perm now t snapshot ts resolved origin)|]. split.
  { intros a. rewrite list_elem_of_In, filter_In, <- list_elem_of_In, Hins, negb_true_iff. tauto. }
  split. { intros a. rewrite list_elem_of_In, filter_In, <- list_elem_of_In, Hins. tauto. }
  intros a Ha Hid. clear Hins. induction Hsort as [|x l Hx Hs IH]; [by apply elem_of_nil in Ha|].
  simpl in Ha |- *. destruct (unavailable now t x); simpl in *; [by apply IH|].
  exists x, (List.filter (fun a => negb (unavailable now t a)) l). split; [done|].
  apply elem_of_cons in Ha as [-> | Ha]; [done|].
  rewrite list_elem_of_In, filter_In, <- list_elem_of_In in Ha. destruct Ha as [Ha _].
  specialize (Hx a Ha). unfold leb in Hx.
  assert (is_origin b (at_id a) = true) as Ho by (apply bool_decide_eq_true; by rewrite Hid).
  rewrite Ho in Hx. destruct (is_origin b (at_id x)) eqn:Ex; [|done].
  by apply bool_decide_eq_true in Ex.
Qed.

(** ** Witnesses *)

Definition demo_model (name pk : string) : Model :=
  mkModel name (Some pk) None None None None None false false None None None None None None None.

Definition demo_group (s : RoutingStrategy) : Model :=
  mkModel "g" None None None None None
    (Some (mkRouting s [target_new "a"; target_new "b"; target_new "gone"] None None None None None None))
    false false None None None None None None None.

Definition demo_snapshot : AisixSnapshot :=
  mkSnapshot
    (fst (insert_arc display_name (mkEntry "ib" (demo_model "b" "kb") 2)
       (fst (insert_arc display_name (mkEntry "ia" (demo_model "a" "ka") 1) table_default 1)) 2))
    (fst (insert_arc pk_name (mkEntry "kb" (mkProviderKey "kb" ["eu"]) 4)
       (fst (insert_arc pk_name (mkEntry "ka" (mkProviderKey "ka" ["us"]) 3) table_default 1)) 2))
    table_default table_default table_default table_default table_default table_default.

Definition demo_request : RoutingRequest :=
  mkRequest [] None "key" "10.0.0.1" None None None ["eu"; "ap"].

Definition demo_state : routing_state := mkRoutingState registry_new (tracker_new true).

Lemma demo_resolved :
  option_map fst (resolve_attempt_models (mkClocks 0 0) ∅ demo_snapshot "g" "ig" (demo_group RoundRobin)
    demo_request demo_state) = Some (ROk [mkAttempt "ib" (demo_model "b" "kb") 0 1]).
Proof. vm_compute. reflexivity. Qed.

Lemma attempts_respect_constraints_witness :
  let vm := demo_group RoundRobin in
  exists st',
  let a := mkAttempt "ib" (demo_model "b" "kb") 0 1 in
  resolve_attempt_models (mkClocks 0 0) ∅ demo_snapshot "g" "ig" vm demo_request demo_state
    = Some (ROk [a], st') /\
  (is_semantic vm = false \/ is_Some (routing vm) ->
     target_in_groups demo_snapshot (at_model a) (allowed_groups demo_request) = true) /\
  (forall gate, req_budget demo_request = Some gate -> check_model gate (at_model a) = ROk tt) /\
  (forall r, routing vm = Some r ->
     (length [a] <= max_fallbacks_or_default r + 1)%nat /\
     ip_allowed (at_model a) (source_ip demo_request) = true /\
     (forall f, serves demo_request = Some f -> f (at_model a) = true) /\
     exists t0, t0 ∈ targets r /\
       t0 ∈ eligible_targets (targets_in_groups demo_snapshot (targets r) (allowed_groups demo_request))
              (req_tags demo_request) /\
       exists rev,
         model_named demo_snapshot (model_ref demo_snapshot t0) = Some (mkEntry (at_id a) (at_model a) rev)).
Proof.
  pose proof demo_resolved as H.
  destruct (resolve_attempt_models (mkClocks 0 0) ∅ demo_snapshot "g" "ig" (demo_group RoundRobin)
    demo_request demo_state) as [[res st']|] eqn:E; [|discriminate H].
  injection H as ->. exists st'. split; [exact E|].
  exact (attempts_respect_constraints _ _ _ _ _ _ _ _ _ _ _ E (list_elem_of_here _ _)).
Defined.

Lemma demo_snapshot_wf : table_wf display_name (models demo_snapshot).
Proof. do 2 apply insert_arc_wf. apply table_default_wf. Qed.

Lemma resolve_never_empty_witness :
  exists res st', resolve_attempt_models (mkClocks 0 0) ∅ demo_snapshot "g" "ig" (demo_group LeastCost)
    demo_request demo_state = Some (res, st') /\
    (res = ROk [] -> is_Some (serves demo_request) /\ is_Some (routing (demo_group LeastCost))).
Proof.
  apply resolve_never_empty; [apply demo_snapshot_wf|].
  intros r p sub _ Hne _. by apply registry_new_cached.
Defined.

Lemma metric_ranking_witness :
  let dear := mkModel "dear" None None None None None None false false
                (Some (mkCost (f64_of_N 3) (f64_of_N 4) None None)) None None None None None None in
  let cheap := mkModel "cheap" None None None None None None false false
                (Some (mkCost (f64_of_N 1) (f64_of_N 1) None None)) None None None None None None in
  let l := [mkAttempt "x" (demo_model "x" "k") 0 1; mkAttempt "d" dear 0 1; mkAttempt "c" cheap 0 1;
            mkAttempt "t" dear 1 1] in
  let routing := mkRouting LeastCost [] None None None None None None in
  let now := mkClocks 0 0 in
  let key := metric_key (strategy routing) now (tracker_new true) ∅ in
  let ranked := ranked_attempts now (tracker_new true) ∅ routing l in
  at_id <$> ranked = ["t"; "c"; "d"; "x"]%string /\
  ranked ≡ₚ l /\
  sorted (fun a b => (at_priority b <=? at_priority a)%Z) ranked /\
  (forall p, sorted (fun a b => total_leb (key a) (key b)) (filter (fun a => at_priority a = p) ranked)) /\
  (forall p k, filter (fun a => at_priority a = p /\ total_key (key a) = k) ranked
     = filter (fun a => at_priority a = p /\ total_key (key a) = k) l).
Proof.
  intros dear cheap l routing now key ranked. split; [vm_compute; reflexivity|].
  apply (metric_ranking now (tracker_new true) ∅ routing l). reflexivity.
Defined.
