(* ===== verification/Network.v ===== *)
(** * Addresses: whom a request comes from, and where it may go

    [aisix-gateway/src/ssrf.rs], which decides whether a URL the operator did not
    choose may be reached, and [aisix-proxy/src/client_ip.rs], which finds the
    client behind trusted proxies.

    An address is the number its octets spell.  Parsing and printing of addresses
    follow [core::net]; URLs, proxy settings, CIDR sets ([ipnet]) and name resolution
    are arguments. *)

From stdpp Require Import pretty.
From Stdlib Require Import ZifyBool ZifyN.
From S2P Require Import Prelude Sort Utf8 Routing.
Local Open Scope N_scope.

(** ** Addresses *)

Inductive IpAddr := V4 (a : N) | V6 (a : N).
#[export] Instance IpAddr_eq_dec : EqDecision IpAddr.
Proof. solve_decision. Defined.

Definition octets (a : N) : N * N * N * N :=
  (N.shiftr a 24 mod 256, N.shiftr a 16 mod 256, N.shiftr a 8 mod 256, a mod 256).
Definition from_octets (o0 o1 o2 o3 : N) : N := ((o0 * 256 + o1) * 256 + o2) * 256 + o3.
Definition segment (i : N) (a : N) : N := N.shiftr a (16 * (7 - i)) mod 65536.
Definition segments (a : N) : list N := (fun i => segment (N.of_nat i) a) <$> seq 0 8.
Definition from_segments (l : list N) : N := foldl (fun acc s => acc * 65536 + s) 0 l.

Definition all_zero (l : list N) : bool := forallb (N.eqb 0) l.
Definition to_ipv4_mapped (a : N) : option N :=
  match segments a with
  | [s0; s1; s2; s3; s4; s5; hi; lo] =>
      if all_zero [s0; s1; s2; s3; s4] && (s5 =? 0xffff) then Some (hi * 65536 + lo) else None
  | _ => None
  end.
Definition to_canonical (ip : IpAddr) : IpAddr :=
  match ip with
  | V4 a => V4 a
  | V6 a => match to_ipv4_mapped a with Some v4 => V4 v4 | None => V6 a end
  end.

(** *** Parsing

    A reader takes its value from the front of the input. *)
Definition to_digit (radix b : N) : option N :=
  let d := if between 48 57 b then Some (b - 48)
           else if between 97 122 b then Some (b - 87)
           else if between 65 90 b then Some (b - 55)
           else None in
  d ← d; if d <? radix then Some d else None.

Fixpoint read_digits (radix : N) (max_digits count : nat) (acc : N) (l : bytes) : option (N * nat * bytes) :=
  match l with
  | [] => Some (acc, count, l)
  | b :: rest =>
      match to_digit radix b with
      | Some d => if (max_digits <=? count)%nat then None else read_digits radix max_digits (S count) (acc * radix + d) rest
      | None => Some (acc, count, l)
      end
  end.
Definition read_number (radix : N) (max_digits : nat) (allow_zero_prefix : bool) (max_value : N) (l : bytes) : option (N * bytes) :=
  '(v, count, rest) ← read_digits radix max_digits 0 0 l;
  if (count =? 0)%nat || negb allow_zero_prefix && bool_decide (head l = Some 48) && (1 <? count)%nat then None
  else if v <=? max_value then Some (v, rest) else None.
Definition read_given_char (c : N) (l : bytes) : option bytes :=
  match l with b :: l => if b =? c then Some l else None | [] => None end.
Definition read_separator {A} (sep : N) (index : nat) (inner : bytes -> option (A * bytes)) (l : bytes) : option (A * bytes) :=
  match index with O => inner l | _ => l ← read_given_char sep l; inner l end.

Definition read_octet : bytes -> option (N * bytes) := read_number 10 3 false 255.
Definition read_ipv4_addr (l : bytes) : option (N * bytes) :=
  '(a, l) ← read_separator 46 0 read_octet l;
  '(b, l) ← read_separator 46 1 read_octet l;
  '(c, l) ← read_separator 46 2 read_octet l;
  '(d, l) ← read_separator 46 3 read_octet l;
  Some (from_octets a b c d, l).

(** [n] groups are left of the limit, [i] are read; the flag says the last two came
    from a dotted address. *)
Fixpoint read_groups (n i : nat) (l : bytes) : list N * bool * bytes :=
  match n with
  | O => ([], false, l)
  | S n =>
      match (if (1 <=? n)%nat then read_separator 58 i read_ipv4_addr l else None) with
      | Some (a, l) => ([a / 65536; a mod 65536], true, l)
      | None =>
          match read_separator 58 i (read_number 16 4 true 65535) l with
          | Some (g, l) => let '(gs, v4, l) := read_groups n (S i) l in (g :: gs, v4, l)
          | None => ([], false, l)
          end
      end
  end.
Definition read_ipv6_addr (l : bytes) : option (N * bytes) :=
  let '(front, front_ipv4, l) := read_groups 8 0 l in
  if (length front =? 8)%nat then Some (from_segments front, l)
  else if front_ipv4 then None
  else
    l ← read_given_char 58 l;
    l ← read_given_char 58 l;
    let '(back, _, l) := read_groups (8 - (length front + 1)) 0 l in
    Some (from_segments (front ++ replicate (8 - length front - length back) 0 ++ back), l).

Definition read_all {A} (r : option (A * bytes)) : option A := match r with Some (a, []) => Some a | _ => None end.
Definition parse_ip (l : bytes) : option IpAddr :=
  read_all (match read_ipv4_addr l with
            | Some (a, l) => Some (V4 a, l)
            | None => '(a, l) ← read_ipv6_addr l; Some (V6 a, l)
            end).
Definition parse_ipv6 (l : bytes) : option N := read_all (read_ipv6_addr l).

(** *** Printing *)

Definition ipv4_to_string (a : N) : string :=
  let '(o0, o1, o2, o3) := octets a in pretty o0 +:+ "." +:+ pretty o1 +:+ "." +:+ pretty o2 +:+ "." +:+ pretty o3.

Definition hex_char (d : N) : Ascii.ascii := Ascii.ascii_of_N (if d <? 10 then 48 + d else 87 + d).
Definition hex16 (s : N) : string :=
  let d i := hex_char (N.shiftr s i mod 16) in
  if s <? 16 then String (d 0) ""
  else if s <? 256 then String (d 4) (String (d 0) "")
  else if s <? 4096 then String (d 8) (String (d 4) (String (d 0) ""))
  else String (d 12) (String (d 8) (String (d 4) (String (d 0) ""))).
Definition fmt_subslice (l : list N) : string := String.concat ":" (hex16 <$> l).

(** The longest run of zero segments, the first among equals: where it starts, and
    how long it is. *)
Fixpoint zero_span (i : nat) (l : list N) (current longest : nat * nat) : nat * nat :=
  match l with
  | [] => longest
  | s :: l =>
      if s =? 0 then
        let current := (if (current.2 =? 0)%nat then i else current.1, S current.2) in
        zero_span (S i) l current (if (longest.2 <? current.2)%nat then current else longest)
      else zero_span (S i) l (0, 0)%nat longest
  end.
Definition ipv6_to_string (a : N) : string :=
  match to_ipv4_mapped a with
  | Some v4 => "::ffff:" +:+ ipv4_to_string v4
  | None =>
      let s := segments a in
      let '(start, len) := zero_span 0 s (0, 0)%nat (0, 0)%nat in
      if (1 <? len)%nat then fmt_subslice (take start s) +:+ "::" +:+ fmt_subslice (drop (start + len) s)
      else fmt_subslice s
  end.
Definition ip_to_string (ip : IpAddr) : string :=
  match ip with V4 a => ipv4_to_string a | V6 a => ipv6_to_string a end.

Example parses_v4 : parse_ip (lit "192.168.0.1") = Some (V4 3232235521).
Proof. reflexivity. Qed.
Example refuses_octal : parse_ip (lit "192.168.0.01") = None /\ parse_ip (lit "1.2.3.256") = None.
Proof. split; reflexivity. Qed.
Example parses_v6 : (ip_to_string <$> parse_ip (lit "64:FF9B::8.8.8.8")) = Some "64:ff9b::808:808".
Proof. vm_compute. reflexivity. Qed.
Example prints_v6 : ip_to_string (V6 1) = "::1" /\ ip_to_string (V6 0) = "::" /\
  (ip_to_string <$> parse_ip (lit "1:0:0:2:0:0:0:3")) = Some "1:0:0:2::3" /\
  (ip_to_string <$> parse_ip (lit "::FFFF:10.0.0.1")) = Some "::ffff:10.0.0.1".
Proof. vm_compute. auto. Qed.

(** ** Publicly routable addresses *)

(** [Ipv4Addr::is_loopback], [is_private], [is_link_local], [is_documentation] and
    [is_multicast]. *)
Definition v4_is_loopback (o0 : N) : bool := o0 =? 127.
Definition v4_is_private (o0 o1 : N) : bool :=
  (o0 =? 10) || (o0 =? 172) && between 16 31 o1 || (o0 =? 192) && (o1 =? 168).
Definition v4_is_link_local (o0 o1 : N) : bool := (o0 =? 169) && (o1 =? 254).
Definition v4_is_documentation (o0 o1 o2 : N) : bool :=
  (o0 =? 192) && (o1 =? 0) && (o2 =? 2) || (o0 =? 198) && (o1 =? 51) && (o2 =? 100) || (o0 =? 203) && (o1 =? 0) && (o2 =? 113).
Definition v4_is_multicast (o0 : N) : bool := between 224 239 o0.

Definition is_public_v4 (a : N) : bool :=
  let '(o0, o1, o2, _) := octets a in
  let blocked :=
    (o0 =? 0)
    || v4_is_loopback o0
    || v4_is_private o0 o1
    || (o0 =? 100) && (N.land o1 0xc0 =? 64)
    || v4_is_link_local o0 o1
    || (o0 =? 192) && (o1 =? 0) && (o2 =? 0)
    || v4_is_documentation o0 o1 o2
    || (o0 =? 198) && (N.land o1 0xfe =? 18)
    || (o0 =? 192) && (o1 =? 88) && (o2 =? 99)
    || v4_is_multicast o0
    || (240 <=? o0)
    || (a =? from_octets 168 63 129 16) in
  negb blocked.

(** [Ipv6Addr::is_unspecified], [is_loopback] and [is_multicast]. *)
Definition v6_is_unspecified (a : N) : bool := a =? 0.
Definition v6_is_loopback (a : N) : bool := a =? 1.
Definition v6_is_multicast (s0 : N) : bool := N.land s0 0xff00 =? 0xff00.

Definition embedded (hi lo : N) : N := N.lor (N.shiftl hi 16) lo.

Definition is_public_v6 (a : N) : bool :=
  match segments a with
  | [s0; s1; s2; s3; s4; s5; s6; s7] =>
      if v6_is_unspecified a || v6_is_loopback a || v6_is_multicast s0 then false
      else if all_zero [s0; s1; s2; s3; s4; s5] then false
      else if all_zero [s0; s1; s2; s3; s5] && (s4 =? 0xffff) then is_public_v4 (embedded s6 s7)
      else if (s0 =? 0x64) && (s1 =? 0xff9b) && all_zero [s2; s3; s4; s5] then is_public_v4 (embedded s6 s7)
      else if (s0 =? 0x64) && (s1 =? 0xff9b) && (s2 =? 1) then false
      else if (s0 =? 0x100) && all_zero [s1; s2; s3] then false
      else if (s0 =? 0x2001) && ((s1 <? 0x200) || (s1 =? 0xdb8)) then false
      else if s0 =? 0x2002 then is_public_v4 (embedded s1 s2)
      else if (s0 =? 0x3fff) && (s1 <? 0x1000) then false
      else if (N.land s0 0xfe00 =? 0xfc00) || (N.land s0 0xffc0 =? 0xfe80) || (N.land s0 0xffc0 =? 0xfec0) then false
      else true
  | _ => true
  end.

Definition is_public (ip : IpAddr) : bool :=
  match ip with
  | V4 v4 => is_public_v4 v4
  | V6 v6 => match to_ipv4_mapped v6 with Some v4 => is_public_v4 v4 | None => is_public_v6 v6 end
  end.

(** ** Outbound protection *)

Record AllowedHost := mkAllowed { allowed_host : string; allowed_port : option N }.

(** [str::parse::<u16>]: an optional [+], then digits. *)
Definition parse_u16 (l : bytes) : option N :=
  let ds := match l with b :: ds => if b =? 43 then ds else l | [] => l end in
  match ds with
  | [] => None
  | _ => foldl (fun acc d => v ← acc;
                 if between 48 57 d then let v := v * 10 + (d - 48) in if v <=? 65535 then Some v else None else None)
           (Some 0) ds
  end.
Fixpoint split_at_byte (sep : N) (l : bytes) : option (bytes * bytes) :=
  match l with
  | [] => None
  | b :: l => if b =? sep then Some ([], l) else '(x, y) ← split_at_byte sep l; Some (b :: x, y)
  end.
(** [rsplit_once] *)
Definition rsplit_at_byte (sep : N) (l : bytes) : option (bytes * bytes) :=
  '(x, y) ← split_at_byte sep (reverse l); Some (reverse y, reverse x).
Fixpoint drop_dots (l : bytes) : bytes := match l with b :: r => if b =? 46 then drop_dots r else l | [] => [] end.
(** [trim_end_matches('.')] and [to_ascii_lowercase] *)
Definition host_name (l : bytes) : string := ascii_lower (string_of_bytes (reverse (drop_dots (reverse l)))).

Definition parse_allowed_host (entry : string) : option AllowedHost :=
  let entry := lit (trim_str entry) in
  if bool_decide (entry = []) || existsb (fun b => existsb (N.eqb b) (lit "/@?#")) entry then None
  else match entry with
       | 91 :: rest =>
           '(addr, tail) ← split_at_byte 93 rest;
           host ← parse_ipv6 addr;
           match tail with
           | [] => Some (mkAllowed (ipv6_to_string host) None)
           | _ => digits ← read_given_char 58 tail; port ← parse_u16 digits; Some (mkAllowed (ipv6_to_string host) (Some port))
           end
       | _ =>
           match parse_ipv6 entry with
           | Some v6 => Some (mkAllowed (ipv6_to_string v6) None)
           | None =>
               '(host, port) ← match rsplit_at_byte 58 entry with
                               | Some (host, p) => port ← parse_u16 p; Some (host, Some port)
                               | None => Some (entry, None)
                               end;
               let host := host_name host in
               if bool_decide (host = "") then None else Some (mkAllowed host port)
           end
       end.

Record SsrfProtection := mkSsrf { enabled : bool; allowed_hosts : list AllowedHost }.
(** The error names the first entry that is not a host. *)
Definition ssrf_from_config (on : bool) (hosts : list string) : result SsrfProtection string :=
  foldr (fun e acc =>
    match parse_allowed_host e, acc with
    | None, _ => RErr e
    | Some a, ROk p => ROk (mkSsrf on (a :: allowed_hosts p))
    | Some _, RErr e => RErr e
    end) (ROk (mkSsrf on [])) hosts.

Definition allows (p : SsrfProtection) (host : string) (port : N) : bool :=
  existsb (fun a => bool_decide (allowed_host a = host) && match allowed_port a with None => true | Some q => q =? port end)
    (allowed_hosts p).

(** What [url::Url] says of a URL: its host, [port_or_known_default], and whether the
    environment proxy takes it. *)
Inductive Host := Domain (d : string) | HostV4 (a : N) | HostV6 (a : N).
Record Url := mkUrl { url_host : option Host; url_port : option N; proxied : bool }.

Definition host_of (u : Url) : option (string * option IpAddr) :=
  h ← url_host u;
  Some match h with
       | Domain d => (host_name (lit d), None)
       | HostV4 a => (ipv4_to_string a, Some (V4 a))
       | HostV6 a => (ipv6_to_string a, Some (V6 a))
       end.

Inductive Route := Pinned | Direct | Proxied.
Inductive Refusal := BadUrl | Blocked (ip : IpAddr) | Unresolvable.
#[export] Instance Route_eq_dec : EqDecision Route.
Proof. solve_decision. Defined.
#[export] Instance Refusal_eq_dec : EqDecision Refusal.
Proof. solve_decision. Defined.

(** [resolve], from the answer of the lookup. *)
Definition resolve_answer (answer : option (list IpAddr)) : result (list IpAddr) Refusal :=
  match answer with
  | None | Some [] => RErr Unresolvable
  | Some addrs => ROk addrs
  end.
Definition check_all (addrs : list IpAddr) : result unit Refusal :=
  match List.find (fun ip => negb (is_public ip)) addrs with
  | Some ip => RErr (Blocked ip)
  | None => ROk tt
  end.

(** [lookup] answers what the name server says of a host when it is asked. *)
Definition route (lookup : string -> option (list IpAddr)) (p : SsrfProtection) (u : Url) : result Route Refusal :=
  match host_of u, url_port u with
  | Some (host, ip), Some port =>
      let unchecked := if proxied u then Proxied else Direct in
      if negb (enabled p) || allows p host port then ROk unchecked
      else
        match ip with
        | Some ip => if is_public ip then ROk unchecked else RErr (Blocked ip)
        | None =>
            if negb (proxied u) then ROk Pinned
            else match resolve_answer (lookup host) with
                 | RErr e => RErr e
                 | ROk addrs => match check_all addrs with RErr e => RErr e | ROk _ => ROk Proxied end
                 end
        end
  | _, _ => RErr BadUrl
  end.

(** [DirectResolver::resolve]: the addresses the client connects to. *)
Definition direct_resolver (guarded : bool) (answer : option (list IpAddr)) : result (list IpAddr) Refusal :=
  match resolve_answer answer with
  | RErr _ => RErr Unresolvable
  | ROk addrs =>
      if guarded then match check_all addrs with RErr (Blocked ip) => RErr (Blocked ip) | _ => ROk addrs end
      else ROk addrs
  end.

(** ** The client behind trusted proxies

    A set of networks is the predicate it decides on canonical addresses. *)
Definition IpNet : Type := IpAddr -> bool.
Record ResolvedRealIp := mkRealIp { trusted : list IpNet; recursive : bool }.

Definition is_trusted (nets : list IpNet) (ip : IpAddr) : bool := existsb (fun net : IpNet => net (to_canonical ip)) nets.
Definition resolve_client_ip (peer : IpAddr) (forwarded : list IpAddr) (nets : list IpNet) (rec : bool) : IpAddr :=
  let peer := to_canonical peer in
  if negb (is_trusted nets peer) then peer
  else if rec then
    match List.find (fun ip => negb (is_trusted nets ip)) (reverse forwarded) with
    | Some ip => ip
    | None => default peer (head forwarded)
    end
  else default peer (last forwarded).

Definition is_ascii_space (b : N) : bool := (b =? 32) || (b =? 9) || (b =? 10) || (b =? 12) || (b =? 13).
Fixpoint trim_ascii_start (l : bytes) : bytes :=
  match l with b :: r => if is_ascii_space b then trim_ascii_start r else l | [] => [] end.
Definition trim_ascii (l : bytes) : bytes := reverse (trim_ascii_start (reverse (trim_ascii_start l))).

Definition parse_forwarded_token (tok : bytes) : option IpAddr :=
  match tok with
  | [] => None
  | 91 :: rest =>
      let inner := match split_at_byte 93 rest with Some (inner, _) => inner | None => rest end in
      to_canonical <$> parse_ip inner
  | _ =>
      match parse_ip tok with
      | Some ip => Some (to_canonical ip)
      | None =>
          if (length (List.filter (N.eqb 58) tok) =? 1)%nat
          then '(host, _) ← rsplit_at_byte 58 tok; to_canonical <$> parse_ip host
          else None
      end
  end.

Definition forwarded_tokens (fields : list bytes) : list bytes :=
  List.filter (fun t => negb (bool_decide (t = []))) (trim_ascii <$> (fields ≫= fun f => split_on 44 f [])).
Definition read_token (tok : bytes) : option IpAddr := _ ← from_utf8 tok; parse_forwarded_token tok.
Fixpoint map_while {A B} (f : A -> option B) (l : list A) : list B :=
  match l with [] => [] | x :: l => match f x with Some y => y :: map_while f l | None => [] end end.
(** The instances of the configured header, in received order. *)
Definition parse_forwarded (fields : list bytes) : list IpAddr := reverse (map_while read_token (reverse (forwarded_tokens fields))).

Definition client_ip (cfg : ResolvedRealIp) (peer : IpAddr) (fields : list bytes) : IpAddr :=
  resolve_client_ip peer (parse_forwarded fields) (trusted cfg) (recursive cfg).
Definition source_ip_from (cfg : ResolvedRealIp) (peer : option IpAddr) (fields : list bytes) : string :=
  match peer with Some peer => ip_to_string (client_ip cfg peer fields) | None => "" end.

Definition parse_routing_tags (raw : string) : list string :=
  List.filter (fun t => negb (bool_decide (t = ""))) ((fun t => trim_str (string_of_bytes t)) <$> split_on 44 (lit raw) []).

(** [parse_net] is [IpNet::from_str]. *)
Definition ip_in_cidrs (parse_net : string -> option IpNet) (source_ip : string) (cidrs : list string) : bool :=
  match parse_ip (lit source_ip) with
  | None => false
  | Some ip => existsb (fun net : IpNet => net (to_canonical ip)) (omap parse_net cidrs)
  end.

(** ** Special-purpose networks *)

(** A network is a prefix and its length; [w] is the width of an address. *)
Definition in_net (w a : N) (net : N * N) : bool := N.shiftr a (w - net.2) =? N.shiftr net.1 (w - net.2).

Definition special_v4 : list (N * N) :=
  [ (from_octets 0 0 0 0, 8); (from_octets 127 0 0 0, 8);
    (from_octets 10 0 0 0, 8); (from_octets 172 16 0 0, 12); (from_octets 192 168 0 0, 16);
    (from_octets 100 64 0 0, 10); (from_octets 169 254 0 0, 16); (from_octets 192 0 0 0, 24);
    (from_octets 192 0 2 0, 24); (from_octets 198 51 100 0, 24); (from_octets 203 0 113 0, 24);
    (from_octets 198 18 0 0, 15); (from_octets 192 88 99 0, 24); (from_octets 224 0 0 0, 4);
    (from_octets 240 0 0 0, 4); (from_octets 168 63 129 16, 32) ].

(** The prefix that starts with the given segments. *)
Definition prefix6 (l : list N) (len : N) : N * N := (from_segments (l ++ replicate (8 - length l) 0), len).
Definition special_v6 : list (N * N) :=
  [ prefix6 [0xff00] 8; prefix6 [] 96; prefix6 [0x64; 0xff9b; 1] 48; prefix6 [0x100] 64; prefix6 [0x2001] 23;
    prefix6 [0x2001; 0xdb8] 32; prefix6 [0x3fff] 20; prefix6 [0xfc00] 7; prefix6 [0xfe80] 10; prefix6 [0xfec0] 10 ].

(** The IPv4 address that an IPv6 address stands for: mapped, translated, behind
    NAT64, or the relay of 6to4. *)
Definition stands_for_v4 (a : N) : option N :=
  if existsb (in_net 128 a) [prefix6 [0; 0; 0; 0; 0; 0xffff] 96; prefix6 [0; 0; 0; 0; 0xffff; 0] 96; prefix6 [0x64; 0xff9b] 96]
  then Some (a mod 4294967296)
  else if in_net 128 a (prefix6 [0x2002] 16) then Some (N.shiftr a 80 mod 4294967296)
  else None.

Definition special (ip : IpAddr) : bool :=
  match ip with
  | V4 a => existsb (in_net 32 a) special_v4
  | V6 a => match stands_for_v4 a with
            | Some v4 => existsb (in_net 32 v4) special_v4
            | None => existsb (in_net 128 a) special_v6
            end
  end.
Definition ip_wf (ip : IpAddr) : Prop := match ip with V4 a => a < 2 ^ 32 | V6 a => a < 2 ^ 128 end.

Lemma land_mask x n k : N.land x (N.shiftl (N.ones n) k) = (x / 2 ^ k) mod 2 ^ n * 2 ^ k.
Proof.
  rewrite <- N.shiftl_mul_pow2, <- N.land_ones, <- N.shiftr_div_pow2. apply N.bits_inj_iff. intros i. rewrite N.land_spec.
  destruct (N.lt_ge_cases i k) as [Hi|Hi].
  - by rewrite !N.shiftl_spec_low, andb_false_r.
  - rewrite !N.shiftl_spec_high' by done. by rewrite N.land_spec, N.shiftr_spec', N.sub_add by done.
Qed.

Lemma v4_parts a : a < 2 ^ 32 ->
  exists o0 o1 o2 o3, octets a = (o0, o1, o2, o3) /\ a = from_octets o0 o1 o2 o3 /\ o0 < 256 /\ o1 < 256 /\ o2 < 256 /\ o3 < 256.
Proof.
  intros Ha. unfold octets, from_octets. rewrite !N.shiftr_div_pow2. change (2 ^ 24) with 16777216. change (2 ^ 16) with 65536.
  change (2 ^ 8) with 256. change (2 ^ 32) with 4294967296 in Ha. do 4 eexists. split; [reflexivity|]. split_and!; lia.
Qed.

Ltac powers := repeat match goal with
  | |- context [N.shiftr ?a ?k] => rewrite (N.shiftr_div_pow2 a k); let v := eval vm_compute in (2 ^ k) in change (2 ^ k) with v
  end.

Lemma octets_prefix o0 o1 o2 o3 : o0 < 256 -> o1 < 256 -> o2 < 256 -> o3 < 256 ->
  N.shiftr (from_octets o0 o1 o2 o3) 24 = o0 /\ N.shiftr (from_octets o0 o1 o2 o3) 16 = o0 * 256 + o1 /\
  N.shiftr (from_octets o0 o1 o2 o3) 8 = (o0 * 256 + o1) * 256 + o2.
Proof. unfold from_octets. intros. split_and!; powers; lia. Qed.

Lemma is_public_v4_exact a : a < 2 ^ 32 -> is_public_v4 a = negb (existsb (in_net 32 a) special_v4).
Proof.
  intros Ha. destruct (v4_parts a Ha) as (o0 & o1 & o2 & o3 & Ho & -> & H0 & H1 & H2 & H3). unfold is_public_v4. rewrite Ho.
  destruct (octets_prefix o0 o1 o2 o3 H0 H1 H2 H3) as (P24 & P16 & P8). set (a := from_octets o0 o1 o2 o3) in *.
  assert (forall k, N.shiftr a (24 + k) = o0 / 2 ^ k) as Q24 by (intros; by rewrite <- N.shiftr_shiftr, P24, N.shiftr_div_pow2).
  assert (forall k, N.shiftr a (16 + k) = (o0 * 256 + o1) / 2 ^ k) as Q16 by (intros; by rewrite <- N.shiftr_shiftr, P16, N.shiftr_div_pow2).
  assert (N.land o1 0xc0 = o1 / 64 mod 4 * 64) as -> by exact (land_mask o1 2 6).
  assert (N.land o1 0xfe = o1 / 2 mod 128 * 2) as -> by exact (land_mask o1 7 1).
  assert (N.shiftr a 28 = o0 / 16) as P28 by exact (Q24 4). assert (N.shiftr a 20 = (o0 * 256 + o1) / 16) as P20 by exact (Q16 4).
  assert (N.shiftr a 22 = (o0 * 256 + o1) / 64) as P22 by exact (Q16 6). assert (N.shiftr a 17 = (o0 * 256 + o1) / 2) as P17 by exact (Q16 1).
  assert (N.shiftr a 0 = a) as P0 by apply N.shiftr_0_r. clear Q24 Q16.
  f_equal. unfold special_v4, in_net. cbn [existsb fst snd].
  change (32 - 8) with 24. change (32 - 12) with 20. change (32 - 16) with 16. change (32 - 10) with 22. change (32 - 24) with 8.
  change (32 - 15) with 17. change (32 - 4) with 28. change (32 - 32) with 0.
  rewrite P24, P20, P16, P22, P8, P17, P28, P0. clearbody a. clear Ho Ha P24 P20 P16 P22 P8 P17 P28 P0.
  unfold v4_is_private, v4_is_documentation, v4_is_loopback, v4_is_link_local, v4_is_multicast, between.
  rewrite <- !orb_assoc, orb_false_r.
  repeat match goal with |- context [N.shiftr ?x ?k] => let v := eval vm_compute in (N.shiftr x k) in change (N.shiftr x k) with v end.
  change (from_octets 168 63 129 16) with 2822734096. repeat (apply (f_equal2 orb); [lia|]). reflexivity.
Qed.

(** The prefixes of an address, sixteen bits at a time. *)
Lemma shiftr_16 a k : N.shiftr a k = N.shiftr a (k + 16) * 65536 + N.shiftr a k mod 65536.
Proof.
  rewrite <- N.shiftr_shiftr, (N.shiftr_div_pow2 _ 16). change (2 ^ 16) with 65536.
  pose proof (N.div_mod (N.shiftr a k) 65536 ltac:(lia)). lia.
Qed.

Record parts6 (a s0 s1 s2 s3 s4 s5 s6 s7 : N) : Prop := {
  p_segments : segments a = [s0; s1; s2; s3; s4; s5; s6; s7];
  p_bounds : Forall (fun s => s < 65536) [s0; s1; s2; s3; s4; s5; s6; s7];
  p_112 : N.shiftr a 112 = s0;
  p_96 : N.shiftr a 96 = s0 * 65536 + s1;
  p_80 : N.shiftr a 80 = (s0 * 65536 + s1) * 65536 + s2;
  p_64 : N.shiftr a 64 = ((s0 * 65536 + s1) * 65536 + s2) * 65536 + s3;
  p_32 : N.shiftr a 32 = ((((s0 * 65536 + s1) * 65536 + s2) * 65536 + s3) * 65536 + s4) * 65536 + s5;
  p_0 : a = N.shiftr a 32 * 4294967296 + (s6 * 65536 + s7);
}.

Lemma v6_parts a : a < 2 ^ 128 -> exists s0 s1 s2 s3 s4 s5 s6 s7, parts6 a s0 s1 s2 s3 s4 s5 s6 s7.
Proof.
  intros Ha. do 8 eexists.
  assert (N.shiftr a 112 = segment 0 a) as H0.
  { unfold segment. change (16 * (7 - 0)) with 112. rewrite N.mod_small; [done|]. rewrite N.shiftr_div_pow2.
    apply N.Div0.div_lt_upper_bound. exact Ha. }
  pose proof (shiftr_16 a 96) as H1. pose proof (shiftr_16 a 80) as H2. pose proof (shiftr_16 a 64) as H3.
  pose proof (shiftr_16 a 48) as H4. pose proof (shiftr_16 a 32) as H5. pose proof (shiftr_16 a 16) as H6. pose proof (shiftr_16 a 0) as H7.
  change (96 + 16) with 112 in H1. change (80 + 16) with 96 in H2. change (64 + 16) with 80 in H3. change (48 + 16) with 64 in H4.
  change (32 + 16) with 48 in H5. change (16 + 16) with 32 in H6. change (0 + 16) with 16 in H7. rewrite N.shiftr_0_r in H7.
  change (segment 0 a) with (segment (N.of_nat 0) a) in H0.
  constructor; [reflexivity|..].
  - repeat (apply Forall_cons; split; [apply N.mod_lt; discriminate|]). by apply Forall_nil.
  - exact H0.
  - change (segment (N.of_nat 1) a) with (N.shiftr a 96 mod 65536). rewrite <- H0. exact H1.
  - change (segment (N.of_nat 2) a) with (N.shiftr a 80 mod 65536). change (segment (N.of_nat 1) a) with (N.shiftr a 96 mod 65536).
    rewrite <- H0, <- H1. exact H2.
  - change (segment (N.of_nat 3) a) with (N.shiftr a 64 mod 65536). change (segment (N.of_nat 2) a) with (N.shiftr a 80 mod 65536).
    change (segment (N.of_nat 1) a) with (N.shiftr a 96 mod 65536). rewrite <- H0, <- H1, <- H2. exact H3.
  - change (segment (N.of_nat 5) a) with (N.shiftr a 32 mod 65536). change (segment (N.of_nat 4) a) with (N.shiftr a 48 mod 65536).
    change (segment (N.of_nat 3) a) with (N.shiftr a 64 mod 65536). change (segment (N.of_nat 2) a) with (N.shiftr a 80 mod 65536).
    change (segment (N.of_nat 1) a) with (N.shiftr a 96 mod 65536). rewrite <- H0, <- H1, <- H2, <- H3, <- H4. exact H5.
  - change (segment (N.of_nat 6) a) with (N.shiftr a 16 mod 65536). change (segment (N.of_nat 7) a) with (a mod 65536).
    rewrite H7 at 1. rewrite H6 at 1. clear. generalize (N.shiftr a 32) (N.shiftr a 16 mod 65536) (a mod 65536). intros. lia.
Qed.

Lemma embedded_sum hi lo : lo < 65536 -> embedded hi lo = hi * 65536 + lo.
Proof.
  intros Hlo. unfold embedded. change 65536 with (2 ^ 16) in *. rewrite <- N.shiftl_mul_pow2.
  assert (N.land (N.shiftl hi 16) lo = 0) as Hz.
  { apply N.bits_inj_0. intros i. rewrite N.land_spec. destruct (N.lt_ge_cases i 16) as [Hi|Hi].
    - by rewrite N.shiftl_spec_low.
    - rewrite <- (N.mod_small lo (2 ^ 16)) by done. by rewrite N.mod_pow2_bits_high, andb_false_r. }
  by rewrite N.add_nocarry_lxor, N.lxor_lor.
Qed.

Lemma shiftr_more a k n : N.shiftr a (k + n) = N.shiftr a k / 2 ^ n.
Proof. by rewrite <- N.shiftr_shiftr, N.shiftr_div_pow2. Qed.

Section v6.
Context {a s0 s1 s2 s3 s4 s5 s6 s7 : N} (Hp : parts6 a s0 s1 s2 s3 s4 s5 s6 s7).

Lemma low_v4 : a mod 4294967296 = s6 * 65536 + s7 /\ N.shiftr a 80 mod 4294967296 = s1 * 65536 + s2.
Proof.
  destruct Hp as [_ Hb _ _ P80 _ _ P0]. rewrite !Forall_cons in Hb. destruct Hb as (H0 & H1 & H2 & H3 & H4 & H5 & H6 & H7 & _). split.
  - rewrite P0, N.add_comm, N.Div0.mod_add. apply N.mod_small. lia.
  - rewrite P80. replace ((s0 * 65536 + s1) * 65536 + s2) with (s1 * 65536 + s2 + s0 * 4294967296) by lia.
    rewrite N.Div0.mod_add. apply N.mod_small. lia.
Qed.

Ltac six := destruct Hp as [_ Hb P112 P96 P80 P64 P32 P0]; rewrite !Forall_cons in Hb; destruct Hb as (? & ? & ? & ? & ? & ? & ? & ? & _);
  unfold in_net, prefix6; cbn [fst snd].
Ltac settle := vm_compute (N.shiftr (from_segments _) _); cbn [all_zero forallb]; lia.

Lemma net_mapped : in_net 128 a (prefix6 [0; 0; 0; 0; 0; 0xffff] 96) = all_zero [s0; s1; s2; s3; s4] && (s5 =? 0xffff).
Proof. six. change (128 - 96) with 32. rewrite P32. settle. Qed.
Lemma net_siit : in_net 128 a (prefix6 [0; 0; 0; 0; 0xffff; 0] 96) = all_zero [s0; s1; s2; s3; s5] && (s4 =? 0xffff).
Proof. six. change (128 - 96) with 32. rewrite P32. settle. Qed.
Lemma net_nat64 : in_net 128 a (prefix6 [0x64; 0xff9b] 96) = (s0 =? 0x64) && (s1 =? 0xff9b) && all_zero [s2; s3; s4; s5].
Proof. six. change (128 - 96) with 32. rewrite P32. settle. Qed.
Lemma net_6to4 : in_net 128 a (prefix6 [0x2002] 16) = (s0 =? 0x2002).
Proof. six. change (128 - 16) with 112. rewrite P112. by vm_compute (N.shiftr (from_segments _) _). Qed.
Lemma net_compatible : in_net 128 a (prefix6 [] 96) = all_zero [s0; s1; s2; s3; s4; s5].
Proof. six. change (128 - 96) with 32. rewrite P32. settle. Qed.
Lemma net_local_nat64 : in_net 128 a (prefix6 [0x64; 0xff9b; 1] 48) = (s0 =? 0x64) && (s1 =? 0xff9b) && (s2 =? 1).
Proof. six. change (128 - 48) with 80. rewrite P80. settle. Qed.
Lemma net_discard : in_net 128 a (prefix6 [0x100] 64) = (s0 =? 0x100) && all_zero [s1; s2; s3].
Proof. six. change (128 - 64) with 64. rewrite P64. settle. Qed.
Lemma net_ietf : in_net 128 a (prefix6 [0x2001] 23) = (s0 =? 0x2001) && (s1 <? 0x200).
Proof. six. change (128 - 23) with (96 + 9). rewrite shiftr_more, P96. settle. Qed.
Lemma net_documentation : in_net 128 a (prefix6 [0x2001; 0xdb8] 32) = (s0 =? 0x2001) && (s1 =? 0xdb8).
Proof. six. change (128 - 32) with 96. rewrite P96. settle. Qed.
Lemma net_documentation2 : in_net 128 a (prefix6 [0x3fff] 20) = (s0 =? 0x3fff) && (s1 <? 0x1000).
Proof. six. change (128 - 20) with (96 + 12). rewrite shiftr_more, P96. settle. Qed.
Lemma net_multicast : in_net 128 a (prefix6 [0xff00] 8) = (N.land s0 0xff00 =? 0xff00).
Proof. six. change (128 - 8) with (112 + 8). rewrite shiftr_more, P112. change (N.land s0 0xff00) with (N.land s0 (N.shiftl (N.ones 8) 8)).
  rewrite land_mask. settle. Qed.
Lemma net_unique_local : in_net 128 a (prefix6 [0xfc00] 7) = (N.land s0 0xfe00 =? 0xfc00).
Proof. six. change (128 - 7) with (112 + 9). rewrite shiftr_more, P112. change (N.land s0 0xfe00) with (N.land s0 (N.shiftl (N.ones 7) 9)).
  rewrite land_mask. settle. Qed.
Lemma net_link_local : in_net 128 a (prefix6 [0xfe80] 10) = (N.land s0 0xffc0 =? 0xfe80).
Proof. six. change (128 - 10) with (112 + 6). rewrite shiftr_more, P112. change (N.land s0 0xffc0) with (N.land s0 (N.shiftl (N.ones 10) 6)).
  rewrite land_mask. settle. Qed.
Lemma net_site_local : in_net 128 a (prefix6 [0xfec0] 10) = (N.land s0 0xffc0 =? 0xfec0).
Proof. six. change (128 - 10) with (112 + 6). rewrite shiftr_more, P112. change (N.land s0 0xffc0) with (N.land s0 (N.shiftl (N.ones 10) 6)).
  rewrite land_mask. settle. Qed.
End v6.

Lemma is_public_v6_exact a : a < 2 ^ 128 -> to_ipv4_mapped a = None ->
  is_public_v6 a = match stands_for_v4 a with
                   | Some v4 => negb (existsb (in_net 32 v4) special_v4)
                   | None => negb (existsb (in_net 128 a) special_v6)
                   end.
Proof.
  intros Ha Hm. destruct (v6_parts a Ha) as (s0 & s1 & s2 & s3 & s4 & s5 & s6 & s7 & Hp).
  unfold to_ipv4_mapped in Hm. unfold is_public_v6, stands_for_v4, special_v6. cbn [existsb]. rewrite (p_segments _ _ _ _ _ _ _ _ _ Hp) in *.
  rewrite (net_mapped Hp), (net_siit Hp), (net_nat64 Hp), (net_6to4 Hp), (net_compatible Hp), (net_local_nat64 Hp), (net_discard Hp),
    (net_ietf Hp), (net_documentation Hp), (net_documentation2 Hp), (net_multicast Hp), (net_unique_local Hp), (net_link_local Hp),
    (net_site_local Hp). destruct (low_v4 Hp) as [-> ->].
  pose proof (p_bounds _ _ _ _ _ _ _ _ _ Hp) as Hb. rewrite !Forall_cons in Hb. destruct Hb as (H0 & H1 & H2 & H3 & H4 & H5 & H6 & H7 & _).
  rewrite !embedded_sum, !is_public_v4_exact by (change (2 ^ 32) with 4294967296; lia).
  destruct (all_zero [s0; s1; s2; s3; s4] && (s5 =? 65535)); [done|]. clear Hm.
  assert (v6_is_unspecified a || v6_is_loopback a = true -> all_zero [s0; s1; s2; s3; s4; s5] = true) as Hzero.
  { destruct Hp as [_ _ _ _ _ _ P32 P0]. unfold v6_is_unspecified, v6_is_loopback. cbn [all_zero forallb]. rewrite P32 in P0. lia. }
  assert (v6_is_multicast s0 = true -> 65280 <= s0) as Hmulti.
  { unfold v6_is_multicast. change (N.land s0 0xff00) with (N.land s0 (N.shiftl (N.ones 8) 8)). rewrite land_mask. lia. }
  change (N.land s0 65280 =? 65280) with (v6_is_multicast s0). clear Hp Ha.
  generalize dependent (v6_is_unspecified a || v6_is_loopback a). intros loop Hzero.
  assert (forall b, loop || v6_is_multicast s0 || all_zero [s0; s1; s2; s3; s4; s5] = b ->
    (if loop || v6_is_multicast s0 then false else if all_zero [s0; s1; s2; s3; s4; s5] then false else true) = negb b) as Hfirst
    by (intros b <-; by destruct loop, (v6_is_multicast s0), (all_zero _)).
  cbn [orb]. rewrite !orb_false_r.
  destruct (all_zero [s0; s1; s2; s3; s5] && (s4 =? 65535)) eqn:ET.
  { cbn [orb]. assert (v6_is_multicast s0 = false) as -> by (destruct (v6_is_multicast s0); [cbn [all_zero forallb] in ET; lia|done]).
    assert (all_zero [s0; s1; s2; s3; s4; s5] = false) as Hz by (cbn [all_zero forallb] in *; lia). rewrite Hz in *.
    destruct loop; [by specialize (Hzero eq_refl)|done]. }
  destruct ((s0 =? 100) && (s1 =? 65435) && all_zero [s2; s3; s4; s5]) eqn:EN.
  { cbn [orb]. assert (v6_is_multicast s0 = false) as -> by (destruct (v6_is_multicast s0); [lia|done]).
    assert (all_zero [s0; s1; s2; s3; s4; s5] = false) as Hz by (cbn [all_zero forallb] in *; lia). rewrite Hz in *.
    destruct loop; [by specialize (Hzero eq_refl)|done]. }
  cbn [orb]. destruct (s0 =? 8194) eqn:ES.
  { assert (v6_is_multicast s0 = false) as -> by (destruct (v6_is_multicast s0); [lia|done]).
    assert (all_zero [s0; s1; s2; s3; s4; s5] = false) as Hz by (cbn [all_zero forallb] in *; lia). rewrite Hz in *.
    destruct loop; [by specialize (Hzero eq_refl)|]. cbn [orb].
    replace (s0 =? 100) with false by lia. replace (s0 =? 256) with false by lia. by replace (s0 =? 8193) with false by lia. }
  destruct (v6_is_multicast s0); [by rewrite orb_true_r|]. rewrite orb_false_r. cbn [orb].
  destruct (all_zero [s0; s1; s2; s3; s4; s5]); [by destruct loop|]. destruct loop; [by specialize (Hzero eq_refl)|]. cbn [orb].
  destruct ((s0 =? 100) && (s1 =? 65435) && (s2 =? 1)); [done|]. cbn [orb]. destruct ((s0 =? 256) && _); [done|]. cbn [orb].
  destruct (s0 =? 8193); cbn [andb]; (destruct (s1 <? 512); cbn [orb]; try done); (destruct (s1 =? 3512); cbn [orb]; try done);
    (destruct ((s0 =? 16383) && _); cbn [orb]; try done); by destruct (N.land s0 65024 =? 64512), (N.land s0 65472 =? 65152), (N.land s0 65472 =? 65216).
Qed.

Lemma is_public_exact ip : ip_wf ip -> is_public ip = negb (special ip).
Proof.
  destruct ip as [a|a]; [apply is_public_v4_exact|]. intros Ha. cbn [is_public special]. destruct (to_ipv4_mapped a) as [v4|] eqn:Hm.
  - destruct (v6_parts a Ha) as (s0 & s1 & s2 & s3 & s4 & s5 & s6 & s7 & Hp). unfold to_ipv4_mapped in Hm.
    rewrite (p_segments _ _ _ _ _ _ _ _ _ Hp) in Hm. unfold stands_for_v4. cbn [existsb]. rewrite (net_mapped Hp).
    destruct (low_v4 Hp) as [-> _]. pose proof (p_bounds _ _ _ _ _ _ _ _ _ Hp) as Hb. rewrite !Forall_cons in Hb.
    destruct (all_zero [s0; s1; s2; s3; s4] && (s5 =? 65535)); [|done]. injection Hm as <-. cbn [orb].
    apply is_public_v4_exact. change (2 ^ 32) with 4294967296. lia.
  - rewrite is_public_v6_exact by done. by destruct (stands_for_v4 a).
Qed.

(** C17. An address is publicly routable for the gateway exactly when it is in none of
    the special-purpose networks, where an IPv6 address that stands for an IPv4
    address is judged as that address: the octet and segment tests of [is_public_v4]
    and [is_public_v6] decide membership in the listed prefixes. *)
Theorem public_exact ip : ip_wf ip -> is_public ip = negb (special ip).
Proof. apply is_public_exact. Qed.

Lemma metadata_mapped_wf : ip_wf (V6 281473533782526).
Proof. reflexivity. Qed.
(** [::ffff:169.254.169.254]: the metadata service, written as an IPv6 address. *)
Example public_exact_witness : is_public (V6 281473533782526) = negb (special (V6 281473533782526)).
Proof. exact (public_exact (V6 281473533782526) metadata_mapped_wf). Defined.
Example public_cases :
  (is_public <$> omap (fun s => parse_ip (lit s))
     ["169.254.169.254"; "::ffff:169.254.169.254"; "64:ff9b::10.0.0.1"; "2002:7f00:1::"; "64:ff9b::8.8.8.8"; "8.8.8.8"; "2606:4700::1111"; "fd00::1"])
  = [false; false; false; false; true; true; true; false].
Proof. vm_compute. reflexivity. Qed.

(** ** What a refused or admitted URL may reach *)

Definition names_public (addrs : list IpAddr) : Prop := addrs <> [] /\ Forall (fun ip => is_public ip = true) addrs.

Lemma check_all_spec addrs :
  match check_all addrs with
  | ROk _ => Forall (fun ip => is_public ip = true) addrs
  | RErr e => exists ip, e = Blocked ip /\ ip ∈ addrs /\ is_public ip = false
  end.
Proof.
  unfold check_all. induction addrs as [|ip addrs IH]; [by constructor|]. cbn [List.find].
  destruct (is_public ip) eqn:Hip; cbn [negb].
  - destruct (List.find _ addrs); [|by constructor]. destruct IH as (q & -> & Hin & Hq). exists q. split_and!; [done|by right|done].
  - exists ip. split_and!; [done|left|done].
Qed.

Lemma direct_resolver_spec answer addrs : direct_resolver true answer = ROk addrs -> answer = Some addrs /\ names_public addrs.
Proof.
  unfold direct_resolver. destruct answer as [[|q l]|]; cbn [resolve_answer]; try done. pose proof (check_all_spec (q :: l)) as Hc.
  destruct (check_all (q :: l)); [|by destruct Hc as (? & -> & _)]. intros [= <-]. by repeat split.
Qed.

(** C16. With the protection on, a host and port that the operator has not allowed are
    reached at public addresses only: a direct connection goes to a public literal,
    or is pinned, and then the resolver the connection uses yields exactly what the
    name server answered and no address of it is private, whatever it answers at that
    moment; a proxied one names a public literal or a name whose whole answer was
    public.  A block names an address that is not public. *)
Theorem route_guarded lookup p u host ip port :
  enabled p = true -> host_of u = Some (host, ip) -> url_port u = Some port -> allows p host port = false ->
  match route lookup p u with
  | ROk Pinned => proxied u = false /\ ip = None /\
      forall answer addrs, direct_resolver true answer = ROk addrs -> answer = Some addrs /\ names_public addrs
  | ROk Direct => proxied u = false /\ exists a, ip = Some a /\ is_public a = true
  | ROk Proxied => proxied u = true /\
      match ip with Some a => is_public a = true | None => exists addrs, lookup host = Some addrs /\ names_public addrs end
  | RErr (Blocked a) => is_public a = false /\
      (ip = Some a \/ ip = None /\ proxied u = true /\ exists addrs, lookup host = Some addrs /\ a ∈ addrs)
  | RErr Unresolvable => ip = None /\ proxied u = true /\ default [] (lookup host) = []
  | RErr BadUrl => False
  end.
Proof.
  intros Hon Hh Hp Hallow. unfold route. rewrite Hh, Hp, Hon, Hallow. cbn [negb orb]. destruct ip as [a|].
  - destruct (is_public a) eqn:Ha; [destruct (proxied u); by eauto|]. by auto.
  - destruct (proxied u); cbn [negb]; [|by split_and!; eauto using direct_resolver_spec].
    destruct (lookup host) as [[|q l]|] eqn:Hl; cbn [resolve_answer]; [done| |done].
    pose proof (check_all_spec (q :: l)) as Hc. destruct (check_all (q :: l)).
    + split; [done|]. by exists (q :: l).
    + destruct Hc as (b & -> & Hin & Hb). split; [done|]. right. by eauto 6.
Qed.

Definition demo_ssrf : SsrfProtection := mkSsrf true [mkAllowed "hooks.internal" (Some 8443)].
Definition demo_lookup (host : string) : option (list IpAddr) := Some [V4 134744072; V4 167772161].
Definition demo_hook : Url := mkUrl (Some (Domain "Hooks.Internal.")) (Some 443) true.
(** The name is allowed on another port, and its answer mixes a public and a private
    address. *)
Lemma route_guarded_witness : match route demo_lookup demo_ssrf demo_hook with
  | RErr (Blocked a) => is_public a = false
  | _ => False
  end.
Proof.
  pose proof (route_guarded demo_lookup demo_ssrf demo_hook "hooks.internal" None 443 eq_refl eq_refl eq_refl eq_refl) as H.
  exact (proj1 H).
Defined.

(** ** Who a forwarded header can name *)

Lemma split_on_app sep f s acc : split_on sep (f ++ sep :: s) acc = split_on sep f acc ++ split_on sep s [].
Proof.
  revert acc. induction f as [|b f IH]; intros acc; cbn [app split_on]; [by rewrite N.eqb_refl|]. by destruct (b =? sep); rewrite IH.
Qed.

Lemma forwarded_tokens_app l k : forwarded_tokens (l ++ k) = forwarded_tokens l ++ forwarded_tokens k.
Proof. unfold forwarded_tokens. by rewrite bind_app, fmap_app, List.filter_app. Qed.
Lemma forwarded_tokens_comma f s : forwarded_tokens [f ++ 44 :: s] = forwarded_tokens [f] ++ forwarded_tokens [s].
Proof. rewrite <- forwarded_tokens_app. unfold forwarded_tokens. cbn [mbind list_bind app]. by rewrite split_on_app, !app_nil_r. Qed.

Section map_while.
Context {A B : Type} (f : A -> option B).

Lemma map_while_app l k :
  map_while f (l ++ k) = map_while f l ++ (if existsb (fun x => bool_decide (f x = None)) l then [] else map_while f k).
Proof.
  induction l as [|x l IH]; cbn [app map_while existsb]; [done|]. destruct (f x) eqn:Hf; cbn [orb bool_decide]; [|done].
  rewrite IH. by destruct (existsb _ l).
Qed.
Lemma elem_of_map_while l y : (forall x, x ∈ l -> f x <> None) -> y ∈ omap f l -> y ∈ map_while f l.
Proof.
  intros Hall. induction l as [|x l IH]; [done|]. specialize (Hall x ltac:(left)) as Hx. cbn. destruct (f x); [|done].
  rewrite !elem_of_cons. intros [->|Hy]; [by left|right]. apply IH; [|done]. intros z Hz. apply Hall. by right.
Qed.
End map_while.

(** A token at which the walk from the right ends. *)
Definition ends_walk (cfg : ResolvedRealIp) (tok : bytes) : bool :=
  match read_token tok with None => true | Some ip => negb (recursive cfg) || negb (is_trusted (trusted cfg) ip) end.

Lemma find_app {A} (f : A -> bool) l k : List.find f (l ++ k) = match List.find f l with Some x => Some x | None => List.find f k end.
Proof. induction l as [|x l IH]; cbn; [done|]. by destruct (f x). Qed.

Lemma walk_ends cfg peer own before : existsb (ends_walk cfg) own = true ->
  resolve_client_ip peer (reverse (map_while read_token (own ++ before))) (trusted cfg) (recursive cfg)
  = resolve_client_ip peer (reverse (map_while read_token own)) (trusted cfg) (recursive cfg).
Proof.
  intros Hend. rewrite map_while_app. destruct (existsb (fun x => bool_decide (read_token x = None)) own) eqn:Hall; [by rewrite app_nil_r|].
  apply existsb_exists in Hend as (tok & Hin & Htok). unfold ends_walk in Htok. destruct (read_token tok) as [ip|] eqn:Hip.
  2: { assert (existsb (fun x => bool_decide (read_token x = None)) own = true) as Ht; [|by rewrite Ht in Hall].
       apply existsb_exists. exists tok. split; [done|]. by apply bool_decide_eq_true. }
  assert (ip ∈ map_while read_token own) as Hmem.
  { apply elem_of_map_while.
    - intros x Hx Hn. assert (existsb (fun x => bool_decide (read_token x = None)) own = true) as Ht; [|by rewrite Ht in Hall].
      apply existsb_exists. exists x. split; [by apply list_elem_of_In|]. by apply bool_decide_eq_true.
    - apply list_elem_of_omap. exists tok. split; [by apply list_elem_of_In|done]. }
  unfold resolve_client_ip. destruct (negb (is_trusted (trusted cfg) (to_canonical peer))); [done|].
  destruct (recursive cfg); cbn [negb orb] in Htok.
  - rewrite !reverse_involutive, find_app. destruct (List.find _ (map_while read_token own)) eqn:Hf; [done|].
    pose proof (List.find_none _ _ Hf ip ltac:(by apply list_elem_of_In)) as Hn. cbn in Hn. by rewrite Htok in Hn.
  - rewrite reverse_app. destruct (map_while read_token own) as [|x l]; [by apply not_elem_of_nil in Hmem|].
    by rewrite reverse_cons, app_assoc, !last_snoc.
Qed.

(** C22. The sender of a request cannot choose the address it is known by.  When the
    fields that the trusted proxies wrote hold a token that ends the walk - one that
    names no address, an address that is not a trusted proxy's or, without
    [recursive], any address - whatever the sender put to the left of them, in the
    same field or in fields before it, changes nothing; and a peer that is not a
    trusted proxy is the client itself, whatever the headers say. *)
Theorem client_ip_unspoofable cfg peer pre f s post :
  (existsb (ends_walk cfg) (forwarded_tokens (s :: post)) = true ->
   client_ip cfg peer (pre ++ (f ++ 44 :: s) :: post) = client_ip cfg peer (s :: post) /\
   client_ip cfg peer (pre ++ s :: post) = client_ip cfg peer (s :: post)) /\
  (is_trusted (trusted cfg) (to_canonical peer) = false -> client_ip cfg peer (pre ++ s :: post) = to_canonical peer).
Proof.
  unfold client_ip. split.
  - intros Hend.
    assert (existsb (ends_walk cfg) (reverse (forwarded_tokens (s :: post))) = true) as Hown.
    { apply existsb_exists in Hend as (t & Hin & Ht). apply existsb_exists. exists t. split; [|done].
      apply list_elem_of_In, elem_of_reverse. by apply list_elem_of_In. }
    unfold parse_forwarded. split.
    + change ((f ++ 44 :: s) :: post) with ([f ++ 44 :: s] ++ post). change (s :: post) with ([s] ++ post) in Hown |- *.
      rewrite !forwarded_tokens_app, forwarded_tokens_comma in *. rewrite <- app_assoc, app_assoc, reverse_app. by apply walk_ends.
    + rewrite forwarded_tokens_app, reverse_app. by apply walk_ends.
  - intros Hpeer. unfold resolve_client_ip. by rewrite Hpeer.
Qed.

Definition demo_proxies : ResolvedRealIp :=
  mkRealIp [fun ip => match ip with V4 a => in_net 32 a (from_octets 10 0 0 0, 8) | V6 _ => false end] true.
(** The peer [::ffff:10.0.0.1] is trusted; the sender claimed [1.1.1.1], the outer
    proxy saw [203.0.113.7] and the inner one [10.0.0.2]. *)
Lemma client_ip_unspoofable_witness :
  client_ip demo_proxies (V6 281470849515521) ([] ++ (lit "1.1.1.1" ++ 44 :: lit " 203.0.113.7") :: [lit "10.0.0.2"])
  = client_ip demo_proxies (V6 281470849515521) [lit " 203.0.113.7"; lit "10.0.0.2"].
Proof.
  exact (proj1 (proj1 (client_ip_unspoofable demo_proxies (V6 281470849515521) [] (lit "1.1.1.1") (lit " 203.0.113.7") [lit "10.0.0.2"]) eq_refl)).
Defined.
Example client_seen :
  source_ip_from demo_proxies (Some (V6 281470849515521)) [lit "1.1.1.1, 203.0.113.7"; lit "10.0.0.2:80"] = "203.0.113.7" /\
  source_ip_from demo_proxies (Some (V4 134744072)) [lit "1.1.1.1"] = "8.8.8.8".
Proof. vm_compute. auto. Qed.
