(* ===== verification/RespCache.v ===== *)
(** * The response cache

    The [Cache] trait ([aisix-cache/src/cache.rs]) and its in-process backend
    ([memory.rs]), cache policies ([models/cache_policy.rs]), the gate of the
    endpoints that relay bodies ([aisix-proxy/src/response_cache.rs]) and the cache
    steps of the chat handler ([chat.rs]).

    A backend is a type of states with the operations of [Cache]; what the gates
    rely on, that it serves under a key only what was put under that key, is
    [CacheLaws].  [moka], which holds the entries of the in-process backend, is the
    class [Moka].  Latches that only choose the level of a log line are left out. *)

From S2P Require Import Prelude Sort Utf8 Snapshot F64 RateStore Policy Models Access Guardrail Json CacheKey SemCache Routing.
From Stdlib Require Import SpecFloat.
From stdpp Require Import pretty.
Local Open Scope N_scope.

(** ** Answers *)

Inductive FinishReason := Stop | Length | ContentFilter | ToolCalls | OtherReason (s : string).
#[export] Instance FinishReason_eq_dec : EqDecision FinishReason.
Proof. solve_decision. Defined.

(** The parts of a [ChatResponse] the cache reads, and the rest. *)
Record UpstreamAnswer := mkAnswer {
  finish_reason : FinishReason;
  answer_extras : list (list (string * json));
  answer_rest : string;
}.
Abbreviation ChatResponse := (CachedResponse (A := UpstreamAnswer)).

Definition refuses (extra : list (string * json)) : bool :=
  bool_decide (is_Some (json_get "images" (JObject extra)))
  || match str_field "refusal" (JObject extra) with Some (String _ _) => true | _ => false end.
Definition answer_is_storable (a : ChatResponse) : bool :=
  negb (bool_decide (finish_reason (answer a) = ContentFilter)) && negb (existsb refuses (answer_extras (answer a))).

Record CachedBody := mkBody { content_type : string; body : bytes; prompt_tokens : N; completion_tokens : N }.

(** ** The storage seam *)

Inductive CacheError := BackendError (message : string).

Class Cache (C : Type) := {
  cache_get : N -> string -> C -> result (option ChatResponse) CacheError * C;
  cache_put : N -> string -> ChatResponse -> C -> result unit CacheError * C;
  cache_put_with_ttl : N -> string -> ChatResponse -> N -> C -> result unit CacheError * C;
  cache_get_body : N -> string -> C -> result (option CachedBody) CacheError * C;
  cache_put_body_with_ttl : N -> string -> CachedBody -> N -> C -> result unit CacheError * C;
  cache_entry_count : C -> option N;
}.

(** What may be read under a key; a put adds its value under its key, an answer
    without its service tier, and nothing else. *)
Class CacheLaws (C : Type) `{Cache C} := {
  holds : C -> string -> ChatResponse -> Prop;
  holds_body : C -> string -> CachedBody -> Prop;
  get_held now k c v c' : cache_get now k c = (ROk (Some v), c') -> holds c k v;
  get_keeps now k c k' v' : holds (cache_get now k c).2 k' v' -> holds c k' v';
  get_keeps_body now k c k' v' : holds_body (cache_get now k c).2 k' v' -> holds_body c k' v';
  put_adds now k v ttl c k' v' :
    holds (cache_put_with_ttl now k v ttl c).2 k' v' -> holds c k' v' \/ k' = k /\ v' = without_tier v;
  put_keeps_body now k v ttl c k' v' : holds_body (cache_put_with_ttl now k v ttl c).2 k' v' -> holds_body c k' v';
  get_body_held now k c v c' : cache_get_body now k c = (ROk (Some v), c') -> holds_body c k v;
  get_body_keeps now k c k' v' : holds_body (cache_get_body now k c).2 k' v' -> holds_body c k' v';
  get_body_keeps_chat now k c k' v' : holds (cache_get_body now k c).2 k' v' -> holds c k' v';
  put_body_adds now k v ttl c k' v' :
    holds_body (cache_put_body_with_ttl now k v ttl c).2 k' v' -> holds_body c k' v' \/ k' = k /\ v' = v;
  put_body_keeps_chat now k v ttl c k' v' : holds (cache_put_body_with_ttl now k v ttl c).2 k' v' -> holds c k' v';
}.

(** ** The in-process backend *)

(** [moka::future::Cache]: entries with a lifetime fixed when they are created, and
    evicted by weight. *)
Class Moka (M : Type -> Type) := {
  moka_get {V} : N -> string -> M V -> option V * M V;
  moka_insert {V} : N -> string -> V -> N -> N -> M V -> M V;
  moka_entry_count {V} : M V -> N;
  moka_contains {V} : M V -> string -> V -> Prop;
  moka_get_contained {V} now k (m : M V) v m' : moka_get now k m = (Some v, m') -> moka_contains m k v;
  moka_get_keeps {V} now k (m : M V) k' v' : moka_contains (moka_get now k m).2 k' v' -> moka_contains m k' v';
  moka_insert_adds {V} now k v ttl weight (m : M V) k' v' :
    moka_contains (moka_insert now k v ttl weight m) k' v' -> moka_contains m k' v' \/ k' = k /\ v' = v;
}.

Definition DEFAULT_TTL : N := from_secs 300.
Definition DEFAULT_CAPACITY : N := 268435456.

Record Entry := mkStored { stored_response : ChatResponse; stored_ttl : N; stored_weight : N }.
Record BodyEntry := mkStoredBody { stored_body : CachedBody; body_ttl : N; body_weight : N }.

Section memory.
Context `{Moka M} (json_len : ChatResponse -> option nat).

Record MemoryCache := mkMemory { inner : M Entry; bodies : M BodyEntry; fallback_ttl : N }.

Definition weight_of (len : nat) : N := N.min (N.of_nat len) u32_max.

Definition memory_put_with_ttl (now : N) (key : string) (value : ChatResponse) (ttl : N) (c : MemoryCache)
    : result unit CacheError * MemoryCache :=
  let value := without_tier value in
  let weight := match json_len value with Some len => weight_of len | None => u32_max end in
  (ROk tt, mkMemory (moka_insert now key (mkStored value ttl weight) ttl weight (inner c)) (bodies c) (fallback_ttl c)).
Definition memory_put (now : N) (key : string) (value : ChatResponse) (c : MemoryCache) : result unit CacheError * MemoryCache :=
  memory_put_with_ttl now key value (fallback_ttl c) c.
Definition memory_get (now : N) (key : string) (c : MemoryCache) : result (option ChatResponse) CacheError * MemoryCache :=
  let '(found, m) := moka_get now key (inner c) in
  (ROk (stored_response <$> found), mkMemory m (bodies c) (fallback_ttl c)).
Definition memory_get_body (now : N) (key : string) (c : MemoryCache) : result (option CachedBody) CacheError * MemoryCache :=
  let '(found, m) := moka_get now key (bodies c) in
  (ROk (stored_body <$> found), mkMemory (inner c) m (fallback_ttl c)).
Definition memory_put_body_with_ttl (now : N) (key : string) (value : CachedBody) (ttl : N) (c : MemoryCache)
    : result unit CacheError * MemoryCache :=
  let weight := weight_of (length (body value)) in
  (ROk tt, mkMemory (inner c) (moka_insert now key (mkStoredBody value ttl weight) ttl weight (bodies c)) (fallback_ttl c)).
Definition memory_entry_count (c : MemoryCache) : option N := Some (moka_entry_count (inner c)).

#[export] Instance memory_cache : Cache MemoryCache := {
  cache_get := memory_get;
  cache_put := memory_put;
  cache_put_with_ttl := memory_put_with_ttl;
  cache_get_body := memory_get_body;
  cache_put_body_with_ttl := memory_put_body_with_ttl;
  cache_entry_count := memory_entry_count;
}.

Definition memory_holds (c : MemoryCache) (k : string) (v : ChatResponse) : Prop :=
  exists e, moka_contains (inner c) k e /\ v = stored_response e.
Definition memory_holds_body (c : MemoryCache) (k : string) (v : CachedBody) : Prop :=
  exists e, moka_contains (bodies c) k e /\ v = stored_body e.

(** The in-process backend keeps the laws of the seam. *)
#[export] Instance memory_cache_laws : CacheLaws MemoryCache.
Proof.
  refine {| holds := memory_holds; holds_body := memory_holds_body |}; cbn;
    unfold memory_get, memory_get_body, memory_put_with_ttl, memory_put_body_with_ttl, memory_holds, memory_holds_body.
  - intros now k c v c'. destruct (moka_get now k (inner c)) as [[e|] m] eqn:E; [|done]. intros [= <- _].
    exists e. split; [by eapply moka_get_contained|done].
  - intros now k c k' v'. destruct (moka_get now k (inner c)) as [f m] eqn:E. intros (e & He & ->). exists e. split; [|done].
    apply (moka_get_keeps now k). by rewrite E.
  - intros now k c k' v'. by destruct (moka_get now k (inner c)).
  - intros now k v ttl c k' v' (e & He & ->). apply moka_insert_adds in He as [He|[-> ->]]; [left; by exists e|by right].
  - done.
  - intros now k c v c'. destruct (moka_get now k (bodies c)) as [[e|] m] eqn:E; [|done]. intros [= <- _].
    exists e. split; [by eapply moka_get_contained|done].
  - intros now k c k' v'. destruct (moka_get now k (bodies c)) as [f m] eqn:E. intros (e & He & ->). exists e. split; [|done].
    apply (moka_get_keeps now k). by rewrite E.
  - intros now k c k' v'. by destruct (moka_get now k (bodies c)).
  - intros now k v ttl c k' v' (e & He & ->). apply moka_insert_adds in He as [He|[-> ->]]; [left; by exists e|by right].
  - done.
Defined.
End memory.

(** The seam of the semantic layer. *)
Class SemanticCacheStore (S : Type) := {
  sem_lookup : N -> string -> N -> string -> list f32 -> f32 -> S -> result (option (SemanticHit (A := UpstreamAnswer))) CacheError;
  sem_store : SemanticWrite (A := UpstreamAnswer) -> S -> result unit CacheError * S;
}.
Class SemanticLaws (S : Type) `{SemanticCacheStore S} := {
  sem_holds : S -> string -> N -> string -> ChatResponse -> Prop;
  lookup_held now p g sc emb t s hit : sem_lookup now p g sc emb t s = ROk (Some hit) -> sem_holds s p g sc (hit_response hit);
  store_adds w s p g sc r : sem_holds (sem_store w s).2 p g sc r ->
    sem_holds s p g sc r \/ w_policy w = p /\ w_generation w = g /\ w_scope w = sc /\ r = without_tier (w_response w);
}.

#[export] Instance memory_semantic : SemanticCacheStore (gmap string (PolicyEntries (A := UpstreamAnswer))) := {
  sem_lookup now p g sc emb t s := ROk (semantic_lookup now p g sc emb t s);
  sem_store w s := (ROk tt, semantic_store w s);
}.

Lemma semantic_store_elem (w : SemanticWrite (A := UpstreamAnswer)) c p pe e :
  semantic_store w c !! p = Some pe -> e ∈ SemCache.entries pe ->
  (exists pe', c !! p = Some pe' /\ generation pe' = generation pe /\ e ∈ SemCache.entries pe') \/
  w_policy w = p /\ w_generation w = generation pe /\ e = written_entry w.
Proof.
  unfold semantic_store. set (c' := map_imap (reclaim w) c). set (policy := default _ (c' !! _)).
  assert (forall q pe', c' !! q = Some pe' -> exists pe0, c !! q = Some pe0 /\ generation pe0 = generation pe' /\
    forall x, x ∈ SemCache.entries pe' -> x ∈ SemCache.entries pe0) as Hc'.
  { intros q pe'. unfold c'. rewrite map_lookup_imap. destruct (c !! q) as [pe0|]; [|done]. cbn [mbind option_bind]. unfold reclaim.
    case_bool_decide; [intros [= <-]; by exists pe0|].
    destruct (pop_expired (w_now w) (SemCache.entries pe0)) as [|x l] eqn:E; [done|]. intros [= <-]. exists pe0. split_and!; [done..|].
    cbn [SemCache.entries]. rewrite <- E. apply pop_expired_elem. }
  assert (forall x, x ∈ SemCache.entries policy -> exists pe0, c !! w_policy w = Some pe0 /\ generation pe0 = generation policy /\
    x ∈ SemCache.entries pe0) as Hpol.
  { unfold policy. destruct (c' !! w_policy w) as [pe'|] eqn:E; [|by intros x ?%elem_of_nil].
    intros x Hx. destruct (Hc' _ _ E) as (pe0 & ? & ? & Hin). exists pe0. split_and!; [done..|by apply Hin]. }
  destruct (N.ltb_spec (w_generation w) (generation policy)) as [Hlt|Hge]; destruct (decide (p = w_policy w)) as [->|Hne].
  - rewrite lookup_insert_eq. intros [= <-] He. left. by apply Hpol.
  - rewrite lookup_insert_ne by done. intros E He. destruct (Hc' _ _ E) as (pe0 & ? & ? & Hin). left. exists pe0. auto.
  - rewrite lookup_insert_eq. intros [= <-]. cbn [SemCache.entries generation]. unfold keep_newest.
    intros He. eapply elem_of_sublist in He; [|apply sublist_drop]. apply elem_of_app in He as [He|He]; [left|apply list_elem_of_singleton in He; by right].
    apply list_elem_of_In, filter_In in He as [He%list_elem_of_In%pop_expired_elem _].
    destruct (N.ltb_spec (generation policy) (w_generation w)); [by apply elem_of_nil in He|].
    destruct (Hpol e He) as (pe0 & ? & ? & ?). exists pe0. split_and!; [done|lia|done].
  - rewrite lookup_insert_ne by done. intros E He. destruct (Hc' _ _ E) as (pe0 & ? & ? & Hin). left. exists pe0. auto.
Qed.

#[export] Instance memory_semantic_laws : SemanticLaws (gmap string (PolicyEntries (A := UpstreamAnswer))).
Proof.
  refine {| sem_holds s p g sc r := exists pe e, s !! p = Some pe /\ generation pe = g /\ e ∈ SemCache.entries pe /\
    scope_fp e = sc /\ response e = r |}; cbn.
  - intros now p g sc emb t s hit [= H]. pose proof (semantic_lookup_spec now p g sc emb t s) as Hn. rewrite H in Hn.
    destruct Hn as (e & He & -> & _). unfold live_candidates in He. destruct (s !! p) as [pe|] eqn:E; [|by apply elem_of_nil in He].
    destruct (N.eqb_spec (generation pe) g); [|by apply elem_of_nil in He].
    apply list_elem_of_In, filter_In in He as [He Hl]. apply list_elem_of_In in He. unfold live_in in Hl.
    apply andb_true_iff in Hl as [Hs%bool_decide_eq_true _]. exists pe, e. done.
  - intros w s p g sc r (pe & e & Hp & <- & He & <- & <-). destruct (semantic_store_elem w s p pe e Hp He) as [(pe' & ? & ? & ?)|(? & ? & ->)].
    + left. by exists pe', e.
    + right. done.
Defined.

(** ** Policies *)

Inductive CacheBackend := MemoryBackend | RedisBackend.
#[export] Instance CacheBackend_eq_dec : EqDecision CacheBackend.
Proof. solve_decision. Defined.
Inductive CacheScope := ScopeApiKey | ScopeEnv | ScopeTeam.
#[export] Instance CacheScope_eq_dec : EqDecision CacheScope.
Proof. solve_decision. Defined.

Record SemanticCacheConfig := mkSemanticConfig {
  embedding_model : string;
  embedding_model_id : option string;
  sim_threshold : f32;
  max_entries : N;
  embedding_timeout_ms : option N;
}.
Definition embedding_timeout (c : SemanticCacheConfig) : option N :=
  (fun ms => ms * 1000000) <$> (ms ← embedding_timeout_ms c; if 0 <? ms then Some ms else None).

Record CachePolicy := mkCachePolicy {
  cp_name : string;
  cp_enabled : bool;
  cp_backend : CacheBackend;
  cp_ttl_seconds : N;
  cp_applies_to : string;
  cp_applies_to_model_id : option string;
  cp_scope : CacheScope;
  cp_purge_generation : N;
  cp_semantic : option SemanticCacheConfig;
}.

Inductive AppliesTo := AppliesToAll | AppliesToModel (want : string) | AppliesToApiKey (want : string).

Definition parsed_applies_to (snapshot : AisixSnapshot) (p : CachePolicy) : AppliesTo :=
  match cp_applies_to_model_id p with
  | Some id => AppliesToModel (resolve_model_ref snapshot "" (Some id))
  | None =>
      let raw := lit (trim_str (cp_applies_to p)) in
      match Utf8.strip_prefix (lit "model:") raw with
      | Some rest => AppliesToModel (trim_str (of_bytes rest))
      | None =>
          match Utf8.strip_prefix (lit "api_key:") raw with
          | Some rest => AppliesToApiKey (trim_str (of_bytes rest))
          | None => AppliesToAll
          end
      end
  end.

Definition policy_matches (a : AppliesTo) (model api_key_id : string) : bool :=
  match a with
  | AppliesToAll => true
  | AppliesToModel want => bool_decide (model = want)
  | AppliesToApiKey want => bool_decide (api_key_id = want)
  end.

Abbreviation PolicyRow := (ResourceEntry CachePolicy).

(** The first enabled policy that accepts the model and the key. *)
Definition matched_policy (policies : ResourceTable CachePolicy) (snapshot : AisixSnapshot) (model key_id : string)
    : option PolicyRow :=
  find (fun e : PolicyRow => cp_enabled (value e) && policy_matches (parsed_applies_to snapshot (value e)) model key_id)
    (Snapshot.entries policies).

(** ** Who shares an entry *)

Definition cache_scope_value (scope : CacheScope) (auth : AuthenticatedKey) : option string :=
  match scope with
  | ScopeApiKey => Some (entry_id (auth_entry auth))
  | ScopeEnv => None
  | ScopeTeam =>
      Some match team_id (auth_key auth) ≫= nonempty_str with
           | Some team => "team:" +:+ team
           | None => "key:" +:+ entry_id (auth_entry auth)
           end
  end.

Definition body_scope_part (scope_value : option string) : option string :=
  match scope_value with
  | None => Some ""
  | Some EmptyString => None
  | Some value => Some value
  end.

(** ** What the caller and the telemetry see *)

Inductive CacheStatus := Disabled | Miss | Hit | BypassStatus.
Inductive CacheHitLayer := ExactLayer | SemanticLayer.

Definition cache_status_str (s : CacheStatus) : string :=
  match s with Disabled => "disabled" | Miss => "miss" | Hit => "hit" | BypassStatus => "bypass" end.
Definition metric_outcome (s : CacheStatus) (layer : option CacheHitLayer) : option string :=
  match s, layer with
  | Hit, Some SemanticLayer => Some "hit_semantic"
  | Hit, _ => Some "hit_exact"
  | Miss, _ => Some "miss"
  | BypassStatus, _ => Some "bypass"
  | Disabled, _ => None
  end.
Definition hit_layer_str (l : CacheHitLayer) : string := match l with ExactLayer => "exact" | SemanticLayer => "semantic" end.

Record CacheTelemetry := mkTelemetry { tele_status : CacheStatus; saved_input_tokens : N; saved_output_tokens : N }.
Definition telemetry_hit (b : CachedBody) : CacheTelemetry := mkTelemetry Hit (prompt_tokens b) (completion_tokens b).
Definition telemetry_of (s : CacheStatus) : CacheTelemetry := mkTelemetry s 0 0.
Definition telemetry_cost {F} (zero : F) (request_cost_usd : F) (t : CacheTelemetry) : F :=
  match tele_status t with Hit => zero | _ => request_cost_usd end.
Definition telemetry_layer (t : CacheTelemetry) : string := match tele_status t with Hit => "exact" | _ => "" end.

Record CacheControlDirectives := mkDirectives { no_cache : bool; no_store : bool }.
Definition directive (d : CacheControlDirectives) (token : list N) : CacheControlDirectives :=
  let token := Routing.ascii_lower (trim_str (string_of_bytes token)) in
  if bool_decide (token = "no-cache") then mkDirectives true (no_store d)
  else if bool_decide (token = "no-store") then mkDirectives (no_cache d) true
  else d.
(** The values of every [Cache-Control] header of the request. *)
Definition cache_control_directives (values : list string) : CacheControlDirectives :=
  foldl (fun d v => match to_str v with
                    | Some s => foldl directive d (split_on 44 (lit s) [])
                    | None => d
                    end) (mkDirectives false false) values.
Definition cache_control_directives_of (headers : option (list string)) : bool * bool :=
  match headers with
  | None => (false, false)
  | Some values => let d := cache_control_directives values in (no_cache d, no_store d)
  end.

(** ** The gates *)

Record CacheBackends (C S : Type) := mkBackends {
  memory : C;
  redis : option C;
  semantic_memory : S;
  semantic_redis : option S;
}.
Arguments mkBackends {C S}.
Arguments memory {C S}.
Arguments redis {C S}.
Arguments semantic_memory {C S}.
Arguments semantic_redis {C S}.

(** What a handler knows of the request when it reaches the cache: [cq_tags] are
    the routing tags of the client, [cq_cache_control] its [Cache-Control] headers. *)
Record CacheRequest := mkCacheRequest {
  cq_policies : ResourceTable CachePolicy;
  cq_snapshot : AisixSnapshot;
  cq_auth : AuthenticatedKey;
  cq_model_name : string;
  cq_model : Model;
  cq_tags : list string;
  cq_cache_control : option (list string);
}.
Definition request_policy (q : CacheRequest) : option PolicyRow :=
  matched_policy (cq_policies q) (cq_snapshot q) (cq_model_name q) (entry_id (auth_entry (cq_auth q))).

Record BodyCache := mkBodyCache {
  bc_backend : CacheBackend;
  bc_key : string;
  bc_ttl : N;
  bc_policy_name : string;
  bc_no_cache : bool;
  bc_no_store : bool;
}.

(** What identifies a relayed request under the policy [p]. *)
Definition body_parts (q : CacheRequest) (endpoint key_material : string) (p : PolicyRow) (scope_part : string) : list string :=
  [endpoint; cq_model_name q; key_material; entry_id p; pretty (cp_purge_generation (value p)); scope_part]
  ++ option_list (cache_vary_tags (cq_model q) (cq_tags q)).

Record SemanticGateCtx := mkSemanticGate {
  sg_cfg : SemanticCacheConfig;
  sg_embed_entry : ResourceEntry Model;
  sg_policy_id : string;
  sg_policy_name : string;
  sg_generation : N;
  sg_scope_fp : string;
  sg_text : string;
}.
Record ChatGate := mkChatGate {
  cg_backend : CacheBackend;
  cg_key : string;
  cg_ttl : N;
  cg_no_cache : bool;
  cg_no_store : bool;
  cg_semantic : option SemanticGateCtx;
}.

(** [(x * 10_000.0).round() / 10_000.0] *)
Definition f32_round (x : f32) : f32 :=
  match x with
  | S754_finite s m (Zneg e) =>
      binary_normalize 24 128 (cond_Zopp s (Z.shiftr (Zpos m + Z.shiftl 1 (Zpos e - 1)) (Zpos e))) 0 s
  | _ => x
  end.
Definition four_places (x : f32) : f32 :=
  f32_div (f32_round (f32_mul x (binary_normalize 24 128 10000 0 false))) (binary_normalize 24 128 10000 0 false).

Section gates.
Context {C S : Type} `{Cache C} `{SemanticCacheStore S}.
Context (sha256 : bytes -> bytes) (json_to_string : json -> string).
(** The dimensions of a model's embedding block, and the embedding call. *)
Context (embedding_of : Model -> option N) (embed : SemanticGateCtx -> option (list f32)).

Abbreviation Backends := (CacheBackends C S).

Definition for_policy_backend (b : CacheBackend) (st : Backends) : option C :=
  match b with MemoryBackend => Some (memory st) | RedisBackend => redis st end.
Definition semantic_for_policy_backend (b : CacheBackend) (st : Backends) : option S :=
  match b with MemoryBackend => Some (semantic_memory st) | RedisBackend => semantic_redis st end.
Definition set_cache (b : CacheBackend) (c : C) (st : Backends) : Backends :=
  match b with
  | MemoryBackend => mkBackends c (redis st) (semantic_memory st) (semantic_redis st)
  | RedisBackend => mkBackends (memory st) (Some c) (semantic_memory st) (semantic_redis st)
  end.
Definition set_semantic (b : CacheBackend) (s : S) (st : Backends) : Backends :=
  match b with
  | MemoryBackend => mkBackends (memory st) (redis st) s (semantic_redis st)
  | RedisBackend => mkBackends (memory st) (redis st) (semantic_memory st) (Some s)
  end.

Definition body_resolve (backends : option Backends) (q : CacheRequest) (endpoint key_material : string) : option BodyCache :=
  entry ← request_policy q;
  st ← backends;
  _ ← for_policy_backend (cp_backend (value entry)) st;
  scope_part ← body_scope_part (cache_scope_value (cp_scope (value entry)) (cq_auth q));
  let key := body_fingerprint sha256 (body_parts q endpoint key_material entry scope_part) in
  let directives := cache_control_directives_of (cq_cache_control q) in
  Some (mkBodyCache (cp_backend (value entry)) key (from_secs (cp_ttl_seconds (value entry))) (cp_name (value entry))
    directives.1 directives.2).

Definition body_miss_status (g : BodyCache) : CacheStatus := if bc_no_cache g then BypassStatus else Miss.

Definition body_lookup (now : N) (g : BodyCache) (st : Backends) : option CachedBody * Backends :=
  if bc_no_cache g then (None, st)
  else match for_policy_backend (bc_backend g) st with
       | None => (None, st)
       | Some c =>
           match cache_get_body now (bc_key g) c with
           | (ROk hit, c) => (hit, set_cache (bc_backend g) c st)
           | (RErr _, c) => (None, set_cache (bc_backend g) c st)
           end
       end.

Definition body_store (now : N) (g : BodyCache) (b : CachedBody) (st : Backends) : Backends :=
  if bc_no_store g then st
  else match for_policy_backend (bc_backend g) st with
       | None => st
       | Some c => set_cache (bc_backend g) (cache_put_body_with_ttl now (bc_key g) b (bc_ttl g) c).2 st
       end.

Definition request_key (q : CacheRequest) (req : ChatRequest) (p : PolicyRow) : CacheKey :=
  chat_key json_to_string req (entry_id p) (cp_purge_generation (value p))
    (cache_scope_value (cp_scope (value p)) (cq_auth q)) (cache_vary_tags (cq_model q) (cq_tags q)).

Definition semantic_gate (st : Backends) (q : CacheRequest) (req : ChatRequest) (p : PolicyRow) : option SemanticGateCtx :=
  cfg ← cp_semantic (value p);
  _ ← semantic_for_policy_backend (cp_backend (value p)) st;
  text ← semantic_prompt_text req;
  e ← get_by_name (resolve_model_ref (cq_snapshot q) (embedding_model cfg) (embedding_model_id cfg)) (models (cq_snapshot q));
  dims ← embedding_of (value e);
  let scope_fp := scope_fingerprint sha256 (request_key q req p) +:+ ":" +:+ entry_id e +:+ ":"
    +:+ default "" (model_name (value e)) +:+ ":" +:+ pretty dims in
  Some (mkSemanticGate cfg e (entry_id p) (cp_name (value p)) (cp_purge_generation (value p)) scope_fp text).

(** [None]: the status is [Disabled]. *)
Definition chat_gate (backends : option Backends) (q : CacheRequest) (req : ChatRequest) : option ChatGate :=
  entry ← request_policy q;
  st ← backends;
  _ ← for_policy_backend (cp_backend (value entry)) st;
  let directives := cache_control_directives_of (cq_cache_control q) in
  Some (mkChatGate (cp_backend (value entry)) (fingerprint sha256 (request_key q req entry))
    (from_secs (cp_ttl_seconds (value entry))) directives.1 directives.2 (semantic_gate st q req entry)).

Definition chat_status (g : option ChatGate) : CacheStatus :=
  match g with None => Disabled | Some g => if cg_no_cache g then BypassStatus else Miss end.

Abbreviation Answered := (ChatResponse * CacheHitLayer * option f32)%type.

(** The similarity lookup after an exact miss: what is served, the embedding kept
    for the write, and the copy into the exact layer. *)
Definition semantic_read (now : N) (g : ChatGate) (sem : SemanticGateCtx) (s : S) (vector : list f32) (st : Backends)
    : option Answered * option (list f32) * Backends :=
  match sem_lookup now (sg_policy_id sem) (sg_generation sem) (sg_scope_fp sem) vector (sim_threshold (sg_cfg sem)) s with
  | ROk (Some hit) =>
      let remaining := hit_expires_at hit - now in
      let backfill_ttl := N.min (cg_ttl g) remaining in
      let st :=
        if backfill_ttl =? 0 then st
        else match for_policy_backend (cg_backend g) st with
             | None => st
             | Some c => set_cache (cg_backend g) (cache_put_with_ttl now (cg_key g) (hit_response hit) backfill_ttl c).2 st
             end in
      (Some (hit_response hit, SemanticLayer, Some (four_places (similarity hit))), None, st)
  | _ => (None, Some vector, st)
  end.

Definition resolve_cache_hit (now : N) (g : ChatGate) (st : Backends) : option Answered * option (list f32) * Backends :=
  match for_policy_backend (cg_backend g) st with
  | None => (None, None, st)
  | Some c =>
      let '(found, c) := cache_get now (cg_key g) c in
      let st := set_cache (cg_backend g) c st in
      match found with
      | ROk (Some cached) => (Some (cached, ExactLayer, None), None, st)
      | _ =>
          match cg_semantic g with
          | None => (None, None, st)
          | Some sem =>
              match embed sem, semantic_for_policy_backend (cg_backend g) st with
              | Some vector, Some s => semantic_read now g sem s vector st
              | _, _ => (None, None, st)
              end
          end
      end
  end.

Definition chat_read (now : N) (g : ChatGate) (st : Backends) : option Answered * option (list f32) * Backends :=
  if cg_no_cache g then (None, None, st) else resolve_cache_hit now g st.

Definition semantic_write (g : ChatGate) (sem : SemanticGateCtx) (now : N) (upstream : ChatResponse) (vector : list f32)
    : SemanticWrite :=
  mkWrite (sg_policy_id sem) (sg_generation sem) (sg_scope_fp sem) (cg_key g) vector upstream (cg_ttl g)
    (max_entries (sg_cfg sem)) now.

Definition chat_write (now : N) (g : ChatGate) (upstream : ChatResponse) (semantic_embedding : option (list f32)) (st : Backends)
    : Backends :=
  if cg_no_store g || negb (answer_is_storable upstream) then st
  else match for_policy_backend (cg_backend g) st with
       | None => st
       | Some c =>
           let st := set_cache (cg_backend g) (cache_put_with_ttl now (cg_key g) upstream (cg_ttl g) c).2 st in
           match cg_semantic g with
           | None => st
           | Some sem =>
               let vector := or_else semantic_embedding (if cg_no_cache g then embed sem else None) in
               match vector, semantic_for_policy_backend (cg_backend g) st with
               | Some vector, Some s => set_semantic (cg_backend g) (sem_store (semantic_write g sem now upstream vector) s).2 st
               | _, _ => st
               end
           end
       end.

(** ** Runs of the cache *)

Inductive cache_op :=
  | BodyRead (now : N) (q : CacheRequest) (endpoint key_material : string)
  | BodyWrite (now : N) (q : CacheRequest) (endpoint key_material : string) (b : CachedBody)
  | ChatRead (now : N) (q : CacheRequest) (req : ChatRequest)
  | ChatWrite (now : N) (q : CacheRequest) (req : ChatRequest) (upstream : ChatResponse) (semantic_embedding : option (list f32)).

Definition exec (st : Backends) (op : cache_op) : Backends :=
  match op with
  | BodyRead now q e m => match body_resolve (Some st) q e m with Some g => (body_lookup now g st).2 | None => st end
  | BodyWrite now q e m b => match body_resolve (Some st) q e m with Some g => body_store now g b st | None => st end
  | ChatRead now q req => match chat_gate (Some st) q req with Some g => (chat_read now g st).2 | None => st end
  | ChatWrite now q req up emb => match chat_gate (Some st) q req with Some g => chat_write now g up emb st | None => st end
  end.
Definition cache_run (ops : list cache_op) (st : Backends) : Backends := foldl exec st ops.

Context `{!CacheLaws C} `{!SemanticLaws S}.

Definition all_held (P : CacheBackend -> string -> ChatResponse -> Prop) (st : Backends) : Prop :=
  forall b c k v, for_policy_backend b st = Some c -> holds c k v -> P b k v.
Definition all_bodies (P : CacheBackend -> string -> CachedBody -> Prop) (st : Backends) : Prop :=
  forall b c k v, for_policy_backend b st = Some c -> holds_body c k v -> P b k v.
Definition all_semantic (P : CacheBackend -> string -> N -> string -> ChatResponse -> Prop) (st : Backends) : Prop :=
  forall b s p g sc r, semantic_for_policy_backend b st = Some s -> sem_holds s p g sc r -> P b p g sc r.

Lemma for_backend_set b b' c st :
  for_policy_backend b' (set_cache b c st) = if decide (b' = b) then Some c else for_policy_backend b' st.
Proof. by destruct b, b'. Qed.
Lemma semantic_backend_set_cache b b' c st :
  semantic_for_policy_backend b' (set_cache b c st) = semantic_for_policy_backend b' st.
Proof. by destruct b, b'. Qed.
Lemma for_backend_set_semantic b b' s st : for_policy_backend b' (set_semantic b s st) = for_policy_backend b' st.
Proof. by destruct b, b'. Qed.
Lemma semantic_backend_set b b' s st :
  semantic_for_policy_backend b' (set_semantic b s st) = if decide (b' = b) then Some s else semantic_for_policy_backend b' st.
Proof. by destruct b, b'. Qed.

(** What a step adds to a store is what it was handed. *)
Lemma all_held_set P b c c' st :
  all_held P st -> for_policy_backend b st = Some c -> (forall k v, holds c' k v -> holds c k v \/ P b k v) ->
  all_held P (set_cache b c' st).
Proof.
  intros Hst Hc Hadd b' c0 k v. rewrite for_backend_set. case_decide as Hb; [|by apply Hst]. subst b'. intros [= <-] Hv.
  destruct (Hadd k v Hv) as [?|?]; [by eapply Hst|done].
Qed.
Lemma all_bodies_set P b c c' st :
  all_bodies P st -> for_policy_backend b st = Some c -> (forall k v, holds_body c' k v -> holds_body c k v \/ P b k v) ->
  all_bodies P (set_cache b c' st).
Proof.
  intros Hst Hc Hadd b' c0 k v. rewrite for_backend_set. case_decide as Hb; [|by apply Hst]. subst b'. intros [= <-] Hv.
  destruct (Hadd k v Hv) as [?|?]; [by eapply Hst|done].
Qed.
Lemma all_semantic_cache P b c st : all_semantic P st -> all_semantic P (set_cache b c st).
Proof. intros Hst b' s p g sc r. rewrite semantic_backend_set_cache. apply Hst. Qed.

(** *** Relayed bodies *)

Definition resolved (q : CacheRequest) (p : PolicyRow) (scope_part : string) : Prop :=
  request_policy q = Some p /\ body_scope_part (cache_scope_value (cp_scope (value p)) (cq_auth q)) = Some scope_part.

Lemma body_resolve_inv bs q e m g :
  body_resolve bs q e m = Some g ->
  exists p sp, resolved q p sp /\ bc_backend g = cp_backend (value p) /\
    bc_key g = body_fingerprint sha256 (body_parts q e m p sp) /\
    (bc_no_cache g, bc_no_store g) = cache_control_directives_of (cq_cache_control q).
Proof.
  unfold body_resolve, resolved. destruct (request_policy q) as [p|]; [|done]. destruct bs as [st|]; [|done].
  cbn [mbind option_bind]. destruct (for_policy_backend _ st); [|done]. cbn [mbind option_bind].
  destruct (body_scope_part _) as [sp|] eqn:E; [|done]. intros [= <-]. exists p, sp. cbn. by destruct (cache_control_directives_of _).
Qed.

Definition body_from (ops : list cache_op) (b : CacheBackend) (k : string) (v : CachedBody) : Prop :=
  exists now q e m p sp, BodyWrite now q e m v ∈ ops /\ resolved q p sp /\ b = cp_backend (value p) /\
    k = body_fingerprint sha256 (body_parts q e m p sp) /\ (cache_control_directives_of (cq_cache_control q)).2 = false.

Lemma body_lookup_bodies P now g st : all_bodies P st -> all_bodies P (body_lookup now g st).2.
Proof.
  intros Hst. unfold body_lookup. destruct (bc_no_cache g); [done|]. destruct (for_policy_backend _ st) as [c|] eqn:Hc; [|done].
  pose proof (get_body_keeps now (bc_key g) c) as Hk. destruct (cache_get_body now (bc_key g) c) as [[hit|] c'];
    cbn [snd] in *; (eapply all_bodies_set; [done|done|auto]).
Qed.

Lemma semantic_read_bodies P now g sem s vector st :
  all_bodies P st -> all_bodies P (semantic_read now g sem s vector st).2.
Proof.
  intros Hst. unfold semantic_read. destruct (sem_lookup _ _ _ _ _ _ _) as [[hit|]|]; [|done|done]. cbn [snd].
  destruct (_ =? 0); [done|]. destruct (for_policy_backend _ st) as [c|] eqn:Hc; [|done].
  eapply all_bodies_set; [done|done|]. intros k v Hv. left. by eapply put_keeps_body.
Qed.

Lemma chat_read_bodies P now g st : all_bodies P st -> all_bodies P (chat_read now g st).2.
Proof.
  intros Hst. unfold chat_read, resolve_cache_hit. destruct (cg_no_cache g); [done|].
  destruct (for_policy_backend _ st) as [c|] eqn:Hc; [|done]. pose proof (get_keeps_body now (cg_key g) c) as Hk.
  destruct (cache_get now (cg_key g) c) as [found c']. cbn [snd] in Hk.
  assert (all_bodies P (set_cache (cg_backend g) c' st)) as Hst' by (eapply all_bodies_set; [done|done|auto]).
  destruct found as [[cached|]|]; [done| |]; (destruct (cg_semantic g) as [sem|]; [|done]);
    (destruct (embed sem) as [vector|]; [|done]); (destruct (semantic_for_policy_backend _ _) as [s|]; [|done]);
    by apply semantic_read_bodies.
Qed.

Lemma chat_write_bodies P now g up emb st : all_bodies P st -> all_bodies P (chat_write now g up emb st).
Proof.
  intros Hst. unfold chat_write. destruct (_ || _); [done|]. destruct (for_policy_backend _ st) as [c|] eqn:Hc; [|done].
  assert (all_bodies P (set_cache (cg_backend g) (cache_put_with_ttl now (cg_key g) up (cg_ttl g) c).2 st)) as Hst'.
  { eapply all_bodies_set; [done|done|]. intros k v Hv. left. by eapply put_keeps_body. }
  destruct (cg_semantic g) as [sem|]; [|done]. destruct (or_else _ _); [|done].
  destruct (semantic_for_policy_backend _ _); [|done]. intros b c0 k v. rewrite for_backend_set_semantic. apply Hst'.
Qed.

Lemma all_bodies_mono P Q st : (forall b k v, P b k v -> Q b k v) -> all_bodies P st -> all_bodies Q st.
Proof. intros HPQ Hst b c k v ? ?. eapply HPQ, Hst; eauto. Qed.

Lemma run_bodies ops st0 : all_bodies (fun _ _ _ => False) st0 -> all_bodies (body_from ops) (cache_run ops st0).
Proof.
  intros Hinit. unfold cache_run. induction ops as [|op ops IH] using rev_ind; [eapply all_bodies_mono; [|exact Hinit]; done|].
  rewrite foldl_app. cbn [foldl]. set (st := foldl exec st0 ops) in *.
  assert (all_bodies (body_from (ops ++ [op])) st) as Hst.
  { eapply all_bodies_mono; [|exact IH]. intros b k v (now & q & e & m & p & sp & Hin & ?). exists now, q, e, m, p, sp.
    split; [apply elem_of_app; by left|done]. }
  destruct op as [now q e m|now q e m b|now q req|now q req up emb]; cbn [exec].
  - destruct (body_resolve _ _ _ _); [by apply body_lookup_bodies|done].
  - destruct (body_resolve _ _ _ _) as [g|] eqn:Hg; [|done]. apply body_resolve_inv in Hg as (p & sp & Hr & Hb & Hk & Hd).
    unfold body_store. destruct (bc_no_store g) eqn:Hns; [done|]. destruct (for_policy_backend _ st) as [c|] eqn:Hc; [|done].
    eapply all_bodies_set; [done|done|]. intros k v Hv. apply put_body_adds in Hv as [Hv|[-> ->]]; [by left|right].
    exists now, q, e, m, p, sp. split_and!; [apply elem_of_app; right; by left|done..|by rewrite <- Hd].
  - destruct (chat_gate _ _ _); [by apply chat_read_bodies|done].
  - destruct (chat_gate _ _ _); [by apply chat_write_bodies|done].
Qed.

Lemma body_scope_part_inj o o' s : body_scope_part o = Some s -> body_scope_part o' = Some s -> o = o'.
Proof. destruct o as [[|? ?]|], o' as [[|? ?]|]; simpl; congruence. Qed.

Lemma option_list_inj {A} (o o' : option A) : option_list o = option_list o' -> o = o'.
Proof. destruct o, o'; simpl; congruence. Qed.

Lemma body_parts_inj q q' e e' m m' p p' sp sp' :
  body_parts q e m p sp = body_parts q' e' m' p' sp' ->
  e = e' /\ cq_model_name q = cq_model_name q' /\ m = m' /\ entry_id p = entry_id p' /\
  cp_purge_generation (value p) = cp_purge_generation (value p') /\ sp = sp' /\
  cache_vary_tags (cq_model q) (cq_tags q) = cache_vary_tags (cq_model q') (cq_tags q').
Proof. unfold body_parts. cbn [app]. intros [= -> -> -> -> Hg -> Ht]. apply (inj pretty) in Hg. apply option_list_inj in Ht. done. Qed.

(** *** Chat answers *)

(** A family of requests whose keys are as [fingerprints_exact] asks, and whose
    inputs to SHA-256 do not collide. *)
Definition member_ok (q : CacheRequest) (req : ChatRequest) (p : PolicyRow) : Prop :=
  request_ok json_to_string req /\ plain_name (entry_id p) /\ cp_purge_generation (value p) <= u32_max /\
  scope_ok (cache_scope_value (cp_scope (value p)) (cq_auth q)) /\
  from_option is_str True (cache_vary_tags (cq_model q) (cq_tags q)).
Record family_ok (R : CacheRequest -> ChatRequest -> Prop) : Prop := {
  family_bytes : bytes_of sha256;
  family_members q req p : R q req -> request_policy q = Some p -> member_ok q req p;
  family_keys q req p q' req' p' : R q req -> R q' req' -> request_policy q = Some p -> request_policy q' = Some p' ->
    no_collision sha256 (hash_key (request_key q req p)) (hash_key (request_key q' req' p')) /\
    no_collision sha256 (hash_scope (request_key q req p)) (hash_scope (request_key q' req' p'));
}.

(** Two requests alike in all but their messages. *)
Definition alike (q : CacheRequest) (req : ChatRequest) (p : PolicyRow) (q' : CacheRequest) (req' : ChatRequest) (p' : PolicyRow) : Prop :=
  without_messages (request_key q req p) = without_messages (request_key q' req' p').

Lemma family_key_alike R q req p q' req' p' :
  family_ok R -> R q req -> R q' req' -> request_policy q = Some p -> request_policy q' = Some p' ->
  fingerprint sha256 (request_key q req p) = fingerprint sha256 (request_key q' req' p') -> alike q req p q' req' p'.
Proof.
  intros HR Hr Hr' Hp Hp' Heq.
  destruct (family_members R HR _ _ _ Hr Hp) as (? & ? & ? & ? & ?), (family_members R HR _ _ _ Hr' Hp') as (? & ? & ? & ? & ?).
  destruct (family_keys R HR _ _ _ _ _ _ Hr Hr' Hp Hp') as [Hck Hcs]. unfold alike, request_key in *. f_equal.
  by eapply fingerprints_inj; [..|apply (family_bytes R HR)|exact Hck|exact Hcs|exact Heq].
Qed.
Lemma family_scope_alike R q req p q' req' p' :
  family_ok R -> R q req -> R q' req' -> request_policy q = Some p -> request_policy q' = Some p' ->
  scope_fingerprint sha256 (request_key q req p) = scope_fingerprint sha256 (request_key q' req' p') -> alike q req p q' req' p'.
Proof.
  intros HR Hr Hr' Hp Hp' Heq.
  destruct (family_members R HR _ _ _ Hr Hp) as (? & ? & ? & ? & ?), (family_members R HR _ _ _ Hr' Hp') as (? & ? & ? & ? & ?).
  destruct (family_keys R HR _ _ _ _ _ _ Hr Hr' Hp Hp') as [Hck Hcs]. unfold alike, request_key in *.
  by eapply fingerprints_inj; [..|apply (family_bytes R HR)|exact Hck|exact Hcs|exact Heq].
Qed.

(** A partition starts with the hexadecimal scope fingerprint. *)
Lemma hex_no_colon l : Forall is_byte l -> 58 ∉ lit (hex l).
Proof.
  assert (forall d, d < 16 -> Ascii.N_of_ascii (hex_digit d) <> 58) as Hd.
  { intros d Hd. unfold hex_digit. rewrite Ascii.N_ascii_embedding by (destruct (N.ltb_spec d 10); lia). destruct (N.ltb_spec d 10); lia. }
  induction 1 as [|b l Hb _ IH]; [by apply not_elem_of_nil|]. unfold is_byte in Hb. cbn [hex foldr hex_byte lit].
  rewrite !not_elem_of_cons. split_and!; [| |done]; apply not_eq_sym, Hd; [apply N.Div0.div_lt_upper_bound; lia|apply N.mod_lt; lia].
Qed.

Lemma partition_inj R x y a b :
  family_ok R -> finalize_hex sha256 x +:+ ":" +:+ a = finalize_hex sha256 y +:+ ":" +:+ b -> finalize_hex sha256 x = finalize_hex sha256 y.
Proof.
  intros HR Heq. apply (f_equal lit) in Heq. rewrite !lit_app in Heq. cbn [lit app] in Heq.
  apply split_unique in Heq as [Heq _]; [by apply (inj lit)|..]; apply hex_no_colon, Forall_take, (family_bytes R HR).
Qed.

Lemma chat_gate_inv bs q req g :
  chat_gate bs q req = Some g ->
  exists p, request_policy q = Some p /\ cg_backend g = cp_backend (value p) /\ cg_key g = fingerprint sha256 (request_key q req p) /\
    forall sem, cg_semantic g = Some sem -> sg_policy_id sem = entry_id p /\ sg_generation sem = cp_purge_generation (value p) /\
      exists rest, sg_scope_fp sem = scope_fingerprint sha256 (request_key q req p) +:+ ":" +:+ rest.
Proof.
  unfold chat_gate. destruct (request_policy q) as [p|]; [|done]. destruct bs as [st|]; [|done]. cbn [mbind option_bind].
  destruct (for_policy_backend _ st); [|done]. cbn [mbind option_bind]. intros [= <-]. exists p. split_and!; [done..|].
  cbn [cg_semantic]. intros sem. unfold semantic_gate. destruct (cp_semantic (value p)) as [cfg|]; [|done]. cbn [mbind option_bind].
  destruct (semantic_for_policy_backend _ st); [|done]. cbn [mbind option_bind].
  destruct (semantic_prompt_text req) as [t|]; [|done]. cbn [mbind option_bind].
  destruct (get_by_name _ _) as [e|]; [|done]. cbn [mbind option_bind]. destruct (embedding_of (value e)) as [d|]; [|done].
  intros [= <-]. split_and!; [done..|]. by eexists.
Qed.

(** An answer written by a request alike. *)
Definition written_alike (ops : list cache_op) (q : CacheRequest) (req : ChatRequest) (p : PolicyRow) (v : ChatResponse) : Prop :=
  exists now q' req' p' up emb, ChatWrite now q' req' up emb ∈ ops /\ request_policy q' = Some p' /\
    alike q' req' p' q req p /\ v = without_tier up /\
    (cache_control_directives_of (cq_cache_control q')).2 = false /\ answer_is_storable up = true.

Definition exact_from (R : CacheRequest -> ChatRequest -> Prop) (ops : list cache_op) (b : CacheBackend) (k : string) (v : ChatResponse) : Prop :=
  exists q req p, R q req /\ request_policy q = Some p /\ k = fingerprint sha256 (request_key q req p) /\ written_alike ops q req p v.
Definition semantic_from (R : CacheRequest -> ChatRequest -> Prop) (ops : list cache_op) (b : CacheBackend)
    (pol : string) (g : N) (sc : string) (v : ChatResponse) : Prop :=
  exists q req p rest, R q req /\ request_policy q = Some p /\
    sc = scope_fingerprint sha256 (request_key q req p) +:+ ":" +:+ rest /\ written_alike ops q req p v.

Lemma written_alike_trans ops q req p q' req' p' v :
  written_alike ops q req p v -> alike q req p q' req' p' -> written_alike ops q' req' p' v.
Proof.
  intros (now & q0 & req0 & p0 & up & emb & ? & ? & Ha & ? & ? & ?) H'. exists now, q0, req0, p0, up, emb. split_and!; try done.
  by etrans.
Qed.

Lemma chat_gate_store bs q req g : chat_gate bs q req = Some g ->
  (cg_no_cache g, cg_no_store g) = cache_control_directives_of (cq_cache_control q).
Proof.
  unfold chat_gate. destruct (request_policy q) as [p|]; [|done]. destruct bs as [st|]; [|done]. cbn [mbind option_bind].
  destruct (for_policy_backend _ st); [|done]. cbn [mbind option_bind]. intros [= <-]. cbn. by destruct (cache_control_directives_of _).
Qed.

(** The state of a run over a family: every answer held was written by a request
    alike to those it can be served to. *)
Definition chat_ok (R : CacheRequest -> ChatRequest -> Prop) (ops : list cache_op) (st : Backends) : Prop :=
  all_held (exact_from R ops) st /\ all_semantic (semantic_from R ops) st.

Lemma exact_from_here R ops q req p v :
  R q req -> request_policy q = Some p -> written_alike ops q req p v ->
  exact_from R ops (cp_backend (value p)) (fingerprint sha256 (request_key q req p)) v.
Proof. intros ? ? ?. by exists q, req, p. Qed.

Lemma body_lookup_chat R ops now g st : chat_ok R ops st -> chat_ok R ops (body_lookup now g st).2.
Proof.
  intros [He Hs]. unfold body_lookup. destruct (bc_no_cache g); [done|]. destruct (for_policy_backend _ st) as [c|] eqn:Hc; [|done].
  pose proof (get_body_keeps_chat now (bc_key g) c) as Hk. destruct (cache_get_body now (bc_key g) c) as [[hit|] c'];
    (split; [eapply all_held_set; [done|done|auto]|by apply all_semantic_cache]).
Qed.

Lemma body_store_chat R ops now g b st : chat_ok R ops st -> chat_ok R ops (body_store now g b st).
Proof.
  intros [He Hs]. unfold body_store. destruct (bc_no_store g); [done|]. destruct (for_policy_backend _ st) as [c|] eqn:Hc; [|done].
  split; [eapply all_held_set; [done|done|]|by apply all_semantic_cache]. intros k v Hv. left. by eapply put_body_keeps_chat.
Qed.

(** A read serves only answers written by requests alike, and leaves only such. *)
Lemma chat_read_ok R ops now q req g st p :
  family_ok R -> R q req -> request_policy q = Some p -> chat_gate (Some st) q req = Some g -> chat_ok R ops st ->
  let '(found, _, st') := chat_read now g st in
  chat_ok R ops st' /\ from_option (fun a : Answered => written_alike ops q req p a.1.1) True found.
Proof.
  intros HR Hq Hp Hg [He Hs]. apply chat_gate_inv in Hg as (p' & Hp' & Hb & Hk & Hsem). rewrite Hp in Hp'. injection Hp' as <-.
  unfold chat_read, resolve_cache_hit. destruct (cg_no_cache g); [done|].
  destruct (for_policy_backend _ st) as [c|] eqn:Hc; [|done]. pose proof (get_keeps now (cg_key g) c) as Hkeep.
  pose proof (get_held now (cg_key g) c) as Hheld. destruct (cache_get now (cg_key g) c) as [found c']. cbn [snd] in Hkeep.
  set (st1 := set_cache (cg_backend g) c' st).
  assert (chat_ok R ops st1) as [He1 Hs1] by (split; [eapply all_held_set; [done|done|auto]|by apply all_semantic_cache]).
  assert (forall q0 req0 p0 v, R q0 req0 -> request_policy q0 = Some p0 -> written_alike ops q0 req0 p0 v ->
    alike q0 req0 p0 q req p -> written_alike ops q req p v) as Hmove by (intros; by eapply written_alike_trans).
  assert (match found with ROk (Some _) => False | _ => True end ->
    let '(found, _, st') :=
      match cg_semantic g with
      | None => (None, None, st1)
      | Some sem =>
          match embed sem, semantic_for_policy_backend (cg_backend g) st1 with
          | Some vector, Some s => semantic_read now g sem s vector st1
          | _, _ => (None, None, st1)
          end
      end in chat_ok R ops st' /\ from_option (fun a : Answered => written_alike ops q req p a.1.1) True found) as Hmiss.
  { intros _. destruct (cg_semantic g) as [sem|] eqn:Esem; [|done]. destruct (Hsem sem eq_refl) as (Hpid & Hgen & rest & Hfp).
    destruct (embed sem) as [vector|]; [|done]. destruct (semantic_for_policy_backend _ st1) as [s|] eqn:Es; [|done].
    unfold semantic_read. destruct (sem_lookup _ _ _ _ _ _ s) as [[hit|]|] eqn:El; [|done|done].
    apply lookup_held in El. destruct (Hs1 _ _ _ _ _ _ Es El) as (q0 & req0 & p0 & rest0 & Hq0 & Hp0 & Hsc & Hw).
    assert (written_alike ops q req p (hit_response hit)) as Hhit.
    { eapply Hmove; [exact Hq0|exact Hp0|exact Hw|]. eapply family_scope_alike; [done..|]. symmetry.
      eapply (partition_inj R); [done|]. etrans; [symmetry; exact Hfp|exact Hsc]. }
    split; [|done]. destruct (_ =? 0); [done|]. destruct (for_policy_backend _ st1) as [c1|] eqn:Hc1; [|done].
    split; [eapply all_held_set; [done|done|]|by apply all_semantic_cache].
    intros k v Hv. apply put_adds in Hv as [Hv|[-> ->]]; [by left|right]. rewrite Hb, Hk. apply exact_from_here; [done..|].
    destruct Hhit as (now0 & q1 & req1 & p1 & up & emb & ? & ? & ? & -> & ? & ?). by exists now0, q1, req1, p1, up, emb. }
  destruct found as [[cached|]|e]; [|by apply Hmiss..]. split; [done|]. cbn.
  destruct (He _ _ _ _ Hc (Hheld _ _ eq_refl)) as (q0 & req0 & p0 & Hq0 & Hp0 & Hk0 & Hw).
  eapply Hmove; [exact Hq0|exact Hp0|exact Hw|]. eapply family_key_alike; [done..|]. by rewrite <- Hk, <- Hk0.
Qed.

Lemma chat_write_ok R ops now q req up emb g st p :
  R q req -> request_policy q = Some p -> ChatWrite now q req up emb ∈ ops -> chat_gate (Some st) q req = Some g ->
  chat_ok R ops st -> chat_ok R ops (chat_write now g up emb st).
Proof.
  intros Hq Hp Hin Hg [He Hs]. pose proof (chat_gate_store _ _ _ _ Hg) as Hd.
  apply chat_gate_inv in Hg as (p' & Hp' & Hb & Hk & Hsem). rewrite Hp in Hp'. injection Hp' as <-.
  unfold chat_write. destruct (cg_no_store g) eqn:Hns; [done|]. destruct (answer_is_storable up) eqn:Hstorable; [|done].
  assert (written_alike ops q req p (without_tier up)) as Hw.
  { exists now, q, req, p, up, emb. split_and!; try done. by rewrite <- Hd. }
  cbn [orb negb]. destruct (for_policy_backend _ st) as [c|] eqn:Hc; [|done].
  set (st1 := set_cache _ _ st).
  assert (chat_ok R ops st1) as [He1 Hs1].
  { split; [eapply all_held_set; [done|done|]|by apply all_semantic_cache].
    intros k v Hv. apply put_adds in Hv as [Hv|[-> ->]]; [by left|right]. rewrite Hb, Hk. by apply exact_from_here. }
  destruct (cg_semantic g) as [sem|] eqn:Esem; [|done]. destruct (Hsem sem eq_refl) as (Hpid & Hgen & rest & Hfp).
  destruct (or_else _ _) as [vector|]; [|done]. destruct (semantic_for_policy_backend _ st1) as [s|] eqn:Es; [|done].
  split.
  - intros b c0 k v. rewrite for_backend_set_semantic. apply He1.
  - intros b s0 pol gen sc r. rewrite semantic_backend_set. case_decide as Hb'; [|by apply Hs1]. subst b. intros [= <-] Hr.
    apply store_adds in Hr as [Hr|(_ & _ & <- & ->)]; [by eapply Hs1|]. exists q, req, p, rest. by split_and!.
Qed.

Lemma chat_ok_mono R ops op st : chat_ok R ops st -> chat_ok R (ops ++ [op]) st.
Proof.
  assert (forall q req p v, written_alike ops q req p v -> written_alike (ops ++ [op]) q req p v) as Hw.
  { intros q req p v (now & q' & req' & p' & up & emb & Hin & ?). exists now, q', req', p', up, emb. split; [|done].
    apply elem_of_app. by left. }
  intros [He Hs]. split.
  - intros b c k v Hb Hv. destruct (He _ _ _ _ Hb Hv) as (q & req & p & ? & ? & ? & ?). exists q, req, p. auto.
  - intros b s pol g sc r Hb Hr. destruct (Hs _ _ _ _ _ _ Hb Hr) as (q & req & p & rest & ? & ? & ? & ?). exists q, req, p, rest. auto.
Qed.

(** The chat requests of a run. *)
Definition chat_request_in (ops : list cache_op) (q : CacheRequest) (req : ChatRequest) : Prop :=
  exists now, ChatRead now q req ∈ ops \/ exists up emb, ChatWrite now q req up emb ∈ ops.

Definition fresh (st : Backends) : Prop :=
  all_held (fun _ _ _ => False) st /\ all_bodies (fun _ _ _ => False) st /\ all_semantic (fun _ _ _ _ _ => False) st.

Lemma run_chat R ops st0 :
  family_ok R -> (forall q req, chat_request_in ops q req -> R q req) -> fresh st0 -> chat_ok R ops (cache_run ops st0).
Proof.
  intros HR Hin (Hh & _ & Hs). unfold cache_run. induction ops as [|op ops IH] using rev_ind.
  { split; [intros b c k v Hb Hv; by destruct (Hh _ _ _ _ Hb Hv)|intros b s p g sc r Hb Hv; by destruct (Hs _ _ _ _ _ _ Hb Hv)]. }
  rewrite foldl_app. cbn [foldl]. assert (chat_ok R (ops ++ [op]) (foldl exec st0 ops)) as Hst.
  { apply chat_ok_mono, IH. intros q req (now & Hq). apply Hin. exists now.
    destruct Hq as [Hq|(up & emb & Hq)]; [left|right; exists up, emb]; apply elem_of_app; by left. }
  set (st := foldl exec st0 ops) in *. assert (op ∈ ops ++ [op]) as Hop by (apply elem_of_app; right; by left).
  destruct op as [now q e m|now q e m b|now q req|now q req up emb]; cbn [exec].
  - destruct (body_resolve _ _ _ _); [by apply body_lookup_chat|done].
  - destruct (body_resolve _ _ _ _); [by apply body_store_chat|done].
  - destruct (chat_gate (Some st) q req) as [g|] eqn:Hg; [|done]. destruct (chat_gate_inv _ _ _ _ Hg) as (p & Hp & _).
    pose proof (chat_read_ok R (ops ++ [ChatRead now q req]) now q req g st p HR) as H'.
    destruct (chat_read now g st) as [[found emb] st'] eqn:Er. cbn. apply H'; [|done..]. apply Hin. exists now. by left.
  - destruct (chat_gate (Some st) q req) as [g|] eqn:Hg; [|done]. destruct (chat_gate_inv _ _ _ _ Hg) as (p & Hp & _).
    eapply chat_write_ok; [|done..]. apply Hin. exists now. right. by exists up, emb.
Qed.

(** *** Properties *)

(** Whom a policy of the scope lets share entries. *)
Definition same_reach (scope : CacheScope) (a a' : AuthenticatedKey) : Prop :=
  match scope with
  | ScopeEnv => True
  | ScopeApiKey => entry_id (auth_entry a) = entry_id (auth_entry a')
  | ScopeTeam =>
      match team_id (auth_key a) ≫= nonempty_str, team_id (auth_key a') ≫= nonempty_str with
      | Some t, Some t' => t = t'
      | None, None => entry_id (auth_entry a) = entry_id (auth_entry a')
      | _, _ => False
      end
  end.

Lemma cache_scope_value_reach scope a a' :
  cache_scope_value scope a = cache_scope_value scope a' -> same_reach scope a a'.
Proof.
  unfold cache_scope_value, same_reach. destruct scope; [congruence|done|].
  destruct (team_id (auth_key a) ≫= nonempty_str), (team_id (auth_key a') ≫= nonempty_str);
    intros Heq; (discriminate || (injection Heq as Heq; exact Heq)).
Qed.

(** What the entries of two requests have in common when one is served the other's. *)
Definition shares (q : CacheRequest) (p : PolicyRow) (q' : CacheRequest) (p' : PolicyRow) : Prop :=
  entry_id p' = entry_id p /\ cp_purge_generation (value p') = cp_purge_generation (value p) /\
  cache_scope_value (cp_scope (value p')) (cq_auth q') = cache_scope_value (cp_scope (value p)) (cq_auth q) /\
  (cp_scope (value p') = cp_scope (value p) -> same_reach (cp_scope (value p)) (cq_auth q') (cq_auth q)).

Lemma shares_intro q p q' p' :
  entry_id p' = entry_id p -> cp_purge_generation (value p') = cp_purge_generation (value p) ->
  cache_scope_value (cp_scope (value p')) (cq_auth q') = cache_scope_value (cp_scope (value p)) (cq_auth q) -> shares q p q' p'.
Proof. intros H1 H2 H3. split_and!; [done..|]. intros Hs. apply cache_scope_value_reach. by rewrite <- Hs at 1. Qed.

Lemma alike_model q req p q' req' p' : alike q' req' p' q req p -> req_model req' = req_model req.
Proof.
  intros Ha. pose proof (f_equal model Ha) as Heq. unfold request_key, chat_key in Heq. cbn [without_messages model] in Heq.
  by do 2 destruct (cache_vary_tags _ _).
Qed.

Lemma alike_shares q req p q' req' p' : alike q' req' p' q req p -> shares q p q' p'.
Proof.
  assert (forall req pol g s t, policy_id (chat_key json_to_string req pol g s t) = pol /\
    purge_generation (chat_key json_to_string req pol g s t) = g /\ scope_value (chat_key json_to_string req pol g s t) = s) as Hf
    by (intros ? ? ? ? []; done).
  unfold alike, request_key. intros Ha. pose proof (f_equal policy_id Ha) as H1. pose proof (f_equal purge_generation Ha) as H2.
  pose proof (f_equal scope_value Ha) as H3. cbn [without_messages policy_id purge_generation scope_value] in H1, H2, H3.
  rewrite !(proj1 (Hf _ _ _ _ _)) in H1. rewrite !(proj1 (proj2 (Hf _ _ _ _ _))) in H2.
  rewrite !(proj2 (proj2 (Hf _ _ _ _ _))) in H3. by apply shares_intro.
Qed.

(** What identifies the request and every body written in the run is text, short
    enough for its length to be written, and none of it collides in SHA-256. *)
Definition parts_ok (l : list string) : Prop :=
  Forall is_str l /\ Forall (fun s => N.of_nat (length (lit s)) <= u64_max) l.
Definition bodies_ok (ops : list cache_op) (l : list string) : Prop :=
  bytes_of sha256 /\ parts_ok l /\
  forall now q e m b p sp, BodyWrite now q e m b ∈ ops -> resolved q p sp ->
    parts_ok (body_parts q e m p sp) /\ no_collision sha256 (hash_parts l) (hash_parts (body_parts q e m p sp)).

(** C12. After any run of the cache from empty backends, a relayed body is served only
    when the caller did not send [no-cache], and then it is a body some request of
    the run stored, on the same endpoint, for the same model name, key material and
    routing tags, under the same policy and purge generation, by a caller the
    policy's scope lets share it, without [no-store]. *)
Theorem body_cache_isolated ops st0 now q e m g p sp v st' :
  fresh st0 -> resolved q p sp -> bodies_ok ops (body_parts q e m p sp) ->
  body_resolve (Some (cache_run ops st0)) q e m = Some g -> body_lookup now g (cache_run ops st0) = (Some v, st') ->
  (cache_control_directives_of (cq_cache_control q)).1 = false /\
  exists now' q' p', BodyWrite now' q' e m v ∈ ops /\ request_policy q' = Some p' /\ shares q p q' p' /\
    cq_model_name q' = cq_model_name q /\
    cache_vary_tags (cq_model q') (cq_tags q') = cache_vary_tags (cq_model q) (cq_tags q) /\
    (cache_control_directives_of (cq_cache_control q')).2 = false.
Proof.
  intros (_ & Hfresh & _) [Hp Hsp] (Hb & [Hs Hl] & Hops) Hg Hv.
  apply body_resolve_inv in Hg as (p1 & sp1 & [Hp1 Hsp1] & Hbk & Hk & Hd). rewrite Hp in Hp1. injection Hp1 as <-.
  rewrite Hsp in Hsp1. injection Hsp1 as <-. unfold body_lookup in Hv. rewrite <- Hd.
  destruct (bc_no_cache g); [done|]. split; [done|]. destruct (for_policy_backend _ _) as [c|] eqn:Hc; [|done].
  destruct (cache_get_body now (bc_key g) c) as [[hit|] c'] eqn:E; [|done]. injection Hv as -> _.
  apply get_body_held in E. destruct (run_bodies ops st0 Hfresh _ _ _ _ Hc E) as (now' & q' & e' & m' & p' & sp' & Hin & Hr & _ & Hk' & Hns).
  destruct (Hops _ _ _ _ _ _ _ Hin Hr) as [[Hs' Hl'] Hcol]. rewrite Hk in Hk'. unfold body_fingerprint in Hk'.
  apply finalize_hex_inj in Hk'; [|done..]. apply hash_parts_inj in Hk'; [|done|done|by apply Forall_app].
  apply body_parts_inj in Hk' as (<- & Hm & <- & Hid & Hgen & <- & Htags). destruct Hr as [Hp' Hsp'].
  exists now', q', p'. split_and!; try done. apply shares_intro; [done..|]. by eapply body_scope_part_inj.
Qed.

(** C6. After any run of the cache from empty backends, a chat answer served from
    either layer, an exact hit, a similar question or a copy one left in the exact
    layer, is one the upstream gave, storable and stored without [no-store], to a
    request of the run whose key differs in its messages at most: the same model,
    sampling parameters to the thousandth, token limit, policy, purge generation
    and scope value, by a caller the policy's scope lets share it.  The other fields
    of the body, tools and response format among them, and the routing tags are one
    list of the key; they are the same fields in canonical form, and the same tags,
    whenever neither body uses the name the tags ride under.  (The finding on key.rs says what
    a body that does use it can do.)  The run's requests are strings and numbers as
    their types hold them, under policy ids and scope values without a NUL, and
    SHA-256 does not collide on their keys. *)
Theorem chat_cache_isolated R ops st0 now q req g p v layer sim emb st' :
  family_ok R -> (forall q req, chat_request_in ops q req -> R q req) -> fresh st0 -> R q req ->
  request_policy q = Some p -> chat_gate (Some (cache_run ops st0)) q req = Some g ->
  chat_read now g (cache_run ops st0) = (Some (v, layer, sim), emb, st') ->
  (cache_control_directives_of (cq_cache_control q)).1 = false /\
  exists now' q' req' p' up emb', ChatWrite now' q' req' up emb' ∈ ops /\ request_policy q' = Some p' /\
    v = without_tier up /\ answer_is_storable up = true /\
    (cache_control_directives_of (cq_cache_control q')).2 = false /\
    without_messages (request_key q' req' p') = without_messages (request_key q req p) /\
    req_model req' = req_model req /\ shares q p q' p' /\
    (ROUTING_TAGS ∉ (req_extra req').*1 -> ROUTING_TAGS ∉ (req_extra req).*1 ->
     canonical_extras json_to_string (req_extra req') = canonical_extras json_to_string (req_extra req) /\
     cache_vary_tags (cq_model q') (cq_tags q') = cache_vary_tags (cq_model q) (cq_tags q)).
Proof.
  intros HR Hin Hfresh Hq Hp Hg Hv. pose proof (chat_read_ok R ops now q req g _ p HR Hq Hp Hg (run_chat R ops st0 HR Hin Hfresh)) as H'.
  rewrite Hv in H'. destruct H' as [_ H']. cbn [from_option fst] in H'. destruct H' as (now' & q' & req' & p' & up & emb' & Hw & Hp' & Ha & -> & Hns & Hst).
  rewrite <- (chat_gate_store _ _ _ _ Hg). split; [unfold chat_read in Hv; by destruct (cg_no_cache g)|].
  exists now', q', req', p', up, emb'. split_and!; try done.
  - by eapply alike_model.
  - by eapply alike_shares.
  - intros Hn' Hn. exact (chat_key_tags json_to_string _ _ _ _ _ _ _ _ _ _ Hn' Hn (f_equal extras Ha)).
Qed.

End gates.

(** ** Witnesses

    A map with expiries in place of [moka], and the checksum of [CacheKey] in place
    of SHA-256.  Two keys of one team share a policy; a third key has no team. *)
#[export] Instance demo_moka : Moka (fun V => gmap string (V * N)).
Proof.
  refine {|
    moka_get V now k m := ((x ← m !! k; if now <? x.2 then Some x.1 else None), m);
    moka_insert V now k v ttl weight m := <[k := (v, now + ttl)]> m;
    moka_entry_count V m := N.of_nat (size m);
    moka_contains V m k v := exists t, m !! k = Some (v, t) |}.
  - intros V now k m v m'. destruct (m !! k) as [[w t]|]; [|done]. cbn. destruct (now <? t); [|done]. intros [= <- _]. by exists t.
  - done.
  - intros V now k v ttl weight m k' v' [t Ht]. destruct (decide (k' = k)) as [->|Hk].
    + rewrite lookup_insert_eq in Ht. injection Ht as <- _. by right.
    + rewrite lookup_insert_ne in Ht by done. left. by exists t.
Defined.

Definition demo_json_len (a : ChatResponse) : option nat := Some 100%nat.
Abbreviation DemoCache := (@MemoryCache (fun V => gmap string (V * N))).
Abbreviation DemoSemantic := (gmap string (PolicyEntries (A := UpstreamAnswer))).
#[local] Instance demo_cache : Cache DemoCache := memory_cache demo_json_len.
#[local] Instance demo_cache_laws : CacheLaws DemoCache := memory_cache_laws demo_json_len.

Definition demo_backends : CacheBackends DemoCache DemoSemantic := mkBackends (mkMemory ∅ ∅ DEFAULT_TTL) None ∅ None.
Definition demo_policy : CachePolicy :=
  mkCachePolicy "answers" true MemoryBackend 60 "model: gpt" None ScopeTeam 3
    (Some (mkSemanticConfig "emb" None (f32_div (f32_of_Z 9) (f32_of_Z 10)) 100 None)).
Definition demo_policies : ResourceTable CachePolicy :=
  fst (insert_arc cp_name (Snapshot.mkEntry "4f1c" demo_policy 1) table_default 1).
Definition demo_models : AisixSnapshot :=
  mkSnapshot (fst (insert_arc display_name (Snapshot.mkEntry "e1" (Routing.demo_model "emb" "pk") 1) table_default 1))
    table_default table_default table_default table_default table_default table_default table_default.
Definition demo_caller (id : string) (team : option string) : AuthenticatedKey :=
  mkAuth (Snapshot.mkEntry id (mkApiKey ("#" +:+ id) team None None None None [] [] None None None None false None None ∅) 1)
    ∅ (mkOwner None None) false.
Definition demo_asks (id : string) (team : option string) (cache_control : option (list string)) : CacheRequest :=
  mkCacheRequest demo_policies demo_models (demo_caller id team) "gpt" (Routing.demo_model "gpt" "pk") [] cache_control.
Definition demo_body : CachedBody := mkBody "application/json" (lit "[0.5]") 7 0.
Definition demo_row : PolicyRow := Snapshot.mkEntry "4f1c" demo_policy 1.

Lemma demo_asked_row id team cc : request_policy (demo_asks id team cc) = Some demo_row.
Proof. vm_compute. reflexivity. Qed.

Lemma demo_fresh : fresh demo_backends.
Proof.
  split_and!; intros [] c; cbn; try done; intros *; intros [= <-].
  - by intros (e & [t Ht] & _).
  - by intros (e & [t Ht] & _).
  - by intros (pe & e & Hp & _).
Qed.

(** The body one key stored, read by another key of its team. *)
Definition demo_body_run : list cache_op := [BodyWrite 0 (demo_asks "k1" (Some "ops") None) "embeddings" "m" demo_body].
Definition demo_reads (id : string) (team : option string) (cc : option (list string)) : option CachedBody :=
  let st := cache_run demo_digest demo_json (fun _ => Some 2) (fun _ => Some [f32_of_Z 3; f32_of_Z 4]) demo_body_run demo_backends in
  g ← body_resolve demo_digest (Some st) (demo_asks id team cc) "embeddings" "m";
  (body_lookup 9 g st).1.

Lemma demo_body_served :
  demo_reads "k2" (Some "ops") None = Some demo_body /\ demo_reads "k3" None None = None /\
  demo_reads "k2" (Some "ops") (Some ["max-age=0, No-Cache"]) = None.
Proof. vm_compute. auto. Qed.

Definition demo_parts : list string := ["embeddings"; "gpt"; "m"; "4f1c"; "3"; "team:ops"].

Lemma demo_parts_exact id cc : body_parts (demo_asks id (Some "ops") cc) "embeddings" "m" demo_row "team:ops" = demo_parts.
Proof. vm_compute. reflexivity. Qed.

Lemma demo_bodies_ok : bodies_ok demo_digest demo_body_run demo_parts.
Proof.
  assert (parts_ok demo_parts) as Hp.
  { split; repeat (apply Forall_cons; split; [(no_byte || (apply N.leb_le; reflexivity))|]); apply Forall_nil; exact I. }
  split_and!; [exact demo_digest_bytes|exact Hp..|]. intros now q e m b p sp Hin [Hr Hsp].
  apply list_elem_of_singleton in Hin. injection Hin as -> -> -> -> ->. rewrite demo_asked_row in Hr. injection Hr as <-.
  injection Hsp as <-. rewrite demo_parts_exact. split; [done|]. by intros _.
Qed.

Lemma body_cache_isolated_witness :
  exists now q' p', BodyWrite now q' "embeddings" "m" demo_body ∈ demo_body_run /\
    shares (demo_asks "k2" (Some "ops") None) demo_row q' p' /\ demo_reads "k3" None None = None.
Proof.
  destruct demo_body_served as (Hs & Hn & _). unfold demo_reads in Hs.
  set (st := cache_run demo_digest demo_json _ _ demo_body_run demo_backends) in Hs.
  destruct (body_resolve demo_digest (Some st) (demo_asks "k2" (Some "ops") None) "embeddings" "m") as [g|] eqn:Eg; [|discriminate Hs].
  cbn [mbind option_bind] in Hs. destruct (body_lookup 9 g st) as [found st'] eqn:El. cbn [fst] in Hs. subst found.
  destruct (body_cache_isolated demo_digest demo_json (fun _ => Some 2) (fun _ => Some [f32_of_Z 3; f32_of_Z 4]) demo_body_run
    demo_backends 9 (demo_asks "k2" (Some "ops") None) "embeddings" "m" g demo_row "team:ops" demo_body st') as [_ H].
  - exact demo_fresh.
  - split; [apply demo_asked_row|reflexivity].
  - rewrite demo_parts_exact. exact demo_bodies_ok.
  - exact Eg.
  - exact El.
  - destruct H as (now & q' & p' & Hw & _ & Hsh & _). exists now, q', p'. split; [exact Hw|]. split; [exact Hsh|exact Hn].
Defined.

(** Two wordings of a question, the second answered by similarity. *)
Definition demo_answer : ChatResponse := mkResponse (Some "flex") (mkAnswer Stop [[]] "Paris").
Definition demo_chat_run : list cache_op :=
  [ChatWrite 0 (demo_asks "k1" (Some "ops") None) (CacheKey.demo_request "capital of France?" []) demo_answer (Some [f32_of_Z 3; f32_of_Z 4])].
Definition demo_answers (id : string) (team : option string) (text : string) : option (ChatResponse * CacheHitLayer) :=
  let st := cache_run demo_digest demo_json (fun _ => Some 2) (fun _ => Some [f32_of_Z 3; f32_of_Z 4]) demo_chat_run demo_backends in
  g ← chat_gate demo_digest demo_json (fun _ => Some 2) (Some st) (demo_asks id team None) (CacheKey.demo_request text []);
  fst <$> (chat_read (fun _ => Some [f32_of_Z 3; f32_of_Z 4]) 9 g st).1.1.

Lemma demo_chat_served :
  demo_answers "k2" (Some "ops") "which is the capital of France?" = Some (without_tier demo_answer, SemanticLayer) /\
  demo_answers "k2" (Some "ops") "capital of France?" = Some (without_tier demo_answer, ExactLayer) /\
  demo_answers "k3" None "capital of France?" = None.
Proof. vm_compute. auto. Qed.

(** The requests of the run and the read. *)
Inductive demo_family : CacheRequest -> ChatRequest -> Prop :=
  | demo_writer : demo_family (demo_asks "k1" (Some "ops") None) (CacheKey.demo_request "capital of France?" [])
  | demo_reader : demo_family (demo_asks "k2" (Some "ops") None) (CacheKey.demo_request "which is the capital of France?" []).

Lemma demo_request_member id text : is_str text ->
  member_ok demo_json (demo_asks id (Some "ops") None) (CacheKey.demo_request text []) demo_row.
Proof.
  intros Ht. split; [by apply demo_request_ok|]. split; [exact plain_uuid|]. split; [by vm_compute|].
  split; [|exact I]. split; no_byte.
Qed.

Lemma demo_family_row q req p : demo_family q req -> request_policy q = Some p -> p = demo_row.
Proof. by intros [] H; rewrite demo_asked_row in H; injection H as <-. Qed.

Lemma demo_family_ok : family_ok demo_digest demo_json demo_family.
Proof.
  split.
  - exact demo_digest_bytes.
  - intros q req p Hf Hp. rewrite (demo_family_row q req p Hf Hp). destruct Hf; apply demo_request_member; no_byte.
  - intros q req p q' req' p' Hf Hf' Hp Hp'. rewrite (demo_family_row q req p Hf Hp), (demo_family_row q' req' p' Hf' Hp').
    destruct Hf, Hf'; split; ((intros _; reflexivity) || (apply no_collision_decided; vm_compute; reflexivity)).
Qed.

Lemma demo_chat_requests q req : chat_request_in demo_chat_run q req -> demo_family q req.
Proof.
  intros (now & [H|(up & emb & H)]); apply list_elem_of_singleton in H; [done|]. injection H as -> -> -> -> ->. constructor.
Qed.

Lemma chat_cache_isolated_witness :
  exists now q' req' p' up emb, ChatWrite now q' req' up emb ∈ demo_chat_run /\ without_tier up = without_tier demo_answer /\
    shares (demo_asks "k2" (Some "ops") None) demo_row q' p' /\ demo_answers "k3" None "capital of France?" = None.
Proof.
  destruct demo_chat_served as (Hs & _ & Hn). unfold demo_answers in Hs.
  set (st := cache_run demo_digest demo_json _ _ demo_chat_run demo_backends) in Hs.
  destruct (chat_gate demo_digest demo_json (fun _ => Some 2) (Some st) (demo_asks "k2" (Some "ops") None)
    (CacheKey.demo_request "which is the capital of France?" [])) as [g|] eqn:Eg; [|discriminate Hs].
  cbn [mbind option_bind] in Hs. destruct (chat_read _ 9 g st) as [[[[[v layer] sim]|] emb] st'] eqn:El; [|discriminate Hs].
  cbn [fst fmap option_fmap option_map] in Hs. injection Hs as Hv Hlayer.
  destruct (chat_cache_isolated demo_digest demo_json (fun _ => Some 2) (fun _ => Some [f32_of_Z 3; f32_of_Z 4]) demo_family demo_chat_run
    demo_backends 9 (demo_asks "k2" (Some "ops") None) (CacheKey.demo_request "which is the capital of France?" []) g demo_row
    v layer sim emb st') as [_ H].
  - exact demo_family_ok.
  - exact demo_chat_requests.
  - exact demo_fresh.
  - exact demo_reader.
  - apply demo_asked_row.
  - exact Eg.
  - exact El.
  - destruct H as (now & q' & req' & p' & up & emb' & Hw & _ & Hup & _ & _ & _ & _ & Hsh & _).
    exists now, q', req', p', up, emb'. split; [exact Hw|]. split; [rewrite <- Hv, <- Hup; reflexivity|]. split; [exact Hsh|exact Hn].
Defined.
