(* ===== verification/Dispatch.v ===== *)
(** * The dispatch walk

    [crates/aisix-proxy/src/attempt.rs]: the telemetry of the attempts of one
    request.  [walk_targets] of [crates/aisix-proxy/src/routing.rs], the loop
    behind [dispatch_with_failover]: per target the reservation of its own
    limits, the retries its budget allows, the marks a failure leaves, the record
    of every attempt, and what is given back when the walk moves on.

    The route's closures [call], [permit] and [unsupported] are arguments, [call]
    over the state it shares with the gateway; so are the clocks, the jitter and
    the sleep, which read and advance the environment [E], and the text of an
    error.  Spans, logs and the attribution cell are not modelled.  A throw of
    [None] is a panic. *)

From S2P Require Import Prelude Snapshot F64 RateStore Limiter LocalStore Policy Models Failure Errors Budget Quota.
From S2P Require Import Health Runtime Balance Routing.
Local Open Scope N_scope.

(** ** Telemetry *)

Record AttemptRecord := mkRecord {
  rec_index : N;
  rec_kind : string;
  rec_target_model : string;
  rec_target_model_id : string;
  rec_provider_key_id : string;
  rec_status : N;
  rec_success : bool;
  rec_error_class : string;
  rec_error_message : string;
  rec_latency_ms : N;
  rec_dispatched : bool;
}.

Record RoutingTelemetry := mkTelemetry {
  tel_attempts : list AttemptRecord;
  last_target : option string;
  requested_model : string;
}.

Definition for_request (requested_model : string) : RoutingTelemetry :=
  mkTelemetry [] None requested_model.

Inductive RequestOutcome := OutSuccess | OutClientError | OutUpstreamError | OutRateLimited.

Definition outcome_from_status (status : N) : RequestOutcome :=
  if status =? 429 then OutRateLimited
  else if (200 <=? status) && (status <=? 399) then OutSuccess
  else if (400 <=? status) && (status <=? 499) then OutClientError
  else OutUpstreamError.

(** What an attempt adds to the metrics: [record_deployment_attempt] and
    [record_routing_fallback]. *)
Inductive attempt_metric :=
  | AmDeployment (model_id : string) (outcome : RequestOutcome)
  | AmFallback (success : bool) (requested target : string).

(** [index] is [len() as u32]. *)
Definition begin_attempt (name : string) (tel : RoutingTelemetry) : (N * string) * RoutingTelemetry :=
  let index := N.of_nat (length (tel_attempts tel)) mod u32_mod in
  let kind :=
    match tel_attempts tel with
    | [] => "initial"
    | _ => if bool_decide (last_target tel = Some name) then "retry" else "fallback"
    end in
  ((index, kind), mkTelemetry (tel_attempts tel) (Some name) (requested_model tel)).

Definition record_deployment (model_id : string) (status : N) : attempt_metric :=
  AmDeployment model_id (outcome_from_status status).

Definition emit_metrics (tel : RoutingTelemetry) (rec : AttemptRecord) : list attempt_metric :=
  (if rec_dispatched rec then [record_deployment (rec_target_model_id rec) (rec_status rec)] else [])
  ++ (if bool_decide (rec_kind rec = "fallback")
      then [AmFallback (rec_success rec) (requested_model tel) (rec_target_model rec)] else []).

Definition push_attempt (rec : AttemptRecord) (tel : RoutingTelemetry) : RoutingTelemetry :=
  mkTelemetry (tel_attempts tel ++ [rec]) (last_target tel) (requested_model tel).

(** [record] with the metrics it emits; [stage] emits none. *)
Definition record (rec : AttemptRecord) (tel : RoutingTelemetry) : list attempt_metric * RoutingTelemetry :=
  (emit_metrics tel rec, push_attempt rec tel).

Definition stage (rec : AttemptRecord) (tel : RoutingTelemetry) : RoutingTelemetry := push_attempt rec tel.

Definition finish_staged (index status : N) (success : bool) (tel : RoutingTelemetry)
    : list attempt_metric :=
  match tel_attempts tel !! N.to_nat index with
  | None => []
  | Some staged =>
      emit_metrics tel
        (mkRecord (rec_index staged) (rec_kind staged) (rec_target_model staged)
           (rec_target_model_id staged) (rec_provider_key_id staged) status success
           (rec_error_class staged) (rec_error_message staged) (rec_latency_ms staged)
           (rec_dispatched staged))
  end.

Definition attempt_count (tel : RoutingTelemetry) : N :=
  N.of_nat (length (tel_attempts tel)) mod u32_mod.

Definition fallback_count (tel : RoutingTelemetry) : N :=
  N.of_nat (length (List.filter (fun r => bool_decide (rec_kind r = "fallback")) (tel_attempts tel)))
    mod u32_mod.

(** [rfind]: the last success. *)
Definition winner (tel : RoutingTelemetry) : option AttemptRecord :=
  last (List.filter rec_success (tel_attempts tel)).

Record AccessLogRouting := mkAccessLog {
  served_by_model : option string;
  log_attempt_count : option N;
  log_fallback_count : option N;
}.

Definition access_log_summary (tel : RoutingTelemetry) : AccessLogRouting :=
  let positive n := if 0 <? n then Some n else None in
  mkAccessLog
    (w ← winner tel; if bool_decide (rec_target_model w = "") then None else Some (rec_target_model w))
    (positive (attempt_count tel)) (positive (fallback_count tel)).

(** What [DeferredAttempt] holds: a clone of the telemetry and the index. *)
Abbreviation DeferredAttempt := (option (RoutingTelemetry * N)).

Definition deferred_finish (status : N) (success : bool) (d : DeferredAttempt)
    : list attempt_metric * DeferredAttempt :=
  match d with
  | Some (tel, index) => (finish_staged index status success tel, None)
  | None => ([], None)
  end.

(** [elapsed] in nanoseconds. *)
Definition measured_ms (elapsed : N) : N :=
  if elapsed =? 0 then 0 else N.min (N.max (as_millis elapsed) 1) (u32_mod - 1).

(** ** The walk *)

Section walk.
Context {St : Type} `{RateStore St} (in_runtime : bool).
Context {Instant : Type} (parse_tz : string -> option (Instant -> Z * N)).
Context (weekday : Z -> ScheduleWeekday) (parse_date : string -> option Z).
Context (regex : bool -> string -> option (string -> bool)) (parse_f64 : string -> option f64).
Context (usd : N -> string).
(** The environment: clocks, the jitter of the next backoff, and a sleep. *)
Context {E : Type} (clock : E -> Clocks) (utc : E -> Instant) (jitter : E -> N)
  (sleep : Duration -> E -> E).
(** [Debug] of a string, [Display] of an error, and the error text of a record. *)
Context (debug : string -> string) (display : ProxyError -> string) (error_text : ProxyError -> string).

(** What the walk shares with the rest of the gateway. *)
Record Shared := mkShared {
  sh_gate : GateState St;
  sh_registry : RoutingRegistry;
  sh_tracker : ModelRuntimeStatusTracker;
  sh_health : HealthTracker;
  sh_env : E;
}.

Record Walk := mkWalk {
  shared : Shared;
  telemetry : RoutingTelemetry;
  metrics_out : list attempt_metric;
}.

Definition on_shared (f : Shared -> Shared) (w : Walk) : Walk :=
  mkWalk (f (shared w)) (telemetry w) (metrics_out w).
Definition set_gate (g : GateState St) (sh : Shared) : Shared :=
  mkShared g (sh_registry sh) (sh_tracker sh) (sh_health sh) (sh_env sh).
Definition on_tracker (f : ModelRuntimeStatusTracker -> ModelRuntimeStatusTracker) (sh : Shared) : Shared :=
  mkShared (sh_gate sh) (sh_registry sh) (f (sh_tracker sh)) (sh_health sh) (sh_env sh).
Definition on_health (f : HealthTracker -> HealthTracker) (sh : Shared) : Shared :=
  mkShared (sh_gate sh) (sh_registry sh) (sh_tracker sh) (f (sh_health sh)) (sh_env sh).
Definition on_env (f : E -> E) (sh : Shared) : Shared :=
  mkShared (sh_gate sh) (sh_registry sh) (sh_tracker sh) (sh_health sh) (f (sh_env sh)).

Definition walk_begin (name : string) (w : Walk) : (N * string) * Walk :=
  let '(ik, tel) := begin_attempt name (telemetry w) in
  (ik, mkWalk (shared w) tel (metrics_out w)).
Definition walk_record (rec : AttemptRecord) (w : Walk) : Walk :=
  let '(ms, tel) := record rec (telemetry w) in mkWalk (shared w) tel (metrics_out w ++ ms).
Definition walk_stage (rec : AttemptRecord) (w : Walk) : Walk :=
  mkWalk (shared w) (stage rec (telemetry w)) (metrics_out w).

(** [Option<MultiReservation>] going out of scope *)
Definition drop_member (ms : option MultiReservation) (w : Walk) : Walk :=
  on_shared (fun sh =>
    set_gate (set_limiter (multi_drop (default [] ms) (gate_limiter (sh_gate sh))) (sh_gate sh)) sh) w.

Definition resolve_provider_key (snapshot : AisixSnapshot) (m : Model)
    : result (ResourceEntry ProviderKey) ProxyError :=
  match provider_key_id m with
  | None => RErr (PeUnusableTarget ("model " +:+ debug (display_name m)
      +:+ " has no provider_key_id (routing models can't be dispatched directly)"))
  | Some pk_id =>
      match get_by_id pk_id (provider_keys snapshot) with
      | Some entry => ROk entry
      | None => RErr (PeUnusableTarget ("model " +:+ debug (display_name m)
          +:+ " references unknown provider_key_id " +:+ debug pk_id))
      end
  end.

Context {T : Type} (active : bool) (default_retries : N) (default_timeouts : TimeoutDefaults).
Context (snapshot : AisixSnapshot) (auth : AuthenticatedKey).
(** The model the caller addressed. *)
Context (requested_name : string) (entry : ResourceEntry Model) (defer_outcome : bool).
Context (permit : BridgeError -> bool) (unsupported : T -> option string).
Context (call : AttemptModel -> TimeoutBudget -> Shared -> result T ProxyError * Shared).

Record Dispatched := mkDispatched {
  disp_value : T;
  disp_target : AttemptModel;
  attempt_started : N;
  member_reservation : option MultiReservation;
  disp_in_flight : InFlightGuard;
  disp_deferred : DeferredAttempt;
}.

Inductive target_outcome :=
  | Served (d : Dispatched)
  | Failed (e : ProxyError)
  | MoveOn (last_err : option ProxyError).

Definition group_routing : option Routing := routing (value entry).
Definition retry_429 : bool :=
  match group_routing with Some r => retry_on_429_or_default r | None => false end.
Definition fallback_statuses : list N :=
  match group_routing with Some r => fallback_on_statuses_or_default r | None => [] end.

(** The names of a target's records: the routing target's, or none. *)
Definition target_model_of (t : AttemptModel) : string :=
  match group_routing with Some _ => display_name (at_model t) | None => "" end.
Definition pk_id_of (t : AttemptModel) : string :=
  match resolve_provider_key snapshot (at_model t) with ROk e => entry_id e | RErr _ => "" end.

Definition attempt_record (t : AttemptModel) (ik : N * string) (status : N) (success : bool)
    (class message : string) (latency : N) (dispatched : bool) : AttemptRecord :=
  mkRecord ik.1 ik.2 (target_model_of t) (at_id t) (pk_id_of t) status success class message latency
    dispatched.

Definition elapsed_ms (started : N) (sh : Shared) : N := measured_ms (mono (clock (sh_env sh)) - started).

(** The arm [Ok(value)] of an attempt. *)
Definition attempt_succeeded (t : AttemptModel) (ik : N * string) (started : N)
    (in_flight : InFlightGuard) (member : option MultiReservation) (v : T) (w : Walk)
    : Dispatched * Walk :=
  let refusal := unsupported v in
  let dispatched := is_none refusal in
  let latency := elapsed_ms started (shared w) in
  let w := if dispatched then on_shared (on_tracker (record_latency active (at_id t) latency)) w else w in
  let rec :=
    attempt_record t ik (if dispatched then 200 else 501) dispatched
      (if dispatched then "" else "config") (default "" refusal) latency dispatched in
  let '(deferred, w) :=
    if defer_outcome && dispatched then
      let w := walk_stage rec w in (Some (telemetry w, ik.1), w)
    else (None, walk_record rec w) in
  (mkDispatched v t started member in_flight deferred, w).

(** What a failure means for the walk: whether it may be retried, and whether
    the budget covers another try. *)
Definition failure_verdict (budget : RetryBudget) (e : ProxyError) : bool * bool :=
  match e with
  | PeBridge be => (is_retryable be retry_429 fallback_statuses && permit be, covers budget be)
  | _ => (false, true)
  end.

(** The marks a transient failure leaves on its target. *)
Definition mark_failure (t : AttemptModel) (e : ProxyError) (sh : Shared) : Shared :=
  match e with
  | PeBridge be =>
      if is_retryable be retry_429 fallback_statuses then
        let sh := on_health (record_failure (display_name (at_model t))) sh in
        on_tracker (penalize_latency active (clock (sh_env sh)) (at_id t)) sh
      else sh
  | _ => sh
  end.

(** The arm [Err(e)]: the marks, the record, and the in-flight guard dropped. *)
Definition attempt_failed (t : AttemptModel) (ik : N * string) (started : N)
    (in_flight : InFlightGuard) (e : ProxyError) (w : Walk) : Walk :=
  let w := on_shared (mark_failure t e) w in
  let w :=
    walk_record (attempt_record t ik (error_status e) false (error_class e) (error_text e)
                   (elapsed_ms started (shared w)) (attempt_reached_upstream e)) w in
  on_shared (on_tracker (in_flight_drop in_flight)) w.

Definition backoff (attempt_idx : nat) (last_err : option ProxyError) (w : Walk) : Walk :=
  match attempt_idx with
  | O => w
  | S _ =>
      let hint := match last_err with Some (PeBridge be) => retry_after_hint be | _ => None end in
      on_shared (fun sh =>
        on_env (sleep (retry_backoff (jitter (sh_env sh)) (N.of_nat attempt_idx mod u32_mod) hint)) sh) w
  end.

(** The loop over [0..=budget.attempts], [todo] iterations to go. *)
Fixpoint attempt_loop (t : AttemptModel) (budget : RetryBudget) (timeouts : TimeoutBudget)
    (member : option MultiReservation) (todo attempt_idx : nat) (last_err : option ProxyError)
    (w : Walk) : target_outcome * Walk :=
  match todo with
  | O => (MoveOn last_err, w)
  | S todo =>
      let w := backoff attempt_idx last_err w in
      let '(ik, w) := walk_begin (display_name (at_model t)) w in
      let started := mono (clock (sh_env (shared w))) in
      let '(in_flight, tracker) := count_in_flight active (at_id t) (sh_tracker (shared w)) in
      let '(r, sh) := call t timeouts (on_tracker (fun _ => tracker) (shared w)) in
      let w := on_shared (fun _ => sh) w in
      match r with
      | ROk v => let '(d, w) := attempt_succeeded t ik started in_flight member v w in (Served d, w)
      | RErr e =>
          let '(retryable, budget_covers) := failure_verdict budget e in
          let w := attempt_failed t ik started in_flight e w in
          if negb retryable then
            if target_unusable e then (MoveOn (Some e), w) else (Failed e, w)
          else if negb budget_covers then (MoveOn (Some e), w)
          else attempt_loop t budget timeouts member todo (S attempt_idx) (Some e) w
      end
  end.

(** A target refused by its own limits. *)
Definition refused_record (t : AttemptModel) (ik : N * string) (e : ProxyError) : AttemptRecord :=
  attempt_record t ik 429 false "rate_limit_exceeded" (display e) 0 false.

Definition routing_parent_of : option RoutingParent :=
  match group_routing with
  | Some _ => Some (mkParent (display_name (value entry)) (entry_id entry))
  | None => None
  end.

(** One iteration of the loop over the targets. *)
Definition walk_target (t : AttemptModel) (has_more : bool) (last_err : option ProxyError) (w : Walk)
    : result target_outcome (option ProxyError) * Walk :=
  let sh := shared w in
  let '(reserved, g) :=
    reserve_routing_target in_runtime parse_tz weekday parse_date regex parse_f64 usd snapshot auth
      routing_parent_of (display_name (at_model t)) (at_id t) (at_model t) (utc (sh_env sh)) (sh_gate sh) in
  let w := on_shared (set_gate g) w in
  match reserved with
  | RErr None => (RErr None, w)
  | RErr (Some e) =>
      let '(ik, w) := walk_begin (display_name (at_model t)) w in
      (ROk (MoveOn (Some e)), walk_record (refused_record t ik e) w)
  | ROk member =>
      let budget := effective_retries (at_model t) (group_retries_of (value entry)) default_retries has_more in
      let timeouts := effective_timeouts (at_model t) (Some (value entry)) default_timeouts in
      let '(outcome, w) := attempt_loop t budget timeouts member (S (attempts budget)) 0 last_err w in
      match outcome with
      | Served d => (ROk (Served d), w)
      | outcome => (ROk outcome, drop_member member w)
      end
  end.

Fixpoint walk_loop (targets : list AttemptModel) (last_err : option ProxyError) (w : Walk)
    : result Dispatched (option ProxyError) * Walk :=
  match targets with
  | [] =>
      let err := default PeProviderUnavailable last_err in
      (RErr (Some match group_routing with Some _ => group_refusal err requested_name | None => err end), w)
  | t :: targets =>
      match walk_target t (match targets with [] => false | _ => true end) last_err w with
      | (RErr panic, w) => (RErr panic, w)
      | (ROk (Served d), w) => (ROk d, w)
      | (ROk (Failed e), w) => (RErr (Some e), w)
      | (ROk (MoveOn last_err), w) => walk_loop targets last_err w
      end
  end.

(** The caller's side of a [RoutingRequest]. *)
Record ClientContext := mkClient {
  routing_tags : list string;
  client_headers : list (string * string);
  client_source_ip : string;
}.

Definition walk_targets (cal : Calendar) (bg : BudgetGate) (pricing : gmap string ModelCost)
    (client : ClientContext) (w : Walk) : result Dispatched (option ProxyError) * Walk :=
  let sh := shared w in
  match resolve_attempt_models (clock (sh_env sh)) pricing snapshot requested_name (entry_id entry)
          (value entry)
          (mkRequest (routing_tags client) (Some (client_headers client)) (entry_id (auth_entry auth))
             (client_source_ip client) None (Some (provider_key_verdict cal bg)) None
             (allowed_provider_groups (auth_key auth)))
          (mkRoutingState (sh_registry sh) (sh_tracker sh)) with
  | None => (RErr None, w)
  | Some (r, st) =>
      let w := on_shared (fun sh => mkShared (sh_gate sh) (registry st) (tracker st) (sh_health sh) (sh_env sh)) w in
      match r with
      | RErr e => (RErr (Some e), w)
      | ROk targets => walk_loop targets None w
      end
  end.

(** ** What a walk records *)

(** The kind of each attempt, by the names of the targets tried. *)
Fixpoint kinds (prev : option string) (names : list string) : list string :=
  match names with
  | [] => []
  | n :: names =>
      match prev with
      | None => "initial"
      | Some p => if bool_decide (p = n) then "retry" else "fallback"
      end :: kinds (Some n) names
  end.

Definition prev_of (tel : RoutingTelemetry) : option string :=
  match tel_attempts tel with [] => None | _ => last_target tel end.

(** Telemetry with attempts knows the last one's target. *)
Definition tel_ok (tel : RoutingTelemetry) : Prop := tel_attempts tel = [] \/ is_Some (last_target tel).

Definition name_of (t : AttemptModel) : string := display_name (at_model t).

Lemma kinds_app prev l l' :
  kinds prev (l ++ l') = kinds prev l ++ kinds (match last l with Some n => Some n | None => prev end) l'.
Proof.
  revert prev. induction l as [|n l IH]; intros prev; [done|]. simpl. rewrite IH.
  destruct l as [|m l]; [done|]. rewrite last_cons_cons.
  destruct (last (m :: l)) eqn:El; [done|by apply last_None in El].
Qed.

(** [w'] has recorded [recs] since [w], the attempts on the targets [ts]. *)
Record grown (w w' : Walk) (ts : list AttemptModel) (recs : list AttemptRecord) : Prop := {
  gr_attempts : tel_attempts (telemetry w') = tel_attempts (telemetry w) ++ recs;
  gr_requested : requested_model (telemetry w') = requested_model (telemetry w);
  gr_ids : rec_target_model_id <$> recs = at_id <$> ts;
  gr_index j r : recs !! j = Some r ->
    rec_index r = N.of_nat (length (tel_attempts (telemetry w)) + j) mod u32_mod;
  gr_kinds : tel_ok (telemetry w) ->
    tel_ok (telemetry w') /\
    rec_kind <$> recs = kinds (prev_of (telemetry w)) (name_of <$> ts) /\
    prev_of (telemetry w') =
      match last ts with Some t => Some (name_of t) | None => prev_of (telemetry w) end;
}.

Lemma grown_same w w' : telemetry w' = telemetry w -> grown w w' [] [].
Proof. intros Eq. split; rewrite ?Eq, ?app_nil_r; done. Qed.

Lemma grown_trans w w1 w2 ts ts' recs recs' :
  grown w w1 ts recs -> grown w1 w2 ts' recs' -> grown w w2 (ts ++ ts') (recs ++ recs').
Proof.
  intros [A1 Q1 I1 X1 K1] [A2 Q2 I2 X2 K2]. split.
  - by rewrite A2, A1, app_assoc.
  - congruence.
  - by rewrite !fmap_app, I1, I2.
  - intros j r [Hr | [Hj Hr]]%lookup_app_Some; [by apply X1|]. rewrite (X2 _ _ Hr), A1, length_app.
    do 2 f_equal. lia.
  - intros Hok. destruct (K1 Hok) as (Hok1 & E1 & P1). destruct (K2 Hok1) as (Hok2 & E2 & P2).
    split; [done|]. rewrite !fmap_app, kinds_app, E1, E2, P1, P2, fmap_last, last_app.
    split; [by destruct (last ts)|by destruct (last ts')].
Qed.

Lemma grown_after w w1 w2 ts recs : telemetry w1 = telemetry w2 -> grown w w1 ts recs -> grown w w2 ts recs.
Proof. intros Eq [A Q I X K]. split; rewrite <- ?Eq; done. Qed.

Lemma grown_before w0 w w' ts recs : telemetry w0 = telemetry w -> grown w w' ts recs -> grown w0 w' ts recs.
Proof. intros Eq [A Q I X K]. split; rewrite ?Eq; done. Qed.

(** One attempt: begun, then recorded or staged. *)
Lemma grown_one t w ik tel w1 rec :
  begin_attempt (name_of t) (telemetry w) = (ik, tel) ->
  telemetry w1 = push_attempt rec tel ->
  rec_index rec = ik.1 -> rec_kind rec = ik.2 -> rec_target_model_id rec = at_id t ->
  grown w w1 [t] [rec].
Proof.
  unfold begin_attempt. intros [= <- <-] Ht Hi Hk Hid. split; rewrite ?Ht; simpl; try done.
  - by rewrite Hid.
  - intros [|j] r; [|done]. intros [= <-]. by rewrite Hi, Nat.add_0_r.
  - intros Hok. split; [by right; eexists|]. split; [|by destruct (tel_attempts _)].
    rewrite Hk. unfold prev_of, tel_ok in *. simpl.
    destruct (tel_attempts (telemetry w)) as [|x l] eqn:Ea; [done|].
    destruct Hok as [? | [n Hn]]; [done|]. rewrite Hn.
    do 2 f_equal. repeat case_bool_decide; naive_solver.
Qed.

Definition failed_rec (r : AttemptRecord) : Prop := rec_success r = false.

(** The metrics emitted for [recs]. *)
Definition emits (w w' : Walk) (recs : list AttemptRecord) : Prop :=
  metrics_out w' = metrics_out w ++ flat_map (emit_metrics (telemetry w)) recs.

Lemma emit_metrics_requested tel tel' rec :
  requested_model tel = requested_model tel' -> emit_metrics tel rec = emit_metrics tel' rec.
Proof. unfold emit_metrics. by intros ->. Qed.

Lemma emits_trans w w1 w2 ts recs recs' :
  grown w w1 ts recs -> emits w w1 recs -> emits w1 w2 recs' -> emits w w2 (recs ++ recs').
Proof.
  unfold emits. intros Hg H1 H2. rewrite H2, H1, flat_map_app, app_assoc. f_equal.
  apply flat_map_ext. intros r. apply emit_metrics_requested. apply (gr_requested _ _ _ _ Hg).
Qed.

(** A failure worth a retry, whatever budget is left. *)
Definition worth_retrying (e : ProxyError) : bool :=
  match e with PeBridge be => is_retryable be retry_429 fallback_statuses && permit be | _ => false end.

Lemma failure_verdict_fst budget e : (failure_verdict budget e).1 = worth_retrying e.
Proof. by destruct e. Qed.

Lemma backoff_telemetry idx last w :
  telemetry (backoff idx last w) = telemetry w /\ metrics_out (backoff idx last w) = metrics_out w.
Proof. by destruct idx. Qed.

(** The record of an answered attempt, and whether it was only staged. *)
Definition served_rec (t : AttemptModel) (d : Dispatched) (r : AttemptRecord) : Prop :=
  disp_target d = t /\ rec_target_model_id r = at_id t /\
  rec_success r = is_none (unsupported (disp_value d)) /\
  rec_dispatched r = is_none (unsupported (disp_value d)).

Definition is_deferred (d : Dispatched) : bool := negb (is_none (disp_deferred d)).

(** What one target's attempts leave behind. *)
Definition loop_post (t : AttemptModel) (member : option MultiReservation) (todo : nat)
    (last_err : option ProxyError) (w : Walk) (out : target_outcome) (w' : Walk) : Prop :=
  exists front last,
    let recs := front ++ option_list last in
    grown w w' (replicate (length recs) t) recs /\
    (length recs <= todo)%nat /\ Forall failed_rec front /\
    match out with
    | Served d =>
        member_reservation d = member /\
        (exists r, last = Some r /\ served_rec t d r /\
          is_deferred d = defer_outcome && rec_dispatched r /\
          (forall x, disp_deferred d = Some x -> x = (telemetry w', rec_index r))) /\
        emits w w' (front ++ if is_deferred d then [] else option_list last)
    | Failed e =>
        last = None /\ emits w w' front /\ (0 < length front)%nat /\
        worth_retrying e = false /\ target_unusable e = false
    | MoveOn e =>
        last = None /\ emits w w' front /\
        (front = [] -> todo = 0%nat /\ e = last_err) /\
        (front <> [] -> exists x, e = Some x /\ (worth_retrying x || target_unusable x) = true)
    end.

Lemma begin_requested name tel ik tel' :
  begin_attempt name tel = (ik, tel') -> requested_model tel' = requested_model tel.
Proof. unfold begin_attempt. by intros [= _ <-]. Qed.

Lemma attempt_failed_grown t w w0 ik tel started inf e :
  begin_attempt (name_of t) (telemetry w) = (ik, tel) ->
  telemetry w0 = tel -> metrics_out w0 = metrics_out w ->
  exists r, grown w (attempt_failed t ik started inf e w0) [t] [r] /\ failed_rec r /\
    emits w (attempt_failed t ik started inf e w0) [r].
Proof.
  intros Hb Ht Hm. unfold attempt_failed, walk_record. simpl.
  match goal with |- context [emit_metrics _ ?r0] => exists r0 end. split; [|split].
  - eapply grown_one; [done| |done..]. simpl. by rewrite Ht.
  - done.
  - unfold emits. simpl. rewrite Hm, app_nil_r. f_equal. apply emit_metrics_requested.
    rewrite Ht. by eapply begin_requested.
Qed.

Lemma attempt_succeeded_grown t w w0 ik tel started inf member v d w' :
  begin_attempt (name_of t) (telemetry w) = (ik, tel) ->
  telemetry w0 = tel -> metrics_out w0 = metrics_out w ->
  attempt_succeeded t ik started inf member v w0 = (d, w') ->
  member_reservation d = member /\
  exists r, grown w w' [t] [r] /\ served_rec t d r /\
    is_deferred d = defer_outcome && rec_dispatched r /\
    (forall x, disp_deferred d = Some x -> x = (telemetry w', rec_index r)) /\
    emits w w' (if is_deferred d then [] else [r]).
Proof.
  intros Hb Ht Hm. unfold attempt_succeeded.
  set (w1 := if is_none (unsupported v) then _ else w0).
  assert (telemetry w1 = tel /\ metrics_out w1 = metrics_out w) as [Ht1 Hm1]
    by (unfold w1; by destruct (is_none _)).
  clearbody w1.
  assert (requested_model tel = requested_model (telemetry w)) as Hq
    by (by eapply begin_requested).
  set (r := attempt_record t ik _ _ _ _ _ _).
  destruct (defer_outcome && is_none (unsupported v)) eqn:Ed; intros [= <- <-]; (split; [done|]); exists r;
    unfold served_rec, is_deferred; simpl; rewrite Ed; simpl;
    (split; [eapply grown_one; [exact Hb|simpl; by rewrite Ht1|done..]|]); (split; [done|]);
    (split; [by destruct defer_outcome|]); (split; [intros x ?; by simplify_eq|]); unfold emits; simpl.
  - by rewrite Hm1, app_nil_r.
  - rewrite Hm1, app_nil_r. f_equal. apply emit_metrics_requested. by rewrite Ht1.
Qed.

Lemma loop_post_cons t member todo last_err e w w1 out w' r :
  grown w w1 [t] [r] -> failed_rec r -> emits w w1 [r] -> worth_retrying e = true ->
  loop_post t member todo (Some e) w1 out w' -> loop_post t member (S todo) last_err w out w'.
Proof.
  intros Hg Hf He Hw (front & last & Hg' & Hlen & Hfront & Hout).
  exists (r :: front), last. split; [exact (grown_trans _ _ _ _ _ _ _ Hg Hg')|].
  split; [simpl; lia|]. split; [by constructor|].
  destruct out as [d|e'|e'].
  - destruct Hout as (Hm & Hl & Hem). split; [done|]. split; [done|].
    exact (emits_trans _ _ _ _ _ _ Hg He Hem).
  - destruct Hout as (-> & Hem & Hpos & Hrest). split; [done|].
    split; [exact (emits_trans _ _ _ _ _ _ Hg He Hem)|]. split; [simpl; lia|done].
  - destruct Hout as (-> & Hem & Hnil & Hcons). split; [done|].
    split; [exact (emits_trans _ _ _ _ _ _ Hg He Hem)|]. split; [done|]. intros _.
    destruct front as [|x front]; [|by apply Hcons].
    destruct (Hnil eq_refl) as [_ ->]. exists e. by rewrite Hw.
Qed.

Lemma loop_post_same t member todo last_err w0 w out w' :
  telemetry w0 = telemetry w -> metrics_out w0 = metrics_out w ->
  loop_post t member todo last_err w out w' -> loop_post t member todo last_err w0 out w'.
Proof.
  intros Ht Hm (front & last & Hg & Hlen & Hfront & Hout). exists front, last.
  split; [by eapply grown_before|]. split; [done|]. split; [done|].
  unfold emits in *. rewrite Ht, Hm. exact Hout.
Qed.

(** A single failure, after which the loop stops. *)
Lemma loop_post_stop t member todo last_err w w' r out :
  grown w w' [t] [r] -> failed_rec r -> emits w w' [r] ->
  match out with
  | Served _ => False
  | Failed e => worth_retrying e = false /\ target_unusable e = false
  | MoveOn e => exists x, e = Some x /\ (worth_retrying x || target_unusable x) = true
  end ->
  loop_post t member (S todo) last_err w out w'.
Proof.
  intros Hg Hf He Hout. exists [r], None. split; [exact Hg|]. split; [simpl; lia|].
  split; [by constructor|]. destruct out; [done| |]; (split; [done|]); (split; [exact He|]).
  - split; [simpl; lia|exact Hout].
  - split; [done|]. intros _. exact Hout.
Qed.

Lemma attempt_loop_post t budget timeouts member todo : forall idx last_err w out w',
  attempt_loop t budget timeouts member todo idx last_err w = (out, w') ->
  loop_post t member todo last_err w out w'.
Proof.
  induction todo as [|todo IH]; intros idx last_err w out w'; cbn [attempt_loop].
  { intros [= <- <-]. exists [], None. split; [by apply grown_same|]. split; [done|]. split; [constructor|].
    split; [done|]. split; [unfold emits; by rewrite app_nil_r|]. split; [done|]. by intros []. }
  destruct (backoff_telemetry idx last_err w) as [Ht Hm].
  set (w1 := backoff idx last_err w) in *. clearbody w1. intros Hrun.
  apply (loop_post_same _ _ _ _ w w1); [done..|]. clear Ht Hm w. revert Hrun. unfold walk_begin.
  destruct (begin_attempt (display_name (at_model t)) (telemetry w1)) as [ik tel] eqn:Hb.
  destruct (count_in_flight _ _ _) as [inf tr]. destruct (call _ _ _) as [[v|e] sh].
  - destruct (attempt_succeeded _ _ _ _ _ _ _) as [d w2] eqn:Es. intros [= <- <-].
    eapply attempt_succeeded_grown in Es as (Hmem & r & Hg & Hr & Hd & Hx & He); [|exact Hb|done|done].
    exists [], (Some r). split; [exact Hg|]. split; [simpl; lia|]. split; [constructor|].
    split; [done|]. split; [by exists r|]. exact He.
  - pose proof (failure_verdict_fst budget e) as Hv.
    destruct (failure_verdict budget e) as [retryable budget_covers]. simpl in Hv. subst retryable.
    set (w0 := on_shared _ _). set (w2 := attempt_failed _ _ _ _ _ w0).
    destruct (attempt_failed_grown t w1 w0 ik tel (mono (clock (sh_env (shared w1)))) inf e Hb eq_refl eq_refl)
      as (r & Hg & Hr & He).
    change (attempt_failed t ik (mono (clock (sh_env (shared w1)))) inf e w0) with w2 in Hg, He.
    clearbody w2. destruct (worth_retrying e) eqn:Ew; simpl.
    + destruct budget_covers; simpl.
      * intros Hrun. eapply loop_post_cons; [exact Hg|done|exact He|exact Ew|]. by eapply IH.
      * intros [= <- <-]. apply (loop_post_stop _ _ _ _ _ _ r); [done..|]. exists e. by rewrite Ew.
    + destruct (target_unusable e) eqn:Eu; intros [= <- <-]; apply (loop_post_stop _ _ _ _ _ _ r); try done.
      exists e. by rewrite Eu, orb_true_r.
Qed.

(** ** The walk over the targets *)

(** The calls a target may get at most. *)
Definition tries (has_more : bool) (t : AttemptModel) : nat :=
  S (N.to_nat (default (if has_more then 0 else default_retries)
                 (or_else (retries (at_model t)) (group_retries_of (value entry))))).

Lemma tries_budget has_more t :
  tries has_more t = S (attempts (effective_retries (at_model t) (group_retries_of (value entry)) default_retries has_more)).
Proof. unfold tries, effective_retries, or_else. by destruct (retries (at_model t)), (group_retries_of (value entry)), has_more. Qed.

Definition target_post (has_more : bool) (t : AttemptModel) (w : Walk) (out : target_outcome) (w' : Walk) : Prop :=
  exists front last,
    let recs := front ++ option_list last in
    grown w w' (replicate (length recs) t) recs /\
    (0 < length recs <= tries has_more t)%nat /\ Forall failed_rec front /\
    match out with
    | Served d =>
        (exists r, last = Some r /\ served_rec t d r /\
          is_deferred d = defer_outcome && rec_dispatched r /\
          (forall x, disp_deferred d = Some x -> x = (telemetry w', rec_index r))) /\
        emits w w' (front ++ if is_deferred d then [] else option_list last)
    | Failed e =>
        last = None /\ emits w w' front /\ worth_retrying e = false /\ target_unusable e = false
    | MoveOn e => last = None /\ emits w w' front /\ is_Some e
    end.

Lemma target_post_after has_more t w out w1 w2 :
  telemetry w1 = telemetry w2 -> metrics_out w1 = metrics_out w2 ->
  match out with Served _ => False | _ => True end ->
  target_post has_more t w out w1 -> target_post has_more t w out w2.
Proof.
  intros Ht Hm Ho (front & last & Hg & Hlen & Hf & Hout). exists front, last.
  split; [by eapply grown_after|]. split; [done|]. split; [done|]. unfold emits in *.
  rewrite <- Hm. destruct out; [done|exact Hout..].
Qed.

Lemma loop_post_target has_more t member budget last_err w out w' :
  (attempts budget < tries has_more t)%nat ->
  loop_post t member (S (attempts budget)) last_err w out w' -> target_post has_more t w out w'.
Proof.
  intros Hb (front & last & Hg & Hlen & Hf & Hout). exists front, last. split; [done|].
  assert (match out with Served d => is_Some last | _ => True end) as Hs
    by (destruct out; [|done..]; destruct Hout as (_ & (r & -> & _) & _); by eexists).
  split; [split; [|lia]|split; [done|]].
  - rewrite length_app. destruct out as [d|e|e].
    + destruct Hs as [r ->]. simpl. lia.
    + destruct Hout as (_ & _ & ? & _). lia.
    + destruct front; [|simpl; lia]. destruct Hout as (_ & _ & Hn & _). by destruct (Hn eq_refl).
  - destruct out as [d|e|e]; [tauto| |].
    + destruct Hout as (? & ? & _ & ?). tauto.
    + destruct Hout as (-> & He & Hnil & Hcons). split; [done|]. split; [done|].
      destruct front; [by destruct (Hnil eq_refl)|]. destruct Hcons as (x & -> & _); [done|]. by eexists.
Qed.

Lemma walk_target_post t has_more last_err w out w' :
  walk_target t has_more last_err w = (ROk out, w') -> target_post has_more t w out w'.
Proof.
  unfold walk_target. destruct (reserve_routing_target _ _ _ _ _ _ _ _ _ _ _ _ _ _ _) as [[member|[e|]] g]; [| |done].
  - destruct (attempt_loop _ _ _ _ _ _ _ _) as [o w2] eqn:El. intros Hrun.
    apply attempt_loop_post in El.
    assert (target_post has_more t w o w2) as Hp.
    { eapply loop_post_target; [|eapply loop_post_same; [| |exact El]; done].
      rewrite tries_budget. lia. }
    destruct o as [d|e|e]; simplify_eq; [exact Hp|..]; by eapply target_post_after; [| | |exact Hp].
  - unfold walk_begin. destruct (begin_attempt _ _) as [ik tel] eqn:Hb. intros [= <- <-].
    set (r := refused_record t ik e). exists [r], None. unfold walk_record, record. simpl. split.
    + eapply grown_one; [exact Hb|done..].
    + split; [unfold tries; lia|]. split; [by constructor|]. split; [done|]. split; [|by eexists].
      unfold emits. simpl. rewrite app_nil_r. f_equal. apply emit_metrics_requested. by eapply begin_requested.
Qed.

(** The attempts of the targets tried, each with its number of calls. *)
Definition attempts_of (tried : list (AttemptModel * nat)) : list AttemptModel :=
  tried ≫= fun '(t, n) => replicate n t.

Lemma attempts_of_one t n : attempts_of [(t, n)] = replicate n t.
Proof. unfold attempts_of. simpl. by rewrite app_nil_r. Qed.

(** Whether targets are left after the [i]th. *)
Definition more_after (targets : list AttemptModel) (i : nat) : bool := (S i <? length targets)%nat.
Definition tried_ok (targets : list AttemptModel) (tried : list (AttemptModel * nat)) : Prop :=
  forall i t n, tried !! i = Some (t, n) -> (0 < n <= tries (more_after targets i) t)%nat.

Lemma tried_ok_one t targets n :
  (0 < n <= tries (match targets with [] => false | _ => true end) t)%nat -> tried_ok (t :: targets) [(t, n)].
Proof. intros Hn [|i] u m; [|done]. intros [= <- <-]. by destruct targets. Qed.
Lemma tried_ok_cons t targets n tried :
  (0 < n <= tries (match targets with [] => false | _ => true end) t)%nat -> tried_ok targets tried ->
  tried_ok (t :: targets) ((t, n) :: tried).
Proof.
  intros Hn Hok [|i] u m; [intros [= <- <-]; by destruct targets|]. apply (Hok i).
Qed.

Definition walk_post (targets : list AttemptModel) (w : Walk)
    (r : result Dispatched (option ProxyError)) (w' : Walk) : Prop :=
  exists tried rest front last,
    targets = tried.*1 ++ rest /\ tried_ok targets tried /\
    grown w w' (attempts_of tried) (front ++ option_list last) /\ Forall failed_rec front /\
    match r with
    | ROk d =>
        (exists x, last = Some x /\ served_rec (disp_target d) d x /\
          is_deferred d = defer_outcome && rec_dispatched x /\
          (forall y, disp_deferred d = Some y -> y = (telemetry w', rec_index x))) /\
        emits w w' (front ++ if is_deferred d then [] else option_list last)
    | RErr (Some e) =>
        last = None /\ emits w w' front /\
        ((worth_retrying e = false /\ target_unusable e = false) \/
         (rest = [] /\ exists e0, e = match group_routing with
                                       | Some _ => group_refusal e0 requested_name
                                       | None => e0
                                       end))
    | RErr None => True
    end.

Lemma walk_post_cons t targets w w1 r w' front :
  grown w w1 (replicate (length front) t) front -> (0 < length front <= tries (match targets with [] => false | _ => true end) t)%nat ->
  Forall failed_rec front -> emits w w1 front ->
  walk_post targets w1 r w' -> walk_post (t :: targets) w r w'.
Proof.
  intros Hg Hlen Hf He (tried & rest & front' & last & Et & Hok & Hg' & Hf' & Hr).
  exists ((t, length front) :: tried), rest, (front ++ front'), last.
  split; [by rewrite Et|]. split; [by apply tried_ok_cons|].
  split; [rewrite <- app_assoc; exact (grown_trans _ _ _ _ _ _ _ Hg Hg')|].
  split; [by apply Forall_app|]. destruct r as [d|[e|]]; [| |done].
  - destruct Hr as [Hl He']. split; [done|]. rewrite <- app_assoc. exact (emits_trans _ _ _ _ _ _ Hg He He').
  - destruct Hr as (-> & He' & Hr). split; [done|]. split; [|done].
    exact (emits_trans _ _ _ _ _ _ Hg He He').
Qed.

Lemma walk_loop_post targets : forall last_err w r w',
  walk_loop targets last_err w = (r, w') -> r <> RErr None -> walk_post targets w r w'.
Proof.
  induction targets as [|t targets IH]; intros last_err w r w'; cbn [walk_loop].
  { intros [= <- <-] _. exists [], [], [], None. split; [done|]. split; [by intros i|].
    split; [by apply grown_same|]. split; [constructor|]. split; [done|].
    split; [unfold emits; by rewrite app_nil_r|]. right. split; [done|]. by eexists. }
  destruct (walk_target t _ last_err w) as [[[d|e|e]|panic] w1] eqn:Et.
  4: { unfold walk_target in Et. intros [= <- <-].
       destruct (reserve_routing_target _ _ _ _ _ _ _ _ _ _ _ _ _ _ _) as [[m|[x|]] g]; [| |by simplify_eq].
       - by destruct (attempt_loop _ _ _ _ _ _ _ _) as [[]].
       - by destruct (walk_begin _ _). }
  all: apply walk_target_post in Et as (front & last & Hg & Hlen & Hf & Hout).
  - intros [= <- <-] _. exists [(t, length (front ++ option_list last))], targets, front, last.
    split; [done|]. split; [by apply tried_ok_one|]. rewrite attempts_of_one.
    split; [done|]. split; [done|]. destruct Hout as [(x & -> & Hs & Hr) He]. split; [|done].
    exists x. split; [done|]. split; [|done]. by destruct Hs as (<- & ?).
  - intros [= <- <-] _. destruct Hout as (-> & He & Hw & Hu).
    exists [(t, length (front ++ option_list None))], targets, front, None.
    split; [done|]. split; [by apply tried_ok_one|]. rewrite attempts_of_one.
    split; [done|]. split; [done|]. split; [done|]. split; [done|]. by left.
  - destruct Hout as (-> & He & _). rewrite app_nil_r in Hg, Hlen. intros Hrun Hr.
    eapply walk_post_cons; [exact Hg|done..|]. by eapply IH.
Qed.

Lemma winner_snoc front x :
  Forall failed_rec front ->
  last (List.filter rec_success (front ++ [x])) = if rec_success x then Some x else None.
Proof.
  intros Hf. rewrite List.filter_app. induction Hf as [|r front Hr Hf IH]; simpl.
  - by destruct (rec_success x).
  - unfold failed_rec in Hr. by rewrite Hr.
Qed.

(** C13. What the walk tries, and how it ends.  Unless it panics, it tries a
    prefix of its targets in order, each at least once and at most one more time
    than its retries: its own setting, else that of the model or group addressed,
    else - for the last target only, since the others have another to fall back
    to - the deployment's default; every attempt is recorded, in order, under its
    target, its position, and the kind (initial, retry, fallback) the previous
    target's name gives it.  A success is the last record, the only one not a failure, and
    the telemetry's winner unless the route refused the provider; a failure has
    failed records only, and was either a failure worth neither a retry nor
    another target, or comes after every target has been tried. *)
Theorem walk_recorded targets w r w' :
  tel_attempts (telemetry w) = [] ->
  walk_loop targets None w = (r, w') -> r <> RErr None ->
  let recs := tel_attempts (telemetry w') in
  exists tried rest, targets = tried.*1 ++ rest /\
    (forall i t n, tried !! i = Some (t, n) -> (0 < n <= tries (more_after targets i) t)%nat) /\
    rec_target_model_id <$> recs = at_id <$> attempts_of tried /\
    rec_kind <$> recs = kinds None (name_of <$> attempts_of tried) /\
    (forall j x, recs !! j = Some x -> rec_index x = N.of_nat j mod u32_mod) /\
    match r with
    | ROk d =>
        exists front x, recs = front ++ [x] /\ Forall failed_rec front /\
          served_rec (disp_target d) d x /\
          winner (telemetry w') = if rec_success x then Some x else None
    | RErr (Some e) =>
        Forall failed_rec recs /\
        ((worth_retrying e = false /\ target_unusable e = false) \/
         (rest = [] /\ exists e0, e = match group_routing with
                                       | Some _ => group_refusal e0 requested_name
                                       | None => e0
                                       end))
    | RErr None => False
    end.
Proof.
  intros Hnew Hrun Hr recs. apply walk_loop_post in Hrun as (tried & rest & front & last & Ht & Hok & Hg & Hf & Hout);
    [|done].
  destruct Hg as [A Q I X K]. rewrite Hnew in A, X. unfold recs.
  destruct K as (_ & K & _); [by left|]. unfold prev_of in K. rewrite Hnew in K.
  exists tried, rest. split; [done|]. split; [done|]. rewrite A. split; [done|]. split; [done|].
  split; [exact X|]. destruct r as [d|[e|]]; [| |done].
  - destruct Hout as [(x & -> & Hs & _) _]. exists front, x. split; [done|]. split; [done|].
    split; [done|]. unfold winner. rewrite A. by apply winner_snoc.
  - destruct Hout as (-> & _ & He). rewrite app_nil_r. by split.
Qed.

(** The record a deferred attempt is finally reported as. *)
Definition finished (status : N) (success : bool) (r : AttemptRecord) : AttemptRecord :=
  mkRecord (rec_index r) (rec_kind r) (rec_target_model r) (rec_target_model_id r)
    (rec_provider_key_id r) status success (rec_error_class r) (rec_error_message r) (rec_latency_ms r)
    (rec_dispatched r).

(** Every attempt reaches the metrics exactly once.  A walk emits what each
    of its records asks for, in order, except a streamed winner's; finishing that
    one, when the stream has ended, emits what its record asks for under the
    terminal status, and a second finish emits nothing. *)
Theorem outcomes_emitted_once targets w r w' status success :
  tel_attempts (telemetry w) = [] ->
  walk_loop targets None w = (r, w') -> r <> RErr None ->
  N.of_nat (length (tel_attempts (telemetry w'))) < u32_mod ->
  let recs := tel_attempts (telemetry w') in
  let deferred := match r with ROk d => disp_deferred d | RErr _ => None end in
  let '(late, spent) := deferred_finish status success deferred in
  spent = None /\
  metrics_out w' ++ late =
  metrics_out w ++ flat_map (emit_metrics (telemetry w))
    (match deferred with
     | Some _ => take (length recs - 1) recs ++ (finished status success <$> drop (length recs - 1) recs)
     | None => recs
     end).
Proof.
  intros Hnew Hrun Hr Hlen recs deferred. unfold recs in *. clear recs.
  apply walk_loop_post in Hrun as (tried & rest & front & last & _ & _ & Hg & Hf & Hout); [|done].
  destruct Hg as [A Q I X _]. rewrite Hnew in A, X. simpl in A. rewrite A in *.
  destruct r as [d|[e|]]; [| |done].
  2: { destruct Hout as (-> & He & _). unfold deferred. simpl. rewrite !app_nil_r. split; [done|]. exact He. }
  destruct Hout as [(x & -> & Hs & Hd & Hx) He]. unfold is_deferred in *. unfold deferred. clear deferred.
  destruct (disp_deferred d) as [[tel index]|] eqn:Ed.
  - specialize (Hx _ eq_refl). injection Hx as -> ->. simpl in *. split; [done|].
    unfold emits in He. rewrite app_nil_r in He. rewrite He, <- app_assoc, length_app, Nat.add_sub.
    rewrite take_app_length, drop_app_length, flat_map_app. f_equal. f_equal.
    specialize (X (length front) x). cbn [length Nat.add] in X. unfold finish_staged.
    rewrite X by (by rewrite lookup_app_r, Nat.sub_diag by done).
    rewrite N.mod_small, Nat2N.id by (rewrite length_app in Hlen; simpl in Hlen; lia).
    rewrite A, lookup_app_r, Nat.sub_diag by done. simpl. rewrite app_nil_r.
    by apply emit_metrics_requested.
  - simpl. rewrite app_nil_r. split; [done|]. exact He.
Qed.

(** ** What a walk holds *)

Section held.
Context {Hlaws : RateStoreLaws St}.
(** The route's calls reserve nothing: they leave the gate's state alone. *)
Context (call_leaves_gate : forall t timeouts sh, sh_gate (snd (call t timeouts sh)) = sh_gate sh).

Abbreviation limiter_of w := (gate_limiter (sh_gate (shared w))).

Lemma backoff_gate idx last w : sh_gate (shared (backoff idx last w)) = sh_gate (shared w).
Proof. by destruct idx. Qed.

Lemma mark_failure_gate t e sh : sh_gate (mark_failure t e sh) = sh_gate sh.
Proof. unfold mark_failure. destruct e; try done. by case_match. Qed.

Lemma attempt_succeeded_gate t ik started inf member v w d w' :
  attempt_succeeded t ik started inf member v w = (d, w') -> sh_gate (shared w') = sh_gate (shared w).
Proof.
  unfold attempt_succeeded. destruct (defer_outcome && _); intros [= _ <-]; simpl; by destruct (is_none _).
Qed.

Lemma attempt_loop_gate t budget timeouts member todo : forall idx last_err w out w',
  attempt_loop t budget timeouts member todo idx last_err w = (out, w') ->
  sh_gate (shared w') = sh_gate (shared w).
Proof.
  induction todo as [|todo IH]; intros idx last_err w out w'; cbn [attempt_loop]; [by intros [= _ <-]|].
  rewrite <- (backoff_gate idx last_err w). generalize (backoff idx last_err w). clear w. intros w.
  unfold walk_begin. destruct (begin_attempt _ _) as [ik tel].
  destruct (count_in_flight _ _ _) as [inf tr]. simpl.
  match goal with |- context [call t timeouts ?sh0] => pose proof (call_leaves_gate t timeouts sh0) as Hc end.
  destruct (call _ _ _) as [[v|e] sh]; simpl in Hc.
  - destruct (attempt_succeeded _ _ _ _ _ _ _) as [d w2] eqn:Es. intros [= _ <-].
    by rewrite (attempt_succeeded_gate _ _ _ _ _ _ _ _ _ Es).
  - assert (forall w0, sh_gate (shared (attempt_failed t ik (mono (clock (sh_env (shared w)))) inf e w0)) =
      sh_gate (shared w0)) as Hf by (intros w0; simpl; apply mark_failure_gate).
    destruct (failure_verdict budget e) as [[] []]; cbn [negb].
    + intros Hrun. apply IH in Hrun. rewrite Hrun, Hf. exact Hc.
    + intros [= _ <-]. rewrite Hf. exact Hc.
    + destruct (target_unusable e); intros [= _ <-]; rewrite Hf; exact Hc.
    + destruct (target_unusable e); intros [= _ <-]; rewrite Hf; exact Hc.
Qed.

(** The layers a target can have: its inline limit, and two per policy. *)
Definition max_layers : N := N.of_nat (1 + 2 * length (entries (rate_limit_policies snapshot))).

Lemma target_layers_bound name id m parent pc now :
  N.of_nat (length (target_layers parse_tz weekday parse_date regex parse_f64 usd snapshot auth name id m
    parent pc now)) <= max_layers.
Proof.
  unfold target_layers, max_layers, policy_layers. rewrite length_app.
  assert (length (inline_layers (from_model name id m)) <= 1)%nat as H1
    by (unfold inline_layers; by destruct (mrl_limits _); simpl; lia).
  set (i := condition_input _ _ _).
  assert (forall es, length (omap (in_effect parse_tz weekday parse_date regex parse_f64 i PhaseModelTarget now) es
    ≫= fun '(e, layer) => layers_of usd i pc e layer) <= 2 * length es)%nat as H2.
  { induction es as [|e es IH]; [done|]. simpl.
    destruct (in_effect _ _ _ _ _ _ _ _ e) as [[e' L]|]; [|etransitivity; [exact IH|lia]].
    rewrite bind_cons, length_app. etransitivity; [apply Nat.add_le_mono; [|exact IH]|].
    2: { instantiate (1 := 2%nat). lia. }
    unfold layers_of, restricted. rewrite length_app. simpl.
    destruct (is_unrestricted _), (layer_spend L); simpl; lia. }
  specialize (H2 (entries (rate_limit_policies snapshot))). lia.
Qed.

(** The gate's state between two targets. *)
Record gate_ready (n : N) (w : Walk) : Prop := {
  rdy_cache : cache_sound (policy_cache (sh_gate (shared w))) (rate_limit_policies snapshot);
  rdy_fresh : fresh_members (limiter_of w);
  rdy_seq : seq (limiter_of w) + n * max_layers < 2 ^ 64;
}.

Lemma walk_target_held n t has_more last_err w r w' :
  policies_valid regex snapshot -> gate_ready (N.succ n) w ->
  walk_target t has_more last_err w = (r, w') ->
  match r with
  | RErr _ => False
  | ROk (Served d) =>
      (forall k m, m ∈ holders (store (limiter_of w')) k <->
         m ∈ holders (store (limiter_of w)) k \/ (k, m) ∈ slot_of <$> default [] (member_reservation d))
  | ROk _ => (forall k, holders (store (limiter_of w')) k = holders (store (limiter_of w)) k) /\ gate_ready n w'
  end.
Proof.
  intros Hv [Hc Hf Hs]. unfold walk_target, reserve_routing_target, reserve_routing_target_counted.
  destruct routing_parent_of as [parent|].
  - set (layers := target_layers parse_tz weekday parse_date regex parse_f64 usd snapshot auth
      (display_name (at_model t)) (at_id t) (at_model t) (Some parent) (CountSkip []) (utc (sh_env (shared w)))).
    pose proof (target_layers_bound (display_name (at_model t)) (at_id t) (at_model t) (Some parent)
      (CountSkip []) (utc (sh_env (shared w)))) as Hb. fold layers in Hb.
    pose proof (admits_holds in_runtime _ _ layers (sh_gate (shared w))
      (reserve_model_layers_admits in_runtime parse_tz weekday parse_date regex parse_f64 usd snapshot auth
         (display_name (at_model t)) (at_id t) (at_model t) (Some parent) (CountSkip [])
         (utc (sh_env (shared w))) Hv) Hc Hf ltac:(lia)) as Hh.
    unfold stm_bind, stm_ret. destruct (reserve_model_layers _ _ _ _ _ _ _ _ _ _ _ _ _ _ _ _) as [[ms|e] g'].
    + destruct Hh as (Hc' & Hseq & Hts & _). cbv beta iota zeta.
      destruct (attempt_loop _ _ _ _ _ _ _ _) as [o w2] eqn:El.
      pose proof (attempt_loop_gate _ _ _ _ _ _ _ _ _ _ El) as Hg. simpl in Hg.
      apply attempt_loop_post in El.
      assert (balanced (seq (gate_limiter g') - seq (limiter_of w)) (limiter_of w)
        (limiter_of (drop_member (Some ms) w2))) as Hbal.
      { simpl. rewrite Hg. by apply taken_since_dropped. }
      assert ((forall k, holders (store (limiter_of (drop_member (Some ms) w2))) k =
                         holders (store (limiter_of w)) k) /\ gate_ready n (drop_member (Some ms) w2)) as Hdrop.
      { split; [apply Hbal|]. split; [simpl; by rewrite Hg|by eapply balanced_fresh|].
        destruct Hbal as [_ _ ?]. lia. }
      destruct o as [d|e|e]; intros [= <- <-]; [|exact Hdrop..].
      destruct El as (front & last & _ & _ & _ & Hm & _). rewrite Hm, Hg. apply Hts.
    + destruct Hh as (Hc' & Hseq & He & Hbal). destruct e as [e|]; [|done]. cbv beta iota zeta.
      unfold walk_begin. destruct (begin_attempt _ _) as [ik tel]. intros [= <- <-]. simpl.
      split; [apply Hbal|]. split; [done|by eapply balanced_fresh|]. simpl. lia.
  - unfold stm_ret. cbv beta iota zeta. destruct (attempt_loop _ _ _ _ _ _ _ _) as [o w2] eqn:El.
    pose proof (attempt_loop_gate _ _ _ _ _ _ _ _ _ _ El) as Hg. simpl in Hg. apply attempt_loop_post in El.
    assert ((forall k, holders (store (limiter_of (drop_member None w2))) k = holders (store (limiter_of w)) k)
      /\ gate_ready n (drop_member None w2)) as Hdrop.
    { simpl. rewrite Hg. split; [done|]. split; simpl; rewrite ?Hg; [done..|]. simpl. lia. }
    destruct o as [d|e|e]; intros [= <- <-]; [|exact Hdrop..].
    destruct El as (front & last & _ & _ & _ & Hm & _). rewrite Hm, Hg. simpl. intros k m.
    rewrite elem_of_nil. tauto.
Qed.

(** C28. A walk gives back what it reserved.  Over well-formed policies and a
    sound cached index it never panics; when it fails, whichever of its targets
    refused, failed or were retried, every concurrency slot is held as before,
    and when it succeeds the only new holders are those of the reservation handed
    to the caller with the answer.  This is of the walk itself: the route's calls
    are taken to leave the gate's state alone, as every route's do. *)
Theorem walk_releases targets last_err w r w' :
  policies_valid regex snapshot -> gate_ready (N.of_nat (length targets)) w ->
  walk_loop targets last_err w = (r, w') ->
  match r with
  | RErr e => e <> None /\
      forall k, holders (store (limiter_of w')) k = holders (store (limiter_of w)) k
  | ROk d =>
      forall k m, m ∈ holders (store (limiter_of w')) k <->
        m ∈ holders (store (limiter_of w)) k \/ (k, m) ∈ slot_of <$> default [] (member_reservation d)
  end.
Proof.
  intros Hv. revert last_err w. induction targets as [|t targets IH]; intros last_err w Hr; cbn [walk_loop].
  { intros [= <- <-]. split; [|done]. by destruct group_routing. }
  cbn [length] in Hr. rewrite Nat2N.inj_succ in Hr.
  destruct (walk_target t _ last_err w) as [o w1] eqn:Et.
  pose proof (walk_target_held _ _ _ _ _ _ _ Hv Hr Et) as Hh.
  destruct o as [[d|e|e]|e]; [| | |done].
  - intros [= <- <-]. exact Hh.
  - intros [= <- <-]. split; [done|apply Hh].
  - destruct Hh as [Hh Hr1]. intros Hrun. specialize (IH e w1 Hr1 Hrun).
    destruct r as [d|x]; [intros k m|destruct IH as [? IH]; split; [done|intros k]]; rewrite IH, ?Hh; done.
Qed.
End held.
End walk.

(** ** Witnesses: a group of two whose first member answers 503, as a stream. *)

Definition demo_target (id : string) : AttemptModel :=
  mkAttempt id (mkModel id (Some "ka") None None (Some 1) None None false false None None None None
                  (Some demo_limit) None None) 0 1.
Definition demo_call (t : AttemptModel) (_ : TimeoutBudget) (sh : @Shared LocalStore nat)
    : result unit ProxyError * Shared :=
  (if bool_decide (at_id t = "ia") then RErr (PeBridge (UpstreamStatus 503 "" None)) else ROk tt, sh).
Definition demo_walk_start : Walk :=
  mkWalk (mkShared demo_gate registry_new (tracker_new true) ∅ 0%nat) (for_request "g") [].
Definition demo_walk_loop :=
  walk_loop (St := LocalStore) (E := nat) false no_tz (fun _ => Mon) (fun _ => None) no_regex no_f64 (fun _ => "")
    (fun e => mkClocks 0 (N.of_nat e * 1000000)) (fun _ => tt) (fun _ => 0) (fun _ e => S e)
    id (fun _ => "") (fun _ => "") true 0 (mkDefaults None None) demo_snapshot (demo_auth "t1" "dev") "g"
    (mkEntry "ig" (demo_group RoundRobin) 1) true (fun _ => true) (fun _ => None) demo_call
    [demo_target "ia"; demo_target "ib"] None demo_walk_start.

Lemma demo_walk_ends : exists d, fst demo_walk_loop = ROk d /\ fst demo_walk_loop <> RErr None.
Proof.
  assert (match fst demo_walk_loop with ROk _ => true | RErr _ => false end = true) as Ha
    by (vm_compute; reflexivity).
  destruct (fst demo_walk_loop) as [d|e]; [by exists d|discriminate Ha].
Qed.

Lemma walk_recorded_witness :
  let w' := snd demo_walk_loop in
  rec_kind <$> tel_attempts (telemetry w') = ["initial"; "retry"; "fallback"] /\
  exists tried rest, [demo_target "ia"; demo_target "ib"] = tried.*1 ++ rest /\
    rec_kind <$> tel_attempts (telemetry w') = kinds None (name_of <$> attempts_of tried).
Proof.
  intros w'. split; [vm_compute; reflexivity|]. destruct demo_walk_ends as (_ & _ & Hr).
  destruct (walk_recorded (St := LocalStore) (E := nat) false no_tz (fun _ => Mon) (fun _ => None) no_regex no_f64 (fun _ => "")
    (fun e => mkClocks 0 (N.of_nat e * 1000000)) (fun _ => tt) (fun _ => 0) (fun _ e => S e)
    id (fun _ => "") (fun _ => "") true 0 (mkDefaults None None) demo_snapshot (demo_auth "t1" "dev") "g"
    (mkEntry "ig" (demo_group RoundRobin) 1) true (fun _ => true) (fun _ => None) demo_call
    [demo_target "ia"; demo_target "ib"] demo_walk_start (fst demo_walk_loop) w' eq_refl
    (surjective_pairing _) Hr) as (tried & rest & H1 & _ & _ & H2 & _).
  exists tried, rest. exact (conj H1 H2).
Defined.

Lemma outcomes_emitted_once_witness :
  let w' := snd demo_walk_loop in
  let recs := tel_attempts (telemetry w') in
  let deferred := match fst demo_walk_loop with ROk d => disp_deferred d | RErr _ => None end in
  metrics_out w' = [AmDeployment "ia" OutUpstreamError; AmDeployment "ia" OutUpstreamError] /\
  fst (deferred_finish 502 false deferred) =
    [AmDeployment "ib" OutUpstreamError; AmFallback false "g" "ib"] /\
  let '(late, spent) := deferred_finish 502 false deferred in
  spent = None /\
  metrics_out w' ++ late =
  [] ++ flat_map (emit_metrics (for_request "g"))
    (match deferred with
     | Some _ => take (length recs - 1) recs ++ (finished 502 false <$> drop (length recs - 1) recs)
     | None => recs
     end).
Proof.
  intros w' recs deferred. split; [vm_compute; reflexivity|]. split; [vm_compute; reflexivity|].
  destruct demo_walk_ends as (_ & _ & Hr).
  apply (outcomes_emitted_once (St := LocalStore) (E := nat) false no_tz (fun _ => Mon) (fun _ => None) no_regex no_f64 (fun _ => "")
    (fun e => mkClocks 0 (N.of_nat e * 1000000)) (fun _ => tt) (fun _ => 0) (fun _ e => S e)
    id (fun _ => "") (fun _ => "") true 0 (mkDefaults None None) demo_snapshot (demo_auth "t1" "dev") "g"
    (mkEntry "ig" (demo_group RoundRobin) 1) true (fun _ => true) (fun _ => None) demo_call
    [demo_target "ia"; demo_target "ib"] demo_walk_start (fst demo_walk_loop) w' 502 false eq_refl
    (surjective_pairing _) Hr).
  vm_compute. reflexivity.
Defined.

Lemma walk_releases_witness :
  let w' := snd demo_walk_loop in
  let lim' := gate_limiter (sh_gate (shared w')) in
  size (holders (store lim') "model:ia") = 0%nat /\ size (holders (store lim') "model:ib") = 1%nat /\
  match fst demo_walk_loop with
  | RErr e => e <> None /\ forall k, holders (store lim') k = holders (store (gate_limiter demo_gate)) k
  | ROk d => forall k m, m ∈ holders (store lim') k <->
      m ∈ holders (store (gate_limiter demo_gate)) k \/ (k, m) ∈ slot_of <$> default [] (member_reservation d)
  end.
Proof.
  intros w' lim'. split; [vm_compute; reflexivity|]. split; [vm_compute; reflexivity|].
  apply (walk_releases (St := LocalStore) (E := nat) false no_tz (fun _ => Mon) (fun _ => None) no_regex no_f64 (fun _ => "")
    (fun e => mkClocks 0 (N.of_nat e * 1000000)) (fun _ => tt) (fun _ => 0) (fun _ e => S e)
    id (fun _ => "") (fun _ => "") true 0 (mkDefaults None None) demo_snapshot (demo_auth "t1" "dev") "g"
    (mkEntry "ig" (demo_group RoundRobin) 1) true (fun _ => true) (fun _ => None) demo_call
    (fun _ _ _ => eq_refl)
    [demo_target "ia"; demo_target "ib"] None demo_walk_start (fst demo_walk_loop) w').
  - constructor.
  - split; [apply no_cache_sound| |vm_compute; reflexivity]. intros k j _ Hin. by apply elem_of_empty in Hin.
  - apply surjective_pairing.
Defined.

(** A target refused by its own spend ceiling is recorded under another class
    than the one the refusal reports everywhere else. *)
Lemma refused_class_diverges snapshot entry t ik debug display id usd e policy member :
  let err := (reject_spend usd e id policy member).2 in
  rec_error_class (refused_record debug display snapshot entry t ik err) = "rate_limit_exceeded" /\
  error_class err = "billing_error".
Proof. done. Qed.
